(* ===== verification/_CoqProject ===== *)
-Q . S2P
Prelude.v
GoStrings.v
ClaimRelease.v
SharedClaim.v
ClaimLedger.v
ClaimTransitions.v
ClaimStartup.v
ClaimLedgerFacts.v
ClaimLedgerRefinement.v
ClaimLedgerProps.v
ClaimLedgerFunctional.v
Conditions.v
ConditionsProps.v
Api.v
RunControl.v
RunnerCap.v
RunnerCapProps.v
RunnerSolve.v
RunnerSolveProps.v
Walk.v
WorkflowMachine.v
WorkflowProps.v
WorkflowParallel.v
WorkflowParallelProps.v
RepoHandoff.v
RepoHandoffProps.v
ByteLog.v
JournalEvent.v
JournalPhase.v
JournalLogFacts.v
JournalPhaseProps.v
JournalRun.v
JournalRunProps.v
JournalInstance.v
JournalInstanceProps.v
JournalCompact.v
JournalCompactProps.v
JournalRetention.v
JournalFollow.v
ReleaseReason.v
JournalExample.v
BlockedCycle.v
BlockedCycleProps.v
BlockedComment.v
BlockedCommentProps.v
GoText.v
GateFindings.v
GateEvaluate.v
GateResume.v
GateResumeFacts.v
GateResumeProps.v
GateProps.v
GateRunJournal.v
GateChecks.v
GateChecksProps.v
GateExample.v
FindingLedger.v
FindingLedgerProps.v
FindingCommit.v
VerdictPublication.v
VerdictPublicationProps.v
CanonicalJSON.v
CanonicalNumber.v
CanonicalValues.v
CanonicalForm.v
Fanout.v
FanoutVisit.v
FanoutVisitProps.v
FanoutFreezeProps.v
FanoutProps.v
StageContract.v
PathSimulationProps.v
StageContractProps.v
StagePlacement.v
StagePlacementProps.v
LabelPredicate.v
FieldPredicate.v
FieldOrder.v
PredicateProps.v
FieldOrderProps.v
