(* ===== verification/Prelude.v ===== *)
(** * Goobers: a verification development

    Goobers is an orchestrator for agent workflows.  A daemon per instance
    claims backlog items, admits runs against configured capacity, and walks
    each run through a workflow, a state machine of tasks, gates and parallel
    fan-outs that an author declares and a compiler checks.  This development
    models the parts of it that decide: who may work on an item, when a run may
    start or resume, how often a run may repeat work, and which workflow
    definitions are accepted; and the part that remembers, the journals from
    which a restarted daemon learns what happened.

    ** Parts and files

    - [Prelude]: results, instants, machine integers, the boolean reflection
      tactics and hint database; [GoStrings]: bytes, UTF-8, escaping and sorting
      as the Go standard library does them.
    - [ClaimRelease] ([internal/claimrelease], [internal/truncate]): why a claim
      ended.  [Sanitize], regular expressions over a secret scrubber, is a
      parameter.
    - [SharedClaim] ([internal/sharedclaim]): leases shared between instances,
      kept by a provider with compare-and-swap.  The provider is the class
      [Store]; every call passes a world in which other instances may have taken
      any number of steps; [StoreLaws] is what the protocol relies on, and
      [mem_store] implements it.
    - [ClaimLedger], [ClaimTransitions], [ClaimStartup]
      ([internal/localscheduler/claim*.go], [shared_*.go], [renewal.go]): the
      ledger of one instance.  Its state is the record [ClaimLedger] (entries,
      history, the file, the journal, the observer's snapshots); each method,
      which holds the lock throughout, is one function of the environment of the
      call (clock readings, the fate of the write) and the ledger.  A restart reads
      the file back as [encoding/json] does, which replaces invalid UTF-8.
    - [ClaimLedgerFacts], [ClaimLedgerRefinement]: the abstract ledger, a set of
      allowed edits of entries and history, and the proof that every operation
      is one transaction of such edits, or, for the migration of item-only keys, of
      moves of entries.  [ClaimLedgerProps] and
      [ClaimLedgerFunctional] draw the consequences.
    - [Conditions], [ConditionsProps] ([internal/localscheduler/conditions.go],
      [continuation_claims.go]): admission of starts and resumes, budgets, and
      the claims of parked parents.
    - [Api] ([api/v1alpha1/workflow_types.go]): the declarations of a workflow.
    - [RunControl] ([internal/runcontrol]): repass budgets and inherited policy.
    - [RunnerCap], [RunnerCapProps] ([internal/runnercap]): capability tokens,
      isolation effects and class labels; SHA-256 is a parameter.
    - [RunnerSolve], [RunnerSolveProps] ([internal/runnersolve]): which declared
      runners may execute a stage; Kubernetes quantities are a parameter.
    - [Walk]: the worklist walk and the repeated pass the compiler's analyses
      are made of, with their exactness proofs.
    - [WorkflowMachine], [WorkflowProps] ([internal/workflow/internal/model],
      [v_3_0/compile.go]): the state machine and its structural, reachability
      and gate outcome rules.
    - [WorkflowParallel], [WorkflowParallelProps] ([v_3_0/parallel.go],
      [graph.go]): fan-out rules and the graph projection.
    - [RepoHandoff], [RepoHandoffProps] ([v_3_0/repofrom.go]): rule WF022, the
      declared repository handoffs, with a pipeline on which the workflow
      theorems are applied.
    - [ByteLog]: files as lists of bytes, lines, prefixes that a crash leaves; its
      module [Scrub] ([scrub.go]) is the registry of secrets and their redaction.
      [JournalEvent], [JournalLogFacts] ([internal/journal],
      [event.go], [eventlog.go], [reader.go]): one event per line, appended with
      a write that may stop anywhere, and read back past a torn tail.  The JSON
      text, the chain of scrubbers and the validation of agent events are the class
      [EventCodec]; [JSONLaws] is what the log relies on of the encoder.  Of the
      scrubbers nothing is assumed: a line [survives] them if it is still one line
      that reads back with the sequence, schema, type and time of its event, and the
      theorems ask that of the lines that are written.  [JournalExample] holds
      codecs that satisfy the laws, one of them over the registry of [Scrub] with
      a secret that breaks a line.
    - [JournalPhase], [JournalPhaseProps] ([reader.go],
      [runphasetail.go], [terminalcause.go], [branchcursor.go]): the phase,
      reason, gate wait and branch cursors a log implies, and the bounded
      backward scan for the phase.
    - [JournalRun], [JournalRunProps] ([run.go], [recover] of [reader.go]): the
      writer of one run journal with its checkpoint, and recovery.  A step of
      [journal_step] is a call, a crash or a recovery.
    - [JournalInstance], [JournalInstanceProps] ([instance.go],
      [instancetail.go], [instancelogtail.go]): the journal of an instance,
      appended by many handles, and its follower; [JournalCompact],
      [JournalCompactProps], [JournalRetention], [JournalFollow] ([compact.go],
      [instancetickskips.go], [instancegen.go]): the two compaction passes,
      which install a new generation under open handles.
    - [ReleaseReason] ([internal/localscheduler/releasereason.go]): why a
      finished run releases its claims, from its journal.
    - [BlockedCycle], [BlockedCycleProps], [BlockedComment],
      [BlockedCommentProps] ([internal/blockedcycle]): cycles of items that
      block each other, and the bounded comments that report them.
    - [GoText]: more of the Go string functions; [GateFindings]
      ([internal/gate/learningfindings.go], [reviewfindingevidence.go],
      [repeatedfinding.go], [internal/learning/episode.go]): the identity of a
      reviewer's findings and the three rules that drop or arbitrate them;
      [GateEvaluate] ([evaluate.go], [mechanical.go], [journal.go],
      [reviewer.go], [reviewer_attempts.go], [parity.go]): the evaluator of one
      run, in a monad over its state, the outside world and the journal.  What
      the runner binds into an evaluator is the record [Wiring]; the journal is
      the class [GateJournal] with its laws [GateJournalLaws], which
      [GateRunJournal] discharges for the run journal of [JournalRun].
    - [GateResume] ([internal/runner/resume.go], [handoff_validation.go],
      [rerun.go]): the counters and digests a restarted runner reads back from the
      journal, with those that the rerun of a gate resets.
      [GateResumeFacts], [GateResumeProps], [GateProps] hold the proofs and
      [GateExample] the runs on which they are applied.
    - [GateChecks], [GateChecksProps]
      ([internal/gate/automated.go], [artifacts.go], [internal/failureclass]):
      the registered checks, the classes of a failed stage, the cache of
      compiled patterns, and their composition with the compiler's gate rules
      and the evaluator.  Floating point text and regular expressions are the
      classes [NumberText] and [Regexp].
    - [FindingLedger], [FindingLedgerProps], [FindingCommit]
      ([internal/findingledger]): the findings of merge reviews that stand on a
      head; [VerdictPublication], [VerdictPublicationProps]
      ([cmd/goobers/verdictcommit.go],
      [verdictstate.go], parts of [applyverdict.go] and
      [internal/remediationselect]): the transaction on the one stored verdict of
      a pull request and what a merge reads.  A step of [publication] is one
      publication; comments project any earlier records.
    - [CanonicalJSON], [CanonicalNumber], [CanonicalValues],
      [CanonicalForm] ([internal/jcs]): the canonical serialization of JSON.  The
      decoder is the class [JSONDecode] and doubles are the class [Doubles], of
      which [DoubleLaws] says that every well-formed decimal text (digits, with
      digits in the exponent if there is one) that denotes the shortest digits of a
      double parses to it.
    - [Fanout] ([internal/fanout], [internal/journal/mapfanout.go]): rosters
      frozen from a source document; [FanoutVisit] ([verify.go],
      [frozen_roster.go], [selection.go], [internal/runner/fanout_source.go],
      [fanout_resume.go], [internal/workflowgraph]): frozen blobs, the visit of
      a map, a state machine over the journaled events, and the scan for the
      pending fan-out.  [FanoutVisitProps],
      [FanoutFreezeProps], [FanoutProps] hold the proofs, the last with a visit
      on which they are applied.  SHA-256, the schemas and
      the JSON encodings are the classes [SHA256], [FanoutDocuments] and
      [SelectionDocuments].
    - [StageContract] ([v_3_0/stagecontract.go], [pathsimulation.go],
      [requiredinputs.go], the branch references of [parallel.go],
      [internal/runsemantics/inputsfrom.go], [branchinputs.go],
      [expectedoutputs.go]): what tasks read from earlier ones, as the compiler
      checks it and as the runner resolves it.  [PathSimulationProps] holds the
      proofs about the memoized walk, [StageContractProps] the runs of a workflow,
      a step relation, and a workflow on which the theorems are applied.
    - [StagePlacement] ([v_3_0/runson.go], [derive.go], [placement.go],
      [internal/workflow/placement.go], [isolationplacements.go], the router and
      the rules for versions before 3.0 of [compile.go], [internal/instance/runners.go],
      [isolation.go], [selfexecution.go], [placement.go],
      [internal/dispatcher/selection.go], [queue.go], [placement.go],
      [internal/bootstrap/placement.go]): what a stage requires of a runner by the
      DSL version of its workflow, the runners an instance declares, and the placements pinned when a run starts,
      through the solver of [RunnerSolve].  Regular expressions are a type
      [pattern] matched by derivatives.  [StagePlacementProps] holds the proofs
      and two runs on which they are applied.
    - [LabelPredicate], [FieldPredicate], [FieldOrder] ([internal/labelpredicate],
      [internal/fieldpredicate], [sortEligibleByFields] of
      [cmd/goobers/backlogquery.go]): the predicates that select backlog items and
      the order they are claimed in.  CEL is the classes [LabelCEL] and
      [FieldCEL], with the laws of its operators as [LabelLaws] and [FieldLaws],
      and doubles are [Floats].  [PredicateProps], [FieldOrderProps] hold the
      proofs, the last with an evaluator that satisfies the laws.

    ** What the theorems show

    - Ledger: every operation refines an atomic transaction, so memory and file
      agree or the operation is undone; a live lease is exclusive; a pending
      release and a revocation survive everything else, restarts included; the
      file loads again if it is valid UTF-8; grants, sweeps and batch reclaims do
      exactly what they promise.  Examples show the exceptions: a failed directory
      sync, a migration that forgets a revocation, a file that does not reload.
    - Shared leases: acquisition never steals, release clears only its own
      record, the local deadline is conservative, decoding is canonical.
    - Admission: counters are consistent, caps and rolling budgets hold over
      every interleaving, waiting parents are served first and cannot block
      each other.
    - Run control: re-entries are bounded per budget, budgets are separate,
      resolved policy is bounded and pins round-trip.
    - Placement: a runner is eligible exactly when it meets the stage's
      requirement and the instance's mandates, execution stays on the daemon
      host, class labels name sets of effects, typo suggestions are closest.
    - Run-start placement: accepted requirements are coherent; a run starts exactly
      when its version is known and every stage has a runner, each stage is pinned
      to one that meets it, and operator mandates reach every stage where the daemon
      host has one entry.  One theorem shows the exception, a second entry for it.
    - Compiler: the reachability rules are exact; accepted gates cover their
      outcomes; accepted runs stay on declared states; branches are disjoint
      and can end; without maps the reaching-definitions analysis is sound and
      complete, and an accepted definition declares exactly the handoffs its runs
      need.  One example shows what a map makes the analysis miss.
    - Journals: over every history of calls, short writes, crashes and
      recoveries a run journal only grows and its sequences increase; a
      successful append is exactly one readable record; recovery loses nothing;
      the bounded phase scan agrees with the full replay; the passes over an
      instance journal keep exactly what they promise, no sequence is reissued
      across tick-skip passes, and a follower sees each record once.  The lines
      written survive the scrubbers.  Three theorems show exceptions: the forward
      fallback of the phase scan, the retention pass that drops the highest sequence,
      and a scrubbed line that reads as no event, behind which nothing is readable.
    - Scrubbing: no encoding of a registered secret that is not retired is in what
      the registry lets through, and the kept list of targets is always current.
    - Blocked cycles: the reported components are the strongly connected ones,
      the paths are shortest closed walks, [FindAll] reports each cycle once,
      and the comments fit the limit and name every member; one theorem shows
      the comment that does not fit.
    - Gates: a pass is earned by a check or a verdict, results go where the gate
      declares, calls are bounded by the retry policy, and a restart continues
      the budgets of the run through any number of crashes; three theorems show
      where it does not, and a gate that is escalated as interrupted though
      nothing was.  A gate the compiler accepted always finds a branch, a stage
      cannot forge its failure class, and the pattern cache is an exact LRU.
    - Review findings: a commit changes the ledger exactly as the verdict says, a
      finding stands until a complete answer to its instance, and a merge is
      refused exactly for what stands in the stored record, whatever the comments
      show; one theorem shows the exception, a remark of a downgraded pass.
    - Canonical JSON: which documents have a canonical form, and that two forms are
      equal exactly if the values are, up to member order and number spelling.
    - Fan-out: a frozen roster is exactly its entries in order, is determined by
      identities and values, reloads wherever it is read, and its digests commit to
      the items; a visit accepts exactly the journals whose records are allowed
      branch by branch; a pending visit and every finished one has been verified.
    - Stage inputs: the simulation reports an input exactly if some path breaks it
      and covers every workflow of moderate size; in an accepted workflow what a
      task reads is there on every run whose stages succeed, also at a join, from
      DSL 3.1 on.  One theorem shows the exception, output keys with commas.
    - Predicates: a label predicate is the Boolean formula it spells over the labels
      it names; a field predicate reads only the fields it reports and demands the
      equalities it reports; eligible items are ordered by label, fields and age
      whatever order they are listed in.  One theorem shows the exception,
      identifiers of which some are numbers.

    ** Modelling choices

    An instant is a number of nanoseconds ([Z]); an [int32] conversion wraps as
    in Go.  A Go map is a [gmap]; iteration order, which Go leaves open, is the
    order of [map_to_list], and no theorem depends on it.  Errors are the
    constructors of error types in [result].  Diagnostics of the compiler are
    values that carry the names their messages print.  Loops without a
    structural measure take fuel: [walk_fuel] counts the roots and every
    successor of a declared state, and a saturation runs at most once per
    element of the set it fills and once more; [walk_all_spec] and
    [saturate_closed] prove both enough.  A backward scan of a file takes as
    fuel the length of the file, since every round moves its start down; a
    breadth-first search of a blocking graph takes one round per edge and two
    more, since it queues each node once; the walk of
    [BranchContainsState] takes [walk_fuel], enough by [contains_state_spec]; the
    simulation of paths takes two more than its bound, since every level of its
    recursion counts one expansion, enough by [simulate_walked].  Event sequences are [N]: the wrap of [uint64] after 2^64 events is
    left out.  Chunk sizes and budgets of the scans are arguments of the [_with]
    definitions, so that the theorems hold for all of them and examples can use
    small ones; the named constants instantiate them.  Both compaction passes
    decode a line with the event codec, of which they read a few fields.

    ** Not modelled

    The syntax of the ledger's JSON file, the secret patterns behind the registry
    of secrets, artifact and span storage, transcript recovery, locks between
    processes, the removal of stale generations and the committed export of the
    journal, cancellation of contexts, concurrency inside one locked method,
    liveness probes of runs, capability and feature admission, schedules, the
    DSL 3.1 map rules of the compiler and, beyond the placement of stages, the
    interpreters before 3.0, and the parts that are mostly I/O: providers,
    harnesses, executors, telemetry, read models, the HTTP API, the cloud control
    plane and the command line. *)

From Stdlib Require Export ZArith Lia Ascii.
From stdpp Require Export prelude strings gmap list sets fin_maps.

(** ** Results of fallible Go functions *)

(** A Go function that returns [(A, error)] is modelled by [result E A]. *)
Inductive result (E A : Type) : Type :=
| Ok (a : A)
| Error (e : E).
Arguments Ok {E A} _.
Arguments Error {E A} _.

Definition result_is_ok {E A} (r : result E A) : bool :=
  match r with Ok _ => true | Error _ => false end.

Definition result_bind {E A B} (r : result E A) (f : A -> result E B) : result E B :=
  match r with Ok a => f a | Error e => Error e end.

Declare Scope goobers_scope.
Delimit Scope goobers_scope with goobers.
Notation "'try' x <- c ; k" := (result_bind c (fun x => k))
  (at level 100, x pattern, c at level 99, k at level 200, right associativity)
  : goobers_scope.

(** ** Instants and durations

    An instant ([time.Time]) is the number of nanoseconds since Go's zero time
    (January 1, year 1, UTC), so [time.Time{}] is 0 and [IsZero] is equality
    with 0.  A duration is a number of nanoseconds. *)
Notation Time := Z (only parsing).
Notation Duration := Z (only parsing).

Definition IsZero (t : Time) : bool := (t =? 0)%Z.
Definition After (t u : Time) : bool := (u <? t)%Z.
Definition Before (t u : Time) : bool := (t <? u)%Z.

Definition nanosecond : Duration := 1%Z.
Definition second : Duration := 1000000000%Z.
Definition minute : Duration := (60 * 1000000000)%Z.
Definition hour : Duration := (3600 * 1000000000)%Z.

Lemma IsZero_true t : IsZero t = true <-> t = 0%Z.
Proof. unfold IsZero. apply Z.eqb_eq. Qed.
Lemma IsZero_false t : IsZero t = false <-> t <> 0%Z.
Proof. unfold IsZero. apply Z.eqb_neq. Qed.
Lemma After_true t u : After t u = true <-> (u < t)%Z.
Proof. unfold After. apply Z.ltb_lt. Qed.
Lemma After_false t u : After t u = false <-> (t <= u)%Z.
Proof. unfold After. apply Z.ltb_ge. Qed.
Lemma Before_true t u : Before t u = true <-> (t < u)%Z.
Proof. unfold Before. apply Z.ltb_lt. Qed.
Lemma Before_false t u : Before t u = false <-> (u <= t)%Z.
Proof. unfold Before. apply Z.ltb_ge. Qed.

(** Go's conversion of an [int] to [int32]: the low 32 bits, sign extended. *)
Definition int32 (z : Z) : Z := ((z + 2 ^ 31) mod 2 ^ 32 - 2 ^ 31)%Z.

Lemma int32_id z : (- 2 ^ 31 <= z < 2 ^ 31)%Z -> int32 z = z.
Proof. intros. unfold int32. rewrite Z.mod_small; lia. Qed.

Create HintDb goobers_bool.
#[export] Hint Rewrite IsZero_true IsZero_false After_true After_false
  Before_true Before_false andb_true_iff andb_false_iff orb_true_iff
  orb_false_iff negb_true_iff negb_false_iff Z.eqb_eq Z.eqb_neq Z.ltb_lt
  Z.ltb_ge Z.leb_le Z.leb_gt String.eqb_eq String.eqb_neq : goobers_bool.

(** [brefl] turns the boolean tests of the code, in the context and in the
    goal, into the propositions they decide. *)
Ltac brefl := autorewrite with goobers_bool in *.

(** [split_ifs] destructs every test the goal branches on, innermost first. *)
Ltac split_ifs :=
  repeat match goal with
  | |- context [ if ?b then _ else _ ] =>
      lazymatch b with
      | context [ if _ then _ else _ ] => fail
      | context [ match _ with _ => _ end ] => fail
      | _ => destruct b eqn:?
      end
  end.
