(* ===== verification/GoStrings.v ===== *)
(** * Go strings

    The parts of the [strings], [unicode/utf8], [net/url] and [sort] packages
    the modelled code uses, on [String.string] read as a Go string: a sequence
    of bytes. *)

From Stdlib Require Export NArith.
From Stdlib Require Import Sorting.Permutation Sorting.Sorted.
From S2P Require Export Prelude.
Local Open Scope string_scope.
Local Open Scope list_scope.

(** ** Bytes and runes *)

Fixpoint bytes (s : string) : list N :=
  match s with
  | EmptyString => []
  | String c s' => N_of_ascii c :: bytes s'
  end.

Definition between (lo hi b : N) : bool := (lo <=? b)%N && (b <=? hi)%N.

Definition continuation (b : N) : bool := between 128 191 b.

(** [utf8.DecodeRune]'s acceptance of a two, three or four byte sequence. *)
Definition two_byte (b0 b1 : N) : bool := between 194 223 b0 && continuation b1.

Definition three_byte (b0 b1 b2 : N) : bool :=
  continuation b2 &&
  ((b0 =? 224)%N && between 160 191 b1
   || between 225 236 b0 && continuation b1
   || (b0 =? 237)%N && between 128 159 b1
   || between 238 239 b0 && continuation b1).

Definition four_byte (b0 b1 b2 b3 : N) : bool :=
  continuation b2 && continuation b3 &&
  ((b0 =? 240)%N && between 144 191 b1
   || between 241 243 b0 && continuation b1
   || (b0 =? 244)%N && between 128 143 b1).

(** The runes [for _, r := range s] yields; [None] is [utf8.RuneError] read
    from one byte that starts no valid sequence. *)
Fixpoint runes (bs : list N) : list (option N) :=
  match bs with
  | [] => []
  | b0 :: r0 =>
      if (b0 <? 128)%N then Some b0 :: runes r0
      else match r0 with
      | [] => None :: runes r0
      | b1 :: r1 =>
          if two_byte b0 b1 then Some ((b0 - 192) * 64 + (b1 - 128))%N :: runes r1
          else match r1 with
          | [] => None :: runes r0
          | b2 :: r2 =>
              if three_byte b0 b1 b2
              then Some ((b0 - 224) * 4096 + (b1 - 128) * 64 + (b2 - 128))%N :: runes r2
              else match r2 with
              | [] => None :: runes r0
              | b3 :: r3 =>
                  if four_byte b0 b1 b2 b3
                  then Some ((b0 - 240) * 262144 + (b1 - 128) * 4096 + (b2 - 128) * 64
                             + (b3 - 128))%N :: runes r3
                  else None :: runes r0
              end
          end
      end
  end.

(** [utf8.ValidString]. *)
Definition ValidString (s : string) : bool :=
  forallb (fun r => match r with Some _ => true | None => false end) (runes (bytes s)).

(** [unicode.IsControl]: the C0 and C1 control characters and DEL. *)
Definition IsControl (r : option N) : bool :=
  match r with
  | Some c => (c <? 32)%N || between 127 159 c
  | None => false
  end.

(** [unicode.IsSpace]. *)
Definition IsSpace (r : option N) : bool :=
  match r with
  | Some c =>
      between 9 13 c || (c =? 32)%N || (c =? 133)%N || (c =? 160)%N
      || (c =? 5760)%N || between 8192 8202 c || (c =? 8232)%N || (c =? 8233)%N
      || (c =? 8239)%N || (c =? 8287)%N || (c =? 12288)%N
  | None => false
  end.

(** The runes [strings.TrimSpace] keeps. *)
Fixpoint drop_space (rs : list (option N)) : list (option N) :=
  match rs with
  | r :: rs' => if IsSpace r then drop_space rs' else rs
  | [] => []
  end.
Definition trim_space_runes (rs : list (option N)) : list (option N) :=
  rev (drop_space (rev (drop_space rs))).

(** [bytes.TrimSpace] on valid UTF-8: [space2] and [space3] are the encodings
    of the white space outside ASCII. *)
Definition ascii_space (b : N) : bool := between 9 13 b || (b =? 32)%N.
Definition space2 (b0 b1 : N) : bool := (b0 =? 194)%N && ((b1 =? 133)%N || (b1 =? 160)%N).
Definition space3 (b0 b1 b2 : N) : bool :=
  (b0 =? 225)%N && (b1 =? 154)%N && (b2 =? 128)%N
  || (b0 =? 226)%N && (b1 =? 128)%N
     && (between 128 138 b2 || (b2 =? 168)%N || (b2 =? 169)%N || (b2 =? 175)%N)
  || (b0 =? 226)%N && (b1 =? 129)%N && (b2 =? 159)%N
  || (b0 =? 227)%N && (b1 =? 128)%N && (b2 =? 128)%N.

Fixpoint trim_left (sp2 : N -> N -> bool) (sp3 : N -> N -> N -> bool) (bs : list N) : list N :=
  match bs with
  | [] => []
  | b0 :: r0 =>
      if ascii_space b0 then trim_left sp2 sp3 r0
      else match r0 with
      | [] => bs
      | b1 :: r1 =>
          if sp2 b0 b1 then trim_left sp2 sp3 r1
          else match r1 with
          | [] => bs
          | b2 :: r2 => if sp3 b0 b1 b2 then trim_left sp2 sp3 r2 else bs
          end
      end
  end.

Definition TrimSpaceBytes (bs : list N) : list N :=
  rev (trim_left (fun b1 b0 => space2 b0 b1) (fun b2 b1 b0 => space3 b0 b1 b2)
         (rev (trim_left space2 space3 bs))).

(** [strings.TrimSpace(s) == ""]. *)
Definition blank (s : string) : bool := forallb IsSpace (runes (bytes s)).

(** ** Prefixes, counting *)

(** [strings.CutPrefix]: the rest of [s] after [p], or [None]. *)
Fixpoint CutPrefix (p s : string) : option string :=
  match p, s with
  | EmptyString, _ => Some s
  | String c p', String d s' => if Ascii.eqb c d then CutPrefix p' s' else None
  | String _ _, EmptyString => None
  end.

Definition HasPrefix (s p : string) : bool :=
  match CutPrefix p s with Some _ => true | None => false end.

(** [strings.Count(s, c)] for a one byte pattern. *)
Fixpoint CountByte (c : ascii) (s : string) : nat :=
  match s with
  | EmptyString => 0
  | String d s' => (if Ascii.eqb c d then 1 else 0) + CountByte c s'
  end.

Lemma CutPrefix_Some p s rest : CutPrefix p s = Some rest <-> s = p +:+ rest.
Proof.
  revert s. induction p as [|c p IH]; intros s; simpl; [split; [by injection 1|by intros ->]|].
  destruct s as [|d s]; [split; discriminate|].
  destruct (Ascii.eqb_spec c d) as [->|Hne].
  - rewrite IH. split; [intros ->; done|by injection 1].
  - split; [discriminate|]. injection 1. congruence.
Qed.

(** ** Go's byte-wise string order *)

Lemma string_compare_trans s t u :
  String.compare s t = Lt -> String.compare t u = Lt -> String.compare s u = Lt.
Proof.
  revert t u. induction s as [|a s IH]; intros [|b t] [|c u]; cbn; try done.
  unfold Ascii.compare. intros H1 H2.
  destruct (N.compare_spec (N_of_ascii a) (N_of_ascii b)) as [E1|E1|E1]; try done;
  destruct (N.compare_spec (N_of_ascii b) (N_of_ascii c)) as [E2|E2|E2]; try done.
  - rewrite E1, E2, N.compare_refl. eauto.
  - rewrite E1. by rewrite (proj2 (N.compare_lt_iff _ _) E2).
  - rewrite <- E2. by rewrite (proj2 (N.compare_lt_iff _ _) E1).
  - by rewrite (proj2 (N.compare_lt_iff _ _) (N.lt_trans _ _ _ E1 E2)).
Qed.

Lemma string_compare_refl s : String.compare s s = Eq.
Proof. induction s as [|a s IH]; cbn; [done|]. unfold Ascii.compare. by rewrite N.compare_refl. Qed.

Lemma string_ltb_iff s t : String.ltb s t = true <-> String.compare s t = Lt.
Proof. unfold String.ltb. destruct (String.compare s t); done. Qed.

Lemma string_ltb_trichotomy s t : String.ltb s t = false -> String.ltb t s = false -> s = t.
Proof.
  unfold String.ltb. rewrite (String.compare_antisym t s).
  destruct (String.compare s t) eqn:E; cbn; try done. by apply String.compare_eq_iff in E.
Qed.

(** ** [net/url.QueryEscape] *)

Definition unreserved (b : N) : bool :=
  between 97 122 b || between 65 90 b || between 48 57 b
  || (b =? 45)%N || (b =? 95)%N || (b =? 46)%N || (b =? 126)%N.

Definition hex_digit (n : N) : N := if (n <? 10)%N then (48 + n)%N else (55 + n)%N.

Definition escape_byte (b : N) : list N :=
  if unreserved b then [b]
  else if (b =? 32)%N then [43%N]
  else [37%N; hex_digit (b / 16); hex_digit (b mod 16)].

Definition of_bytes (bs : list N) : string :=
  fold_right (fun b s => String (ascii_of_N b) s) EmptyString bs.

Definition QueryEscape (s : string) : string := of_bytes (concat (map escape_byte (bytes s))).

(** [QueryEscape] is injective, and its output never contains a bar. *)
Lemma bytes_app s t : bytes (s +:+ t) = bytes s ++ bytes t.
Proof. induction s as [|c s IH]; [done|]. simpl. by rewrite IH. Qed.

Lemma bytes_inj s t : bytes s = bytes t -> s = t.
Proof.
  revert t. induction s as [|c s IH]; intros [|d t]; cbn; intros H; try done.
  injection H as Hc Hs. rewrite (IH t Hs).
  rewrite <- (ascii_N_embedding c), <- (ascii_N_embedding d), Hc. done.
Qed.

Lemma bytes_of_bytes bs : Forall (fun b => (b < 256)%N) bs -> bytes (of_bytes bs) = bs.
Proof.
  induction 1 as [|b bs Hb Hbs IH]; [done|]. simpl. by rewrite N_ascii_embedding, IH.
Qed.

Definition unhex (d : N) : N := if (d <? 58)%N then (d - 48)%N else (d - 55)%N.

Fixpoint unescape (bs : list N) : list N :=
  match bs with
  | 43%N :: r => 32%N :: unescape r
  | 37%N :: h :: l :: r => (16 * unhex h + unhex l)%N :: unescape r
  | b :: r => b :: unescape r
  | [] => []
  end.

Lemma unescape_byte c r : unescape (escape_byte (N_of_ascii c) ++ r) = N_of_ascii c :: unescape r.
Proof. destruct c as [[] [] [] [] [] [] [] []]; reflexivity. Qed.

Lemma escape_byte_range c :
  Forall (fun b => (b < 256)%N /\ b <> 124%N) (escape_byte (N_of_ascii c)).
Proof.
  destruct c as [[] [] [] [] [] [] [] []]; cbn; repeat constructor; done.
Qed.

Lemma bytes_QueryEscape s :
  bytes (QueryEscape s) = concat (map escape_byte (bytes s)) /\ 124%N ∉ bytes (QueryEscape s).
Proof.
  assert (H : Forall (fun b => (b < 256)%N /\ b <> 124%N) (concat (map escape_byte (bytes s)))).
  { induction s; cbn [bytes map concat]; [constructor|]. apply Forall_app. split; [apply escape_byte_range | done]. }
  assert (Heq : bytes (QueryEscape s) = concat (map escape_byte (bytes s))).
  { apply bytes_of_bytes. eapply Forall_impl; [exact H|]. cbn. tauto. }
  split; [done|]. rewrite Heq. intros Hin. rewrite Forall_forall in H. destruct (H _ Hin). done.
Qed.

Lemma QueryEscape_inj s t : QueryEscape s = QueryEscape t -> s = t.
Proof.
  assert (Hun : forall s, unescape (bytes (QueryEscape s)) = bytes s).
  { intros u. rewrite (proj1 (bytes_QueryEscape u)). induction u as [|c u IH]; [done|].
    cbn [bytes map concat]. by rewrite unescape_byte, IH. }
  intros H. apply bytes_inj. rewrite <- (Hun s), <- (Hun t), H. done.
Qed.

(** A separator that occurs in neither prefix splits uniquely. *)
Lemma split_at_separator {A} (x : A) l1 l2 r1 r2 :
  x ∉ l1 -> x ∉ l2 -> l1 ++ x :: r1 = l2 ++ x :: r2 -> l1 = l2 /\ r1 = r2.
Proof.
  revert l2. induction l1 as [|a l1 IH]; intros [|b l2]; cbn; intros H1 H2 H; simplify_eq.
  - done.
  - set_solver.
  - set_solver.
  - destruct (IH l2) as [-> ->]; set_solver.
Qed.

(** ** Sorting and first-appearance de-duplication *)

Section sort_by.
Context {A : Type} (le : A -> A -> bool).

Fixpoint insert_by (x : A) (l : list A) : list A :=
  match l with
  | [] => [x]
  | y :: l' => if le x y then x :: l else y :: insert_by x l'
  end.

(** [sort.Slice(l, less)] for a [less] whose reflexive closure is [le]. *)
Definition sort_by (l : list A) : list A := fold_right insert_by [] l.

Lemma insert_by_perm x l : Permutation (x :: l) (insert_by x l).
Proof.
  induction l as [|y l IH]; simpl; [done|].
  destruct (le x y); [done|].
  rewrite perm_swap. by constructor.
Qed.

Lemma sort_by_perm l : Permutation l (sort_by l).
Proof.
  induction l as [|x l IH]; simpl; [done|].
  rewrite <- insert_by_perm. by constructor.
Qed.

Lemma sort_by_elem x l : x ∈ sort_by l <-> x ∈ l.
Proof. by rewrite <- sort_by_perm. Qed.

Hypothesis le_total : forall x y, le x y = true \/ le y x = true.

Lemma insert_by_sorted x l :
  LocallySorted (fun a b => le a b = true) l ->
  LocallySorted (fun a b => le a b = true) (insert_by x l).
Proof.
  induction 1 as [|y|y z l Hs IH Hyz]; simpl in *.
  - constructor.
  - destruct (le x y) eqn:E; repeat constructor; auto.
    destruct (le_total x y); congruence.
  - destruct (le x y) eqn:E; [repeat constructor; auto|].
    destruct (le x z) eqn:E'; repeat constructor; auto.
    destruct (le_total x y); congruence.
Qed.

Lemma sort_by_sorted l : LocallySorted (fun a b => le a b = true) (sort_by l).
Proof. induction l; simpl; [constructor|by apply insert_by_sorted]. Qed.
End sort_by.

Definition sort_strings : list string -> list string := sort_by String.leb.

(** Membership as the code tests it through a [map[string]struct{}]. *)
Definition mem_string (x : string) (l : list string) : bool := existsb (String.eqb x) l.

Lemma mem_string_true x l : mem_string x l = true <-> x ∈ l.
Proof.
  unfold mem_string. rewrite existsb_exists. setoid_rewrite String.eqb_eq.
  rewrite list_elem_of_In. naive_solver.
Qed.

Lemma mem_string_false x l : mem_string x l = false <-> x ∉ l.
Proof. rewrite <- mem_string_true. by destruct (mem_string x l). Qed.

#[export] Hint Rewrite mem_string_true mem_string_false : goobers_bool.

(** The first occurrences of [l], in order, skipping what [seen] holds. *)
Fixpoint dedup_from (seen l : list string) : list string :=
  match l with
  | [] => []
  | x :: l' => if mem_string x seen then dedup_from seen l'
               else x :: dedup_from (x :: seen) l'
  end.

Lemma dedup_from_elem seen l x : x ∈ dedup_from seen l <-> x ∈ l /\ x ∉ seen.
Proof.
  revert seen. induction l as [|y l IH]; intros seen; simpl; [set_solver|].
  destruct (mem_string y seen) eqn:E; brefl; rewrite ?elem_of_cons, ?IH; [set_solver|].
  destruct (decide (x = y)); set_solver.
Qed.

Lemma dedup_from_NoDup seen l : NoDup (dedup_from seen l).
Proof.
  revert seen. induction l as [|y l IH]; intros seen; simpl; [constructor|].
  destruct (mem_string y seen); [done|]. constructor; [|done].
  rewrite dedup_from_elem. set_solver.
Qed.
