(* ===== verification/ClaimRelease.v ===== *)
(** * Why a claim ended: [internal/claimrelease]

    The structured release reason every layer records, and its normalization.
    [Sanitize], which rewrites the summary with the secret scrubber and four
    regular expressions, is the one function of the package taken as a
    parameter (class [Sanitizer]). *)

From S2P Require Export GoStrings.
Local Open Scope string_scope.
Local Open Scope list_scope.

(** ** Dispositions *)

Inductive Disposition :=
| Completed | Failed | Escalated | Cancelled | Abandoned | NoWork | StallSwept
| Reconciled | ForceReleased | Superseded | Unknown
| Unrecognized (d : string).

#[export] Instance Disposition_eq_dec : EqDecision Disposition.
Proof. solve_decision. Defined.

(** [Disposition.Known]. *)
Definition Known (d : Disposition) : bool :=
  match d with Unrecognized _ => false | _ => true end.

(** The persisted string of a disposition. *)
Definition disposition_string (d : Disposition) : string :=
  match d with
  | Completed => "completed" | Failed => "failed" | Escalated => "escalated"
  | Cancelled => "cancelled" | Abandoned => "abandoned" | NoWork => "no-work"
  | StallSwept => "stall-swept" | Reconciled => "reconciled"
  | ForceReleased => "force-released" | Superseded => "superseded"
  | Unknown => "unknown" | Unrecognized d => d
  end.

Definition SummaryLimit : nat := 240.
Definition TokenLimit : nat := 64.
Definition MarkerPrefix : string := "goobers-claim-release-reason:".

Record Reason := mkReason {
  reason_disposition : Disposition;
  reason_stage : string;
  reason_code : string;
  reason_summary : string;
  reason_actor : string;
}.

#[export] Instance Reason_eq_dec : EqDecision Reason.
Proof. solve_decision. Defined.

(** [Disposition.Reason], [Disposition.Because], [Reason.By]. *)
Definition DispositionReason (d : Disposition) : Reason := mkReason d "" "" "" "".
Definition Because (d : Disposition) (code summary : string) : Reason :=
  mkReason d "" code summary "".
Definition By (r : Reason) (actor : string) : Reason :=
  mkReason (reason_disposition r) (reason_stage r) (reason_code r) (reason_summary r) actor.

(** [truncate.Bytes]: cut at the last rune start at or before [limit - len
    suffix] and append the suffix. *)
Definition RuneStart (b : N) : bool := negb (continuation b).

Fixpoint rune_boundary (bs : list N) (keep : nat) : nat :=
  match keep with
  | O => O
  | S k => if RuneStart (nth keep bs 0%N) then keep else rune_boundary bs k
  end.

Definition truncate_Bytes (bs : list N) (limit : nat) (suffix : list N) : list N :=
  if (length bs <=? limit)%nat then bs
  else take (rune_boundary bs (limit - length suffix)) bs ++ suffix.

(** [token]: the safe alphabet of stage, code and actor. *)
Definition token_alnum (c : N) : bool :=
  between 97 122 c || between 65 90 c || between 48 57 c.

Definition token_rune (r : option N) : N :=
  match r with
  | Some c =>
      if token_alnum c then c
      else if existsb (N.eqb c) [46; 95; 45; 58; 43]%N then c else 95%N
  | None => 95%N
  end.

Definition token_bytes (s : string) : list N :=
  truncate_Bytes (map token_rune (trim_space_runes (runes (bytes s)))) TokenLimit [].

Definition token (s : string) : string := of_bytes (token_bytes s).

(** [Sanitize] of the summary, a parameter. *)
Class Sanitizer := Sanitize : string -> string.

Section normalize.
Context {Sanitize0 : Sanitizer}.

(** [Reason.Normalize]. *)
Definition Normalize (r : Reason) : Reason :=
  mkReason
    (if Known (reason_disposition r) then reason_disposition r else Unknown)
    (token (reason_stage r))
    (token (reason_code r))
    (Sanitize (reason_summary r))
    (token (reason_actor r)).

(** [Reason.MarkerLine]: the machine-readable line of a release comment. *)
Definition marker_field (key value : string) : list string :=
  if (value =? "")%string then [] else [key +:+ "=" +:+ value].

Definition MarkerLine (r : Reason) : string :=
  let r := Normalize r in
  MarkerPrefix +:+ " " +:+
  String.concat " "
    (["v=1"; "disposition=" +:+ disposition_string (reason_disposition r)]
     ++ marker_field "stage" (reason_stage r)
     ++ marker_field "code" (reason_code r)
     ++ marker_field "actor" (reason_actor r)).
End normalize.

(** ** Facts about tokens *)

Definition token_char (c : N) : bool :=
  token_alnum c || existsb (N.eqb c) [46; 95; 45; 58; 43]%N.

Lemma token_rune_char r : token_char (token_rune r) = true.
Proof.
  unfold token_char, token_rune. destruct r as [c|]; [|done].
  destruct (token_alnum c) eqn:E; [by rewrite E|].
  destruct (existsb _ _) eqn:E'; [by rewrite E', orb_true_r|done].
Qed.

(** A token character is an ASCII byte, is not white space, and is left alone
    by [token_rune]. *)
Lemma token_char_ascii c : token_char c = true -> (c < 128)%N.
Proof.
  unfold token_char, token_alnum, between. simpl. intros H.
  repeat (apply orb_true_iff in H as [H|H]); try discriminate;
    rewrite ?andb_true_iff, ?N.leb_le, ?N.eqb_eq in H; lia.
Qed.

Lemma token_char_not_space c : token_char c = true -> IsSpace (Some c) = false.
Proof.
  unfold token_char, token_alnum, IsSpace, between. simpl. intros H.
  repeat (apply orb_true_iff in H as [H|H]); try discriminate;
    rewrite ?andb_true_iff, ?N.leb_le, ?N.eqb_eq in H;
    rewrite ?orb_false_iff, ?andb_false_iff, ?N.leb_gt, ?N.eqb_neq; lia.
Qed.

Lemma token_char_fixed c : token_char c = true -> token_rune (Some c) = c.
Proof.
  unfold token_char, token_rune. intros [->| H]%orb_true_iff; [done|].
  rewrite H. by destruct (token_alnum c).
Qed.

Lemma runes_ascii bs : Forall (fun b => b < 128)%N bs -> runes bs = map Some bs.
Proof.
  induction 1 as [|b bs Hb _ IH]; [done|]. simpl.
  apply N.ltb_lt in Hb. by rewrite Hb, IH.
Qed.

Lemma drop_space_none rs : Forall (fun r => IsSpace r = false) rs -> drop_space rs = rs.
Proof. destruct 1 as [|r rs Hr _]; [done|]. simpl. by rewrite Hr. Qed.

Lemma trim_space_none rs :
  Forall (fun r => IsSpace r = false) rs -> trim_space_runes rs = rs.
Proof.
  intros H. unfold trim_space_runes. rewrite (drop_space_none rs) by done.
  rewrite drop_space_none by by apply Forall_rev. apply rev_involutive.
Qed.

Lemma rune_boundary_le bs k : (rune_boundary bs k <= k)%nat.
Proof. induction k; simpl; [done|]. destruct (RuneStart _); lia. Qed.

(** [truncate.Bytes] stays within the larger of the limit and the suffix. *)
Lemma truncate_Bytes_length bs limit suffix :
  (length (truncate_Bytes bs limit suffix) <= Nat.max limit (length suffix))%nat.
Proof.
  unfold truncate_Bytes. destruct (Nat.leb_spec (length bs) limit); [lia|].
  rewrite length_app, length_take.
  pose proof (rune_boundary_le bs (limit - length suffix)). lia.
Qed.

Lemma truncate_Bytes_Forall (P : N -> Prop) bs limit suffix :
  Forall P bs -> Forall P suffix -> Forall P (truncate_Bytes bs limit suffix).
Proof.
  intros. unfold truncate_Bytes. destruct (_ <=? _)%nat; [done|].
  apply Forall_app; split; [by apply Forall_take|done].
Qed.

Lemma token_bytes_chars s : Forall (fun c => token_char c = true) (token_bytes s).
Proof.
  apply truncate_Bytes_Forall; [|constructor].
  apply Forall_map, Forall_true. intros. apply token_rune_char.
Qed.

Lemma bytes_token s : bytes (token s) = token_bytes s.
Proof.
  apply bytes_of_bytes. eapply Forall_impl; [apply token_bytes_chars|].
  intros c Hc%token_char_ascii. lia.
Qed.

Lemma token_of_token_chars s :
  Forall (fun c => token_char c = true) (bytes s) -> (length (bytes s) <= TokenLimit)%nat ->
  token_bytes s = bytes s.
Proof.
  intros Hc Hlen. unfold token_bytes.
  rewrite runes_ascii by (eapply Forall_impl; [done|apply token_char_ascii]).
  rewrite trim_space_none.
  2:{ apply Forall_map. eapply Forall_impl; [done|apply token_char_not_space]. }
  rewrite map_map, (map_ext_Forall _ id), map_id.
  2:{ eapply Forall_impl; [done|]. intros c Hx. by apply token_char_fixed. }
  unfold truncate_Bytes. apply Nat.leb_le in Hlen. by rewrite Hlen.
Qed.

Lemma token_idempotent s : token (token s) = token s.
Proof.
  unfold token at 1. rewrite token_of_token_chars; rewrite ?bytes_token; [done| |].
  - apply token_bytes_chars.
  - etrans; [apply truncate_Bytes_length|]. by rewrite Nat.max_0_r.
Qed.

(** ** Properties *)

Lemma token_safe s :
  Forall (fun c => token_char c = true) (bytes (token s)) /\ (length (bytes (token s)) <= TokenLimit)%nat.
Proof.
  rewrite bytes_token. split; [apply token_bytes_chars|].
  etrans; [apply truncate_Bytes_length|]. by rewrite Nat.max_0_r.
Qed.

(** A normalized reason is safe to write into a marker line and stays as
    it is when another layer normalizes it again, whatever the summary
    sanitizer does: its disposition is a known one, its stage, code and actor
    are at most 64 bytes of the token alphabet (no space and no [=]), and
    neither they nor the marker line change under a second normalization. *)
Theorem normalized_reason_is_stable {Sanitize0 : Sanitizer} (r : Reason) :
  let n := Normalize r in
  Known (reason_disposition n) = true
  /\ (forall s, s ∈ [reason_stage n; reason_code n; reason_actor n] ->
       Forall (fun c => token_char c = true) (bytes s) /\ (length (bytes s) <= TokenLimit)%nat)
  /\ reason_disposition (Normalize n) = reason_disposition n
  /\ reason_stage (Normalize n) = reason_stage n /\ reason_code (Normalize n) = reason_code n
  /\ reason_actor (Normalize n) = reason_actor n
  /\ MarkerLine n = MarkerLine r.
Proof.
  cbn zeta. split; [by destruct r as [[]]|]. split.
  { intros s Hs. repeat (apply elem_of_cons in Hs as [->|Hs]; [apply token_safe|]). set_solver. }
  assert (Hd : reason_disposition (Normalize (Normalize r)) = reason_disposition (Normalize r))
    by (by destruct r as [[]]).
  split; [done|]. unfold MarkerLine. rewrite Hd. cbn. by rewrite !token_idempotent.
Qed.
