(* ===== verification/SharedClaim.v ===== *)
(** * The cross-instance lease: [internal/sharedclaim]

    Owner-scoped lease transitions over a provider-hosted coordination record.
    The provider is an interface of the source ([Store], [Visibility]); here it
    is a pair of type classes over an abstract world, with the documented
    compare-and-swap contract as the class [StoreLaws].  A world step contains
    whatever other instances do meanwhile, so a theorem about one call holds
    under every interleaving with the others. *)

From S2P Require Export GoStrings.
Local Open Scope string_scope.
Local Open Scope list_scope.
Local Open Scope Z_scope.

(** ** Records *)

Record Owner := mkOwner {
  Instance_ : string;
  Run : string;
  Token : string;
}.

#[export] Instance Owner_eq_dec : EqDecision Owner.
Proof. solve_decision. Defined.

(** [Owner{}]. *)
Definition noOwner : Owner := mkOwner "" "" "".

Record LeaseRecord := mkRecord {
  rec_Version : Z;
  rec_Owner : Owner;
  rec_ExpiresAt : Time;
}.

#[export] Instance LeaseRecord_eq_dec : EqDecision LeaseRecord.
Proof. solve_decision. Defined.

(** [Record{}]. *)
Definition noRecord : LeaseRecord := mkRecord 0 noOwner 0.

Record Observation := mkObservation {
  obs_Record : LeaseRecord;
  obs_Revision : string;
  obs_Now : Time;
}.

Inductive claim_error :=
| ErrHeld | ErrConflict | ErrNotOwner
| ErrInvalidAcquisition | ErrInvalidRelease | ErrInvalidReconciliation
| ErrInvalidInspection | ErrInvalidVisibility
| ErrNoProviderClock | ErrUnversionedRecord | ErrUnsupportedRecord
| ErrReleasedRetainsDeadline | ErrInvalidOwnership
| ErrInvalidKey | ErrRecordTooLarge | ErrMarshal
| ErrInvalidData | ErrTrailingContent | ErrIdentityMismatch | ErrNonCanonical
| ErrTTLTooShort | ErrLateAcknowledgment | ErrVisibilityUnstable
| ErrContext | ErrProvider (msg : string).

(** ** Validation *)

(** [validIdentityText], [validKey], [validOwner]. *)
Definition validIdentityText (value : string) (limit : nat) : bool :=
  negb (value =? "")%string && (String.length value <=? limit)%nat
  && ValidString value && negb (existsb IsControl (runes (bytes value))).

Definition validKey (key : string) : bool := validIdentityText key 1024.

Definition validOwner (o : Owner) : bool :=
  validIdentityText (Instance_ o) 256 && validIdentityText (Run o) 256
  && validIdentityText (Token o) 256.

(** [validateRecord]: [None] is Go's [nil]. *)
Definition validateRecord (r : LeaseRecord) : option claim_error :=
  if negb (rec_Version r =? 1) then Some ErrUnsupportedRecord
  else if bool_decide (rec_Owner r = noOwner) then
    if negb (IsZero (rec_ExpiresAt r)) then Some ErrReleasedRetainsDeadline else None
  else if negb (validOwner (rec_Owner r)) || IsZero (rec_ExpiresAt r)
  then Some ErrInvalidOwnership else None.

(** [validateObservation]. *)
Definition validateObservation (o : Observation) : option claim_error :=
  if IsZero (obs_Now o) then Some ErrNoProviderClock
  else if (obs_Revision o =? "")%string then
    if bool_decide (obs_Record o = noRecord) then None else Some ErrUnversionedRecord
  else validateRecord (obs_Record o).

(** [visibleOwner], which is also [Observation.Held]. *)
Definition visibleOwner (o : Observation) : bool :=
  negb (bool_decide (rec_Owner (obs_Record o) = noOwner))
  && Before (obs_Now o) (rec_ExpiresAt (obs_Record o)).
Definition Held (o : Observation) : bool := visibleOwner o.

(** ** Encoding *)

(** The JSON text of a coordination record, and its strict decoding
    ([encoding/json] with unknown fields refused); [None] is a marshalling or
    decoding error. *)
Class RecordCodec := {
  marshal : string -> string -> LeaseRecord -> option (list N);
  unmarshal : list N -> option (string * string * LeaseRecord * list N);
  only_space : list N -> bool; (** the decoder reports [io.EOF] on the rest *)
}.

Definition coordinationProtocol : string := "goobers/shared-claim/v1".
Definition MaxRecordBytes : nat := 4096.

Section encoding.
Context {C : RecordCodec}.

(** [Encode]. *)
Definition Encode (key : string) (record : LeaseRecord) : result claim_error (list N) :=
  if negb (validKey key) then Error ErrInvalidKey
  else match validateRecord record with
  | Some err => Error err
  | None =>
      match marshal coordinationProtocol key record with
      | None => Error ErrMarshal
      | Some data =>
          if (MaxRecordBytes <? length data)%nat then Error ErrRecordTooLarge else Ok data
      end
  end.

(** [Decode]; [unmarshal] also returns what follows the first document. *)
Definition Decode (key : string) (data : list N) : result claim_error LeaseRecord :=
  if negb (validKey key) || (MaxRecordBytes <? length data)%nat
     || negb (forallb (fun r => match r with Some _ => true | None => false end) (runes data))
  then Error ErrInvalidData
  else match unmarshal data with
  | None => Error ErrMarshal
  | Some (protocol, key', lease, rest) =>
      if negb (only_space rest) then Error ErrTrailingContent
      else if negb (protocol =? coordinationProtocol)%string || negb (key' =? key)%string
      then Error ErrIdentityMismatch
      else match validateRecord lease with
      | Some err => Error err
      | None =>
          match Encode key lease with
          | Error _ => Error ErrNonCanonical
          | Ok canonical =>
              if bool_decide (TrimSpaceBytes data = canonical) then Ok lease
              else Error ErrNonCanonical
          end
      end
  end.
End encoding.

(** ** The provider *)

(** [Store] and [Visibility], world passing: a call may take any time and any
    number of other instances' steps. *)
Class Store (W : Type) := {
  Read : W -> string -> W * result claim_error Observation;
  CompareAndSwap : W -> string -> string -> LeaseRecord -> W * option claim_error;
}.

Class Visibility (W : Type) := {
  ReadClaimed : W -> string -> W * result claim_error bool;
  SetClaimed : W -> string -> bool -> W * option claim_error;
}.

(** [context.Context]: cancelled or not, at a world. *)
Class Cancellation (W : Type) := ctx_done : W -> bool.

Section transitions.
Context {W : Type} {ST : Store W} {CX : Cancellation W}.

(** The record [Acquire] writes over what it observed. *)
Definition acquire_record (observed : Observation) (owner : Owner) (ttl : Duration) : LeaseRecord :=
  let expires := obs_Now observed + ttl in
  mkRecord 1 owner
    (if bool_decide (rec_Owner (obs_Record observed) = owner)
        && After (rec_ExpiresAt (obs_Record observed)) expires
     then rec_ExpiresAt (obs_Record observed) else expires).

(** [Acquire] (the store is never nil here). *)
Definition Acquire (w : W) (key : string) (owner : Owner) (ttl : Duration)
    : W * option claim_error :=
  if negb (validKey key) || negb (validOwner owner) || (ttl <=? 0) || (24 * hour <? ttl)
  then (w, Some ErrInvalidAcquisition)
  else
    let '(w1, r) := Read w key in
    match r with
    | Error err => (w1, Some err)
    | Ok observed =>
        match validateObservation observed with
        | Some err => (w1, Some err)
        | None =>
            if Held observed && negb (bool_decide (rec_Owner (obs_Record observed) = owner))
            then (w1, Some ErrHeld)
            else CompareAndSwap w1 key (obs_Revision observed)
                   (acquire_record observed owner ttl)
        end
    end.

(** [acquireUntil]: [now] reads the local clock of a world. *)
Definition acquireUntil (now : W -> Time) (w : W) (key : string) (owner : Owner) (ttl : Duration)
    : W * result claim_error Time :=
  if ttl <=? second then (w, Error ErrTTLTooShort)
  else
    let deadline := now w + (ttl - second) in
    let '(w1, err) := Acquire w key owner ttl in
    match err with
    | Some err => (w1, Error err)
    | None =>
        if ctx_done w1 then (w1, Error ErrContext)
        else if negb (Before (now w1) deadline) then (w1, Error ErrLateAcknowledgment)
        else (w1, Ok deadline)
    end.

(** [Release]. *)
Definition Release (w : W) (key : string) (owner : Owner) : W * option claim_error :=
  if negb (validKey key) || negb (validOwner owner) then (w, Some ErrInvalidRelease)
  else
    let '(w1, r) := Read w key in
    match r with
    | Error err => (w1, Some err)
    | Ok observed =>
        match validateObservation observed with
        | Some err => (w1, Some err)
        | None =>
            if bool_decide (rec_Owner (obs_Record observed) = noOwner) then (w1, None)
            else if negb (bool_decide (rec_Owner (obs_Record observed) = owner))
            then (w1, Some ErrNotOwner)
            else CompareAndSwap w1 key (obs_Revision observed) (mkRecord 1 noOwner 0)
        end
    end.

(** [ConfirmOwnerGone]. *)
Definition ConfirmOwnerGone (w : W) (key : string) (owner : Owner) : W * option claim_error :=
  if negb (validKey key) || negb (validOwner owner) then (w, Some ErrInvalidReconciliation)
  else if ctx_done w then (w, Some ErrContext)
  else
    let '(w1, r) := Read w key in
    match r with
    | Error err => (w1, Some err)
    | Ok observed =>
        match validateObservation observed with
        | Some err => (w1, Some err)
        | None =>
            if ctx_done w1 then (w1, Some ErrContext)
            else if bool_decide (rec_Owner (obs_Record observed) = owner)
            then (w1, Some ErrConflict)
            else (w1, None)
        end
    end.

(** [Inspect]. *)
Definition Inspect (w : W) (key : string) : W * result claim_error Observation :=
  if negb (validKey key) then (w, Error ErrInvalidInspection)
  else if ctx_done w then (w, Error ErrContext)
  else
    let '(w1, r) := Read w key in
    match r with
    | Error err => (w1, Error err)
    | Ok observed =>
        match validateObservation observed with
        | Some err => (w1, Error err)
        | None => (w1, Ok observed)
        end
    end.

(** [ReconcileVisibility]: three rounds of read, fix the label, read again. *)
Context {VIS : Visibility W}.

Definition observe (w : W) (key : string) : W * result claim_error Observation :=
  let '(w1, r) := Read w key in
  match r with
  | Error err => (w1, Error err)
  | Ok observed =>
      match validateObservation observed with
      | Some err => (w1, Error err)
      | None => (w1, Ok observed)
      end
  end.

Definition fix_label (w : W) (key : string) (want : bool) : W * option claim_error :=
  let '(w1, r) := ReadClaimed w key in
  match r with
  | Error err => (w1, Some err)
  | Ok present =>
      if Bool.eqb present want then (w1, None) else SetClaimed w1 key want
  end.

Fixpoint reconcile_rounds (n : nat) (w : W) (key : string) : W * option claim_error :=
  match n with
  | O => (w, Some ErrVisibilityUnstable)
  | S n' =>
      let '(w1, r) := observe w key in
      match r with
      | Error err => (w1, Some err)
      | Ok observed =>
          if (obs_Revision observed =? "")%string then (w1, None)
          else
            let want := visibleOwner observed in
            let '(w2, e) := fix_label w1 key want in
            match e with
            | Some err => (w2, Some err)
            | None =>
                let '(w3, r') := observe w2 key in
                match r' with
                | Error err => (w3, Some err)
                | Ok current =>
                    if (obs_Revision current =? obs_Revision observed)%string
                       && Bool.eqb (visibleOwner current) want
                    then (w3, None)
                    else reconcile_rounds n' w3 key
                end
            end
      end
  end.

Definition ReconcileVisibility (w : W) (key : string) : W * option claim_error :=
  if negb (validKey key) then (w, Some ErrInvalidVisibility)
  else reconcile_rounds 3 w key.
End transitions.

(** ** The provider's contract

    [current w key] is the authoritative observation of the record at [w];
    [evolves] is what any number of calls, by any instance, and the passing of
    time can do.  [cas_ok] and [revision_binds] are the documented contract of
    [Store]: a successful swap wrote over exactly the observed revision, and a
    revision names one content of the record. *)
Class StoreLaws (W : Type) `{Store W} := {
  current : W -> string -> Observation;
  evolves : W -> W -> Prop;
  evolves_preorder :: PreOrder evolves;
  read_evolves : forall w key, evolves w (Read w key).1;
  cas_evolves : forall w key rev r, evolves w (CompareAndSwap w key rev r).1;
  read_ok : forall w key w' o, Read w key = (w', Ok o) ->
    exists wl, evolves w wl /\ evolves wl w' /\ current wl key = o;
  cas_ok : forall w key rev r w', CompareAndSwap w key rev r = (w', None) ->
    exists wl wl', evolves w wl /\ evolves wl wl' /\ evolves wl' w' /\
      obs_Revision (current wl key) = rev /\ obs_Record (current wl' key) = r;
  revision_binds : forall w w' key, evolves w w' ->
    obs_Now (current w key) <= obs_Now (current w' key) /\
    (obs_Revision (current w key) = obs_Revision (current w' key) ->
     obs_Record (current w key) = obs_Record (current w' key));
}.

Lemma Held_true o : Held o = true <->
  rec_Owner (obs_Record o) <> noOwner /\ obs_Now o < rec_ExpiresAt (obs_Record o).
Proof.
  unfold Held, visibleOwner. brefl. rewrite bool_decide_eq_false. done.
Qed.

Lemma Held_later o o' :
  obs_Record o = obs_Record o' -> obs_Now o <= obs_Now o' -> Held o' = true -> Held o = true.
Proof. rewrite !Held_true. intros -> ? [? ?]. split; [done|lia]. Qed.

Section exclusive.
Context {W : Type} `{StoreLaws W} {CX : Cancellation W}.

(** What a successful [Acquire] did, and when: it passed its checks on the
    authoritative record of some instant [w0], and its write landed on the
    same revision at a later instant. *)
Lemma Acquire_ok w key owner ttl w' :
  Acquire w key owner ttl = (w', None) ->
  exists w0 wl wl',
    evolves w w0 /\ evolves w0 wl /\ evolves wl wl' /\ evolves wl' w' /\
    validOwner owner = true /\ 0 < ttl /\
    (Held (current w0 key) = true -> rec_Owner (obs_Record (current w0 key)) = owner) /\
    obs_Revision (current wl key) = obs_Revision (current w0 key) /\
    obs_Record (current wl' key) = acquire_record (current w0 key) owner ttl.
Proof.
  unfold Acquire. destruct (_ || _) eqn:Hg; [done|]. brefl.
  destruct Hg as [[[_ Ho] Ht] _].
  destruct (Read w key) as [w1 r] eqn:Hr. destruct r as [o|e]; [|done].
  apply read_ok in Hr as (w0 & Hw0 & Hw1 & <-).
  destruct (validateObservation _); [done|].
  destruct (Held _ && _) eqn:Hh; [done|]. intros Hc.
  apply cas_ok in Hc as (wl & wl' & H1 & H2 & H3 & Hrev & Hrec).
  exists w0, wl, wl'. split_and!; try done; [by etrans|].
  intros Hheld. rewrite Hheld in Hh. simpl in Hh.
  by apply negb_false_iff, bool_decide_eq_true in Hh.
Qed.
End exclusive.

(** ** A store that meets the contract

    One process, revisions counted per key: the in-memory provider of the
    package's own tests.  It shows [StoreLaws] can hold, and runs the
    witnesses. *)
Record MemStore := mkMem { mem : gmap string (nat * LeaseRecord); clock : Time }.

Fixpoint rev_string (n : nat) : string :=
  match n with O => "" | S n' => String "r" (rev_string n') end.

Definition mem_rank (w : MemStore) (key : string) : nat :=
  match mem w !! key with None => 0 | Some (n, _) => S n end.

Definition mem_record (w : MemStore) (key : string) : LeaseRecord :=
  match mem w !! key with None => noRecord | Some (_, r) => r end.

Definition mem_observe (w : MemStore) (key : string) : Observation :=
  mkObservation (mem_record w key) (rev_string (mem_rank w key)) (clock w).

Definition mem_cas (w : MemStore) (key rev : string) (r : LeaseRecord)
    : MemStore * option claim_error :=
  if (rev_string (mem_rank w key) =? rev)%string
  then (mkMem (<[key := (mem_rank w key, r)]> (mem w)) (clock w), None)
  else (w, Some ErrConflict).

#[export] Instance mem_store : Store MemStore := {
  Read w key := (w, Ok (mem_observe w key));
  CompareAndSwap := mem_cas;
}.

#[export] Instance mem_cancel : Cancellation MemStore := fun _ => false.

Lemma rev_string_inj n m : rev_string n = rev_string m -> n = m.
Proof.
  revert m. induction n as [|n IH]; intros [|m]; simpl; try done.
  injection 1 as ?%IH. congruence.
Qed.

Definition mem_evolves (w w' : MemStore) : Prop :=
  clock w <= clock w' /\
  forall key, (mem_rank w key <= mem_rank w' key)%nat /\
    (mem_rank w key = mem_rank w' key -> mem_record w key = mem_record w' key).

#[export] Instance mem_evolves_preorder : PreOrder mem_evolves.
Proof.
  split.
  - intros w. split; [lia|]. intros key. split; [lia|done].
  - intros w1 w2 w3 [Hc Hk] [Hc' Hk']. split; [lia|]. intros key.
    destruct (Hk key) as [? He], (Hk' key) as [? He']. split; [lia|].
    intros. rewrite He, He' by lia. done.
Qed.

Lemma mem_cas_evolves w key rev r : mem_evolves w (mem_cas w key rev r).1.
Proof.
  unfold mem_cas. destruct (_ =? _)%string; [|done]. split; [done|]. simpl.
  intros key'. destruct (decide (key = key')) as [->|Hne].
  - assert (mem_rank (mkMem (<[key' := (mem_rank w key', r)]> (mem w)) (clock w)) key'
            = S (mem_rank w key')) as ->.
    { unfold mem_rank at 1. simpl. by rewrite lookup_insert_eq. }
    split; lia.
  - unfold mem_rank, mem_record. simpl. rewrite lookup_insert_ne by done. done.
Qed.

#[export] Instance mem_store_laws : StoreLaws MemStore.
Proof.
  refine {| current := mem_observe; evolves := mem_evolves;
            evolves_preorder := mem_evolves_preorder |}.
  - intros. by simpl.
  - intros. apply mem_cas_evolves.
  - intros w key w' o [= <- <-]. exists w. done.
  - intros w key rev r w' Hc. exists w, w'.
    pose proof (mem_cas_evolves w key rev r) as He. simpl in Hc. rewrite Hc in He.
    unfold mem_cas in Hc. destruct (String.eqb_spec (rev_string (mem_rank w key)) rev) as [Hr|];
      [|done].
    injection Hc as <-. split_and!; try done.
    simpl. unfold mem_record. simpl. by rewrite lookup_insert_eq.
  - intros w w' key [Hc Hk]. split; [done|]. simpl. intros Hr%rev_string_inj. by apply Hk.
Defined.

(** ** Properties *)

(** When an [Acquire] succeeds, its write lands at an instant at which no
    other owner holds the lease by the provider's clock, whatever the other
    instances did between its read and its write. *)
Theorem acquire_never_steals {W : Type} `{StoreLaws W} (w w' : W)
    (key : string) (owner : Owner) (ttl : Duration)
    (Hacq : Acquire w key owner ttl = (w', None)) :
  exists wl wl', evolves w wl /\ evolves wl wl' /\ evolves wl' w' /\
    (Held (current wl key) = true -> rec_Owner (obs_Record (current wl key)) = owner) /\
    rec_Owner (obs_Record (current wl' key)) = owner.
Proof.
  apply Acquire_ok in Hacq
    as (w0 & wl & wl' & H1 & H2 & H3 & H4 & _ & _ & Hown & Hrev & Hrec).
  destruct (revision_binds w0 wl key H2) as [Hnow Hbind].
  symmetry in Hrev. specialize (Hbind Hrev).
  exists wl, wl'. split_and!; try done; [by etrans| |].
  - intros Hheld. rewrite <- Hbind. eauto using Held_later.
  - by rewrite Hrec.
Qed.

Definition ownerA : Owner := mkOwner "inst-a" "run-a" "t1".
Definition ownerB : Owner := mkOwner "inst-b" "run-b" "t2".

Lemma acquire_never_steals_witness :
  let w := mkMem ∅ 1000 in
  Acquire w "issue:42" ownerA hour =
    (mkMem {["issue:42" := (0%nat, mkRecord 1 ownerA (1000 + hour))]} 1000, None) /\
  exists wl wl', evolves w wl /\ evolves wl wl' /\
    evolves wl' (mkMem {["issue:42" := (0%nat, mkRecord 1 ownerA (1000 + hour))]} 1000) /\
    (Held (current wl "issue:42") = true ->
     rec_Owner (obs_Record (current wl "issue:42")) = ownerA) /\
    rec_Owner (obs_Record (current wl' "issue:42")) = ownerA.
Proof.
  split; [vm_compute; reflexivity|].
  apply (acquire_never_steals (mkMem ∅ 1000) _ "issue:42" ownerA hour).
  vm_compute. reflexivity.
Defined.

(** The written deadline is at least [ttl] after the provider's clock. *)
Lemma acquire_record_ttl observed owner ttl :
  obs_Now observed + ttl <= rec_ExpiresAt (acquire_record observed owner ttl).
Proof. unfold acquire_record; simpl. destruct (bool_decide _ && _) eqn:E; brefl; lia. Qed.

(** A renewal by the same incarnation never shortens the lease: the
    written deadline is at least the observed one and at least [ttl] after the
    provider's clock. *)
Theorem renewal_never_shortens (observed : Observation) (owner : Owner) (ttl : Duration) :
  obs_Now observed + ttl <= rec_ExpiresAt (acquire_record observed owner ttl) /\
  (rec_Owner (obs_Record observed) = owner ->
   rec_ExpiresAt (obs_Record observed) <= rec_ExpiresAt (acquire_record observed owner ttl)).
Proof.
  split; [apply acquire_record_ttl|]. intros Ho. unfold acquire_record. simpl.
  rewrite bool_decide_eq_true_2 by done. destruct (After _ _) eqn:E; brefl; simpl; lia.
Qed.

(** A successful [Release] either found a tombstone, or replaced exactly
    this incarnation's record by the versioned tombstone; it never clears
    another owner's lease. *)
Theorem release_clears_only_own {W : Type} `{StoreLaws W} (w w' : W)
    (key : string) (owner : Owner) (Hrel : Release w key owner = (w', None)) :
  (exists w0, evolves w w0 /\ evolves w0 w' /\
     rec_Owner (obs_Record (current w0 key)) = noOwner) \/
  (exists wl wl', evolves w wl /\ evolves wl wl' /\ evolves wl' w' /\
     rec_Owner (obs_Record (current wl key)) = owner /\
     obs_Record (current wl' key) = mkRecord 1 noOwner 0).
Proof.
  revert Hrel. unfold Release. destruct (_ || _); [done|].
  destruct (Read w key) as [w1 r] eqn:Hr. destruct r as [o|e]; [|done].
  apply read_ok in Hr as (w0 & Hw0 & Hw1 & <-).
  destruct (validateObservation _); [done|].
  case_bool_decide as Hno; [intros [= <-]; left; eauto|].
  case_bool_decide as Hown; simpl; [|done]. intros Hc.
  apply cas_ok in Hc as (wl & wl' & H1 & H2 & H3 & Hrev & Hrec). right.
  destruct (revision_binds w0 wl key) as [_ Hbind]; [by etrans|].
  exists wl, wl'. split_and!; try done; [etrans; [exact Hw0|by etrans]|].
  rewrite <- Hbind; done.
Qed.

Lemma release_clears_only_own_witness :
  let w := mkMem {["k" := (0%nat, mkRecord 1 ownerA 5000)]} 1000 in
  let w' := mkMem {["k" := (1%nat, mkRecord 1 noOwner 0)]} 1000 in
  Release w "k" ownerA = (w', None) /\
  ((exists w0, evolves w w0 /\ evolves w0 w' /\
      rec_Owner (obs_Record (current w0 "k")) = noOwner) \/
   (exists wl wl', evolves w wl /\ evolves wl wl' /\ evolves wl' w' /\
      rec_Owner (obs_Record (current wl "k")) = ownerA /\
      obs_Record (current wl' "k") = mkRecord 1 noOwner 0)).
Proof.
  split; [vm_compute; reflexivity|].
  apply (release_clears_only_own (mkMem {["k" := (0%nat, mkRecord 1 ownerA 5000)]} 1000)).
  vm_compute. reflexivity.
Defined.

(** The deadline [acquireUntil] returns is conservative: if the provider's
    clock runs at the local rate, at any fixed offset and with one second of
    precision, then until the local deadline the provider does not consider
    the lease just written expired. *)
Theorem acquire_until_conservative {W : Type} `{StoreLaws W} {CX : Cancellation W}
    (now : W -> Time) (offset : Duration) (w w' : W)
    (key : string) (owner : Owner) (ttl deadline : Duration)
    (now_monotone : forall w1 w2, evolves w1 w2 -> now w1 <= now w2)
    (clock_rate : forall w1, now w1 + offset - second < obs_Now (current w1 key)
                             <= now w1 + offset)
    (Hacq : acquireUntil now w key owner ttl = (w', Ok deadline)) :
  exists wl, evolves w wl /\ evolves wl w' /\
    rec_Owner (obs_Record (current wl key)) = owner /\
    now w' < deadline /\
    forall w2, evolves wl w2 -> now w2 < deadline ->
      obs_Now (current w2 key) < rec_ExpiresAt (obs_Record (current wl key)).
Proof.
  revert Hacq. unfold acquireUntil. destruct (_ <=? _) eqn:Ht; [done|].
  destruct (Acquire w key owner ttl) as [w1 [e|]] eqn:Ha; [done|].
  destruct (ctx_done w1); [done|]. destruct (negb _) eqn:Hb; [done|].
  intros [= <- <-]. brefl.
  apply Acquire_ok in Ha as (w0 & wl & wl' & H1 & H2 & H3 & H4 & _ & _ & _ & _ & Hrec).
  pose proof (acquire_record_ttl (current w0 key) owner ttl) as Hexp.
  exists wl'. rewrite Hrec. split_and!.
  { etrans; [exact H1|]. etrans; [exact H2|exact H3]. }
  { done. } { done. } { lia. }
  intros w2 H5 Hd. pose proof (now_monotone _ _ H1). pose proof (clock_rate w0).
  pose proof (clock_rate w2). lia.
Qed.

Lemma acquire_until_conservative_witness :
  let w := mkMem ∅ 1000 in
  let w' := mkMem {["k" := (0%nat, mkRecord 1 ownerA (1000 + hour))]} 1000 in
  acquireUntil clock w "k" ownerA hour = (w', Ok (1000 + (hour - second))) /\
  exists wl, evolves w wl /\ evolves wl w' /\
    rec_Owner (obs_Record (current wl "k")) = ownerA /\
    clock w' < 1000 + (hour - second) /\
    forall w2, evolves wl w2 -> clock w2 < 1000 + (hour - second) ->
      obs_Now (current w2 "k") < rec_ExpiresAt (obs_Record (current wl "k")).
Proof.
  split; [vm_compute; reflexivity|].
  eapply (acquire_until_conservative clock 0 (mkMem ∅ 1000) _ "k" ownerA hour).
  - intros w1 w2 [Hc _]. exact Hc.
  - intros w1. cbn. unfold second. lia.
  - vm_compute. reflexivity.
Defined.

(** [Decode] admits only the canonical encoding: whatever the JSON decoder
    makes of the data, an accepted record re-encodes to the data itself (up to
    surrounding white space), is valid, and is bound to the key. *)
Theorem decode_canonical {C : RecordCodec} (key : string) (data : list N) (r : LeaseRecord)
    (Hdec : Decode key data = Ok r) :
  Encode key r = Ok (TrimSpaceBytes data) /\ validateRecord r = None /\ validKey key = true.
Proof.
  unfold Decode in Hdec. repeat (case_match; simplify_eq).
  case_bool_decide as Ht; [rewrite Ht|]; simplify_eq. brefl. intuition.
Qed.

(** A codec for one record, to run the encoding. *)
Definition toy_codec (key : string) (r : LeaseRecord) : RecordCodec := {|
  marshal p k r' := if bool_decide (k = key /\ r' = r) then Some [123; 125]%N else None;
  unmarshal d := Some (coordinationProtocol, key, r, []);
  only_space rest := match rest with [] => true | _ => false end;
|}.

Lemma decode_canonical_witness :
  let r := mkRecord 1 ownerA 5000 in
  @Decode (toy_codec "k" r) "k" [32; 123; 125; 10]%N = Ok r /\
  @Encode (toy_codec "k" r) "k" r = Ok (TrimSpaceBytes [32; 123; 125; 10]%N) /\
  validateRecord r = None /\ validKey "k" = true.
Proof.
  split; [vm_compute; reflexivity|].
  apply (@decode_canonical (toy_codec "k" (mkRecord 1 ownerA 5000))).
  vm_compute. reflexivity.
Defined.
