(* ===== verification/ClaimLedger.v ===== *)
(** * The claim ledger: [internal/localscheduler/claim.go] and its companions

    The lease-based source of truth for exactly-once backlog processing: its
    entries and history, every operation that changes them, and the durable
    file it rewrites on each one.  This file holds the definitions; the
    invariants and properties are in [ClaimLedgerFacts] and [ClaimLedgerProps]. *)

From S2P Require Export ClaimRelease SharedClaim.
Local Open Scope string_scope.
Local Open Scope list_scope.
Local Open Scope Z_scope.

(** ** Keys *)

Record ClaimKey := mkKey { key_Gaggle : string; key_Provider : string; key_ExternalID : string }.

#[export] Instance ClaimKey_eq_dec : EqDecision ClaimKey.
Proof. solve_decision. Defined.

Inductive ledger_error :=
| ErrClaimKeyIncomplete | ErrLeaseNotPositive | ErrDeadlineRequired | ErrOwnerRunMismatch
| ErrShared (e : claim_error) | ErrDeadlineExpired | ErrRevoked | ErrSharedRenewal
| ErrPersist | ErrReclaimShared | ErrReclaimItemID | ErrReclaimNamespace | ErrReclaimDuplicate
| ErrReclaimSharedLocal | ErrIncompleteOwner | ErrClaimReleasePending | ErrPublicationCustody
| ErrSharedHandoff | ErrActorRequired | ErrSharedForceRelease | ErrAuditJournal | ErrAuditAppend
| ErrPublicationOverride | ErrPublicationCleanup | ErrCoordinatedRelease
| ErrPublicationAdmission | ErrAdmissionExpired | ErrSharedOwnership | ErrRevocationArgs
| ErrVerificationState | ErrVerificationOwnerTooLong | ErrVerificationPredates
| ErrVerificationContradicts | ErrVerificationFuture
| ErrPendingWithoutOwner | ErrSharedOwnerDeadline | ErrSharedKeyMismatch
| ErrSharedExpiryDiffers | ErrHistoryOtherRun
| ErrNoResolver | ErrResolve | ErrMigrateExists | ErrMigrateDuplicate.

(** [ClaimKey.storageKey]. *)
Definition storageKey (k : ClaimKey) : result ledger_error string :=
  if (key_Gaggle k =? "")%string || (key_Provider k =? "")%string
     || (key_ExternalID k =? "")%string
  then Error ErrClaimKeyIncomplete
  else Ok ("v2|" +:+ QueryEscape (key_Gaggle k) +:+ "|" +:+ QueryEscape (key_Provider k)
           +:+ "|" +:+ QueryEscape (key_ExternalID k)).

(** The ledger-only namespaces of [claimkeys.go]. *)
Definition PullRequestItemIDPrefix : string := "pr/".
Definition AdvisoryPRItemIDPrefix : string := "advisory-pr/".
Definition DecompositionTargetItemIDPrefix : string := "decomposition-target:".
Definition MergeLockItemIDPrefix : string := "merge-lock/".
Definition PublicationLockItemIDPrefix : string := "publication-lock/".
Definition PublicationLockReleaseCode : string := "verdict_publication_closed".

Definition ledgerOnlyItemIDPrefixes : list string :=
  [PullRequestItemIDPrefix; AdvisoryPRItemIDPrefix; DecompositionTargetItemIDPrefix;
   MergeLockItemIDPrefix; PublicationLockItemIDPrefix].

Definition IsWorkItemClaimKey (id : string) : bool :=
  negb (id =? "")%string && negb (existsb (HasPrefix id) ledgerOnlyItemIDPrefixes).

Definition IsPublicationClaimKey (id : string) : bool :=
  if HasPrefix id PublicationLockItemIDPrefix then true
  else match CutPrefix (MergeLockItemIDPrefix +:+ "publication/") id with
  | Some legacy => (2 <=? CountByte "/" legacy)%nat
  | None => false
  end.

(** ** Entries *)

Record ClaimVerification := mkVerification {
  ver_State : string;
  ver_ObservedAt : Time;
  ver_ProviderRunID : string;
}.

Definition noVerification : ClaimVerification := mkVerification "" 0 "".

Definition zeroReason : Reason := mkReason (Unrecognized "") "" "" "" "".

Record ClaimEntry := mkEntry {
  Verification : ClaimVerification;
  ItemID : string;
  Gaggle : string;
  Provider : string;
  ExternalID : string;
  RunID : string;
  Workflow : string;
  ClaimedAt : Time;
  RenewedAt : Time;
  ExpiresAt : Time;
  ReleasePending : bool;
  SharedAdmissionPending : bool;
  SharedDeadline : Time;
  SharedOwner : Owner;
  SharedRevoked : bool;
  ReleasedAt : option Time;
  ReleaseReason : Reason;
}.

(** [ClaimEntry{}]: what a Go map lookup yields for an absent key. *)
Definition zeroEntry : ClaimEntry :=
  mkEntry noVerification "" "" "" "" "" "" 0 0 0 false false 0 noOwner false None zeroReason.

(** The entry a grant builds: every field the composite literal sets. *)
Definition grantEntry (key : ClaimKey) (runID workflow : string) (claimedAt expiresAt : Time)
    (sharedDeadline : Time) (owner : Owner) : ClaimEntry :=
  mkEntry noVerification (key_ExternalID key) (key_Gaggle key) (key_Provider key)
    (key_ExternalID key) runID workflow claimedAt 0 expiresAt false false
    sharedDeadline owner false None zeroReason.

(** Field updates. *)
Definition set_renewal (e prev : ClaimEntry) (now : Time) : ClaimEntry :=
  mkEntry (Verification prev) (ItemID e) (Gaggle e) (Provider e) (ExternalID e) (RunID e)
    (Workflow e) (ClaimedAt prev) now (ExpiresAt e) (ReleasePending e)
    (SharedAdmissionPending e) (SharedDeadline e) (SharedOwner e) (SharedRevoked e)
    (ReleasedAt e) (ReleaseReason e).
Definition set_pending (e : ClaimEntry) (releasePending admissionPending : bool) : ClaimEntry :=
  mkEntry (Verification e) (ItemID e) (Gaggle e) (Provider e) (ExternalID e) (RunID e)
    (Workflow e) (ClaimedAt e) (RenewedAt e) (ExpiresAt e) releasePending
    admissionPending (SharedDeadline e) (SharedOwner e) (SharedRevoked e)
    (ReleasedAt e) (ReleaseReason e).
Definition set_deadline (e : ClaimEntry) (d : Time) : ClaimEntry :=
  mkEntry (Verification e) (ItemID e) (Gaggle e) (Provider e) (ExternalID e) (RunID e)
    (Workflow e) (ClaimedAt e) (RenewedAt e) d (ReleasePending e)
    (SharedAdmissionPending e) d (SharedOwner e) (SharedRevoked e)
    (ReleasedAt e) (ReleaseReason e).
Definition set_revoked (e : ClaimEntry) : ClaimEntry :=
  mkEntry (Verification e) (ItemID e) (Gaggle e) (Provider e) (ExternalID e) (RunID e)
    (Workflow e) (ClaimedAt e) (RenewedAt e) (ExpiresAt e) (ReleasePending e)
    (SharedAdmissionPending e) (SharedDeadline e) (SharedOwner e) true
    (ReleasedAt e) (ReleaseReason e).
Definition set_released (e : ClaimEntry) (at_ : Time) (reason : Reason) : ClaimEntry :=
  mkEntry (Verification e) (ItemID e) (Gaggle e) (Provider e) (ExternalID e) (RunID e)
    (Workflow e) (ClaimedAt e) (RenewedAt e) (ExpiresAt e) (ReleasePending e)
    (SharedAdmissionPending e) (SharedDeadline e) (SharedOwner e) (SharedRevoked e)
    (Some at_) reason.
Definition set_verification (e : ClaimEntry) (v : ClaimVerification) : ClaimEntry :=
  mkEntry v (ItemID e) (Gaggle e) (Provider e) (ExternalID e) (RunID e)
    (Workflow e) (ClaimedAt e) (RenewedAt e) (ExpiresAt e) (ReleasePending e)
    (SharedAdmissionPending e) (SharedDeadline e) (SharedOwner e) (SharedRevoked e)
    (ReleasedAt e) (ReleaseReason e).
Definition set_namespace (e : ClaimEntry) (gaggle provider : string) : ClaimEntry :=
  mkEntry (Verification e) (ItemID e) gaggle provider (ItemID e) (RunID e)
    (Workflow e) (ClaimedAt e) (RenewedAt e) (ExpiresAt e) (ReleasePending e)
    (SharedAdmissionPending e) (SharedDeadline e) (SharedOwner e) (SharedRevoked e)
    (ReleasedAt e) (ReleaseReason e).
Definition set_ids (e : ClaimEntry) (itemID externalID : string) : ClaimEntry :=
  mkEntry (Verification e) itemID (Gaggle e) (Provider e) externalID (RunID e)
    (Workflow e) (ClaimedAt e) (RenewedAt e) (ExpiresAt e) (ReleasePending e)
    (SharedAdmissionPending e) (SharedDeadline e) (SharedOwner e) (SharedRevoked e)
    (ReleasedAt e) (ReleaseReason e).

(** [ClaimEntry.expired], [transitionPending], [LastGrantedAt],
    [IsPublicationClaim]. *)
Definition expired (e : ClaimEntry) (now : Time) : bool := negb (After (ExpiresAt e) now).
Definition transitionPending (e : ClaimEntry) : bool :=
  ReleasePending e || SharedAdmissionPending e.
Definition LastGrantedAt (e : ClaimEntry) : Time :=
  if After (RenewedAt e) (ClaimedAt e) then RenewedAt e else ClaimedAt e.
Definition IsPublicationClaim (e : ClaimEntry) : bool :=
  if negb (ExternalID e =? "")%string then IsPublicationClaimKey (ExternalID e)
  else IsPublicationClaimKey (ItemID e).

Definition owner_eqb (o1 o2 : Owner) : bool := bool_decide (o1 = o2).
Definition released (e : ClaimEntry) : bool :=
  match ReleasedAt e with Some _ => true | None => false end.

(** [continueLease]. *)
Definition continueLease (prev : option ClaimEntry) (entry : ClaimEntry) (now : Time) : ClaimEntry :=
  match prev with
  | None => entry
  | Some prev =>
      if negb (RunID prev =? RunID entry)%string || expired prev now || released prev
      then entry else set_renewal entry prev now
  end.

(** ** The ledger *)

Inductive EventType :=
| EventClaimAcquired | EventClaimReleased | EventClaimForceReleased | EventRunnerAnnotation.

Record Event := mkEvent {
  ev_Type : EventType;
  ev_Name : string;
  ev_Gaggle : string;
  ev_RunID : string;
  ev_Workflow : string;
  ev_Reason : string;
  ev_ClaimRelease : option Reason;
  ev_Runner : list (string * string);
}.

Abbreviation Entries := (gmap string ClaimEntry).
Abbreviation History := (gmap string (gmap string ClaimEntry)).

(** [entries] and [history] are the in-memory maps; [file] is the content of
    the ledger file, what a restart reads; [log] is the instance journal
    ([None] when none is wired); [observed] are the snapshots handed to the
    registered mutation observer, latest first. *)
Record ClaimLedger := mkLedger {
  entries : Entries;
  history : History;
  file : Entries * History;
  log : option (list Event);
  observed : list (list ClaimEntry);
}.

Definition with_entries (l : ClaimLedger) (m : Entries) : ClaimLedger :=
  mkLedger m (history l) (file l) (log l) (observed l).
Definition with_history (l : ClaimLedger) (h : History) : ClaimLedger :=
  mkLedger (entries l) h (file l) (log l) (observed l).
Definition with_log (l : ClaimLedger) (g : option (list Event)) : ClaimLedger :=
  mkLedger (entries l) (history l) (file l) g (observed l).

(** What the operating system answers to one [journal.WriteFileAtomic]: the
    rename happened and the directory was synced, nothing happened, or the
    rename happened and syncing the directory failed. *)
Inductive write_outcome := WriteOk | WriteFailed | WriteDirSyncFailed.

(** The environment of one operation: the clock reading it takes, the reading
    [persist] takes later, the fate of its write, and whether the journal
    accepts an event. *)
Record Env := mkEnv {
  now : Time;
  persist_now : Time;
  write : write_outcome;
  journal_ok : bool;
}.

(** ** History *)

Definition ClaimHistoryTTL : Duration := 30 * 24 * hour.

(** [historyEntry]. *)
Definition hist_lookup (h : History) (runID key : string) : option ClaimEntry :=
  h !! runID ≫= (fun inner => inner !! key).
Definition historyEntry (l : ClaimLedger) (runID key : string) : option ClaimEntry :=
  hist_lookup (history l) runID key.

(** [recordHistory], [recordReleasedHistory], [restoreHistory]. *)
Definition hist_insert (h : History) (runID key : string) (e : ClaimEntry) : History :=
  <[runID := <[key := e]> (default ∅ (h !! runID))]> h.
Definition recordHistory (key : string) (e : ClaimEntry) (l : ClaimLedger) : ClaimLedger :=
  with_history l (hist_insert (history l) (RunID e) key e).
Definition recordReleasedHistory (key : string) (e : ClaimEntry) (releasedAt : Time)
    (reason : Reason) (l : ClaimLedger) : ClaimLedger :=
  recordHistory key (set_released e releasedAt reason) l.

Definition hist_delete (h : History) (runID key : string) : History :=
  let inner := delete key (default ∅ (h !! runID)) in
  if bool_decide (inner = ∅) then delete runID h else <[runID := inner]> h.
Definition restoreHistory (runID key : string) (previous : option ClaimEntry)
    (l : ClaimLedger) : ClaimLedger :=
  match previous with
  | Some e => with_history l (hist_insert (history l) runID key e)
  | None => with_history l (hist_delete (history l) runID key)
  end.

(** [retainedHistory]: a run with no active entry loses its history once the
    newest activity is past the retention, except its revocations. *)
Definition run_active (m : Entries) (runID : string) : bool :=
  existsb (fun p => (RunID p.2 =? runID)%string) (map_to_list m).

Definition last_activity (e : ClaimEntry) : Time :=
  match ReleasedAt e with Some t => t | None => LastGrantedAt e end.

Definition newest_activity (inner : gmap string ClaimEntry) : Time :=
  foldr (fun p acc => if After (last_activity p.2) acc then last_activity p.2 else acc)
    0 (map_to_list inner).

Definition retain_run (m : Entries) (cutoff : Time) (runID : string)
    (inner : gmap string ClaimEntry) : option (gmap string ClaimEntry) :=
  if run_active m runID then Some inner
  else if After (newest_activity inner) cutoff then Some inner
  else
    let revoked := filter (fun p => SharedRevoked p.2 = true) inner in
    if bool_decide (revoked = ∅) then None else Some revoked.

Definition retainedHistory (l : ClaimLedger) (now : Time) : History :=
  map_imap (retain_run (entries l) (now - ClaimHistoryTTL)) (history l).

(** ** Journal and persistence *)

(** [appendEvent] (best effort), [journal], [journalRelease],
    [journalWithRunner]. *)
Definition appendEvent (env : Env) (t : EventType) (e : ClaimEntry)
    (runner : list (string * string)) (reason : option Reason) (l : ClaimLedger) : ClaimLedger :=
  match log l with
  | None => l
  | Some g =>
      if journal_ok env
      then with_log l (Some (g ++ [mkEvent t (ItemID e) (Gaggle e) (RunID e) (Workflow e)
                                     (match reason with
                                      | Some r => disposition_string (reason_disposition r)
                                      | None => ""
                                      end)
                                     reason runner]))
      else l
  end.

Definition claimRunner (e : ClaimEntry) : list (string * string) :=
  if (Provider e =? "")%string then []
  else [("claimProvider", Provider e); ("claimExternalId", ExternalID e)].

Definition journal (env : Env) (t : EventType) (e : ClaimEntry) : ClaimLedger -> ClaimLedger :=
  appendEvent env t e (claimRunner e) None.
Definition journalRelease (env : Env) (t : EventType) (e : ClaimEntry) (reason : Reason)
    (runner : option (list (string * string))) : ClaimLedger -> ClaimLedger :=
  appendEvent env t e (default (claimRunner e) runner) (Some reason).
Definition journalWithRunner (env : Env) (t : EventType) (e : ClaimEntry)
    (runner : list (string * string)) : ClaimLedger -> ClaimLedger :=
  appendEvent env t e runner None.

(** [persist]: [true] is success.  The in-memory history becomes the retained
    one and the observer is notified only after the write succeeded; a failed
    directory sync has already replaced the file. *)
Definition persist (env : Env) (l : ClaimLedger) : ClaimLedger * bool :=
  let retained := retainedHistory l (persist_now env) in
  match write env with
  | WriteOk =>
      (mkLedger (entries l) retained (entries l, retained) (log l)
         (map snd (map_to_list (entries l)) :: observed l), true)
  | WriteFailed => (l, false)
  | WriteDirSyncFailed =>
      (mkLedger (entries l) (history l) (entries l, retained) (log l) (observed l), false)
  end.

(** Put an entry, or its absence, back. *)
Definition restore_entry (key : string) (prev : option ClaimEntry) (l : ClaimLedger) : ClaimLedger :=
  with_entries l (match prev with
                  | Some e => <[key := e]> (entries l)
                  | None => delete key (entries l)
                  end).

(** ** Operations *)

Section operations.
Context {San : Sanitizer} {Cod : RecordCodec}.

Abbreviation out A := (ClaimLedger * result ledger_error A)%type.

(** [sharedclaim.Encode] used as a check. *)
Definition encode_check (externalID : string) (owner : Owner) (expires : Time)
    : option ledger_error :=
  match Encode externalID (mkRecord 1 owner expires) with
  | Ok _ => None
  | Error e => Some (ErrShared e)
  end.

(** [storeClaim]: commit ownership and history together, or put both back. *)
Definition storeClaim (env : Env) (key : string) (entry : ClaimEntry) (l : ClaimLedger)
    : ClaimLedger * bool :=
  let prev := entries l !! key in
  let l1 := with_entries l (<[key := entry]> (entries l)) in
  let previousHistory := historyEntry l1 (RunID entry) key in
  let l2 := recordHistory key entry l1 in
  let '(l3, ok) := persist env l2 in
  if ok then (journal env EventClaimAcquired entry l3, true)
  else (restoreHistory (RunID entry) key previousHistory (restore_entry key prev l3), false).

(** The entry blocks another claimant: a transition is pending or the lease is
    live. *)
Definition live_or_pending (e : ClaimEntry) (now : Time) : bool :=
  transitionPending e || negb (expired e now).

(** [claim] once the item-only key let the claimant through: the guards on the
    claimed key itself, then the grant. *)
Definition claim_key (env : Env) (key : string) (k : ClaimKey) (runID workflow : string)
    (expires deadline : Time) (owner : Owner) (l : ClaimLedger) : out (bool * string) :=
  let now := now env in
  let had := entries l !! key in
  let prev := default zeroEntry had in
  if match had with
     | Some existing =>
         transitionPending existing
         || negb (expired existing now)
            && (negb (RunID existing =? runID)%string || IsPublicationClaim existing)
     | None => false
     end
  then (l, Ok (false, RunID prev))
  else if match historyEntry l runID key with
          | Some historical => SharedRevoked historical
          | None => false
          end
  then (l, Error ErrRevoked)
  else if IsZero deadline && negb (IsZero (SharedDeadline prev)) then (l, Error ErrSharedRenewal)
  else if negb (owner_eqb (SharedOwner prev) noOwner) && negb (owner_eqb (SharedOwner prev) owner)
          && negb (expired prev now)
  then (l, Ok (false, RunID prev))
  else
    let entry := continueLease had (grantEntry k runID workflow now expires deadline owner) now in
    let '(l1, ok) := storeClaim env key entry l in
    if ok then (l1, Ok (true, runID)) else (l1, Error ErrPersist).

(** [claim]. *)
Definition claim (env : Env) (key legacyKey : string) (k : ClaimKey) (runID workflow : string)
    (leaseDuration : Duration) (deadline : Time) (owner : Owner) (l : ClaimLedger)
    : out (bool * string) :=
  if (leaseDuration <=? 0) && IsZero deadline then (l, Error ErrLeaseNotPositive)
  else
  let expires := if IsZero deadline then now env + leaseDuration else deadline in
  if negb (After expires (now env)) then (l, Error ErrDeadlineExpired)
  else
  match (if negb (legacyKey =? "")%string then entries l !! legacyKey else None) with
  | Some existing =>
      if live_or_pending existing (now env) then (l, Ok (false, RunID existing))
      else claim_key env key k runID workflow expires deadline owner l
  | None => claim_key env key k runID workflow expires deadline owner l
  end.

(** [Claim], [ClaimScoped], [ClaimScopedUntil]. *)
Definition Claim (env : Env) (itemID runID workflow : string) (leaseDuration : Duration)
    (l : ClaimLedger) : out (bool * string) :=
  claim env itemID "" (mkKey "" "" itemID) runID workflow leaseDuration 0 noOwner l.

Definition ClaimScoped (env : Env) (k : ClaimKey) (runID workflow : string)
    (leaseDuration : Duration) (l : ClaimLedger) : out (bool * string) :=
  match storageKey k with
  | Error e => (l, Error e)
  | Ok key => claim env key (key_ExternalID k) k runID workflow leaseDuration 0 noOwner l
  end.

Definition ClaimScopedUntil (env : Env) (k : ClaimKey) (runID workflow : string)
    (deadline : Time) (owner : Owner) (l : ClaimLedger) : out (bool * string) :=
  if IsZero deadline then (l, Error ErrDeadlineRequired)
  else if negb (Run owner =? runID)%string then (l, Error ErrOwnerRunMismatch)
  else match encode_check (key_ExternalID k) owner deadline with
  | Some e => (l, Error e)
  | None =>
      match storageKey k with
      | Error e => (l, Error e)
      | Ok key => claim env key (key_ExternalID k) k runID workflow 0 deadline owner l
      end
  end.

(** [release] and its callers. *)
Definition release (env : Env) (key runID : string) (owner : Owner) (reason : Reason)
    (l : ClaimLedger) : out unit :=
  match entries l !! key with
  | None => (l, Ok tt)
  | Some entry =>
      if negb (owner_eqb owner noOwner) && negb (owner_eqb (SharedOwner entry) owner)
      then (l, Error (ErrShared ErrNotOwner))
      else if negb (RunID entry =? runID)%string then (l, Ok tt)
      else if transitionPending entry then (l, Error ErrClaimReleasePending)
      else if IsPublicationClaim entry
              && negb (reason_code reason =? PublicationLockReleaseCode)%string
      then (l, Error ErrPublicationCustody)
      else if negb (IsZero (SharedDeadline entry)) && owner_eqb owner noOwner
      then (l, Error ErrSharedHandoff)
      else
        let reason := Normalize reason in
        let previousHistory := historyEntry l runID key in
        let l1 := recordReleasedHistory key entry (now env) reason l in
        let l2 := with_entries l1 (delete key (entries l1)) in
        let '(l3, ok) := persist env l2 in
        if ok then (journalRelease env EventClaimReleased entry reason None l3, Ok tt)
        else (restoreHistory runID key previousHistory (restore_entry key (Some entry) l3),
              Error ErrPersist)
  end.

Definition LedgerRelease (env : Env) (itemID runID : string) (reason : Reason)
    (l : ClaimLedger) : out unit := release env itemID runID noOwner reason l.

Definition ReleaseScoped (env : Env) (k : ClaimKey) (runID : string) (reason : Reason)
    (l : ClaimLedger) : out unit :=
  match storageKey k with
  | Error e => (l, Error e)
  | Ok key => release env key runID noOwner reason l
  end.

Definition ReleaseSharedScoped (env : Env) (k : ClaimKey) (owner : Owner) (reason : Reason)
    (l : ClaimLedger) : out unit :=
  if (Instance_ owner =? "")%string || (Run owner =? "")%string || (Token owner =? "")%string
  then (l, Error ErrIncompleteOwner)
  else match storageKey k with
  | Error e => (l, Error e)
  | Ok key => release env key (Run owner) owner reason l
  end.

Definition ReleaseEntry (env : Env) (entry : ClaimEntry) (runID : string) (reason : Reason)
    (l : ClaimLedger) : out unit :=
  if (Gaggle entry =? "")%string || (Provider entry =? "")%string
  then LedgerRelease env (ItemID entry) runID reason l
  else ReleaseScoped env (mkKey (Gaggle entry) (Provider entry) (ExternalID entry)) runID reason l.

(** [RenewEntry]. *)
Definition RenewEntry (env : Env) (entry : ClaimEntry) (leaseDuration : Duration)
    (l : ClaimLedger) : out bool :=
  if IsPublicationClaim entry then (l, Ok false)
  else
    let '(l1, r) :=
      if (Gaggle entry =? "")%string || (Provider entry =? "")%string
      then Claim env (ItemID entry) (RunID entry) (Workflow entry) leaseDuration l
      else ClaimScoped env (mkKey (Gaggle entry) (Provider entry) (ExternalID entry))
             (RunID entry) (Workflow entry) leaseDuration l in
    (l1, match r with Ok (ok, _) => Ok ok | Error e => Error e end).

(** [forceRelease] and its callers. *)
Definition forceReleaseActorCLI : string := "cli".

Definition forceReleaseReason (entry : ClaimEntry) (actor publicationReason : string) : Reason :=
  if IsPublicationClaim entry
  then Normalize (By (Because ForceReleased "publication_operator_override" publicationReason) actor)
  else Normalize (By (DispositionReason ForceReleased) actor).

(** The release itself, once the guards and the audit intent are through. *)
Definition forceRelease_commit (env : Env) (key actor : string) (entry : ClaimEntry)
    (reason : Reason) (l : ClaimLedger) : out unit :=
  let previousHistory := historyEntry l (RunID entry) key in
  let l1 := recordReleasedHistory key entry (now env) reason l in
  let l2 := with_entries l1 (delete key (entries l1)) in
  let '(l3, ok) := persist env l2 in
  if ok
  then (journalRelease env EventClaimForceReleased entry reason (Some [("actor", actor)]) l3, Ok tt)
  else (restoreHistory (RunID entry) key previousHistory (restore_entry key (Some entry) l3),
        Error ErrPersist).

Definition forceRelease (env : Env) (key actor : string) (owner : Owner)
    (publicationReason : string) (l : ClaimLedger) : out unit :=
  if (actor =? "")%string then (l, Error ErrActorRequired)
  else match entries l !! key with
  | None => (l, Ok tt)
  | Some entry =>
      if IsPublicationClaim entry && (publicationReason =? "")%string then (l, Ok tt)
      else if transitionPending entry then (l, Error ErrClaimReleasePending)
      else if negb (owner_eqb owner noOwner) && negb (owner_eqb (SharedOwner entry) owner)
      then (l, Error (ErrShared ErrNotOwner))
      else if negb (IsZero (SharedDeadline entry)) && owner_eqb owner noOwner
      then (l, Error ErrSharedForceRelease)
      else
        let reason := forceReleaseReason entry actor publicationReason in
        if IsPublicationClaim entry then
          match log l with
          | None => (l, Error ErrAuditJournal)
          | Some g =>
              if negb (journal_ok env) then (l, Error ErrAuditAppend)
              else forceRelease_commit env key actor entry reason
                     (with_log l (Some (g ++ [mkEvent EventRunnerAnnotation (ItemID entry)
                        (Gaggle entry) (RunID entry) (Workflow entry) "" (Some reason)
                        [("operation", "publication_override_requested"); ("actor", actor);
                         ("reason", publicationReason)]])))
          end
        else forceRelease_commit env key actor entry reason l
  end.

Definition ForceRelease (env : Env) (itemID : string) (l : ClaimLedger) : out unit :=
  forceRelease env itemID forceReleaseActorCLI noOwner "" l.

Definition ForceReleaseEntry (env : Env) (entry : ClaimEntry) (actor : string)
    (l : ClaimLedger) : out unit :=
  if (Gaggle entry =? "")%string || (Provider entry =? "")%string
  then forceRelease env (ItemID entry) actor noOwner "" l
  else match storageKey (mkKey (Gaggle entry) (Provider entry) (ExternalID entry)) with
  | Error e => (l, Error e)
  | Ok key => forceRelease env key actor noOwner "" l
  end.

Definition ForceReleasePublicationEntry (env : Env) (entry : ClaimEntry) (actor reason : string)
    (l : ClaimLedger) : out unit :=
  if negb (IsPublicationClaim entry) || blank reason || blank actor
  then (l, Error ErrPublicationOverride)
  else if negb (Gaggle entry =? "")%string && negb (Provider entry =? "")%string then
    match storageKey (mkKey (Gaggle entry) (Provider entry) (ExternalID entry)) with
    | Error e => (l, Error e)
    | Ok key => forceRelease env key actor noOwner reason l
    end
  else forceRelease env (ItemID entry) actor noOwner reason l.
End operations.
