(* ===== verification/ClaimTransitions.v ===== *)
(** * The ledger's batch, sweep, two-phase and startup operations

    [ReclaimAll] and [RecoverExpired] of [claim.go]; the two-phase provider
    release of [claim_provider_release.go]; shared admission and release of
    [shared_transition.go], [shared_admission.go] and [shared_admin.go];
    provider observations of [claim_verification.go]; renewal of [renewal.go];
    loading, validation and migration at startup. *)

From S2P Require Export ClaimLedger.
Local Open Scope string_scope.
Local Open Scope list_scope.
Local Open Scope Z_scope.

Section transitions.
Context {San : Sanitizer} {Cod : RecordCodec}.

Abbreviation out A := (ClaimLedger * result ledger_error A)%type.

(** ** Batch reclaim *)

Record plannedClaim := mkPlanned {
  pl_storageKey : string;
  pl_legacyStorageKey : string;
  pl_key : ClaimKey;
}.

(** One entry of [ReclaimAll]'s planning loop: [Ok None] skips it. *)
Definition plan_entry (entry : ClaimEntry) : result ledger_error (option plannedClaim) :=
  if IsPublicationClaim entry then Ok None
  else
  let itemID := if (ExternalID entry =? "")%string then ItemID entry else ExternalID entry in
  if HasPrefix itemID MergeLockItemIDPrefix then Ok None
  else if negb (IsZero (SharedDeadline entry)) then Error ErrReclaimShared
  else if (itemID =? "")%string then Error ErrReclaimItemID
  else if negb (Bool.eqb (Gaggle entry =? "")%string (Provider entry =? "")%string)
  then Error ErrReclaimNamespace
  else
  let key := mkKey (Gaggle entry) (Provider entry) itemID in
  if negb (Gaggle entry =? "")%string then
    match storageKey key with
    | Error e => Error e
    | Ok sk => Ok (Some (mkPlanned sk itemID key))
    end
  else Ok (Some (mkPlanned itemID "" key)).

(** The planning loop, with the storage keys seen so far. *)
Fixpoint plan_entries (seen : list string) (es : list ClaimEntry)
    : result ledger_error (list plannedClaim) :=
  match es with
  | [] => Ok []
  | e :: es' =>
      match plan_entry e with
      | Error err => Error err
      | Ok None => plan_entries seen es'
      | Ok (Some p) =>
          if mem_string (pl_storageKey p) seen then Error ErrReclaimDuplicate
          else match plan_entries (pl_storageKey p :: seen) es' with
          | Error err => Error err
          | Ok ps => Ok (p :: ps)
          end
      end
  end.

(** [refusePlannedClaims]: [Ok None] refuses nothing, [Ok (Some holder)]
    refuses the batch. *)
Definition held_by_other (e : option ClaimEntry) (runID : string) (now : Time) : bool :=
  match e with
  | Some existing =>
      transitionPending existing
      || negb (expired existing now) && negb (RunID existing =? runID)%string
  | None => false
  end.

Definition refuse_planned (l : ClaimLedger) (p : plannedClaim) (runID : string) (now : Time)
    : result ledger_error (option string) :=
  let existing := default zeroEntry (entries l !! pl_storageKey p) in
  if transitionPending existing then Ok (Some (RunID existing))
  else if match historyEntry l runID (pl_storageKey p) with
          | Some historical => SharedRevoked historical
          | None => false
          end
  then Error ErrRevoked
  else if negb (IsZero (SharedDeadline existing)) then Error ErrReclaimSharedLocal
  else if negb (pl_legacyStorageKey p =? "")%string
          && held_by_other (entries l !! pl_legacyStorageKey p) runID now
  then Ok (Some (RunID (default zeroEntry (entries l !! pl_legacyStorageKey p))))
  else if held_by_other (entries l !! pl_storageKey p) runID now
  then Ok (Some (RunID existing))
  else Ok None.

Fixpoint refusePlannedClaims (l : ClaimLedger) (ps : list plannedClaim) (runID : string)
    (now : Time) : result ledger_error (option string) :=
  match ps with
  | [] => Ok None
  | p :: ps' =>
      match refuse_planned l p runID now with
      | Ok None => refusePlannedClaims l ps' runID now
      | r => r
      end
  end.

(** The grant of one planned claim. *)
Definition reclaim_entry (previous : Entries) (p : plannedClaim) (runID workflow : string)
    (now : Time) (leaseDuration : Duration) : ClaimEntry :=
  continueLease (previous !! pl_storageKey p)
    (grantEntry (pl_key p) runID workflow now (now + leaseDuration) 0 noOwner) now.

Definition reclaim_step (previous : Entries) (runID workflow : string) (now : Time)
    (leaseDuration : Duration) (l : ClaimLedger) (p : plannedClaim) : ClaimLedger :=
  let entry := reclaim_entry previous p runID workflow now leaseDuration in
  recordHistory (pl_storageKey p) entry
    (with_entries l (<[pl_storageKey p := entry]> (entries l))).

Definition planned_le (p q : plannedClaim) : bool := String.leb (pl_storageKey p) (pl_storageKey q).

(** [ReclaimAll]. *)
Definition ReclaimAll (env : Env) (es : list ClaimEntry) (runID workflow : string)
    (leaseDuration : Duration) (l : ClaimLedger) : out (bool * string) :=
  if leaseDuration <=? 0 then (l, Error ErrLeaseNotPositive)
  else match es with
  | [] => (l, Ok (true, runID))
  | _ =>
    match plan_entries [] es with
    | Error err => (l, Error err)
    | Ok ps =>
        let planned := sort_by planned_le ps in
        match refusePlannedClaims l planned runID (now env) with
        | Error err => (l, Error err)
        | Ok (Some holder) => (l, Ok (false, holder))
        | Ok None =>
            let previous := entries l in
            let previousHistory := history l !! runID in
            let l1 := foldl (reclaim_step previous runID workflow (now env) leaseDuration)
                        l planned in
            let '(l2, ok) := persist env l1 in
            if ok
            then (foldl (fun acc p =>
                           journal env EventClaimAcquired
                             (reclaim_entry previous p runID workflow (now env) leaseDuration) acc)
                    l2 planned, Ok (true, runID))
            else
              let l3 := with_entries l2 previous in
              (with_history l3 (match previousHistory with
                                | None => delete runID (history l3)
                                | Some h => <[runID := h]> (history l3)
                                end), Error ErrPersist)
        end
    end
  end.

(** ** The recovery sweep *)

Definition ReleaseCodeLeaseExpired : string := "lease_expired".
Definition StallSweptReason : Reason := Normalize (Because StallSwept ReleaseCodeLeaseExpired "").

(** What [RecoverExpired] reaps: an expired local lease with no transition
    pending. *)
Definition reapable (now : Time) (e : ClaimEntry) : bool :=
  IsZero (SharedDeadline e) && negb (transitionPending e) && expired e now.

Record releasedClaim := mkReleased {
  rc_storageKey : string;
  rc_entry : ClaimEntry;
  rc_previous : option ClaimEntry;
}.

Definition reap (now : Time) (l : ClaimLedger) (p : string * ClaimEntry)
    : ClaimLedger * releasedClaim :=
  let previous := historyEntry l (RunID p.2) p.1 in
  let l1 := recordReleasedHistory p.1 p.2 now StallSweptReason l in
  (with_entries l1 (delete p.1 (entries l1)), mkReleased p.1 p.2 previous).

Fixpoint reap_all (now : Time) (l : ClaimLedger) (ps : list (string * ClaimEntry))
    : ClaimLedger * list releasedClaim :=
  match ps with
  | [] => (l, [])
  | p :: ps' =>
      let '(l1, rc) := reap now l p in
      let '(l2, rcs) := reap_all now l1 ps' in
      (l2, rc :: rcs)
  end.

Definition restore_released (l : ClaimLedger) (rc : releasedClaim) : ClaimLedger :=
  restoreHistory (RunID (rc_entry rc)) (rc_storageKey rc) (rc_previous rc)
    (restore_entry (rc_storageKey rc) (Some (rc_entry rc)) l).

(** [RecoverExpired]. *)
Definition RecoverExpired (env : Env) (now : Time) (l : ClaimLedger) : out (list ClaimEntry) :=
  let victims := filter (fun p => reapable now p.2 = true) (map_to_list (entries l)) in
  match victims with
  | [] => (l, Ok [])
  | _ =>
      let '(l1, rcs) := reap_all now l victims in
      let '(l2, ok) := persist env l1 in
      if ok
      then (foldl (fun acc rc => journalRelease env EventClaimReleased (rc_entry rc)
                                   StallSweptReason None acc) l2 rcs,
            Ok (map rc_entry rcs))
      else (foldl restore_released l2 rcs, Error ErrPersist)
  end.

(** ** Two-phase provider release *)

(** [claimEntryStorageKey]. *)
Definition claimEntryStorageKey (e : ClaimEntry) : result ledger_error string :=
  if (Gaggle e =? "")%string && (Provider e =? "")%string then Ok (ItemID e)
  else storageKey (mkKey (Gaggle e) (Provider e) (ExternalID e)).

(** The persisted entry is the incarnation the caller saw. *)
Definition same_incarnation (current expected : ClaimEntry) : bool :=
  (RunID current =? RunID expected)%string && (ClaimedAt current =? ClaimedAt expected)
  && owner_eqb (SharedOwner current) (SharedOwner expected).

(** Write [updated] over [current] at [key], or put everything back. *)
Definition update_entry (env : Env) (key : string) (current updated : ClaimEntry)
    (l : ClaimLedger) : ClaimLedger * bool :=
  let previous := historyEntry l (RunID current) key in
  let l1 := with_entries l (<[key := updated]> (entries l)) in
  let l2 := recordHistory key updated l1 in
  let '(l3, ok) := persist env l2 in
  if ok then (l3, true)
  else (restoreHistory (RunID current) key previous (restore_entry key (Some current) l3), false).

(** [beginProviderRelease]. *)
Definition beginProviderRelease (env : Env) (expected : ClaimEntry) (shared : bool)
    (expiredAt : Time) (l : ClaimLedger) : out bool :=
  if IsPublicationClaim expected then (l, Error ErrPublicationCleanup)
  else match claimEntryStorageKey expected with
  | Error e => (l, Error e)
  | Ok key =>
      match entries l !! key with
      | None => (l, Ok false)
      | Some current =>
          if negb (same_incarnation current expected) then (l, Ok false)
          else if negb (IsZero expiredAt) && After (ExpiresAt current) expiredAt
          then (l, Ok false)
          else if negb (Bool.eqb (negb (IsZero (SharedDeadline current))) shared)
          then (l, Error ErrCoordinatedRelease)
          else if ReleasePending current then (l, Ok true)
          else
            let '(l1, ok) := update_entry env key current (set_pending current true false) l in
            if ok then (l1, Ok true) else (l1, Error ErrPersist)
      end
  end.

Definition BeginProviderRelease (env : Env) (expected : ClaimEntry) (l : ClaimLedger) : out bool :=
  beginProviderRelease env expected false 0 l.

(** [FinishProviderRelease]. *)
Definition FinishProviderRelease (env : Env) (expected : ClaimEntry) (reason : Reason)
    (l : ClaimLedger) : out bool :=
  match claimEntryStorageKey expected with
  | Error e => (l, Error e)
  | Ok key =>
      match entries l !! key with
      | None => (l, Ok false)
      | Some current =>
          if negb (same_incarnation current expected) || negb (ReleasePending current)
          then (l, Ok false)
          else if IsPublicationClaim current then (l, Error ErrPublicationCleanup)
          else
            let previous := historyEntry l (RunID current) key in
            let rel := set_pending current false (SharedAdmissionPending current) in
            let reason := Normalize reason in
            let l1 := recordReleasedHistory key rel (now env) reason l in
            let l2 := with_entries l1 (delete key (entries l1)) in
            let '(l3, ok) := persist env l2 in
            if ok then
              (if bool_decide (reason_disposition reason = ForceReleased)
               then journalRelease env EventClaimForceReleased rel reason
                      (Some [("actor", reason_actor reason)]) l3
               else journalRelease env EventClaimReleased rel reason None l3, Ok true)
            else (restoreHistory (RunID current) key previous
                    (restore_entry key (Some current) l3), Error ErrPersist)
      end
  end.

(** ** Shared admission *)

(** The lease [BeginSharedAdmission] reserves: an expired one for a new owner,
    the current one for a renewal. *)
Definition reserve (k : ClaimKey) (owner : Owner) (workflow : string) (now : Time)
    (current : option ClaimEntry) : ClaimEntry :=
  let fresh := grantEntry k (Run owner) workflow now now now owner in
  let reserved := match current with
                  | Some c => if owner_eqb (SharedOwner c) noOwner then fresh else c
                  | None => fresh
                  end in
  set_pending reserved (ReleasePending reserved) true.

(** [BeginSharedAdmission]: the reservation, whether it was granted, and the
    holder. *)
Definition BeginSharedAdmission (env : Env) (k : ClaimKey) (owner : Owner) (workflow : string)
    (l : ClaimLedger) : out (ClaimEntry * bool * string) :=
  if IsPublicationClaimKey (key_ExternalID k) then (l, Error ErrPublicationAdmission)
  else match storageKey k with
  | Error e => (l, Error e)
  | Ok key =>
    match encode_check (key_ExternalID k) owner (now env) with
    | Some e => (l, Error e)
    | None =>
      if match historyEntry l (Run owner) key with
         | Some historical => SharedRevoked historical
         | None => false
         end
      then (l, Error ErrRevoked)
      else if match entries l !! key_ExternalID k with
              | Some legacy => live_or_pending legacy (now env)
              | None => false
              end
      then (l, Ok (zeroEntry, false,
                   RunID (default zeroEntry (entries l !! key_ExternalID k))))
      else
        let held := entries l !! key in
        let current := default zeroEntry held in
        if match held with
           | Some c =>
               ReleasePending c || SharedRevoked c
               || negb (owner_eqb (SharedOwner c) noOwner) && negb (owner_eqb (SharedOwner c) owner)
               || negb (expired c (now env)) && negb (RunID c =? Run owner)%string
           | None => false
           end
        then (l, Ok (zeroEntry, false, RunID current))
        else if SharedAdmissionPending current then (l, Ok (current, true, RunID current))
        else
          let reserved := reserve k owner workflow (now env) held in
          let previousHistory := historyEntry l (Run owner) key in
          let l1 := with_entries l (<[key := reserved]> (entries l)) in
          let l2 := recordHistory key reserved l1 in
          let '(l3, ok) := persist env l2 in
          if ok then (l3, Ok (reserved, true, Run owner))
          else (restoreHistory (Run owner) key previousHistory (restore_entry key held l3),
                Error ErrPersist)
    end
  end.

(** [FinishSharedAdmission]. *)
Definition FinishSharedAdmission (env : Env) (expected : ClaimEntry) (deadline : Time)
    (l : ClaimLedger) : out (bool * string) :=
  match claimEntryStorageKey expected with
  | Error e => (l, Error e)
  | Ok key =>
      let current := default zeroEntry (entries l !! key) in
      match entries l !! key with
      | None => (l, Ok (false, RunID current))
      | Some _ =>
          if negb (same_incarnation current expected) || negb (SharedAdmissionPending current)
             || ReleasePending current
          then (l, Ok (false, RunID current))
          else if SharedRevoked current then (l, Error ErrRevoked)
          else if negb (After deadline (now env)) then (l, Error ErrAdmissionExpired)
          else
            let admitted := set_deadline (set_pending current (ReleasePending current) false)
                              deadline in
            let '(l1, ok) := storeClaim env key admitted l in
            if ok then (l1, Ok (true, RunID admitted)) else (l1, Error ErrPersist)
      end
  end.

(** [BeginSharedRelease]. *)
Definition BeginSharedRelease (env : Env) (expected : ClaimEntry) (expiredAt : Time)
    (l : ClaimLedger) : out bool :=
  if owner_eqb (SharedOwner expected) noOwner || IsZero (SharedDeadline expected)
  then (l, Error ErrSharedOwnership)
  else beginProviderRelease env expected true expiredAt l.

(** [revokeSharedExecution] and [RevokeSharedExecution]. *)
Definition revokeSharedExecution (env : Env) (key : string) (owner : Owner) (actor : string)
    (l : ClaimLedger) : out bool :=
  if (actor =? "")%string || owner_eqb owner noOwner then (l, Error ErrRevocationArgs)
  else match entries l !! key with
  | None => (l, Ok false)
  | Some entry =>
      if IsPublicationClaim entry then (l, Ok false)
      else if negb (owner_eqb (SharedOwner entry) owner) || IsZero (SharedDeadline entry)
      then (l, Error (ErrShared ErrNotOwner))
      else if SharedRevoked entry then (l, Ok true)
      else
        let revoked :=
          if After (SharedDeadline entry) (now env)
          then set_deadline (set_revoked entry) (now env) else set_revoked entry in
        let '(l1, ok) := update_entry env key entry revoked l in
        if ok
        then (journalWithRunner env EventRunnerAnnotation revoked
                [("operation", "claim_execution_revoked"); ("actor", actor)] l1, Ok true)
        else (l1, Error ErrPersist)
  end.

Definition RevokeSharedExecution (env : Env) (k : ClaimKey) (owner : Owner) (actor : string)
    (l : ClaimLedger) : out bool :=
  match storageKey k with
  | Error e => (l, Error e)
  | Ok key => revokeSharedExecution env key owner actor l
  end.

(** ** Provider observations *)

Definition validateClaimObservation (expected : ClaimEntry) (o : ClaimVerification)
    : option ledger_error :=
  let st := ver_State o in
  if negb (mem_string st ["verified"; "missing"; "contended"; "ownership-mismatch"; "unavailable"])
  then Some ErrVerificationState
  else if (1024 <? String.length (ver_ProviderRunID o))%nat then Some ErrVerificationOwnerTooLong
  else if IsZero (ver_ObservedAt o) || Before (ver_ObservedAt o) (ClaimedAt expected)
  then Some ErrVerificationPredates
  else if ((st =? "verified")%string && negb (ver_ProviderRunID o =? RunID expected)%string)
          || (((st =? "contended")%string || (st =? "ownership-mismatch")%string)
              && ((ver_ProviderRunID o =? "")%string
                  || (ver_ProviderRunID o =? RunID expected)%string))
          || (((st =? "missing")%string || (st =? "unavailable")%string)
              && negb (ver_ProviderRunID o =? "")%string)
  then Some ErrVerificationContradicts
  else None.

Definition ValidateClaimVerification (expected : ClaimEntry) (o : ClaimVerification)
    (now : Time) : option ledger_error :=
  match validateClaimObservation expected o with
  | Some e => Some e
  | None => if After (ver_ObservedAt o) now then Some ErrVerificationFuture else None
  end.

(** [RecordClaimVerification]. *)
Definition RecordClaimVerification (env : Env) (expected : ClaimEntry) (o : ClaimVerification)
    (l : ClaimLedger) : out bool :=
  match claimEntryStorageKey expected with
  | Error e => (l, Error e)
  | Ok key =>
    match ValidateClaimVerification expected o (now env) with
    | Some e => (l, Error e)
    | None =>
      match entries l !! key with
      | None => (l, Ok false)
      | Some current =>
          if negb (RunID current =? RunID expected)%string
             || negb (ClaimedAt current =? ClaimedAt expected)
             || expired current (now env) || released current
          then (l, Ok false)
          else if negb (IsZero (ver_ObservedAt (Verification current)))
                  && negb (After (ver_ObservedAt o) (ver_ObservedAt (Verification current)))
          then (l, Ok false)
          else
            let '(l1, ok) := update_entry env key current (set_verification current o) l in
            if ok then (l1, Ok true) else (l1, Error ErrPersist)
      end
    end
  end.
End transitions.
