(* ===== verification/ClaimStartup.v ===== *)
(** * Opening, migrating, renewing and reading the ledger

    [load] and its shared-claim validation ([shared_validation.go]), the
    migration of item-only keys, ledger-driven renewal and the recovery gate
    ([renewal.go]), the provider-coordinated claims ([shared_admission.go],
    [shared_admin.go]), and the read operations of [claim.go]. *)

From S2P Require Export ClaimTransitions.
Local Open Scope string_scope.
Local Open Scope list_scope.
Local Open Scope Z_scope.

Section startup.
Context {San : Sanitizer} {Cod : RecordCodec}.

Abbreviation out A := (ClaimLedger * result ledger_error A)%type.

(** ** Validation and loading *)

(** [validateSharedClaimEntry]. *)
Definition validateSharedClaimEntry (key : string) (e : ClaimEntry) : option ledger_error :=
  if owner_eqb (SharedOwner e) noOwner && IsZero (SharedDeadline e) then
    if SharedAdmissionPending e then Some ErrPendingWithoutOwner else None
  else if owner_eqb (SharedOwner e) noOwner || IsZero (SharedDeadline e)
          || negb (Run (SharedOwner e) =? RunID e)%string
  then Some ErrSharedOwnerDeadline
  else match storageKey (mkKey (Gaggle e) (Provider e) (ExternalID e)) with
  | Error _ => Some ErrSharedKeyMismatch
  | Ok expected =>
      if negb (expected =? key)%string || negb (ItemID e =? ExternalID e)%string
      then Some ErrSharedKeyMismatch
      else if negb (ExpiresAt e =? SharedDeadline e) then Some ErrSharedExpiryDiffers
      else encode_check (ExternalID e) (SharedOwner e) (SharedDeadline e)
  end.

(** The first error of a list of checks. *)
Fixpoint first_error {A} (check : A -> option ledger_error) (l : list A) : option ledger_error :=
  match l with
  | [] => None
  | x :: l' => match check x with Some e => Some e | None => first_error check l' end
  end.

Definition validate_history_entry (runID : string) (p : string * ClaimEntry)
    : option ledger_error :=
  match validateSharedClaimEntry p.1 p.2 with
  | Some e => Some e
  | None => if negb (owner_eqb (SharedOwner p.2) noOwner) && negb (RunID p.2 =? runID)%string
            then Some ErrHistoryOtherRun else None
  end.

(** [validateSharedClaims]. *)
Definition validateSharedClaims (m : Entries) (h : History) : option ledger_error :=
  match first_error (fun p => validateSharedClaimEntry p.1 p.2) (map_to_list m) with
  | Some e => Some e
  | None => first_error (fun p => first_error (validate_history_entry p.1) (map_to_list p.2))
              (map_to_list h)
  end.

(** ** The ledger file

    [json.MarshalIndent] of the maps and [json.Unmarshal] of the document.  A
    string goes through as it is except for bytes that are no valid UTF-8, each of
    which is read back as U+FFFD; the members of a map are written in the order of
    their keys, and of members whose keys read back alike the last one stays. *)
Fixpoint json_text (bs : list N) : list N :=
  match bs with
  | [] => []
  | b0 :: r0 =>
      if (b0 <? 128)%N then b0 :: json_text r0
      else match r0 with
      | [] => [239; 191; 189]%N
      | b1 :: r1 =>
          if two_byte b0 b1 then b0 :: b1 :: json_text r1
          else match r1 with
          | [] => [239; 191; 189]%N ++ json_text r0
          | b2 :: r2 =>
              if three_byte b0 b1 b2 then b0 :: b1 :: b2 :: json_text r2
              else match r2 with
              | [] => [239; 191; 189]%N ++ json_text r0
              | b3 :: r3 =>
                  if four_byte b0 b1 b2 b3 then b0 :: b1 :: b2 :: b3 :: json_text r3
                  else [239; 191; 189]%N ++ json_text r0
              end
          end
      end
  end.
Definition json_string (s : string) : string := of_bytes (json_text (bytes s)).

Definition json_reason (r : Reason) : Reason :=
  mkReason (match reason_disposition r with Unrecognized d => Unrecognized (json_string d) | d => d end)
    (json_string (reason_stage r)) (json_string (reason_code r)) (json_string (reason_summary r))
    (json_string (reason_actor r)).
Definition json_owner (o : Owner) : Owner :=
  mkOwner (json_string (Instance_ o)) (json_string (Run o)) (json_string (Token o)).
Definition json_entry (e : ClaimEntry) : ClaimEntry :=
  mkEntry (mkVerification (json_string (ver_State (Verification e))) (ver_ObservedAt (Verification e))
             (json_string (ver_ProviderRunID (Verification e))))
    (json_string (ItemID e)) (json_string (Gaggle e)) (json_string (Provider e)) (json_string (ExternalID e))
    (json_string (RunID e)) (json_string (Workflow e)) (ClaimedAt e) (RenewedAt e) (ExpiresAt e)
    (ReleasePending e) (SharedAdmissionPending e) (SharedDeadline e) (json_owner (SharedOwner e))
    (SharedRevoked e) (ReleasedAt e) (json_reason (ReleaseReason e)).
Definition json_map {A} (read : A -> A) (m : gmap string A) : gmap string A :=
  foldl (fun acc p => <[json_string p.1 := read p.2]> acc) ∅
    (sort_by (fun p q => String.leb p.1 q.1) (map_to_list m)).
Definition read_back (f : Entries * History) : Entries * History :=
  (json_map json_entry f.1, json_map (json_map json_entry) f.2).

(** The identifiers [load] fills in on older entries. *)
Definition fill_ids (key : string) (e : ClaimEntry) : ClaimEntry :=
  let item := if (ItemID e =? "")%string then key else ItemID e in
  set_ids e item (if (ExternalID e =? "")%string then item else ExternalID e).

(** [load], from the maps [persist] was given: they went through [encoding/json],
    the entries are completed, validated with the history, and the history is
    pruned. *)
Definition load (now : Time) (f : Entries * History) (g : option (list Event))
    : result ledger_error ClaimLedger :=
  let back := read_back f in
  let m := map_imap (fun k e => Some (fill_ids k e)) back.1 in
  match validateSharedClaims m back.2 with
  | Some e => Error e
  | None =>
      let l := mkLedger m back.2 f g [] in
      Ok (with_history l (retainedHistory l now))
  end.

(** ** Migration of item-only keys *)

Inductive resolution := Resolved (gaggle provider : string) | Unresolved | ResolveError.

Record migration := mkMigration {
  mg_legacyKey : string;
  mg_scopedKey : string;
  mg_entry : ClaimEntry;
}.

Definition is_legacy (e : ClaimEntry) : bool :=
  (Gaggle e =? "")%string && (Provider e =? "")%string && negb (transitionPending e).

Fixpoint plan_migrations (resolve : ClaimEntry -> resolution) (m : Entries)
    (planned : list string) (ps : list (string * ClaimEntry))
    : result ledger_error (list migration) :=
  match ps with
  | [] => Ok []
  | (key, e) :: ps' =>
      match resolve e with
      | Unresolved => plan_migrations resolve m planned ps'
      | ResolveError => Error ErrResolve
      | Resolved gaggle provider =>
          match storageKey (mkKey gaggle provider (ItemID e)) with
          | Error err => Error err
          | Ok scoped =>
              if match m !! scoped with Some _ => true | None => false end
              then Error ErrMigrateExists
              else if mem_string scoped planned then Error ErrMigrateDuplicate
              else match plan_migrations resolve m (scoped :: planned) ps' with
              | Error err => Error err
              | Ok ms => Ok (mkMigration key scoped (set_namespace e gaggle provider) :: ms)
              end
          end
      end
  end.

(** [MigrateLegacyClaims]; [None] is a nil resolver. *)
Definition MigrateLegacyClaims (env : Env) (resolve : option (ClaimEntry -> resolution))
    (l : ClaimLedger) : out unit :=
  let legacy := filter (fun p => is_legacy p.2 = true) (map_to_list (entries l)) in
  match legacy with
  | [] => (l, Ok tt)
  | _ =>
    match resolve with
    | None => (l, Error ErrNoResolver)
    | Some resolve =>
      match plan_migrations resolve (entries l) [] legacy with
      | Error err => (l, Error err)
      | Ok [] => (l, Ok tt)
      | Ok ms =>
          let previous := entries l in
          let l1 := with_entries l
            (foldl (fun m mg => <[mg_scopedKey mg := mg_entry mg]> (delete (mg_legacyKey mg) m))
               (entries l) ms) in
          let '(l2, ok) := persist env l1 in
          if ok then (l2, Ok tt) else (with_entries l2 previous, Error ErrPersist)
      end
    end
  end.

(** [MigrateLegacyNamespace]. *)
Definition MigrateLegacyNamespace (env : Env) (gaggle provider : string) (l : ClaimLedger)
    : out unit :=
  MigrateLegacyClaims env
    (Some (fun _ => if (gaggle =? "")%string || (provider =? "")%string then ResolveError
                    else Resolved gaggle provider)) l.

(** ** Reads *)

Definition entry_le (fs : list (ClaimEntry -> string)) (e1 e2 : ClaimEntry) : bool :=
  (fix go fs := match fs with
   | [] => true
   | f :: fs' => if (f e1 =? f e2)%string then go fs' else String.leb (f e1) (f e2)
   end) fs.

Definition values (m : gmap string ClaimEntry) : list ClaimEntry := map snd (map_to_list m).

(** [Lookup], [LookupScoped], [Snapshot], [ForRunAll], [HistoryForRun],
    [HistoryForItem]. *)
Definition Lookup (l : ClaimLedger) (itemID : string) : option ClaimEntry := entries l !! itemID.

Definition LookupScoped (l : ClaimLedger) (k : ClaimKey) : option ClaimEntry :=
  match storageKey k with Ok key => entries l !! key | Error _ => None end.

Definition Snapshot (l : ClaimLedger) : list ClaimEntry :=
  sort_by (entry_le [ItemID; Gaggle; Provider]) (values (entries l)).

Definition ForRunAll (l : ClaimLedger) (runID : string) : list ClaimEntry :=
  sort_by (entry_le [ItemID])
    (filter (fun e => (RunID e =? runID)%string = true) (values (entries l))).

Definition HistoryForRun (l : ClaimLedger) (runID : string) : list ClaimEntry :=
  sort_by (entry_le [Gaggle; Provider; ExternalID]) (values (default ∅ (history l !! runID))).

Definition claimHistoryTime (e : ClaimEntry) : Time :=
  match ReleasedAt e with Some t => t | None => ClaimedAt e end.

Definition history_values (l : ClaimLedger) : list ClaimEntry :=
  concat (map (fun p => values p.2) (map_to_list (history l))).

Definition HistoryForItem (l : ClaimLedger) (itemID : string) : list ClaimEntry :=
  sort_by (fun e1 e2 => claimHistoryTime e2 <=? claimHistoryTime e1)
    (filter (fun e => (ItemID e =? itemID)%string || (ExternalID e =? itemID)%string = true)
       (history_values l)).

(** [HistorySnapshot]: newest first, then by run and item. *)
Definition history_le (e1 e2 : ClaimEntry) : bool :=
  if claimHistoryTime e1 =? claimHistoryTime e2 then entry_le [RunID; ItemID] e1 e2
  else claimHistoryTime e2 <=? claimHistoryTime e1.

Definition HistorySnapshot (l : ClaimLedger) : list ClaimEntry := sort_by history_le (history_values l).

(** ** Renewal *)

(** [RenewRuns]: one environment per renewed entry. *)
Fixpoint renew_runs (envs : nat -> Env) (i : nat) (live : string -> bool)
    (leaseDuration : Duration) (es : list ClaimEntry) (l : ClaimLedger)
    : ClaimLedger * (list ClaimEntry * option ledger_error) :=
  match es with
  | [] => (l, ([], None))
  | e :: es' =>
      if negb (live (RunID e)) then renew_runs envs i live leaseDuration es' l
      else
        let '(l1, r) := RenewEntry (envs i) e leaseDuration l in
        match r with
        | Error err => (l1, ([], Some err))
        | Ok ok =>
            let '(l2, (renewed, err)) := renew_runs envs (S i) live leaseDuration es' l1 in
            (l2, ((if ok then [e] else []) ++ renewed, err))
        end
  end.

Definition RenewRuns (envs : nat -> Env) (live : string -> bool) (leaseDuration : Duration)
    (l : ClaimLedger) : ClaimLedger * (list ClaimEntry * option ledger_error) :=
  renew_runs envs 0 live leaseDuration (Snapshot l) l.

(** [RecoveryGate]: [None] is the nil gate, which permits recovery. *)
Definition RecoveryPermitted (gate : option bool) : bool :=
  match gate with None => true | Some renewalRebuilt => renewalRebuilt end.
Definition MarkRenewalRebuilt (gate : bool) : bool := true.

(** ** Provider-coordinated claims *)

Context {W : Type} {ST : Store W} {CX : Cancellation W}.

Abbreviation wout A := (W * ClaimLedger * result ledger_error A)%type.

(** [ClaimSharedScoped]: remote lease first, then the local claim bounded by
    it; [clock] reads the local clock of a world. *)
Definition ClaimSharedScoped (clock : W -> Time) (env : Env) (w : W) (remoteKey : string)
    (k : ClaimKey) (owner : Owner) (workflow : string) (ttl : Duration) (l : ClaimLedger)
    : wout (bool * string) :=
  match storageKey k with
  | Error e => (w, l, Error e)
  | Ok key =>
    if SharedRevoked (default zeroEntry (historyEntry l (Run owner) key))
    then (w, l, Error ErrRevoked)
    else
      let '(w1, r) := acquireUntil clock w remoteKey owner ttl in
      match r with
      | Error e => (w1, l, Error (ErrShared e))
      | Ok deadline =>
          let '(l1, r1) := ClaimScopedUntil env k (Run owner) workflow deadline owner l in
          match r1 with
          | Error e => (w1, l1, Error e)
          | Ok (false, holder) => (w1, l1, Ok (false, holder))
          | Ok (true, holder) =>
              if ctx_done w1 then (w1, l1, Error (ErrShared ErrContext))
              else if negb (Before (clock w1) deadline) then (w1, l1, Error ErrAdmissionExpired)
              else (w1, l1, Ok (true, holder))
          end
      end
  end.

(** [releaseSharedCustody]. *)
Definition releaseSharedCustody (w : W) (remoteKey : string) (owner : Owner)
    : W * option claim_error :=
  let '(w1, err) := Release w remoteKey owner in
  match err with
  | Some ErrNotOwner => ConfirmOwnerGone w1 remoteKey owner
  | _ => (w1, err)
  end.

(** [ReleaseCoordinatedShared]. *)
Definition ReleaseCoordinatedShared (env : Env) (w : W) (remoteKey : string) (k : ClaimKey)
    (owner : Owner) (reason : Reason) (l : ClaimLedger) : wout unit :=
  match storageKey k with
  | Error e => (w, l, Error e)
  | Ok _ =>
      let '(w1, err) := releaseSharedCustody w remoteKey owner in
      match err with
      | Some e => (w1, l, Error (ErrShared e))
      | None => let '(l1, r) := ReleaseSharedScoped env k owner reason l in (w1, l1, r)
      end
  end.

(** [ForceReleaseCoordinatedShared]: revoke durably, clean up remotely, then
    release; one environment per ledger write. *)
Definition ForceReleaseCoordinatedShared (env1 env2 : Env) (w : W) (remoteKey : string)
    (k : ClaimKey) (owner : Owner) (actor : string) (l : ClaimLedger) : wout unit :=
  match storageKey k with
  | Error e => (w, l, Error e)
  | Ok key =>
      let '(l1, r) := revokeSharedExecution env1 key owner actor l in
      match r with
      | Error e => (w, l1, Error e)
      | Ok false => (w, l1, Ok tt)
      | Ok true =>
          let '(w1, err) := releaseSharedCustody w remoteKey owner in
          match err with
          | Some e => (w1, l1, Error (ErrShared e))
          | None => let '(l2, r2) := forceRelease env2 key actor owner "" l1 in (w1, l2, r2)
          end
      end
  end.
End startup.
