(* ===== verification/ClaimLedgerFacts.v ===== *)
(** * The ledger as a transactional register

    Every operation of the ledger mutates its maps in place, rewrites the file
    and, when the write fails, undoes the mutation by hand.  This file states
    what that amounts to, as an abstract specification: an operation is a
    sequence of [edit]s, each allowed by [edit_ok], applied atomically ([txn]),
    and the invariant [core_inv] that every allowed edit preserves. *)

From S2P Require Export ClaimStartup.
Local Open Scope string_scope.
Local Open Scope list_scope.
Local Open Scope Z_scope.

Arguments hist_insert : simpl never.
Arguments hist_delete : simpl never.
Arguments hist_lookup : simpl never.

(** ** The abstract state *)

Abbreviation Core := (Entries * History)%type.

Definition core (l : ClaimLedger) : Core := (entries l, history l).

(** Histories that answer every lookup alike: the code may leave an empty
    inner map behind, or remove one. *)
Definition hequiv (h1 h2 : History) : Prop :=
  forall runID key, hist_lookup h1 runID key = hist_lookup h2 runID key.

#[export] Instance hequiv_equivalence : Equivalence hequiv.
Proof.
  split.
  - intros h r k; reflexivity.
  - intros h1 h2 H r k; symmetry; apply H.
  - intros h1 h2 h3 H1 H2 r k; etransitivity; [apply H1 | apply H2].
Qed.

#[export] Instance hist_lookup_proper : Proper (hequiv ==> eq ==> eq ==> eq) hist_lookup.
Proof. intros h1 h2 H r ? <- k ? <-. apply H. Qed.

(** What [persist] writes for a pair of maps. *)
Definition retained (now : Time) (c : Core) : Core :=
  (c.1, map_imap (retain_run c.1 (now - ClaimHistoryTTL)) c.2).

(** One change of the abstract register: an entry is put, or taken away and
    kept in the history as [e]. *)
Inductive edit :=
| Put (key : string) (e : ClaimEntry)
| Drop (key : string) (e : ClaimEntry).

Definition edit_key (ed : edit) : string := match ed with Put k _ | Drop k _ => k end.
Definition edit_entry (ed : edit) : ClaimEntry := match ed with Put _ e | Drop _ e => e end.

Definition apply_edit (c : Core) (ed : edit) : Core :=
  (match ed with
   | Put k e => <[k := e]> c.1
   | Drop k _ => delete k c.1
   end, hist_insert c.2 (RunID (edit_entry ed)) (edit_key ed) (edit_entry ed)).

Definition apply_edits : Core -> list edit -> Core := foldl apply_edit.

(** The atomic transaction that takes the register to [c]: nothing to do, [c] made
    durable, or nothing of it in memory because the write failed. *)
Inductive txn_to (env : Env) (l : ClaimLedger) : Core -> ClaimLedger -> Prop :=
| txn_same l' :
    core l' = core l -> file l' = file l -> txn_to env l (core l) l'
| txn_commit c l' :
    write env = WriteOk ->
    core l' = retained (persist_now env) c ->
    file l' = core l' ->
    txn_to env l c l'
| txn_rollback c l' :
    write env = WriteFailed ->
    entries l' = entries l -> hequiv (history l') (history l) -> file l' = file l ->
    txn_to env l c l'
| txn_torn c l' :
    write env = WriteDirSyncFailed ->
    entries l' = entries l -> hequiv (history l') (history l) ->
    file l' = retained (persist_now env) c ->
    txn_to env l c l'.

(** The transaction of a sequence of edits. *)
Definition txn (env : Env) (l : ClaimLedger) (eds : list edit) (l' : ClaimLedger) : Prop :=
  txn_to env l (apply_edits (core l) eds) l'.

(** ** Lookups in the history *)

Lemma hist_lookup_insert h r k e r' k' :
  hist_lookup (hist_insert h r k e) r' k'
  = if bool_decide (r' = r /\ k' = k) then Some e else hist_lookup h r' k'.
Proof.
  unfold hist_lookup, hist_insert.
  destruct (decide (r' = r)) as [->|Hr].
  - rewrite lookup_insert_eq; cbn.
    destruct (decide (k' = k)) as [->|Hk].
    + rewrite lookup_insert_eq, bool_decide_eq_true_2; auto.
    + rewrite lookup_insert_ne, bool_decide_eq_false_2 by naive_solver.
      destruct (h !! r) as [inner|]; reflexivity.
  - rewrite lookup_insert_ne, bool_decide_eq_false_2 by naive_solver. reflexivity.
Qed.

Lemma hist_lookup_delete h r k r' k' :
  hist_lookup (hist_delete h r k) r' k'
  = if bool_decide (r' = r /\ k' = k) then None else hist_lookup h r' k'.
Proof.
  unfold hist_lookup, hist_delete.
  assert (Hinner : forall j, delete k (default ∅ (h !! r)) !! j
            = if bool_decide (j = k) then None else h !! r ≫= (fun i => i !! j)).
  { intros j. case_bool_decide as E.
    - subst. apply lookup_delete_eq.
    - rewrite lookup_delete_ne by auto. destruct (h !! r); reflexivity. }
  destruct (decide (r' = r)) as [->|Hr].
  - case_bool_decide as Hempty.
    + rewrite lookup_delete_eq; cbn. specialize (Hinner k').
      rewrite Hempty, lookup_empty in Hinner. repeat case_bool_decide; naive_solver.
    + rewrite lookup_insert_eq; cbn. rewrite Hinner. repeat case_bool_decide; naive_solver.
  - rewrite (bool_decide_eq_false_2 (r' = r /\ k' = k)) by naive_solver.
    case_bool_decide; [rewrite lookup_delete_ne by auto | rewrite lookup_insert_ne by auto];
      reflexivity.
Qed.

Lemma hist_lookup_retained now c r k e :
  hist_lookup (retained now c).2 r k = Some e -> hist_lookup c.2 r k = Some e.
Proof.
  unfold hist_lookup; cbn. rewrite map_lookup_imap. destruct (c.2 !! r) as [inner|]; [|done].
  cbn. unfold retain_run. do 2 (case_match; [done|]). case_bool_decide; [done|]; cbn.
  intros [? _]%map_lookup_filter_Some. done.
Qed.

(** A revocation outlives the retention. *)
Lemma retained_keeps_revoked now c r k e :
  hist_lookup c.2 r k = Some e -> SharedRevoked e = true ->
  hist_lookup (retained now c).2 r k = Some e.
Proof.
  unfold hist_lookup; cbn. rewrite map_lookup_imap. destruct (c.2 !! r) as [inner|]; [|done].
  cbn. intros Hk Hrev. unfold retain_run. do 2 (case_match; [done|]).
  assert (Hf : filter (fun p : string * ClaimEntry => SharedRevoked p.2 = true) inner !! k = Some e)
    by (apply map_lookup_filter_Some; auto).
  case_bool_decide as Hempty; [|done]. rewrite Hempty in Hf. set_solver.
Qed.

(** Undoing an insertion restores every lookup. *)
Lemma hist_undo h h' r k e prev :
  hequiv h' (hist_insert h r k e) -> prev = hist_lookup h r k ->
  hequiv (match prev with Some p => hist_insert h' r k p | None => hist_delete h' r k end) h.
Proof.
  intros Hh -> r' k'. destruct (hist_lookup h r k) as [p|] eqn:E.
  - rewrite hist_lookup_insert. case_bool_decide as D; [destruct D as [-> ->]; auto|].
    rewrite Hh, hist_lookup_insert, bool_decide_eq_false_2; auto.
  - rewrite hist_lookup_delete. case_bool_decide as D; [destruct D as [-> ->]; auto|].
    rewrite Hh, hist_lookup_insert, bool_decide_eq_false_2; auto.
Qed.

(** ** The journal does not touch the maps *)

Lemma appendEvent_core env t e rn rs l : core (appendEvent env t e rn rs l) = core l.
Proof. unfold appendEvent. repeat case_match; reflexivity. Qed.
Lemma appendEvent_file env t e rn rs l : file (appendEvent env t e rn rs l) = file l.
Proof. unfold appendEvent. repeat case_match; reflexivity. Qed.

Lemma foldl_core {A} (f : ClaimLedger -> A -> ClaimLedger) (xs : list A) l :
  (forall l x, core (f l x) = core l) -> core (foldl f l xs) = core l.
Proof. intros H. revert l. induction xs; intros; cbn; [done|]. rewrite IHxs; auto. Qed.
Lemma foldl_file {A} (f : ClaimLedger -> A -> ClaimLedger) (xs : list A) l :
  (forall l x, file (f l x) = file l) -> file (foldl f l xs) = file l.
Proof. intros H. revert l. induction xs; intros; cbn; [done|]. rewrite IHxs; auto. Qed.

Create HintDb goobers_ledger.
#[export] Hint Rewrite appendEvent_core appendEvent_file : goobers_ledger.
#[export] Hint Unfold journal journalRelease journalWithRunner : goobers_ledger.

(** ** Commit or roll back *)

Lemma persist_spec env l l' ok :
  persist env l = (l', ok) ->
  match write env with
  | WriteOk => ok = true /\ core l' = retained (persist_now env) (core l) /\ file l' = core l'
  | WriteFailed => ok = false /\ l' = l
  | WriteDirSyncFailed =>
      ok = false /\ core l' = core l /\ file l' = retained (persist_now env) (core l)
  end.
Proof. unfold persist. destruct (write env); intros [= <- <-]; auto. Qed.

(** Every operation that prepares the maps [c], persists, and undoes its changes
    when the write fails is a transaction. *)
Lemma persist_txn_to env l l2 l3 ok c l_ok l_undo :
  core l2 = c -> file l2 = file l ->
  persist env l2 = (l3, ok) ->
  (core l_ok = core l3 /\ file l_ok = file l3) ->
  (core l3 = core l2 -> entries l_undo = entries l /\ hequiv (history l_undo) (history l)
                         /\ file l_undo = file l3) ->
  txn_to env l c (if ok then l_ok else l_undo).
Proof.
  intros Hcore Hfile Hp [Hk1 Hk2] Hu. apply persist_spec in Hp.
  destruct (write env) eqn:Hw.
  - destruct Hp as (-> & Hp1 & Hp2). apply txn_commit; [done| |].
    + rewrite Hk1, Hp1, Hcore. done.
    + rewrite Hk1, Hk2. done.
  - destruct Hp as (-> & ->). destruct Hu as (? & ? & ?); [done|].
    apply txn_rollback; auto. congruence.
  - destruct Hp as (-> & Hp1 & Hp2). destruct Hu as (? & ? & ?); [done|].
    apply txn_torn; auto. congruence.
Qed.

Lemma persist_txn env l l2 l3 ok eds l_ok l_undo :
  core l2 = apply_edits (core l) eds -> file l2 = file l ->
  persist env l2 = (l3, ok) ->
  (core l_ok = core l3 /\ file l_ok = file l3) ->
  (core l3 = core l2 -> entries l_undo = entries l /\ hequiv (history l_undo) (history l)
                         /\ file l_undo = file l3) ->
  txn env l eds (if ok then l_ok else l_undo).
Proof. apply persist_txn_to. Qed.

Lemma single_undo l l3 ed :
  core l3 = apply_edits (core l) [ed] ->
  let l' := restoreHistory (RunID (edit_entry ed)) (edit_key ed)
              (hist_lookup (history l) (RunID (edit_entry ed)) (edit_key ed))
              (restore_entry (edit_key ed) (entries l !! edit_key ed) l3) in
  entries l' = entries l /\ hequiv (history l') (history l) /\ file l' = file l3.
Proof.
  intros [= He Hh]. cbn zeta. split; [|split].
  - assert (Hr : forall p, entries (restoreHistory (RunID (edit_entry ed)) (edit_key ed) p
               (restore_entry (edit_key ed) (entries l !! edit_key ed) l3)) = entries l).
    { intros p. destruct p; cbn; rewrite He; destruct ed as [k e|k e]; cbn;
        destruct (entries l !! k) eqn:E; rewrite ?insert_insert_eq, ?delete_insert_eq;
        rewrite ?insert_delete_eq, ?delete_delete_eq;
        rewrite ?insert_id, ?delete_id; auto. }
    apply Hr.
  - transitivity (match hist_lookup (history l) (RunID (edit_entry ed)) (edit_key ed) with
      | Some p => hist_insert (history l3) (RunID (edit_entry ed)) (edit_key ed) p
      | None => hist_delete (history l3) (RunID (edit_entry ed)) (edit_key ed) end).
    + destruct (hist_lookup _ _ _); reflexivity.
    + eapply hist_undo with (e := edit_entry ed); [|done]. rewrite Hh. reflexivity.
  - destruct (hist_lookup _ _ _); reflexivity.
Qed.

(** ** Allowed edits and the invariant *)

Section invariant.
Context {San : Sanitizer} {Cod : RecordCodec}.

(** The history lookups of one key. *)
Definition past (c : Core) (key : string) : string -> option ClaimEntry :=
  fun runID => hist_lookup c.2 runID key.

(** [edit_ok now finish cur past ed]: at clock [now], with [cur] the entry at
    the edited key and [past] its history, [ed] is a change the ledger may
    make.  [finish] is set for the second half of a provider release only. *)
Inductive edit_ok (now : Time) (finish : bool) (cur : option ClaimEntry)
    (past : string -> option ClaimEntry) : edit -> Prop :=
| put_ok k e :
    (* the entry survives a reload *)
    validateSharedClaimEntry k e = None ->
    (* another run's entry is replaced only once its lease ran out *)
    (forall c, cur = Some c -> RunID c <> RunID e ->
       expired c now = true /\ transitionPending c = false) ->
    (* a live shared owner keeps the item *)
    (forall c, cur = Some c -> expired c now = false -> SharedOwner c <> noOwner ->
       SharedOwner e = SharedOwner c) ->
    (* a pending provider release stays pending *)
    (forall c, cur = Some c -> ReleasePending c = true ->
       ReleasePending e = true /\ RunID e = RunID c) ->
    (* a revoked run gets no execution back *)
    (forall p, past (RunID e) = Some p -> SharedRevoked p = true -> SharedRevoked e = true) ->
    edit_ok now finish cur past (Put k e)
| drop_ok k c at_ reason :
    cur = Some c ->
    (finish = false -> transitionPending c = false) ->
    (finish = true -> ReleasePending c = true) ->
    edit_ok now finish cur past
      (Drop k (set_released (set_pending c false (SharedAdmissionPending c)) at_ reason)).

Definition edit_ok_at (now : Time) (finish : bool) (c : Core) (ed : edit) : Prop :=
  edit_ok now finish (c.1 !! edit_key ed) (past c (edit_key ed)) ed.

(** A sequence of edits, each allowed in the state it meets. *)
Inductive edits_ok (now : Time) (finish : bool) : Core -> list edit -> Prop :=
| edits_nil c : edits_ok now finish c []
| edits_cons c ed eds :
    edit_ok_at now finish c ed -> edits_ok now finish (apply_edit c ed) eds ->
    edits_ok now finish c (ed :: eds).

(** The invariant: entries and history pass the load-time validation, an active
    entry whose run was revoked on that key is itself revoked, and a shared entry
    that is revoked is so in the history. *)
Record core_inv (c : Core) : Prop := {
  inv_entries : forall k e, c.1 !! k = Some e -> validateSharedClaimEntry k e = None;
  inv_history : forall r k e, hist_lookup c.2 r k = Some e ->
    validate_history_entry r (k, e) = None;
  inv_revoked : forall k e p, c.1 !! k = Some e -> hist_lookup c.2 (RunID e) k = Some p ->
    SharedRevoked p = true -> SharedRevoked e = true;
  inv_remembered : forall k e, c.1 !! k = Some e -> SharedRevoked e = true -> SharedOwner e <> noOwner ->
    exists p, hist_lookup c.2 (RunID e) k = Some p /\ SharedRevoked p = true;
}.

(** The run was revoked on the key, and the history says so. *)
Definition revoked_at (c : Core) (runID key : string) : Prop :=
  exists p, hist_lookup c.2 runID key = Some p /\ SharedRevoked p = true.

(** Memory and file satisfy the invariant, and every revocation in memory is
    durable. *)
Record ledger_inv (l : ClaimLedger) : Prop := {
  inv_memory : core_inv (core l);
  inv_file : core_inv (file l);
  inv_durable : forall r k, revoked_at (core l) r k -> revoked_at (file l) r k;
}.

(** Validation ignores the fields a release or an observation writes. *)
Lemma validate_set_released k e at_ reason :
  validateSharedClaimEntry k (set_released e at_ reason) = validateSharedClaimEntry k e.
Proof. destruct e; reflexivity. Qed.
Lemma validate_set_verification k e v :
  validateSharedClaimEntry k (set_verification e v) = validateSharedClaimEntry k e.
Proof. destruct e; reflexivity. Qed.
Lemma validate_clear_release k e b :
  validateSharedClaimEntry k (set_pending e b (SharedAdmissionPending e))
  = validateSharedClaimEntry k e.
Proof. destruct e; reflexivity. Qed.
Lemma validate_no_pending k e b :
  validateSharedClaimEntry k e = None ->
  validateSharedClaimEntry k (set_pending e b false) = None.
Proof.
  destruct e; unfold validateSharedClaimEntry; cbn.
  repeat (case_match; simplify_eq; try done).
Qed.
Lemma validate_own_history k e :
  validateSharedClaimEntry k e = None -> validate_history_entry (RunID e) (k, e) = None.
Proof.
  unfold validate_history_entry; cbn. intros ->. rewrite String.eqb_refl.
  rewrite andb_false_r. done.
Qed.

Lemma edit_valid now finish c ed :
  core_inv c -> edit_ok_at now finish c ed ->
  validateSharedClaimEntry (edit_key ed) (edit_entry ed) = None.
Proof.
  intros Hc Hed. inversion Hed; subst; cbn; [done|].
  rewrite validate_set_released, validate_clear_release.
  eapply inv_entries; eauto.
Qed.

(** An allowed edit never clears a revocation. *)
Lemma edit_keeps_revocation now finish c ed p :
  core_inv c -> edit_ok_at now finish c ed ->
  hist_lookup c.2 (RunID (edit_entry ed)) (edit_key ed) = Some p ->
  SharedRevoked p = true -> SharedRevoked (edit_entry ed) = true.
Proof.
  intros Hc Hed Hp Hrev. inversion Hed; subst; cbn in *; [eauto|].
  eapply (inv_revoked _ Hc); eauto.
Qed.

Lemma apply_edit_inv now finish c ed :
  core_inv c -> edit_ok_at now finish c ed -> core_inv (apply_edit c ed).
Proof.
  intros Hc Hed. pose proof (edit_valid _ _ _ _ Hc Hed) as Hv. split.
  - intros k e. destruct ed as [k' e'|k' e']; cbn; intros H.
    + apply lookup_insert_Some in H as [[<- <-]|[_ H]]; [done | eapply inv_entries; eauto].
    + apply lookup_delete_Some in H as [_ H]. eapply inv_entries; eauto.
  - intros r k e. cbn. rewrite hist_lookup_insert. case_bool_decide as D.
    + destruct D as [-> ->]. intros [= <-]. apply validate_own_history, Hv.
    + apply (inv_history _ Hc).
  - intros k e p. cbn. rewrite hist_lookup_insert. destruct ed as [k' e'|k' e']; cbn; intros He.
    + apply lookup_insert_Some in He as [[-> ->]|[Hne He]].
      * rewrite bool_decide_eq_true_2 by done. intros [= <-]. done.
      * rewrite bool_decide_eq_false_2 by naive_solver. eapply inv_revoked; eauto.
    + apply lookup_delete_Some in He as [Hne He].
      rewrite bool_decide_eq_false_2 by naive_solver. eapply inv_revoked; eauto.
  - intros k e He Hrev Hown. cbn. rewrite hist_lookup_insert.
    destruct (decide (k = edit_key ed)) as [->|Hne].
    + destruct ed as [k' e'|k' e']; cbn in *; [|by rewrite lookup_delete_eq in He].
      rewrite lookup_insert_eq in He. injection He as ->.
      rewrite bool_decide_eq_true_2 by done. eauto.
    + rewrite bool_decide_eq_false_2 by naive_solver. apply (inv_remembered _ Hc); [|done|done].
      destruct ed; cbn in *; [rewrite lookup_insert_ne in He by auto
                             |rewrite lookup_delete_ne in He by auto]; done.
Qed.

Lemma apply_edit_revoked now finish c ed r k :
  core_inv c -> edit_ok_at now finish c ed -> revoked_at c r k -> revoked_at (apply_edit c ed) r k.
Proof.
  intros Hc Hed (p & Hp & Hrev). unfold revoked_at; cbn. rewrite hist_lookup_insert.
  case_bool_decide as D; [|eauto]. destruct D as [-> ->]. eexists. split; [done|].
  eapply edit_keeps_revocation; eauto.
Qed.

Lemma apply_edits_revoked now finish c eds r k :
  core_inv c -> edits_ok now finish c eds -> revoked_at c r k -> revoked_at (apply_edits c eds) r k.
Proof.
  intros Hc Heds. revert Hc. induction Heds; intros Hc Hr; cbn; [done|].
  eauto using apply_edit_inv, apply_edit_revoked.
Qed.

Lemma retained_revoked now c r k : revoked_at (retained now c) r k <-> revoked_at c r k.
Proof.
  split; intros (p & Hp & Hrev); exists p; split; auto.
  - eapply hist_lookup_retained; eauto.
  - apply retained_keeps_revoked; auto.
Qed.

Lemma apply_edits_inv now finish c eds :
  core_inv c -> edits_ok now finish c eds -> core_inv (apply_edits c eds).
Proof.
  intros Hc Heds. revert Hc. induction Heds; intros Hc; cbn; [done|].
  apply IHHeds. eapply apply_edit_inv; eauto.
Qed.

Lemma retained_inv now c : core_inv c -> core_inv (retained now c).
Proof.
  intros Hc. split; cbn [fst retained].
  - apply (inv_entries _ Hc).
  - intros r k e H%hist_lookup_retained. eapply inv_history; eauto.
  - intros k e p He H%hist_lookup_retained. eapply inv_revoked; eauto.
  - intros k e He Hrev Hown. apply (retained_revoked now c). apply (inv_remembered _ Hc); auto.
Qed.

#[export] Instance core_inv_proper m :
  Proper (hequiv ==> iff) (fun h => core_inv (m, h)).
Proof.
  intros h1 h2 Heq. split; intros Hc; split; cbn; intros *.
  - apply (inv_entries _ Hc).
  - rewrite <- Heq. apply (inv_history _ Hc).
  - rewrite <- Heq. apply (inv_revoked _ Hc).
  - setoid_rewrite <- Heq. apply (inv_remembered _ Hc).
  - apply (inv_entries _ Hc).
  - rewrite Heq. apply (inv_history _ Hc).
  - rewrite Heq. apply (inv_revoked _ Hc).
  - setoid_rewrite Heq. apply (inv_remembered _ Hc).
Qed.

Lemma core_inv_rollback l l' :
  core_inv (core l) -> entries l' = entries l -> hequiv (history l') (history l) ->
  core_inv (core l').
Proof.
  unfold core. intros Hc -> Hh.
  apply (core_inv_proper (entries l) (history l') (history l) Hh), Hc.
Qed.

(** A transaction to maps that satisfy the invariant and forget no revocation
    keeps the invariant, in memory and on disk, and forgets none. *)
Lemma txn_to_inv env l c l' :
  ledger_inv l -> core_inv c -> (forall r k, revoked_at (core l) r k -> revoked_at c r k) ->
  txn_to env l c l' -> ledger_inv l'.
Proof.
  intros [Hc Hf Hd] Hc' Hkeep Ht. inversion Ht; subst; split;
    repeat match goal with H : core l' = _ |- _ => rewrite H in *
                         | H : file l' = _ |- _ => rewrite H in * end;
    eauto using retained_inv, core_inv_rollback.
  - intros r k (p & Hp & Hrev). apply Hd. exists p. split; [|done].
    match goal with H : hequiv _ _ |- _ => rewrite <- H end. done.
  - intros r k (p & Hp & Hrev). apply retained_revoked, Hkeep. exists p. split; [|done].
    match goal with H : hequiv _ _ |- _ => rewrite <- H end. done.
Qed.

Lemma txn_to_revoked env l c l' r k :
  (revoked_at (core l) r k -> revoked_at c r k) -> txn_to env l c l' ->
  revoked_at (core l) r k -> revoked_at (core l') r k.
Proof.
  intros Hkeep Ht Hr. inversion Ht; subst.
  - congruence.
  - match goal with H : core l' = _ |- _ => rewrite H end. apply retained_revoked. auto.
  - destruct Hr as (p & Hp & Hrev). exists p. split; [|done]. cbn.
    match goal with H : hequiv _ _ |- _ => rewrite H end. done.
  - destruct Hr as (p & Hp & Hrev). exists p. split; [|done]. cbn.
    match goal with H : hequiv _ _ |- _ => rewrite H end. done.
Qed.

Lemma txn_inv env now finish l eds l' :
  ledger_inv l -> edits_ok now finish (core l) eds -> txn env l eds l' -> ledger_inv l'.
Proof.
  intros Hi Heds. apply txn_to_inv; [done|eapply apply_edits_inv, Heds; apply Hi|].
  intros r k. eapply apply_edits_revoked; [apply Hi|done].
Qed.

Lemma txn_revoked env now finish l eds l' r k :
  core_inv (core l) -> edits_ok now finish (core l) eds -> txn env l eds l' ->
  revoked_at (core l) r k -> revoked_at (core l') r k.
Proof. intros Hc Heds. apply txn_to_revoked. by eapply apply_edits_revoked. Qed.

(** ** Moving item-only entries *)

(** The register after the moves: entries change their key, the history does not. *)
Definition move_entry (m : Entries) (mg : migration) : Entries :=
  <[mg_scopedKey mg := mg_entry mg]> (delete (mg_legacyKey mg) m).
Definition move_entries (c : Core) (ms : list migration) : Core := (foldl move_entry c.1 ms, c.2).

(** One move of the migration: an item-only entry with no transition pending goes
    to a free scoped key of its item, and only its identifiers change. *)
Definition move_ok (c : Core) (mg : migration) : Prop :=
  exists e gaggle provider, c.1 !! mg_legacyKey mg = Some e /\ is_legacy e = true
    /\ storageKey (mkKey gaggle provider (ItemID e)) = Ok (mg_scopedKey mg)
    /\ mg_entry mg = set_namespace e gaggle provider
    /\ c.1 !! mg_scopedKey mg = None.
Definition moves_ok (c : Core) (ms : list migration) : Prop :=
  Forall (move_ok c) ms /\ NoDup (map mg_legacyKey ms) /\ NoDup (map mg_scopedKey ms).

Lemma foldl_move_lookup ms m k :
  k ∉ map mg_legacyKey ms -> k ∉ map mg_scopedKey ms -> foldl move_entry m ms !! k = m !! k.
Proof.
  revert m. induction ms as [|mg ms IH]; intros m Hl Hs; cbn; [done|].
  apply not_elem_of_cons in Hl as [Hl Hl'], Hs as [Hs Hs']. rewrite IH by done.
  unfold move_entry. by rewrite lookup_insert_ne, lookup_delete_ne.
Qed.

(** What a key holds after the moves. *)
Lemma move_entries_lookup c ms k :
  moves_ok c ms ->
  (forall mg, mg ∈ ms -> mg_scopedKey mg = k -> (move_entries c ms).1 !! k = Some (mg_entry mg))
  /\ (forall mg, mg ∈ ms -> mg_legacyKey mg = k -> (move_entries c ms).1 !! k = None)
  /\ (k ∉ map mg_legacyKey ms -> k ∉ map mg_scopedKey ms -> (move_entries c ms).1 !! k = c.1 !! k).
Proof.
  intros (Hok & Hl & Hs). split; [|split].
  3: { apply foldl_move_lookup. }
  all: intros mg Hin <-; cbn; assert (Hapart : forall mg', mg' ∈ ms -> mg_scopedKey mg' ∉ map mg_legacyKey ms)
    by (intros mg' Hmg' (mg2 & Heq & Hmg2)%list_elem_of_fmap; rewrite Forall_forall in Hok;
        destruct (Hok _ Hmg') as (e & g & p & _ & _ & _ & _ & Hn), (Hok _ Hmg2) as (e2 & g2 & p2 & Hs2 & _);
        congruence);
    apply list_elem_of_split in Hin as (l1 & l2 & ->); rewrite foldl_app; cbn;
    rewrite map_app in Hl, Hs, Hapart; cbn in Hl, Hs, Hapart;
    apply NoDup_app in Hl as (_ & _ & Hl), Hs as (_ & _ & Hs);
    apply NoDup_cons in Hl as [Hl _], Hs as [Hs _].
  - rewrite foldl_move_lookup; [unfold move_entry; by rewrite lookup_insert_eq| |done].
    intros Hin. apply (Hapart mg); set_solver.
  - rewrite foldl_move_lookup; [|done|].
    + unfold move_entry. rewrite lookup_insert_ne, lookup_delete_eq; [done|].
      intros Heq. apply (Hapart mg); [set_solver|]. rewrite Heq. set_solver.
    + intros (mg' & Heq & Hmg')%list_elem_of_fmap. apply (Hapart mg'); [set_solver|]. rewrite <- Heq. set_solver.
Qed.

(** Where an entry after the moves comes from. *)
Lemma move_entries_inv c ms k e :
  moves_ok c ms -> (move_entries c ms).1 !! k = Some e ->
  c.1 !! k = Some e \/ exists mg, mg ∈ ms /\ mg_scopedKey mg = k /\ mg_entry mg = e.
Proof.
  intros Hok He. destruct (move_entries_lookup c ms k Hok) as (H1 & H2 & H3).
  destruct (decide (k ∈ map mg_scopedKey ms)) as [(mg & -> & Hin)%list_elem_of_fmap|Hs].
  - right. exists mg. split; [done|]. split; [done|]. specialize (H1 mg Hin eq_refl). congruence.
  - destruct (decide (k ∈ map mg_legacyKey ms)) as [(mg & -> & Hin)%list_elem_of_fmap|Hl].
    + specialize (H2 mg Hin eq_refl). congruence.
    + left. by rewrite <- H3.
Qed.

(** Moves keep the invariant when no moved run was revoked at its new key. *)
Lemma move_entries_core_inv c ms :
  core_inv c -> moves_ok c ms ->
  (forall mg, mg ∈ ms -> ~ revoked_at c (RunID (mg_entry mg)) (mg_scopedKey mg)) ->
  core_inv (move_entries c ms).
Proof.
  intros Hc Hok Hrev.
  assert (Hlocal : forall mg, mg ∈ ms -> SharedOwner (mg_entry mg) = noOwner /\ SharedDeadline (mg_entry mg) = 0
            /\ SharedAdmissionPending (mg_entry mg) = false).
  { intros mg Hin. destruct Hok as [Hok _]. rewrite Forall_forall in Hok.
    destruct (Hok _ Hin) as (e & g & p & He & Hleg & _ & -> & _). cbn.
    unfold is_legacy, transitionPending in Hleg. brefl. destruct Hleg as [[Hg Hp] [_ Ha]].
    pose proof (inv_entries _ Hc _ _ He) as Hv. unfold validateSharedClaimEntry in Hv.
    rewrite Hg, Hp in Hv. cbn in Hv.
    destruct (owner_eqb _ _ && _) eqn:Hlocal; [|destruct (_ || _) in Hv; done].
    apply andb_true_iff in Hlocal as [Ho%bool_decide_eq_true Hd%IsZero_true]. done. }
  split.
  - intros k e [He|(mg & Hin & <- & <-)]%move_entries_inv; [by eapply inv_entries| |done].
    destruct (Hlocal _ Hin) as (H1 & H2 & H3). unfold validateSharedClaimEntry.
    rewrite H1, H2, H3. unfold owner_eqb. by rewrite bool_decide_eq_true_2.
  - apply (inv_history _ Hc).
  - intros k e p He Hp Hpr. apply move_entries_inv in He as [He|(mg & Hin & <- & <-)]; [|destruct (Hrev _ Hin)|done].
    + by eapply (inv_revoked _ Hc).
    + by exists p.
  - intros k e He Hr Ho. apply move_entries_inv in He as [He|(mg & Hin & <- & <-)]; [|by destruct (Hlocal _ Hin)|done].
    by apply (inv_remembered _ Hc).
Qed.

(** ** Files of text *)

Definition valid_text (s : string) : bool :=
  forallb (fun r => match r with Some _ => true | None => false end) (runes (bytes s)).

(** Every string of an entry, and of a file, is valid UTF-8. *)
Definition text_entry (e : ClaimEntry) : bool :=
  forallb valid_text
    [ver_State (Verification e); ver_ProviderRunID (Verification e); ItemID e; Gaggle e; Provider e; ExternalID e;
     RunID e; Workflow e; Instance_ (SharedOwner e); Run (SharedOwner e); Token (SharedOwner e);
     disposition_string (reason_disposition (ReleaseReason e)); reason_stage (ReleaseReason e);
     reason_code (ReleaseReason e); reason_summary (ReleaseReason e); reason_actor (ReleaseReason e)].
Definition text_map {A} (text : A -> Prop) (m : gmap string A) : Prop :=
  forall k e, m !! k = Some e -> valid_text k = true /\ text e.
Definition text_file (f : Core) : Prop :=
  text_map (fun e => text_entry e = true) f.1 /\ text_map (text_map (fun e => text_entry e = true)) f.2.

Lemma json_text_valid bs :
  forallb (fun r => match r with Some _ => true | None => false end) (runes bs) = true -> json_text bs = bs.
Proof.
  induction bs as [[|b0 r0] IH] using (induction_ltof1 _ (@length N)); [done|].
  assert (Hrec : forall l, (length l < length (b0 :: r0))%nat ->
    forallb (fun r => match r with Some _ => true | None => false end) (runes l) = true -> json_text l = l)
    by (intros l Hl; apply IH; exact Hl). clear IH.
  cbn [runes json_text]. destruct (b0 <? 128)%N; [intros H; f_equal; apply Hrec; [cbn; lia|exact H]|].
  destruct r0 as [|b1 r1]; [done|].
  destruct (two_byte b0 b1); [intros H; do 2 f_equal; apply Hrec; [cbn; lia|exact H]|].
  destruct r1 as [|b2 r2]; [done|].
  destruct (three_byte b0 b1 b2); [intros H; do 3 f_equal; apply Hrec; [cbn; lia|exact H]|].
  destruct r2 as [|b3 r3]; [done|].
  destruct (four_byte b0 b1 b2 b3); [intros H; do 4 f_equal; apply Hrec; [cbn; lia|exact H]|done].
Qed.

Lemma json_string_valid s : valid_text s = true -> json_string s = s.
Proof.
  intros H. unfold json_string. rewrite json_text_valid by done. clear H.
  induction s as [|c s IH]; [done|]. cbn [bytes]. unfold of_bytes in *. cbn [fold_right].
  by rewrite ascii_N_embedding, IH.
Qed.

#[local] Arguments json_string : simpl never.
#[local] Arguments valid_text : simpl never.

Lemma json_entry_text e : text_entry e = true -> json_entry e = e.
Proof.
  unfold text_entry. cbn [forallb]. intros H. repeat (apply andb_true_iff in H as [? H]).
  destruct e as [[] ? ? ? ? ? ? ? ? ? ? ? ? [] ? ? [[]]];
    unfold json_entry, json_owner, json_reason; cbn in *; by rewrite !json_string_valid.
Qed.

Lemma json_map_text {A} (read : A -> A) (text : A -> Prop) m :
  (forall e, text e -> read e = e) -> text_map text m -> json_map read m = m.
Proof.
  intros Hread Hm. unfold json_map.
  assert (Hl : forall l acc, (forall p, p ∈ l -> valid_text p.1 = true /\ text p.2) ->
    foldl (fun (acc : gmap string A) p => <[json_string p.1 := read p.2]> acc) acc l
    = foldl (fun acc p => <[p.1 := p.2]> acc) acc l).
  { induction l as [|p l IH]; intros acc Hp; cbn; [done|].
    destruct (Hp p) as [H1 H2]; [by left|]. rewrite json_string_valid, Hread by done. apply IH. intros q Hq. apply Hp. by right. }
  rewrite Hl.
  2: { intros [k e] Hin. apply sort_by_elem, elem_of_map_to_list in Hin. by apply Hm. }
  assert (Hfold : forall l (acc : gmap string A), foldl (fun acc p => <[p.1 := p.2]> acc) acc l = list_to_map (reverse l) ∪ acc).
  { induction l as [|[k e] l IH]; intros acc; cbn [foldl fst snd]; [by rewrite reverse_nil, list_to_map_nil, (left_id_L ∅ (∪))|].
    rewrite IH, reverse_cons, list_to_map_app. cbn. by rewrite (insert_union_singleton_l acc), insert_empty, (assoc_L (∪)). }
  rewrite Hfold, (right_id_L ∅ (∪)).
  rewrite <- (list_to_map_to_list m) at 2. symmetry. apply list_to_map_proper.
  - apply NoDup_fst_map_to_list.
  - by rewrite reverse_Permutation, <- sort_by_perm.
Qed.

Lemma read_back_text f : text_file f -> read_back f = f.
Proof.
  intros [Hm Hh]. destruct f as [m h]. unfold read_back. cbn in *. f_equal.
  - apply (json_map_text _ (fun e => text_entry e = true)); [apply json_entry_text|done].
  - apply (json_map_text _ (text_map (fun e => text_entry e = true))); [|done].
    intros inner. apply (json_map_text _ (fun e => text_entry e = true)), json_entry_text.
Qed.

(** ** Distinct keys *)

Lemma edit_ok_other now finish c ed ed' :
  edit_key ed <> edit_key ed' ->
  edit_ok_at now finish c ed -> edit_ok_at now finish (apply_edit c ed') ed.
Proof.
  unfold edit_ok_at. intros Hne.
  assert (He : (apply_edit c ed').1 !! edit_key ed = c.1 !! edit_key ed).
  { destruct ed'; cbn in *; [apply lookup_insert_ne | apply lookup_delete_ne]; auto. }
  rewrite He. intros Hok. inversion Hok; subst; constructor; auto.
  intros p Hp. unfold past in *; cbn in *.
  rewrite hist_lookup_insert, bool_decide_eq_false_2 in Hp by naive_solver. eauto.
Qed.

(** Edits of distinct keys, each allowed at the start, are allowed in order. *)
Lemma edits_ok_distinct now finish c eds :
  NoDup (map edit_key eds) -> Forall (edit_ok_at now finish c) eds -> edits_ok now finish c eds.
Proof.
  revert c. induction eds as [|ed eds IH]; intros c Hnd Hall; constructor.
  - inversion Hall; auto.
  - inversion Hnd as [|? ? Hnotin Hnd']; inversion Hall as [|? ? _ Hall']; subst.
    apply IH; [done|]. rewrite Forall_forall in *. intros ed' Hin.
    apply edit_ok_other; [|auto]. intros Heq. apply Hnotin. rewrite <- Heq.
    apply list_elem_of_fmap. eauto.
Qed.

(** The entry at a key after edits of distinct keys: untouched, or what the one
    edit of that key made of it. *)
Lemma apply_edits_lookup now finish c eds k :
  NoDup (map edit_key eds) -> edits_ok now finish c eds ->
  (apply_edits c eds).1 !! k = c.1 !! k
  \/ exists ed, edit_ok now finish (c.1 !! k) (past c k) ed /\ edit_key ed = k
       /\ (apply_edits c eds).1 !! k = match ed with Put _ e => Some e | Drop _ _ => None end.
Proof.
  intros Hnd Heds. revert Hnd.
  assert (Hout : forall eds c, k ∉ map edit_key eds -> (apply_edits c eds).1 !! k = c.1 !! k).
  { clear. induction eds as [|ed eds IH]; intros c Hk; cbn; [done|]. cbn in Hk.
    rewrite IH by set_solver. destruct ed; cbn in *;
      [apply lookup_insert_ne | apply lookup_delete_ne]; set_solver. }
  induction Heds as [c | c ed eds Hed Heds IH]; intros Hnd; [by left|].
  inversion Hnd as [|? ? Hnot Hnd']; subst. cbn.
  destruct (decide (edit_key ed = k)) as [<-|Hne].
  - right. exists ed. split; [exact Hed|]. split; [done|]. rewrite Hout by done.
    destruct ed; cbn; [apply lookup_insert_eq | apply lookup_delete_eq].
  - assert (He : (apply_edit c ed).1 !! k = c.1 !! k).
    { destruct ed; cbn in *; [apply lookup_insert_ne | apply lookup_delete_ne]; auto. }
    destruct (IH Hnd') as [H | (ed' & Hok & Hk & H)]; [left; congruence|].
    right. exists ed'. split; [|auto]. rewrite <- He. inversion Hok; subst; constructor; auto.
    cbn in Hne. intros p Hp. match goal with H : forall p, past _ _ _ = Some p -> _ |- _ =>
      apply H; unfold past in *; cbn;
      rewrite hist_lookup_insert, bool_decide_eq_false_2 by naive_solver; exact Hp end.
Qed.

Lemma edits_ok_single now finish c ed : edit_ok_at now finish c ed -> edits_ok now finish c [ed].
Proof. intros. constructor; [done | constructor]. Qed.
End invariant.
