(* ===== verification/ClaimLedgerRefinement.v ===== *)
(** * Every ledger operation refines an allowed transaction

    For each operation of [claim.go] and its companions: whatever its guards
    decide and whatever the disk answers, what it does to memory and to the
    file is one [txn] of edits that [edit_ok] allows; the migration of item-only
    keys is one transaction of moves that [moves_ok] allows. *)

From S2P Require Export ClaimLedgerFacts.
Local Open Scope string_scope.
Local Open Scope list_scope.
Local Open Scope Z_scope.

Section refinement.
Context {San : Sanitizer} {Cod : RecordCodec}.

(** The step from [l] to [l'] is an allowed transaction. *)
Definition refines (env : Env) (finish : bool) (l l' : ClaimLedger) : Prop :=
  exists eds, edits_ok (now env) finish (core l) eds /\ NoDup (map edit_key eds)
    /\ txn env l eds l'.

Lemma refines_same env f l l' : core l' = core l -> file l' = file l -> refines env f l l'.
Proof. intros. exists []. split; [constructor|]. split; [constructor|]. by apply txn_same. Qed.

Lemma refines_refl env f l : refines env f l l.
Proof. apply refines_same; reflexivity. Qed.

Lemma refines_single env f l l' ed :
  edit_ok_at (now env) f (core l) ed -> txn env l [ed] l' -> refines env f l l'.
Proof. 
  intros. exists [ed]. split; [apply edits_ok_single; done|]. split; [|done]. apply NoDup_singleton.
Qed.

Lemma refines_core env f l0 l l' :
  core l0 = core l -> file l0 = file l -> refines env f l0 l' -> refines env f l l'.
Proof.
  intros Hc Hf (eds & Hok & Hnd & Ht). exists eds. rewrite <- Hc. split; [done|]. split; [done|].
  unfold txn in *. rewrite <- Hc. pose proof Hc as [= He Hh].
  remember (apply_edits (core l0) eds) as c eqn:Ec. destruct Ht.
  - rewrite Hc. apply txn_same; congruence.
  - by apply txn_commit.
  - apply txn_rollback; congruence.
  - apply txn_torn; congruence.
Qed.

Hint Resolve refines_refl : goobers_ledger.

(** ** The three shapes of a write *)

Lemma storeClaim_refines env f key entry l l' ok :
  edit_ok_at (now env) f (core l) (Put key entry) ->
  storeClaim env key entry l = (l', ok) -> refines env f l l'.
Proof.
  intros Hed. unfold storeClaim. destruct (persist env _) as [l3 ok3] eqn:Hp. intros Hs.
  apply refines_single with (Put key entry); [done|].
  assert (l' = if ok3 then journal env EventClaimAcquired entry l3
               else restoreHistory (RunID entry) key (hist_lookup (history l) (RunID entry) key)
                      (restore_entry key (entries l !! key) l3)) as ->
    by (destruct ok3; injection Hs; auto).
  refine (persist_txn _ _ _ _ _ _ _ _ _ _ Hp _ _); [reflexivity | reflexivity | |].
  - unfold journal. autorewrite with goobers_ledger. done.
  - intros Hc. apply (single_undo l l3 (Put key entry)). rewrite Hc. reflexivity.
Qed.

Lemma update_entry_refines env f key current updated l l' ok :
  entries l !! key = Some current -> RunID updated = RunID current ->
  edit_ok_at (now env) f (core l) (Put key updated) ->
  update_entry env key current updated l = (l', ok) -> refines env f l l'.
Proof.
  intros Hcur Hrun Hed. unfold update_entry. destruct (persist env _) as [l3 ok3] eqn:Hp. intros Hs.
  apply refines_single with (Put key updated); [done|].
  assert (l' = if ok3 then l3
               else restoreHistory (RunID current) key (historyEntry l (RunID current) key)
                      (restore_entry key (Some current) l3)) as ->
    by (destruct ok3; injection Hs; auto).
  refine (persist_txn _ _ _ _ _ _ _ _ _ _ Hp _ _); [reflexivity | reflexivity | done |].
  intros Hc. rewrite <- Hcur, <- Hrun. apply (single_undo l l3 (Put key updated)).
  rewrite Hc. reflexivity.
Qed.

(** What the release operations share: record the release, delete, persist. *)
Lemma drop_refines env f key current at_ reason l l3 ok l_ok :
  entries l !! key = Some current ->
  (f = false -> transitionPending current = false) ->
  (f = true -> ReleasePending current = true) ->
  let rel := set_pending current false (SharedAdmissionPending current) in
  persist env (with_entries (recordReleasedHistory key rel at_ reason l) (delete key (entries l)))
    = (l3, ok) ->
  core l_ok = core l3 -> file l_ok = file l3 ->
  refines env f l
    (if ok then l_ok
     else restoreHistory (RunID current) key (historyEntry l (RunID current) key)
            (restore_entry key (Some current) l3)).
Proof.
  intros Hcur Hf1 Hf2 rel Hp Hc1 Hc2.
  apply refines_single with (Drop key (set_released rel at_ reason)).
  - unfold edit_ok_at; cbn. apply drop_ok; auto.
  - refine (persist_txn _ _ _ _ _ _ _ _ _ _ Hp _ _); [reflexivity | reflexivity | done |].
    intros Hc. rewrite <- Hcur.
    apply (single_undo l l3 (Drop key (set_released rel at_ reason))). rewrite Hc. reflexivity.
Qed.

Lemma clear_not_pending e :
  transitionPending e = false -> set_pending e false (SharedAdmissionPending e) = e.
Proof. unfold transitionPending. destruct e; cbn. intros [-> ->]%orb_false_iff. done. Qed.

(** ** Claims *)

Lemma grant_valid env key k runID workflow expires deadline owner :
  (deadline = 0 /\ owner = noOwner \/
   expires = deadline /\ Run owner = runID /\ storageKey k = Ok key
     /\ encode_check (key_ExternalID k) owner deadline = None
     /\ owner <> noOwner /\ deadline <> 0) ->
  forall prev, validateSharedClaimEntry key
    (continueLease prev (grantEntry k runID workflow (now env) expires deadline owner) (now env))
    = None.
Proof.
  intros H prev.
  assert (Hg : forall prev t, validateSharedClaimEntry key
      (set_renewal (grantEntry k runID workflow (now env) expires deadline owner) prev t)
    = validateSharedClaimEntry key (grantEntry k runID workflow (now env) expires deadline owner))
    by reflexivity.
  assert (validateSharedClaimEntry key (grantEntry k runID workflow (now env) expires deadline owner)
          = None).
  { unfold validateSharedClaimEntry; cbn. destruct H as [[-> ->]|(-> & Hr & Hs & He & Ho & Hd)].
    - done.
    - unfold owner_eqb. rewrite bool_decide_eq_false_2 by done.
      rewrite (proj2 (IsZero_false deadline)) by done. cbn. rewrite Hr, String.eqb_refl. cbn.
      destruct k as [g p x]; cbn in *. rewrite Hs, !String.eqb_refl, Z.eqb_refl. cbn. done. }
  unfold continueLease. destruct prev; [|done]. case_match; [done|]. rewrite Hg. done.
Qed.

Lemma continueLease_RunID prev e now : RunID (continueLease prev e now) = RunID e.
Proof. unfold continueLease. repeat case_match; reflexivity. Qed.
Lemma continueLease_SharedOwner prev e now : SharedOwner (continueLease prev e now) = SharedOwner e.
Proof. unfold continueLease. repeat case_match; reflexivity. Qed.

Lemma claim_key_refines env f key k runID workflow expires deadline owner l l' r :
  (deadline = 0 /\ owner = noOwner \/
   expires = deadline /\ Run owner = runID /\ storageKey k = Ok key
     /\ encode_check (key_ExternalID k) owner deadline = None
     /\ owner <> noOwner /\ deadline <> 0) ->
  claim_key env key k runID workflow expires deadline owner l = (l', r) -> refines env f l l'.
Proof.
  intros Hval. unfold claim_key.
  destruct (match entries l !! key with Some _ => _ | None => _ end) eqn:Hheld;
    [intros [= <- <-]; apply refines_refl|].
  destruct (match historyEntry l runID key with Some _ => _ | None => _ end) eqn:Hrev;
    [intros [= <- <-]; apply refines_refl|].
  destruct (IsZero deadline && _) eqn:Hloc; [intros [= <- <-]; apply refines_refl|].
  destruct (negb _ && _ && _) eqn:Hown in |- *; [intros [= <- <-]; apply refines_refl|].
  destruct (storeClaim _ _ _ _) as [l1 ok] eqn:Hs. intros Heq.
  assert (l' = l1) as -> by (destruct ok; injection Heq; auto).
  eapply storeClaim_refines; [|exact Hs]. unfold edit_ok_at; cbn [edit_key].
  apply put_ok; rewrite ?continueLease_RunID, ?continueLease_SharedOwner; cbn [RunID grantEntry SharedOwner].
  - apply grant_valid, Hval.
  - intros c Hc Hne. cbn in Hc. rewrite Hc in Hheld. brefl.
    destruct Hheld as [Hp [He|[Hr Hpub]]]; [auto|contradiction].
  - intros c Hc Hlive Hno. cbn in Hc. rewrite Hc in Hown; cbn in Hown.
    rewrite Hlive in Hown; cbn in Hown. unfold owner_eqb in Hown.
    rewrite (bool_decide_eq_false_2 _ Hno) in Hown; cbn in Hown. rewrite andb_true_r in Hown.
    apply negb_false_iff, bool_decide_eq_true in Hown. done.
  - intros c Hc Hpend. cbn in Hc. rewrite Hc in Hheld. unfold transitionPending in Hheld.
    rewrite Hpend in Hheld. done.
  - intros p Hp Hr. unfold past in Hp; cbn in Hp. unfold historyEntry in Hrev.
    rewrite Hp in Hrev. congruence.
Qed.

Lemma claim_refines env f key legacyKey k runID workflow dur deadline owner l l' r :
  (deadline = 0 /\ owner = noOwner \/
   Run owner = runID /\ storageKey k = Ok key
     /\ encode_check (key_ExternalID k) owner deadline = None
     /\ owner <> noOwner /\ deadline <> 0) ->
  claim env key legacyKey k runID workflow dur deadline owner l = (l', r) -> refines env f l l'.
Proof.
  intros Hval. unfold claim.
  destruct (_ && _); [intros [= <- <-]; apply refines_refl|].
  destruct (negb (After _ _)); [intros [= <- <-]; apply refines_refl|].
  assert (Hk : forall l' r, claim_key env key k runID workflow
            (if IsZero deadline then now env + dur else deadline) deadline owner l = (l', r) ->
            refines env f l l').
  { intros *. apply claim_key_refines. destruct Hval as [H|(H1 & H2 & H3 & H4 & H5)]; [by left|].
    right. rewrite (proj2 (IsZero_false deadline)) by done. auto 10. }
  destruct (if negb _ then _ else _) as [existing|]; [|apply Hk].
  destruct (live_or_pending _ _); [intros [= <- <-]; apply refines_refl | apply Hk].
Qed.

Lemma encode_check_owned id o t : encode_check id o t = None -> t <> 0 -> o <> noOwner.
Proof.
  unfold encode_check, Encode, validateRecord; cbn. intros H Ht ->.
  rewrite bool_decide_eq_true_2, (proj2 (IsZero_false t)) in H by done. cbn in H.
  destruct (negb (validKey id)); done.
Qed.
Lemma encode_check_deadline id o t : encode_check id o t = None -> o <> noOwner -> t <> 0.
Proof.
  unfold encode_check, Encode, validateRecord; cbn. intros H Ho ->.
  rewrite bool_decide_eq_false_2, orb_true_r in H by done. cbn in H.
  destruct (negb (validKey id)); done.
Qed.

Lemma Claim_refines env f itemID runID workflow dur l l' r :
  Claim env itemID runID workflow dur l = (l', r) -> refines env f l l'.
Proof. apply claim_refines. auto. Qed.

Lemma ClaimScoped_refines env f k runID workflow dur l l' r :
  ClaimScoped env k runID workflow dur l = (l', r) -> refines env f l l'.
Proof.
  unfold ClaimScoped. destruct (storageKey k) as [key|]; [|intros [= <- <-]; apply refines_refl].
  apply claim_refines. auto.
Qed.

Lemma ClaimScopedUntil_refines env f k runID workflow deadline owner l l' r :
  ClaimScopedUntil env k runID workflow deadline owner l = (l', r) -> refines env f l l'.
Proof.
  unfold ClaimScopedUntil.
  destruct (IsZero deadline) eqn:Hd; [intros [= <- <-]; apply refines_refl|].
  destruct (negb _) eqn:Hr in |- *; [intros [= <- <-]; apply refines_refl|].
  destruct (encode_check _ _ _) eqn:He; [intros [= <- <-]; apply refines_refl|].
  destruct (storageKey k) as [key|] eqn:Hs; [|intros [= <- <-]; apply refines_refl].
  brefl. apply claim_refines. right. eauto 10 using encode_check_owned.
Qed.

Lemma RenewEntry_refines env f e dur l l' r :
  RenewEntry env e dur l = (l', r) -> refines env f l l'.
Proof.
  unfold RenewEntry. destruct (IsPublicationClaim e); [intros [= <- <-]; apply refines_refl|].
  destruct (if _ || _ then _ else _) as [l1 r1] eqn:Hc. intros [= <- <-].
  destruct (_ || _) in Hc; eauto using Claim_refines, ClaimScoped_refines.
Qed.

(** ** Releases *)

Lemma release_refines env key runID owner reason l l' r :
  release env key runID owner reason l = (l', r) -> refines env false l l'.
Proof.
  unfold release. destruct (entries l !! key) as [e|] eqn:He; [|intros [= <- <-]; apply refines_refl].
  destruct (negb _ && negb _); [intros [= <- <-]; apply refines_refl|].
  destruct (negb _) eqn:Hrun in |- *; [intros [= <- <-]; apply refines_refl|].
  destruct (transitionPending e) eqn:Hpend; [intros [= <- <-]; apply refines_refl|].
  destruct (_ && _); [intros [= <- <-]; apply refines_refl|].
  destruct (_ && _); [intros [= <- <-]; apply refines_refl|].
  brefl. subst runID. destruct (persist env _) as [l3 ok] eqn:Hp. intros Heq.
  assert (l' = if ok then journalRelease env EventClaimReleased e (Normalize reason) None l3
               else restoreHistory (RunID e) key (historyEntry l (RunID e) key)
                      (restore_entry key (Some e) l3)) as ->
    by (destruct ok; injection Heq; auto).
  eapply drop_refines; [done | done | done | | |].
  - rewrite clear_not_pending by done. exact Hp.
  - apply appendEvent_core.
  - apply appendEvent_file.
Qed.

Lemma ReleaseScoped_refines env k runID reason l l' r :
  ReleaseScoped env k runID reason l = (l', r) -> refines env false l l'.
Proof.
  unfold ReleaseScoped. destruct (storageKey k); [apply release_refines|].
  intros [= <- <-]. apply refines_refl.
Qed.

Lemma ReleaseSharedScoped_refines env k owner reason l l' r :
  ReleaseSharedScoped env k owner reason l = (l', r) -> refines env false l l'.
Proof.
  unfold ReleaseSharedScoped. destruct (_ || _); [intros [= <- <-]; apply refines_refl|].
  destruct (storageKey k); [apply release_refines|]. intros [= <- <-]. apply refines_refl.
Qed.

Lemma ReleaseEntry_refines env e runID reason l l' r :
  ReleaseEntry env e runID reason l = (l', r) -> refines env false l l'.
Proof.
  unfold ReleaseEntry, LedgerRelease. destruct (_ || _);
    [apply release_refines | apply ReleaseScoped_refines].
Qed.

Lemma forceRelease_commit_refines env key actor e reason l l' r :
  entries l !! key = Some e -> transitionPending e = false ->
  forceRelease_commit env key actor e reason l = (l', r) -> refines env false l l'.
Proof.
  intros He Hpend. unfold forceRelease_commit. destruct (persist env _) as [l3 ok] eqn:Hp. intros Heq.
  assert (l' = if ok then journalRelease env EventClaimForceReleased e reason
                            (Some [("actor", actor)]) l3
               else restoreHistory (RunID e) key (historyEntry l (RunID e) key)
                      (restore_entry key (Some e) l3)) as ->
    by (destruct ok; injection Heq; auto).
  eapply drop_refines; [done | done | done | | |].
  - rewrite clear_not_pending by done. exact Hp.
  - apply appendEvent_core.
  - apply appendEvent_file.
Qed.

Lemma forceRelease_refines env key actor owner preason l l' r :
  forceRelease env key actor owner preason l = (l', r) -> refines env false l l'.
Proof.
  unfold forceRelease. destruct (actor =? "")%string; [intros [= <- <-]; apply refines_refl|].
  destruct (entries l !! key) as [e|] eqn:He; [|intros [= <- <-]; apply refines_refl].
  destruct (IsPublicationClaim e && _); [intros [= <- <-]; apply refines_refl|].
  destruct (transitionPending e) eqn:Hpend; [intros [= <- <-]; apply refines_refl|].
  destruct (negb _ && _); [intros [= <- <-]; apply refines_refl|].
  destruct (negb _ && _); [intros [= <- <-]; apply refines_refl|].
  destruct (IsPublicationClaim e); [|apply forceRelease_commit_refines; auto].
  destruct (log l) as [g|]; [|intros [= <- <-]; apply refines_refl].
  destruct (negb (journal_ok env)); [intros [= <- <-]; apply refines_refl|].
  intros Heq. eapply refines_core; [| |eapply forceRelease_commit_refines; [| |exact Heq]]; auto.
Qed.

Lemma ForceReleaseEntry_refines env e actor l l' r :
  ForceReleaseEntry env e actor l = (l', r) -> refines env false l l'.
Proof.
  unfold ForceReleaseEntry. destruct (_ || _); [apply forceRelease_refines|].
  destruct (storageKey _); [apply forceRelease_refines|]. intros [= <- <-]. apply refines_refl.
Qed.

Lemma ForceReleasePublicationEntry_refines env e actor reason l l' r :
  ForceReleasePublicationEntry env e actor reason l = (l', r) -> refines env false l l'.
Proof.
  unfold ForceReleasePublicationEntry.
  destruct (_ || _); [intros [= <- <-]; apply refines_refl|].
  destruct (_ && _); [|apply forceRelease_refines].
  destruct (storageKey _); [apply forceRelease_refines|]. intros [= <- <-]. apply refines_refl.
Qed.

Lemma FinishProviderRelease_refines env expected reason l l' r :
  FinishProviderRelease env expected reason l = (l', r) -> refines env true l l'.
Proof.
  unfold FinishProviderRelease.
  destruct (claimEntryStorageKey expected) as [key|]; [|intros [= <- <-]; apply refines_refl].
  destruct (entries l !! key) as [e|] eqn:He; [|intros [= <- <-]; apply refines_refl].
  destruct (_ || _) eqn:Hg in |- *; [intros [= <- <-]; apply refines_refl|].
  destruct (IsPublicationClaim e); [intros [= <- <-]; apply refines_refl|].
  destruct (persist env _) as [l3 ok] eqn:Hp. intros Heq.
  apply orb_false_iff in Hg as [_ Hpend]. apply negb_false_iff in Hpend.
  match type of Heq with (if _ then (?a, _) else (?b, _)) = _ =>
    assert (l' = if ok then a else b) as -> by (destruct ok; injection Heq; auto) end.
  eapply drop_refines; [done | done | done | exact Hp | |].
  - destruct (bool_decide _); apply appendEvent_core.
  - destruct (bool_decide _); apply appendEvent_file.
Qed.

(** ** Updates of the current entry *)

Lemma update_ok now f l key c u :
  core_inv (core l) -> entries l !! key = Some c ->
  validateSharedClaimEntry key u = None -> RunID u = RunID c -> SharedOwner u = SharedOwner c ->
  (ReleasePending c = true -> ReleasePending u = true) ->
  (SharedRevoked c = true -> SharedRevoked u = true) ->
  edit_ok_at now f (core l) (Put key u).
Proof.
  intros Hinv Hc Hv Hr Ho Hp Hrev. unfold edit_ok_at; cbn. apply put_ok; auto.
  - intros c' Hc'. simplify_eq. congruence.
  - intros c' Hc'. simplify_eq. auto.
  - intros c' Hc'. simplify_eq. auto.
  - unfold past; cbn. rewrite Hr. intros p Hlook Hpr. apply Hrev.
    eapply (inv_revoked _ Hinv); eauto.
Qed.

Lemma beginProviderRelease_refines env f expected shared at_ l l' r :
  core_inv (core l) ->
  beginProviderRelease env expected shared at_ l = (l', r) -> refines env f l l'.
Proof.
  intros Hinv. unfold beginProviderRelease.
  destruct (IsPublicationClaim expected); [intros [= <- <-]; apply refines_refl|].
  destruct (claimEntryStorageKey expected) as [key|]; [|intros [= <- <-]; apply refines_refl].
  destruct (entries l !! key) as [c|] eqn:Hc; [|intros [= <- <-]; apply refines_refl].
  destruct (negb _); [intros [= <- <-]; apply refines_refl|].
  destruct (_ && _); [intros [= <- <-]; apply refines_refl|].
  destruct (negb _); [intros [= <- <-]; apply refines_refl|].
  destruct (ReleasePending c); [intros [= <- <-]; apply refines_refl|].
  destruct (update_entry _ _ _ _ _) as [l1 ok] eqn:Hu. intros Heq.
  assert (l' = l1) as -> by (destruct ok; injection Heq; auto).
  eapply update_entry_refines; [exact Hc | | | exact Hu]; [done|].
  eapply update_ok; eauto. apply validate_no_pending. eapply (inv_entries _ Hinv); eauto.
Qed.

Lemma BeginSharedRelease_refines env f expected at_ l l' r :
  core_inv (core l) -> BeginSharedRelease env expected at_ l = (l', r) -> refines env f l l'.
Proof.
  unfold BeginSharedRelease. intros Hinv. destruct (_ || _); [intros [= <- <-]; apply refines_refl|].
  apply beginProviderRelease_refines, Hinv.
Qed.

(** A deadline the record format can hold wherever it holds another one. *)
Definition encodable (t : Time) : Prop :=
  forall id o t0, o <> noOwner -> encode_check id o t0 = None -> encode_check id o t = None.

Lemma validate_set_deadline key c d :
  encodable d -> SharedOwner c <> noOwner ->
  validateSharedClaimEntry key c = None -> validateSharedClaimEntry key (set_deadline c d) = None.
Proof.
  intros Henc Ho. unfold validateSharedClaimEntry; cbn. unfold owner_eqb.
  rewrite !(bool_decide_eq_false_2 _ Ho); cbn.
  destruct (IsZero (SharedDeadline c)); [done|].
  destruct (Run (SharedOwner c) =? RunID c)%string; [cbn|done].
  destruct (storageKey _); [|done]. rewrite Z.eqb_refl; cbn.
  destruct (ExpiresAt c =? SharedDeadline c); cbn;
    [|destruct (negb _); [done|]; destruct (negb _); done].
  intros He. case_match; [done|]. pose proof (Henc _ _ _ Ho He) as He'.
  rewrite (proj2 (IsZero_false d)); [done|]. eapply encode_check_deadline; eauto.
Qed.

Lemma pending_owned key c :
  validateSharedClaimEntry key c = None -> SharedAdmissionPending c = true ->
  SharedOwner c <> noOwner.
Proof.
  unfold validateSharedClaimEntry. intros H Hp Ho. rewrite Hp in H. unfold owner_eqb in H.
  rewrite !(bool_decide_eq_true_2 _ Ho) in H. destruct (IsZero _) in H; done.
Qed.

Lemma FinishSharedAdmission_refines env f expected deadline l l' r :
  core_inv (core l) -> encodable deadline ->
  FinishSharedAdmission env expected deadline l = (l', r) -> refines env f l l'.
Proof.
  intros Hinv Henc. unfold FinishSharedAdmission.
  destruct (claimEntryStorageKey expected) as [key|]; [|intros [= <- <-]; apply refines_refl].
  destruct (entries l !! key) as [c|] eqn:Hc; [|intros [= <- <-]; apply refines_refl].
  cbn [default from_option id]. destruct (_ || _) eqn:Hg in |- *;
    [intros [= <- <-]; apply refines_refl|].
  destruct (SharedRevoked c) eqn:Hrev; [intros [= <- <-]; apply refines_refl|].
  destruct (negb (After _ _)); [intros [= <- <-]; apply refines_refl|].
  destruct (storeClaim _ _ _ _) as [l1 ok] eqn:Hs. intros Heq.
  assert (l' = l1) as -> by (destruct ok; injection Heq; auto).
  apply orb_false_iff in Hg as [[_ Hadm]%orb_false_iff Hpend]. apply negb_false_iff in Hadm.
  pose proof (inv_entries _ Hinv _ _ Hc) as Hv.
  eapply storeClaim_refines; [|exact Hs]. eapply update_ok; eauto; [|cbn; congruence..].
  apply validate_set_deadline; [done | apply (pending_owned key c Hv Hadm) |].
  rewrite Hpend. apply validate_no_pending, Hv.
Qed.

Lemma revokeSharedExecution_refines env f key owner actor l l' r :
  core_inv (core l) -> encodable (now env) ->
  revokeSharedExecution env key owner actor l = (l', r) -> refines env f l l'.
Proof.
  intros Hinv Henc. unfold revokeSharedExecution.
  destruct (_ || _) eqn:Hargs in |- *; [intros [= <- <-]; apply refines_refl|].
  destruct (entries l !! key) as [c|] eqn:Hc; [|intros [= <- <-]; apply refines_refl].
  destruct (IsPublicationClaim c); [intros [= <- <-]; apply refines_refl|].
  destruct (_ || _) eqn:Hown in |- *; [intros [= <- <-]; apply refines_refl|].
  destruct (SharedRevoked c) eqn:Hrev; [intros [= <- <-]; apply refines_refl|].
  destruct (update_entry _ _ _ _ _) as [l1 ok] eqn:Hu. intros Heq.
  assert (core l' = core l1 /\ file l' = file l1) as [Hcl Hfl].
  { destruct ok; injection Heq as <- <-; [|done]. unfold journalWithRunner.
    autorewrite with goobers_ledger. done. }
  assert (Href : refines env f l l1).
  { apply orb_false_iff in Hargs as [_ Hno]. apply orb_false_iff in Hown as [Hown _].
    apply negb_false_iff in Hown. unfold owner_eqb in *.
    apply bool_decide_eq_true in Hown. apply bool_decide_eq_false in Hno.
    pose proof (inv_entries _ Hinv _ _ Hc) as Hv.
    eapply update_entry_refines; [exact Hc | | | exact Hu]; [by destruct (After _ _)|].
    eapply update_ok; [done | exact Hc | | by destruct (After _ _)..].
    destruct (After _ _); [|exact Hv]. apply validate_set_deadline; [done | cbn; congruence | exact Hv]. }
  destruct Href as (eds & Heds & Hnd & Ht). exists eds. split; [done|]. split; [done|].
  unfold txn in *. remember (apply_edits (core l) eds) as target eqn:Et. unfold core in Hcl. injection Hcl as He Hh.
  destruct Ht; [apply txn_same | apply txn_commit | apply txn_rollback | apply txn_torn]; unfold core in *; congruence.
Qed.

Lemma RecordClaimVerification_refines env f expected o l l' r :
  core_inv (core l) -> RecordClaimVerification env expected o l = (l', r) -> refines env f l l'.
Proof.
  intros Hinv. unfold RecordClaimVerification.
  destruct (claimEntryStorageKey expected) as [key|]; [|intros [= <- <-]; apply refines_refl].
  destruct (ValidateClaimVerification _ _ _); [intros [= <- <-]; apply refines_refl|].
  destruct (entries l !! key) as [c|] eqn:Hc; [|intros [= <- <-]; apply refines_refl].
  destruct (_ || _); [intros [= <- <-]; apply refines_refl|].
  destruct (_ && _); [intros [= <- <-]; apply refines_refl|].
  destruct (update_entry _ _ _ _ _) as [l1 ok] eqn:Hu. intros Heq.
  assert (l' = l1) as -> by (destruct ok; injection Heq; auto).
  eapply update_entry_refines; [exact Hc | | | exact Hu]; [done|].
  eapply update_ok; eauto. rewrite validate_set_verification. eapply (inv_entries _ Hinv); eauto.
Qed.

(** ** Shared admission *)

Lemma shared_run key c :
  validateSharedClaimEntry key c = None -> SharedOwner c <> noOwner -> RunID c = Run (SharedOwner c).
Proof.
  unfold validateSharedClaimEntry, owner_eqb. intros H Ho.
  rewrite !(bool_decide_eq_false_2 _ Ho) in H; cbn in H.
  destruct (IsZero _); [done|].
  destruct (Run (SharedOwner c) =? RunID c)%string eqn:E; [|done]. brefl. done.
Qed.

Lemma reserve_run k owner workflow now key held :
  (forall c, held = Some c -> validateSharedClaimEntry key c = None) ->
  (forall c, held = Some c -> SharedOwner c <> noOwner -> SharedOwner c = owner) ->
  RunID (reserve k owner workflow now held) = Run owner
  /\ (owner <> noOwner -> SharedOwner (reserve k owner workflow now held) = owner)
  /\ (storageKey k = Ok key -> encode_check (key_ExternalID k) owner now = None ->
       owner <> noOwner -> validateSharedClaimEntry key (reserve k owner workflow now held) = None).
Proof.
  intros Hv Ho. unfold reserve.
  assert (Hfresh : storageKey k = Ok key -> encode_check (key_ExternalID k) owner now = None ->
       owner <> noOwner -> forall b, validateSharedClaimEntry key
         (set_pending (grantEntry k (Run owner) workflow now now now owner) b true) = None).
  { intros Hs He Hno b. pose proof (encode_check_deadline _ _ _ He Hno).
    unfold validateSharedClaimEntry, owner_eqb; cbn.
    rewrite bool_decide_eq_false_2, (proj2 (IsZero_false now)) by done; cbn.
    rewrite String.eqb_refl; cbn. destruct k as [g p x]; cbn in *.
    rewrite Hs, !String.eqb_refl, Z.eqb_refl. done. }
  destruct held as [c|]; [|cbn; auto]. unfold owner_eqb.
  case_bool_decide as Hc; [cbn; auto|]. specialize (Hv c eq_refl). specialize (Ho c eq_refl Hc).
  split; [|split]; [cbn; rewrite (shared_run key c) by done; congruence | done |].
  intros _ _ _. unfold validateSharedClaimEntry, owner_eqb in *; cbn.
  rewrite (bool_decide_eq_false_2 _ Hc) in *; cbn in *. exact Hv.
Qed.

Lemma BeginSharedAdmission_refines env f k owner workflow l l' r :
  core_inv (core l) -> now env <> 0 ->
  BeginSharedAdmission env k owner workflow l = (l', r) -> refines env f l l'.
Proof.
  intros Hinv Hnow. unfold BeginSharedAdmission.
  destruct (IsPublicationClaimKey _); [intros [= <- <-]; apply refines_refl|].
  destruct (storageKey k) as [key|] eqn:Hsk; [|intros [= <- <-]; apply refines_refl].
  destruct (encode_check _ _ _) eqn:Henc; [intros [= <- <-]; apply refines_refl|].
  destruct (match historyEntry l _ key with Some _ => _ | None => _ end) eqn:Hrev;
    [intros [= <- <-]; apply refines_refl|].
  destruct (match entries l !! key_ExternalID k with Some _ => _ | None => _ end);
    [intros [= <- <-]; apply refines_refl|].
  destruct (match entries l !! key with Some _ => _ | None => _ end) eqn:Hheld;
    [intros [= <- <-]; apply refines_refl|].
  destruct (SharedAdmissionPending _) eqn:Hadm; [intros [= <- <-]; apply refines_refl|].
  pose proof (encode_check_owned _ _ _ Henc Hnow) as Hno.
  destruct (reserve_run k owner workflow (now env) key (entries l !! key)) as (Hr & Ho & Hv).
  { intros c Hc. eapply (inv_entries _ Hinv); eauto. }
  { intros c Hc Hoc. rewrite Hc in Hheld. unfold owner_eqb in Hheld. brefl.
    destruct Hheld as [[_ [H|H]] _]; [by apply bool_decide_eq_true in H|].
    by apply bool_decide_eq_true in H. }
  destruct (persist env _) as [l3 ok] eqn:Hp. intros Heq.
  set (e := reserve k owner workflow (now env) (entries l !! key)) in *.
  apply refines_single with (Put key e).
  - unfold edit_ok_at; cbn. apply put_ok; [auto|..]; rewrite ?Hr, ?Ho by done.
    + intros c Hc Hne. rewrite Hc in Hheld, Hadm. cbn in Hadm. unfold transitionPending.
      rewrite Hadm. brefl. destruct Hheld as [[[Hp1 _] _] [Hl|Hl]]; [auto|contradiction].
    + intros c Hc Hlive Hsome. rewrite Hc in Hheld. unfold owner_eqb in Hheld. brefl.
      destruct Hheld as [[_ [H|H]] _]; by apply bool_decide_eq_true in H.
    + intros c Hc Hpend. rewrite Hc in Hheld. brefl. destruct Hheld as [[[Hp1 _] _] _]. congruence.
    + unfold past; cbn. intros p Hpast Hprev. unfold historyEntry in Hrev. rewrite Hpast in Hrev.
      congruence.
  - match type of Heq with (if _ then (?a, _) else (?b, _)) = _ =>
      assert (l' = if ok then a else b) as -> by (destruct ok; injection Heq; auto) end.
    refine (persist_txn _ _ _ _ _ _ _ _ _ _ Hp _ _); [reflexivity | reflexivity | done |].
    intros Hc. unfold historyEntry. rewrite <- Hr. apply (single_undo l l3 (Put key e)).
    rewrite Hc. reflexivity.
Qed.

(** ** Batch reclaim *)

Lemma plan_entries_keys seen es ps :
  plan_entries seen es = Ok ps ->
  NoDup (map pl_storageKey ps) /\ forall k, k ∈ map pl_storageKey ps -> k ∉ seen.
Proof.
  revert seen ps. induction es as [|e es IH]; intros seen ps; cbn.
  - intros [= <-]. split; [constructor | set_solver].
  - destruct (plan_entry e) as [[p|]|]; [| apply IH | done].
    destruct (mem_string _ _) eqn:Hm; [done|]. apply mem_string_false in Hm.
    destruct (plan_entries _ es) as [ps'|] eqn:Hp; [|done]. intros [= <-].
    apply IH in Hp as [Hnd Hin]. cbn. split.
    + constructor; [|done]. intros H%Hin. set_solver.
    + intros k. rewrite elem_of_cons. intros [->|H%Hin]; set_solver.
Qed.

Lemma refusePlannedClaims_all l ps runID now p :
  refusePlannedClaims l ps runID now = Ok None -> p ∈ ps ->
  refuse_planned l p runID now = Ok None.
Proof.
  induction ps as [|q ps IH]; cbn; [set_solver|].
  destruct (refuse_planned l q runID now) as [[h|]|] eqn:E; [done| |done].
  intros H [->|Hin]%elem_of_cons; auto.
Qed.

(** What an unrefused plan knows of the entry it replaces. *)
Lemma refuse_planned_none l p runID now :
  refuse_planned l p runID now = Ok None ->
  (forall c, entries l !! pl_storageKey p = Some c ->
     transitionPending c = false /\ SharedDeadline c = 0
     /\ (RunID c <> runID -> expired c now = true))
  /\ (forall h, historyEntry l runID (pl_storageKey p) = Some h -> SharedRevoked h = false).
Proof.
  unfold refuse_planned.
  destruct (transitionPending _) eqn:Hp; [done|].
  destruct (match historyEntry l _ _ with Some _ => _ | None => _ end) eqn:Hrev; [done|].
  destruct (negb _) eqn:Hd in |- *; [done|].
  destruct (_ && _); [done|].
  destruct (held_by_other _ _ _) eqn:Hh; [done|]. intros _. split.
  - intros c Hc. rewrite Hc in *. cbn in *. brefl. destruct Hh as [_ [Hh|Hh]]; naive_solver.
  - intros h Hh'. rewrite Hh' in Hrev. done.
Qed.

Definition reclaim_edit (previous : Entries) runID workflow now dur (p : plannedClaim) : edit :=
  Put (pl_storageKey p) (reclaim_entry previous p runID workflow now dur).

Lemma reclaim_steps previous runID workflow now dur l ps :
  core (foldl (reclaim_step previous runID workflow now dur) l ps)
    = apply_edits (core l) (map (reclaim_edit previous runID workflow now dur) ps)
  /\ file (foldl (reclaim_step previous runID workflow now dur) l ps) = file l.
Proof.
  revert l. induction ps as [|p ps IH]; intros l; cbn; [done|].
  destruct (IH (reclaim_step previous runID workflow now dur l p)) as [-> ->]. done.
Qed.

Lemma reclaim_edit_ok env f l runID workflow dur p :
  core_inv (core l) -> refuse_planned l p runID (now env) = Ok None ->
  edit_ok_at (now env) f (core l) (reclaim_edit (entries l) runID workflow (now env) dur p).
Proof.
  intros Hinv [Hc Hrev]%refuse_planned_none. unfold edit_ok_at, reclaim_edit; cbn [edit_key].
  apply put_ok; unfold reclaim_entry; rewrite ?continueLease_RunID, ?continueLease_SharedOwner; cbn.
  - apply grant_valid. auto.
  - intros c Hlook Hne. destruct (Hc c Hlook) as (? & ? & ?). auto.
  - intros c Hlook _ Ho. exfalso. destruct (Hc c Hlook) as (_ & Hd & _).
    pose proof (inv_entries _ Hinv _ _ Hlook) as Hv. unfold validateSharedClaimEntry in Hv.
    rewrite Hd in Hv. unfold owner_eqb in Hv. rewrite (bool_decide_eq_false_2 _ Ho) in Hv. done.
  - intros c Hlook Hp. destruct (Hc c Hlook) as (Ht & _). unfold transitionPending in Ht.
    rewrite Hp in Ht. done.
  - intros h Hlook Hr. unfold past in Hlook. rewrite (Hrev h Hlook) in Hr. done.
Qed.

(** Only the reclaiming run's history is written, so restoring it is enough. *)
Lemma reclaim_history previous runID workflow now dur c ps r k :
  r <> runID ->
  hist_lookup (apply_edits c (map (reclaim_edit previous runID workflow now dur) ps)).2 r k
  = hist_lookup c.2 r k.
Proof.
  intros Hne. revert c. induction ps as [|p ps IH]; intros c; cbn; [done|].
  rewrite IH; cbn. rewrite hist_lookup_insert. unfold reclaim_entry.
  rewrite continueLease_RunID. cbn. rewrite bool_decide_eq_false_2 by naive_solver. done.
Qed.

Lemma ReclaimAll_refines env f es runID workflow dur l l' r :
  core_inv (core l) -> ReclaimAll env es runID workflow dur l = (l', r) -> refines env f l l'.
Proof.
  intros Hinv. unfold ReclaimAll.
  destruct (dur <=? 0); [intros [= <- <-]; apply refines_refl|].
  destruct es as [|e0 es0]; [intros [= <- <-]; apply refines_refl|].
  destruct (plan_entries [] (e0 :: es0)) as [ps|] eqn:Hplan; [|intros [= <- <-]; apply refines_refl].
  destruct (refusePlannedClaims _ _ _ _) as [[h|]|] eqn:Href;
    [intros [= <- <-]; apply refines_refl| |intros [= <- <-]; apply refines_refl].
  set (planned := sort_by planned_le ps) in *.
  set (eds := map (reclaim_edit (entries l) runID workflow (now env) dur) planned).
  destruct (reclaim_steps (entries l) runID workflow (now env) dur l planned) as [Hcore Hfile].
  destruct (persist env _) as [l2 ok] eqn:Hp. intros Heq.
  assert (Hnd : NoDup (map edit_key eds)).
  { unfold eds. rewrite map_map; cbn. change (NoDup (map pl_storageKey planned)).
    unfold planned. rewrite <- (sort_by_perm planned_le ps). apply (plan_entries_keys _ _ _ Hplan). }
  exists eds. split; [|split; [exact Hnd|]].
  - apply edits_ok_distinct; [exact Hnd|].
    + apply Forall_forall. intros ed (p & -> & Hp')%list_elem_of_fmap.
      apply reclaim_edit_ok; [done|]. eapply refusePlannedClaims_all; eauto.
  - match type of Heq with (if _ then (?a, _) else (?b, _)) = _ =>
      assert (l' = if ok then a else b) as -> by (destruct ok; injection Heq; auto) end.
    refine (persist_txn _ _ _ _ _ _ _ _ _ _ Hp _ _); [exact Hcore | exact Hfile | |].
    + split; [apply foldl_core | apply foldl_file]; intros; unfold journal;
        autorewrite with goobers_ledger; done.
    + intros Hc2. split; [done|]. split; [|done]. rewrite Hcore in Hc2.
      pose proof (f_equal snd Hc2 : history l2 = (apply_edits (core l) eds).2) as Hh.
      intros r' k. cbn. unfold hist_lookup. destruct (decide (r' = runID)) as [->|Hne].
      * destruct (history l !! runID) as [h|] eqn:E.
        -- rewrite lookup_insert_eq. done.
        -- rewrite lookup_delete_eq. done.
      * pose proof (reclaim_history (entries l) runID workflow (now env) dur (core l) planned
                      r' k Hne) as Hrh. fold eds in Hrh. rewrite <- Hh in Hrh.
        unfold hist_lookup in Hrh; cbn in Hrh. rewrite <- Hrh.
        destruct (history l !! runID);
          [rewrite lookup_insert_ne by auto | rewrite lookup_delete_ne by auto]; done.
Qed.

(** ** The recovery sweep *)

Definition reap_edit (now : Time) (p : string * ClaimEntry) : edit :=
  Drop p.1 (set_released p.2 now StallSweptReason).

(** The victim's record, with its history as it was before the sweep. *)
Definition victim (l : ClaimLedger) (p : string * ClaimEntry) : releasedClaim :=
  mkReleased p.1 p.2 (historyEntry l (RunID p.2) p.1).

Lemma reap_all_spec now l ps :
  NoDup (map fst ps) ->
  exists l1, reap_all now l ps = (l1, map (victim l) ps)
    /\ core l1 = apply_edits (core l) (map (reap_edit now) ps) /\ file l1 = file l.
Proof.
  revert l. induction ps as [|p ps IH]; intros l Hnd; cbn; [eauto|].
  inversion Hnd as [|? ? Hnot Hnd']; subst.
  edestruct (IH (reap now l p).1 Hnd') as (l1 & Hreap & Hc & Hf). unfold reap in Hreap; cbn in Hreap.
  rewrite Hreap. eexists. split; [|split; [exact Hc | exact Hf]]. do 2 f_equal.
  apply map_ext_Forall, Forall_forall. intros q Hq. unfold victim, historyEntry.
  f_equal. cbn [history with_entries recordReleasedHistory recordHistory with_history fst reap].
  rewrite hist_lookup_insert, bool_decide_eq_false_2; [done|]. intros [_ Heq].
  apply Hnot. rewrite <- Heq. apply list_elem_of_fmap. eauto.
Qed.

Lemma reap_edits_entries now c ps k :
  (apply_edits c (map (reap_edit now) ps)).1 !! k
  = if bool_decide (k ∈ map fst ps) then None else c.1 !! k.
Proof.
  revert c. induction ps as [|p ps IH]; intros c; cbn; [done|]. rewrite IH; cbn.
  destruct (decide (k = p.1)) as [->|Hne].
  - rewrite lookup_delete_eq, (bool_decide_eq_true_2 (_ ∈ _ :: _)) by set_solver. case_match; done.
  - rewrite lookup_delete_ne by auto. rewrite (bool_decide_ext (k ∈ p.1 :: _) (k ∈ map fst ps));
      [done|]. set_solver.
Qed.

Lemma reap_edits_history now c ps r k :
  Forall (fun p => (RunID p.2, p.1) <> (r, k)) ps ->
  hist_lookup (apply_edits c (map (reap_edit now) ps)).2 r k = hist_lookup c.2 r k.
Proof.
  intros H. revert c. induction H as [|p ps Hp Hps IH]; intros c; cbn; [done|]. rewrite IH; cbn.
  rewrite hist_lookup_insert, bool_decide_eq_false_2 by (cbn; naive_solver). done.
Qed.

(** Undoing the sweep: victims get entry and history back, others are left. *)
Lemma restore_entries l0 l ps :
  NoDup (map fst ps) -> forall k,
  entries (foldl restore_released l (map (victim l0) ps)) !! k
  = match list_find (fun p => p.1 = k) ps with Some (_, p) => Some p.2 | None => entries l !! k end.
Proof.
  intros Hnd k. revert l. induction ps as [|p ps IH]; intros l; cbn; [done|].
  inversion Hnd as [|? ? Hnot Hnd']; subst. rewrite IH by done.
  assert (He : entries (restore_released l (victim l0 p)) = <[p.1 := p.2]> (entries l))
    by (unfold restore_released, victim; cbn [rc_previous];
        destruct (historyEntry l0 (RunID p.2) p.1); reflexivity).
  rewrite He. case_decide as Hk.
  - subst k. rewrite (proj2 (list_find_None _ _)); [by rewrite lookup_insert_eq|].
    apply Forall_forall. intros q Hq Heq. apply Hnot. rewrite <- Heq. apply list_elem_of_fmap. eauto.
  - destruct (list_find _ ps) as [[i q]|]; cbn; [done|]. by rewrite lookup_insert_ne by auto.
Qed.

Lemma restore_history l0 l ps :
  NoDup (map fst ps) -> forall r k,
  hist_lookup (history (foldl restore_released l (map (victim l0) ps))) r k
  = if bool_decide (Exists (fun p => (RunID p.2, p.1) = (r, k)) ps)
    then hist_lookup (history l0) r k else hist_lookup (history l) r k.
Proof.
  intros Hnd r k. revert l. induction ps as [|p ps IH]; intros l; [done|].
  cbn [map foldl].
  inversion Hnd as [|? ? Hnot Hnd']; subst. rewrite IH by done.
  assert (Hh : hist_lookup (history (restore_released l (victim l0 p))) r k
     = if bool_decide (r = RunID p.2 /\ k = p.1) then hist_lookup (history l0) r k
       else hist_lookup (history l) r k).
  { unfold restore_released, victim, historyEntry.
    cbn [rc_previous rc_entry rc_storageKey].
    destruct (hist_lookup (history l0) (RunID p.2) p.1) eqn:E;
      cbn [restoreHistory with_history history restore_entry with_entries];
      rewrite ?hist_lookup_insert, ?hist_lookup_delete;
      destruct (decide (r = RunID p.2 /\ k = p.1)) as [[-> ->]|Hd];
      rewrite ?bool_decide_eq_true_2, ?bool_decide_eq_false_2 by auto; auto. }
  rewrite Hh. destruct (decide ((RunID p.2, p.1) = (r, k))) as [Heq|Hne].
  - rewrite (bool_decide_eq_true_2 (Exists _ (p :: ps))) by (left; done).
    rewrite (bool_decide_eq_true_2 (r = _ /\ _)) by naive_solver. by destruct (bool_decide _).
  - rewrite (bool_decide_eq_false_2 (r = _ /\ _)) by naive_solver.
    rewrite (bool_decide_ext (Exists _ (p :: ps)) (Exists (fun p => (RunID p.2, p.1) = (r, k)) ps));
      [done|]. rewrite Exists_cons. naive_solver.
Qed.

Lemma victims_distinct now m :
  NoDup (map fst (filter (fun p => reapable now p.2 = true) (map_to_list (m : Entries)))).
Proof.
  eapply NoDup_fmap_fst.
  - intros k e1 e2 [_ H1]%list_elem_of_filter [_ H2]%list_elem_of_filter.
    apply elem_of_map_to_list in H1, H2. congruence.
  - apply NoDup_filter, NoDup_map_to_list.
Qed.

Lemma victim_elem now m k e :
  (k, e) ∈ filter (fun p => reapable now p.2 = true) (map_to_list (m : Entries))
  <-> m !! k = Some e /\ reapable now e = true.
Proof. rewrite list_elem_of_filter, elem_of_map_to_list. cbn. tauto. Qed.

Lemma reap_undo l l2 ps now :
  NoDup (map fst ps) -> (forall k e, (k, e) ∈ ps -> entries l !! k = Some e) ->
  core l2 = apply_edits (core l) (map (reap_edit now) ps) ->
  entries (foldl restore_released l2 (map (victim l) ps)) = entries l
  /\ hequiv (history (foldl restore_released l2 (map (victim l) ps))) (history l).
Proof.
  intros Hnd Hin Hc.
  pose proof (f_equal fst Hc : entries l2 = _) as He.
  pose proof (f_equal snd Hc : history l2 = _) as Hh. split.
  - apply map_eq. intros k. rewrite restore_entries by done.
    destruct (list_find _ ps) as [[i [k' e]]|] eqn:Hf.
    + apply list_find_Some in Hf as (Hlook & Hk & _). cbn in *. subst k'.
      symmetry. apply Hin. eapply list_elem_of_lookup_2; eauto.
    + rewrite He, reap_edits_entries. rewrite bool_decide_eq_false_2; [done|].
      intros (p & -> & Hp)%list_elem_of_fmap. apply list_find_None in Hf.
      rewrite Forall_forall in Hf. apply (Hf p Hp). done.
  - intros r k. rewrite restore_history by done. case_bool_decide as Hex; [done|].
    rewrite Hh. apply reap_edits_history. apply Forall_forall. intros p Hp Heq. apply Hex.
    apply Exists_exists. eauto.
Qed.

Lemma RecoverExpired_refines env at_ l l' r :
  RecoverExpired env at_ l = (l', r) -> refines env false l l'.
Proof.
  unfold RecoverExpired.
  pose proof (victims_distinct at_ (entries l)) as Hnd.
  pose proof (victim_elem at_ (entries l)) as Hel.
  destruct (filter _ _) as [|v vs] eqn:Hvs; [intros [= <- <-]; apply refines_refl|].
  set (ps := v :: vs) in *.
  destruct (reap_all_spec at_ l ps Hnd) as (l1 & Hreap & Hcore & Hfile). rewrite Hreap.
  destruct (persist env l1) as [l2 ok] eqn:Hp. intros Heq.
  assert (Hnd' : NoDup (map edit_key (map (reap_edit at_) ps))) by (rewrite map_map; exact Hnd).
  exists (map (reap_edit at_) ps). split; [|split; [exact Hnd'|]].
  - apply edits_ok_distinct; [exact Hnd'|].
    apply Forall_forall. intros ed ([k e] & -> & [Hlook Hreapable]%Hel)%list_elem_of_fmap.
    unfold reapable in Hreapable. brefl. destruct Hreapable as [[_ Hpend] _].
    unfold reap_edit, edit_ok_at; cbn. rewrite <- (clear_not_pending e Hpend) at 1.
    apply drop_ok; [exact Hlook | auto | done].
  - match type of Heq with (if _ then (?a, _) else (?b, _)) = _ =>
      assert (l' = if ok then a else b) as -> by (destruct ok; injection Heq; auto) end.
    refine (persist_txn _ _ _ _ _ _ _ _ _ _ Hp _ _); [exact Hcore | exact Hfile | |].
    + split; [apply foldl_core | apply foldl_file]; intros; unfold journalRelease;
        autorewrite with goobers_ledger; done.
    + intros Hc2. rewrite Hcore in Hc2.
      destruct (reap_undo l l2 ps at_ Hnd) as [? ?]; [|done|split; [done|split; [done|]]].
      * intros k e. rewrite Hel. tauto.
      * apply foldl_file. intros l0 rc. unfold restore_released.
        by destruct (rc_previous rc).
Qed.

(** ** The migration of item-only keys *)

(** The step from [l] to [l'] moves item-only entries, in one transaction. *)
Definition migrates (env : Env) (l l' : ClaimLedger) : Prop :=
  exists ms, moves_ok (core l) ms /\ txn_to env l (move_entries (core l) ms) l'.

(** What the code plans from a list of item-only entries. *)
Lemma plan_migrations_spec resolve m planned ps ms :
  plan_migrations resolve m planned ps = Ok ms ->
  (forall mg, mg ∈ ms -> exists e gaggle provider, (mg_legacyKey mg, e) ∈ ps /\ resolve e = Resolved gaggle provider
     /\ storageKey (mkKey gaggle provider (ItemID e)) = Ok (mg_scopedKey mg)
     /\ mg_entry mg = set_namespace e gaggle provider /\ m !! mg_scopedKey mg = None)
  /\ map mg_legacyKey ms `sublist_of` map fst ps
  /\ NoDup (map mg_scopedKey ms) /\ (forall k, k ∈ map mg_scopedKey ms -> k ∉ planned).
Proof.
  revert planned ms. induction ps as [|[key e] ps IH]; intros planned ms; cbn.
  { intros [= <-]. split; [set_solver|]. split; [done|]. split; [constructor|set_solver]. }
  assert (Hskip : forall ms, plan_migrations resolve m planned ps = Ok ms ->
    (forall mg, mg ∈ ms -> exists e' gaggle provider, (mg_legacyKey mg, e') ∈ (key, e) :: ps /\ resolve e' = Resolved gaggle provider
       /\ storageKey (mkKey gaggle provider (ItemID e')) = Ok (mg_scopedKey mg)
       /\ mg_entry mg = set_namespace e' gaggle provider /\ m !! mg_scopedKey mg = None)
    /\ map mg_legacyKey ms `sublist_of` key :: map fst ps
    /\ NoDup (map mg_scopedKey ms) /\ (forall k, k ∈ map mg_scopedKey ms -> k ∉ planned)).
  { intros ms' (H1 & H2 & H3)%IH. split; [|split; [by apply sublist_cons|done]].
    intros mg (e' & g & p & Hin & Hrest)%H1. exists e', g, p. split; [by right|done]. }
  destruct (resolve e) as [gaggle provider| |] eqn:Hr; [|apply Hskip|done]. clear Hskip.
  destruct (storageKey _) as [scoped|] eqn:Hk; [|done]. destruct (m !! scoped) eqn:Hm; [done|].
  destruct (mem_string scoped planned) eqn:Hpl; [done|]. apply mem_string_false in Hpl.
  destruct (plan_migrations _ _ _ ps) as [ms'|] eqn:Hp; [|done]. intros [= <-].
  apply IH in Hp as (H1 & H2 & H3 & H4). cbn. split; [|split; [by apply sublist_skip|split]].
  - intros mg [->|Hin]%elem_of_cons; [exists e, gaggle, provider; cbn; split; [by left|done]|].
    destruct (H1 mg Hin) as (e' & g & p & Hin' & Hrest). exists e', g, p. split; [by right|done].
  - constructor; [|done]. intros Hin%H4. set_solver.
  - intros k [->|Hin%H4]%elem_of_cons; set_solver.
Qed.

(** No run whose entry moves was revoked at the key it moves to. *)
Definition moves_no_revoked (resolve : option (ClaimEntry -> resolution)) (l : ClaimLedger) : Prop :=
  forall f k e gaggle provider scoped, resolve = Some f -> entries l !! k = Some e -> is_legacy e = true ->
    f e = Resolved gaggle provider -> storageKey (mkKey gaggle provider (ItemID e)) = Ok scoped ->
    ~ revoked_at (core l) (RunID e) scoped.

Lemma MigrateLegacyClaims_moves env resolve l l' r :
  MigrateLegacyClaims env resolve l = (l', r) ->
  exists ms, moves_ok (core l) ms /\ txn_to env l (move_entries (core l) ms) l'
    /\ (moves_no_revoked resolve l -> forall mg, mg ∈ ms -> ~ revoked_at (core l) (RunID (mg_entry mg)) (mg_scopedKey mg)).
Proof.
  assert (Hsame : exists ms, moves_ok (core l) ms /\ txn_to env l (move_entries (core l) ms) l
    /\ (moves_no_revoked resolve l -> forall mg, mg ∈ ms -> ~ revoked_at (core l) (RunID (mg_entry mg)) (mg_scopedKey mg))).
  { exists []. split; [repeat constructor|]. split; [by apply txn_same|]. intros _ mg []%not_elem_of_nil. }
  unfold MigrateLegacyClaims. destruct (filter _ _) as [|v vs] eqn:Hvs; [intros [= <- <-]; exact Hsame|].
  destruct resolve as [f|]; [|intros [= <- <-]; exact Hsame].
  destruct (plan_migrations _ _ _ _) as [[|mg0 ms0]|] eqn:Hplan; [intros [= <- <-]; exact Hsame| |intros [= <- <-]; exact Hsame].
  set (ms := mg0 :: ms0) in *. apply plan_migrations_spec in Hplan as (H1 & H2 & H3 & _).
  destruct (persist env _) as [l2 ok] eqn:Hp. intros Heq. exists ms.
  assert (Hin : forall k e, (k, e) ∈ v :: vs -> entries l !! k = Some e /\ is_legacy e = true).
  { intros k e. rewrite <- Hvs, list_elem_of_filter, elem_of_map_to_list. cbn. tauto. }
  split; [|split].
  - split; [|split; [|done]].
    + apply Forall_forall. intros mg (e & g & p & [He Hl]%Hin & _ & Hrest)%H1. exists e, g, p. done.
    + eapply sublist_NoDup; [|exact H2]. rewrite <- Hvs. eapply NoDup_fmap_fst.
      * intros k e1 e2 [_ He1]%list_elem_of_filter [_ He2]%list_elem_of_filter.
        apply elem_of_map_to_list in He1, He2. congruence.
      * apply NoDup_filter, NoDup_map_to_list.
  - match type of Heq with (if _ then (?a, _) else (?b, _)) = _ =>
      assert (l' = if ok then a else b) as -> by (destruct ok; injection Heq; auto) end.
    refine (persist_txn_to _ _ _ _ _ _ _ _ _ _ Hp _ _); [reflexivity|reflexivity|done|].
    intros Hc. split; [done|]. split; [|done]. injection Hc as _ Hh. cbn. rewrite Hh. reflexivity.
  - intros Hno mg (e & g & p & [He Hl]%Hin & Hf & Hk & -> & _)%H1. by apply (Hno f (mg_legacyKey mg) e g p).
Qed.
End refinement.
