(* ===== verification/ClaimLedgerProps.v ===== *)
(** * What the ledger guarantees over its whole life

    The operations as one alphabet, the runs of a ledger through operations,
    failed writes and restarts as a transition system, and the properties of
    every reachable ledger. *)

From S2P Require Export ClaimLedgerRefinement.
Local Open Scope string_scope.
Local Open Scope list_scope.
Local Open Scope Z_scope.

Section life.
Context {San : Sanitizer} {Cod : RecordCodec}.

(** ** Operations and steps *)

Inductive op :=
| OpClaim (itemID runID workflow : string) (lease : Duration)
| OpClaimScoped (k : ClaimKey) (runID workflow : string) (lease : Duration)
| OpClaimScopedUntil (k : ClaimKey) (runID workflow : string) (deadline : Time) (owner : Owner)
| OpReclaimAll (es : list ClaimEntry) (runID workflow : string) (lease : Duration)
| OpRenewEntry (e : ClaimEntry) (lease : Duration)
| OpRelease (itemID runID : string) (reason : Reason)
| OpReleaseScoped (k : ClaimKey) (runID : string) (reason : Reason)
| OpReleaseSharedScoped (k : ClaimKey) (owner : Owner) (reason : Reason)
| OpReleaseEntry (e : ClaimEntry) (runID : string) (reason : Reason)
| OpForceRelease (itemID : string)
| OpForceReleaseEntry (e : ClaimEntry) (actor : string)
| OpForceReleaseShared (key actor : string) (owner : Owner)
| OpForceReleasePublicationEntry (e : ClaimEntry) (actor reason : string)
| OpRecoverExpired (at_ : Time)
| OpBeginProviderRelease (e : ClaimEntry)
| OpFinishProviderRelease (e : ClaimEntry) (reason : Reason)
| OpBeginSharedAdmission (k : ClaimKey) (owner : Owner) (workflow : string)
| OpFinishSharedAdmission (e : ClaimEntry) (deadline : Time)
| OpBeginSharedRelease (e : ClaimEntry) (expiredAt : Time)
| OpRevokeSharedExecution (k : ClaimKey) (owner : Owner) (actor : string)
| OpRecordClaimVerification (e : ClaimEntry) (o : ClaimVerification)
| OpMigrateLegacyClaims (resolve : option (ClaimEntry -> resolution)).

Definition apply_op (env : Env) (o : op) (l : ClaimLedger) : ClaimLedger :=
  match o with
  | OpClaim i r w d => (Claim env i r w d l).1
  | OpClaimScoped k r w d => (ClaimScoped env k r w d l).1
  | OpClaimScopedUntil k r w d ow => (ClaimScopedUntil env k r w d ow l).1
  | OpReclaimAll es r w d => (ReclaimAll env es r w d l).1
  | OpRenewEntry e d => (RenewEntry env e d l).1
  | OpRelease i r rs => (LedgerRelease env i r rs l).1
  | OpReleaseScoped k r rs => (ReleaseScoped env k r rs l).1
  | OpReleaseSharedScoped k ow rs => (ReleaseSharedScoped env k ow rs l).1
  | OpReleaseEntry e r rs => (ReleaseEntry env e r rs l).1
  | OpForceRelease i => (ForceRelease env i l).1
  | OpForceReleaseShared k a ow => (forceRelease env k a ow "" l).1
  | OpForceReleaseEntry e a => (ForceReleaseEntry env e a l).1
  | OpForceReleasePublicationEntry e a rs => (ForceReleasePublicationEntry env e a rs l).1
  | OpRecoverExpired t => (RecoverExpired env t l).1
  | OpBeginProviderRelease e => (BeginProviderRelease env e l).1
  | OpFinishProviderRelease e rs => (FinishProviderRelease env e rs l).1
  | OpBeginSharedAdmission k ow w => (BeginSharedAdmission env k ow w l).1
  | OpFinishSharedAdmission e d => (FinishSharedAdmission env e d l).1
  | OpBeginSharedRelease e t => (BeginSharedRelease env e t l).1
  | OpRevokeSharedExecution k ow a => (RevokeSharedExecution env k ow a l).1
  | OpRecordClaimVerification e v => (RecordClaimVerification env e v l).1
  | OpMigrateLegacyClaims f => (MigrateLegacyClaims env f l).1
  end.

Definition finishing (o : op) : bool :=
  match o with OpFinishProviderRelease _ _ => true | _ => false end.

Definition migrating (o : op) : bool :=
  match o with OpMigrateLegacyClaims _ => true | _ => false end.

(** What an operation relies on: the deadlines it stores fit the coordination
    record, the clock is not at Go's zero time, and no run whose item-only entry
    migrates was revoked at the key it migrates to. *)
Definition op_ok (env : Env) (o : op) (l : ClaimLedger) : Prop :=
  match o with
  | OpBeginSharedAdmission _ _ _ => now env <> 0
  | OpFinishSharedAdmission _ d => encodable d
  | OpRevokeSharedExecution _ _ _ => encodable (now env)
  | OpMigrateLegacyClaims f => moves_no_revoked f l
  | _ => True
  end.

(** One step of a ledger's life: an operation, or a restart from a file whose
    strings are valid UTF-8. *)
Definition op_step (l l' : ClaimLedger) : Prop := exists env o, op_ok env o l /\ l' = apply_op env o l.
Inductive step : ClaimLedger -> ClaimLedger -> Prop :=
| step_op l l' : op_step l l' -> step l l'
| step_restart now l l' : text_file (file l) -> load now (file l) (log l) = Ok l' -> step l l'.

Definition emptyLedger (g : option (list Event)) : ClaimLedger := mkLedger ∅ ∅ (∅, ∅) g [].
Definition reachable (l : ClaimLedger) : Prop := exists g, rtc step (emptyLedger g) l.

Lemma apply_op_refines env o l :
  core_inv (core l) -> op_ok env o l -> migrating o = false -> refines env (finishing o) l (apply_op env o l).
Proof.
  intros Hinv Hok Hm. destruct o; cbn [apply_op finishing op_ok migrating] in *; try done;
    match goal with |- refines _ _ _ (fst ?x) => destruct x as [l' r] eqn:E; cbn [fst] end;
    eauto using Claim_refines, ClaimScoped_refines, ClaimScopedUntil_refines, ReclaimAll_refines,
      RenewEntry_refines, release_refines, ReleaseScoped_refines, ReleaseSharedScoped_refines,
      ReleaseEntry_refines, ForceReleaseEntry_refines, ForceReleasePublicationEntry_refines, forceRelease_refines,
      RecoverExpired_refines, beginProviderRelease_refines, FinishProviderRelease_refines,
      BeginSharedAdmission_refines, FinishSharedAdmission_refines, BeginSharedRelease_refines,
      RecordClaimVerification_refines.
  unfold RevokeSharedExecution in E. destruct (storageKey k); [|injection E as <- <-].
  - eapply revokeSharedExecution_refines; eauto.
  - apply refines_refl.
Qed.

(** What an operation does to the register: edits, or the moves of a migration. *)
Definition transacts (env : Env) (o : op) (l l' : ClaimLedger) : Prop :=
  if migrating o then migrates env l l' else refines env (finishing o) l l'.

Lemma apply_op_transacts env o l : core_inv (core l) -> op_ok env o l -> transacts env o l (apply_op env o l).
Proof.
  intros Hinv Hok. unfold transacts. destruct (migrating o) eqn:Hm; [|by apply apply_op_refines].
  destruct o; try done. cbn. destruct (MigrateLegacyClaims env resolve l) as [l' r] eqn:E.
  apply MigrateLegacyClaims_moves in E as (ms & H1 & H2 & _). by exists ms.
Qed.

(** The maps an operation aims at: they satisfy the invariant and forget no
    revocation. *)
Lemma apply_op_target env o l :
  core_inv (core l) -> op_ok env o l ->
  exists c, core_inv c /\ (forall r k, revoked_at (core l) r k -> revoked_at c r k) /\ txn_to env l c (apply_op env o l).
Proof.
  intros Hinv Hok. destruct (migrating o) eqn:Hm.
  - destruct o; try done. cbn in *. destruct (MigrateLegacyClaims env resolve l) as [l' r] eqn:E.
    apply MigrateLegacyClaims_moves in E as (ms & H1 & H2 & H3).
    exists (move_entries (core l) ms). split; [|done]. apply move_entries_core_inv; auto.
  - destruct (apply_op_refines env o l Hinv Hok Hm) as (eds & Heds & _ & Ht).
    exists (apply_edits (core l) eds). split; [by eapply apply_edits_inv|]. split; [|done].
    intros r k. by eapply apply_edits_revoked.
Qed.

(** ** Restarting *)

Lemma first_error_None {A} (check : A -> option ledger_error) xs :
  first_error check xs = None <-> forall x, x ∈ xs -> check x = None.
Proof.
  induction xs as [|x xs IH]; cbn; [set_solver|]. destruct (check x) eqn:E.
  - split; [done|]. intros H. rewrite <- E. apply H. left.
  - rewrite IH. split; [|set_solver]. intros H y [->|Hy]%elem_of_cons; auto.
Qed.

Lemma validateSharedClaims_None m h :
  validateSharedClaims m h = None <->
  (forall k e, m !! k = Some e -> validateSharedClaimEntry k e = None)
  /\ (forall r k e, hist_lookup h r k = Some e -> validate_history_entry r (k, e) = None).
Proof.
  assert (Hm : first_error (fun p => validateSharedClaimEntry p.1 p.2) (map_to_list m) = None
      <-> forall k e, m !! k = Some e -> validateSharedClaimEntry k e = None).
  { rewrite first_error_None. split.
    - intros H k e Hk. apply (H (k, e)), elem_of_map_to_list, Hk.
    - intros H [k e] Hin%elem_of_map_to_list. auto. }
  assert (Hh : first_error (fun p => first_error (validate_history_entry p.1) (map_to_list p.2))
                 (map_to_list h) = None
      <-> forall r k e, hist_lookup h r k = Some e -> validate_history_entry r (k, e) = None).
  { rewrite first_error_None. unfold hist_lookup. split.
    - intros H r k e (inner & Hi & Hk)%bind_Some.
      specialize (H (r, inner) (proj2 (elem_of_map_to_list h r inner) Hi)); cbn in H.
      apply (proj1 (first_error_None _ _) H (k, e)), elem_of_map_to_list, Hk.
    - intros H [r inner] Hi%elem_of_map_to_list. apply first_error_None.
      intros [k e] Hk%elem_of_map_to_list. apply (H r k e). cbn. rewrite Hi. done. }
  unfold validateSharedClaims. rewrite <- Hm, <- Hh. destruct (first_error _ _); naive_solver.
Qed.

Lemma fill_ids_valid k e :
  validateSharedClaimEntry k e = None -> validateSharedClaimEntry k (fill_ids k e) = None.
Proof.
  unfold validateSharedClaimEntry, fill_ids. cbn [set_ids SharedOwner SharedDeadline
    SharedAdmissionPending RunID Gaggle Provider ExternalID ItemID ExpiresAt].
  destruct (owner_eqb _ _ && _); [done|]. destruct (_ || _); [done|].
  destruct (storageKey _) as [sk|] eqn:Hs; [|done].
  destruct (_ || _) eqn:Hg in |- *; [done|]. apply orb_false_iff in Hg as [Hk Hi].
  apply negb_false_iff, String.eqb_eq in Hi. rewrite Hi.
  assert (Hne : (ExternalID e =? "")%string = false).
  { unfold storageKey in Hs; cbn in Hs. destruct (_ || _) eqn:E in Hs; [done|].
    apply orb_false_iff in E as [_ E]. done. }
  rewrite Hne, Hs, Hk, String.eqb_refl. done.
Qed.

Lemma load_ok now f g :
  core_inv f -> text_file f ->
  exists l', load now f g = Ok l' /\ file l' = f
    /\ core l' = retained now (map_imap (fun k e => Some (fill_ids k e)) f.1, f.2)
    /\ core_inv (core l').
Proof.
  intros Hinv Htext. unfold load. rewrite (read_back_text f Htext).
  assert (Hfill : core_inv (map_imap (fun k e => Some (fill_ids k e)) f.1, f.2)).
  { split; cbn.
    - intros k e. rewrite map_lookup_imap. intros (e0 & H0 & [= <-])%bind_Some.
      apply fill_ids_valid. eapply inv_entries; eauto.
    - apply (inv_history _ Hinv).
    - intros k e p. rewrite map_lookup_imap. intros (e0 & H0 & [= <-])%bind_Some.
      apply (inv_revoked _ Hinv k e0 p H0).
    - intros k e. rewrite map_lookup_imap. intros (e0 & H0 & [= <-])%bind_Some.
      apply (inv_remembered _ Hinv k e0 H0). }
  rewrite (proj2 (validateSharedClaims_None _ _)).
  - eexists. split; [reflexivity|]. split; [done|]. split; [done|].
    apply (retained_inv now _ Hfill).
  - split; [apply (inv_entries _ Hfill) | apply (inv_history _ Hfill)].
Qed.

Lemma step_inv l l' : ledger_inv l -> step l l' -> ledger_inv l'.
Proof.
  intros Hi Hs. destruct Hs as [l l' (env & o & Hok & ->) | t l l' Htext Hl].
  - destruct (apply_op_target env o l (inv_memory _ Hi) Hok) as (c & Hc & Hkeep & Ht).
    by eapply txn_to_inv.
  - destruct (load_ok t (file l) (log l) (inv_file _ Hi) Htext) as (l2 & Hl2 & Hfile & Hc2 & Hinv2).
    assert (l2 = l') as -> by congruence. split; [done | rewrite Hfile; apply Hi|].
    intros r k. rewrite Hfile, Hc2. apply retained_revoked.
Qed.

Lemma steps_inv l l' : ledger_inv l -> rtc step l l' -> ledger_inv l'.
Proof. intros Hi Hs. induction Hs; eauto using step_inv. Qed.

Lemma reachable_inv l : reachable l -> ledger_inv l.
Proof.
  intros [g Hs]. eapply steps_inv; [|exact Hs].
  assert (core_inv (∅, ∅)).
  { split; cbn; intros *; unfold hist_lookup; rewrite ?lookup_empty; done. }
  split; [done | done | tauto].
Qed.


(** The entry at one key across an operation: unchanged, edited, moved away, or
    moved to a key that was free. *)
Lemma apply_op_lookup env o l k :
  core_inv (core l) -> op_ok env o l ->
  entries (apply_op env o l) !! k = entries l !! k
  \/ (exists ed, edit_ok (now env) (finishing o) (entries l !! k) (past (core l) k) ed
       /\ entries (apply_op env o l) !! k = match ed with Put _ e => Some e | Drop _ _ => None end)
  \/ migrating o = true /\ (entries l !! k = None
       \/ exists e, entries l !! k = Some e /\ is_legacy e = true /\ entries (apply_op env o l) !! k = None).
Proof.
  intros Hc Hok. pose proof (apply_op_transacts env o l Hc Hok) as Ht. unfold transacts in Ht.
  destruct (migrating o) eqn:Hm.
  - destruct Ht as (ms & Hms & Ht). remember (move_entries (core l) ms) as c eqn:Ec.
    remember (apply_op env o l) as l' eqn:El. destruct Ht as [l' Hcore _|c l' _ Hcore _|c l' _ He _ _|c l' _ He _ _].
    1: left; exact (f_equal (fun c => c.1 !! k) Hcore).
    2, 3: left; by rewrite He.
    pose proof (f_equal fst Hcore : entries l' = _) as He. rewrite He. subst c. cbn [retained fst].
    destruct (move_entries_lookup (core l) ms k Hms) as (H1 & H2 & H3).
    destruct Hms as [Hms _]. rewrite Forall_forall in Hms.
    destruct (decide (k ∈ map mg_scopedKey ms)) as [(mg & -> & Hin)%list_elem_of_fmap|Hs].
    { right. right. split; [done|]. left. by destruct (Hms mg Hin) as (e & g & p & _ & _ & _ & _ & Hnone). }
    destruct (decide (k ∈ map mg_legacyKey ms)) as [(mg & -> & Hin)%list_elem_of_fmap|Hl]; [|left; by apply H3].
    right. right. split; [done|]. right. destruct (Hms mg Hin) as (e & g & p & Hk & Hleg & _).
    exists e. split; [done|]. split; [done|]. by apply (H2 mg).
  - destruct Ht as (eds & Heds & Hnd & Ht). unfold txn in Ht. remember (apply_edits (core l) eds) as c eqn:Ec.
    remember (apply_op env o l) as l' eqn:El. destruct Ht as [l' Hcore _|c l' _ Hcore _|c l' _ He _ _|c l' _ He _ _].
    1: left; exact (f_equal (fun c => c.1 !! k) Hcore).
    2, 3: left; by rewrite He.
    pose proof (f_equal fst Hcore : entries l' = _) as He. rewrite He. subst c. cbn [retained fst].
    destruct (apply_edits_lookup _ _ _ _ k Hnd Heds) as [H|(ed & Hed & _ & H)]; eauto.
Qed.

(** ** Composed operations *)

(** [RenewRuns] is a sequence of operations. *)
Lemma renew_runs_steps envs live dur es : forall i l, rtc op_step l (renew_runs envs i live dur es l).1.
Proof.
  induction es as [|e es IH]; intros i l; cbn [renew_runs]; [apply rtc_refl|].
  destruct (negb (live (RunID e))); [apply IH|].
  assert (Hs : op_step l (RenewEntry (envs i) e dur l).1) by (by exists (envs i), (OpRenewEntry e dur)).
  destruct (RenewEntry (envs i) e dur l) as [l1 [ok|err]]; cbn [fst] in Hs; [|by apply rtc_once].
  eapply rtc_l; [exact Hs|]. specialize (IH (S i) l1).
  by destruct (renew_runs envs (S i) live dur es l1) as [l2 [renewed err]].
Qed.

Section coordinated.
Context {W : Type} {ST : Store W} {CX : Cancellation W}.

(** So are the calls that coordinate with a provider. *)
Lemma ClaimSharedScoped_steps clock env (w : W) remoteKey k owner workflow ttl l :
  rtc op_step l (ClaimSharedScoped clock env w remoteKey k owner workflow ttl l).1.2.
Proof.
  unfold ClaimSharedScoped. destruct (storageKey k); [|apply rtc_refl]. destruct (SharedRevoked _); [apply rtc_refl|].
  destruct (acquireUntil _ _ _ _ _) as [w1 [deadline|e]]; [|apply rtc_refl].
  assert (Hs : op_step l (ClaimScopedUntil env k (Run owner) workflow deadline owner l).1)
    by (by exists env, (OpClaimScopedUntil k (Run owner) workflow deadline owner)).
  destruct (ClaimScopedUntil _ _ _ _ _ _ _) as [l1 r1]. apply rtc_once. by split_ifs; repeat case_match.
Qed.

Lemma ReleaseCoordinatedShared_steps env (w : W) remoteKey k owner reason l :
  rtc op_step l (ReleaseCoordinatedShared env w remoteKey k owner reason l).1.2.
Proof.
  unfold ReleaseCoordinatedShared. destruct (storageKey k); [|apply rtc_refl].
  destruct (releaseSharedCustody _ _ _) as [w1 [e|]]; [apply rtc_refl|].
  assert (Hs : op_step l (ReleaseSharedScoped env k owner reason l).1) by (by exists env, (OpReleaseSharedScoped k owner reason)).
  destruct (ReleaseSharedScoped _ _ _ _ _). by apply rtc_once.
Qed.

Lemma ForceReleaseCoordinatedShared_steps env1 env2 (w : W) remoteKey k owner actor l :
  encodable (now env1) ->
  rtc op_step l (ForceReleaseCoordinatedShared env1 env2 w remoteKey k owner actor l).1.2.
Proof.
  intros Henc. unfold ForceReleaseCoordinatedShared. destruct (storageKey k) as [key|] eqn:Hk; [|apply rtc_refl].
  assert (Hs : op_step l (revokeSharedExecution env1 key owner actor l).1).
  { exists env1, (OpRevokeSharedExecution k owner actor). split; [exact Henc|]. cbn. unfold RevokeSharedExecution. by rewrite Hk. }
  destruct (revokeSharedExecution _ _ _ _ _) as [l1 [[|]|e]]; [|by apply rtc_once..].
  destruct (releaseSharedCustody _ _ _) as [w1 [e|]]; [by apply rtc_once|].
  assert (Hs2 : op_step l1 (forceRelease env2 key actor owner "" l1).1) by (by exists env2, (OpForceReleaseShared key actor owner)).
  destruct (forceRelease _ _ _ _ _ _) as [l2 r2]. eapply rtc_l; [exact Hs|]. by apply rtc_once.
Qed.
End coordinated.

(** ** Properties of every reachable ledger *)

(** C1: every operation of a reachable ledger that writes, whatever its guards
    decide and whatever the disk does, performs one atomic transaction, all of it
    durable or none of it visible in memory: of edits that the specification
    allows, or, for the migration of item-only keys, of moves of entries to free
    scoped keys of their items that leave the history alone.  The operations that
    renew all runs, and those that coordinate a claim, a release or a forced
    release with a provider, are sequences of such operations.  (The conditions
    are those of [op_ok]: a clock that is not Go's zero time for an admission,
    deadlines and revocation times the coordination record can hold, and no
    migrated run revoked at its new key.) *)
Theorem ledger_operations_are_transactions l :
  reachable l ->
  (forall env o, op_ok env o l ->
     if migrating o
     then exists ms, moves_ok (core l) ms /\ txn_to env l (move_entries (core l) ms) (apply_op env o l)
     else exists eds, edits_ok (now env) (finishing o) (core l) eds /\ NoDup (map edit_key eds)
            /\ txn env l eds (apply_op env o l))
  /\ (forall envs live lease, rtc op_step l (RenewRuns envs live lease l).1)
  /\ forall (W : Type) (ST : Store W) (CX : Cancellation W) (w : W) env1 env2 remoteKey k owner,
       (forall clock workflow ttl, rtc op_step l (ClaimSharedScoped clock env1 w remoteKey k owner workflow ttl l).1.2)
       /\ (forall reason, rtc op_step l (ReleaseCoordinatedShared env1 w remoteKey k owner reason l).1.2)
       /\ (forall actor, encodable (now env1) ->
             rtc op_step l (ForceReleaseCoordinatedShared env1 env2 w remoteKey k owner actor l).1.2).
Proof.
  intros Hr. split; [intros env o; apply apply_op_transacts, (reachable_inv l Hr)|].
  split; [intros envs live lease; apply renew_runs_steps|].
  intros W ST CX w env1 env2 remoteKey k owner.
  split; [|split]; intros *; [apply ClaimSharedScoped_steps|apply ReleaseCoordinatedShared_steps|].
  apply ForceReleaseCoordinatedShared_steps.
Qed.


(** C2: a live lease is exclusive: while it runs, no operation hands its item
    to another run, and a live shared owner keeps it. *)
Theorem live_lease_is_exclusive env o l k c e :
  reachable l -> op_ok env o l ->
  entries l !! k = Some c -> expired c (now env) = false ->
  entries (apply_op env o l) !! k = Some e ->
  RunID e = RunID c /\ (SharedOwner c <> noOwner -> SharedOwner e = SharedOwner c).
Proof.
  intros Hr Hok Hc Hlive He.
  destruct (apply_op_lookup env o l k (inv_memory _ (reachable_inv l Hr)) Hok)
    as [Heq|[(ed & Hed & Heq)|(_ & [Hn|(e0 & _ & _ & Hn)])]]; [| |congruence..]; rewrite He, ?Hc in Heq; [naive_solver|].
  inversion Hed as [k' e' _ Hsteal Hown _ _|]; subst; [|done]. injection Heq as ->.
  split; [|auto]. destruct (decide (RunID e' = RunID c)) as [|Hne]; [done|].
  destruct (Hsteal c) as [Hexp _]; [done | congruence | congruence].
Qed.

(** Once a provider release is pending, only its finishing half ends it:
    every other operation leaves the entry there, pending, with its run. *)
Theorem pending_release_is_kept env o l k c :
  reachable l -> op_ok env o l -> finishing o = false ->
  entries l !! k = Some c -> ReleasePending c = true ->
  exists e, entries (apply_op env o l) !! k = Some e
    /\ ReleasePending e = true /\ RunID e = RunID c.
Proof.
  intros Hr Hok Hf Hc Hp.
  destruct (apply_op_lookup env o l k (inv_memory _ (reachable_inv l Hr)) Hok)
    as [Heq|[(ed & Hed & Heq)|(_ & [Hn|(e0 & He0 & Hleg & _)])]]; [rewrite Heq; eauto| |congruence|].
  2: { rewrite Hc in He0. injection He0 as <-. unfold is_legacy, transitionPending in Hleg. rewrite Hp in Hleg.
       by rewrite andb_false_r in Hleg. }
  rewrite Heq, Hc, Hf in *.
  inversion Hed as [k' e' _ _ _ Hkeep _|k' c' at_ rs Hcur Hpend _]; subst.
  - eexists. split; [done|]. apply (Hkeep c); done.
  - injection Hcur as <-. specialize (Hpend eq_refl). unfold transitionPending in Hpend.
    rewrite Hp in Hpend. done.
Qed.

(** A failed write is invisible: when the disk refuses the write, the
    entries, every history lookup and the file are what they were. *)
Theorem failed_write_is_invisible env o l :
  reachable l -> op_ok env o l -> write env = WriteFailed ->
  entries (apply_op env o l) = entries l
  /\ hequiv (history (apply_op env o l)) (history l)
  /\ file (apply_op env o l) = file l.
Proof.
  intros Hr Hok Hw.
  destruct (apply_op_target env o l (inv_memory _ (reachable_inv l Hr)) Hok) as (c & _ & _ & Ht).
  inversion Ht as [l' Hcore Hfile| | |]; subst; try congruence; [|done].
  unfold core in Hcore. injection Hcore as -> ->. done.
Qed.



End life.

(** ** The properties at work

    A sanitizer and a record format for the examples, and a ledger in which
    [run-a] of instance [inst-a] holds an issue through a shared lease. *)
Definition plain_sanitizer : Sanitizer := fun s => s.
Definition flat_codec : RecordCodec := {|
  marshal _ _ _ := Some [];
  unmarshal _ := None;
  only_space _ := true;
|}.

Module LedgerExample.
#[local] Existing Instance plain_sanitizer.
#[local] Existing Instance flat_codec.

Definition issue : ClaimKey := mkKey "web" "github" "issue:7".
Definition issue_key : string := "v2|web|github|issue%3A7".
Definition at_time (t : Time) (w : write_outcome) : Env := mkEnv t t w true.
Definition fresh : ClaimLedger := emptyLedger (Some []).
Definition shared_claim : op := OpClaimScopedUntil issue "run-a" "implement" 5000 ownerA.
Definition held : ClaimLedger := apply_op (at_time 1000 WriteOk) shared_claim fresh.
Definition held_entry : ClaimEntry := default zeroEntry (entries held !! issue_key).
Definition pending : ClaimLedger :=
  apply_op (at_time 2000 WriteOk) (OpBeginSharedRelease held_entry 0) held.
Definition pending_entry : ClaimEntry := default zeroEntry (entries pending !! issue_key).
Definition rival_claim : op := OpClaimScoped issue "run-b" "implement" hour.


Lemma op_step_intro env o l : op_ok env o l -> step l (apply_op env o l).
Proof. intros Hok. apply step_op. by exists env, o. Qed.

Lemma fresh_reachable : reachable fresh.
Proof. exists (Some []). apply rtc_refl. Qed.
Lemma held_reachable : reachable held.
Proof. exists (Some []). apply rtc_once, op_step_intro. exact I. Qed.
Lemma pending_reachable : reachable pending.
Proof.
  exists (Some []). eapply rtc_l; [apply (op_step_intro (at_time 1000 WriteOk) shared_claim); exact I|].
  apply rtc_once. apply op_step_intro. exact I.
Qed.

(** A ledger with an item-only entry, and its migration. *)
Definition item_only : ClaimLedger := apply_op (at_time 1000 WriteOk) (OpClaim "issue:7" "run-a" "implement" hour) fresh.
Definition to_web : option (ClaimEntry -> resolution) := Some (fun _ => Resolved "web" "github").
Lemma item_only_reachable : reachable item_only.
Proof. exists (Some []). apply rtc_once, op_step_intro. exact I. Qed.

Lemma ledger_operations_are_transactions_witness :
  reachable item_only /\ op_ok (at_time 2000 WriteOk) (OpMigrateLegacyClaims to_web) item_only /\
  (exists ms, moves_ok (core item_only) ms /\ txn_to (at_time 2000 WriteOk) item_only (move_entries (core item_only) ms)
     (apply_op (at_time 2000 WriteOk) (OpMigrateLegacyClaims to_web) item_only)) /\
  exists eds, edits_ok 1000 false (core item_only) eds /\ NoDup (map edit_key eds)
    /\ txn (at_time 1000 WriteOk) item_only eds (apply_op (at_time 1000 WriteOk) shared_claim item_only).
Proof.
  assert (Hok : op_ok (at_time 2000 WriteOk) (OpMigrateLegacyClaims to_web) item_only).
  { intros f k e gaggle provider scoped [= <-] _ _ [= <- <-] Hkey (p & Hp & _). revert Hp Hkey.
    unfold hist_lookup, storageKey. cbn [core snd key_Gaggle key_Provider key_ExternalID].
    replace (history item_only) with ({[ "run-a" := {[ "issue:7" := default zeroEntry (entries item_only !! "issue:7") ]} ]} : History)
      by (vm_compute; reflexivity).
    intros (inner & Hi & Hk)%bind_Some. apply lookup_singleton_Some in Hi as [_ <-].
    apply lookup_singleton_Some in Hk as [<- _]. destruct (_ || _); discriminate. }
  split; [apply item_only_reachable|]. split; [exact Hok|]. split.
  - apply (proj1 (ledger_operations_are_transactions item_only item_only_reachable) (at_time 2000 WriteOk)
      (OpMigrateLegacyClaims to_web) Hok).
  - apply (proj1 (ledger_operations_are_transactions item_only item_only_reachable) (at_time 1000 WriteOk) shared_claim I).
Defined.



Lemma live_lease_is_exclusive_witness :
  entries held !! issue_key = Some held_entry /\ expired held_entry 1500 = false
  /\ (ClaimScoped (at_time 1500 WriteOk) issue "run-b" "implement" hour held).2
     = Ok (false, "run-a")
  /\ RunID held_entry = "run-a".
Proof.
  split; [vm_compute; reflexivity|]. split; [vm_compute; reflexivity|].
  split; [vm_compute; reflexivity|].
  apply (live_lease_is_exclusive (at_time 1500 WriteOk) rival_claim held issue_key
           held_entry held_entry); [apply held_reachable | exact I | vm_compute; reflexivity..].
Defined.

Lemma pending_release_is_kept_witness :
  ReleasePending pending_entry = true /\
  exists e, entries (apply_op (at_time 9000 WriteOk) rival_claim pending) !! issue_key = Some e
    /\ ReleasePending e = true /\ RunID e = "run-a".
Proof.
  split; [vm_compute; reflexivity|].
  apply (pending_release_is_kept (at_time 9000 WriteOk) rival_claim pending issue_key pending_entry);
    [apply pending_reachable | exact I | reflexivity | vm_compute; reflexivity..].
Defined.

Lemma failed_write_is_invisible_witness :
  (Claim (at_time 1000 WriteFailed) "issue:9" "run-b" "implement" hour held).2 = Error ErrPersist
  /\ let l' := apply_op (at_time 1000 WriteFailed) (OpClaim "issue:9" "run-b" "implement" hour) held in
     entries l' = entries held /\ hequiv (history l') (history held) /\ file l' = file held.
Proof.
  split; [vm_compute; reflexivity|].
  apply (failed_write_is_invisible (at_time 1000 WriteFailed)
           (OpClaim "issue:9" "run-b" "implement" hour) held);
    [apply held_reachable | exact I | reflexivity].
Defined.

Definition revoked : ClaimLedger * result ledger_error bool :=
  RevokeSharedExecution (at_time 2000 WriteOk) issue ownerA "operator" held.


(** Why [op_ok] asks that of a migration.  The run is revoked on the issue and the
    issue is released by force; the run then takes the item-only key, which the
    revocation does not cover, and the migration moves that entry to the scoped
    key without a look at the history.  Once it is released the history no longer
    knows of the revocation, and the run is granted the issue again. *)
Definition regained : ClaimLedger :=
  foldl (fun l o => apply_op (at_time 3000 WriteOk) o l) revoked.1
    [OpForceReleaseShared issue_key "operator" ownerA; OpClaim "issue:7" "run-a" "implement" hour;
     OpMigrateLegacyClaims to_web; OpReleaseScoped issue "run-a" (DispositionReason Completed)].

Theorem migration_forgets_revocation :
  (ClaimScoped (at_time 4000 WriteOk) issue "run-a" "implement" hour revoked.1).2 = Error ErrRevoked
  /\ (ClaimScoped (at_time 4000 WriteOk) issue "run-a" "implement" hour regained).2 = Ok (true, "run-a").
Proof. split; vm_compute; reflexivity. Qed.

(** Why a restart asks for valid UTF-8: the byte 255 in a gaggle reads back as
    U+FFFD, which the storage key does not agree with. *)
Definition raw_key : ClaimKey := mkKey (of_bytes [119; 255]%N) "github" "issue:7".
Example invalid_text_does_not_reload :
  let l := apply_op (at_time 1000 WriteOk) (OpClaimScopedUntil raw_key "run-a" "implement" 5000 ownerA) fresh in
  load 2000 (file l) (log l) = Error ErrSharedKeyMismatch.
Proof. vm_compute. reflexivity. Qed.
End LedgerExample.
