(* ===== verification/ClaimLedgerFunctional.v ===== *)
(** * What each ledger operation computes

    The functional behaviour of the main operations: what a granted claim
    leaves behind, when a claim must be granted, what the sweep reaps, what a
    batch reclaim takes, and the keys they agree on. *)

From S2P Require Export ClaimLedgerProps.
Local Open Scope string_scope.
Local Open Scope list_scope.
Local Open Scope Z_scope.

(** ** Keys *)

(** Two namespaced keys share a ledger slot only when they are the same
    key: escaping keeps gaggle, provider and item apart whatever characters
    they contain. *)
Theorem storageKey_injective (k1 k2 : ClaimKey) (s : string) :
  storageKey k1 = Ok s -> storageKey k2 = Ok s -> k1 = k2.
Proof.
  unfold storageKey. destruct k1 as [g1 p1 x1], k2 as [g2 p2 x2]; cbn.
  destruct (_ || _); [done|]. destruct (_ || _); [done|].
  intros [= <-] [= H]. apply (f_equal bytes) in H. rewrite !bytes_app in H. cbn in H.
  destruct (bytes_QueryEscape g1) as [_ Hg1], (bytes_QueryEscape g2) as [_ Hg2],
    (bytes_QueryEscape p1) as [_ Hp1], (bytes_QueryEscape p2) as [_ Hp2].
  apply split_at_separator in H as [Hg H]; [|done..].
  apply split_at_separator in H as [Hp H]; [|done..].
  apply bytes_inj, QueryEscape_inj in Hg, Hp, H. congruence.
Qed.

Lemma storageKey_injective_witness :
  storageKey (mkKey "a|b" "c" "d") = Ok "v2|a%7Cb|c|d" /\ mkKey "a|b" "c" "d" = mkKey "a|b" "c" "d".
Proof.
  split; [vm_compute; reflexivity|].
  apply (storageKey_injective _ _ "v2|a%7Cb|c|d"); vm_compute; reflexivity.
Defined.

(** ** Claims *)

Section claims.
Context {San : Sanitizer} {Cod : RecordCodec}.

Lemma run_active_lookup (m : Entries) k e : m !! k = Some e -> run_active m (RunID e) = true.
Proof.
  intros H. unfold run_active. apply existsb_exists. exists (k, e). cbn.
  split; [apply list_elem_of_In, elem_of_map_to_list, H | apply String.eqb_refl].
Qed.

(** The history of a run with an active entry is kept whole. *)
Lemma retained_active now c k e r key :
  c.1 !! k = Some e -> RunID e = r ->
  hist_lookup (retained now c).2 r key = hist_lookup c.2 r key.
Proof.
  intros He <-. unfold hist_lookup; cbn. rewrite map_lookup_imap.
  destruct (c.2 !! RunID e) as [inner|]; [|done]. cbn. unfold retain_run.
  rewrite (run_active_lookup _ _ _ He). done.
Qed.

(** What a successful [storeClaim] leaves behind. *)
Lemma storeClaim_ok env key entry l l' :
  storeClaim env key entry l = (l', true) ->
  entries l' = <[key := entry]> (entries l) /\ file l' = core l'
  /\ historyEntry l' (RunID entry) key = Some entry.
Proof.
  unfold storeClaim. destruct (persist env _) as [l3 ok] eqn:Hp. destruct ok; [|done].
  intros [= <-]. apply persist_spec in Hp.
  destruct (write env); destruct Hp as [? Hp]; try done. destruct Hp as [Hc Hf].
  unfold journal. rewrite appendEvent_file, appendEvent_core, Hf.
  pose proof (f_equal fst (appendEvent_core env EventClaimAcquired entry (claimRunner entry) None l3)
    : entries _ = entries l3) as ->.
  pose proof (f_equal fst Hc : entries l3 = <[key := entry]> (entries l)) as ->.
  split; [done|]. split; [done|]. unfold historyEntry.
  pose proof (f_equal snd (appendEvent_core env EventClaimAcquired entry (claimRunner entry) None l3)
    : history _ = history l3) as ->.
  pose proof (f_equal snd Hc : history l3 = (retained _ _).2) as ->.
  rewrite (retained_active _ _ key entry) by (cbn; rewrite ?lookup_insert_eq; done).
  cbn. rewrite hist_lookup_insert, bool_decide_eq_true_2; done.
Qed.

Lemma claim_granted env key legacyKey k runID workflow dur deadline owner l l' h :
  claim env key legacyKey k runID workflow dur deadline owner l = (l', Ok (true, h)) ->
  let expires := if IsZero deadline then now env + dur else deadline in
  let e := continueLease (entries l !! key)
             (grantEntry k runID workflow (now env) expires deadline owner) (now env) in
  h = runID /\ now env < expires /\ entries l' = <[key := e]> (entries l)
  /\ file l' = core l' /\ historyEntry l' runID key = Some e.
Proof.
  unfold claim. destruct (_ && _) eqn:Hd in |- *; [done|].
  destruct (negb (After _ _)) eqn:Hexp; [done|]. apply negb_false_iff, After_true in Hexp.
  intros H.
  assert (Hk : claim_key env key k runID workflow (if IsZero deadline then now env + dur else deadline)
                 deadline owner l = (l', Ok (true, h))).
  { destruct (if negb _ then _ else _); [|done]. destruct (live_or_pending _ _); [done|exact H]. }
  clear H. unfold claim_key in Hk.
  do 4 (match type of Hk with (if ?b then _ else _) = _ => destruct b; [done|] end).
  destruct (storeClaim _ _ _ _) as [l1 ok] eqn:Hs. destruct ok; [|done]. injection Hk as <- <-.
  destruct (storeClaim_ok _ _ _ _ _ Hs) as (He & Hf & Hh).
  rewrite continueLease_RunID in Hh. cbn in Hh. auto 10.
Qed.

(** What a granted namespaced claim leaves behind: the caller is the
    holder, exactly one slot changed, its entry is the caller's and live until
    the full lease ran, the history has it, and the file equals memory. *)
Theorem granted_claim_is_recorded env k runID workflow dur l l' h :
  ClaimScoped env k runID workflow dur l = (l', Ok (true, h)) ->
  exists key e, storageKey k = Ok key /\ h = runID /\ 0 < dur
    /\ entries l' = <[key := e]> (entries l) /\ file l' = core l'
    /\ historyEntry l' runID key = Some e
    /\ RunID e = runID /\ Workflow e = workflow /\ SharedOwner e = noOwner
    /\ (forall t, expired e t = false <-> t < now env + dur).
Proof.
  unfold ClaimScoped. destruct (storageKey k) as [key|] eqn:Hk; [|done]. intros H.
  apply claim_granted in H as (Hh & Hexp & He & Hf & Hhist). cbn [IsZero Z.eqb] in *.
  set (e := continueLease _ _ _) in *. exists key, e.
  assert (He' : RunID e = runID /\ Workflow e = workflow /\ SharedOwner e = noOwner
                /\ ExpiresAt e = now env + dur).
  { unfold e, continueLease. repeat case_match; auto. }
  destruct He' as (H1 & H2 & H3 & H4). do 9 (split; [first [done | lia]|]).
  intros t. unfold expired. rewrite H4, negb_false_iff, After_true. done.
Qed.

(** An item nobody holds is granted: with a positive lease, a complete
    key, neither the namespaced nor the item-only slot taken, the run not
    revoked there and a working disk, [ClaimScoped] succeeds. *)
Theorem free_item_is_granted env k key runID workflow dur l :
  storageKey k = Ok key -> 0 < dur -> write env = WriteOk ->
  entries l !! key = None -> entries l !! key_ExternalID k = None ->
  (forall p, historyEntry l runID key = Some p -> SharedRevoked p = false) ->
  (ClaimScoped env k runID workflow dur l).2 = Ok (true, runID).
Proof.
  intros Hk Hd Hw Hfree Hlegacy Hrev. unfold ClaimScoped. rewrite Hk. unfold claim.
  rewrite (proj2 (Z.leb_gt dur 0)) by done. cbn [andb IsZero Z.eqb].
  replace (After (now env + dur) (now env)) with true by (symmetry; apply After_true; lia).
  cbn [negb]. rewrite Hlegacy.
  assert (Hck : (claim_key env key k runID workflow (now env + dur) 0 noOwner l).2
                = Ok (true, runID)); [|by destruct (negb _)].
  unfold claim_key. rewrite Hfree.
  assert (Hr : match historyEntry l runID key with Some h => SharedRevoked h | None => false end
               = false) by (destruct (historyEntry l runID key) eqn:E; auto).
  rewrite Hr. cbn. unfold storeClaim, persist. rewrite Hw. done.
Qed.
End claims.

(** ** The sweep and the batch *)

Section batches.
Context {San : Sanitizer} {Cod : RecordCodec}.

(** The recovery sweep reaps exactly the local leases that ran out and
    have no transition pending: they are gone and reported, every other entry
    (live, shared or mid-transition) is untouched. *)
Theorem sweep_reaps_exactly_expired env t l l' reaped :
  RecoverExpired env t l = (l', Ok reaped) ->
  (forall k, entries l' !! k =
     match entries l !! k with
     | Some e => if reapable t e then None else Some e
     | None => None
     end)
  /\ (forall e, e ∈ reaped <-> exists k, entries l !! k = Some e /\ reapable t e = true).
Proof.
  unfold RecoverExpired.
  pose proof (victims_distinct t (entries l)) as Hnd. pose proof (victim_elem t (entries l)) as Hel.
  destruct (filter _ _) as [|v vs] eqn:Hvs.
  - intros [= <- <-]. split.
    + intros k. destruct (entries l !! k) as [e|] eqn:E; [|done].
      destruct (reapable t e) eqn:Hr; [|done].
      exfalso. apply (not_elem_of_nil (k, e)), Hel. done.
    + intros e. split; [set_solver|]. intros (k & H%Hel). set_solver.
  - set (ps := v :: vs) in *. destruct (reap_all_spec t l ps Hnd) as (l1 & Hreap & Hcore & Hfile).
    rewrite Hreap. destruct (persist env l1) as [l2 ok] eqn:Hp. destruct ok; [|done].
    intros [= <- <-]. apply persist_spec in Hp.
    destruct (write env); destruct Hp as [? Hp]; try done. destruct Hp as [Hc _]. split.
    + intros k. set (lf := foldl _ _ _).
      assert (He : entries lf = entries l2).
      { apply (f_equal fst (x := core lf) (y := core l2)). unfold lf.
        rewrite foldl_core by (intros; apply appendEvent_core). apply appendEvent_core. }
      rewrite He. pose proof (f_equal fst Hc : entries l2 = (core l1).1) as ->.
      rewrite Hcore, reap_edits_entries. cbn [core fst]. case_bool_decide as Hin.
      * apply list_elem_of_fmap in Hin as ([k' e] & -> & Hin). apply Hel in Hin as [Hk Hre].
        cbn. rewrite Hk, Hre. done.
      * destruct (entries l !! k) as [e|] eqn:E; [|done]. destruct (reapable t e) eqn:Hr; [|done].
        destruct Hin. apply list_elem_of_fmap. exists (k, e). split; [done|]. by apply Hel.
    + intros e. change (v.2 :: _) with (map rc_entry (map (victim l) ps)).
      rewrite map_map. setoid_rewrite <- Hel. rewrite list_elem_of_fmap.
      split; [intros ([k e'] & -> & He); eauto | intros (k & He); exists (k, e); auto].
Qed.

Lemma reclaim_lookup previous runID workflow now dur c ps p :
  NoDup (map pl_storageKey ps) -> p ∈ ps ->
  (apply_edits c (map (reclaim_edit previous runID workflow now dur) ps)).1 !! pl_storageKey p
  = Some (reclaim_entry previous p runID workflow now dur).
Proof.
  revert c. induction ps as [|q ps IH]; intros c Hnd Hin; [set_solver|].
  inversion Hnd as [|? ? Hnot Hnd']; subst. cbn. apply elem_of_cons in Hin as [->|Hin]; [|auto].
  destruct (decide (pl_storageKey q ∈ map pl_storageKey ps)) as [|_]; [done|].
  assert (Hout : forall ps c, pl_storageKey q ∉ map pl_storageKey ps ->
    (apply_edits c (map (reclaim_edit previous runID workflow now dur) ps)).1 !! pl_storageKey q
    = c.1 !! pl_storageKey q).
  { clear. induction ps as [|r ps IH]; intros c Hn; cbn; [done|]. cbn in Hn.
    rewrite IH by set_solver. cbn. apply lookup_insert_ne. set_solver. }
  rewrite Hout by done. cbn. apply lookup_insert_eq.
Qed.

Lemma plan_entries_in seen es ps e p :
  plan_entries seen es = Ok ps -> e ∈ es -> plan_entry e = Ok (Some p) -> p ∈ ps.
Proof.
  revert seen ps. induction es as [|x es IH]; intros seen ps Hps Hin Hp; [set_solver|]. cbn in Hps.
  apply elem_of_cons in Hin as [->|Hin].
  - rewrite Hp in Hps. destruct (mem_string _ _); [done|].
    destruct (plan_entries _ es); [|done]. injection Hps as <-. left.
  - destruct (plan_entry x) as [[q|]|]; [| eauto | done]. destruct (mem_string _ _); [done|].
    destruct (plan_entries _ es) eqn:E; [|done]. injection Hps as <-. right. eauto.
Qed.

(** A batch reclaim is all or nothing: granted, every entry of the batch
    that is not custody of another kind is held by the run until the lease's
    end and the file agrees; otherwise no entry and no history lookup
    changed. *)
Theorem reclaim_is_all_or_nothing env es runID workflow dur l l' r :
  reachable l -> ReclaimAll env es runID workflow dur l = (l', r) ->
  match r with
  | Ok (true, h) =>
      h = runID /\ forall e p, e ∈ es -> plan_entry e = Ok (Some p) ->
        exists x, entries l' !! pl_storageKey p = Some x /\ RunID x = runID
          /\ ExpiresAt x = now env + dur
  | _ => entries l' = entries l /\ hequiv (history l') (history l)
  end.
Proof.
  intros Hr H. pose proof (ReclaimAll_refines env false _ _ _ _ _ _ _ (inv_memory _ (reachable_inv l Hr)) H)
    as (eds & _ & _ & Ht).
  unfold ReclaimAll in H.
  destruct (dur <=? 0); [injection H as <- <-; done|].
  destruct es as [|e0 es0]; [injection H as <- <-; split; [done|set_solver]|].
  destruct (plan_entries [] (e0 :: es0)) as [ps|] eqn:Hplan; [|injection H as <- <-; done].
  destruct (refusePlannedClaims _ _ _ _) as [[h|]|] eqn:Href;
    [injection H as <- <-; done| |injection H as <- <-; done].
  destruct (persist env _) as [l2 ok] eqn:Hp. apply persist_spec in Hp. destruct ok.
  - injection H as Hl <-. split; [done|]. intros e p Hin Hpe.
    destruct (write env); destruct Hp as [? Hp]; try done. destruct Hp as [Hc _].
    assert (He : entries l' = entries l2).
    { subst l'. set (lf := foldl _ _ _). apply (f_equal fst (x := core lf) (y := core l2)), foldl_core.
      intros. apply appendEvent_core. }
    pose proof (f_equal fst Hc : entries l2 = (core _).1) as He2.
    rewrite (proj1 (reclaim_steps _ _ _ _ _ _ _)) in He2.
    exists (reclaim_entry (entries l) p runID workflow (now env) dur).
    rewrite He, He2, reclaim_lookup.
    + split; [done|]. unfold reclaim_entry, continueLease. repeat case_match; done.
    + rewrite <- (sort_by_perm planned_le ps). apply (plan_entries_keys _ _ _ Hplan).
    + apply sort_by_elem. eapply plan_entries_in; eauto.
  - injection H as _ <-. destruct (write env) eqn:Hw; [by destruct Hp| |];
      inversion Ht as [l0 Hcore|? ? Hw'| |]; subst; try congruence; auto;
      unfold core in Hcore; injection Hcore as -> ->; done.
Qed.

(** A recorded observation is about the incarnation the observer saw, is
    not from the future, does not predate the claim, is strictly newer than
    the one it replaces, and changes nothing else of the ledger's entries. *)
Theorem verification_is_monotone env expected o l l' :
  RecordClaimVerification env expected o l = (l', Ok true) ->
  exists key c, claimEntryStorageKey expected = Ok key /\ entries l !! key = Some c
    /\ entries l' = <[key := set_verification c o]> (entries l)
    /\ RunID c = RunID expected /\ ClaimedAt c = ClaimedAt expected
    /\ now env < ExpiresAt c
    /\ ClaimedAt c <= ver_ObservedAt o <= now env
    /\ (ver_ObservedAt (Verification c) <> 0 ->
        ver_ObservedAt (Verification c) < ver_ObservedAt o).
Proof.
  unfold RecordClaimVerification.
  destruct (claimEntryStorageKey expected) as [key|] eqn:Hk; [|done].
  destruct (ValidateClaimVerification _ _ _) eqn:Hv; [done|].
  destruct (entries l !! key) as [c|] eqn:Hc; [|done].
  destruct (_ || _) eqn:Hg in |- *; [done|]. destruct (_ && _) eqn:Hmono in |- *; [done|].
  unfold update_entry. destruct (persist env _) as [l3 ok] eqn:Hp. destruct ok; [|done].
  intros [= <-]. exists key, c. apply persist_spec in Hp.
  destruct (write env); destruct Hp as [? Hp]; try done. destruct Hp as [Hcore _].
  apply orb_false_iff in Hg as [[[Hg1 Hg2]%orb_false_iff Hg3]%orb_false_iff Hg4].
  unfold expired in Hg3. brefl.
  assert (Hobs : ClaimedAt expected <= ver_ObservedAt o <= now env).
  { unfold ValidateClaimVerification, validateClaimObservation in Hv.
    destruct (negb (mem_string _ _)); [done|]. destruct (1024 <? _)%nat; [done|].
    destruct (IsZero _ || _) eqn:E in Hv; [done|]. destruct (_ || _) in Hv; [done|].
    destruct (After _ _) eqn:E2 in Hv; [done|]. brefl. lia. }
  split; [done|]. split; [done|].
  split; [exact (f_equal fst Hcore)|]. split; [done|]. split; [done|]. split; [done|].
  split; [lia|]. intros Hnz. destruct Hmono as [H0|H0]; [congruence|done].
Qed.
End batches.

(** ** Provider-coordinated claims *)

(** A coordinated claim is granted only under a provider lease: the local
    entry carries the owner and the deadline [acquireUntil] returned, the local
    clock is still before it, and the entry expires exactly there. *)
Theorem coordinated_claim_is_bounded {W : Type} {San : Sanitizer} {Cod : RecordCodec}
    {ST : Store W} {CX : Cancellation W} clock env (w w' : W) remoteKey k owner workflow ttl l l' h :
  ClaimSharedScoped clock env w remoteKey k owner workflow ttl l = (w', l', Ok (true, h)) ->
  exists key e deadline, storageKey k = Ok key
    /\ acquireUntil clock w remoteKey owner ttl = (w', Ok deadline)
    /\ entries l' = <[key := e]> (entries l) /\ file l' = core l'
    /\ RunID e = Run owner /\ SharedOwner e = owner
    /\ ExpiresAt e = deadline /\ SharedDeadline e = deadline
    /\ clock w' < deadline.
Proof.
  unfold ClaimSharedScoped. destruct (storageKey k) as [key|] eqn:Hk; [|done].
  destruct (SharedRevoked _); [done|].
  destruct (acquireUntil clock w remoteKey owner ttl) as [w1 [deadline|]] eqn:Ha; [|done].
  destruct (ClaimScopedUntil _ _ _ _ _ _ _) as [l1 [[[] h1]|]] eqn:Hc; [|done|done].
  destruct (ctx_done w1); [done|]. destruct (negb (Before _ _)) eqn:Hb; [done|].
  intros [= <- <- <-]. apply negb_false_iff, Before_true in Hb.
  unfold ClaimScopedUntil in Hc. destruct (IsZero deadline) eqn:Hz; [done|].
  destruct (negb _) eqn:Hrun in Hc; [done|]. destruct (encode_check _ _ _); [done|].
  rewrite Hk in Hc. apply claim_granted in Hc as (_ & _ & He & Hf & _). rewrite Hz in He.
  set (e := continueLease _ _ _) in *. exists key, e, deadline.
  assert (He' : RunID e = Run owner /\ SharedOwner e = owner
                /\ ExpiresAt e = deadline /\ SharedDeadline e = deadline).
  { unfold e, continueLease. repeat case_match; auto. }
  destruct He' as (? & ? & ? & ?). auto 12.
Qed.

(** ** The operations at work *)

Module FunctionalExample.
Import LedgerExample.
#[local] Existing Instance plain_sanitizer.
#[local] Existing Instance flat_codec.

Definition granted : ClaimLedger * result ledger_error (bool * string) :=
  ClaimScoped (at_time 1000 WriteOk) issue "run-b" "implement" hour fresh.
Definition local_entry : ClaimEntry := default zeroEntry (entries granted.1 !! issue_key).

Lemma granted_claim_is_recorded_witness :
  granted.2 = Ok (true, "run-b") /\
  exists key e, storageKey issue = Ok key /\ "run-b" = "run-b" /\ 0 < hour
    /\ entries granted.1 = <[key := e]> (entries fresh) /\ file granted.1 = core granted.1
    /\ historyEntry granted.1 "run-b" key = Some e
    /\ RunID e = "run-b" /\ Workflow e = "implement" /\ SharedOwner e = noOwner
    /\ (forall t, expired e t = false <-> t < 1000 + hour).
Proof.
  split; [vm_compute; reflexivity|].
  apply (granted_claim_is_recorded (at_time 1000 WriteOk) issue "run-b" "implement" hour fresh).
  vm_compute. reflexivity.
Defined.

Lemma free_item_is_granted_witness :
  (ClaimScoped (at_time 1000 WriteOk) issue "run-b" "implement" hour fresh).2 = Ok (true, "run-b").
Proof.
  apply (free_item_is_granted (at_time 1000 WriteOk) issue issue_key "run-b" "implement" hour fresh);
    [vm_compute; reflexivity.. | intros p H; vm_compute in H; discriminate].
Defined.

Definition swept : ClaimLedger * result ledger_error (list ClaimEntry) :=
  RecoverExpired (at_time (2 * hour) WriteOk) (2 * hour) granted.1.

Lemma sweep_reaps_exactly_expired_witness :
  swept.2 = Ok [local_entry] /\ entries swept.1 !! issue_key = None
  /\ (local_entry ∈ [local_entry] <->
       exists k, entries granted.1 !! k = Some local_entry /\ reapable (2 * hour) local_entry = true).
Proof.
  split; [vm_compute; reflexivity|].
  destruct (sweep_reaps_exactly_expired (at_time (2 * hour) WriteOk) (2 * hour) granted.1 swept.1
              [local_entry]) as [Hk He]; [vm_compute; reflexivity|].
  split; [rewrite Hk; vm_compute; reflexivity | apply He].
Defined.

Lemma granted_reachable : reachable granted.1.
Proof.
  exists (Some []). apply rtc_once.
  assert (granted.1 = apply_op (at_time 1000 WriteOk) (OpClaimScoped issue "run-b" "implement" hour)
                        fresh) as -> by (vm_compute; reflexivity).
  apply op_step_intro. exact I.
Qed.

Lemma reclaim_is_all_or_nothing_witness :
  let r := ReclaimAll (at_time (2 * hour) WriteOk) [local_entry] "run-c" "implement" hour granted.1 in
  r.2 = Ok (true, "run-c") /\
  ("run-c" = "run-c" /\ forall e p, e ∈ [local_entry] -> plan_entry e = Ok (Some p) ->
    exists x, entries r.1 !! pl_storageKey p = Some x /\ RunID x = "run-c"
      /\ ExpiresAt x = 2 * hour + hour).
Proof.
  cbv zeta. split; [vm_compute; reflexivity|].
  apply (reclaim_is_all_or_nothing (at_time (2 * hour) WriteOk) [local_entry] "run-c" "implement"
           hour granted.1 _ (Ok (true, "run-c")));
    [apply granted_reachable | vm_compute; reflexivity].
Defined.

Definition observation : ClaimVerification := mkVerification "verified" 1500 "run-b".

Lemma verification_is_monotone_witness :
  let r := RecordClaimVerification (at_time 2000 WriteOk) local_entry observation granted.1 in
  r.2 = Ok true /\
  exists key c, claimEntryStorageKey local_entry = Ok key /\ entries granted.1 !! key = Some c
    /\ entries r.1 = <[key := set_verification c observation]> (entries granted.1)
    /\ RunID c = RunID local_entry /\ ClaimedAt c = ClaimedAt local_entry
    /\ 2000 < ExpiresAt c /\ ClaimedAt c <= 1500 <= 2000
    /\ (ver_ObservedAt (Verification c) <> 0 -> ver_ObservedAt (Verification c) < 1500).
Proof.
  cbv zeta. split; [vm_compute; reflexivity|].
  apply (verification_is_monotone (at_time 2000 WriteOk) local_entry observation granted.1).
  vm_compute. reflexivity.
Defined.

Definition coordinated : MemStore * ClaimLedger * result ledger_error (bool * string) :=
  ClaimSharedScoped clock (at_time 1000 WriteOk) (mkMem ∅ 1000) "issue:7" issue ownerA
    "implement" hour fresh.

Lemma coordinated_claim_is_bounded_witness :
  coordinated.2 = Ok (true, "run-a") /\
  exists key e deadline, storageKey issue = Ok key
    /\ acquireUntil clock (mkMem ∅ 1000) "issue:7" ownerA hour = (coordinated.1.1, Ok deadline)
    /\ entries coordinated.1.2 = <[key := e]> (entries fresh)
    /\ file coordinated.1.2 = core coordinated.1.2
    /\ RunID e = Run ownerA /\ SharedOwner e = ownerA
    /\ ExpiresAt e = deadline /\ SharedDeadline e = deadline
    /\ clock coordinated.1.1 < deadline.
Proof.
  split; [vm_compute; reflexivity|].
  apply (coordinated_claim_is_bounded clock (at_time 1000 WriteOk) (mkMem ∅ 1000) coordinated.1.1
           "issue:7" issue ownerA "implement" hour fresh coordinated.1.2 "run-a").
  vm_compute. reflexivity.
Defined.

(** What a failed directory sync does: the claim is refused with an error
    and undone in memory, while the file already holds it; a restart before the
    next write reads the refused claim back as held, and turns the next
    claimant away. *)
Theorem dir_sync_failure_diverges :
  let '(l1, r1) := ClaimScoped (at_time 1000 WriteDirSyncFailed) issue "run-a" "implement" hour fresh in
  r1 = Error ErrPersist
  /\ entries l1 !! issue_key = None
  /\ match load 2000 (file l1) (log l1) with
     | Ok l2 => RunID <$> (entries l2 !! issue_key) = Some "run-a"
                /\ (ClaimScoped (at_time 2000 WriteOk) issue "run-b" "implement" hour l2).2
                   = Ok (false, "run-a")
     | Error _ => False
     end.
Proof. vm_compute. repeat split; reflexivity. Qed.
End FunctionalExample.
