(* ===== verification/Conditions.v ===== *)
(** * Run admission: [internal/localscheduler/conditions.go] and
    [continuation_claims.go]

    The tracker that decides whether a run may start or resume: concurrency per
    workflow and per instance, rolling hourly and daily budgets, and the claims
    of parked parents waiting to resume.  Every method holds the tracker's lock
    from start to end, so a method is one step of a state-passing function. *)

From S2P Require Export GoStrings.
Local Open Scope string_scope.
Local Open Scope list_scope.
Local Open Scope Z_scope.

(** ** State *)

Record WorkflowIdentity := mkIdentity { id_Gaggle : string; id_Workflow : string }.

#[export] Instance WorkflowIdentity_eq_dec : EqDecision WorkflowIdentity.
Proof. solve_decision. Defined.
#[export] Instance WorkflowIdentity_countable : Countable WorkflowIdentity.
Proof.
  refine (inj_countable' (fun i => (id_Gaggle i, id_Workflow i)) (fun p => mkIdentity p.1 p.2) _).
  by intros [].
Defined.

(** [apiv1.ReadinessConditions], the fields admission reads. *)
Record ReadinessConditions := mkReadiness {
  MaxConcurrentRuns : Z;
  MaxRunsPerHour : Z;
  MaxRunsPerDay : Z;
  MaxOpenPRs : Z;
}.

(** [continuationClaim]. *)
Record continuationClaim := mkContinuation {
  cc_identity : WorkflowIdentity;
  cc_maxConcurrent : Z;
  cc_since : Time;
  cc_until : Time;
}.

(** The skip reasons, with what the code appends to their prefix. *)
Inductive skip_reason :=
| ReasonMaxParallel | ReasonInstanceMaxParallel | ReasonBudget | ReasonDailyBudget | ReasonOpenPRCap
| ReasonMemoryPressure (detail : string) | ReasonStorageCritical (detail : string)
| ReasonProviderQuota (resetAt : Time).

(** The gates [Conditions] consults: interfaces wired at setup, [None] when no
    gate is wired. *)
Record Gates := mkGates {
  providerQuota : option (string -> Time -> option Time);
  openPRs : option (string -> string -> Z * bool);
  memory : option (bool * string);
  disk : option (bool * string);
}.

Record Conditions := mkConditions {
  active : gmap WorkflowIdentity Z;
  starts : gmap WorkflowIdentity (list Time);
  totalActive : Z;
  instanceMaxParallel : Z;
  workflowBudgets : gmap string Z;
  dayBudgets : gmap string Z;
  disableCadenceBudgets : bool;
  claims : gmap string continuationClaim;
}.

Definition NewConditions : Conditions := mkConditions ∅ ∅ 0 0 ∅ ∅ false ∅.

(** [SetInstanceLimits], [SetCadenceBudgetsDisabled]. *)
Definition SetInstanceLimits (maxParallelRuns : Z) (budgets days : gmap string Z)
    (c : Conditions) : Conditions :=
  mkConditions (active c) (starts c) (totalActive c) maxParallelRuns budgets days
    (disableCadenceBudgets c) (claims c).
Definition SetCadenceBudgetsDisabled (disabled : bool) (c : Conditions) : Conditions :=
  mkConditions (active c) (starts c) (totalActive c) (instanceMaxParallel c) (workflowBudgets c)
    (dayBudgets c) disabled (claims c).

Definition with_active (c : Conditions) (a : gmap WorkflowIdentity Z) (total : Z) : Conditions :=
  mkConditions a (starts c) total (instanceMaxParallel c) (workflowBudgets c) (dayBudgets c)
    (disableCadenceBudgets c) (claims c).
Definition with_starts (c : Conditions) (s : gmap WorkflowIdentity (list Time)) : Conditions :=
  mkConditions (active c) s (totalActive c) (instanceMaxParallel c) (workflowBudgets c)
    (dayBudgets c) (disableCadenceBudgets c) (claims c).
Definition with_claims (c : Conditions) (k : gmap string continuationClaim) : Conditions :=
  mkConditions (active c) (starts c) (totalActive c) (instanceMaxParallel c) (workflowBudgets c)
    (dayBudgets c) (disableCadenceBudgets c) k.

(** [c.active[identity]], [c.starts[identity]]: zero values when absent. *)
Definition ActiveWorkflow (c : Conditions) (i : WorkflowIdentity) : Z := default 0 (active c !! i).
Definition starts_of (c : Conditions) (i : WorkflowIdentity) : list Time :=
  default [] (starts c !! i).

(** [ReconcileWorkflows]: seed the counts, recompute the total. *)
Definition sum_active (a : gmap WorkflowIdentity Z) : Z :=
  map_fold (fun _ n acc => n + acc) 0 a.
Definition ReconcileWorkflows (seed : gmap WorkflowIdentity Z) (c : Conditions) : Conditions :=
  let a := seed ∪ active c in with_active c a (sum_active a).

(** [ReconcileWorkflowBudgets]. *)
Definition ReconcileWorkflowBudgets (seed : gmap WorkflowIdentity (list Time)) (c : Conditions)
    : Conditions := with_starts c (seed ∪ starts c).

(** ** Continuation claims *)

Definition ContinuationClaimTTL : Duration := 10 * minute.

Definition olderThan (a : continuationClaim) (aRun : string) (b : continuationClaim) (bRun : string)
    : bool :=
  Before (cc_since a) (cc_since b) || (cc_since a =? cc_since b) && String.ltb aRun bRun.

(** [pruneClaimsLocked]. *)
Definition pruneClaims (now : Time) (c : Conditions) : Conditions :=
  with_claims c (filter (fun p => Before now (cc_until p.2) = true) (claims c)).

Definition count {A} (f : A -> bool) (l : list A) : Z :=
  Z.of_nat (length (List.filter f l)).

(** [claimCanUseInstanceLocked]. *)
Definition claimCanUseInstance (c : Conditions) (runID : string) (claim : continuationClaim) : bool :=
  let ahead := count (fun p => negb (p.1 =? runID)%string
                               && bool_decide (cc_identity p.2 = cc_identity claim)
                               && olderThan p.2 p.1 claim runID)
                 (map_to_list (claims c)) in
  ActiveWorkflow c (cc_identity claim) + ahead <? cc_maxConcurrent claim.

(** The claims [heldByClaimsLocked] does not skip. *)
Definition holds_against (c : Conditions) (runID : string) (p : string * continuationClaim) : bool :=
  negb ((p.1 =? runID)%string
        || match claims c !! runID with
           | Some own => negb (olderThan p.2 p.1 own runID)
           | None => false
           end).

(** [heldByClaimsLocked]. *)
Definition heldByClaims (c : Conditions) (identity : WorkflowIdentity) (runID : string) : Z * Z :=
  (count (fun p => holds_against c runID p && bool_decide (cc_identity p.2 = identity))
     (map_to_list (claims c)),
   count (fun p => holds_against c runID p && claimCanUseInstance c p.1 p.2)
     (map_to_list (claims c))).

(** [markContinuationWaitingLocked]. *)
Definition markContinuationWaiting (runID : string) (identity : WorkflowIdentity)
    (maxConcurrent : Z) (now : Time) (c : Conditions) : Conditions :=
  let since := match claims c !! runID with
               | Some claim => if bool_decide (cc_identity claim = identity)
                               then cc_since claim else now
               | None => now
               end in
  with_claims c (<[runID := mkContinuation identity maxConcurrent since
                              (now + ContinuationClaimTTL)]> (claims c)).

(** [ClearContinuationClaim]. *)
Definition ClearContinuationClaim (runID : string) (c : Conditions) : Conditions :=
  with_claims c (delete runID (claims c)).

(** [maxConcurrentRuns]. *)
Definition maxConcurrentRuns (r : ReadinessConditions) : Z :=
  if MaxConcurrentRuns r <=? 0 then 1 else MaxConcurrentRuns r.

(** ** Budgets *)

Definition budgetWindow : Duration := hour.
Definition dayWindow : Duration := 24 * hour.

Fixpoint drop_before (cutoff : Time) (l : list Time) : list Time :=
  match l with
  | [] => []
  | t :: l' => if Before t cutoff then drop_before cutoff l' else l
  end.

(** [pruneStarts], [countSince]. *)
Definition pruneStarts (starts : list Time) (now : Time) (window : Duration) : list Time :=
  drop_before (now - window) starts.

Fixpoint count_until_before (cutoff : Time) (l : list Time) : Z :=
  match l with
  | [] => 0
  | t :: l' => if Before t cutoff then 0 else 1 + count_until_before cutoff l'
  end.
Definition countSince (starts : list Time) (cutoff : Time) : Z :=
  count_until_before cutoff (rev starts).

Definition effectiveRunsPerHour (c : Conditions) (wf : string) (r : ReadinessConditions) : Z :=
  match workflowBudgets c !! wf with
  | Some override => if 0 <? override then int32 override
                     else if MaxRunsPerHour r <=? 0 then 10 else MaxRunsPerHour r
  | None => if MaxRunsPerHour r <=? 0 then 10 else MaxRunsPerHour r
  end.
Definition effectiveRunsPerDay (c : Conditions) (wf : string) (r : ReadinessConditions) : Z :=
  match dayBudgets c !! wf with
  | Some override => if 0 <? override then int32 override else MaxRunsPerDay r
  | None => MaxRunsPerDay r
  end.

Definition zero_override (m : gmap string Z) (wf : string) : bool :=
  match m !! wf with Some override => override =? 0 | None => false end.

(** ** Admission *)

Section admission.
Context (gates : Gates).

Definition quota_exhausted (provider : string) (now : Time) : option Time :=
  match providerQuota gates with Some f => f provider now | None => None end.

Definition open_pr_cap (i : WorkflowIdentity) (r : ReadinessConditions) : bool :=
  (0 <? MaxOpenPRs r) &&
  match openPRs gates with
  | Some f => let '(n, known) := f (id_Gaggle i) (id_Workflow i) in known && (MaxOpenPRs r <=? n)
  | None => false
  end.

(** Reserve a slot: the two counters move together. *)
Definition reserve_slot (i : WorkflowIdentity) (c : Conditions) : Conditions :=
  with_active c (<[i := ActiveWorkflow c i + 1]> (active c)) (totalActive c + 1).

(** [admitProviderWorkflow]: [None] is admission, [Some reason] the skip;
    [claim_now] is the reading of the claim clock. *)
Definition admitProviderWorkflow (i : WorkflowIdentity) (provider : string)
    (r : ReadinessConditions) (now claim_now : Time) (bypass : bool) (c0 : Conditions)
    : Conditions * option skip_reason :=
  let bypass := bypass || disableCadenceBudgets c0 in
  match quota_exhausted provider now with
  | Some resetAt => (c0, Some (ReasonProviderQuota resetAt))
  | None =>
    let c := pruneClaims claim_now c0 in
    let '(heldWorkflow, heldInstance) := heldByClaims c i "" in
    if maxConcurrentRuns r <=? ActiveWorkflow c i + heldWorkflow then (c, Some ReasonMaxParallel)
    else if open_pr_cap i r then (c, Some ReasonOpenPRCap)
    else if zero_override (workflowBudgets c) (id_Workflow i) then (c, Some ReasonBudget)
    else if zero_override (dayBudgets c) (id_Workflow i) then (c, Some ReasonDailyBudget)
    else
    let perHour := effectiveRunsPerHour c (id_Workflow i) r in
    let perDay := effectiveRunsPerDay c (id_Workflow i) r in
    let retained := pruneStarts (starts_of c i) now dayWindow in
    let hourlyCount := countSince retained (now - budgetWindow) in
    if negb bypass && (perHour <=? hourlyCount)
    then (with_starts c (<[i := retained]> (starts c)), Some ReasonBudget)
    else if negb bypass && (0 <? perDay) && (perDay <=? Z.of_nat (length retained))
    then (with_starts c (<[i := retained]> (starts c)), Some ReasonDailyBudget)
    else if (0 <? instanceMaxParallel c) && (instanceMaxParallel c <=? totalActive c + heldInstance)
    then (c, Some ReasonInstanceMaxParallel)
    else match memory gates with
    | Some (true, detail) => (c, Some (ReasonMemoryPressure detail))
    | _ =>
      match disk gates with
      | Some (true, detail) => (c, Some (ReasonStorageCritical detail))
      | _ => (reserve_slot i (with_starts c (<[i := retained ++ [now]]> (starts c))), None)
      end
    end
  end.

(** [AdmitProviderWorkflow], [AdmitWorkflow], [Admit]. *)
Definition AdmitProviderWorkflow (i : WorkflowIdentity) (provider : string)
    (r : ReadinessConditions) (now claim_now : Time) (c : Conditions)
    : Conditions * option skip_reason :=
  admitProviderWorkflow i provider r now claim_now false c.
Definition Admit (workflow : string) (r : ReadinessConditions) (now claim_now : Time)
    (c : Conditions) : Conditions * option skip_reason :=
  AdmitProviderWorkflow (mkIdentity "" workflow) "github" r now claim_now c.
End admission.

(** [reserveContinuationLocked]. *)
Definition reserveContinuation (i : WorkflowIdentity) (r : ReadinessConditions) (runID : string)
    (c : Conditions) : Conditions * option skip_reason :=
  let '(heldWorkflow, heldInstance) := heldByClaims c i runID in
  if maxConcurrentRuns r <=? ActiveWorkflow c i + heldWorkflow then (c, Some ReasonMaxParallel)
  else if (0 <? instanceMaxParallel c) && (instanceMaxParallel c <=? totalActive c + heldInstance)
  then (c, Some ReasonInstanceMaxParallel)
  else (reserve_slot i c, None).

(** [ReserveContinuation]. *)
Definition ReserveContinuation (i : WorkflowIdentity) (r : ReadinessConditions) (claim_now : Time)
    (c : Conditions) : Conditions * option skip_reason :=
  reserveContinuation i r "" (pruneClaims claim_now c).

(** [reserveParentContinuation]. *)
Definition reserveParentContinuation (runID : string) (i : WorkflowIdentity)
    (r : ReadinessConditions) (now : Time) (c0 : Conditions) : Conditions * option skip_reason :=
  let '(c, reason) := reserveContinuation i r runID (pruneClaims now c0) in
  match reason with
  | None => (ClearContinuationClaim runID c, None)
  | Some ReasonMaxParallel | Some ReasonInstanceMaxParallel =>
      (markContinuationWaiting runID i (maxConcurrentRuns r) now c, reason)
  | Some _ => (c, reason)
  end.

(** [ReleaseWorkflow]. *)
Definition ReleaseWorkflow (i : WorkflowIdentity) (c : Conditions) : Conditions :=
  if 0 <? ActiveWorkflow c i
  then with_active c (<[i := ActiveWorkflow c i - 1]> (active c)) (totalActive c - 1)
  else c.

(** [WorkerAvailability]: the pruned tracker and, when a cap is configured,
    the free capacity. *)
Definition WorkerAvailability (claim_now : Time) (c0 : Conditions) : Conditions * option Z :=
  if instanceMaxParallel c0 <=? 0 then (c0, None)
  else
    let c := pruneClaims claim_now c0 in
    let '(_, held) := heldByClaims c (mkIdentity "" "") "" in
    (c, Some (Z.max 0 (instanceMaxParallel c - totalActive c - held))).

(** [ContinuationClaims]: how many claims, how many per workflow, and when the
    oldest was made. *)
Record ContinuationClaimStats := mkStats {
  Count : Z;
  ByWorkflow : gmap WorkflowIdentity Z;
  Oldest : Time;
}.

Definition ContinuationClaims (claim_now : Time) (c0 : Conditions)
    : Conditions * ContinuationClaimStats :=
  let c := pruneClaims claim_now c0 in
  (c, foldr (fun p st =>
               mkStats (Count st)
                 (<[cc_identity p.2 := default 0 (ByWorkflow st !! cc_identity p.2) + 1]> (ByWorkflow st))
                 (if IsZero (Oldest st) || Before (cc_since p.2) (Oldest st)
                  then cc_since p.2 else Oldest st))
        (mkStats (Z.of_nat (size (claims c))) ∅ 0) (map_to_list (claims c))).
