(* ===== verification/ConditionsProps.v ===== *)
(** * What run admission guarantees

    Counters, caps, budgets and the order in which parked parents resume, over
    every sequence of calls. *)

From Stdlib Require Import Sorting.Sorted.
From S2P Require Export Conditions.
Local Open Scope string_scope.
Local Open Scope list_scope.
Local Open Scope Z_scope.

(** ** Counters *)

Lemma sum_active_insert a i v :
  sum_active (<[i := v]> a) = sum_active a - default 0 (a !! i) + v.
Proof.
  unfold sum_active. destruct (a !! i) as [w|] eqn:E; cbn.
  - pose proof (lookup_delete_eq a i) as Hd.
    assert (Hf : forall v, map_fold (fun _ n acc => n + acc) 0 (<[i := v]> (delete i a))
                           = v + map_fold (fun _ n acc => n + acc) 0 (delete i a)).
    { intros u. apply map_fold_insert_L; [intros; lia | done]. }
    rewrite <- (insert_delete_eq a i v), Hf.
    pose proof (Hf w) as Hw. rewrite (insert_delete_id a i w E) in Hw. lia.
  - rewrite map_fold_insert_L; [lia | intros; lia | done].
Qed.

(** The running total is the sum of the counts, and no count is negative. *)
Definition counts_ok (c : Conditions) : Prop :=
  totalActive c = sum_active (active c) /\ forall i, 0 <= ActiveWorkflow c i.

Lemma active_insert c i v total j :
  ActiveWorkflow (with_active c (<[i := v]> (active c)) total) j
  = if bool_decide (j = i) then v else ActiveWorkflow c j.
Proof.
  unfold ActiveWorkflow; cbn. case_bool_decide as D.
  - subst. by rewrite lookup_insert_eq.
  - by rewrite lookup_insert_ne.
Qed.

Lemma reserve_slot_counts i c : counts_ok c -> counts_ok (reserve_slot i c).
Proof.
  intros [Ht Hn]. split.
  - cbn. rewrite sum_active_insert, Ht. unfold ActiveWorkflow. lia.
  - intros j. unfold reserve_slot. rewrite active_insert. case_bool_decide; [|auto].
    pose proof (Hn i). lia.
Qed.

Lemma release_counts i c : counts_ok c -> counts_ok (ReleaseWorkflow i c).
Proof.
  intros [Ht Hn]. unfold ReleaseWorkflow. destruct (0 <? _) eqn:E; [|done]. brefl. split.
  - cbn. rewrite sum_active_insert, Ht. unfold ActiveWorkflow. lia.
  - intros j. rewrite active_insert. case_bool_decide; [lia|auto].
Qed.

(** ** What an admission attempt may do to the tracker *)

(** Everything is as in [c], but workflow [i]'s start history may have been
    pruned. *)
Definition same_but_starts (i : WorkflowIdentity) (now : Time) (c c' : Conditions) : Prop :=
  exists s, c' = with_starts c s /\
    (s = starts c \/ s = <[i := pruneStarts (starts_of c i) now dayWindow]> (starts c)).

Lemma admit_cases gates i provider r now cnow bypass c0 c' reason :
  admitProviderWorkflow gates i provider r now cnow bypass c0 = (c', reason) ->
  match reason with
  | Some _ => c' = c0 \/ same_but_starts i now (pruneClaims cnow c0) c'
  | None =>
      let c := pruneClaims cnow c0 in
      c' = reserve_slot i (with_starts c
             (<[i := pruneStarts (starts_of c i) now dayWindow ++ [now]]> (starts c)))
      /\ ActiveWorkflow c i + (heldByClaims c i "").1 < maxConcurrentRuns r
      /\ (0 < instanceMaxParallel c -> totalActive c + (heldByClaims c i "").2 < instanceMaxParallel c)
      /\ zero_override (workflowBudgets c) (id_Workflow i) = false
      /\ zero_override (dayBudgets c) (id_Workflow i) = false
      /\ (bypass || disableCadenceBudgets c0 = false ->
          countSince (pruneStarts (starts_of c i) now dayWindow) (now - budgetWindow)
            < effectiveRunsPerHour c (id_Workflow i) r
          /\ (0 < effectiveRunsPerDay c (id_Workflow i) r ->
              Z.of_nat (length (pruneStarts (starts_of c i) now dayWindow))
                < effectiveRunsPerDay c (id_Workflow i) r))
  end.
Proof.
  unfold admitProviderWorkflow.
  destruct (quota_exhausted gates provider now); [intros [= <- <-]; by left|].
  remember (pruneClaims cnow c0) as c eqn:Hcdef. destruct (heldByClaims c i "") as [hw hi] eqn:Hheld.
  assert (Hsame : same_but_starts i now c c) by (exists (starts c); destruct c; auto).
  destruct (maxConcurrentRuns r <=? _) eqn:H1; [intros [= <- <-]; by right|].
  destruct (open_pr_cap _ _ _); [intros [= <- <-]; by right|].
  destruct (zero_override (workflowBudgets c) _) eqn:H2; [intros [= <- <-]; by right|].
  destruct (zero_override (dayBudgets c) _) eqn:H3; [intros [= <- <-]; by right|].
  destruct (negb _ && _) eqn:H4 in |- *; [intros [= <- <-]; right; eexists; eauto|].
  destruct (negb _ && _ && _) eqn:H5 in |- *; [intros [= <- <-]; right; eexists; eauto|].
  destruct ((0 <? _) && _) eqn:H6 in |- *; [intros [= <- <-]; by right|].
  destruct (memory gates) as [[[] d]|]; try (intros [= <- <-]; by right);
  (destruct (disk gates) as [[[] d']|]; try (intros [= <- <-]; by right));
  (intros [= <- <-]; cbn [fst snd];
   split; [done|]; split; [apply Z.leb_gt in H1; lia|]; split;
     [intros Hpos; rewrite (proj2 (Z.ltb_lt _ _) Hpos) in H6; cbn [andb] in H6; apply Z.leb_gt in H6; lia|];
   split; [done|]; split; [done|]; intros Hb; rewrite Hb in H4, H5; cbn [andb negb] in H4, H5;
   apply Z.leb_gt in H4; split; [done|]; intros Hpos;
   rewrite (proj2 (Z.ltb_lt _ _) Hpos) in H5; cbn [andb] in H5; apply Z.leb_gt in H5; lia).
Qed.

(** ** Sequences of calls *)

Inductive call :=
| CallAdmit (gates : Gates) (i : WorkflowIdentity) (provider : string) (r : ReadinessConditions)
    (now claim_now : Time) (bypass : bool)
| CallReserve (i : WorkflowIdentity) (r : ReadinessConditions) (claim_now : Time)
| CallParent (runID : string) (i : WorkflowIdentity) (r : ReadinessConditions) (now : Time)
| CallRelease (i : WorkflowIdentity)
| CallClear (runID : string)
| CallAvailability (claim_now : Time)
| CallStats (claim_now : Time)
| CallReconcile (seed : gmap WorkflowIdentity Z)
| CallReconcileBudgets (seed : gmap WorkflowIdentity (list Time))
| CallSetLimits (maxParallel : Z) (budgets days : gmap string Z)
| CallSetCadence (disabled : bool).

Definition apply_call (c : Conditions) (k : call) : Conditions :=
  match k with
  | CallAdmit g i p r t ct b => (admitProviderWorkflow g i p r t ct b c).1
  | CallReserve i r ct => (ReserveContinuation i r ct c).1
  | CallParent run i r t => (reserveParentContinuation run i r t c).1
  | CallRelease i => ReleaseWorkflow i c
  | CallClear run => ClearContinuationClaim run c
  | CallAvailability ct => (WorkerAvailability ct c).1
  | CallStats ct => (ContinuationClaims ct c).1
  | CallReconcile seed => ReconcileWorkflows seed c
  | CallReconcileBudgets seed => ReconcileWorkflowBudgets seed c
  | CallSetLimits m b d => SetInstanceLimits m b d c
  | CallSetCadence d => SetCadenceBudgetsDisabled d c
  end.

(** A restart seeds counts of existing runs, none of them negative. *)
Definition call_ok (k : call) : Prop :=
  match k with CallReconcile seed => forall i n, seed !! i = Some n -> 0 <= n | _ => True end.

(** What a call does to the counters, and what it found first. *)
Inductive counter_effect (c c' : Conditions) : call -> Prop :=
| eff_none k :
    (forall seed, k <> CallReconcile seed) ->
    active c' = active c -> totalActive c' = totalActive c -> counter_effect c c' k
| eff_reserve k i r :
    (exists g p t ct b, k = CallAdmit g i p r t ct b)
    \/ (exists ct, k = CallReserve i r ct) \/ (exists run t, k = CallParent run i r t) ->
    active c' = <[i := ActiveWorkflow c i + 1]> (active c) -> totalActive c' = totalActive c + 1 ->
    ActiveWorkflow c i < maxConcurrentRuns r ->
    (0 < instanceMaxParallel c -> totalActive c < instanceMaxParallel c) ->
    counter_effect c c' k
| eff_release i :
    c' = ReleaseWorkflow i c -> counter_effect c c' (CallRelease i)
| eff_seed seed :
    c' = ReconcileWorkflows seed c -> counter_effect c c' (CallReconcile seed).

Lemma count_nonneg {A} (f : A -> bool) l : 0 <= count f l.
Proof. unfold count. lia. Qed.

Lemma reserveContinuation_cases i r run c c' reason :
  reserveContinuation i r run c = (c', reason) ->
  match reason with
  | Some x => c' = c /\ (x = ReasonMaxParallel \/ x = ReasonInstanceMaxParallel)
  | None => c' = reserve_slot i c
      /\ ActiveWorkflow c i + (heldByClaims c i run).1 < maxConcurrentRuns r
      /\ (0 < instanceMaxParallel c -> totalActive c + (heldByClaims c i run).2 < instanceMaxParallel c)
  end.
Proof.
  unfold reserveContinuation. destruct (heldByClaims c i run) as [hw hi].
  destruct (_ <=? _) eqn:H1; [intros [= <- <-]; auto|].
  destruct (_ && _) eqn:H2; [intros [= <- <-]; auto|]. intros [= <- <-]. brefl. cbn.
  split; [done|]. split; [lia|]. intros. destruct H2; lia.
Qed.

Lemma call_effect c k : counter_effect c (apply_call c k) k.
Proof.
  assert (Hheld : forall c i run, 0 <= (heldByClaims c i run).1 /\ 0 <= (heldByClaims c i run).2)
    by (intros; split; apply count_nonneg).
  destruct k as [g i p r t ct b|i r ct|run i r t|i|run|ct|ct|seed|seed|m b d|d]; cbn [apply_call].
  - destruct (admitProviderWorkflow g i p r t ct b c) as [c' [x|]] eqn:E;
      apply admit_cases in E; cbn [fst].
    + apply eff_none; [done| |]; destruct E as [->|(s & -> & _)]; reflexivity.
    + destruct E as (-> & H1 & H2 & _). pose proof (Hheld (pruneClaims ct c) i "") as Hh.
      destruct (heldByClaims (pruneClaims ct c) i "") as [hw hi]. unfold ActiveWorkflow in *. cbn in *.
      apply eff_reserve with i r; [eauto 10 | done | done | unfold ActiveWorkflow; lia | lia].
  - unfold ReserveContinuation.
    destruct (reserveContinuation _ _ _ _) as [c' [x|]] eqn:E; apply reserveContinuation_cases in E; cbn [fst].
    + destruct E as [-> _]. apply eff_none; done.
    + destruct E as (-> & H1 & H2). pose proof (Hheld (pruneClaims ct c) i "") as Hh.
      destruct (heldByClaims (pruneClaims ct c) i "") as [hw hi]. unfold ActiveWorkflow in *. cbn in *.
      apply eff_reserve with i r; [eauto 10 | done | done | unfold ActiveWorkflow; lia | lia].
  - unfold reserveParentContinuation.
    destruct (reserveContinuation _ _ _ _) as [c' [x|]] eqn:E; apply reserveContinuation_cases in E; cbn [fst].
    + destruct E as [-> [-> | ->]]; apply eff_none; done.
    + destruct E as (-> & H1 & H2). pose proof (Hheld (pruneClaims t c) i run) as Hh.
      destruct (heldByClaims (pruneClaims t c) i run) as [hw hi]. unfold ActiveWorkflow in *. cbn in *.
      apply eff_reserve with i r; [eauto 10 | done | done | unfold ActiveWorkflow; lia | lia].
  - by apply eff_release.
  - by apply eff_none.
  - unfold WorkerAvailability. destruct (_ <=? 0); by apply eff_none.
  - by apply eff_none.
  - by apply eff_seed.
  - by apply eff_none.
  - by apply eff_none.
  - by apply eff_none.
Qed.

Lemma call_counts c k : counts_ok c -> call_ok k -> counts_ok (apply_call c k).
Proof.
  intros Hc Hk. pose proof (call_effect c k) as He. remember (apply_call c k) as c' eqn:E. clear E.
    destruct He as [k0 Hns Ha Ht|k0 i r _ Ha Ht _ _|i Hr|seed Hs].
  - destruct Hc as [H1 H2]. split; [congruence|]. unfold ActiveWorkflow. rewrite Ha. apply H2.
  - apply (reserve_slot_counts i) in Hc as [H1 H2]. split.
    + rewrite Ha, Ht. exact H1.
    + intros j. unfold ActiveWorkflow. rewrite Ha. apply (H2 j).
  - rewrite Hr. by apply release_counts.
  - rewrite Hs. split; [done|]. intros j. unfold ActiveWorkflow; cbn.
    destruct ((seed ∪ active c) !! j) as [n|] eqn:E; [|done]. cbn.
    apply lookup_union_Some_raw in E as [E|[_ E]]; [by apply (Hk j)|].
    destruct Hc as [_ Hn]. specialize (Hn j). unfold ActiveWorkflow in Hn. by rewrite E in Hn.
Qed.

(** Whatever calls are made, in whatever order, the instance-wide counter
    is the sum of the per-workflow ones and no counter is ever negative: a
    surplus [Release] changes nothing. *)
Theorem counters_stay_consistent ks :
  Forall call_ok ks ->
  let c := foldl apply_call NewConditions ks in
  totalActive c = sum_active (active c) /\ forall i, 0 <= ActiveWorkflow c i.
Proof.
  intros Hks. cbn zeta.
  assert (H : forall c, counts_ok c -> counts_ok (foldl apply_call c ks)).
  { induction Hks as [|k ks Hk Hks IH]; intros c Hc; cbn; auto using call_counts. }
  apply H. split; [done|]. intros i. done.
Qed.

(** The limits in force: the instance cap is [cap], and every call that may
    start or resume a run of workflow [i] asks with the workflow cap [m]; no
    call reseeds the counters or changes the limits. *)
Definition under_caps (i : WorkflowIdentity) (m : Z) (k : call) : Prop :=
  match k with
  | CallAdmit _ j _ r _ _ _ | CallReserve j r _ | CallParent _ j r _ =>
      j = i -> maxConcurrentRuns r = m
  | CallReconcile _ | CallSetLimits _ _ _ => False
  | _ => True
  end.

Lemma call_limits c k i m : under_caps i m k -> instanceMaxParallel (apply_call c k) = instanceMaxParallel c.
Proof.
  destruct k as [g j p r t ct b|j r ct|run j r t|j|run|ct|ct|seed|seed|mm b d|d];
    cbn [apply_call under_caps]; intros Hk; try done.
  - destruct (admitProviderWorkflow g j p r t ct b c) as [c' [x|]] eqn:E; apply admit_cases in E; cbn.
    + destruct E as [->|(s & -> & _)]; done.
    + destruct E as (-> & _). done.
  - unfold ReserveContinuation.
    destruct (reserveContinuation _ _ _ _) as [c' [x|]] eqn:E; apply reserveContinuation_cases in E; cbn.
    + destruct E as [-> _]. done.
    + destruct E as (-> & _). done.
  - unfold reserveParentContinuation.
    destruct (reserveContinuation _ _ _ _) as [c' [x|]] eqn:E; apply reserveContinuation_cases in E; cbn.
    + destruct E as [-> [-> | ->]]; done.
    + destruct E as (-> & _). done.
  - unfold ReleaseWorkflow. by destruct (0 <? _).
  - unfold WorkerAvailability. by destruct (_ <=? 0).
Qed.

(** Concurrency never exceeds its caps: from a state within the workflow
    cap [m] and the instance cap, every interleaving of admissions, resumes
    and releases stays within both. *)
Theorem caps_are_never_exceeded c ks i m :
  counts_ok c -> 0 < instanceMaxParallel c -> totalActive c <= instanceMaxParallel c ->
  ActiveWorkflow c i <= m -> Forall (under_caps i m) ks ->
  let c' := foldl apply_call c ks in
  totalActive c' <= instanceMaxParallel c /\ ActiveWorkflow c' i <= m.
Proof.
  intros Hc Hpos Htot Hact Hks. cbn zeta. revert c Hc Hpos Htot Hact.
  induction Hks as [|k ks Hk Hks IH]; intros c Hc Hpos Htot Hact; [done|].
  cbn [foldl]. pose proof (call_limits c k i m Hk) as Hlim. rewrite <- Hlim in *.
  assert (Hok : call_ok k) by (destruct k; done).
  apply IH; [by apply call_counts | done | |].
  - rewrite Hlim in *. pose proof (call_effect c k) as He. remember (apply_call c k) as c' eqn:E. clear E.
    destruct He as [k0 Hns Ha Ht|k0 j r _ Ha Ht _ Hi|j Hr|seed Hs].
    + lia.
    + specialize (Hi Hpos). lia.
    + rewrite Hr. unfold ReleaseWorkflow. destruct (0 <? _); cbn; lia.
    + done.
  - pose proof (call_effect c k) as He. remember (apply_call c k) as c' eqn:E. clear E.
    destruct He as [k0 Hns Ha Ht|k0 j r Hwho Ha Ht Hm Hi|j Hr|seed Hs].
    + unfold ActiveWorkflow in *. by rewrite Ha.
    + unfold ActiveWorkflow in *. rewrite Ha. destruct (decide (i = j)) as [->|Hne].
      * rewrite lookup_insert_eq. cbn.
        assert (maxConcurrentRuns r = m) by (destruct Hwho as [(?&?&?&?&?&->)|[(?&->)|(?&?&->)]]; auto).
        lia.
      * by rewrite lookup_insert_ne.
    + rewrite Hr. unfold ReleaseWorkflow. destruct (0 <? _) eqn:E; [|done].
      rewrite active_insert. case_bool_decide; [subst; lia|done].
    + done.
Qed.

(** ** Rolling budgets *)

Lemma count_app {A} (f : A -> bool) l1 l2 : count f (l1 ++ l2) = count f l1 + count f l2.
Proof. unfold count. rewrite List.filter_app, length_app. lia. Qed.

Lemma count_cons {A} (f : A -> bool) x l : count f (x :: l) = (if f x then 1 else 0) + count f l.
Proof. unfold count. cbn. destruct (f x); cbn [length]; lia. Qed.

Lemma count_le {A} (f g : A -> bool) l :
  (forall x, x ∈ l -> f x = true -> g x = true) -> count f l <= count g l.
Proof.
  induction l as [|x l IH]; intros H; [done|]. rewrite !count_cons.
  assert (count f l <= count g l) by (apply IH; intros; apply H; [right|]; done).
  destruct (f x) eqn:E; [rewrite (H x) by (left || done); lia|]. destruct (g x); lia.
Qed.

Definition sorted (l : list Time) : Prop := StronglySorted Z.le l.

Lemma sorted_snoc l t : sorted l -> (forall x, x ∈ l -> x <= t) -> sorted (l ++ [t]).
Proof.
  intros Hs Hle. induction Hs as [|x l Hs IH Hx]; cbn; [repeat constructor|].
  constructor; [apply IH; set_solver|]. apply Forall_app. split; [done|].
  constructor; [apply Hle; left | constructor].
Qed.

Lemma drop_before_sorted cutoff l :
  sorted l -> drop_before cutoff l = List.filter (fun t => cutoff <=? t) l.
Proof.
  induction 1 as [|x l Hs IH Hx]; [done|]. cbn. unfold Before.
  destruct (x <? cutoff) eqn:E; brefl.
  - rewrite (proj2 (Z.leb_gt cutoff x)) by lia. done.
  - rewrite (proj2 (Z.leb_le cutoff x)) by lia. f_equal. clear -Hx E.
    induction Hx as [|y l Hy Hx IH]; [done|]. cbn.
    rewrite (proj2 (Z.leb_le cutoff y)) by lia. by rewrite <- IH.
Qed.

Lemma filter_sorted f l : sorted l -> sorted (List.filter f l).
Proof.
  induction 1 as [|x l Hs IH Hx]; cbn; [constructor|]. destruct (f x); [|done].
  constructor; [done|]. rewrite Forall_forall in *. intros y Hy.
  apply list_elem_of_In, filter_In in Hy as [Hy _]. by apply Hx, list_elem_of_In.
Qed.

Lemma countSince_sorted cutoff l :
  sorted l -> countSince l cutoff = count (fun t => cutoff <=? t) l.
Proof.
  unfold countSince. induction l as [|x l IH] using rev_ind; intros Hs; [done|].
  rewrite rev_app_distr. cbn. rewrite count_app, count_cons; cbn [count List.filter length].
  assert (Hsplit : sorted l /\ forall y, y ∈ l -> y <= x).
  { clear IH. induction l as [|y l IH]; [split; [constructor|set_solver]|]. cbn in Hs.
    inversion Hs as [|? ? Hs' Hall]; subst. destruct (IH Hs') as [H1 H2].
    apply Forall_app in Hall as [Hall Hx]. inversion Hx; subst.
    split; [by constructor|]. intros z [->|Hz]%elem_of_cons; auto. }
  destruct Hsplit as [Hl Hle]. unfold Before. destruct (x <? cutoff) eqn:E; brefl.
  - rewrite (proj2 (Z.leb_gt cutoff x)) by lia.
    assert (count (fun t => cutoff <=? t) l <= count (fun _ => false) l).
    { apply count_le. intros y Hy Hc. specialize (Hle y Hy). brefl. lia. }
    assert (count (fun _ : Z => false) l = 0) by (clear; induction l; [done|by rewrite count_cons]).
    pose proof (count_nonneg (fun t => cutoff <=? t) l). unfold count in *. cbn. lia.
  - rewrite (proj2 (Z.leb_le cutoff x)) by lia. rewrite IH by done. unfold count. cbn. lia.
Qed.

(** The starts a sequence of calls admits for workflow [i], in order. *)
Fixpoint start_log (i : WorkflowIdentity) (c : Conditions) (ks : list call) : list Time :=
  match ks with
  | [] => []
  | k :: ks' =>
      match k with
      | CallAdmit g j p r t ct b =>
          if bool_decide (j = i)
          then match (admitProviderWorkflow g j p r t ct b c).2 with None => [t] | Some _ => [] end
          else []
      | _ => []
      end ++ start_log i (apply_call c k) ks'
  end.

(** The calls of one process lifetime with workflow [i] scheduled under [r]:
    its admissions never bypass the budgets, their clock never goes back
    (starting at [last]), and no call reseeds or reconfigures. *)
Fixpoint scheduled (i : WorkflowIdentity) (r : ReadinessConditions) (last : Time) (ks : list call)
    : Prop :=
  match ks with
  | [] => True
  | CallAdmit _ j _ r' t _ b :: ks' =>
      (j = i -> r' = r /\ b = false /\ last <= t)
      /\ scheduled i r (if bool_decide (j = i) then t else last) ks'
  | (CallReconcileBudgets _ | CallSetLimits _ _ _ | CallSetCadence _) :: _ => False
  | _ :: ks' => scheduled i r last ks'
  end.

Definition in_window (a width t : Z) : bool := (a <=? t) && (t <=? a + width).

(** The retained history against the full log: sorted, and exact on the day
    before [last]. *)
Definition history_ok (last : Time) (retained log : list Time) : Prop :=
  sorted retained /\ (forall t, t ∈ retained -> t <= last) /\
  forall f, (forall t, f t = true -> last - dayWindow <= t) -> count f retained = count f log.

Definition windows_ok (perHour perDay : Z) (log : list Time) : Prop :=
  (forall a, count (in_window a hour) log <= Z.max 0 perHour)
  /\ (0 < perDay -> forall a, count (in_window a dayWindow) log <= perDay).

Lemma prune_history_ok last now retained log :
  history_ok last retained log -> last <= now ->
  history_ok now (pruneStarts retained now dayWindow) log.
Proof.
  intros (Hs & Hle & Hc) Hnow. unfold pruneStarts. rewrite drop_before_sorted by done.
  split; [by apply filter_sorted|]. split.
  - intros t Ht%list_elem_of_In. apply filter_In in Ht as [Ht _].
    apply list_elem_of_In, Hle in Ht. lia.
  - intros f Hf. rewrite <- Hc by (intros t Ht; apply Hf in Ht; lia).
    clear -Hf. unfold count. induction retained as [|x l IH]; [done|]. cbn.
    destruct (now - dayWindow <=? x) eqn:E; cbn; destruct (f x) eqn:Ef; cbn; try lia.
    apply Hf in Ef. brefl. lia.
Qed.

Lemma admit_window perHour perDay now retained log :
  history_ok now retained log -> windows_ok perHour perDay log ->
  countSince retained (now - hour) < perHour ->
  (0 < perDay -> Z.of_nat (length retained) < perDay) ->
  history_ok now (retained ++ [now]) (log ++ [now]) /\ windows_ok perHour perDay (log ++ [now]).
Proof.
  intros (Hs & Hle & Hc) [Hh Hd] Hhour Hday. split.
  - split; [by apply sorted_snoc|]. split; [|intros f Hf; rewrite !count_app, Hc by done; done].
    intros t [Ht|Ht]%elem_of_app; [auto|]. apply list_elem_of_singleton in Ht. lia.
  - assert (Hone : forall f, count f [now] = if f now then 1 else 0)
      by (intros; rewrite count_cons; unfold count; cbn; lia).
    rewrite countSince_sorted in Hhour by done.
    rewrite Hc in Hhour by (intros t Ht; unfold dayWindow, hour in *; brefl; lia).
    split; [intros a|intros Hpos a]; rewrite count_app, Hone;
      destruct (in_window a _ now) eqn:E; [| specialize (Hh a); lia | | specialize (Hd Hpos a); lia].
    + assert (count (in_window a hour) log <= count (fun t => now - hour <=? t) log); [|lia].
      apply count_le. intros t _ Ht. unfold in_window in *. brefl. lia.
    + specialize (Hday Hpos).
      assert (Hlen : count (fun t => now - dayWindow <=? t) retained <= Z.of_nat (length retained)).
      { clear. unfold count. induction retained; cbn; [lia|]. destruct (_ <=? _); cbn; lia. }
      rewrite Hc in Hlen by (intros t Ht; brefl; lia).
      assert (count (in_window a dayWindow) log <= count (fun t => now - dayWindow <=? t) log); [|lia].
      apply count_le. intros t _ Ht. unfold in_window in *. brefl. lia.
Qed.

Definition same_config (c c' : Conditions) : Prop :=
  workflowBudgets c' = workflowBudgets c /\ dayBudgets c' = dayBudgets c
  /\ disableCadenceBudgets c' = disableCadenceBudgets c.

(** One call of a scheduled sequence, seen from workflow [i]'s history. *)
Lemma scheduled_call i r last k ks c :
  scheduled i r last (k :: ks) ->
  same_config c (apply_call c k) /\
  ((starts_of (apply_call c k) i = starts_of c i /\ start_log i c (k :: ks) = start_log i (apply_call c k) ks
    /\ exists last', last <= last' /\ scheduled i r last' ks)
   \/ exists t, last <= t /\ scheduled i r t ks /\
      ((starts_of (apply_call c k) i = pruneStarts (starts_of c i) t dayWindow
        /\ start_log i c (k :: ks) = start_log i (apply_call c k) ks)
       \/ (disableCadenceBudgets c = false ->
           starts_of (apply_call c k) i = pruneStarts (starts_of c i) t dayWindow ++ [t]
           /\ start_log i c (k :: ks) = t :: start_log i (apply_call c k) ks
           /\ countSince (pruneStarts (starts_of c i) t dayWindow) (t - hour)
                < effectiveRunsPerHour c (id_Workflow i) r
           /\ (0 < effectiveRunsPerDay c (id_Workflow i) r ->
               Z.of_nat (length (pruneStarts (starts_of c i) t dayWindow))
                 < effectiveRunsPerDay c (id_Workflow i) r)))).
Proof.
  destruct k as [g j p r' t ct b|j r' ct|run j r' t|j|run|ct|ct|seed|seed|mm b d|d];
    cbn [scheduled start_log apply_call app]; try done.
  - intros [Hj Hs]. destruct (admitProviderWorkflow g j p r' t ct b c) as [c' reason] eqn:E.
    apply admit_cases in E. cbn [fst snd].
    destruct (decide (j = i)) as [->|Hne].
    + rewrite bool_decide_eq_true_2 in * by done. destruct (Hj eq_refl) as (-> & -> & Hlast).
      destruct reason as [x|].
      * destruct E as [->|(s & -> & [-> | ->])]; (split; [done|]).
        -- left. split; [done|]. split; [done|]. eauto.
        -- left. split; [done|]. split; [done|]. eauto.
        -- right. exists t. split; [done|]. split; [done|]. left. split; [|done].
           unfold starts_of at 1; cbn. by rewrite lookup_insert_eq.
      * destruct E as (-> & _ & _ & _ & _ & Hb). split; [done|]. right. exists t.
        split; [done|]. split; [done|]. right. intros Hd. destruct (Hb Hd) as [Hh Hday].
        split; [unfold starts_of at 1; cbn; by rewrite lookup_insert_eq|]. auto.
    + rewrite bool_decide_eq_false_2 in * by done. cbn [app].
      assert (Hst : starts_of c' i = starts_of c i /\ same_config c c').
      { destruct reason as [x|]; [destruct E as [->|(s & -> & [-> | ->])]|destruct E as (-> & _)];
          (split; [|done]); unfold starts_of; cbn; by rewrite ?lookup_insert_ne. }
      destruct Hst as [Hst Hcfg]. split; [done|]. left. split; [done|]. split; [done|].
      exists last. split; [lia|done].
  - intros Hs. unfold ReserveContinuation.
    destruct (reserveContinuation _ _ _ _) as [c' [x|]] eqn:E; apply reserveContinuation_cases in E.
    + destruct E as [-> _]. split; [done|]. left. eauto using Z.le_refl.
    + destruct E as (-> & _). split; [done|]. left. eauto using Z.le_refl.
  - intros Hs. unfold reserveParentContinuation.
    destruct (reserveContinuation _ _ _ _) as [c' [x|]] eqn:E; apply reserveContinuation_cases in E.
    + destruct E as [-> [-> | ->]]; (split; [done|]); left; eauto using Z.le_refl.
    + destruct E as (-> & _). split; [done|]. left. eauto using Z.le_refl.
  - intros Hs. unfold ReleaseWorkflow. destruct (0 <? _); (split; [done|]); left; eauto using Z.le_refl.
  - intros Hs. split; [done|]. left. eauto using Z.le_refl.
  - intros Hs. unfold WorkerAvailability. destruct (_ <=? 0); (split; [done|]); left; eauto using Z.le_refl.
  - intros Hs. split; [done|]. left. eauto using Z.le_refl.
  - intros Hs. split; [done|]. left. eauto using Z.le_refl.
Qed.

Lemma budgets_hold i r perHour perDay ks : forall last c log,
  scheduled i r last ks -> disableCadenceBudgets c = false ->
  effectiveRunsPerHour c (id_Workflow i) r = perHour ->
  effectiveRunsPerDay c (id_Workflow i) r = perDay ->
  history_ok last (starts_of c i) log -> windows_ok perHour perDay log ->
  windows_ok perHour perDay (log ++ start_log i c ks).
Proof.
  induction ks as [|k ks IH]; intros last c log Hs Hcad Hh Hd Hhist Hw.
  { cbn. by rewrite app_nil_r. }
  destruct (scheduled_call i r last k ks c Hs) as [(Hc1 & Hc2 & Hc3) Hcase].
  assert (Hh' : effectiveRunsPerHour (apply_call c k) (id_Workflow i) r = perHour)
    by (rewrite <- Hh; unfold effectiveRunsPerHour; by rewrite Hc1).
  assert (Hd' : effectiveRunsPerDay (apply_call c k) (id_Workflow i) r = perDay)
    by (rewrite <- Hd; unfold effectiveRunsPerDay; by rewrite Hc2).
  rewrite <- Hc3 in Hcad.
  destruct Hcase as [(Hst & -> & last' & Hle & Hs')|(t & Hle & Hs' & [[Hst ->]|Hadm])].
  - apply (IH last' _ _ Hs'); auto. rewrite Hst. destruct Hhist as (H1 & H2 & H3).
    split; [done|]. split; [intros x Hx; apply H2 in Hx; lia|].
    intros f Hf. apply H3. intros x Hx. apply Hf in Hx. lia.
  - apply (IH t _ _ Hs'); auto. rewrite Hst. by eapply prune_history_ok.
  - rewrite Hc3 in Hcad. destruct (Hadm Hcad) as (Hst & -> & H1 & H2).
    rewrite Hh in H1. rewrite Hd in H2.
    destruct (admit_window perHour perDay t _ log (prune_history_ok _ t _ _ Hhist Hle) Hw H1 H2)
      as [Hhist' Hw'].
    rewrite cons_middle, app_assoc. apply (IH t _ _ Hs'); auto; [congruence|]. by rewrite Hst.
Qed.

(** C17: the rolling budgets hold.  While cadence budgets are enabled and the limits are
    not reconfigured or reseeded, a workflow that begins with no earlier starts and
    whose starts never bypass the budgets (no [run --force]) and are asked for with a
    clock that does not go back has, in any window of an hour, at most as many
    admitted starts as its hourly budget, and in any window of a day at most as many
    as its daily one, if it has one, whatever else the instance runs meanwhile. *)
Theorem rolling_budgets_hold i r last c ks :
  starts_of c i = [] -> disableCadenceBudgets c = false -> scheduled i r last ks ->
  let perHour := effectiveRunsPerHour c (id_Workflow i) r in
  let perDay := effectiveRunsPerDay c (id_Workflow i) r in
  (forall a, count (in_window a hour) (start_log i c ks) <= Z.max 0 perHour)
  /\ (0 < perDay -> forall a, count (in_window a dayWindow) (start_log i c ks) <= perDay).
Proof.
  intros Hempty Hcad Hs. cbn zeta. apply (budgets_hold i r _ _ ks last c []); auto.
  - rewrite Hempty. split; [constructor|]. split; [set_solver|done].
  - split; intros; unfold count; cbn; lia.
Qed.

(** ** Parked parents *)

Lemma olderThan_trans a ra b rb c rc :
  olderThan a ra b rb = true -> olderThan b rb c rc = true -> olderThan a ra c rc = true.
Proof.
  unfold olderThan. intros H1 H2. brefl. rewrite !string_ltb_iff in *.
  destruct H1 as [H1|[H1 H1']], H2 as [H2|[H2 H2']]; try (left; lia).
  right. split; [lia|]. by eapply string_compare_trans.
Qed.

Lemma olderThan_irrefl a ra : olderThan a ra a ra = false.
Proof.
  unfold olderThan, Before. rewrite Z.ltb_irrefl, Z.eqb_refl. cbn. unfold String.ltb.
  by rewrite string_compare_refl.
Qed.

(** A non-empty list of claims has one that no other is older than. *)
Lemma oldest_exists (l : list (string * continuationClaim)) :
  l <> [] -> exists p, p ∈ l /\ forall q, q ∈ l -> olderThan q.2 q.1 p.2 p.1 = false.
Proof.
  induction l as [|x l IH]; [done|]. intros _. destruct l as [|y l].
  { exists x. split; [left|]. intros q Hq%list_elem_of_singleton. subst. apply olderThan_irrefl. }
  destruct IH as (p & Hp & Hold); [done|]. destruct (olderThan x.2 x.1 p.2 p.1) eqn:E.
  - exists x. split; [left|]. intros q [->|Hq]%elem_of_cons; [apply olderThan_irrefl|].
    destruct (olderThan q.2 q.1 x.2 x.1) eqn:Eq; [|done].
    rewrite <- (Hold q Hq). symmetry. by eapply olderThan_trans.
  - exists p. split; [by right|]. intros q [->|Hq]%elem_of_cons; auto.
Qed.

Lemma count_zero {A} (f : A -> bool) l : (forall x, x ∈ l -> f x = false) -> count f l = 0.
Proof.
  induction l as [|x l IH]; intros H; [done|]. rewrite count_cons, IH by set_solver.
  rewrite H by left. done.
Qed.
Lemma count_pos {A} (f : A -> bool) l x : x ∈ l -> f x = true -> 1 <= count f l.
Proof.
  intros Hx Hf. induction Hx as [|y z l Hx IH]; rewrite count_cons; pose proof (count_nonneg f l).
  - rewrite Hf. lia.
  - specialize (IH Hf). case_match; lia.
Qed.

Definition oldest_claim (c : Conditions) (runID : string) (own : continuationClaim) : Prop :=
  claims c !! runID = Some own /\
  forall other cl, claims c !! other = Some cl -> olderThan cl other own runID = false.

Lemma oldest_unheld c runID own i : oldest_claim c runID own -> heldByClaims c i runID = (0, 0).
Proof.
  intros [Hown Hold]. unfold heldByClaims.
  assert (Hh : forall p, p ∈ map_to_list (claims c) -> holds_against c runID p = false).
  { intros [o cl] Hin%elem_of_map_to_list. unfold holds_against. rewrite Hown. cbn.
    rewrite (Hold o cl Hin). cbn. by rewrite orb_true_r. }
  f_equal; apply count_zero; intros p Hp; by rewrite Hh.
Qed.

(** Waiting parents cannot block each other: whenever parents wait, one of
    them finds no capacity held against it, for any workflow. *)
Theorem some_waiting_parent_is_first c :
  claims c <> ∅ ->
  exists runID own, claims c !! runID = Some own /\ forall i, heldByClaims c i runID = (0, 0).
Proof.
  intros Hne. destruct (oldest_exists (map_to_list (claims c))) as ([runID own] & Hin & Hold).
  { rewrite map_to_list_empty_iff. done. }
  apply elem_of_map_to_list in Hin. exists runID, own. split; [done|]. intros i.
  apply (oldest_unheld c runID own). split; [done|]. intros o cl Ho.
  apply (Hold (o, cl)), elem_of_map_to_list, Ho.
Qed.

(** A freed slot goes to the longest waiting parent: while its claim is
    live, with one slot of its workflow free, a new start and an ordinary
    resume of that workflow are refused, and the parent's own resume succeeds
    and ends its claim. *)
Theorem freed_slot_goes_to_waiting_parent gates c runID own r now :
  oldest_claim c runID own -> Before now (cc_until own) = true -> claims c !! "" = None ->
  ActiveWorkflow c (cc_identity own) = maxConcurrentRuns r - 1 ->
  (0 < instanceMaxParallel c -> totalActive c < instanceMaxParallel c) ->
  (forall provider t bypass,
     (admitProviderWorkflow gates (cc_identity own) provider r t now bypass c).2 <> None)
  /\ (ReserveContinuation (cc_identity own) r now c).2 = Some ReasonMaxParallel
  /\ (reserveParentContinuation runID (cc_identity own) r now c).2 = None
  /\ claims (reserveParentContinuation runID (cc_identity own) r now c).1 !! runID = None.
Proof.
  intros Hold Hlive Hblank Hact Hinst. pose proof Hold as [Hown _].
  set (i := cc_identity own) in *. set (c' := pruneClaims now c).
  assert (Hown' : claims c' !! runID = Some own) by (apply map_lookup_filter_Some; done).
  assert (Hold' : oldest_claim c' runID own).
  { split; [done|]. intros o cl [Ho _]%map_lookup_filter_Some. by apply (proj2 Hold). }
  assert (Hblank' : claims c' !! "" = None) by (apply map_lookup_filter_None; auto).
  assert (Hheld : 1 <= (heldByClaims c' i "").1).
  { cbn [heldByClaims fst]. apply count_pos with (runID, own); [by apply elem_of_map_to_list|].
    unfold holds_against. rewrite Hblank'. cbn. rewrite orb_false_r.
    rewrite bool_decide_eq_true_2 by done. rewrite andb_true_r. apply negb_true_iff, String.eqb_neq.
    intros ->. congruence. }
  assert (Hact' : ActiveWorkflow c' i = maxConcurrentRuns r - 1) by exact Hact.
  split; [|split].
  - intros provider t bypass. destruct (admitProviderWorkflow _ _ _ _ _ _ _ _) as [c1 [x|]] eqn:E;
      [done|]. apply admit_cases in E as (_ & Hlt & _). fold c' in Hlt. cbn in *. lia.
  - unfold ReserveContinuation, reserveContinuation. fold c'.
    destruct (heldByClaims c' i "") as [hw hi]. cbn in Hheld.
    rewrite (proj2 (Z.leb_le _ _)) by lia. done.
  - unfold reserveParentContinuation, reserveContinuation. fold c'.
    rewrite (oldest_unheld c' runID own i Hold').
    rewrite (proj2 (Z.leb_gt _ _)) by lia.
    destruct ((0 <? instanceMaxParallel c') && _) eqn:E.
    { brefl. destruct E as [E1 E2]. change (instanceMaxParallel c') with (instanceMaxParallel c) in *.
      change (totalActive c') with (totalActive c) in *. specialize (Hinst E1). lia. }
    split; [done|]. cbn. apply lookup_delete_eq.
Qed.

(** ** Refusals *)

(** A refused start reserves nothing: counters are untouched, no claim is
    dropped but expired ones, and no start is recorded. *)
Theorem refused_start_reserves_nothing gates i provider r now cnow bypass c c' reason :
  admitProviderWorkflow gates i provider r now cnow bypass c = (c', Some reason) ->
  active c' = active c /\ totalActive c' = totalActive c
  /\ (forall run cl, claims c !! run = Some cl -> Before cnow (cc_until cl) = true ->
        claims c' !! run = Some cl)
  /\ (forall j t, t ∈ starts_of c' j -> t ∈ starts_of c j).
Proof.
  intros E. apply admit_cases in E.
  assert (Hdrop : forall cutoff l t, t ∈ drop_before cutoff l -> t ∈ l).
  { intros cutoff l t. induction l as [|x l IH]; cbn; [done|].
    destruct (Before x cutoff); [intros H%IH; by right | done]. }
  destruct E as [->|(s & -> & Hs)]; [done|]. split; [done|]. split; [done|]. split.
  - intros run cl H1 H2. cbn. apply map_lookup_filter_Some. done.
  - intros j t. destruct Hs as [-> | ->]; [done|]. unfold starts_of at 1; cbn.
    destruct (decide (j = i)) as [->|Hne]; [|by rewrite lookup_insert_ne].
    rewrite lookup_insert_eq. cbn. apply Hdrop.
Qed.

(** A zero override stops a workflow: with a zero hourly or daily budget
    for it in the instance configuration, no start is ever admitted, not even
    one that bypasses the cadence budgets or with budgets disabled. *)
Theorem zero_override_stops gates i provider r now cnow bypass c :
  workflowBudgets c !! id_Workflow i = Some 0 \/ dayBudgets c !! id_Workflow i = Some 0 ->
  (admitProviderWorkflow gates i provider r now cnow bypass c).2 <> None.
Proof.
  intros Hz E0. destruct (admitProviderWorkflow _ _ _ _ _ _ _ _) as [c' reason] eqn:E.
  cbn in E0. subst reason. apply admit_cases in E as (_ & _ & _ & H1 & H2 & _).
  unfold zero_override in *. cbn in *. destruct Hz as [Hz|Hz]; rewrite Hz in *; done.
Qed.

(** Budgets beyond 32 bits wrap: an hourly override of 2^32 runs admits no
    run at all, where any smaller positive one below 2^31 is taken as is. *)
Theorem huge_budget_wraps c wf r n :
  (workflowBudgets c !! wf = Some (2 ^ 32) -> effectiveRunsPerHour c wf r = 0)
  /\ (workflowBudgets c !! wf = Some n -> 0 < n < 2 ^ 31 -> effectiveRunsPerHour c wf r = n).
Proof.
  unfold effectiveRunsPerHour. split; [intros ->; done|]. intros -> Hn.
  rewrite (proj2 (Z.ltb_lt 0 n)) by lia. apply int32_id. lia.
Qed.

(** ** Admission at work *)

Module ConditionsExample.
Definition open_gates : Gates := mkGates None None None None.
Definition wf : WorkflowIdentity := mkIdentity "web" "implement".
Definition readiness : ReadinessConditions := mkReadiness 1 2 5 0.
Definition start (t : Time) : call := CallAdmit open_gates wf "github" readiness t t false.
Definition limited : Conditions := SetInstanceLimits 2 ∅ ∅ NewConditions.

(** [parent-1] asked to resume while the only slot was taken; the slot is then
    freed. *)
Definition waiting : Conditions :=
  foldl apply_call limited [start 1000; CallParent "parent-1" wf readiness 2000; CallRelease wf].
Definition parent_claim : continuationClaim :=
  mkContinuation wf 1 2000 (2000 + ContinuationClaimTTL).

Lemma counters_stay_consistent_witness :
  let c := foldl apply_call NewConditions [start 1000; CallRelease wf; CallRelease wf] in
  totalActive c = sum_active (active c) /\ forall i, 0 <= ActiveWorkflow c i.
Proof.
  apply (counters_stay_consistent [start 1000; CallRelease wf; CallRelease wf]).
  repeat constructor.
Defined.

Lemma caps_are_never_exceeded_witness :
  let c' := foldl apply_call limited [start 1000; start 2000] in
  totalActive c' <= 2 /\ ActiveWorkflow c' wf <= 1.
Proof.
  apply (caps_are_never_exceeded limited [start 1000; start 2000] wf 1);
    [split; [reflexivity | intros i; discriminate] | reflexivity | discriminate | discriminate
    | repeat constructor].
Defined.

Lemma rolling_budgets_hold_witness :
  start_log wf limited [start 1000; CallRelease wf; start 2000; CallRelease wf; start 3000]
    = [1000; 2000] /\
  (forall a, count (in_window a hour)
     (start_log wf limited [start 1000; CallRelease wf; start 2000; CallRelease wf; start 3000]) <= 2).
Proof.
  split; [vm_compute; reflexivity|].
  apply (rolling_budgets_hold wf readiness 0 limited
           [start 1000; CallRelease wf; start 2000; CallRelease wf; start 3000]);
    [reflexivity | reflexivity | repeat split; discriminate].
Defined.

Lemma some_waiting_parent_is_first_witness :
  exists runID own, claims waiting !! runID = Some own /\ forall i, heldByClaims waiting i runID = (0, 0).
Proof. apply (some_waiting_parent_is_first waiting). vm_compute. discriminate. Defined.

Lemma waiting_oldest : oldest_claim waiting "parent-1" parent_claim.
Proof.
  split; [vm_compute; reflexivity|]. intros o cl H.
  assert (claims waiting = {["parent-1" := parent_claim]}) as Hc by (vm_compute; reflexivity).
  rewrite Hc in H. apply lookup_singleton_Some in H as [<- <-]. apply olderThan_irrefl.
Qed.

Lemma freed_slot_goes_to_waiting_parent_witness :
  (forall provider t bypass,
     (admitProviderWorkflow open_gates wf provider readiness t 3000 bypass waiting).2 <> None)
  /\ (ReserveContinuation wf readiness 3000 waiting).2 = Some ReasonMaxParallel
  /\ (reserveParentContinuation "parent-1" wf readiness 3000 waiting).2 = None
  /\ claims (reserveParentContinuation "parent-1" wf readiness 3000 waiting).1 !! "parent-1" = None.
Proof.
  apply (freed_slot_goes_to_waiting_parent open_gates waiting "parent-1" parent_claim readiness 3000);
    [apply waiting_oldest | vm_compute; reflexivity..| intros _; vm_compute; reflexivity].
Defined.

Definition refused : Conditions * option skip_reason :=
  admitProviderWorkflow open_gates wf "github" readiness 3000 3000 false waiting.

Lemma refused_start_reserves_nothing_witness :
  refused.2 = Some ReasonMaxParallel /\
  active refused.1 = active waiting /\ totalActive refused.1 = totalActive waiting
  /\ (forall run cl, claims waiting !! run = Some cl -> Before 3000 (cc_until cl) = true ->
        claims refused.1 !! run = Some cl)
  /\ (forall j t, t ∈ starts_of refused.1 j -> t ∈ starts_of waiting j).
Proof.
  split; [vm_compute; reflexivity|].
  apply (refused_start_reserves_nothing open_gates wf "github" readiness 3000 3000 false waiting
           refused.1 ReasonMaxParallel).
  vm_compute. reflexivity.
Defined.

Lemma zero_override_stops_witness :
  let c := SetCadenceBudgetsDisabled true
             (SetInstanceLimits 0 {["implement" := 0]} ∅ NewConditions) in
  (admitProviderWorkflow open_gates wf "github" readiness 1000 1000 true c).2 <> None.
Proof.
  apply (zero_override_stops open_gates wf "github" readiness 1000 1000 true). left. reflexivity.
Defined.

Lemma huge_budget_wraps_witness :
  effectiveRunsPerHour (SetInstanceLimits 0 {["implement" := 2 ^ 32]} ∅ NewConditions)
    "implement" readiness = 0.
Proof.
  apply (huge_budget_wraps (SetInstanceLimits 0 {["implement" := 2 ^ 32]} ∅ NewConditions)
           "implement" readiness 1).
  vm_compute. reflexivity.
Defined.
End ConditionsExample.
