(* ===== verification/Api.v ===== *)
(** * The workflow API types: [api/v1alpha1/workflow_types.go]

    The declarations an author writes, with the fields the modelled code reads.
    A Go map with string keys is a [gmap string]; a nil pointer is [None]. *)

From S2P Require Export GoStrings.
Local Open Scope string_scope.
Local Open Scope list_scope.
Local Open Scope Z_scope.

Inductive TaskType := TaskAgentic | TaskDeterministic | TaskTypeOther (s : string).
Inductive EvaluatorKind :=
| EvaluatorAutomated | EvaluatorAgentic | EvaluatorHuman | EvaluatorOther (s : string).
Inductive WorkspaceMode :=
| WorkspaceUnset | WorkspaceRepo | WorkspaceRepoReadOnly | WorkspaceScratch | WorkspaceOther (s : string).
Inductive BranchFailurePolicy :=
| BranchFailFast | BranchAllOrNothing | BranchContinueOnError | PolicyUnset | PolicyOther (s : string).

#[export] Instance TaskType_eq_dec : EqDecision TaskType.
Proof. solve_decision. Defined.
#[export] Instance EvaluatorKind_eq_dec : EqDecision EvaluatorKind.
Proof. solve_decision. Defined.
#[export] Instance WorkspaceMode_eq_dec : EqDecision WorkspaceMode.
Proof. solve_decision. Defined.
#[export] Instance BranchFailurePolicy_eq_dec : EqDecision BranchFailurePolicy.
Proof. solve_decision. Defined.

(** [RunsOn]. *)
Record RunsOn := mkRunsOn {
  OS : string;
  CPU : string;
  Memory : string;
  Disk : string;
  on_Capabilities : list string;
  on_Restrictions : list string;
}.

(** [DeterministicRun]; [Command] is [None] when nil. *)
Record DeterministicRun := mkRun {
  Command : list string;
  Command_set : bool;
  Script : string;
  run_Workspace : WorkspaceMode;
  Env : gmap string string;
  Network : string;
}.

(** [Limits], the field the modelled code reads. *)
Record Limits := mkLimits { MaxDurationSeconds : Z }.

Record Task := mkTask {
  task_Name : string;
  task_Type : TaskType;
  task_Goober : string;
  ChildWorkflows : bool;
  task_Run : option DeterministicRun;
  Inputs : gmap string string;
  MinimumIntegrity : string;
  ContextFrom : list string;
  TimeoutSeconds : Z;
  OnTimeout : string;
  ExpectedOutputs : list string;
  InputsFrom : gmap string string;
  task_Workspace : WorkspaceMode;
  Next : string;
  task_RunsOn : option RunsOn;
  RepoFrom : list string;
  CommitsRepo : bool;
  task_Limits : option Limits;
  ContinueOnError : bool;
  PolicyActions : list string;
  RequiredCapabilities : option (list string);
}.

Record RetryPolicy := mkRetry { retry_MaxAttempts : Z; BackoffSeconds : Z }.
Record AutomatedGate := mkAutomated {
  Check : string;
  Params : gmap string string;
  automated_Retry : option RetryPolicy;
  MaxTimeoutPolls : Z;
  automated_TimeoutSeconds : Z;
  PollIntervalSeconds : Z;
}.
Record AgenticGate := mkAgentic {
  agentic_Goober : string;
  agentic_Retry : option RetryPolicy;
  agentic_Workspace : WorkspaceMode;
  agentic_TimeoutSeconds : Z;
}.
Record HumanGate := mkHuman { Approvers : list string }.

Record Gate := mkGate {
  gate_Name : string;
  Evaluator : EvaluatorKind;
  Automated : option AutomatedGate;
  Agentic : option AgenticGate;
  gate_Human : option HumanGate;
  gate_Branches : gmap string string;
  gate_MaxRepasses : Z;
  gate_RunsOn : option RunsOn;
}.

Record Branch := mkBranch { branch_Name : string; branch_Start : string }.

Record Parallel := mkParallel {
  par_Name : string;
  FailurePolicy : BranchFailurePolicy;
  par_Branches : list Branch;
  par_Join : string;
  OnFailure : string;
  BranchTimeoutSeconds : Z;
  MaxConcurrentBranches : Z;
}.

(** A DSL 3.1 [map] state, the fields the state graph reads. *)
Record MapState := mkMap {
  map_Name : string;
  map_Task : string;
  map_Join : string;
  map_OnFailure : string;
}.

(** [RunControls]. *)
Record RunControls := mkControls {
  MaxRepasses : Z;
  StalledRunTimeout : string;
  MaxRunDuration : string;
}.

(** [WorkflowSpec]; [Extensions] is set when the workflow declares a backprop
    policy, a task an artifact slot, an artifact input or an empty [repoFrom] list,
    a parallel a selection, or a branch that it is optional: what the modelled code
    only looks for. *)
Record WorkflowSpec := mkSpec {
  Start : string;
  spec_RunControls : option RunControls;
  Tasks : list Task;
  Gates_ : list Gate;
  Parallels : list Parallel;
  Maps : list MapState;
  Extensions : bool;
}.

(** [model.Definition]. *)
Record Definition_ := mkDefinition {
  def_Name : string;
  def_Version : Z;
  DSLVersion : string;
  Spec : WorkflowSpec;
}.

(** The sorted keys of a Go map. *)
Definition sortedKeys {A} (m : gmap string A) : list string :=
  sort_strings (map fst (map_to_list m)).

Lemma sortedKeys_elem {A} (m : gmap string A) k : k ∈ sortedKeys m <-> exists v, m !! k = Some v.
Proof.
  unfold sortedKeys, sort_strings. rewrite sort_by_elem, list_elem_of_fmap. split.
  - intros ([k' v] & -> & H%elem_of_map_to_list). eauto.
  - intros [v H]. exists (k, v). split; [done|]. by apply elem_of_map_to_list.
Qed.
