(* ===== verification/RunControl.v ===== *)
(** * Run control: [internal/runcontrol]

    The repass accounting both drivers charge every gate outcome against
    ([repassbudget.go]), and the resolution of inherited run-control policy
    ([runcontrol.go]). *)

From S2P Require Export Api.
Local Open Scope string_scope.
Local Open Scope list_scope.
Local Open Scope Z_scope.

(** ** Bounds *)

Definition DefaultMaxRepasses : Z := 3.
Definition DefaultStalledRunTimeout : Duration := 45 * minute.
Definition DefaultMaxInfrastructureRepasses : Z := 2.
Definition DefaultMaxTimeoutPolls : Z := 12.

Definition MaxRepassesForGate (g : Gate) (inherited : Z) : Z :=
  if 0 <? gate_MaxRepasses g then gate_MaxRepasses g
  else if 0 <? inherited then inherited else DefaultMaxRepasses.

Definition MaxTimeoutPollsForGate (g : Gate) : Z :=
  match Automated g with
  | Some a => if 0 <? MaxTimeoutPolls a then MaxTimeoutPolls a else DefaultMaxTimeoutPolls
  | None => DefaultMaxTimeoutPolls
  end.

(** ** The budget *)

(** A Go map of counters: [None] is a nil map, which reads as 0 everywhere. *)
Abbreviation Counters := (option (gmap string Z)).

Definition counter (m : Counters) (k : string) : Z := default 0 (default ∅ m !! k).
(** [m[k] = v] and [m[k]++] on a map made when nil. *)
Definition set_counter (m : Counters) (k : string) (v : Z) : Counters :=
  Some (<[k := v]> (default ∅ m)).
Definition bump (m : Counters) (k : string) : Counters := set_counter m k (counter m k + 1).
(** The resets that a nil map skips. *)
Definition reset_if_made (m : Counters) (target : option string) : Counters :=
  match m, target with
  | Some _, Some k => set_counter m k 0
  | _, _ => m
  end.

Record RepassBudget := mkBudget {
  Attempts : Counters;
  InfrastructureAttempts : Counters;
  RepassAttempts : Counters;
  InfrastructureRepassAttempts : Counters;
  PollAttempts : Counters;
}.

Record RepassCharge := mkCharge {
  Attempt : Z;
  GateAttempt : Z;
  RepassTarget : string;
  Infrastructure : bool;
  Bound : Z;
  Exceeded : bool;
  Polling : bool;
  PollAttempt : Z;
  PollTarget : string;
}.

(** The class of a gate outcome. *)
Definition is_infra (outcome : string) : bool := (outcome =? "infra")%string.
Definition is_timeout (outcome : string) : bool := (outcome =? "timeout")%string.
Definition is_pass (outcome : string) : bool := (outcome =? "pass")%string.

Arguments is_infra : simpl never.
Arguments is_timeout : simpl never.
Arguments is_pass : simpl never.

(** The counters of one gate after its outcome, and the gate's attempt. *)
Definition charge_gate (b : RepassBudget) (g : Gate) (outcome : string)
    : Counters * Counters * Z :=
  let att := Some (default ∅ (Attempts b)) in
  let inf := Some (default ∅ (InfrastructureAttempts b)) in
  let n := gate_Name g in
  if is_pass outcome then (set_counter att n 0, set_counter inf n 0, 0)
  else if is_timeout outcome then (att, inf, 0)
  else if is_infra outcome
  then (set_counter att n 0, bump inf n, counter inf n + 1)
  else (bump att n, set_counter inf n 0, counter att n + 1).

(** [RepassBudget.Charge]. *)
Definition Charge (b : RepassBudget) (g : Gate) (outcome target : string) (reentry : bool)
    (maxRepasses : Z) : RepassBudget * RepassCharge :=
  let infrastructure := is_infra outcome in
  let waiting := is_timeout outcome in
  let infraRepass := if negb infrastructure && negb waiting
                     then reset_if_made (InfrastructureRepassAttempts b) (gate_Branches g !! "infra")
                     else InfrastructureRepassAttempts b in
  let polls := if negb waiting
               then reset_if_made (PollAttempts b) (gate_Branches g !! "timeout")
               else PollAttempts b in
  let bound := if infrastructure then DefaultMaxInfrastructureRepasses
               else MaxRepassesForGate g maxRepasses in
  let '(att, inf, gateAttempt) := charge_gate b g outcome in
  let uncharged := mkCharge 0 gateAttempt "" infrastructure bound false false 0 "" in
  if waiting then
    if negb reentry then (mkBudget att inf (RepassAttempts b) infraRepass polls, uncharged)
    else
      let polls := bump polls target in
      let attempt := counter polls target in
      (mkBudget att inf (RepassAttempts b) infraRepass polls,
       mkCharge 0 gateAttempt "" infrastructure (MaxTimeoutPollsForGate g)
         (MaxTimeoutPollsForGate g <? attempt) true attempt target)
  else if negb reentry || is_pass outcome
  then (mkBudget att inf (RepassAttempts b) infraRepass polls, uncharged)
  else if infrastructure then
    let infraRepass := bump infraRepass target in
    let attempt := counter infraRepass target in
    (mkBudget att inf (RepassAttempts b) infraRepass polls,
     mkCharge attempt gateAttempt target infrastructure bound (bound <? attempt) false 0 "")
  else
    let repass := bump (RepassAttempts b) target in
    let attempt := counter repass target in
    (mkBudget att inf repass infraRepass polls,
     mkCharge attempt gateAttempt target infrastructure bound (bound <? attempt) false 0 "").

Inductive escalation := ReasonPollingBudgetExhausted | ReasonInfrastructureBudgetExhausted
| ReasonRepassBudgetExhausted.

(** [RepassCharge.EscalationReason]. *)
Definition EscalationReason (c : RepassCharge) : escalation :=
  if Polling c then ReasonPollingBudgetExhausted
  else if Infrastructure c then ReasonInfrastructureBudgetExhausted
  else ReasonRepassBudgetExhausted.

(** ** Policy resolution *)

(** The duration syntax of the [time] package. *)
Class DurationSyntax := {
  ParseDuration : string -> option Duration;
  duration_String : Duration -> string;
}.

Inductive control_error :=
| ErrMaxRepasses (path : string) | ErrDuration (path field : string)
| ErrDurationNotPositive (path field : string) | ErrStalledRequired
| ErrGateMaxRepasses (gate : string) | ErrGateHuman (gate : string) | ErrGatePolls (gate : string).

Section controls.
Context {DS : DurationSyntax}.

Record Effective := mkEffective {
  eff_MaxRepasses : Z;
  eff_StalledRunTimeout : Duration;
  eff_MaxRunDuration : Duration;
}.

Definition parseDurationField (path field value : string) : result control_error Duration :=
  match ParseDuration value with Some d => Ok d | None => Error (ErrDuration path field) end.

(** The check of one duration field. *)
Definition validate_duration (path field value : string) : option control_error :=
  if (value =? "")%string then None
  else match parseDurationField path field value with
  | Error e => Some e
  | Ok d => if d <=? 0 then Some (ErrDurationNotPositive path field) else None
  end.

(** [Validate]. *)
Definition Validate (path : string) (c : RunControls) : option control_error :=
  if MaxRepasses c <? 0 then Some (ErrMaxRepasses path)
  else match validate_duration path "stalledRunTimeout" (StalledRunTimeout c) with
  | Some e => Some e
  | None => validate_duration path "maxRunDuration" (MaxRunDuration c)
  end.

(** [Effective.apply]. *)
Definition apply (path : string) (c : RunControls) (e : Effective) : result control_error Effective :=
  let e1 := if 0 <? MaxRepasses c
            then mkEffective (MaxRepasses c) (eff_StalledRunTimeout e) (eff_MaxRunDuration e) else e in
  (try e2 <- (if (StalledRunTimeout c =? "")%string then Ok e1
             else try d <- parseDurationField path "stalledRunTimeout" (StalledRunTimeout c);
                  Ok (mkEffective (eff_MaxRepasses e1) d (eff_MaxRunDuration e1)));
   (if (MaxRunDuration c =? "")%string then Ok e2
    else try d <- parseDurationField path "maxRunDuration" (MaxRunDuration c);
         Ok (mkEffective (eff_MaxRepasses e2) (eff_StalledRunTimeout e2) d)))%goobers.

(** One scope of [Resolve]'s loop; [None] is a nil pointer. *)
Definition resolve_scope (path : string) (c : option RunControls) (e : Effective)
    : result control_error Effective :=
  match c with
  | None => Ok e
  | Some c => match Validate path c with Some err => Error err | None => apply path c e end
  end.

(** [Resolve]. *)
Definition Resolve (instance : RunControls) (gaggle workflow : option RunControls)
    : result control_error Effective :=
  (try e1 <- resolve_scope "runConditions" (Some instance)
               (mkEffective DefaultMaxRepasses DefaultStalledRunTimeout 0);
   try e2 <- resolve_scope "gaggle.spec.runControls" gaggle e1;
   resolve_scope "workflow.spec.runControls" workflow e2)%goobers.

(** [ValidatePinned]. *)
Definition ValidatePinned (c : option RunControls) : option control_error :=
  match c with
  | None => None
  | Some c =>
      if MaxRepasses c <=? 0 then Some (ErrMaxRepasses "runControls")
      else if (StalledRunTimeout c =? "")%string then Some ErrStalledRequired
      else Validate "runControls" c
  end.

(** [durationString], [Effective.Overrides]. *)
Definition durationString (d : Duration) : string :=
  if d <=? 0 then "" else duration_String d.
Definition Overrides (e : Effective) : RunControls :=
  mkControls (int32 (eff_MaxRepasses e)) (duration_String (eff_StalledRunTimeout e))
    (durationString (eff_MaxRunDuration e)).

(** [ValidateWorkflow]. *)
Definition validate_gate (g : Gate) : option control_error :=
  if gate_MaxRepasses g <? 0 then Some (ErrGateMaxRepasses (gate_Name g))
  else if (0 <? gate_MaxRepasses g) && bool_decide (Evaluator g = EvaluatorHuman)
  then Some (ErrGateHuman (gate_Name g))
  else match Automated g with
  | Some a => if MaxTimeoutPolls a <? 0 then Some (ErrGatePolls (gate_Name g)) else None
  | None => None
  end.

Fixpoint validate_gates (gs : list Gate) : option control_error :=
  match gs with
  | [] => None
  | g :: gs' => match validate_gate g with Some e => Some e | None => validate_gates gs' end
  end.

Definition ValidateWorkflow (spec : WorkflowSpec) : option control_error :=
  match (match spec_RunControls spec with Some c => Validate "spec.runControls" c | None => None end) with
  | Some e => Some e
  | None => validate_gates (Gates_ spec)
  end.
End controls.

(** ** What the budget bounds *)

Inductive budget_class := Policy | Infra | Poll.

#[export] Instance budget_class_eq_dec : EqDecision budget_class.
Proof. solve_decision. Defined.

(** The budget an outcome is charged to; a pass is charged to none. *)
Definition class_of (outcome : string) : option budget_class :=
  if is_pass outcome then None
  else if is_timeout outcome then Some Poll
  else if is_infra outcome then Some Infra
  else Some Policy.

Definition budget_counter (cls : budget_class) (b : RepassBudget) (target : string) : Z :=
  match cls with
  | Policy => counter (RepassAttempts b) target
  | Infra => counter (InfrastructureRepassAttempts b) target
  | Poll => counter (PollAttempts b) target
  end.

Record gate_event := mkGateEvent {
  ge_gate : Gate;
  ge_outcome : string;
  ge_target : string;
  ge_reentry : bool;
  ge_max : Z;
}.

Definition event_bound (cls : budget_class) (ev : gate_event) : Z :=
  match cls with
  | Policy => MaxRepassesForGate (ge_gate ev) (ge_max ev)
  | Infra => DefaultMaxInfrastructureRepasses
  | Poll => MaxTimeoutPollsForGate (ge_gate ev)
  end.

Definition charge_event (b : RepassBudget) (ev : gate_event) : RepassBudget * RepassCharge :=
  Charge b (ge_gate ev) (ge_outcome ev) (ge_target ev) (ge_reentry ev) (ge_max ev).

(** The event re-enters [target] at the expense of budget [cls]. *)
Definition charges (cls : budget_class) (target : string) (ev : gate_event) : Prop :=
  class_of (ge_outcome ev) = Some cls /\ ge_reentry ev = true /\ ge_target ev = target.

(** The event returns what [target] spent of budget [cls]. *)
Definition returns (cls : budget_class) (target : string) (ev : gate_event) : Prop :=
  match cls with
  | Policy => False
  | Infra => class_of (ge_outcome ev) <> Some Infra /\ class_of (ge_outcome ev) <> Some Poll
             /\ gate_Branches (ge_gate ev) !! "infra" = Some target
  | Poll => class_of (ge_outcome ev) <> Some Poll
            /\ gate_Branches (ge_gate ev) !! "timeout" = Some target
  end.

Lemma counter_set m k v j : counter (set_counter m k v) j = if bool_decide (j = k) then v else counter m j.
Proof.
  unfold counter, set_counter; cbn. case_bool_decide as D.
  - subst. by rewrite lookup_insert_eq.
  - by rewrite lookup_insert_ne.
Qed.
Lemma counter_bump m k j :
  counter (bump m k) j = counter m j + if bool_decide (j = k) then 1 else 0.
Proof. unfold bump. rewrite counter_set. case_bool_decide; subst; lia. Qed.
Lemma counter_reset m t j :
  counter (reset_if_made m t) j = if bool_decide (t = Some j) then 0 else counter m j.
Proof.
  unfold reset_if_made. destruct m as [m|], t as [k|]; rewrite ?counter_set;
    repeat case_bool_decide; simplify_eq; try done.
Qed.

(** What one charge does to one budget of one target. *)
Lemma charge_spec cls t b ev b' c :
  charge_event b ev = (b', c) ->
  (charges cls t ev ->
     budget_counter cls b' t = budget_counter cls b t + 1
     /\ Exceeded c = (event_bound cls ev <? budget_counter cls b t + 1)
     /\ Polling c = bool_decide (cls = Poll) /\ Infrastructure c = bool_decide (cls = Infra))
  /\ (~ charges cls t ev ->
     (budget_counter cls b' t = budget_counter cls b t \/
      returns cls t ev /\ budget_counter cls b' t = 0)).
Proof.
  unfold charge_event, Charge, charges, returns, class_of, event_bound.
  destruct ev as [g o tg re mx]; cbn. destruct (charge_gate b g o) as [[att inf] ga].
  destruct (is_pass o) eqn:Ep.
  { assert (is_timeout o = false /\ is_infra o = false) as [-> ->].
    { unfold is_pass, is_timeout, is_infra in *. apply String.eqb_eq in Ep. subst. done. }
    cbn. rewrite orb_true_r. intros [= <- <-]. split; [intros [? _]; done|]. intros _.
    destruct cls; cbn; rewrite ?counter_reset; try case_bool_decide; auto;
      right; (split; [naive_solver|done]). }
  destruct (is_timeout o) eqn:Et.
  { assert (is_infra o = false) as ->
      by (unfold is_timeout, is_infra in *; apply String.eqb_eq in Et; by subst).
    cbn. destruct re; cbn; intros [= <- <-].
    - split.
      + intros (H1 & _ & <-). injection H1 as <-. cbn. rewrite counter_bump, bool_decide_eq_true_2; done.
      + intros Hn. left. destruct cls; cbn; try done. rewrite counter_bump, bool_decide_eq_false_2; [lia|].
        intros ->. apply Hn. done.
    - split; [intros (_ & ? & _); done|]. intros _. by left. }
  destruct (is_infra o) eqn:Ei; cbn.
  - rewrite orb_false_r. destruct re; cbn; intros [= <- <-].
    + split.
      * intros (H1 & _ & <-). injection H1 as <-. cbn. rewrite counter_bump, bool_decide_eq_true_2; done.
      * intros Hn. destruct cls; cbn; [by left| |].
        -- rewrite counter_bump, bool_decide_eq_false_2; [left; lia|]. intros ->. apply Hn. done.
        -- rewrite counter_reset. case_bool_decide; [right; done | by left].
    + split; [intros (_ & ? & _); done|]. intros _.
      destruct cls; cbn; [by left | by left |]. rewrite counter_reset. case_bool_decide; [right; done|by left].
  - rewrite orb_false_r. destruct re; cbn; intros [= <- <-].
    + split.
      * intros (H1 & _ & <-). injection H1 as <-. cbn. rewrite counter_bump, bool_decide_eq_true_2; done.
      * intros Hn. destruct cls; cbn.
        -- rewrite counter_bump, bool_decide_eq_false_2; [left; lia|]. intros ->. apply Hn. done.
        -- rewrite counter_reset. case_bool_decide; [right; done | by left].
        -- rewrite counter_reset. case_bool_decide; [right; done | by left].
    + split; [intros (_ & ? & _); done|]. intros _.
      destruct cls; cbn; [by left | |]; rewrite counter_reset; case_bool_decide; [right; done|by left|right; done|by left].
Qed.

(** The re-entries of [target] that budget [cls] let through along a sequence
    of gate outcomes. *)
Fixpoint let_through (cls : budget_class) (target : string) (b : RepassBudget)
    (evs : list gate_event) : Z :=
  match evs with
  | [] => 0
  | ev :: evs' =>
      let '(b', c) := charge_event b ev in
      (if bool_decide (class_of (ge_outcome ev) = Some cls) && ge_reentry ev
          && (ge_target ev =? target)%string && negb (Exceeded c) then 1 else 0)
      + let_through cls target b' evs'
  end.

Definition noBudget : RepassBudget := mkBudget None None None None None.

Lemma let_through_bounded cls t B evs : forall b done_,
  0 <= done_ <= budget_counter cls b t -> done_ <= B ->
  Forall (fun ev => ~ returns cls t ev /\ (charges cls t ev -> event_bound cls ev <= B)) evs ->
  done_ + let_through cls t b evs <= B.
Proof.
  induction evs as [|ev evs IH]; intros b done_ Hd HB Hall; cbn; [lia|].
  inversion Hall as [|? ? [Hret Hbound] Hall']; subst.
  destruct (charge_event b ev) as [b' c] eqn:E. destruct (charge_spec cls t b ev b' c E) as [H1 H2].
  destruct (decide (class_of (ge_outcome ev) = Some cls)) as [Hc|Hc];
    [destruct (ge_reentry ev) eqn:Hr; [destruct (String.eqb_spec (ge_target ev) t) as [Ht|Ht]|]|].
  - assert (Hch : charges cls t ev) by (split; auto).
    destruct (H1 Hch) as (Hn & Hex & _). specialize (Hbound Hch).
    rewrite bool_decide_eq_true_2 by done. cbn. destruct (Exceeded c) eqn:Ex; cbn.
    + apply IH; auto; lia.
    + symmetry in Hex. apply Z.ltb_ge in Hex.
      rewrite Z.add_assoc. apply IH; auto; lia.
  - destruct H2 as [Hn|[Hr' _]]; [intros (_ & _ & ?); done | | done].
    rewrite andb_false_r. cbn. apply IH; auto; lia.
  - destruct H2 as [Hn|[Hr' _]]; [intros (_ & ? & _); congruence | | done].
    rewrite andb_false_r. cbn. apply IH; auto; lia.
  - destruct H2 as [Hn|[Hr' _]]; [intros (? & _); done | | done].
    rewrite bool_decide_eq_false_2 by done. cbn. apply IH; auto; lia.
Qed.

(** C32: Repasses are bounded.  Over any sequence of gate outcomes, however many
    gates share a stage, a stage is re-entered on policy outcomes at most [B] times
    when no gate that charges it has a larger bound: the policy budget is never
    given back.  The infrastructure and the polling budget of a stage are given
    back by other outcomes; from a budget that is at zero, they let at most [B]
    re-entries through as long as no outcome gives them back. *)
Theorem repasses_are_bounded target B evs :
  0 <= B ->
  (Forall (fun ev => charges Policy target ev -> event_bound Policy ev <= B) evs ->
     let_through Policy target noBudget evs <= B)
  /\ forall cls b, budget_counter cls b target = 0 ->
       Forall (fun ev => ~ returns cls target ev /\ (charges cls target ev -> event_bound cls ev <= B)) evs ->
       let_through cls target b evs <= B.
Proof.
  intros HB.
  assert (Hany : forall cls b, budget_counter cls b target = 0 ->
    Forall (fun ev => ~ returns cls target ev /\ (charges cls target ev -> event_bound cls ev <= B)) evs ->
    let_through cls target b evs <= B).
  { intros cls b Hb Hall. pose proof (let_through_bounded cls target B evs b 0) as H.
    specialize (H ltac:(lia) HB Hall). lia. }
  split; [|exact Hany]. intros Hall. apply Hany; [done|].
  eapply Forall_impl; [exact Hall|]. cbn. intros ev Hev. split; [by intros []|exact Hev].
Qed.

(** A budget escalates exactly when it is spent: a charged re-entry is
    refused if and only if the stage already used its bound, the journaled
    counter advances by one either way, and the reason names the budget. *)
Theorem escalates_exactly_when_spent cls target b ev :
  charges cls target ev ->
  let '(b', c) := charge_event b ev in
  (Exceeded c = true <-> event_bound cls ev <= budget_counter cls b target)
  /\ budget_counter cls b' target = budget_counter cls b target + 1
  /\ EscalationReason c = match cls with
                          | Policy => ReasonRepassBudgetExhausted
                          | Infra => ReasonInfrastructureBudgetExhausted
                          | Poll => ReasonPollingBudgetExhausted
                          end.
Proof.
  intros Hch. destruct (charge_event b ev) as [b' c] eqn:E.
  destruct (charge_spec cls target b ev b' c E) as [H1 _].
  destruct (H1 Hch) as (Hn & Hex & Hp & Hi). rewrite Hex. split; [rewrite Z.ltb_lt; lia|].
  split; [done|]. unfold EscalationReason. rewrite Hp, Hi. by destruct cls.
Qed.

(** The budgets are separate: a passing, infrastructure or timeout outcome
    never spends the policy budget of any stage, and no outcome but an
    infrastructure (timeout) one ever spends the infrastructure (polling)
    budget. *)
Theorem budgets_are_separate cls target b ev :
  class_of (ge_outcome ev) <> Some cls ->
  budget_counter cls (charge_event b ev).1 target = budget_counter cls b target
  \/ (cls <> Policy /\ budget_counter cls (charge_event b ev).1 target = 0).
Proof.
  intros Hne. destruct (charge_event b ev) as [b' c] eqn:E.
  destruct (charge_spec cls target b ev b' c E) as [_ H2].
  destruct H2 as [H|[Hr H]]; [by intros [? _] | by left |]. right. split; [|done].
  intros ->. done.
Qed.

(** ** What resolution guarantees *)

Section resolution.
Context {DS : DurationSyntax}.

Lemma apply_ok path c e e' :
  Validate path c = None -> apply path c e = Ok e' ->
  eff_MaxRepasses e' = (if 0 <? MaxRepasses c then MaxRepasses c else eff_MaxRepasses e)
  /\ (if (StalledRunTimeout c =? "")%string then eff_StalledRunTimeout e' = eff_StalledRunTimeout e
      else ParseDuration (StalledRunTimeout c) = Some (eff_StalledRunTimeout e')
           /\ 0 < eff_StalledRunTimeout e')
  /\ (if (MaxRunDuration c =? "")%string then eff_MaxRunDuration e' = eff_MaxRunDuration e
      else ParseDuration (MaxRunDuration c) = Some (eff_MaxRunDuration e')
           /\ 0 < eff_MaxRunDuration e').
Proof.
  unfold Validate, validate_duration, apply, parseDurationField. destruct (MaxRepasses c <? 0); [done|].
  destruct (StalledRunTimeout c =? "")%string; cbn.
  - destruct (MaxRunDuration c =? "")%string; cbn.
    + intros _ [= <-]. by destruct (0 <? MaxRepasses c).
    + destruct (ParseDuration (MaxRunDuration c)) as [d|]; [|done]. cbn.
      destruct (d <=? 0) eqn:Hd; [done|]. intros _ [= <-]. cbn. brefl.
      destruct (0 <? MaxRepasses c); auto.
  - destruct (ParseDuration (StalledRunTimeout c)) as [d|]; [|done]. cbn.
    destruct (d <=? 0) eqn:Hd; [done|]. destruct (MaxRunDuration c =? "")%string; cbn.
    + intros _ [= <-]. cbn. brefl. destruct (0 <? MaxRepasses c); auto.
    + destruct (ParseDuration (MaxRunDuration c)) as [d'|]; [|done]. cbn.
      destruct (d' <=? 0) eqn:Hd'; [done|]. intros _ [= <-]. cbn. brefl.
      destruct (0 <? MaxRepasses c); auto 10.
Qed.

(** A scope keeps the policy bounded: a positive repass budget, a positive
    inactivity threshold, a run duration that is positive or unlimited. *)
Definition bounded_policy (e : Effective) : Prop :=
  0 < eff_MaxRepasses e /\ 0 < eff_StalledRunTimeout e /\ 0 <= eff_MaxRunDuration e.

Lemma resolve_scope_bounded path c e e' :
  bounded_policy e -> resolve_scope path c e = Ok e' -> bounded_policy e'.
Proof.
  unfold resolve_scope. destruct c as [c|]; [|intros ? [= <-]; done].
  destruct (Validate path c) eqn:Hv; [done|]. intros (H1 & H2 & H3) Ha.
  destruct (apply_ok _ _ _ _ Hv Ha) as (Hr & Hs & Hm). split; [|split].
  - rewrite Hr. destruct (0 <? MaxRepasses c) eqn:E; brefl; lia.
  - destruct (StalledRunTimeout c =? "")%string; [by rewrite Hs | by destruct Hs].
  - destruct (MaxRunDuration c =? "")%string; [by rewrite Hm | destruct Hm; lia].
Qed.

Lemma Resolve_bounded instance gaggle workflow e :
  Resolve instance gaggle workflow = Ok e -> bounded_policy e.
Proof.
  unfold Resolve.
  destruct (resolve_scope "runConditions" _ _) as [e1|] eqn:E1; [|done]. cbn.
  destruct (resolve_scope "gaggle.spec.runControls" gaggle e1) as [e2|] eqn:E2; [|done]. cbn.
  intros E3. eapply resolve_scope_bounded; [|exact E3]. eapply resolve_scope_bounded; [|exact E2].
  eapply resolve_scope_bounded; [|exact E1]. split; [|split]; done.
Qed.

Definition scope_repasses (c : option RunControls) : Z :=
  match c with Some c => MaxRepasses c | None => 0 end.

Lemma resolve_scope_repasses path c e e' :
  resolve_scope path c e = Ok e' ->
  eff_MaxRepasses e' = if 0 <? scope_repasses c then scope_repasses c else eff_MaxRepasses e.
Proof.
  unfold resolve_scope. destruct c as [c|]; [|intros [= <-]; done].
  destruct (Validate path c) eqn:Hv; [done|]. intros Ha. apply (apply_ok _ _ _ _ Hv Ha).
Qed.

(** A resolved policy is always bounded, and the most specific scope that
    sets a repass budget wins: workflow over gaggle over instance over the
    built-in default. *)
Theorem resolved_policy_is_bounded instance gaggle workflow e :
  Resolve instance gaggle workflow = Ok e ->
  bounded_policy e /\
  eff_MaxRepasses e =
    (if 0 <? scope_repasses workflow then scope_repasses workflow
     else if 0 <? scope_repasses gaggle then scope_repasses gaggle
     else if 0 <? MaxRepasses instance then MaxRepasses instance
     else DefaultMaxRepasses).
Proof.
  intros Hres. split; [by eapply Resolve_bounded|]. unfold Resolve in Hres.
  destruct (resolve_scope "runConditions" _ _) as [e1|] eqn:E1; [|done]. cbn in Hres.
  destruct (resolve_scope "gaggle.spec.runControls" gaggle e1) as [e2|] eqn:E2; [|done].
  apply resolve_scope_repasses in E1, E2, Hres. rewrite Hres, E2, E1. done.
Qed.

(** Pinning a policy keeps it: if the duration syntax reads back what it
    prints, the overrides of a resolved policy validate as a pinned policy and
    resolve to the same policy again. *)
Theorem pinned_policy_round_trips instance gaggle workflow e
    (parse_print : forall d, 0 < d -> ParseDuration (duration_String d) = Some d)
    (print_nonempty : forall d, 0 < d -> duration_String d <> "") :
  Resolve instance gaggle workflow = Ok e -> eff_MaxRepasses e < 2 ^ 31 ->
  ValidatePinned (Some (Overrides e)) = None /\ Resolve (Overrides e) None None = Ok e.
Proof.
  intros Hres Hint.
  pose proof (Resolve_bounded _ _ _ _ Hres) as Hb.
  destruct Hb as (H1 & H2 & H3). destruct e as [m s d]; cbn in *.
  assert (Hs : (duration_String s =? "")%string = false) by (apply String.eqb_neq; auto).
  unfold Overrides; cbn. rewrite int32_id by lia.
  assert (Hneg : (m <? 0) = false /\ (m <=? 0) = false /\ (0 <? m) = true)
    by (rewrite Z.ltb_ge, Z.leb_gt, Z.ltb_lt; lia). destruct Hneg as (Hm1 & Hm2 & Hm3).
  unfold ValidatePinned, Resolve, resolve_scope, Validate, validate_duration, apply,
    parseDurationField; cbn. rewrite Hm1, Hm2, Hm3, Hs, parse_print by done.
  rewrite (proj2 (Z.leb_gt s 0)) by done. cbn. unfold durationString.
  destruct (d <=? 0) eqn:Hd; brefl; cbn.
  - replace d with 0 by lia. done.
  - assert (Hds : (duration_String d =? "")%string = false) by (apply String.eqb_neq; auto).
    rewrite Hds, parse_print by done. rewrite (proj2 (Z.leb_gt d 0)) by done. done.
Qed.
End resolution.

(** ** The budgets at work *)

Module RunControlExample.
Definition review : Gate :=
  mkGate "review" EvaluatorAgentic None None None {["pass" := "merge"; "fail" := "implement"; "infra" := "ci"]} 0 None.
Definition rejected : gate_event := mkGateEvent review "fail" "implement" true 2.

Lemma repasses_are_bounded_witness :
  let_through Policy "implement" noBudget [rejected; rejected; rejected; rejected] = 2
  /\ let_through Policy "implement" noBudget [rejected; rejected; rejected; rejected] <= 2.
Proof.
  split; [vm_compute; reflexivity|].
  apply (proj1 (repasses_are_bounded "implement" 2 [rejected; rejected; rejected; rejected] ltac:(discriminate))).
  repeat constructor; intros _; vm_compute; discriminate.
Defined.

Lemma escalates_exactly_when_spent_witness :
  let b := (charge_event (charge_event noBudget rejected).1 rejected).1 in
  charges Policy "implement" rejected /\
  (Exceeded (charge_event b rejected).2 = true <-> 2 <= budget_counter Policy b "implement")
  /\ budget_counter Policy (charge_event b rejected).1 "implement"
     = budget_counter Policy b "implement" + 1
  /\ EscalationReason (charge_event b rejected).2 = ReasonRepassBudgetExhausted.
Proof.
  cbv zeta. split; [repeat split; reflexivity|].
  apply (escalates_exactly_when_spent Policy "implement"
           (charge_event (charge_event noBudget rejected).1 rejected).1 rejected).
  repeat split; reflexivity.
Defined.

Lemma budgets_are_separate_witness :
  let ev := mkGateEvent review "infra" "ci" true 2 in
  let b := (charge_event noBudget rejected).1 in
  budget_counter Policy (charge_event b ev).1 "implement" = budget_counter Policy b "implement"
  \/ (Policy <> Policy /\ budget_counter Policy (charge_event b ev).1 "implement" = 0).
Proof.
  cbv zeta. apply (budgets_are_separate Policy "implement" (charge_event noBudget rejected).1
                     (mkGateEvent review "infra" "ci" true 2)). discriminate.
Defined.

(** A duration syntax that writes a positive duration in unary seconds and
    reads it back. *)
Fixpoint unary (n : nat) : string := match n with O => "" | S n' => "i" +:+ unary n' end.
Definition unary_syntax : DurationSyntax := {|
  ParseDuration s := Some (Z.of_nat (String.length s));
  duration_String d := unary (Z.to_nat d);
|}.

Lemma unary_length n : String.length (unary n) = n.
Proof. induction n as [|n IH]; [reflexivity|]. simpl. f_equal. exact IH. Qed.

Definition controls (n : Z) : RunControls := mkControls n "" "".

Lemma resolved_policy_is_bounded_witness :
  @Resolve unary_syntax (controls 4) None (Some (controls 7))
    = Ok (mkEffective 7 DefaultStalledRunTimeout 0)
  /\ bounded_policy (mkEffective 7 DefaultStalledRunTimeout 0).
Proof.
  split; [reflexivity|].
  apply (@resolved_policy_is_bounded unary_syntax (controls 4) None (Some (controls 7))).
  reflexivity.
Defined.

Lemma pinned_policy_round_trips_witness :
  @ValidatePinned unary_syntax (Some (@Overrides unary_syntax (mkEffective 7 5 0))) = None
  /\ @Resolve unary_syntax (@Overrides unary_syntax (mkEffective 7 5 0)) None None
     = Ok (mkEffective 7 5 0).
Proof.
  apply (@pinned_policy_round_trips unary_syntax (mkControls 7 "iiiii" "") None None).
  - intros d Hd. cbn. rewrite unary_length. f_equal. lia.
  - intros d Hd. cbn. destruct (Z.to_nat d) eqn:E; [lia | discriminate].
  - reflexivity.
  - reflexivity.
Defined.
End RunControlExample.
