(* ===== verification/RunnerCap.v ===== *)
(** * Runner capabilities and classes: [internal/runnercap]

    Capability tokens, the derived namespace no author can spell, the closed
    list of isolation effects with its typo suggestions, and the class label
    the dispatcher stamps and the network policies select. *)

From Stdlib Require Import Sorting.Sorted Sorting.Permutation.
From S2P Require Export GoStrings.
Local Open Scope string_scope.
Local Open Scope list_scope.

(** ** Tokens *)

Definition token_start (b : N) : bool := between 65 90 b || between 97 122 b || between 48 57 b.
(** [A-Za-z0-9._@=+-]. *)
Definition token_rest (b : N) : bool :=
  token_start b || existsb (N.eqb b) [46; 95; 64; 61; 43; 45]%N.

(** [ValidToken]: the regular expression over the bytes of the token. *)
Definition ValidToken (s : string) : bool :=
  match bytes s with [] => false | b :: bs => token_start b && forallb token_rest bs end.

Inductive token_error := TokenEmpty | TokenMalformed (s : string).

(** [ValidateToken]; [None] is [nil]. *)
Definition ValidateToken (s : string) : option token_error :=
  if (s =? "")%string then Some TokenEmpty
  else if negb (ValidToken s) then Some (TokenMalformed s) else None.

(** [Claimed], [NewClaimed], [Claimed.Has], [Claimed.Missing]. *)
Abbreviation Claimed := (gset string).
Definition NewClaimed (caps : list string) : Claimed := list_to_set caps.
Definition claims_cap (c : Claimed) (cap : string) : bool := bool_decide (cap ∈ c).

(** First appearances only, without what [ok] accepts. *)
Fixpoint missing_from (ok : string -> bool) (seen required : list string) : list string :=
  match required with
  | [] => []
  | r :: required' =>
      if mem_string r seen then missing_from ok seen required'
      else (if ok r then [] else [r]) ++ missing_from ok (r :: seen) required'
  end.
Definition Missing (c : Claimed) (required : list string) : list string :=
  missing_from (claims_cap c) [] required.

(** The derived namespace. *)
Definition DerivedShellTag : string := "run:shell".
Definition DerivedHarnessTagPrefix : string := "harness:".
Definition DerivedTag (s : string) : bool :=
  (s =? DerivedShellTag)%string || HasPrefix s DerivedHarnessTagPrefix.

Definition CapabilityWindowsAdmin : string := "privilege=windows-admin".
Definition HasWindowsAdmin (tokens : list string) : bool := mem_string CapabilityWindowsAdmin tokens.

(** ** Restrictions *)

Definition RestrictionNetworkNone : string := "network:none".
Definition RestrictionNetworkAllowlist : string := "network:allowlist".
Definition RestrictionFSReadonly : string := "fs:readonly-except-workspace".
Definition RestrictionTmpEphemeral : string := "tmp:ephemeral".
Definition RestrictionEnvDefaultDeny : string := "env:default-deny".

Definition knownRestrictions : list string :=
  [RestrictionEnvDefaultDeny; RestrictionFSReadonly; RestrictionNetworkAllowlist;
   RestrictionNetworkNone; RestrictionTmpEphemeral].
Definition KnownRestriction (s : string) : bool := existsb (fun r => (r =? s)%string) knownRestrictions.

Definition DeclarableOnWindows (r : string) : bool :=
  mem_string r [RestrictionTmpEphemeral; RestrictionEnvDefaultDeny].
Definition WindowsDeclarableRestrictions : list string :=
  List.filter DeclarableOnWindows knownRestrictions.

(** ** Edit distance *)

(** The entries after the first of one row: [left] is the entry before, [prev]
    the row above from the column before on. *)
Fixpoint next_row (x : N) (b : list N) (left : nat) (prev : list nat) : list nat :=
  match b, prev with
  | y :: b', p0 :: (p1 :: _) as prev' =>
      let cost := if (x =? y)%N then 0 else 1 in
      let v := Nat.min (left + 1) (Nat.min (p1 + 1) (p0 + cost)) in
      v :: next_row x b' v prev'
  | _, _ => []
  end%nat.

Fixpoint rows (i : nat) (a b : list N) (prev : list nat) : list nat :=
  match a with
  | [] => prev
  | x :: a' => rows (S i) a' b (i :: next_row x b i prev)
  end.

(** [editDistance]. *)
Definition editDistance (a b : string) : nat :=
  nth (length (bytes b)) (rows 1 (bytes a) (bytes b) (seq 0 (S (length (bytes b))))) 0%nat.

(** [SuggestRestriction]: the first known effect at the smallest distance. *)
Definition closest (s : string) (best : option (nat * string)) (candidate : string) : option (nat * string) :=
  let d := editDistance s candidate in
  match best with
  | None => Some (d, candidate)
  | Some (bd, b) => if (d <? bd)%nat then Some (d, candidate) else best
  end.
Definition SuggestRestriction (s : string) : option string :=
  if KnownRestriction s then None
  else match foldl (closest s) None knownRestrictions with
       | Some (d, r) => if (3 <? d)%nat then None else Some r
       | None => None
       end.

(** ** Runner classes *)

Definition RunnerClassUnrestricted : string := "unrestricted".

Definition runnerClassSlugs (effect : string) : option string :=
  if (effect =? RestrictionEnvDefaultDeny)%string then Some "envdeny"
  else if (effect =? RestrictionFSReadonly)%string then Some "fsro"
  else if (effect =? RestrictionNetworkAllowlist)%string then Some "netallow"
  else if (effect =? RestrictionNetworkNone)%string then Some "netnone"
  else if (effect =? RestrictionTmpEphemeral)%string then Some "tmpeph" else None.

(** [CanonicalRestrictions]. *)
Definition CanonicalRestrictions (restrictions : list string) : list string :=
  sort_strings (dedup_from [] restrictions).

(** The first 16 hexadecimal digits of the SHA-256 of a string. *)
Class ClassHash := short_hash : string -> string.

Fixpoint all_slugs (effects : list string) : option (list string) :=
  match effects with
  | [] => Some []
  | e :: effects' =>
      match runnerClassSlugs e, all_slugs effects' with
      | Some s, Some l => Some (s :: l)
      | _, _ => None
      end
  end.

Section class.
Context {H : ClassHash}.

(** [RunnerClassValue]. *)
Definition class_value (sorted : list string) : string :=
  match sorted with
  | [] => RunnerClassUnrestricted
  | _ =>
      let hashed := "rc-" +:+ short_hash (String.concat (String "010" "") sorted) in
      match all_slugs sorted with
      | Some slugs =>
          let joined := String.concat "-" slugs in
          if (String.length joined <=? 63)%nat then joined else hashed
      | None => hashed
      end
  end.
Definition RunnerClassValue (restrictions : list string) : string :=
  class_value (CanonicalRestrictions restrictions).
End class.

(** [RunnerClassPreimage]. *)
Definition RunnerClassPreimage (restrictions : list string) : string :=
  String.concat "," (CanonicalRestrictions restrictions).

(** [strings.Split(s, ",")]. *)
Fixpoint split_byte (c : ascii) (s : string) : list string :=
  match s with
  | EmptyString => [""]
  | String d s' =>
      if Ascii.eqb c d then "" :: split_byte c s'
      else match split_byte c s' with [] => [String d ""] | p :: ps => String d p :: ps end
  end.

(** [ParseRunnerClassPreimage]; [TrimSpace] on valid UTF-8. *)
Definition ParseRunnerClassPreimage (preimage : string) : list string :=
  List.filter (fun p => negb (p =? "")%string)
    (map (fun p => of_bytes (TrimSpaceBytes (bytes p))) (split_byte "," preimage)).
