(* ===== verification/RunnerCapProps.v ===== *)
(** * What the capability vocabulary guarantees *)

From Stdlib Require Import Sorting.Sorted Sorting.Permutation.
From stdpp Require Import sorting.
From S2P Require Export RunnerCap.
Local Open Scope string_scope.
Local Open Scope list_scope.

(** ** Edit distance *)

(** Edit scripts: keep, replace, insert and delete one byte, with their cost. *)
Inductive script : list N -> list N -> nat -> Prop :=
| script_nil : script [] [] 0
| script_keep x a b n : script a b n -> script (x :: a) (x :: b) n
| script_replace x y a b n : script a b n -> script (x :: a) (y :: b) (S n)
| script_insert y a b n : script a b n -> script a (y :: b) (S n)
| script_delete x a b n : script a b n -> script (x :: a) b (S n).

Lemma script_app a b n a' b' k : script a b n -> script a' b' k -> script (a ++ a') (b ++ b') (n + k).
Proof. induction 1; intros; cbn; try constructor; auto. Qed.

Lemma script_rev a b n : script a b n -> script (rev a) (rev b) n.
Proof.
  assert (Hs : forall k x y, script x y k -> forall a b n m, script a b n -> m = (n + k)%nat ->
    script (a ++ x) (b ++ y) m) by (intros; subst; by apply script_app).
  induction 1 as [|x a b n _ IH|x y a b n _ IH|y a b n _ IH|x a b n _ IH]; cbn; [constructor|..].
  - eapply Hs; [apply script_keep, script_nil | exact IH | lia].
  - eapply Hs; [apply (script_replace x y), script_nil | exact IH | lia].
  - rewrite <- (app_nil_r (rev a)). eapply Hs; [apply (script_insert y), script_nil | exact IH | lia].
  - rewrite <- (app_nil_r (rev b)). eapply Hs; [apply (script_delete x), script_nil | exact IH | lia].
Qed.

(** The recursive distance. *)
Definition lev_cost (x y : N) : nat := if (x =? y)%N then 0 else 1.

Fixpoint lev (a : list N) : list N -> nat :=
  match a with
  | [] => fun b => length b
  | x :: a' =>
      fix lev_a b :=
        match b with
        | [] => S (length a')
        | y :: b' => Nat.min (lev_a b' + 1) (Nat.min (lev a' b + 1) (lev a' b' + lev_cost x y))
        end%nat
  end.

Lemma lev_nil_r a : lev a [] = length a.
Proof. by destruct a. Qed.
Lemma lev_cons x a y b :
  lev (x :: a) (y :: b) = Nat.min (lev (x :: a) b + 1) (Nat.min (lev a (y :: b) + 1) (lev a b + lev_cost x y)).
Proof. done. Qed.

Lemma script_insert_all b : script [] b (length b).
Proof. induction b; constructor; auto. Qed.
Lemma script_delete_all a : script a [] (length a).
Proof. induction a; constructor; auto. Qed.

Lemma lev_script a : forall b, script a b (lev a b).
Proof.
  induction a as [|x a IHa]; [apply script_insert_all|].
  induction b as [|y b IHb]; [apply script_delete_all|]. rewrite lev_cons.
  destruct (Nat.min_dec (lev (x :: a) b + 1) (Nat.min (lev a (y :: b) + 1) (lev a b + lev_cost x y))) as [->| ->].
  { rewrite Nat.add_1_r. by constructor. }
  destruct (Nat.min_dec (lev a (y :: b) + 1) (lev a b + lev_cost x y)) as [->| ->].
  { rewrite Nat.add_1_r. by constructor. }
  unfold lev_cost. destruct (N.eqb_spec x y) as [->|]; [rewrite Nat.add_0_r|rewrite Nat.add_1_r]; by constructor.
Qed.

Lemma lev_least a b n : script a b n -> (lev a b <= n)%nat.
Proof.
  induction 1 as [|x a b n _ IH|x y a b n _ IH|y a b n _ IH|x a b n _ IH]; [done|..].
  - rewrite lev_cons. unfold lev_cost. rewrite N.eqb_refl. lia.
  - rewrite lev_cons. unfold lev_cost. destruct (x =? y)%N; lia.
  - destruct a as [|x a]; [cbn in *; lia|]. rewrite lev_cons. lia.
  - destruct b as [|y b]; [rewrite lev_nil_r in *; cbn; lia|]. rewrite lev_cons. lia.
Qed.

(** The table: the row above column [j] on holds the distances of the prefixes
    read so far, kept reversed. *)
Fixpoint row (ra rb b : list N) : list nat :=
  match b with [] => [lev ra rb] | y :: b' => lev ra rb :: row ra (y :: rb) b' end.

Lemma row_head ra rb b : exists l, row ra rb b = lev ra rb :: l.
Proof. destruct b; cbn; eauto. Qed.

Lemma next_row_spec x ra b : forall rb,
  lev (x :: ra) rb :: next_row x b (lev (x :: ra) rb) (row ra rb b) = row (x :: ra) rb b.
Proof.
  induction b as [|y b IH]; intros rb; [done|]. cbn [row next_row].
  destruct (row_head ra (y :: rb) b) as [l El]. rewrite El at 1.
  rewrite <- IH, El. f_equal.
Qed.

Lemma rows_spec a b : forall ra, rows (S (length ra)) a b (row ra [] b) = row (rev a ++ ra) [] b.
Proof.
  induction a as [|x a IH]; intros ra; [done|]. cbn [rows].
  pose proof (next_row_spec x ra b []) as Hrow. rewrite lev_nil_r in Hrow. cbn [length] in Hrow.
  rewrite Hrow. change (S (S (length ra))) with (S (length (x :: ra))). rewrite IH. f_equal. cbn. by rewrite <- app_assoc.
Qed.

Lemma row_first b : forall rb, row [] rb b = seq (length rb) (S (length b)).
Proof.
  induction b as [|y b IH]; intros rb; [done|]. cbn [row]. rewrite IH. done.
Qed.

Lemma row_last ra b : forall rb, nth (length b) (row ra rb b) 0%nat = lev ra (rev b ++ rb).
Proof.
  induction b as [|y b IH]; intros rb; [done|]. cbn. rewrite IH. by rewrite <- app_assoc.
Qed.

Lemma editDistance_lev a b : editDistance a b = lev (rev (bytes a)) (rev (bytes b)).
Proof.
  unfold editDistance. pose proof (rows_spec (bytes a) (bytes b) []) as H. cbn [length] in H.
  rewrite row_first in H. cbn [length] in H. rewrite H, row_last, !app_nil_r. done.
Qed.

(** The row-by-row routine computes the least cost of an edit script. *)
Lemma editDistance_spec a b :
  script (bytes a) (bytes b) (editDistance a b)
  /\ forall n, script (bytes a) (bytes b) n -> (editDistance a b <= n)%nat.
Proof.
  rewrite editDistance_lev. split.
  - pose proof (script_rev _ _ _ (lev_script (rev (bytes a)) (rev (bytes b)))) as H.
    by rewrite !rev_involutive in H.
  - intros n H%script_rev. by apply lev_least.
Qed.

Lemma closest_fold s l : forall best,
  (forall d r, best = Some (d, r) -> d = editDistance s r) ->
  match foldl (closest s) best l with
  | Some (d, r) => d = editDistance s r /\ (best = Some (d, r) \/ r ∈ l)
      /\ (forall r', r' ∈ l -> (d <= editDistance s r')%nat)
      /\ (forall d' r', best = Some (d', r') -> (d <= d')%nat)
  | None => best = None /\ l = []
  end.
Proof.
  induction l as [|c l IH]; intros best Hb; cbn.
  { destruct best as [[d r]|]; [|done]. split; [by apply Hb|]. split; [auto|]. split; [set_solver|].
    intros d' r' [= <- <-]. lia. }
  assert (Hc : forall d r, closest s best c = Some (d, r) -> d = editDistance s r).
  { intros d r. unfold closest. destruct best as [[bd b]|]; [|by intros [= <- <-]].
    destruct (_ <? _)%nat; [by intros [= <- <-]|by apply Hb]. }
  specialize (IH (closest s best c) Hc). destruct (foldl (closest s) _ l) as [[d r]|].
  - destruct IH as (-> & Hin & Hl & Hle). split; [done|].
    assert (Hcc : (editDistance s r <= editDistance s c)%nat
                  /\ (forall d' r', best = Some (d', r') -> (editDistance s r <= d')%nat)).
    { unfold closest in Hle. destruct best as [[bd b]|]; [|split; [by eapply Hle|done]].
      destruct (Nat.ltb_spec (editDistance s c) bd).
      - specialize (Hle _ _ eq_refl). split; [done|]. intros d' r' [= <- <-]. lia.
      - specialize (Hle _ _ eq_refl). split; [lia|]. intros d' r' [= <- <-]. lia. }
    split; [|split; [|tauto]].
    + destruct Hin as [Hin|Hin]; [|right; by right]. unfold closest in Hin.
      destruct best as [[bd b]|]; [|simplify_eq; right; left].
      destruct (_ <? _)%nat; [simplify_eq; right; left|left; done].
    + intros r' [->|Hr]%elem_of_cons; [tauto|auto].
  - destruct IH as [IH _]. unfold closest in IH. destruct best as [[bd b]|]; [|done].
    by destruct (_ <? _)%nat.
Qed.

Lemma KnownRestriction_true s : KnownRestriction s = true <-> s ∈ knownRestrictions.
Proof.
  unfold KnownRestriction. rewrite existsb_exists. setoid_rewrite String.eqb_eq.
  setoid_rewrite <- list_elem_of_In. naive_solver.
Qed.

(** A typo suggestion is the best one: what [SuggestRestriction] returns is
    a known effect that at most three single-byte edits turn the token into,
    and no known effect is closer; when it returns nothing, the token is known
    or every known effect is more than three edits away. *)
Theorem suggestion_is_closest s :
  match SuggestRestriction s with
  | Some r => s ∉ knownRestrictions /\ r ∈ knownRestrictions
      /\ exists n, (n <= 3)%nat /\ script (bytes s) (bytes r) n
         /\ forall r' k, r' ∈ knownRestrictions -> script (bytes s) (bytes r') k -> (n <= k)%nat
  | None => s ∈ knownRestrictions
      \/ forall r' k, r' ∈ knownRestrictions -> script (bytes s) (bytes r') k -> (3 < k)%nat
  end.
Proof.
  unfold SuggestRestriction. destruct (KnownRestriction s) eqn:E; [left; by apply KnownRestriction_true|].
  pose proof (closest_fold s knownRestrictions None ltac:(done)) as Hc.
  destruct (foldl _ _ _) as [[d r]|]; [|by destruct Hc].
  destruct Hc as (-> & [|Hr] & Hmin & _); [done|].
  assert (Hleast : forall r' k, r' ∈ knownRestrictions -> script (bytes s) (bytes r') k ->
            (editDistance s r <= k)%nat).
  { intros r' k Hr' Hs. apply Hmin in Hr'. apply editDistance_spec in Hs. lia. }
  destruct (Nat.ltb_spec 3 (editDistance s r)).
  - right. intros r' k Hr' Hs. specialize (Hleast r' k Hr' Hs). lia.
  - split; [by rewrite <- KnownRestriction_true, E|]. split; [done|].
    exists (editDistance s r). split; [done|]. split; [apply editDistance_spec|done].
Qed.

(** ** Class labels *)

#[local] Instance leb_trans : Transitive (fun a b => String.leb a b = true).
Proof.
  intros a b c. unfold String.leb.
  destruct (String.compare a b) eqn:E1; [|intros _|done];
  destruct (String.compare b c) eqn:E2; try done; intros.
  - apply String.compare_eq_iff in E1 as ->. by rewrite E2.
  - apply String.compare_eq_iff in E1 as ->. by rewrite E2.
  - apply String.compare_eq_iff in E2 as ->. by rewrite E1.
  - by rewrite (string_compare_trans a b c).
Qed.
#[local] Instance leb_antisymm : AntiSymm eq (fun a b => String.leb a b = true).
Proof. intros a b. apply String.leb_antisym. Qed.

Lemma canonical_unique l1 l2 :
  NoDup l1 -> NoDup l2 -> (forall e, e ∈ l1 <-> e ∈ l2) -> sort_strings l1 = sort_strings l2.
Proof.
  intros H1 H2 He. apply (Sorted_unique (fun a b => String.leb a b = true)).
  - apply Sorted_LocallySorted_iff, sort_by_sorted, String.leb_total.
  - apply Sorted_LocallySorted_iff, sort_by_sorted, String.leb_total.
  - unfold sort_strings. rewrite <- !sort_by_perm. by apply NoDup_Permutation.
Qed.

Lemma canonical_elem a e : e ∈ CanonicalRestrictions a <-> e ∈ a.
Proof. unfold CanonicalRestrictions, sort_strings. rewrite sort_by_elem, dedup_from_elem. set_solver. Qed.

Lemma canonical_ext a b : (forall e, e ∈ a <-> e ∈ b) -> CanonicalRestrictions a = CanonicalRestrictions b.
Proof.
  intros H. apply canonical_unique; try apply dedup_from_NoDup.
  intros e. rewrite !dedup_from_elem, H. done.
Qed.

(** The canonical form of a set of known effects is a part of the closed list. *)
Lemma canonical_known a :
  (forall e, e ∈ a -> e ∈ knownRestrictions) ->
  CanonicalRestrictions a = List.filter (fun e => mem_string e a) knownRestrictions.
Proof.
  intros Hk. transitivity (sort_strings (List.filter (fun e => mem_string e a) knownRestrictions)).
  - apply canonical_unique; [apply dedup_from_NoDup|apply NoDup_ListNoDup, List.NoDup_filter, NoDup_ListNoDup|].
    + by apply (bool_decide_unpack _).
    + intros e. rewrite dedup_from_elem, !list_elem_of_In, filter_In.
      rewrite <- !list_elem_of_In, mem_string_true. set_solver.
  - unfold knownRestrictions. cbn [List.filter]. repeat (destruct (mem_string _ a)); vm_compute; reflexivity.
Qed.

Fixpoint parts (l : list string) : list (list string) :=
  match l with [] => [[]] | x :: l' => map (cons x) (parts l') ++ parts l' end.

Lemma filter_part f l : List.filter f l ∈ parts l.
Proof.
  induction l as [|x l IH]; cbn; [by left|]. rewrite elem_of_app. destruct (f x); [|auto].
  left. apply list_elem_of_fmap. eauto.
Qed.

Lemma class_value_inj {H : ClassHash} x y :
  x ∈ parts knownRestrictions -> y ∈ parts knownRestrictions -> class_value x = class_value y -> x = y.
Proof.
  intros Hx Hy Hv.
  assert (Hall : forallb (fun x => forallb (fun y =>
      implb (String.eqb (class_value x) (class_value y)) (bool_decide (x = y)))
      (parts knownRestrictions)) (parts knownRestrictions) = true) by (vm_compute; reflexivity).
  rewrite forallb_forall in Hall. apply list_elem_of_In in Hx, Hy. specialize (Hall x Hx).
  rewrite forallb_forall in Hall. specialize (Hall y Hy). rewrite Hv, String.eqb_refl in Hall.
  by apply bool_decide_eq_true in Hall.
Qed.

(** A class label names a set of effects: it does not depend on order or
    repetition, whatever the effects, and two sets of known effects with the
    same label are the same set. *)
Theorem class_label_names_the_set {H : ClassHash} a b :
  ((forall e, e ∈ a <-> e ∈ b) -> RunnerClassValue a = RunnerClassValue b)
  /\ ((forall e, e ∈ a ++ b -> e ∈ knownRestrictions) -> RunnerClassValue a = RunnerClassValue b ->
      forall e, e ∈ a <-> e ∈ b).
Proof.
  split.
  - intros He. unfold RunnerClassValue. by rewrite (canonical_ext a b).
  - intros Hk Hv e. rewrite <- (canonical_elem a), <- (canonical_elem b).
    enough (CanonicalRestrictions a = CanonicalRestrictions b) as -> by done.
    apply class_value_inj; [..|exact Hv]; rewrite canonical_known by set_solver; apply filter_part.
Qed.

(** ** Preimages *)

(** An effect the annotation can carry. *)
Definition plain (e : string) : Prop :=
  e <> "" /\ CountByte "," e = 0%nat /\ TrimSpaceBytes (bytes e) = bytes e.

Lemma split_plain c e : CountByte c e = 0%nat -> split_byte c e = [e].
Proof.
  induction e as [|d e IH]; cbn; [done|]. destruct (Ascii.eqb c d); [done|].
  intros H. by rewrite IH.
Qed.

Lemma split_join c e rest :
  CountByte c e = 0%nat -> split_byte c (e +:+ String c rest) = e :: split_byte c rest.
Proof.
  induction e as [|d e IH]; intros H.
  - change ("" +:+ String c rest) with (String c rest). cbn [split_byte]. by rewrite Ascii.eqb_refl.
  - change (String d e +:+ String c rest) with (String d (e +:+ String c rest)).
    cbn [split_byte CountByte] in *. destruct (Ascii.eqb c d); [done|]. by rewrite IH.
Qed.

Lemma split_concat l :
  l <> [] -> (forall e, e ∈ l -> CountByte "," e = 0%nat) -> split_byte "," (String.concat "," l) = l.
Proof.
  induction l as [|e l IH]; [done|]. intros _ Hc. destruct l as [|e' l].
  - cbn. apply split_plain, Hc. left.
  - change (String.concat "," (e :: e' :: l)) with (e +:+ String "," (String.concat "," (e' :: l))).
    rewrite split_join by (apply Hc; left). rewrite IH; [done..|]. intros x Hx. apply Hc. by right.
Qed.

Lemma of_bytes_bytes s : of_bytes (bytes s) = s.
Proof. apply bytes_inj, bytes_of_bytes. induction s; cbn; constructor; auto. apply N_ascii_bounded. Qed.

Lemma parse_preimage s :
  (forall e, e ∈ s -> plain e) -> ParseRunnerClassPreimage (RunnerClassPreimage s) = CanonicalRestrictions s.
Proof.
  intros Hp. unfold ParseRunnerClassPreimage, RunnerClassPreimage.
  assert (Hc : forall e, e ∈ CanonicalRestrictions s -> plain e) by (intros e He; apply Hp, canonical_elem, He).
  revert Hc. generalize (CanonicalRestrictions s) as l. intros l Hc.
  destruct (decide (l = [])) as [->|Hne]; [done|].
  rewrite split_concat; [|done|intros e He; by apply Hc]. clear Hne.
  induction l as [|e l IH]; [done|]. cbn. destruct (Hc e) as (Hne & _ & Htrim); [left|].
  rewrite Htrim, of_bytes_bytes. apply String.eqb_neq in Hne. rewrite Hne. cbn. f_equal.
  apply IH. intros x Hx. apply Hc. by right.
Qed.

(** The preimage annotation decodes to the class it labels, provided the
    effects are non-empty, trimmed and free of commas; without that the
    documented round trip fails: the empty effect decodes to the unrestricted
    class. *)
Theorem preimage_round_trips {H : ClassHash} s :
  ((forall e, e ∈ s -> plain e) ->
   RunnerClassValue (ParseRunnerClassPreimage (RunnerClassPreimage s)) = RunnerClassValue s)
  /\ RunnerClassValue (ParseRunnerClassPreimage (RunnerClassPreimage [""])) <> RunnerClassValue [""].
Proof.
  split.
  - intros Hp. rewrite parse_preimage by done. unfold RunnerClassValue. f_equal.
    apply canonical_ext. apply canonical_elem.
  - cbn. discriminate.
Qed.

(** ** The derived namespace *)

Lemma HasPrefix_app s p : HasPrefix s p = true -> exists rest, s = p +:+ rest.
Proof. unfold HasPrefix. destruct (CutPrefix p s) as [r|] eqn:E; [|done]. apply CutPrefix_Some in E. eauto. Qed.

(** No author-spellable token is in the derived namespace. *)
Lemma derived_not_valid s : DerivedTag s = true -> ValidToken s = false.
Proof.
  unfold DerivedTag. intros [->%String.eqb_eq|[rest ->]%HasPrefix_app]%orb_true_iff; [done|].
  done.
Qed.
