(* ===== verification/RunnerSolve.v ===== *)
(** * Runner placement: [internal/runnersolve]

    The one constraint solver behind the admission checkpoints: which declared
    runners may execute a stage.  Diagnostics are values that carry the names
    their text prints.  Kubernetes quantities are a parameter. *)

From S2P Require Export RunnerCapProps.
Local Open Scope string_scope.
Local Open Scope list_scope.
Local Open Scope Z_scope.

(** [resource.Quantity]: parsing, comparison and sign. *)
Class Quantities := {
  quantity : Type;
  ParseQuantity : string -> option quantity;
  Cmp : quantity -> quantity -> Z;
  Sign : quantity -> Z;
}.

Definition OSLinux : string := "linux".
Definition OSWindows : string := "windows".
Definition OSMacOS : string := "macOS".

(** [HostOS], of the process's [GOOS]. *)
Definition HostOS (goos : string) : string :=
  if (goos =? "linux")%string then OSLinux
  else if (goos =? "windows")%string then OSWindows
  else if (goos =? "darwin")%string then OSMacOS else "".

Section solver.
Context {Q : Quantities}.

(** ** Inventories and requirements *)

Record Runner := mkRunner {
  run_Name : string;
  Self : bool;
  run_OS : string;
  Host : string;
  run_CPU : option quantity;
  run_Memory : option quantity;
  run_Disk : option quantity;
  run_Capabilities : list string;
  Shell : bool;
  Harnesses : list string;
  run_Restrictions : list string;
}.

(** [SelfRunner]. *)
Definition SelfRunner (goos : string) (caps : list string) : Runner :=
  mkRunner "self" true (HostOS goos) "" None None None caps false [] [].

(** One token of [MissingCapabilities]. *)
Definition satisfies_token (r : Runner) (token : string) : bool :=
  claims_cap (NewClaimed (run_Capabilities r)) token
  || Self r && DerivedTag token
  || negb (Self r) && (token =? DerivedShellTag)%string && Shell r
  || negb (Self r) && match CutPrefix DerivedHarnessTagPrefix token with
                      | Some name => claims_cap (NewClaimed (Harnesses r)) name
                      | None => false
                      end.

(** [Runner.MissingCapabilities], [Runner.enforces]. *)
Definition MissingCapabilities (r : Runner) (required : list string) : list string :=
  missing_from (satisfies_token r) [] required.
Definition enforces (r : Runner) (effect : string) : bool := mem_string effect (run_Restrictions r).

Record StageRequirement := mkStage {
  Stage : string;
  StageClass : string;
  ControlPlane : bool;
  RequireResourceMinimums : bool;
  stage_OS : string;
  stage_CPU : string;
  stage_Memory : string;
  stage_Disk : string;
  stage_Capabilities : list string;
  stage_Restrictions : list string;
}.

Record Inventory := mkInventory {
  SelfExecutionDenied : bool;
  Runners : list Runner;
  Mandates : list string;
  ClassMandates : gmap string (list string);
}.

(** [Inventory.LocalMode], [Inventory.ExecutableSubstrate]. *)
Definition LocalMode (inv : Inventory) : bool := forallb Self (Runners inv).
Definition ExecutableSubstrate (inv : Inventory) : Inventory :=
  mkInventory (SelfExecutionDenied inv) (List.filter Self (Runners inv)) (Mandates inv) (ClassMandates inv).

(** ** Matching *)

Inductive requirement_miss :=
| ClaimsNoOS (required : string) | ProvidesOS (os required : string)
| MissesCapabilities (caps : list string) | Unenforced (effects : list string).

Record quantity_miss := mkMiss { q_name : string; q_minimum : string; unparsable : bool }.

Record runnerMatch := mkMatch {
  runner : Runner;
  requirementMiss : option requirement_miss;
  quantityMisses : list quantity_miss;
}.

(** One quantity of [evaluateRunner]. *)
Definition quantity_misses (name minimum : string) (ceiling : option quantity) : list quantity_miss :=
  match ceiling with
  | Some c =>
      if (minimum =? "")%string then []
      else match ParseQuantity minimum with
           | None => [mkMiss name minimum true]
           | Some m => if 0 <? Cmp m c then [mkMiss name minimum false] else []
           end
  | None => []
  end.

Definition requirement (r : Runner) (stage : StageRequirement) (restrictions : list string)
    : option requirement_miss :=
  if negb (stage_OS stage =? "")%string && (run_OS r =? "")%string then Some (ClaimsNoOS (stage_OS stage))
  else if negb (stage_OS stage =? "")%string && negb (run_OS r =? stage_OS stage)%string
  then Some (ProvidesOS (run_OS r) (stage_OS stage))
  else match MissingCapabilities r (stage_Capabilities stage) with
       | _ :: _ as missing => Some (MissesCapabilities missing)
       | [] =>
           match List.filter (fun e => negb (enforces r e)) restrictions with
           | _ :: _ as unenforced => Some (Unenforced unenforced)
           | [] => None
           end
       end.

(** [evaluateRunner]. *)
Definition evaluateRunner (r : Runner) (stage : StageRequirement) (restrictions : list string) : runnerMatch :=
  mkMatch r (requirement r stage restrictions)
    (quantity_misses "cpu" (stage_CPU stage) (run_CPU r)
     ++ quantity_misses "memory" (stage_Memory stage) (run_Memory r)
     ++ quantity_misses "disk" (stage_Disk stage) (run_Disk r)).

(** [effectiveRestrictions]. *)
Definition effectiveRestrictions (stage mandates : list string) : list string :=
  match mandates with [] => stage | _ => dedup_from [] (stage ++ mandates) end.

(** ** Results *)

Inductive UnsatKind := UnsatRequirement | UnsatQuantity | UnsatSubstrate.

Inductive diagnostic :=
| MissingMinimums (missing : list string)
| QuantityDiagnostic (ceilings : list (string * list quantity_miss)) (denied : bool)
| RequirementDiagnostic (restrictions : list string) (misses : list (string * option requirement_miss))
    (denied : bool)
| SubstrateDiagnostic (placeable : list (string * string)) (why : diagnostic).

Record Unsat := mkUnsat { unsat_Kind : UnsatKind; Diagnostic : diagnostic }.

Inductive Advisory := AdvisoryMinimums (missing : list string)
| AdvisoryCeiling (runner : string) (misses : list quantity_miss).

Record StagePlacement := mkPlacement {
  pl_Stage : string;
  Eligible : list string;
  pl_Unsat : option Unsat;
  Advisories : list Advisory;
}.

(** The minimums a placed agentic gate must declare. *)
Definition missing_minimums (stage : StageRequirement) : list string :=
  if RequireResourceMinimums stage
  then (if (stage_CPU stage =? "")%string then ["cpu"] else [])
       ++ (if (stage_Memory stage =? "")%string then ["memory"] else [])
  else [].

(** The runners a stage is matched against. *)
Definition considered (inv : Inventory) (stage : StageRequirement) (r : Runner) : bool :=
  negb (SelfExecutionDenied inv && Self r
        && (negb (ControlPlane stage) || negb (StageClass stage =? "deterministic")%string)).

(** A match leaves its runner eligible. *)
Definition match_eligible (localMode : bool) (m : runnerMatch) : bool :=
  match requirementMiss m, quantityMisses m with
  | Some _, _ => false
  | None, [] => true
  | None, _ => localMode
  end.

Definition match_advisory (localMode : bool) (m : runnerMatch) : list Advisory :=
  match requirementMiss m, quantityMisses m with
  | None, (_ :: _) as misses => if localMode then [AdvisoryCeiling (run_Name (runner m)) misses] else []
  | _, _ => []
  end.

(** The diagnostics of a stage no runner can take. *)
Definition quantityDiagnostic (matches : list runnerMatch) (denied : bool) : diagnostic :=
  QuantityDiagnostic
    (concat (map (fun m => match requirementMiss m, quantityMisses m with
                           | None, (_ :: _) as misses => [(run_Name (runner m), misses)]
                           | _, _ => []
                           end) matches)) denied.
Definition requirementDiagnostic (restrictions : list string) (matches : list runnerMatch) (denied : bool)
    : diagnostic :=
  RequirementDiagnostic restrictions (map (fun m => (run_Name (runner m), requirementMiss m)) matches) denied.

(** [solveStage]. *)
Definition solveStage (inv0 : Inventory) (stage : StageRequirement) (localMode : bool) : StagePlacement :=
  let inv := if ControlPlane stage then ExecutableSubstrate inv0 else inv0 in
  let missing := missing_minimums stage in
  match missing, localMode with
  | _ :: _, false =>
      mkPlacement (Stage stage) [] (Some (mkUnsat UnsatQuantity (MissingMinimums missing))) []
  | _, _ =>
    let advisories := match missing with [] => [] | _ => [AdvisoryMinimums missing] end in
    let restrictions := effectiveRestrictions (effectiveRestrictions (stage_Restrictions stage) (Mandates inv))
                          (default [] (ClassMandates inv !! StageClass stage)) in
    let matches := map (fun r => evaluateRunner r stage restrictions)
                     (List.filter (considered inv stage) (Runners inv)) in
    let eligible := map (fun m => run_Name (runner m)) (List.filter (match_eligible localMode) matches) in
    let advisories := advisories ++ concat (map (match_advisory localMode) matches) in
    match eligible with
    | _ :: _ => mkPlacement (Stage stage) eligible None advisories
    | [] =>
        let unsat :=
          if existsb (fun m => match requirementMiss m with None => true | Some _ => false end) matches
          then mkUnsat UnsatQuantity (quantityDiagnostic matches (SelfExecutionDenied inv))
          else mkUnsat UnsatRequirement (requirementDiagnostic restrictions matches (SelfExecutionDenied inv)) in
        mkPlacement (Stage stage) [] (Some unsat) advisories
    end
  end.

(** [Solve] and [Result.Unsatisfiable]. *)
Definition Solve (inv : Inventory) (stages : list StageRequirement) : list StagePlacement :=
  map (fun stage => solveStage inv stage (LocalMode inv)) stages.
Definition Unsatisfiable (result : list StagePlacement) : list StagePlacement :=
  List.filter (fun p => match pl_Unsat p with Some _ => true | None => false end) result.

(** [substrateDiagnostic]: the runners with their hosts, the last declaration
    of a name winning. *)
Definition substrateDiagnostic (inv : Inventory) (eligible : list string) (why : diagnostic) : diagnostic :=
  let hosts : gmap string string := foldl (fun m r => <[run_Name r := Host r]> m) ∅ (Runners inv) in
  SubstrateDiagnostic (map (fun n => (n, default "" (hosts !! n))) eligible) why.

(** [SolveExecutable]. *)
Definition solve_executable_stage (inv : Inventory) (stage : StageRequirement) : StagePlacement :=
  let placement := solveStage (ExecutableSubstrate inv) stage (LocalMode inv) in
  match pl_Unsat placement with
  | None => placement
  | Some u =>
      let full := solveStage inv stage (LocalMode inv) in
      match pl_Unsat full with
      | Some _ => placement
      | None =>
          mkPlacement (pl_Stage placement) (Eligible placement)
            (Some (mkUnsat UnsatSubstrate (substrateDiagnostic inv (Eligible full) (Diagnostic u))))
            (Advisories placement)
      end
  end.
Definition SolveExecutable (inv : Inventory) (stages : list StageRequirement) : list StagePlacement :=
  map (solve_executable_stage inv) stages.
End solver.
