(* ===== verification/RunnerSolveProps.v ===== *)
(** * What placement guarantees *)

From S2P Require Export RunnerSolve.
Local Open Scope string_scope.
Local Open Scope list_scope.
Local Open Scope Z_scope.

Section solver.
Context {Q : Quantities}.

(** ** What a runner offers and a stage asks *)

(** A runner provides a capability by claiming it; a derived one also by being
    the daemon host, or by its image's declared shell or harnesses. *)
Definition provides (r : Runner) (token : string) : Prop :=
  token ∈ run_Capabilities r
  \/ Self r = true /\ DerivedTag token = true
  \/ Self r = false /\ token = DerivedShellTag /\ Shell r = true
  \/ Self r = false /\ exists h, h ∈ Harnesses r /\ token = DerivedHarnessTagPrefix +:+ h.

(** The effects a stage requires: its own, the instance's and its class's. *)
Definition required_effect (inv : Inventory) (stage : StageRequirement) (e : string) : Prop :=
  e ∈ stage_Restrictions stage \/ e ∈ Mandates inv
  \/ e ∈ default [] (ClassMandates inv !! StageClass stage).

Definition meets (inv : Inventory) (stage : StageRequirement) (r : Runner) : Prop :=
  (stage_OS stage = "" \/ run_OS r = stage_OS stage)
  /\ (forall t, t ∈ stage_Capabilities stage -> provides r t)
  /\ (forall e, required_effect inv stage e -> e ∈ run_Restrictions r).

Definition within (minimum : string) (ceiling : option quantity) : Prop :=
  minimum = "" \/ match ceiling with
                  | None => True
                  | Some c => exists q, ParseQuantity minimum = Some q /\ Cmp q c <= 0
                  end.
Definition covers (stage : StageRequirement) (r : Runner) : Prop :=
  within (stage_CPU stage) (run_CPU r) /\ within (stage_Memory stage) (run_Memory r)
  /\ within (stage_Disk stage) (run_Disk r).

(** The runner may execute the stage at all: a control-plane stage stays on the
    daemon host, and a denied daemon host takes only deterministic ones. *)
Definition may_execute (inv : Inventory) (stage : StageRequirement) (r : Runner) : Prop :=
  (ControlPlane stage = true -> Self r = true)
  /\ (SelfExecutionDenied inv = true -> Self r = true ->
      ControlPlane stage = true /\ StageClass stage = "deterministic").

(** ** The tests decide them *)

Lemma satisfies_token_spec r t : satisfies_token r t = true <-> provides r t.
Proof.
  unfold satisfies_token, provides, claims_cap, NewClaimed.
  rewrite !orb_true_iff, !andb_true_iff, !negb_true_iff, bool_decide_eq_true, elem_of_list_to_set, String.eqb_eq.
  assert (Hh : match CutPrefix DerivedHarnessTagPrefix t with
               | Some name => bool_decide (name ∈ (list_to_set (Harnesses r) : gset string))
               | None => false
               end = true
               <-> exists h, h ∈ Harnesses r /\ t = DerivedHarnessTagPrefix +:+ h).
  { destruct (CutPrefix DerivedHarnessTagPrefix t) as [n|] eqn:E.
    - rewrite bool_decide_eq_true, elem_of_list_to_set. apply CutPrefix_Some in E as ->. split; [eauto|].
      intros (h & Hh & Heq). apply (f_equal (CutPrefix DerivedHarnessTagPrefix)) in Heq.
      rewrite !(proj2 (CutPrefix_Some _ _ _) eq_refl) in Heq. by injection Heq as ->.
    - split; [done|]. intros (h & _ & Heq). apply CutPrefix_Some in Heq. congruence. }
  rewrite Hh. tauto.
Qed.

Lemma missing_from_nil ok required : forall seen,
  missing_from ok seen required = [] <-> forall t, t ∈ required -> t ∉ seen -> ok t = true.
Proof.
  induction required as [|x l IH]; intros seen; cbn; [set_solver|].
  destruct (mem_string x seen) eqn:E.
  - apply mem_string_true in E. rewrite IH. split; [|set_solver].
    intros H t [->|Ht]%elem_of_cons Hs; [done|auto].
  - apply mem_string_false in E. rewrite app_nil, IH. split.
    + intros [H1 H2] t [->|Ht]%elem_of_cons Hs; [by destruct (ok x)|].
      destruct (decide (t = x)) as [->|]; [by destruct (ok x)|]. apply H2; set_solver.
    + intros H. split; [rewrite H; [done|left|done]|]. intros t Ht Hs. apply H; set_solver.
Qed.

Lemma effective_elem a b e : e ∈ effectiveRestrictions a b <-> e ∈ a \/ e ∈ b.
Proof.
  unfold effectiveRestrictions. destruct b as [|x b]; [set_solver|].
  rewrite dedup_from_elem, elem_of_app. set_solver.
Qed.

Lemma requirement_spec inv r stage rs :
  (forall e, e ∈ rs <-> required_effect inv stage e) ->
  requirement r stage rs = None <-> meets inv stage r.
Proof.
  intros Hrs. unfold requirement, meets.
  assert (Hcaps : MissingCapabilities r (stage_Capabilities stage) = []
                  <-> forall t, t ∈ stage_Capabilities stage -> provides r t).
  { unfold MissingCapabilities. rewrite missing_from_nil. setoid_rewrite satisfies_token_spec. set_solver. }
  assert (Heff : List.filter (fun e => negb (enforces r e)) rs = []
                 <-> forall e, required_effect inv stage e -> e ∈ run_Restrictions r).
  { setoid_rewrite <- Hrs. split.
    - intros Hf e He. apply mem_string_true. destruct (mem_string e (run_Restrictions r)) eqn:Em; [done|].
      assert (Hin : In e (List.filter (fun e => negb (enforces r e)) rs))
        by (apply filter_In; split; [by apply list_elem_of_In|]; unfold enforces; by rewrite Em).
      rewrite Hf in Hin. done.
    - intros H. destruct (List.filter _ rs) as [|x l] eqn:Ef; [done|].
      assert (Hin : In x (List.filter (fun e => negb (enforces r e)) rs)) by (rewrite Ef; by left).
      apply filter_In in Hin as [Hin Hneg]. apply list_elem_of_In in Hin. apply H in Hin.
      unfold enforces in Hneg. apply mem_string_true in Hin. by rewrite Hin in Hneg. }
  destruct (String.eqb_spec (stage_OS stage) "") as [Hos|Hos]; cbn [negb andb].
  2: destruct (String.eqb_spec (run_OS r) "") as [Hr|Hr].
  2: { split; [done|]. intros [[?|?] _]; congruence. }
  2: destruct (String.eqb_spec (run_OS r) (stage_OS stage)) as [Heq|Heq]; cbn [negb].
  3: { split; [done|]. intros [[?|?] _]; congruence. }
  all: rewrite <- Hcaps, <- Heff;
    destruct (MissingCapabilities r _), (List.filter _ rs); naive_solver.
Qed.

Lemma quantity_misses_spec name minimum ceiling :
  quantity_misses name minimum ceiling = [] <-> within minimum ceiling.
Proof.
  unfold quantity_misses, within. destruct ceiling as [c|]; [|tauto].
  destruct (String.eqb_spec minimum "") as [->|Hne]; [naive_solver|].
  destruct (ParseQuantity minimum) as [q|]; [|naive_solver].
  destruct (Z.ltb_spec 0 (Cmp q c)); split; try done.
  - intros [|(q' & [= <-] & ?)]; [done|lia].
  - intros _. right. exists q. split; [done|lia].
Qed.

(** ** Placements *)

(** A placed agentic gate declares its processor and memory minimums. *)
Definition minimums_declared (stage : StageRequirement) : Prop :=
  RequireResourceMinimums stage = true -> stage_CPU stage <> "" /\ stage_Memory stage <> "".

Lemma missing_minimums_spec stage : missing_minimums stage = [] <-> minimums_declared stage.
Proof.
  unfold missing_minimums, minimums_declared. destruct (RequireResourceMinimums stage); [|naive_solver].
  rewrite app_nil. destruct (String.eqb_spec (stage_CPU stage) ""), (String.eqb_spec (stage_Memory stage) "");
    naive_solver.
Qed.

(** The runner may take the stage under an inventory of the given mode. *)
Definition takes (inv : Inventory) (localMode : bool) (stage : StageRequirement) (r : Runner) : Prop :=
  r ∈ Runners inv /\ may_execute inv stage r /\ meets inv stage r
  /\ (localMode = true \/ minimums_declared stage /\ covers stage r).

Lemma match_eligible_spec lm inv stage rs r :
  (forall e, e ∈ rs <-> required_effect inv stage e) ->
  match_eligible lm (evaluateRunner r stage rs) = true
  <-> meets inv stage r /\ (lm = true \/ covers stage r).
Proof.
  intros Hrs. unfold match_eligible. cbn [requirementMiss quantityMisses evaluateRunner].
  assert (Hreq := requirement_spec inv r stage rs Hrs).
  assert (Hq : quantity_misses "cpu" (stage_CPU stage) (run_CPU r)
     ++ quantity_misses "memory" (stage_Memory stage) (run_Memory r)
     ++ quantity_misses "disk" (stage_Disk stage) (run_Disk r) = [] <-> covers stage r)
    by (rewrite !app_nil, !quantity_misses_spec; done).
  destruct (requirement r stage rs); [naive_solver|].
  destruct (_ ++ _) as [|x l]; [naive_solver|]. destruct lm; naive_solver.
Qed.

Lemma considered_spec inv stage r :
  considered inv stage r = true
  <-> (SelfExecutionDenied inv = true -> Self r = true ->
       ControlPlane stage = true /\ StageClass stage = "deterministic").
Proof.
  unfold considered. rewrite negb_true_iff, !andb_false_iff, orb_false_iff, !negb_false_iff, String.eqb_eq.
  destruct (SelfExecutionDenied inv), (Self r); naive_solver.
Qed.

Lemma effects_spec inv stage e :
  e ∈ effectiveRestrictions (effectiveRestrictions (stage_Restrictions stage) (Mandates inv))
        (default [] (ClassMandates inv !! StageClass stage))
  <-> required_effect inv stage e.
Proof. rewrite !effective_elem. unfold required_effect. tauto. Qed.

Lemma eligible_spec inv stage lm n :
  n ∈ Eligible (solveStage inv stage lm) <-> exists r, run_Name r = n /\ takes inv lm stage r.
Proof.
  unfold solveStage. set (inv' := if ControlPlane stage then _ else _).
  assert (Hmin := missing_minimums_spec stage).
  assert (Hmand : Mandates inv' = Mandates inv /\ ClassMandates inv' = ClassMandates inv
                  /\ SelfExecutionDenied inv' = SelfExecutionDenied inv)
    by (unfold inv'; by destruct (ControlPlane stage)).
  destruct Hmand as (-> & -> & Hden).
  set (rs := effectiveRestrictions _ _).
  assert (Hrun : forall r, r ∈ List.filter (considered inv' stage) (Runners inv')
                 <-> r ∈ Runners inv /\ may_execute inv stage r).
  { intros r. rewrite list_elem_of_In, filter_In, <- list_elem_of_In, considered_spec, Hden.
    unfold may_execute, inv'. destruct (ControlPlane stage); [|naive_solver]. cbn.
    rewrite list_elem_of_In, filter_In, <- list_elem_of_In. naive_solver. }
  set (eligible := map (fun m => run_Name (runner m)) _).
  assert (He : n ∈ eligible <-> exists r, run_Name r = n /\ (r ∈ Runners inv /\ may_execute inv stage r)
                 /\ meets inv stage r /\ (lm = true \/ covers stage r)).
  { unfold eligible. rewrite list_elem_of_fmap. split.
    - intros (m & -> & Hm). rewrite list_elem_of_In, filter_In, <- list_elem_of_In in Hm.
      destruct Hm as [(r & -> & Hr)%list_elem_of_fmap Hel]. exists r.
      rewrite (match_eligible_spec lm inv) in Hel by apply effects_spec. rewrite Hrun in Hr. auto.
    - intros (r & <- & Hr & Hel). exists (evaluateRunner r stage rs). split; [done|].
      rewrite list_elem_of_In, filter_In, <- list_elem_of_In. split.
      + apply list_elem_of_fmap. exists r. by rewrite Hrun.
      + rewrite (match_eligible_spec lm inv) by apply effects_spec. done. }
  assert (Htakes : (lm = true \/ missing_minimums stage = []) ->
    (n ∈ eligible <-> exists r, run_Name r = n /\ takes inv lm stage r)).
  { intros Hor. rewrite He. unfold takes. rewrite Hmin in Hor. split; intros (r & H); exists r; tauto. }
  destruct (missing_minimums stage) as [|x l], lm; cbn [app];
    try (rewrite <- Htakes by tauto; by destruct eligible).
  split; [by intros ?%not_elem_of_nil|]. intros (r & _ & _ & _ & _ & [|[Hd _]]); [done|].
  by apply Hmin in Hd.
Qed.

Lemma unsat_spec inv stage lm :
  pl_Unsat (solveStage inv stage lm) = None <-> Eligible (solveStage inv stage lm) <> [].
Proof.
  unfold solveStage. destruct (missing_minimums stage), lm; cbn zeta; try done;
    by destruct (map (fun m => run_Name (runner m)) _).
Qed.

(** Placement is exact: a runner is eligible for a stage precisely when it
    may execute it, offers its operating system and every capability, enforces
    every effect the stage, the instance and the stage's class require, and
    covers its resource minimums, which are only advisory when every runner is
    the daemon host; and a stage is unsatisfiable precisely when no runner is
    eligible. *)
Theorem placement_is_exact inv stages p :
  p ∈ Solve inv stages ->
  exists stage, stage ∈ stages /\ pl_Stage p = Stage stage
    /\ (forall n, n ∈ Eligible p <-> exists r, run_Name r = n /\ takes inv (LocalMode inv) stage r)
    /\ (pl_Unsat p <> None <-> Eligible p = []).
Proof.
  intros (stage & -> & Hs)%list_elem_of_fmap. exists stage. split; [done|]. split; [|split].
  - unfold solveStage. destruct (missing_minimums stage), (LocalMode inv); cbn zeta; try done;
      by destruct (map (fun m => run_Name (runner m)) _).
  - intros n. apply eligible_spec.
  - pose proof (unsat_spec inv stage (LocalMode inv)) as Hu.
    destruct (pl_Unsat _), (Eligible _); naive_solver.
Qed.

Lemma substrate_takes inv lm stage r :
  takes (ExecutableSubstrate inv) lm stage r <-> takes inv lm stage r /\ Self r = true.
Proof.
  unfold takes. cbn. rewrite list_elem_of_In, filter_In, <- list_elem_of_In.
  unfold may_execute, meets, required_effect. cbn. tauto.
Qed.

(** Execution stays where it can run: a stage placed for execution is only
    ever placed on the daemon host, by a runner entry that the full inventory
    also accepts; it is refused as beyond the substrate precisely when some
    declared runner could take it and the daemon host cannot. *)
Theorem executable_placement_is_local inv stages p :
  p ∈ SolveExecutable inv stages ->
  exists stage, stage ∈ stages
    /\ (forall n, n ∈ Eligible p <->
          exists r, run_Name r = n /\ takes inv (LocalMode inv) stage r /\ Self r = true)
    /\ ((exists d, pl_Unsat p = Some (mkUnsat UnsatSubstrate d)) <->
        (exists r, takes inv (LocalMode inv) stage r)
        /\ forall r, takes inv (LocalMode inv) stage r -> Self r = false).
Proof.
  intros (stage & -> & Hs)%list_elem_of_fmap. exists stage. split; [done|].
  unfold solve_executable_stage. set (lm := LocalMode inv). set (pl := solveStage (ExecutableSubstrate inv) stage lm).
  assert (Hel : forall n, n ∈ Eligible pl <-> exists r, run_Name r = n /\ takes inv lm stage r /\ Self r = true)
    by (intros n; unfold pl; rewrite eligible_spec; setoid_rewrite substrate_takes; done).
  assert (Hself : (exists r, takes inv lm stage r /\ Self r = true) <-> Eligible pl <> []).
  { split.
    - intros (r & Hr) E. assert (Hin : run_Name r ∈ Eligible pl) by (apply Hel; eauto).
      rewrite E in Hin. set_solver.
    - intros Hne. destruct (Eligible pl) as [|n l] eqn:E; [done|].
      destruct (proj1 (Hel n)) as (r & _ & Hr); [left|]. eauto. }
  assert (Hfull : (exists r, takes inv lm stage r) <-> pl_Unsat (solveStage inv stage lm) = None).
  { rewrite unsat_spec. split.
    - intros (r & Hr) E. assert (Hin : run_Name r ∈ Eligible (solveStage inv stage lm))
        by (apply eligible_spec; eauto). rewrite E in Hin. set_solver.
    - intros Hne. destruct (Eligible (solveStage inv stage lm)) as [|n l] eqn:E; [done|].
      destruct (proj1 (eligible_spec inv stage lm n)) as (r & _ & Hr); [rewrite E; left|]. eauto. }
  pose proof (unsat_spec (ExecutableSubstrate inv) stage lm) as Hu. fold pl in Hu.
  destruct (pl_Unsat pl) as [u|] eqn:Eu.
  - assert (Hno : forall r, takes inv lm stage r -> Self r = false).
    { intros r Hr. destruct (Self r) eqn:E; [|done]. exfalso.
      apply proj1 in Hself. rewrite <- Hu in Hself. discriminate Hself. eauto. }
    destruct (pl_Unsat (solveStage inv stage lm)) as [v|] eqn:Ev.
    + split; [done|]. rewrite Eu. split; [|naive_solver]. intros [d [= ->]]. exfalso.
      unfold pl in Eu. revert Eu. unfold solveStage.
      destruct (missing_minimums stage), lm; cbn zeta; try done;
        destruct (map (fun m => run_Name (runner m)) _); try done; destruct (existsb _ _); done.
    + split; [done|]. cbn. split; [|eauto]. intros _. split; [by apply Hfull|done].
  - split; [done|]. rewrite Eu. split; [by intros [d ?]|]. intros [[r Hr] Hno]. exfalso.
    destruct (proj2 Hself) as (r' & Hr' & Hs'); [by apply Hu|]. apply Hno in Hr'. congruence.
Qed.
End solver.

(** A runner other than the daemon host whose claims are well-formed tokens
    offers a derived capability only through its declared shell or harnesses:
    no author can claim one. *)
Lemma derived_needs_declaration {Q : Quantities} r t :
  Self r = false -> (forall c, c ∈ run_Capabilities r -> ValidToken c = true) ->
  DerivedTag t = true -> provides r t ->
  t = DerivedShellTag /\ Shell r = true
  \/ exists h, h ∈ Harnesses r /\ t = DerivedHarnessTagPrefix +:+ h.
Proof.
  intros Hs Hv Hd [Hc|[[? _]|[(_ & ? & ?)|[_ ?]]]]; [|congruence|auto|auto].
  apply Hv in Hc. apply derived_not_valid in Hd. congruence.
Qed.

(** ** A small inventory *)

Module PlacementExample.

(** Whole numbers of one digit. *)
#[local] Instance digits : Quantities := {
  quantity := Z;
  ParseQuantity s := match bytes s with [b] => Some (Z.of_N b - 48) | _ => None end;
  Cmp a b := a - b;
  Sign a := Z.sgn a;
}.

Definition daemon : Runner := mkRunner "self" true "linux" "self" None None None ["go@1.26"] false [] [].
Definition windows : Runner :=
  mkRunner "win" false "windows" "image" (Some 4) None None ["dotnet@8"] true ["copilot"] ["tmp:ephemeral"].
Definition inventory : Inventory := mkInventory false [daemon; windows] [] {["agentic" := ["tmp:ephemeral"]]}.

Definition review_stage : StageRequirement :=
  mkStage "review" "agentic" false false "windows" "2" "" "" ["harness:copilot"; "dotnet@8"] [].
Definition huge_stage : StageRequirement := mkStage "huge" "agentic" false false "windows" "9" "" "" [] [].

Lemma placement_is_exact_witness :
  map Eligible (Solve inventory [review_stage; huge_stage]) = [["win"]; []]
  /\ exists stage, stage ∈ [review_stage; huge_stage] /\ Stage stage = "review"
     /\ forall n, n ∈ ["win"] <-> exists r, run_Name r = n /\ takes inventory false stage r.
Proof.
  split; [vm_compute; reflexivity|].
  destruct (placement_is_exact inventory [review_stage; huge_stage]
              (solveStage inventory review_stage false)) as (stage & Hs & Hn & He & _).
  - left.
  - exists stage. split; [exact Hs|]. split; [rewrite <- Hn; reflexivity|exact He].
Defined.

Lemma executable_placement_is_local_witness :
  (exists d, pl_Unsat (solve_executable_stage inventory review_stage) = Some (mkUnsat UnsatSubstrate d))
  /\ exists stage, stage ∈ [review_stage]
     /\ forall n, n ∈ @nil string <-> exists r, run_Name r = n /\ takes inventory false stage r /\ Self r = true.
Proof.
  split; [eexists; vm_compute; reflexivity|].
  destruct (executable_placement_is_local inventory [review_stage]
              (solve_executable_stage inventory review_stage)) as (stage & Hs & He & _).
  - left.
  - exists stage. split; [exact Hs|exact He].
Defined.

End PlacementExample.
