(* ===== verification/Walk.v ===== *)
(** * Graph walks and fixed points

    The two loops the workflow compiler is made of: a worklist walk that visits
    every state it may enter once, and a pass repeated over a list of states
    until it adds nothing.  Both are executable with fuel; this file proves the
    fuel they are given enough and the result the set they are meant to
    compute. *)

From S2P Require Export GoStrings.
Local Open Scope list_scope.

(** ** Worklist walks *)

Section walk.
Context (enter : string -> bool) (out : string -> list string)
        (push : list string -> list string -> list string).

(** [for len(todo) > 0]: pop a state; skip it when it may not be entered or was
    seen; otherwise mark it and push its successors. *)
Fixpoint walk (fuel : nat) (todo seen : list string) : option (list string) :=
  match fuel with
  | O => None
  | S n =>
      match todo with
      | [] => Some seen
      | s :: todo' =>
          if negb (enter s) || mem_string s seen then walk n todo' seen
          else walk n (push (out s) todo') (s :: seen)
      end
  end.

(** The states a walk from [roots] may visit. *)
Inductive reaches (roots : list string) : string -> Prop :=
| reaches_root s : s ∈ roots -> enter s = true -> reaches roots s
| reaches_step s t : reaches roots s -> t ∈ out s -> enter t = true -> reaches roots t.

Context (universe : list string).

(** What may still be pushed: the successors of unseen states. *)
Definition pending_out (seen : list string) : nat :=
  list_sum (map (fun s => if mem_string s seen then 0 else length (out s))%nat universe).

Definition walk_fuel (roots : list string) : nat := S (length roots + pending_out []).

Definition walk_all (roots : list string) : list string :=
  default [] (walk (walk_fuel roots) roots []).

Hypothesis universe_covers : forall s, out s <> [] -> s ∈ universe.
Hypothesis push_elem : forall xs ys s, s ∈ push xs ys <-> s ∈ xs \/ s ∈ ys.
Hypothesis push_length : forall xs ys, length (push xs ys) = (length xs + length ys)%nat.

Lemma pending_visit seen s :
  s ∉ seen -> (pending_out (s :: seen) + length (out s) <= pending_out seen)%nat.
Proof.
  intros Hs.
  assert (Hmono : forall l, (list_sum (map (fun u => if mem_string u (s :: seen) then 0 else length (out u)) l)
            <= list_sum (map (fun u => if mem_string u seen then 0 else length (out u)) l))%nat).
  { induction l as [|u l IH]; cbn [map list_sum foldr]; [done|].
    assert ((if mem_string u (s :: seen) then 0 else length (out u))
            <= (if mem_string u seen then 0 else length (out u)))%nat.
    { destruct (mem_string u seen) eqn:E; [|destruct (mem_string u (s :: seen)); lia].
      apply mem_string_true in E. rewrite (proj2 (mem_string_true u (s :: seen))); [lia|]. by right. }
    unfold list_sum in *. lia. }
  destruct (decide (out s = [])) as [->|Hout].
  { change (length (@nil string)) with 0%nat. specialize (Hmono universe). unfold pending_out. lia. }
  apply universe_covers in Hout. unfold pending_out.
  apply list_elem_of_split in Hout as (l1 & l2 & ->). rewrite !map_app, !list_sum_app.
  rewrite !map_cons. pose proof (Hmono l1). pose proof (Hmono l2).
  rewrite (proj2 (mem_string_true s (s :: seen))) by left.
  rewrite (proj2 (mem_string_false s seen)) by done.
  assert (Hcons : forall n l, list_sum (n :: l) = (n + list_sum l)%nat) by reflexivity.
  rewrite !Hcons. lia.
Qed.

Lemma walk_spec roots : forall fuel todo seen,
  (length todo + pending_out seen < fuel)%nat -> NoDup seen ->
  (forall s, s ∈ seen -> reaches roots s) ->
  (forall s, s ∈ todo -> enter s = true -> reaches roots s) ->
  (forall s, s ∈ roots -> enter s = true -> s ∈ seen \/ s ∈ todo) ->
  (forall s t, s ∈ seen -> t ∈ out s -> enter t = true -> t ∈ seen \/ t ∈ todo) ->
  exists r, walk fuel todo seen = Some r /\ NoDup r /\ forall s, s ∈ r <-> reaches roots s.
Proof.
  induction fuel as [|n IH]; intros todo seen Hf Hnd Hseen Htodo Hroots Hclosed; [lia|].
  cbn [walk]. destruct todo as [|s todo].
  - exists seen. split; [done|]. split; [done|]. intros s. split; [auto|].
    induction 1 as [s Hs He|s t _ IHr Ht He].
    + destruct (Hroots s Hs He); set_solver.
    + destruct (Hclosed s t IHr Ht He); set_solver.
  - destruct (negb (enter s) || mem_string s seen) eqn:E.
    + assert (Hskip : enter s = true -> s ∈ seen).
      { intros He. rewrite He in E. cbn in E. by apply mem_string_true. }
      apply IH; auto; [cbn in Hf; lia|set_solver|..].
      * intros t Ht He. destruct (Hroots t Ht He) as [|[->|]%elem_of_cons]; auto.
      * intros u t Hu Ht He. destruct (Hclosed u t Hu Ht He) as [|[->|]%elem_of_cons]; auto.
    + apply orb_false_iff in E as [He Hns]. apply negb_false_iff in He.
      apply mem_string_false in Hns. assert (Hr : reaches roots s) by (apply Htodo; [left|done]).
      apply IH.
      * rewrite push_length. pose proof (pending_visit seen s Hns). cbn in Hf. lia.
      * by constructor.
      * intros t [->|Ht]%elem_of_cons; auto.
      * intros t [Ht|Ht]%push_elem Het; [by eapply reaches_step | apply Htodo; [by right|done]].
      * intros t Ht Het. rewrite elem_of_cons, push_elem.
        destruct (Hroots t Ht Het) as [|[->|]%elem_of_cons]; auto.
      * intros u t [->|Hu]%elem_of_cons Ht Het; rewrite elem_of_cons, push_elem; [auto|].
        destruct (Hclosed u t Hu Ht Het) as [|[->|]%elem_of_cons]; auto.
Qed.

(** The walk visits exactly the reachable states, each once. *)
Lemma walk_all_spec roots :
  NoDup (walk_all roots) /\ forall s, s ∈ walk_all roots <-> reaches roots s.
Proof.
  unfold walk_all. destruct (walk_spec roots (walk_fuel roots) roots []) as (r & -> & Hnd & Hr); auto.
  - constructor.
  - set_solver.
  - intros s Hs He. by apply reaches_root.
  - set_solver.
Qed.
End walk.

(** Graphs that agree on what is entered reach the same states. *)
Lemma reaches_ext enter enter' out out' roots s :
  (forall s, enter s = enter' s) -> (forall s t, t ∈ out s <-> t ∈ out' s) ->
  reaches enter out roots s <-> reaches enter' out' roots s.
Proof.
  intros He Ho. split; induction 1 as [s Hs Hen|s t _ IH Ht Hen];
    [apply reaches_root|eapply reaches_step|apply reaches_root|eapply reaches_step];
    eauto; solve [by rewrite <- He | by rewrite He | by apply Ho].
Qed.

(** A Go slice used as a stack, its top first: the last successor is popped
    first; and one used as a queue. *)
Definition push_stack (xs todo : list string) : list string := rev xs ++ todo.
Definition push_queue (xs todo : list string) : list string := todo ++ xs.

Lemma push_stack_elem xs ys s : s ∈ push_stack xs ys <-> s ∈ xs \/ s ∈ ys.
Proof. unfold push_stack. rewrite elem_of_app, !list_elem_of_In, <- in_rev. done. Qed.
Lemma push_stack_length xs ys : length (push_stack xs ys) = (length xs + length ys)%nat.
Proof. unfold push_stack. rewrite length_app, length_rev. done. Qed.
Lemma push_queue_elem xs ys s : s ∈ push_queue xs ys <-> s ∈ xs \/ s ∈ ys.
Proof. unfold push_queue. rewrite elem_of_app. tauto. Qed.
Lemma push_queue_length xs ys : length (push_queue xs ys) = (length xs + length ys)%nat.
Proof. unfold push_queue. rewrite length_app. lia. Qed.

Lemma size_list_to_set_le {A} `{Countable A} (l : list A) :
  (size (list_to_set l : gset A) <= length l)%nat.
Proof.
  induction l as [|x l IH]; cbn; [rewrite size_empty; lia|].
  rewrite size_union_alt, size_singleton.
  assert (size (list_to_set l ∖ {[x]} : gset A) <= size (list_to_set l : gset A))%nat
    by (apply subseteq_size; set_solver). lia.
Qed.

(** ** Repeated passes *)

Section saturate.
Context {A : Type} `{Countable A} {X : Type} (gen : X -> gset A -> gset A) (items : list X).

(** One pass over the items, each adding to the set in place. *)
Definition pass (s : gset A) : gset A := foldl (fun s x => s ∪ gen x s) s items.

(** [for changed := true; changed;]: pass until a pass adds nothing. *)
Fixpoint saturate (fuel : nat) (s : gset A) : gset A :=
  match fuel with
  | O => s
  | S n => let s' := pass s in if decide (size s' = size s) then s' else saturate n s'
  end.

Lemma fold_incl xs s : s ⊆ foldl (fun s x => s ∪ gen x s) s xs.
Proof.
  revert s. induction xs as [|x xs IH]; intros s; cbn; [done|].
  etransitivity; [apply union_subseteq_l | apply IH].
Qed.

(** A pass that adds nothing leaves the set closed under every item. *)
Lemma pass_closed s x : size (pass s) = size s -> x ∈ items -> gen x s ⊆ s.
Proof.
  intros Hs Hx. assert (Heq : pass s = s).
  { symmetry. apply set_subseteq_size_eq; [apply fold_incl | unfold pass in *; lia]. }
  unfold pass in Heq. clear Hs. revert Heq. induction items as [|y xs IH]; [set_solver|].
  cbn. intros Heq. assert (Hy : s ∪ gen y s = s).
  { apply set_eq. intros a. split; [|set_solver]. intros Ha. rewrite <- Heq.
    by apply (fold_incl xs). }
  apply elem_of_cons in Hx as [->|Hx]; [set_solver|]. rewrite Hy in Heq. auto.
Qed.

(** Everything in the result was derived. *)
Lemma saturate_least (P : A -> Prop) :
  (forall x s, x ∈ items -> (forall a, a ∈ s -> P a) -> forall a, a ∈ gen x s -> P a) ->
  forall fuel s, (forall a, a ∈ s -> P a) -> forall a, a ∈ saturate fuel s -> P a.
Proof.
  intros Hgen. assert (Hpass : forall s, (forall a, a ∈ s -> P a) -> forall a, a ∈ pass s -> P a).
  { unfold pass. assert (Hall : forall x, x ∈ items -> x ∈ items) by auto. revert Hall.
    generalize items at 1 3 as xs. induction xs as [|x xs IH]; intros Hin s Hs a; cbn; [auto|].
    apply IH; [set_solver|]. intros b [Hb|Hb]%elem_of_union; [auto|].
    eapply Hgen; [apply Hin; left | exact Hs | exact Hb]. }
  induction fuel as [|n IH]; intros s Hs a; cbn; [auto|].
  destruct (decide _); [by apply Hpass|]. apply IH. by apply Hpass.
Qed.
Context (bound : gset A).
Hypothesis gen_bound : forall x s, x ∈ items -> s ⊆ bound -> gen x s ⊆ bound.

Lemma pass_bound s : s ⊆ bound -> pass s ⊆ bound.
Proof.
  unfold pass. assert (Hall : forall x, x ∈ items -> x ∈ items) by auto. revert s Hall.
  generalize items at 1 3 as xs. induction xs as [|x xs IH]; intros s Hin Hs; cbn; [done|].
  apply IH; [set_solver|]. apply union_subseteq. split; [done|]. apply gen_bound; [apply Hin; left|done].
Qed.

Lemma saturate_closed fuel : forall s x,
  s ⊆ bound -> (size bound < size s + fuel)%nat -> x ∈ items ->
  gen x (saturate fuel s) ⊆ saturate fuel s.
Proof.
  induction fuel as [|n IH]; intros s x Hs Hf Hx; cbn.
  - apply subseteq_size in Hs. lia.
  - destruct (decide (size (pass s) = size s)) as [Heq|Hne].
    + assert (pass s = s) as ->; [|by apply pass_closed].
      symmetry. apply set_subseteq_size_eq; [apply fold_incl | unfold pass in *; lia].
    + pose proof (subseteq_size s (pass s) (fold_incl items s)).
      apply IH; [by apply pass_bound | lia | done].
Qed.

End saturate.
