(* ===== verification/WorkflowMachine.v ===== *)
(** * The workflow machine: [internal/workflow/internal/model/machine.go] and
    the state-machine rules of [internal/workflow/v_3_0/compile.go]

    A definition is indexed into a machine; the compiler then checks that its
    transitions resolve, that every state is reachable and can end, and that
    every gate has a branch for every outcome its evaluator can produce. *)

From S2P Require Export Api Walk.
Local Open Scope string_scope.
Local Open Scope list_scope.
Local Open Scope Z_scope.

(** ** Reserved targets *)

Definition TerminalComplete : string := "".
Definition TargetAbort : string := "@abort".
Definition TargetEscalate : string := "@escalate".
Definition BranchEscalate : string := "escalate".
Definition TargetJoin : string := "@join".

Definition IsReservedTarget (t : string) : bool :=
  (t =? TargetAbort)%string || (t =? TargetEscalate)%string.
Definition IsReservedBranchTarget (t : string) : bool := (t =? TargetJoin)%string.
Definition IsReservedAnyTarget (t : string) : bool := IsReservedTarget t || IsReservedBranchTarget t.

Definition isTerminal (t : string) : bool := (t =? TerminalComplete)%string || IsReservedTarget t.
Definition isStateName (t : string) : bool := negb (isTerminal t) && negb (IsReservedBranchTarget t).

(** ** The machine *)

Record Machine := mkMachine {
  Def : Definition_;
  m_tasks : gmap string Task;
  m_gates : gmap string Gate;
  m_parallels : gmap string Parallel;
  m_maps : gmap string MapState;
}.

(** Index a list by name: a later declaration replaces an earlier one. *)
Definition index {A} (name : A -> string) (l : list A) : gmap string A :=
  foldl (fun m x => <[name x := x]> m) ∅ l.

(** [newMachine] and [model.NewMachine], without the digest and the graph. *)
Definition newMachine (def : Definition_) : Machine :=
  mkMachine def (index task_Name (Tasks (Spec def))) (index gate_Name (Gates_ (Spec def)))
    (index par_Name (Parallels (Spec def))) (index map_Name (Maps (Spec def))).

(** [Machine.Has], [Machine.Outgoing], [BranchTarget]. *)
Definition Has (m : Machine) (name : string) : bool :=
  bool_decide (is_Some (m_tasks m !! name)) || bool_decide (is_Some (m_gates m !! name))
  || bool_decide (is_Some (m_parallels m !! name)) || bool_decide (is_Some (m_maps m !! name)).

Definition gate_targets (g : Gate) : list string :=
  map (fun outcome => default "" (gate_Branches g !! outcome)) (sortedKeys (gate_Branches g)).

Definition parallel_targets (p : Parallel) : list string :=
  map branch_Start (par_Branches p) ++ [par_Join p]
  ++ (if (OnFailure p =? "")%string then [] else [OnFailure p]).

Definition map_targets (f : MapState) : list string :=
  [map_Task f; map_Join f] ++ (if (map_OnFailure f =? "")%string then [] else [map_OnFailure f]).

Definition Outgoing (m : Machine) (state : string) : list string :=
  match m_tasks m !! state with
  | Some t => [Next t]
  | None =>
    match m_gates m !! state with
    | Some g => gate_targets g
    | None =>
      match m_parallels m !! state with
      | Some p => parallel_targets p
      | None => match m_maps m !! state with Some f => map_targets f | None => [] end
      end
    end
  end.

Definition BranchTarget (g : Gate) (outcome : string) : option string := gate_Branches g !! outcome.

(** [stateNames]. *)
Definition stateNames (def : Definition_) : list string :=
  map task_Name (Tasks (Spec def)) ++ map gate_Name (Gates_ (Spec def))
  ++ map par_Name (Parallels (Spec def)) ++ map map_Name (Maps (Spec def)).

(** ** Problems

    A diagnostic of the compiler, with the names its message carries. *)
Inductive problem :=
| DuplicateState (name : string)
| StartEmpty | StartUndefined (name : string)
| TaskNextUndefined (task target : string)
| TaskIntegrity (task grade : string)
| TaskContextDuplicated (task source : string) | TaskContextUndefined (task source : string)
| TaskOnTimeout (task value : string) | TaskSalvageNotAgentic (task : string)
| GateNoBranches (gate : string) | GateBranchUndefined (gate outcome target : string)
| Unreachable (state : string) | NoExit (state : string)
| GateUnknownCheck (gate check : string) | GateBranchNotProducible (gate outcome : string)
| GateOutcomesUncovered (gate : string) (outcomes : list string).

(** The names already seen, in order. *)
Fixpoint duplicates (seen names : list string) : list problem :=
  match names with
  | [] => []
  | n :: names' =>
      (if mem_string n seen then [DuplicateState n] else []) ++ duplicates (n :: seen) names'
  end.

(** The [contextFrom] loop of one task. *)
Fixpoint context_problems (m : Machine) (task : string) (seen sources : list string) : list problem :=
  match sources with
  | [] => []
  | s :: sources' =>
      if mem_string s seen then TaskContextDuplicated task s :: context_problems m task seen sources'
      else
        (if bool_decide (is_Some (m_tasks m !! s)) || bool_decide (is_Some (m_gates m !! s))
         then [] else [TaskContextUndefined task s])
        ++ context_problems m task (s :: seen) sources'
  end.

Definition valid_integrity (g : string) : bool :=
  mem_string g ["trusted"; "maintainer"; "unapproved"; "derived"].

Definition task_problems (m : Machine) (t : Task) : list problem :=
  (if isStateName (Next t) && negb (Has m (Next t)) then [TaskNextUndefined (task_Name t) (Next t)] else [])
  ++ (if negb (MinimumIntegrity t =? "")%string && negb (valid_integrity (MinimumIntegrity t))
      then [TaskIntegrity (task_Name t) (MinimumIntegrity t)] else [])
  ++ context_problems m (task_Name t) [] (ContextFrom t)
  ++ (if mem_string (OnTimeout t) [""; "fail"; "salvage"] then []
      else [TaskOnTimeout (task_Name t) (OnTimeout t)])
  ++ (if (OnTimeout t =? "salvage")%string && negb (bool_decide (task_Type t = TaskAgentic))
      then [TaskSalvageNotAgentic (task_Name t)] else []).

Definition gate_problems (m : Machine) (g : Gate) : list problem :=
  (if bool_decide (gate_Branches g = ∅) then [GateNoBranches (gate_Name g)] else [])
  ++ concat (map (fun outcome =>
       let target := default "" (gate_Branches g !! outcome) in
       if isStateName target && negb (Has m target)
       then [GateBranchUndefined (gate_Name g) outcome target] else [])
     (sortedKeys (gate_Branches g))).

(** [structuralProblems]. *)
Definition structuralProblems (m : Machine) : list problem :=
  let def := Def m in
  duplicates [] (stateNames def)
  ++ (if (Start (Spec def) =? TerminalComplete)%string then [StartEmpty]
      else if negb (Has m (Start (Spec def))) then [StartUndefined (Start (Spec def))] else [])
  ++ concat (map (task_problems m) (Tasks (Spec def)))
  ++ concat (map (gate_problems m) (Gates_ (Spec def))).

(** ** Reachability *)

(** The forward walk of [reachabilityProblems]. *)
Definition reachable_states (m : Machine) : list string :=
  walk_all (fun s => negb (isTerminal s)) (Outgoing m) push_stack (stateNames (Def m))
    [Start (Spec (Def m))].

(** One state of the [canExit] pass: it can exit through a target that ends
    the run or the branch, or that can exit. *)
Definition exit_step (out : string -> list string) (ends : string -> bool)
    (name : string) (s : gset string) : gset string :=
  if existsb (fun t => ends t || bool_decide (t ∈ s)) (out name) then {[name]} else ∅.

Definition ends_run (t : string) : bool := isTerminal t || IsReservedBranchTarget t.

Definition exit_set (out : string -> list string) (ends : string -> bool) (names : list string)
    : gset string :=
  saturate (exit_step out ends) names (S (length names)) ∅.

Definition canExit (m : Machine) : gset string :=
  exit_set (Outgoing m) ends_run (stateNames (Def m)).

(** [reachabilityProblems]. *)
Definition reachabilityProblems (m : Machine) : list problem :=
  let reachable := reachable_states m in
  let exits := canExit m in
  concat (map (fun n => if mem_string n reachable then [] else [Unreachable n]) (stateNames (Def m)))
  ++ concat (map (fun n => if mem_string n reachable && negb (bool_decide (n ∈ exits))
                           then [NoExit n] else []) (stateNames (Def m))).

(** ** Gate outcomes *)

Definition agenticOutcomes : list string := ["pass"; "fail"; "needs-changes"].
Definition automatedBuiltinOutcomes : list string := ["pass"; "fail"].
Definition automatedCheckOutcomes : gmap string (list string) :=
  {["ci-status" := ["pass"; "fail"; "timeout"];
    "failure-class" := ["pass"; "fail"; "infra"];
    "land-outcome" := ["merged"; "enqueued"; "fail"];
    "queue-outcome" := ["merged"; "evicted"; "timeout"; "fail"]]}.

(** The outcomes a gate's evaluator can produce; [None] for a gate whose
    vocabulary is its own branches. *)
Definition producible (g : Gate) : option (list string) :=
  match Evaluator g with
  | EvaluatorAgentic =>
      Some (if bool_decide (is_Some (gate_Branches g !! "defer"))
            then agenticOutcomes ++ ["defer"] else agenticOutcomes)
  | EvaluatorAutomated =>
      Some (match Automated g with
            | Some a => default automatedBuiltinOutcomes (automatedCheckOutcomes !! Check a)
            | None => automatedBuiltinOutcomes
            end)
  | _ => None
  end.

Definition unknown_check (g : Gate) (known : option (list string)) : list problem :=
  match Evaluator g, Automated g, known with
  | EvaluatorAutomated, Some a, Some names =>
      if negb (Check a =? "")%string && negb (mem_string (Check a) names)
      then [GateUnknownCheck (gate_Name g) (Check a)] else []
  | _, _, _ => []
  end.

Definition gate_outcome_problems (known : option (list string)) (g : Gate) : list problem :=
  match producible g with
  | None => []
  | Some outcomes =>
      unknown_check g known
      ++ concat (map (fun o => if (o =? BranchEscalate)%string || mem_string o outcomes then []
                               else [GateBranchNotProducible (gate_Name g) o])
                  (sortedKeys (gate_Branches g)))
      ++ let uncovered := List.filter (fun o => negb (bool_decide (is_Some (gate_Branches g !! o)))) outcomes in
         match uncovered with [] => [] | _ => [GateOutcomesUncovered (gate_Name g) uncovered] end
  end.

(** [gateOutcomeProblems]; [None] checks no names. *)
Definition gateOutcomeProblems (def : Definition_) (known : option (list string)) : list problem :=
  concat (map (gate_outcome_problems known) (Gates_ (Spec def))).

(** ** Placement *)

(** Drop every value equal to the one kept before it. *)
Fixpoint drop_repeats (last : string) (l : list string) : list string :=
  match l with
  | [] => []
  | x :: l' => if (x =? last)%string then drop_repeats last l' else x :: drop_repeats x l'
  end.

(** [sortedDistinct]. *)
Definition sortedDistinct (values : list string) : list string :=
  match sort_strings values with [] => [] | x :: l => x :: drop_repeats x l end.
