(* ===== verification/WorkflowProps.v ===== *)
(** * What the compiler's state-machine rules guarantee *)

From Stdlib Require Import Sorting.Sorted.
From S2P Require Export WorkflowMachine.
Local Open Scope string_scope.
Local Open Scope list_scope.
Local Open Scope Z_scope.

(** ** The index *)

Lemma index_from {A} (name : A -> string) l : forall (m : gmap string A) n,
  foldl (fun m x => <[name x := x]> m) m l !! n = m !! n
  \/ exists x, foldl (fun m x => <[name x := x]> m) m l !! n = Some x /\ x ∈ l /\ name x = n.
Proof.
  induction l as [|y l IH]; intros m n; cbn; [by left|].
  destruct (IH (<[name y := y]> m) n) as [H|(x & H & Hx & Hn)].
  - destruct (decide (name y = n)) as [<-|Hne].
    + right. exists y. rewrite H, lookup_insert_eq. split; [done|]. split; [left|done].
    + left. by rewrite H, lookup_insert_ne.
  - right. exists x. split; [done|]. split; [by right|done].
Qed.

Lemma index_Some {A} (name : A -> string) l n x :
  index name l !! n = Some x -> x ∈ l /\ name x = n.
Proof.
  unfold index. intros H. destruct (index_from name l ∅ n) as [H'|(y & H' & Hy & Hn)].
  - rewrite H, lookup_empty in H'. done.
  - rewrite H in H'. injection H' as ->. done.
Qed.

Lemma index_dom {A} (name : A -> string) l n :
  is_Some (index name l !! n) <-> n ∈ map name l.
Proof.
  split.
  - intros [x [Hx <-]%index_Some]. apply list_elem_of_fmap. eauto.
  - intros (x & -> & Hx)%list_elem_of_fmap. unfold index.
    generalize (∅ : gmap string A). induction l as [|y l IH]; intros m; [set_solver|]. cbn.
    apply elem_of_cons in Hx as [->|Hx]; [|by apply IH].
    destruct (index_from name l (<[name y := y]> m) (name y)) as [H|(z & H & _)]; rewrite H.
    + rewrite lookup_insert_eq. eauto.
    + eauto.
Qed.

Lemma Has_iff def n : Has (newMachine def) n = true <-> n ∈ stateNames def.
Proof.
  unfold Has, stateNames; cbn. rewrite !orb_true_iff, !bool_decide_eq_true, !index_dom, !elem_of_app.
  tauto.
Qed.

Lemma Outgoing_declared def s : Outgoing (newMachine def) s <> [] -> s ∈ stateNames def.
Proof.
  unfold Outgoing, stateNames; cbn. rewrite !elem_of_app, <- !index_dom.
  destruct (index task_Name _ !! s); [eauto|]. destruct (index gate_Name _ !! s); [eauto|].
  destruct (index par_Name _ !! s); [eauto|]. destruct (index map_Name _ !! s); [eauto 6|done].
Qed.

(** ** Reachability and exits *)

(** The states a run of [m] can come to, starting at its start state. *)
Abbreviation run_reaches m :=
  (reaches (fun s => negb (isTerminal s)) (Outgoing m) [Start (Spec (Def m))]).

Lemma reachable_states_spec def s :
  s ∈ reachable_states (newMachine def) <-> run_reaches (newMachine def) s.
Proof.
  apply walk_all_spec.
  - apply Outgoing_declared.
  - apply push_stack_elem.
  - apply push_stack_length.
Qed.

(** A declared state from which a sequence of transitions ends. *)
Inductive can_end (out : string -> list string) (ends : string -> bool) (names : list string)
    : string -> Prop :=
| end_now n t : n ∈ names -> t ∈ out n -> ends t = true -> can_end out ends names n
| end_later n t : n ∈ names -> t ∈ out n -> can_end out ends names t -> can_end out ends names n.

Lemma exit_set_spec out ends names n : n ∈ exit_set out ends names <-> can_end out ends names n.
Proof.
  unfold exit_set. set (R := saturate _ _ _ _).
  assert (Hstep : forall n s a, a ∈ exit_step out ends n s ->
            a = n /\ exists t, t ∈ out n /\ (ends t = true \/ t ∈ s)).
  { intros x s a. unfold exit_step. destruct (existsb _ _) eqn:E; [|set_solver].
    intros ->%elem_of_singleton. split; [done|]. apply existsb_exists in E as (t & Ht & E).
    exists t. split; [by apply list_elem_of_In|]. apply orb_true_iff in E as [E|E]; [auto|].
    right. by apply bool_decide_eq_true in E. }
  assert (Hclosed : forall x, x ∈ names -> exit_step out ends x R ⊆ R).
  { intros x Hx. unfold R.
    apply (saturate_closed (exit_step out ends) names (list_to_set names)); [|set_solver| |done].
    - intros y s Hy _ a (-> & _)%Hstep. by apply elem_of_list_to_set.
    - rewrite size_empty. pose proof (size_list_to_set_le names). lia. }
  split.
  - apply (saturate_least (exit_step out ends) names (fun a => can_end out ends names a));
      [|set_solver].
    intros x s Hx Hs a (-> & t & Ht & [He|Hin])%Hstep;
      [by eapply end_now | eapply end_later; eauto].
  - assert (Hin : forall x t, x ∈ names -> t ∈ out x -> ends t = true \/ t ∈ R -> x ∈ R).
    { intros x t Hx Ht Hor. apply (Hclosed x Hx). unfold exit_step.
      rewrite (proj2 (existsb_exists _ _)); [set_solver|]. exists t.
      split; [by apply list_elem_of_In|]. apply orb_true_iff. destruct Hor; [auto|].
      right. by apply bool_decide_eq_true. }
    induction 1 as [x t Hx Ht He|x t Hx Ht _ IH]; eauto.
Qed.

Abbreviation run_can_end m := (can_end (Outgoing m) ends_run (stateNames (Def m))).

Lemma concat_map_elem {A B} (f : A -> list B) l b :
  b ∈ concat (map f l) <-> exists a, a ∈ l /\ b ∈ f a.
Proof.
  induction l as [|x l IH]; cbn; [set_solver|]. rewrite elem_of_app, IH. set_solver.
Qed.

(** C28: the reachability rules are exact: a state is reported unreachable
    precisely when no run from the start comes to it, and reported as a loop
    without exit precisely when a run comes to it and no sequence of
    transitions from it ends the run or its branch. *)
Theorem reachability_rules_are_exact def s :
  let m := newMachine def in
  (Unreachable s ∈ reachabilityProblems m <-> s ∈ stateNames def /\ ~ run_reaches m s)
  /\ (NoExit s ∈ reachabilityProblems m <->
      s ∈ stateNames def /\ run_reaches m s /\ ~ run_can_end m s).
Proof.
  cbn zeta. unfold reachabilityProblems. rewrite !elem_of_app, !concat_map_elem. cbn [Def newMachine].
  assert (Hr : forall n, mem_string n (reachable_states (newMachine def)) = true
                         <-> run_reaches (newMachine def) n)
    by (intros; rewrite mem_string_true; apply reachable_states_spec).
  assert (He : forall n, bool_decide (n ∈ canExit (newMachine def)) = true
                         <-> run_can_end (newMachine def) n)
    by (intros; rewrite bool_decide_eq_true; apply exit_set_spec).
  split; split.
  - intros [(n & Hn & H)|(n & Hn & H)].
    + destruct (mem_string n _) eqn:E; [set_solver|]. apply list_elem_of_singleton in H as [= <-].
      split; [done|]. rewrite <- Hr. congruence.
    + destruct (_ && _); set_solver.
  - intros [Hs Hn]. left. exists s. split; [done|]. rewrite <- Hr in Hn.
    destruct (mem_string s _); [done|set_solver].
  - intros [(n & Hn & H)|(n & Hn & H)].
    + destruct (mem_string n _); set_solver.
    + destruct (mem_string n _) eqn:E1; [|set_solver]. cbn [andb] in H.
      destruct (bool_decide _) eqn:E2; [set_solver|]. cbn [negb] in H.
      apply list_elem_of_singleton in H as [= <-].
      split; [done|]. split; [by apply Hr | intros Hc%He; congruence].
  - intros (Hs & Hreach & Hend). right. exists s. split; [done|]. rewrite <- Hr in Hreach.
    rewrite <- He in Hend. rewrite Hreach. destruct (bool_decide _); [done|]. cbn. set_solver.
Qed.

(** ** Gate outcomes *)

Lemma concat_nil {A B} (f : A -> list B) l : concat (map f l) = [] <-> forall x, x ∈ l -> f x = [].
Proof.
  induction l as [|x l IH]; cbn; [set_solver|]. rewrite app_nil, IH. split.
  - intros [H1 H2] y [->|Hy]%elem_of_cons; auto.
  - intros H. split; [apply H; left | intros y Hy; apply H; by right].
Qed.

(** An accepted gate never meets an outcome it has no branch for: every
    outcome its evaluator can produce resolves to a target, and every branch
    it declares is for a producible outcome or for escalation. *)
Theorem accepted_gates_cover_outcomes def known g outcomes :
  gateOutcomeProblems def known = [] -> g ∈ Gates_ (Spec def) -> producible g = Some outcomes ->
  (forall o, o ∈ outcomes -> exists target, BranchTarget g o = Some target)
  /\ (forall o target, BranchTarget g o = Some target -> o ∈ outcomes \/ o = BranchEscalate).
Proof.
  intros Hp Hg Hout. unfold gateOutcomeProblems in Hp. rewrite concat_nil in Hp.
  specialize (Hp g Hg). unfold gate_outcome_problems in Hp. rewrite Hout in Hp.
  apply app_nil in Hp as [_ Hp]. apply app_nil in Hp as [Hbr Hun]. split.
  - intros o Ho. destruct (List.filter _ outcomes) as [|x l] eqn:E; [|done].
    destruct (BranchTarget g o) as [t|] eqn:Ht; [eauto|]. exfalso.
    assert (Hin : o ∈ List.filter (fun o => negb (bool_decide (is_Some (gate_Branches g !! o)))) outcomes).
    { apply list_elem_of_In, filter_In. split; [by apply list_elem_of_In|].
      unfold BranchTarget in Ht. rewrite Ht. done. }
    rewrite E in Hin. set_solver.
  - intros o t Ht. rewrite concat_nil in Hbr. specialize (Hbr o).
    rewrite sortedKeys_elem in Hbr. specialize (Hbr (ex_intro _ t Ht)).
    destruct (String.eqb_spec o BranchEscalate) as [|Hne]; [auto|]. cbn in Hbr.
    destruct (mem_string o outcomes) eqn:E; [|done]. left. by apply mem_string_true.
Qed.
