(* ===== verification/WorkflowParallel.v ===== *)
(** * Parallel fan-out: [internal/workflow/v_3_0/parallel.go] and [graph.go]

    Branch bodies, their ownership, the rules that keep branches disjoint and
    branch-terminal, and the projection of a definition to the graph the portal
    draws.  The DSL 3.1 map and selection rules ([fanout.go]) are not part of
    this model. *)

From S2P Require Export WorkflowProps.
Local Open Scope string_scope.
Local Open Scope list_scope.
Local Open Scope Z_scope.

(** ** Branch bodies *)

(** The [stateGraph] interface: what a body walk asks of a graph. *)
Class StateGraph (G : Type) := {
  sg_Has : G -> string -> bool;
  sg_Outgoing : G -> string -> list string;
  sg_states : G -> list string;
}.

#[export] Instance machine_graph : StateGraph Machine := {
  sg_Has := Has;
  sg_Outgoing := Outgoing;
  sg_states m := stateNames (Def m);
}.

(** A state a body walk enters. *)
Definition in_body {G} `{StateGraph G} (g : G) (s : string) : bool :=
  negb ((s =? TerminalComplete)%string || IsReservedAnyTarget s) && sg_Has g s.

(** [branchBody]. *)
Definition branchBody {G} `{StateGraph G} (g : G) (start : string) : list string :=
  sort_strings (walk_all (in_body g) (sg_Outgoing g) push_stack (sg_states g) [start]).

(** [joinTerminalStates]. *)
Definition joinTerminalStates {G} `{StateGraph G} (g : G) (start : string) : list string :=
  sort_strings (List.filter (fun s => mem_string TargetJoin (sg_Outgoing g s)) (branchBody g start)).

(** [branchOwnership]: the first branch to reach a state owns it. *)
Abbreviation branchRef := (string * string)%type.

Definition own_branch (m : Machine) (p : Parallel) (owner : gmap string branchRef) (b : Branch)
    : gmap string branchRef :=
  foldl (fun o s => match o !! s with Some _ => o | None => <[s := (par_Name p, branch_Name b)]> o end)
    owner (branchBody m (branch_Start b)).

Definition branchOwnership (m : Machine) : gmap string branchRef :=
  foldl (fun o p => foldl (own_branch m p) o (par_Branches p)) ∅ (Parallels (Spec (Def m))).

(** [branchExitSet]: a target ends a branch when it is reserved, or is a body
    state that can exit (only body states are ever added to the set). *)
Definition branchExitSet (m : Machine) (body : list string) : gset string :=
  exit_set (Outgoing m) IsReservedAnyTarget body.

(** [Machine.ParallelHasChildStage]. *)
Definition ParallelHasChildStage (m : Machine) (p : Parallel) : bool :=
  existsb (fun s => match m_tasks m !! s with Some t => ChildWorkflows t | None => false end)
    (walk_all (fun s => negb ((s =? "")%string || (s =? par_Join p)%string || IsReservedAnyTarget s))
       (Outgoing m) push_queue (stateNames (Def m)) (map branch_Start (par_Branches p))).

(** ** Rules *)

Inductive parallel_problem :=
| TooFewBranches (p : string) (n : nat) | TooManyBranches (p : string) (n : nat)
| BranchNoName (p : string) | BranchDuplicate (p b : string)
| BranchNoStart (p b : string) | BranchStartUndefined (p b start : string)
| NegativeConcurrency (p : string) | OnFailureRequired (p : string) | OnFailureUndefined (p target : string)
| OnFailureJoin (p : string) | OnFailureForbidden (p : string) | PolicyMissing (p : string)
| PolicyUnknown (p policy : string) | NegativeTimeout (p : string)
| TaskTimeoutExceeds (p b task : string)
| StateShared (p b state : string) (other : branchRef) | BranchReachesJoin (p b : string)
| BranchReachesOnFailure (p b : string) | BranchReachesParallel (p b : string)
| NestedParallel (p b nested : string) | NestedMap (p b nested : string)
| BranchNoExit (p b state : string)
| BranchHumanGate (p b gate : string) | BranchWritableTask (p b task : string)
| BranchWritableGate (p b gate : string)
| JoinMissing (p : string) | JoinUndefined (p join : string) | JoinIsParallel (p join : string)
| TaskEntersJoin (task join : string) | GateEntersJoin (gate outcome join : string)
| StartIsJoin (join : string)
| StrayTaskJoin (task : string) | StrayGateJoin (gate outcome : string).

Definition maxParallelBranches : nat := 32.

(** The branch loop of rule 5, with the names seen so far. *)
Fixpoint branch_declaration_problems (m : Machine) (p : string) (seen : list string) (bs : list Branch)
    : list parallel_problem :=
  match bs with
  | [] => []
  | b :: bs' =>
      if (branch_Name b =? "")%string then BranchNoName p :: branch_declaration_problems m p seen bs'
      else
        (if mem_string (branch_Name b) seen then [BranchDuplicate p (branch_Name b)] else [])
        ++ (if (branch_Start b =? "")%string then [BranchNoStart p (branch_Name b)]
            else if negb (Has m (branch_Start b))
            then [BranchStartUndefined p (branch_Name b) (branch_Start b)] else [])
        ++ branch_declaration_problems m p (branch_Name b :: seen) bs'
  end.

(** Rule 6. *)
Definition policy_problems (m : Machine) (p : Parallel) : list parallel_problem :=
  match FailurePolicy p with
  | BranchFailFast | BranchAllOrNothing =>
      if (OnFailure p =? "")%string then [OnFailureRequired (par_Name p)]
      else if isStateName (OnFailure p) && negb (Has m (OnFailure p))
      then [OnFailureUndefined (par_Name p) (OnFailure p)]
      else if IsReservedBranchTarget (OnFailure p) then [OnFailureJoin (par_Name p)] else []
  | BranchContinueOnError =>
      if (OnFailure p =? "")%string then [] else [OnFailureForbidden (par_Name p)]
  | PolicyUnset => [PolicyMissing (par_Name p)]
  | PolicyOther s => [PolicyUnknown (par_Name p) s]
  end.

(** [parallelShapeProblems]: rules 5, 6 and 8. *)
Definition parallelShapeProblems (m : Machine) (p : Parallel) : list parallel_problem :=
  let n := length (par_Branches p) in
  (if (n <? 2)%nat then [TooFewBranches (par_Name p) n] else [])
  ++ (if (maxParallelBranches <? n)%nat then [TooManyBranches (par_Name p) n] else [])
  ++ branch_declaration_problems m (par_Name p) [] (par_Branches p)
  ++ (if MaxConcurrentBranches p <? 0 then [NegativeConcurrency (par_Name p)] else [])
  ++ policy_problems m p
  ++ (if BranchTimeoutSeconds p <? 0 then [NegativeTimeout (par_Name p)] else [])
  ++ (if 0 <? BranchTimeoutSeconds p then
        concat (map (fun b =>
          concat (map (fun s =>
            match m_tasks m !! s with
            | Some t => if (0 <? TimeoutSeconds t) && (BranchTimeoutSeconds p <? TimeoutSeconds t)
                        then [TaskTimeoutExceeds (par_Name p) (branch_Name b) (task_Name t)] else []
            | None => []
            end) (branchBody m (branch_Start b)))) (par_Branches p))
      else []).

(** The workspace a task or an agentic gate runs in, with the writable repo as
    the unset default. *)
Definition EffectiveWorkspace (t : Task) : WorkspaceMode :=
  match task_Run t with
  | Some r => if bool_decide (run_Workspace r = WorkspaceUnset) then task_Workspace t else run_Workspace r
  | None => task_Workspace t
  end.
Definition branchEffectiveTaskWorkspace (t : Task) : WorkspaceMode :=
  if bool_decide (EffectiveWorkspace t = WorkspaceUnset) then WorkspaceRepo else EffectiveWorkspace t.
Definition branchEffectiveGateWorkspace (g : Gate) : WorkspaceMode :=
  match Agentic g with
  | Some a => if bool_decide (agentic_Workspace a = WorkspaceUnset) then WorkspaceRepo
              else agentic_Workspace a
  | None => WorkspaceRepo
  end.

(** [branchStateProblems]: rules 9 and 10. *)
Definition branchStateProblems (m : Machine) (p : Parallel) (b : Branch) (s : string)
    : list parallel_problem :=
  (match m_gates m !! s with
   | Some g => if bool_decide (Evaluator g = EvaluatorHuman)
               then [BranchHumanGate (par_Name p) (branch_Name b) s] else []
   | None => []
   end)
  ++ (if (DSLVersion (Def m) =? "3.1")%string && ParallelHasChildStage m p then []
      else
        (match m_tasks m !! s with
         | Some t => if bool_decide (branchEffectiveTaskWorkspace t = WorkspaceRepo)
                     then [BranchWritableTask (par_Name p) (branch_Name b) s] else []
         | None => []
         end)
        ++ (match m_gates m !! s with
            | Some g => if bool_decide (Evaluator g = EvaluatorAgentic)
                           && bool_decide (branchEffectiveGateWorkspace g = WorkspaceRepo)
                        then [BranchWritableGate (par_Name p) (branch_Name b) s] else []
            | None => []
            end)).

(** The bodies of a parallel by branch name; a later branch of the same name
    replaces an earlier one. *)
Definition branch_bodies (m : Machine) (p : Parallel) : gmap string (list string) :=
  foldl (fun acc b => if (branch_Start b =? "")%string || negb (Has m (branch_Start b)) then acc
                      else <[branch_Name b := branchBody m (branch_Start b)]> acc)
    ∅ (par_Branches p).

(** One state of one branch: rules 1, 7, 9 and 10. *)
Definition body_state_problems (m : Machine) (p : Parallel) (owner : gmap string branchRef)
    (b : Branch) (s : string) : list parallel_problem :=
  (match owner !! s with
   | Some ref => if bool_decide (ref = (par_Name p, branch_Name b)) then []
                 else [StateShared (par_Name p) (branch_Name b) s ref]
   | None => []
   end)
  ++ (if (s =? par_Join p)%string then [BranchReachesJoin (par_Name p) (branch_Name b)] else [])
  ++ (if negb (OnFailure p =? "")%string && (s =? OnFailure p)%string
      then [BranchReachesOnFailure (par_Name p) (branch_Name b)] else [])
  ++ (if (s =? par_Name p)%string then [BranchReachesParallel (par_Name p) (branch_Name b)] else [])
  ++ (if bool_decide (is_Some (m_parallels m !! s))
      then [NestedParallel (par_Name p) (branch_Name b) s] else [])
  ++ (if bool_decide (is_Some (m_maps m !! s)) then [NestedMap (par_Name p) (branch_Name b) s] else [])
  ++ branchStateProblems m p b s.

(** [parallelBodyProblems]. *)
Definition parallelBodyProblems (m : Machine) (p : Parallel) (owner : gmap string branchRef)
    : list parallel_problem :=
  let body b := default [] (branch_bodies m p !! branch_Name b) in
  concat (map (fun b => concat (map (body_state_problems m p owner b) (body b))) (par_Branches p))
  ++ concat (map (fun b =>
       concat (map (fun s => if bool_decide (s ∈ branchExitSet m (body b)) then []
                             else [BranchNoExit (par_Name p) (branch_Name b) s]) (body b)))
     (par_Branches p)).

(** [joinEntryProblems]: rule 3.  The owner of a join, kind and name. *)
Definition join_owners (m : Machine) : gmap string (string * string) :=
  foldl (fun acc f => if (map_Join f =? "")%string then acc else <[map_Join f := ("map", map_Name f)]> acc)
    (foldl (fun acc p => if (par_Join p =? "")%string then acc
                         else <[par_Join p := ("parallel", par_Name p)]> acc)
       ∅ (Parallels (Spec (Def m))))
    (Maps (Spec (Def m))).

Definition is_join (m : Machine) (s : string) : bool := bool_decide (is_Some (join_owners m !! s)).

Definition joinEntryProblems (m : Machine) : list parallel_problem :=
  if bool_decide (join_owners m = ∅) then []
  else
    concat (map (fun p =>
      if (par_Join p =? "")%string then [JoinMissing (par_Name p)]
      else (if Has m (par_Join p) then [] else [JoinUndefined (par_Name p) (par_Join p)])
           ++ (if bool_decide (is_Some (m_parallels m !! par_Join p))
               then [JoinIsParallel (par_Name p) (par_Join p)] else []))
      (Parallels (Spec (Def m))))
    ++ concat (map (fun t => if is_join m (Next t) then [TaskEntersJoin (task_Name t) (Next t)] else [])
                 (Tasks (Spec (Def m))))
    ++ concat (map (fun g => concat (map (fun o =>
         let target := default "" (gate_Branches g !! o) in
         if is_join m target then [GateEntersJoin (gate_Name g) o target] else [])
         (sortedKeys (gate_Branches g)))) (Gates_ (Spec (Def m))))
    ++ (if is_join m (Start (Spec (Def m))) then [StartIsJoin (Start (Spec (Def m)))] else []).

(** [mapOwnership] and [strayJoinProblems]: rule 4. *)
Definition mapOwnership (m : Machine) : gmap string string :=
  foldl (fun acc f => if bool_decide (is_Some (acc !! map_Task f)) || (map_Task f =? "")%string then acc
                      else <[map_Task f := map_Name f]> acc) ∅ (Maps (Spec (Def m))).

Definition strayJoinProblems (m : Machine) (owner : gmap string branchRef) : list parallel_problem :=
  concat (map (fun t =>
    if negb (IsReservedBranchTarget (Next t)) then []
    else if bool_decide (is_Some (mapOwnership m !! task_Name t)) then []
    else if bool_decide (is_Some (owner !! task_Name t)) then [] else [StrayTaskJoin (task_Name t)])
    (Tasks (Spec (Def m))))
  ++ concat (map (fun g => concat (map (fun o =>
       if negb (IsReservedBranchTarget (default "" (gate_Branches g !! o))) then []
       else if bool_decide (is_Some (owner !! gate_Name g)) then [] else [StrayGateJoin (gate_Name g) o])
       (sortedKeys (gate_Branches g)))) (Gates_ (Spec (Def m)))).

(** ** The graph projection *)

(** [graphOutcomes]: pass and fail first, the rest in order. *)
Definition graphOutcomes (branches : gmap string string) : list string :=
  List.filter (fun o => bool_decide (is_Some (branches !! o))) ["pass"; "fail"]
  ++ sort_strings (List.filter (fun o => negb (o =? "pass")%string && negb (o =? "fail")%string)
                     (map fst (map_to_list branches))).

(** [graphStateIndex]: the same states with their targets in projection order.
    Assigning replaces, appending accumulates, exactly as the code does. *)
Definition append_targets (m : gmap string (list string)) (n : string) (ts : list string)
    : gmap string (list string) :=
  match ts with [] => m | _ => <[n := default [] (m !! n) ++ ts]> m end.

Definition newGraphStateIndex (def : Definition_) : gmap string (list string) :=
  let tasks := foldl (fun m t => <[task_Name t := [Next t]]> m) ∅ (Tasks (Spec def)) in
  let gates := foldl (fun m g => append_targets m (gate_Name g)
                 (map (fun o => default "" (gate_Branches g !! o)) (graphOutcomes (gate_Branches g))))
                 tasks (Gates_ (Spec def)) in
  let pars := foldl (fun m p => append_targets m (par_Name p) (parallel_targets p))
                gates (Parallels (Spec def)) in
  foldl (fun m f => <[map_Name f := map_targets f]> m) pars (Maps (Spec def)).

#[export] Instance index_graph : StateGraph (gmap string (list string)) := {
  sg_Has g s := bool_decide (is_Some (g !! s));
  sg_Outgoing g s := default [] (g !! s);
  sg_states g := map fst (map_to_list g);
}.

(** [graphJoinTargets], [graphTarget]. *)
Definition graphJoinTargets (def : Definition_) : gmap string string :=
  let idx := newGraphStateIndex def in
  let add join acc start := foldl (fun a s => <[s := join]> a) acc (joinTerminalStates idx start) in
  foldl (fun acc f => add (map_Join f) acc (map_Task f))
    (foldl (fun acc p => foldl (fun acc b => add (par_Join p) acc (branch_Start b)) acc (par_Branches p))
       ∅ (Parallels (Spec def)))
    (Maps (Spec def)).

Definition graphTarget (joins : gmap string string) (source target : string) : string :=
  if (target =? TargetJoin)%string then default target (joins !! source) else target.

Inductive GraphTerminal := TerminalNone | GraphTerminalComplete | GraphTerminalAbort | GraphTerminalEscalate.

Definition graphTerminal (t : string) : GraphTerminal :=
  if (t =? TerminalComplete)%string then GraphTerminalComplete
  else if (t =? TargetAbort)%string then GraphTerminalAbort
  else if (t =? TargetEscalate)%string then GraphTerminalEscalate else TerminalNone.

Record GraphEdge := mkEdge {
  Source : string;
  Target : string;
  Outcome : string;
  Terminal : GraphTerminal;
  edge_Branch : string;
}.

Inductive GraphNodeKind := GraphNodeTask (t : TaskType) | GraphNodeGate | GraphNodeParallel | GraphNodeMap.

Record GraphNode := mkNode {
  ID : string;
  Kind : GraphNodeKind;
  node_Owner : string;
  node_Evaluator : option EvaluatorKind;
}.

Record Graph := mkGraph { graph_Start : string; Nodes : list GraphNode; Edges : list GraphEdge }.

(** The nodes and the edges of [buildGraph] and [appendMapGraph]. *)
Definition gate_owner (g : Gate) : string :=
  match Evaluator g, Agentic g with EvaluatorAgentic, Some a => agentic_Goober a | _, _ => "" end.

Definition graph_nodes (def : Definition_) : list GraphNode :=
  map (fun t => mkNode (task_Name t) (GraphNodeTask (task_Type t)) (task_Goober t) None) (Tasks (Spec def))
  ++ map (fun g => mkNode (gate_Name g) GraphNodeGate (gate_owner g) (Some (Evaluator g))) (Gates_ (Spec def))
  ++ map (fun p => mkNode (par_Name p) GraphNodeParallel "" None) (Parallels (Spec def))
  ++ map (fun f => mkNode (map_Name f) GraphNodeMap "" None) (Maps (Spec def)).

Definition failure_edge (source target : string) : list GraphEdge :=
  if (target =? "")%string then []
  else [mkEdge source target "branch-failed" (graphTerminal target) ""].

Definition graph_edges (def : Definition_) : list GraphEdge :=
  let joins := graphJoinTargets def in
  map (fun t => let target := graphTarget joins (task_Name t) (Next t) in
                mkEdge (task_Name t) target "" (graphTerminal target) "") (Tasks (Spec def))
  ++ concat (map (fun g => map (fun o =>
       let target := graphTarget joins (gate_Name g) (default "" (gate_Branches g !! o)) in
       mkEdge (gate_Name g) target o (graphTerminal target) "") (graphOutcomes (gate_Branches g)))
     (Gates_ (Spec def)))
  ++ concat (map (fun p => map (fun b => mkEdge (par_Name p) (branch_Start b) "" TerminalNone (branch_Name b))
                             (par_Branches p)
                           ++ failure_edge (par_Name p) (OnFailure p)) (Parallels (Spec def)))
  ++ concat (map (fun f => mkEdge (map_Name f) (map_Task f) "" TerminalNone ""
                           :: failure_edge (map_Name f) (map_OnFailure f)) (Maps (Spec def))).

(** [buildGraph]. *)
Definition buildGraph (def : Definition_) : Graph :=
  mkGraph (Start (Spec def)) (graph_nodes def) (graph_edges def).

(** [graphEdgeCount]. *)
Definition graphEdgeCount (spec : WorkflowSpec) : nat :=
  (length (Tasks spec)
   + list_sum (map (fun g => size (gate_Branches g)) (Gates_ spec))
   + list_sum (map (fun p => length (par_Branches p) + if (OnFailure p =? "")%string then 0 else 1)
                 (Parallels spec))
   + list_sum (map (fun f => 1 + if (map_OnFailure f =? "")%string then 0 else 1) (Maps spec)))%nat.
