(* ===== verification/WorkflowParallelProps.v ===== *)
(** * What the fan-out rules guarantee *)

From S2P Require Export WorkflowParallel.
Local Open Scope string_scope.
Local Open Scope list_scope.
Local Open Scope Z_scope.

(** ** Branch bodies *)

(** The states of a branch: those a run entering at [start] comes to without
    leaving through a reserved target. *)
Abbreviation body_reaches m start := (reaches (in_body m) (Outgoing m) [start]).

Lemma branchBody_spec def start s :
  s ∈ branchBody (newMachine def) start <-> body_reaches (newMachine def) start s.
Proof.
  unfold branchBody, sort_strings. rewrite sort_by_elem. apply walk_all_spec.
  - apply Outgoing_declared.
  - apply push_stack_elem.
  - apply push_stack_length.
Qed.

Lemma body_declared def start s : s ∈ branchBody (newMachine def) start -> s ∈ stateNames def.
Proof.
  rewrite branchBody_spec. intros H.
  assert (Hin : in_body (newMachine def) s = true) by (destruct H; auto).
  unfold in_body in Hin. apply andb_true_iff in Hin as [_ Hin]. by apply Has_iff.
Qed.

(** ** Ownership *)

Lemma own_body_some (o : gmap string branchRef) ref body s :
  is_Some (o !! s) \/ s ∈ body ->
  is_Some (foldl (fun o s => match o !! s with Some _ => o | None => <[s := ref]> o end) o body !! s).
Proof.
  revert o. induction body as [|x body IH]; intros o; cbn.
  - intros [|H]; [done|set_solver].
  - intros H. apply IH. destruct (decide (x = s)) as [->|Hne].
    + left. destruct (o !! s) eqn:E; [rewrite E; eauto|]. rewrite lookup_insert_eq. eauto.
    + destruct H as [H|[->|H]%elem_of_cons]; [|done|by right]. left.
      destruct (o !! x); [done|]. by rewrite lookup_insert_ne.
Qed.

Lemma fold_own_some m p bs (o : gmap string branchRef) s :
  is_Some (o !! s) \/ (exists b, b ∈ bs /\ s ∈ branchBody m (branch_Start b)) ->
  is_Some (foldl (own_branch m p) o bs !! s).
Proof.
  revert o. induction bs as [|b bs IH]; intros o; cbn.
  - intros [|(b & Hb & _)]; [done|set_solver].
  - intros H. apply IH. destruct H as [H|(b' & [->|Hb]%elem_of_cons & Hs)];
      [left; apply own_body_some; auto | left; apply own_body_some; auto | right; eauto].
Qed.

(** Every branch state has an owner. *)
Lemma ownership_total m p b s :
  p ∈ Parallels (Spec (Def m)) -> b ∈ par_Branches p -> s ∈ branchBody m (branch_Start b) ->
  is_Some (branchOwnership m !! s).
Proof.
  unfold branchOwnership. generalize (∅ : gmap string branchRef). intros o Hp Hb Hs.
  revert o. induction (Parallels (Spec (Def m))) as [|q ps IH]; intros o; [set_solver|]. cbn.
  apply elem_of_cons in Hp as [->|Hp]; [|by apply IH].
  assert (Hmono : forall ps o, is_Some (o !! s) ->
    is_Some (foldl (fun o p => foldl (own_branch m p) o (par_Branches p)) o ps !! s)).
  { clear. induction ps as [|q ps IH]; intros o Ho; cbn; [done|]. apply IH, fold_own_some. auto. }
  apply Hmono, fold_own_some. eauto.
Qed.

(** ** Declarations *)

Lemma declaration_ok m p bs : forall seen,
  branch_declaration_problems m p seen bs = [] ->
  NoDup (map branch_Name bs) /\ (forall b, b ∈ bs -> branch_Name b ∉ seen)
  /\ forall b, b ∈ bs -> branch_Start b <> "" /\ Has m (branch_Start b) = true.
Proof.
  induction bs as [|b bs IH]; intros seen; cbn; [intros; split; [constructor|set_solver]|].
  destruct (branch_Name b =? "")%string; [done|]. intros [H1 H2]%app_nil. apply app_nil in H2 as [H2 H3].
  destruct (mem_string _ seen) eqn:Em; [done|]. apply mem_string_false in Em.
  destruct (IH _ H3) as (Hnd & Hseen & Hstart). split; [|split].
  - constructor; [|done]. intros (b' & Heq & Hb')%list_elem_of_fmap. apply Hseen in Hb'. set_solver.
  - intros b' [->|Hb']%elem_of_cons; [done|]. apply Hseen in Hb'. set_solver.
  - intros b' [->|Hb']%elem_of_cons; [|auto].
    destruct (String.eqb_spec (branch_Start b) "") as [|Hne]; [done|].
    destruct (Has m (branch_Start b)) eqn:E; [done|]. done.
Qed.

Lemma shape_declarations m p :
  parallelShapeProblems m p = [] -> branch_declaration_problems m (par_Name p) [] (par_Branches p) = [].
Proof. unfold parallelShapeProblems. rewrite !app_nil. tauto. Qed.

Lemma shape_policy m p : parallelShapeProblems m p = [] -> policy_problems m p = [].
Proof. unfold parallelShapeProblems. rewrite !app_nil. tauto. Qed.

(** With well-formed declarations each branch finds its own body. *)
Lemma bodies_lookup m p b :
  parallelShapeProblems m p = [] -> b ∈ par_Branches p ->
  branch_bodies m p !! branch_Name b = Some (branchBody m (branch_Start b)).
Proof.
  intros Hshape Hb. apply shape_declarations, declaration_ok in Hshape as (Hnd & _ & Hst).
  unfold branch_bodies. generalize (∅ : gmap string (list string)).
  induction (par_Branches p) as [|x bs IH]; intros acc; [set_solver|]. cbn.
  cbn in Hnd. inversion Hnd as [|? ? Hnot Hnd']; subst.
  destruct (Hst x) as [Hne Hhas]; [left|].
  rewrite (proj2 (String.eqb_neq _ _)) by done. rewrite Hhas. cbn.
  apply elem_of_cons in Hb as [->|Hb]; [|apply IH; auto; intros; apply Hst; by right].
  assert (Hkeep : forall bs (acc : gmap string (list string)), branch_Name x ∉ map branch_Name bs ->
    foldl (fun acc b => if (branch_Start b =? "")%string || negb (Has m (branch_Start b)) then acc
             else <[branch_Name b := branchBody m (branch_Start b)]> acc) acc bs !! branch_Name x
    = acc !! branch_Name x).
  { clear. induction bs as [|y bs IH]; intros acc Hn; cbn; [done|]. cbn in Hn.
    rewrite IH by set_solver. destruct (_ || _); [done|]. rewrite lookup_insert_ne; [done|]. set_solver. }
  rewrite Hkeep by done. apply lookup_insert_eq.
Qed.

(** The definitions the fan-out rules accept. *)
Definition fanout_ok (m : Machine) : Prop :=
  forall p, p ∈ Parallels (Spec (Def m)) ->
    parallelShapeProblems m p = [] /\ parallelBodyProblems m p (branchOwnership m) = [].

Lemma body_state_ok m p b s :
  fanout_ok m -> p ∈ Parallels (Spec (Def m)) -> b ∈ par_Branches p ->
  s ∈ branchBody m (branch_Start b) ->
  body_state_problems m p (branchOwnership m) b s = []
  /\ s ∈ branchExitSet m (branchBody m (branch_Start b)).
Proof.
  intros Hok Hp Hb Hs. destruct (Hok p Hp) as [Hshape Hbody].
  pose proof (bodies_lookup m p b Hshape Hb) as Hlook.
  unfold parallelBodyProblems in Hbody. apply app_nil in Hbody as [H1 H2].
  rewrite concat_nil in H1, H2. specialize (H1 b Hb). specialize (H2 b Hb). cbn in H1, H2.
  rewrite Hlook in H1, H2. cbn in H1, H2. rewrite concat_nil in H1, H2.
  split; [by apply H1|]. specialize (H2 s Hs). case_bool_decide; done.
Qed.

(** In an accepted definition the owner of a branch's state is that branch. *)
Lemma body_owner def p b s :
  fanout_ok (newMachine def) -> p ∈ Parallels (Spec def) -> b ∈ par_Branches p ->
  s ∈ branchBody (newMachine def) (branch_Start b) ->
  exists ref, branchOwnership (newMachine def) !! s = Some ref /\ ref = (par_Name p, branch_Name b).
Proof.
  intros Hok Hp Hb Hs. destruct (body_state_ok _ _ _ _ Hok Hp Hb Hs) as [H _].
  destruct (ownership_total (newMachine def) p b s Hp Hb Hs) as [ref Href]. exists ref.
  split; [done|]. unfold body_state_problems in H. rewrite Href, !app_nil in H.
  destruct H as [H _]. by destruct (bool_decide (ref = _)) eqn:E; [apply bool_decide_eq_true in E|].
Qed.

(** Branch attribution is total and unambiguous: in an accepted definition
    a state belongs to at most one branch of at most one parallel, and never
    is a join, a failure route or a fan-out of its own. *)
Theorem accepted_branches_are_disjoint def p1 b1 p2 b2 s :
  let m := newMachine def in
  fanout_ok m ->
  p1 ∈ Parallels (Spec def) -> b1 ∈ par_Branches p1 ->
  p2 ∈ Parallels (Spec def) -> b2 ∈ par_Branches p2 ->
  body_reaches m (branch_Start b1) s -> body_reaches m (branch_Start b2) s ->
  par_Name p1 = par_Name p2 /\ branch_Name b1 = branch_Name b2
  /\ s <> par_Join p1 /\ (OnFailure p1 <> "" -> s <> OnFailure p1)
  /\ m_parallels m !! s = None /\ m_maps m !! s = None.
Proof.
  cbn zeta. intros Hok Hp1 Hb1 Hp2 Hb2 Hs1 Hs2. apply branchBody_spec in Hs1, Hs2.
  destruct (body_owner _ _ _ _ Hok Hp1 Hb1 Hs1) as (r1 & O1 & E1).
  destruct (body_owner _ _ _ _ Hok Hp2 Hb2 Hs2) as (r2 & O2 & E2).
  split; [congruence|]. split; [congruence|].
  destruct (body_state_ok _ _ _ _ Hok Hp1 Hb1 Hs1) as [H1 _].
  unfold body_state_problems in H1. rewrite !app_nil in H1.
  destruct H1 as (_ & Hj & Hf & _ & Hpar & Hmap & _).
  split; [intros ->; by rewrite String.eqb_refl in Hj|].
  split.
  { intros Hne ->. rewrite (proj2 (String.eqb_neq _ _)) in Hf by done.
    rewrite String.eqb_refl in Hf. done. }
  split; apply eq_None_not_Some; intros Hsome;
    [rewrite bool_decide_eq_true_2 in Hpar by done | rewrite bool_decide_eq_true_2 in Hmap by done]; done.
Qed.

(** A branch never completes the run: from every state of an accepted
    branch some sequence of transitions ends the branch at [@join], [@abort] or
    [@escalate], staying in the branch. *)
Theorem accepted_branches_can_end def p b s :
  let m := newMachine def in
  fanout_ok m -> p ∈ Parallels (Spec def) -> b ∈ par_Branches p ->
  body_reaches m (branch_Start b) s ->
  can_end (Outgoing m) IsReservedAnyTarget (branchBody m (branch_Start b)) s.
Proof.
  cbn zeta. intros Hok Hp Hb Hs. apply branchBody_spec in Hs.
  destruct (body_state_ok _ _ _ _ Hok Hp Hb Hs) as [_ He]. by apply exit_set_spec.
Qed.

(** ** Transitions resolve *)

Lemma target_cases t : isTerminal t = true \/ t = TargetJoin \/ isStateName t = true.
Proof.
  unfold isStateName, IsReservedBranchTarget. destruct (isTerminal t); [auto|].
  destruct (String.eqb_spec t TargetJoin); auto.
Qed.

Lemma join_owners_some m p :
  p ∈ Parallels (Spec (Def m)) -> par_Join p <> "" -> is_Some (join_owners m !! par_Join p).
Proof.
  intros Hp Hne. unfold join_owners.
  assert (Hmaps : forall fs (o : gmap string (string * string)), is_Some (o !! par_Join p) ->
    is_Some (foldl (fun acc f => if (map_Join f =? "")%string then acc
                       else <[map_Join f := ("map", map_Name f)]> acc) o fs !! par_Join p)).
  { induction fs as [|f fs IH]; intros o Ho; cbn; [done|]. apply IH. destruct (_ =? _)%string; [done|].
    destruct (decide (map_Join f = par_Join p)) as [->|?];
      [rewrite lookup_insert_eq; eauto | by rewrite lookup_insert_ne]. }
  apply Hmaps. generalize (∅ : gmap string (string * string)) as o.
  assert (Hpars : forall ps (o : gmap string (string * string)), is_Some (o !! par_Join p) ->
    is_Some (foldl (fun acc q => if (par_Join q =? "")%string then acc
                       else <[par_Join q := ("parallel", par_Name q)]> acc) o ps !! par_Join p)).
  { induction ps as [|q ps IH]; intros o Ho; cbn; [done|]. apply IH. destruct (_ =? _)%string; [done|].
    destruct (decide (par_Join q = par_Join p)) as [->|?];
      [rewrite lookup_insert_eq; eauto | by rewrite lookup_insert_ne]. }
  induction (Parallels (Spec (Def m))) as [|q ps IH]; intros o; [set_solver|]. cbn.
  apply elem_of_cons in Hp as [->|Hp]; [|by apply IH]. apply Hpars.
  rewrite (proj2 (String.eqb_neq _ _)) by done. rewrite lookup_insert_eq. eauto.
Qed.

Lemma structural_parts m :
  structuralProblems m = [] ->
  (Start (Spec (Def m)) <> "" /\ Has m (Start (Spec (Def m))) = true)
  /\ (forall t, t ∈ Tasks (Spec (Def m)) -> isStateName (Next t) = true -> Has m (Next t) = true)
  /\ (forall g o t, g ∈ Gates_ (Spec (Def m)) -> gate_Branches g !! o = Some t ->
        isStateName t = true -> Has m t = true).
Proof.
  unfold structuralProblems. rewrite !app_nil. intros (_ & Hstart & Ht & Hg). split; [|split].
  - destruct (String.eqb_spec (Start (Spec (Def m))) TerminalComplete) as [|Hne]; [done|].
    destruct (Has m _); done.
  - intros t Hin Hs. rewrite concat_nil in Ht. specialize (Ht t Hin). unfold task_problems in Ht.
    rewrite !app_nil in Ht. destruct Ht as [Ht _]. rewrite Hs in Ht. by destruct (Has m (Next t)).
  - intros g o t Hin Ho Hs. rewrite concat_nil in Hg. specialize (Hg g Hin). unfold gate_problems in Hg.
    apply app_nil in Hg as [_ Hg]. rewrite concat_nil in Hg. specialize (Hg o).
    rewrite sortedKeys_elem in Hg. specialize (Hg (ex_intro _ t Ho)). cbn in Hg. rewrite Ho in Hg.
    cbn in Hg. rewrite Hs in Hg. by destruct (Has m t).
Qed.

Lemma gate_target_branch g t : t ∈ gate_targets g -> exists o, gate_Branches g !! o = Some t.
Proof.
  unfold gate_targets. intros (o & -> & [v Hv]%sortedKeys_elem)%list_elem_of_fmap. exists o.
  by rewrite Hv.
Qed.

Lemma parallel_target_ok m p t :
  parallelShapeProblems m p = [] -> joinEntryProblems m = [] -> p ∈ Parallels (Spec (Def m)) ->
  par_Join p <> "" -> t ∈ parallel_targets p -> isStateName t = true -> Has m t = true.
Proof.
  intros Hshape Hjoin Hp Hne Ht Hs. unfold parallel_targets in Ht. rewrite !elem_of_app in Ht.
  destruct Ht as [(b & -> & Hb)%list_elem_of_fmap|[->%list_elem_of_singleton|Hf]].
  - apply shape_declarations, declaration_ok in Hshape as (_ & _ & Hst). by apply Hst.
  - unfold joinEntryProblems in Hjoin.
    destruct (bool_decide (join_owners m = ∅)) eqn:E.
    { apply bool_decide_eq_true in E. destruct (join_owners_some m p Hp Hne) as [x Hx].
      rewrite E, lookup_empty in Hx. done. }
    rewrite !app_nil in Hjoin. destruct Hjoin as [Hj _]. rewrite concat_nil in Hj.
    specialize (Hj p Hp). rewrite (proj2 (String.eqb_neq _ _)) in Hj by done.
    apply app_nil in Hj as [Hj _]. by destruct (Has m (par_Join p)).
  - destruct (String.eqb_spec (OnFailure p) "") as [|Hof]; [set_solver|].
    apply list_elem_of_singleton in Hf as ->. apply shape_policy in Hshape. unfold policy_problems in Hshape.
    rewrite (proj2 (String.eqb_neq _ _)) in Hshape by done. rewrite Hs in Hshape.
    destruct (FailurePolicy p), (Has m (OnFailure p)); done.
Qed.

(** A run of an accepted definition never leaves the declared states: every
    state a run can come to is declared, except [@join], which only ends a
    branch. *)
Theorem accepted_runs_stay_on_declared_states def s :
  let m := newMachine def in
  structuralProblems m = [] -> fanout_ok m -> joinEntryProblems m = [] ->
  Maps (Spec def) = [] -> (forall p, p ∈ Parallels (Spec def) -> par_Join p <> "") ->
  run_reaches m s -> s ∈ stateNames def \/ s = TargetJoin.
Proof.
  cbn zeta. intros Hst Hfan Hjoin Hmaps Hjoins Hr.
  destruct (structural_parts _ Hst) as ((_ & Hstart) & Htasks & Hgates).
  assert (Hname : forall t, negb (isTerminal t) = true ->
    (isStateName t = true -> Has (newMachine def) t = true) -> t ∈ stateNames def \/ t = TargetJoin).
  { intros t Ht Hh. destruct (target_cases t) as [Hterm|[?|Hs]]; [by rewrite Hterm in Ht | auto |].
    left. by apply Has_iff, Hh. }
  destruct Hr as [s Hs He|s t _ Ht He].
  - left. apply list_elem_of_singleton in Hs as ->. apply Has_iff, Hstart.
  - apply Hname; [done|]. intros Hs. unfold Outgoing in Ht. cbn in Ht.
    destruct (index task_Name (Tasks (Spec def)) !! s) as [tk|] eqn:E1.
    { apply index_Some in E1 as [Htk _]. apply list_elem_of_singleton in Ht as ->. by apply Htasks. }
    destruct (index gate_Name (Gates_ (Spec def)) !! s) as [g|] eqn:E2.
    { apply index_Some in E2 as [Hg _]. apply gate_target_branch in Ht as [o Ho].
      by apply (Hgates g o t). }
    destruct (index par_Name (Parallels (Spec def)) !! s) as [p|] eqn:E3.
    { apply index_Some in E3 as [Hp _]. apply (parallel_target_ok _ p t); auto. apply (Hfan p Hp). }
    rewrite Hmaps in Ht. set_solver.
Qed.

(** The missing-join rule is unreachable for a lone fan-out: a definition
    whose parallels all lack a join state passes the join rules, although the
    rule set means to reject it. *)
Theorem missing_join_goes_unreported def :
  Maps (Spec def) = [] -> (forall p, p ∈ Parallels (Spec def) -> par_Join p = "") ->
  joinEntryProblems (newMachine def) = [].
Proof.
  intros Hmaps Hjoins. unfold joinEntryProblems. rewrite bool_decide_eq_true_2; [done|].
  unfold join_owners; cbn. rewrite Hmaps. cbn.
  assert (H : forall ps (o : gmap string (string * string)), (forall p, p ∈ ps -> par_Join p = "") ->
    foldl (fun acc p => if (par_Join p =? "")%string then acc
             else <[par_Join p := ("parallel", par_Name p)]> acc) o ps = o).
  { induction ps as [|p ps IH]; intros o Hp; cbn; [done|].
    rewrite (Hp p) by left. cbn. apply IH. intros q Hq. apply Hp. by right. }
  by apply H.
Qed.

(** ** The projection *)

Lemma graphOutcomes_elem b o : o ∈ graphOutcomes b <-> is_Some (b !! o).
Proof.
  unfold graphOutcomes, sort_strings. rewrite elem_of_app, sort_by_elem.
  rewrite !list_elem_of_In, !filter_In, <- !list_elem_of_In, bool_decide_eq_true, list_elem_of_fmap.
  assert (Hk : (exists p : string * string, o = p.1 /\ p ∈ map_to_list b) <-> is_Some (b !! o)).
  { split; [intros ([k v] & -> & H%elem_of_map_to_list); eauto|].
    intros [v H]. exists (o, v). by rewrite elem_of_map_to_list. }
  rewrite Hk. split; [tauto|]. intros Hs.
  destruct (String.eqb_spec o "pass") as [->|]; [left; split; [left|done]|].
  destruct (String.eqb_spec o "fail") as [->|]; [left; split; [right; left|done]|].
  right. done.
Qed.

Lemma graphOutcomes_length b : length (graphOutcomes b) = size b.
Proof.
  assert (Hperm : Permutation (graphOutcomes b) (map fst (map_to_list b))).
  { apply NoDup_Permutation.
    - unfold graphOutcomes, sort_strings. apply NoDup_app. split; [|split].
      + apply NoDup_ListNoDup, List.NoDup_filter, NoDup_ListNoDup. repeat constructor; set_solver.
      + intros o Ho. rewrite sort_by_elem. rewrite list_elem_of_In, filter_In in *.
        destruct Ho as [Ho _]. apply list_elem_of_In in Ho.
        apply elem_of_cons in Ho as [->|[->|Ho]%elem_of_cons]; [by intros [_ ?]..|set_solver].
      + rewrite <- (sort_by_perm String.leb).
        apply NoDup_ListNoDup, List.NoDup_filter, NoDup_ListNoDup, NoDup_fst_map_to_list.
    - apply NoDup_fst_map_to_list.
    - intros o. rewrite graphOutcomes_elem, list_elem_of_fmap. split.
      + intros [v H]. exists (o, v). by rewrite elem_of_map_to_list.
      + intros ([k v] & -> & H%elem_of_map_to_list). eauto. }
  rewrite Hperm, length_map. apply length_map_to_list.
Qed.

Lemma length_concat_map {A B} (f : A -> list B) l :
  length (concat (map f l)) = list_sum (map (fun x => length (f x)) l).
Proof. induction l as [|x l IH]; [done|]. cbn. rewrite length_app, IH. done. Qed.

(** The projection is complete: it has exactly one node per declared state,
    in declaration order, and exactly as many edges as there are declared
    transitions to draw, the number [graphEdgeCount] allocates for. *)
Theorem graph_projects_declarations def :
  map ID (Nodes (buildGraph def)) = stateNames def
  /\ length (Edges (buildGraph def)) = graphEdgeCount (Spec def).
Proof.
  split.
  { cbn. unfold graph_nodes, stateNames. by rewrite !map_app, !map_map. }
  cbn [Edges buildGraph]. unfold graph_edges, graphEdgeCount.
  rewrite !length_app, length_map, !length_concat_map.
  assert (Hf : forall s t, length (failure_edge s t) = (if (t =? "")%string then 0 else 1)%nat)
    by (intros; unfold failure_edge; by destruct (_ =? _)%string).
  rewrite !Nat.add_assoc. f_equal; [f_equal; [f_equal|]|]; f_equal; apply map_ext; intros x.
  - rewrite length_map. apply graphOutcomes_length.
  - rewrite length_app, length_map, Hf. done.
  - cbn. rewrite Hf. done.
Qed.
