(* ===== verification/RepoHandoff.v ===== *)
(** * Repository handoff: [internal/workflow/v_3_0/repofrom.go]

    Rule WF022: a stage that runs on the writable repository must declare
    exactly the stages that can be the last to advance the run branch before
    it.  The code computes them as reaching definitions, a forward fixed point
    over the compiled transitions, with [@join] resolved to the join state and
    with the implicit edges of a mid-branch failure.

    [map[string]map[string]bool] is a set of pairs (state, producer). *)

From S2P Require Export WorkflowParallelProps.
Local Open Scope string_scope.
Local Open Scope list_scope.
Local Open Scope Z_scope.

(** ** Producers and consumers *)

Definition refAdvancingBuiltins : list string := ["rebase-pr"; "update-behind-pr"].

(** [writesRepoWorkspace]: the declared workspace, the writable repository when
    none is declared. *)
Definition writesRepoWorkspace (t : Task) : bool :=
  bool_decide (EffectiveWorkspace t = WorkspaceUnset) || bool_decide (EffectiveWorkspace t = WorkspaceRepo).

(** [isRepoProducer], [isRepoConsumer]. *)
Definition isRepoProducer (t : Task) : bool :=
  if CommitsRepo t then true
  else if bool_decide (task_Type t = TaskAgentic) then writesRepoWorkspace t
  else match task_Run t with
       | Some r =>
           match Command r with
           | c0 :: c1 :: _ => (c0 =? "goobers")%string && mem_string c1 refAdvancingBuiltins
           | _ => false
           end
       | None => false
       end.

Definition isRepoConsumer (t : Task) : bool := writesRepoWorkspace t.

Definition producers (def : Definition_) : gset string :=
  list_to_set (map task_Name (List.filter isRepoProducer (Tasks (Spec def)))).

(** ** The flow *)

(** [branchFailureTargets]. *)
Definition failure_routes (m : Machine) : gmap string string :=
  foldl (fun acc p => if negb (OnFailure p =? "")%string && isStateName (OnFailure p)
                      then <[par_Name p := OnFailure p]> acc else acc)
    ∅ (Parallels (Spec (Def m))).

Definition branchFailureTargets (m : Machine) : gmap string string :=
  omap (fun ref : branchRef => failure_routes m !! ref.1) (branchOwnership m).

(** The targets one state's set flows to: its transitions with [@join]
    resolved, then its branch's failure route; only declared states receive. *)
Definition flow_targets (m : Machine) (joins failures : gmap string string) (name : string)
    : list string :=
  List.filter (fun t => isStateName t && mem_string t (stateNames (Def m)))
    (map (graphTarget joins name) (Outgoing m name)
     ++ match failures !! name with Some f => [f] | None => [] end).

(** The set a state passes on: a producer's own name, which kills what reached
    it; everything else passes its own set through. *)
Definition out_set (prods : gset string) (name : string) (reaching : gset (string * string))
    : gset string :=
  if bool_decide (name ∈ prods) then {[name]}
  else set_map snd (filter (fun x : string * string => x.1 = name) reaching).

Definition flow_step (targets : string -> list string) (prods : gset string) (name : string)
    (reaching : gset (string * string)) : gset (string * string) :=
  list_to_set (list_prod (targets name) (elements (out_set prods name reaching))).

(** The fixed point: at most one pass per pair of states, and one more. *)
Definition flow_fixpoint (def : Definition_) : gset (string * string) :=
  let m := newMachine def in
  let states := stateNames def in
  let targets := flow_targets m (graphJoinTargets def) (branchFailureTargets m) in
  saturate (flow_step targets (producers def)) states (S (length states * length states)) ∅.

(** [reachingProducers]; [None] on a structurally broken definition. *)
Definition reachingProducers (def : Definition_) : option (gset (string * string) * gset string) :=
  match structuralProblems (newMachine def) with
  | [] => Some (flow_fixpoint def, producers def)
  | _ => None
  end.

(** [requiredCoverage] and [setKeys]. *)
Definition requiredCoverage (name : string) (reaching : gset (string * string)) : gset string :=
  filter (fun p => p <> name) (set_map snd (filter (fun x : string * string => x.1 = name) reaching)).

Definition setKeys (s : gset string) : list string := sort_strings (elements s).

(** ** Rule WF022 *)

Inductive handoff_problem :=
| NotAConsumer (task : string)
| SilentChain (task : string) (required : list string)
| Uncovered (task producer : string)
| EmptyEntry (task : string) | SelfEntry (task : string)
| NotATask (task entry : string) | NeverAdvances (task entry : string) | DeadEntry (task entry : string)
| ReadonlyGate (gate : string) (required : list string).

Definition entry_problems (tasks prods required : gset string) (name d : string) : list handoff_problem :=
  if (d =? "")%string then [EmptyEntry name]
  else if (d =? name)%string then [SelfEntry name]
  else if negb (bool_decide (d ∈ tasks)) then [NotATask name d]
  else if negb (bool_decide (d ∈ prods)) then [NeverAdvances name d]
  else if negb (bool_decide (d ∈ required)) then [DeadEntry name d] else [].

Definition task_handoff_problems (tasks prods : gset string) (reaching : gset (string * string))
    (t : Task) : list handoff_problem :=
  let name := task_Name t in
  let declared := RepoFrom t in
  if negb (isRepoConsumer t) then
    match declared with [] => [] | _ => [NotAConsumer name] end
  else
    let required := requiredCoverage name reaching in
    match declared, setKeys required with
    | [], _ :: _ => [SilentChain name (setKeys required)]
    | _, _ =>
        concat (map (fun p => if mem_string p declared then [] else [Uncovered name p]) (setKeys required))
        ++ concat (map (entry_problems tasks prods required name) declared)
    end.

Definition gate_handoff_problems (reaching : gset (string * string)) (g : Gate) : list handoff_problem :=
  match Evaluator g, Agentic g with
  | EvaluatorAgentic, Some a =>
      if bool_decide (agentic_Workspace a = WorkspaceRepoReadOnly) then
        match setKeys (requiredCoverage (gate_Name g) reaching) with
        | [] => []
        | keys => [ReadonlyGate (gate_Name g) keys]
        end
      else []
  | _, _ => []
  end.

(** [repoHandoffProblems]. *)
Definition repoHandoffProblems (def : Definition_) : list handoff_problem :=
  match reachingProducers def with
  | None => []
  | Some (reaching, prods) =>
      let tasks : gset string := list_to_set (map task_Name (Tasks (Spec def))) in
      concat (map (task_handoff_problems tasks prods reaching) (Tasks (Spec def)))
      ++ concat (map (gate_handoff_problems reaching) (Gates_ (Spec def)))
  end.

(** [RepoFromCoverage]; the nil map of a broken definition is [None]. *)
Definition RepoFromCoverage (def : Definition_) : option (gmap string (list string)) :=
  match reachingProducers def with
  | None => None
  | Some (reaching, _) =>
      Some (foldl (fun acc t => if isRepoConsumer t
                                then <[task_Name t := setKeys (requiredCoverage (task_Name t) reaching)]> acc
                                else acc) ∅ (Tasks (Spec def)))
  end.
