(* ===== verification/RepoHandoffProps.v ===== *)
(** * What the repository handoff rule guarantees *)

From S2P Require Export RepoHandoff.
Local Open Scope string_scope.
Local Open Scope list_scope.
Local Open Scope Z_scope.

(** ** Names are unique *)

Lemma duplicates_nil names : forall seen,
  duplicates seen names = [] -> NoDup names /\ forall n, n ∈ names -> n ∉ seen.
Proof.
  induction names as [|x names IH]; intros seen; cbn; [split; [constructor|set_solver]|].
  intros [H1 H2]%app_nil. destruct (mem_string x seen) eqn:E; [done|]. apply mem_string_false in E.
  destruct (IH _ H2) as [Hnd Hs]. split.
  - constructor; [|done]. intros Hx%Hs. set_solver.
  - intros n [->|Hn]%elem_of_cons; [done|]. apply Hs in Hn. set_solver.
Qed.

Lemma names_unique def : structuralProblems (newMachine def) = [] -> NoDup (stateNames def).
Proof. unfold structuralProblems. rewrite !app_nil. intros [H _]. by apply duplicates_nil in H as [H _]. Qed.

(** ** Folds that write under a key *)

Section keyed_fold.
Context {A V : Type} (name : A -> string)
        (write : gmap string V -> A -> gmap string V).
Hypothesis write_ne : forall m x k, k <> name x -> write m x !! k = m !! k.

Lemma fold_write_other l : forall m k, k ∉ map name l -> foldl write m l !! k = m !! k.
Proof.
  induction l as [|x l IH]; intros m k Hk; cbn; [done|]. cbn in Hk.
  rewrite IH by set_solver. apply write_ne. set_solver.
Qed.

Context (value : A -> option V).
Hypothesis write_eq : forall m x, m !! name x = None -> write m x !! name x = value x.

Lemma fold_write_own l : forall m x,
  NoDup (map name l) -> x ∈ l -> m !! name x = None -> foldl write m l !! name x = value x.
Proof.
  induction l as [|y l IH]; intros m x Hnd Hx Hm; [set_solver|]. cbn in *.
  inversion Hnd as [|? ? Hnot Hnd']; subst.
  apply elem_of_cons in Hx as [->|Hx].
  - rewrite fold_write_other by done. by apply write_eq.
  - apply IH; auto. rewrite write_ne; [done|]. intros Heq. apply Hnot.
    rewrite <- Heq. apply list_elem_of_fmap. eauto.
Qed.
End keyed_fold.

Lemma append_targets_ne m n ts k : k <> n -> append_targets m n ts !! k = m !! k.
Proof. intros. unfold append_targets. destruct ts; [done|]. by rewrite lookup_insert_ne. Qed.
Lemma append_targets_eq m n ts :
  m !! n = None -> append_targets m n ts !! n = match ts with [] => None | _ => Some ts end.
Proof. intros Hm. unfold append_targets. destruct ts; [done|]. by rewrite lookup_insert_eq, Hm. Qed.

(** ** The projection's index and the machine agree *)

Lemma index_own {A} (name : A -> string) l x :
  NoDup (map name l) -> x ∈ l -> index name l !! name x = Some x.
Proof.
  intros Hnd Hx. apply (fold_write_own name (fun m x => <[name x := x]> m) ltac:(intros; by apply lookup_insert_ne) Some); auto.
  intros m y _. apply lookup_insert_eq.
Qed.

Lemma index_other {A} (name : A -> string) l k : k ∉ map name l -> index name l !! k = None.
Proof. intros Hk. apply eq_None_not_Some. by rewrite index_dom. Qed.

(** A state of the definition, with the kind its name resolves to. *)
Inductive declared (def : Definition_) : string -> list string -> Prop :=
| declared_task t : t ∈ Tasks (Spec def) -> declared def (task_Name t) [Next t]
| declared_gate g : g ∈ Gates_ (Spec def) -> declared def (gate_Name g) (gate_targets g)
| declared_parallel p : p ∈ Parallels (Spec def) -> declared def (par_Name p) (parallel_targets p)
| declared_map f : f ∈ Maps (Spec def) -> declared def (map_Name f) (map_targets f).

Lemma declared_exists def s : s ∈ stateNames def -> exists ts, declared def s ts.
Proof.
  unfold stateNames. rewrite !elem_of_app.
  intros [(x & -> & H)%list_elem_of_fmap|[(x & -> & H)%list_elem_of_fmap|
         [(x & -> & H)%list_elem_of_fmap|(x & -> & H)%list_elem_of_fmap]]]; eexists; by constructor.
Qed.

Lemma names_split def : NoDup (stateNames def) ->
  let T := map task_Name (Tasks (Spec def)) in let G := map gate_Name (Gates_ (Spec def)) in
  let P := map par_Name (Parallels (Spec def)) in let M := map map_Name (Maps (Spec def)) in
  NoDup T /\ NoDup G /\ NoDup P /\ NoDup M
  /\ (forall n, n ∈ T -> n ∉ G /\ n ∉ P /\ n ∉ M) /\ (forall n, n ∈ G -> n ∉ P /\ n ∉ M)
  /\ (forall n, n ∈ P -> n ∉ M).
Proof.
  unfold stateNames. cbn zeta. rewrite !NoDup_app.
  intros (HT & HTd & HG & HGd & HP & HPd & HM). repeat (split; [done|]).
  split; [|split]; [intros n Hn%HTd|intros n Hn%HGd|done]; rewrite !elem_of_app in Hn; tauto.
Qed.

Lemma in_names {A} (name : A -> string) l x : x ∈ l -> name x ∈ map name l.
Proof. intros. apply list_elem_of_fmap. eauto. Qed.

Lemma declared_outgoing def s ts :
  NoDup (stateNames def) -> declared def s ts -> Outgoing (newMachine def) s = ts.
Proof.
  intros Hnd. apply names_split in Hnd as (HT & HG & HP & HM & DT & DG & DP).
  intros H; unfold Outgoing; cbn; destruct H as [x Hx|x Hx|x Hx|x Hx].
  - by rewrite (index_own task_Name _ x).
  - pose proof (in_names gate_Name _ x Hx) as Hin.
    rewrite index_other by (intros ?%DT; tauto). by rewrite (index_own gate_Name _ x).
  - pose proof (in_names par_Name _ x Hx) as Hin.
    rewrite index_other by (intros ?%DT; tauto). rewrite index_other by (intros ?%DG; tauto).
    by rewrite (index_own par_Name _ x).
  - pose proof (in_names map_Name _ x Hx) as Hin.
    rewrite index_other by (intros ?%DT; tauto). rewrite index_other by (intros ?%DG; tauto).
    rewrite index_other by (intros ?%DP; tauto). by rewrite (index_own map_Name _ x).
Qed.

Definition projected_gate (g : Gate) : list string :=
  map (fun o => default "" (gate_Branches g !! o)) (graphOutcomes (gate_Branches g)).

Lemma projected_gate_elem g t : t ∈ projected_gate g <-> t ∈ gate_targets g.
Proof.
  unfold projected_gate, gate_targets. rewrite !list_elem_of_fmap.
  setoid_rewrite graphOutcomes_elem. setoid_rewrite sortedKeys_elem. done.
Qed.

(** The projection finds, under each name, the transitions of its kind. *)
Lemma index_lookup def s ts :
  NoDup (stateNames def) -> (forall g, g ∈ Gates_ (Spec def) -> gate_Branches g <> ∅) ->
  declared def s ts ->
  exists ts', newGraphStateIndex def !! s = Some ts' /\ forall t, t ∈ ts' <-> t ∈ ts.
Proof.
  intros Hnd Hne. apply names_split in Hnd as (HT & HG & HP & HM & DT & DG & DP). cbn zeta in *.
  unfold newGraphStateIndex.
  set (wt := fun (m : gmap string (list string)) t => <[task_Name t := [Next t]]> m).
  set (wg := fun m g => append_targets m (gate_Name g) _).
  set (wp := fun m p => append_targets m (par_Name p) (parallel_targets p)).
  set (wm := fun (m : gmap string (list string)) f => <[map_Name f := map_targets f]> m).
  assert (Nt : forall m x k, k <> task_Name x -> wt m x !! k = m !! k)
    by (intros; unfold wt; by rewrite lookup_insert_ne).
  assert (Ng : forall m x k, k <> gate_Name x -> wg m x !! k = m !! k)
    by (intros; by apply append_targets_ne).
  assert (Np : forall m x k, k <> par_Name x -> wp m x !! k = m !! k)
    by (intros; by apply append_targets_ne).
  assert (Nm : forall m x k, k <> map_Name x -> wm m x !! k = m !! k)
    by (intros; unfold wm; by rewrite lookup_insert_ne).
  intros H; destruct H as [x Hx|x Hx|x Hx|x Hx].
  - pose proof (in_names task_Name _ x Hx) as Hin. apply DT in Hin as (Ig & Ip & Im).
    rewrite (fold_write_other map_Name), (fold_write_other par_Name), (fold_write_other gate_Name) by done.
    exists [Next x]. split; [|done].
    apply (fold_write_own task_Name wt Nt (fun t => Some [Next t])); auto. intros. apply lookup_insert_eq.
  - pose proof (in_names gate_Name _ x Hx) as Hin. destruct (DG _ Hin) as (Ip & Im).
    rewrite (fold_write_other map_Name), (fold_write_other par_Name) by done.
    exists (projected_gate x). split; [|apply projected_gate_elem].
    rewrite (fold_write_own gate_Name wg Ng 
      (fun g => match projected_gate g with [] => None | _ => Some (projected_gate g) end)).
    + destruct (projected_gate x) eqn:E; [|done]. exfalso. apply (Hne x Hx), map_empty. intros o.
      destruct (gate_Branches x !! o) as [t|] eqn:Eo; [|done].
      assert (Ho : o ∈ graphOutcomes (gate_Branches x)) by (apply graphOutcomes_elem; eauto).
      unfold projected_gate in E. apply map_eq_nil in E. rewrite E in Ho. set_solver.
    + intros m y Hy. unfold wg. rewrite append_targets_eq by done. done.
    + done.
    + done.
    + rewrite (fold_write_other task_Name); [done|done|]. intros ?%DT. tauto.
  - pose proof (in_names par_Name _ x Hx) as Hin. pose proof (DP _ Hin) as Im.
    rewrite (fold_write_other map_Name) by done. exists (parallel_targets x). split; [|done].
    rewrite (fold_write_own par_Name wp Np (fun p => Some (parallel_targets p))); auto.
    + intros m y Hy. unfold wp. rewrite append_targets_eq by done.
      unfold parallel_targets. by destruct (map branch_Start (par_Branches y)).
    + rewrite (fold_write_other gate_Name); [|done|by intros ?%DG; tauto].
      rewrite (fold_write_other task_Name); [done|done|]. intros ?%DT. tauto.
  - pose proof (in_names map_Name _ x Hx) as Hin. exists (map_targets x). split; [|done].
    apply (fold_write_own map_Name wm Nm (fun f => Some (map_targets f))); auto.
    + intros. apply lookup_insert_eq.
    + rewrite (fold_write_other par_Name); [|done|by intros ?%DP; tauto].
      rewrite (fold_write_other gate_Name); [|done|by intros ?%DG; tauto].
      rewrite (fold_write_other task_Name); [done|done|]. intros ?%DT. tauto.
Qed.

Lemma index_declared def s : is_Some (newGraphStateIndex def !! s) -> s ∈ stateNames def.
Proof.
  intros H. apply dec_stable. unfold stateNames. rewrite !elem_of_app. intros Hn.
  unfold newGraphStateIndex in H.
  rewrite (fold_write_other map_Name) in H; [|by intros; rewrite lookup_insert_ne|tauto].
  rewrite (fold_write_other par_Name) in H; [|by intros; apply append_targets_ne|tauto].
  rewrite (fold_write_other gate_Name) in H; [|by intros; apply append_targets_ne|tauto].
  rewrite (fold_write_other task_Name) in H; [|by intros; rewrite lookup_insert_ne|tauto].
  rewrite lookup_empty in H. by destruct H.
Qed.

Section accepted.
Context (def : Definition_).
Hypothesis structure_ok : structuralProblems (newMachine def) = [].
Let m := newMachine def.

Lemma gates_branch g : g ∈ Gates_ (Spec def) -> gate_Branches g <> ∅.
Proof.
  intros Hg He. pose proof structure_ok as H. unfold structuralProblems in H. rewrite !app_nil in H.
  destruct H as (_ & _ & _ & H). rewrite concat_nil in H. specialize (H g Hg).
  unfold gate_problems in H. rewrite bool_decide_eq_true_2 in H by done. done.
Qed.

Lemma index_has s : sg_Has (newGraphStateIndex def) s = sg_Has m s.
Proof.
  apply eq_true_iff_eq. unfold m. cbn. rewrite bool_decide_eq_true, Has_iff. split; [apply index_declared|].
  intros [ts Hd]%declared_exists.
  destruct (index_lookup def s ts) as (ts' & -> & _); auto using names_unique, gates_branch.
Qed.

Lemma index_outgoing s t : t ∈ sg_Outgoing (newGraphStateIndex def) s <-> t ∈ sg_Outgoing m s.
Proof.
  cbn. destruct (decide (s ∈ stateNames def)) as [[ts Hd]%declared_exists|Hn].
  - destruct (index_lookup def s ts) as (ts' & -> & Ht); auto using names_unique, gates_branch. cbn.
    unfold m. rewrite (declared_outgoing def s ts); auto using names_unique.
  - destruct (newGraphStateIndex def !! s) eqn:E; [exfalso; apply Hn, index_declared; eauto|].
    assert (Outgoing m s = []) as ->; [|done].
    destruct (Outgoing m s) eqn:Eo; [done|]. exfalso. apply Hn, Outgoing_declared.
    fold m. by rewrite Eo.
Qed.

(** The states that end a branch at its join, as the machine has them. *)
Lemma joinTerminalStates_spec start s :
  s ∈ joinTerminalStates (newGraphStateIndex def) start
  <-> body_reaches m start s /\ TargetJoin ∈ Outgoing m s.
Proof.
  unfold joinTerminalStates, branchBody, sort_strings.
  rewrite sort_by_elem, list_elem_of_In, filter_In, <- list_elem_of_In, sort_by_elem, mem_string_true.
  rewrite index_outgoing. apply and_iff_compat_r.
  etransitivity; [apply walk_all_spec|].
  - intros x Hx. apply list_elem_of_fmap. cbn [sg_Outgoing index_graph] in Hx.
    destruct (newGraphStateIndex def !! x) as [ts|] eqn:E; [|done].
    exists (x, ts). by rewrite elem_of_map_to_list.
  - apply push_stack_elem.
  - apply push_stack_length.
  - apply reaches_ext; [|apply index_outgoing]. intros x. unfold in_body. by rewrite index_has.
Qed.
End accepted.

(** ** Resolved joins *)

Lemma foldl_concat_map {A B C} (f : A -> B -> A) (g : C -> list B) l : forall a,
  foldl f a (concat (map g l)) = foldl (fun a x => foldl f a (g x)) a l.
Proof. induction l as [|x l IH]; intros a; cbn; [done|]. rewrite foldl_app. apply IH. Qed.

Lemma foldl_map {A B C} (f : A -> B -> A) (g : C -> B) l : forall a,
  foldl f a (map g l) = foldl (fun a x => f a (g x)) a l.
Proof. induction l as [|x l IH]; intros a; cbn; [done|]. apply IH. Qed.

Definition put (a : gmap string string) (w : string * string) : gmap string string := <[w.1 := w.2]> a.

Lemma fold_put_sound l k v : forall a,
  foldl put a l !! k = Some v -> a !! k = Some v \/ (k, v) ∈ l.
Proof.
  induction l as [|[k' v'] l IH]; intros a; cbn; [auto|]. intros [H|H]%IH; [|right; by right].
  unfold put in H; cbn in H. destruct (decide (k' = k)) as [->|Hne].
  - rewrite lookup_insert_eq in H. injection H as ->. right. left.
  - rewrite lookup_insert_ne in H; auto.
Qed.

Lemma fold_put_some l k v : forall a,
  (forall w, (k, w) ∈ l -> w = v) -> a !! k = Some v \/ (k, v) ∈ l -> foldl put a l !! k = Some v.
Proof.
  induction l as [|[k' v'] l IH]; intros a Hu Ha; cbn.
  - destruct Ha; [done|set_solver].
  - apply IH; [intros w Hw; apply Hu; by right|]. unfold put; cbn.
    destruct (decide (k' = k)) as [->|Hne].
    + left. rewrite (Hu v') by left. apply lookup_insert_eq.
    + rewrite lookup_insert_ne by done. destruct Ha as [|[[= -> ->]|]%elem_of_cons]; auto; done.
Qed.

Definition join_writes (def : Definition_) : list (string * string) :=
  concat (map (fun p => concat (map (fun b =>
      map (fun s => (s, par_Join p)) (joinTerminalStates (newGraphStateIndex def) (branch_Start b)))
    (par_Branches p))) (Parallels (Spec def))).

Lemma graphJoinTargets_writes def :
  Maps (Spec def) = [] -> graphJoinTargets def = foldl put ∅ (join_writes def).
Proof.
  intros Hm. unfold graphJoinTargets, join_writes. rewrite Hm. cbn.
  rewrite foldl_concat_map. generalize (∅ : gmap string string) as a.
  induction (Parallels (Spec def)) as [|p ps IH]; intros a; cbn; [done|]. rewrite IH. f_equal.
  rewrite foldl_concat_map. generalize a as a'.
  induction (par_Branches p) as [|b bs IHb]; intros a'; cbn; [done|]. rewrite IHb. f_equal.
  by rewrite foldl_map.
Qed.

(** ** Branch ownership is sound *)

Lemma fold_own_sound m p bs s ref : forall o,
  foldl (own_branch m p) o bs !! s = Some ref ->
  o !! s = Some ref
  \/ exists b, b ∈ bs /\ s ∈ branchBody m (branch_Start b) /\ ref = (par_Name p, branch_Name b).
Proof.
  assert (Hbody : forall r body (o : gmap string branchRef),
    foldl (fun o s => match o !! s with Some _ => o | None => <[s := r]> o end) o body !! s = Some ref ->
    o !! s = Some ref \/ s ∈ body /\ ref = r).
  { intros r. induction body as [|x body IH]; intros o; cbn; [auto|]. intros [H|[H ->]]%IH; [|set_solver].
    destruct (o !! x) eqn:E; [auto|]. destruct (decide (x = s)) as [->|Hne].
    - rewrite lookup_insert_eq in H. injection H as ->. right. split; [left|done].
    - rewrite lookup_insert_ne in H; auto. }
  induction bs as [|b bs IH]; intros o; cbn; [auto|].
  intros [[H|[H ->]]%Hbody|(b' & Hb & Hs)]%IH; [auto|right; exists b; set_solver|right; exists b'; set_solver].
Qed.

Lemma ownership_sound m s ref :
  branchOwnership m !! s = Some ref ->
  exists p b, p ∈ Parallels (Spec (Def m)) /\ b ∈ par_Branches p
    /\ s ∈ branchBody m (branch_Start b) /\ ref = (par_Name p, branch_Name b).
Proof.
  unfold branchOwnership.
  enough (forall ps o, foldl (fun o p => foldl (own_branch m p) o (par_Branches p)) o ps !! s = Some ref ->
    o !! s = Some ref \/ exists p b, p ∈ ps /\ b ∈ par_Branches p
      /\ s ∈ branchBody m (branch_Start b) /\ ref = (par_Name p, branch_Name b)) as Hall.
  { intros [H|H]%Hall; [by rewrite lookup_empty in H|done]. }
  induction ps as [|p ps IH]; intros o; cbn; [auto|].
  intros [[H|(b & Hb & Hs & ->)]%fold_own_sound|(q & b & Hq & Hb & Hs & ->)]%IH; [auto|..]; right;
    [exists p, b|exists q, b]; repeat (split; [solve [done | by left | by right]|]); done.
Qed.

(** ** The edges a commit travels *)

(** The transitions of a run, with a branch's end leading to its parallel's
    join and a branch failure leading to its parallel's failure route. *)
Inductive flow_edge (def : Definition_) : string -> string -> Prop :=
| flow_transition s t :
    t ∈ Outgoing (newMachine def) s -> isStateName t = true -> flow_edge def s t
| flow_join p b s :
    p ∈ Parallels (Spec def) -> b ∈ par_Branches p ->
    body_reaches (newMachine def) (branch_Start b) s ->
    TargetJoin ∈ Outgoing (newMachine def) s -> isStateName (par_Join p) = true ->
    flow_edge def s (par_Join p)
| flow_failure p b s :
    p ∈ Parallels (Spec def) -> b ∈ par_Branches p ->
    body_reaches (newMachine def) (branch_Start b) s -> isStateName (OnFailure p) = true ->
    flow_edge def s (OnFailure p).

(** [p]'s commit is the last on the branch when a run comes to the state: the
    run left the producer [p] and met no other producer since. *)
Inductive carries (def : Definition_) (p : string) : string -> Prop :=
| carries_first t : p ∈ producers def -> flow_edge def p t -> carries def p t
| carries_on s t : carries def p s -> s ∉ producers def -> flow_edge def s t -> carries def p t.

(** The definitions the state-machine and fan-out rules accept, without maps (which
    DSL 3.1 has) and with a join named for every parallel (which the rules do not
    always ask for: [missing_join_goes_unreported]). *)
Record well_formed (def : Definition_) : Prop := {
  wf_structure : structuralProblems (newMachine def) = [];
  wf_fanout : fanout_ok (newMachine def);
  wf_joins : joinEntryProblems (newMachine def) = [];
  wf_no_maps : Maps (Spec def) = [];
  wf_join_named : forall p, p ∈ Parallels (Spec def) -> par_Join p <> "";
}.

Section flow.
Context (def : Definition_) (wf : well_formed def).
Let m := newMachine def.

Lemma same_parallel p1 b1 p2 b2 s :
  p1 ∈ Parallels (Spec def) -> b1 ∈ par_Branches p1 ->
  p2 ∈ Parallels (Spec def) -> b2 ∈ par_Branches p2 ->
  s ∈ branchBody m (branch_Start b1) -> s ∈ branchBody m (branch_Start b2) -> p1 = p2.
Proof.
  intros Hp1 Hb1 Hp2 Hb2 H1 H2.
  destruct (body_owner def p1 b1 s (wf_fanout def wf) Hp1 Hb1 H1) as (r1 & O1 & E1).
  destruct (body_owner def p2 b2 s (wf_fanout def wf) Hp2 Hb2 H2) as (r2 & O2 & E2).
  assert (Hn : par_Name p1 = par_Name p2) by congruence.
  pose proof (names_unique def (wf_structure def wf)) as Hnd.
  apply names_split in Hnd as (_ & _ & HP & _). cbn zeta in HP.
  pose proof (index_own par_Name _ _ HP Hp1) as I1. pose proof (index_own par_Name _ _ HP Hp2) as I2.
  rewrite Hn in I1. congruence.
Qed.

Lemma join_writes_elem s j :
  (s, j) ∈ join_writes def <->
  exists p b, p ∈ Parallels (Spec def) /\ b ∈ par_Branches p
    /\ (body_reaches m (branch_Start b) s /\ TargetJoin ∈ Outgoing m s) /\ j = par_Join p.
Proof.
  unfold join_writes. rewrite concat_map_elem. setoid_rewrite concat_map_elem.
  setoid_rewrite list_elem_of_fmap. split.
  - intros (p & Hp & b & Hb & s' & [= <- ->] & Hs).
    apply joinTerminalStates_spec in Hs; [|apply (wf_structure def wf)]. exists p, b. auto.
  - intros (p & b & Hp & Hb & Hs & ->). exists p. split; [done|]. exists b. split; [done|].
    exists s. split; [done|]. apply joinTerminalStates_spec; [apply (wf_structure def wf)|done].
Qed.

Lemma join_resolves p b s :
  p ∈ Parallels (Spec def) -> b ∈ par_Branches p -> body_reaches m (branch_Start b) s ->
  TargetJoin ∈ Outgoing m s -> graphTarget (graphJoinTargets def) s TargetJoin = par_Join p.
Proof.
  intros Hp Hb Hs Hj. unfold graphTarget. cbn [String.eqb]. rewrite String.eqb_refl.
  rewrite graphJoinTargets_writes by apply (wf_no_maps def wf).
  erewrite fold_put_some; [reflexivity| |right; apply join_writes_elem; eauto 10].
  intros w (q & c & Hq & Hc & [Hs' _] & ->)%join_writes_elem.
  apply branchBody_spec in Hs, Hs'. f_equal. by eapply same_parallel.
Qed.

Lemma state_name_nonempty t : isStateName t = true -> (t =? "")%string = false.
Proof. intros H. apply String.eqb_neq. by intros ->. Qed.

Lemma failure_route p :
  p ∈ Parallels (Spec def) ->
  failure_routes m !! par_Name p = if isStateName (OnFailure p) then Some (OnFailure p) else None.
Proof.
  intros Hp. pose proof (names_unique def (wf_structure def wf)) as Hnd.
  apply names_split in Hnd as (_ & _ & HP & _). cbn zeta in HP. unfold failure_routes. cbn.
  rewrite (fold_write_own par_Name) with
    (value := fun p => if isStateName (OnFailure p) then Some (OnFailure p) else None); auto.
  - intros a q k Hk. destruct (_ && _); [by rewrite lookup_insert_ne|done].
  - intros a q Hq. destruct (isStateName (OnFailure q)) eqn:E.
    + rewrite state_name_nonempty by done. cbn. apply lookup_insert_eq.
    + by rewrite andb_false_r.
Qed.

Lemma branchFailureTargets_spec s f :
  branchFailureTargets m !! s = Some f <->
  exists p b, p ∈ Parallels (Spec def) /\ b ∈ par_Branches p /\ body_reaches m (branch_Start b) s
    /\ isStateName (OnFailure p) = true /\ f = OnFailure p.
Proof.
  unfold branchFailureTargets. rewrite lookup_omap. split.
  - destruct (branchOwnership m !! s) as [ref|] eqn:E; [|done]. cbn.
    apply ownership_sound in E as (p & b & Hp & Hb & Hs & ->). cbn in *.
    rewrite failure_route by done. destruct (isStateName (OnFailure p)) eqn:Es; [|done].
    intros [= <-]. exists p, b. unfold m. rewrite <- branchBody_spec. auto.
  - intros (p & b & Hp & Hb & Hs & Es & ->). apply branchBody_spec in Hs.
    destruct (body_owner def p b s (wf_fanout def wf) Hp Hb Hs) as (ref & Ho & ->).
    fold m in Ho. rewrite Ho. cbn. by rewrite failure_route, Es.
Qed.

Lemma parallel_declares p t :
  p ∈ Parallels (Spec def) -> t ∈ parallel_targets p -> isStateName t = true -> t ∈ stateNames def.
Proof.
  intros Hp Ht Hs. apply Has_iff. apply (parallel_target_ok _ p); auto.
  - apply (wf_fanout def wf p Hp).
  - apply (wf_joins def wf).
  - by apply (wf_join_named def wf).
Qed.

Lemma transition_declares s t :
  t ∈ Outgoing m s -> isStateName t = true -> t ∈ stateNames def.
Proof.
  intros Ht Hs. destruct (structural_parts _ (wf_structure def wf)) as (_ & Htasks & Hgates).
  assert (Hdec : s ∈ stateNames def) by (apply Outgoing_declared; fold m; intros E; rewrite E in Ht; set_solver).
  apply declared_exists in Hdec as [ts Hd]. unfold m in Ht.
  rewrite (declared_outgoing def s ts (names_unique def (wf_structure def wf)) Hd) in Ht.
  destruct Hd as [x Hx|x Hx|x Hx|x Hx].
  - apply list_elem_of_singleton in Ht as ->. by apply Has_iff, Htasks.
  - apply gate_target_branch in Ht as [o Ho]. by apply Has_iff, (Hgates x o t).
  - by eapply parallel_declares.
  - rewrite (wf_no_maps def wf) in Hx. set_solver.
Qed.

Lemma flow_edge_declared s t : flow_edge def s t -> s ∈ stateNames def /\ t ∈ stateNames def.
Proof.
  assert (Hout : forall s t, t ∈ Outgoing m s -> s ∈ stateNames def)
    by (intros u v Hv; apply Outgoing_declared; fold m; intros E; rewrite E in Hv; set_solver).
  assert (Hbody : forall b s, body_reaches m (branch_Start b) s -> s ∈ stateNames def)
    by (intros b u Hu; by eapply body_declared, branchBody_spec).
  destruct 1 as [s t Ht Hs|p b s Hp Hb Hs Hj Hn|p b s Hp Hb Hs Hn]; split; eauto using transition_declares.
  - eapply parallel_declares; eauto. unfold parallel_targets. rewrite !elem_of_app. right; left. by left.
  - eapply parallel_declares; eauto. unfold parallel_targets. rewrite state_name_nonempty by done. set_solver.
Qed.

(** The targets the fixed point flows along are exactly these edges. *)
Lemma flow_targets_spec s t :
  t ∈ flow_targets m (graphJoinTargets def) (branchFailureTargets m) s <-> flow_edge def s t.
Proof.
  unfold flow_targets.
  rewrite list_elem_of_In, filter_In, <- list_elem_of_In, elem_of_app, andb_true_iff, mem_string_true.
  split.
  - intros [[(u & -> & Hu)%list_elem_of_fmap|Hf] [Hs Hdec]].
    + destruct (decide (u = TargetJoin)) as [->|Hne].
      * destruct (graphJoinTargets def !! s) as [j|] eqn:E.
        -- rewrite graphJoinTargets_writes in E by apply (wf_no_maps def wf).
           apply fold_put_sound in E as [E|E]; [by rewrite lookup_empty in E|].
           apply join_writes_elem in E as (p & b & Hp & Hb & [Hb' Hj] & ->).
           rewrite (join_resolves p b) in Hs |- * by done. by eapply flow_join.
        -- unfold graphTarget in Hs. rewrite String.eqb_refl, E in Hs. done.
      * unfold graphTarget in *. rewrite (proj2 (String.eqb_neq _ _)) in Hs |- * by done.
        by apply flow_transition.
    + destruct (branchFailureTargets m !! s) as [f|] eqn:E; [|set_solver].
      apply list_elem_of_singleton in Hf as ->.
      apply branchFailureTargets_spec in E as (p & b & Hp & Hb & Hbody & Hn & ->).
      by eapply flow_failure.
  - intros He. pose proof (proj2 (flow_edge_declared _ _ He)) as Hdec.
    destruct He as [s t Ht Hs|p b s Hp Hb Hs Hj Hn|p b s Hp Hb Hs Hn]; (split; [|done]).
    + left. apply list_elem_of_fmap. exists t. split; [|done]. unfold graphTarget.
      rewrite (proj2 (String.eqb_neq t TargetJoin)); [done|]. by intros ->.
    + left. apply list_elem_of_fmap. exists TargetJoin. split; [|done].
      symmetry. by apply (join_resolves p b).
    + right. rewrite (proj2 (branchFailureTargets_spec s (OnFailure p))); [by left|]. exists p, b. auto.
Qed.
End flow.

(** ** Reaching definitions *)

Lemma producers_declared def p : p ∈ producers def -> p ∈ stateNames def.
Proof.
  unfold producers, stateNames. rewrite elem_of_list_to_set, elem_of_app.
  intros (t & -> & Ht)%list_elem_of_fmap. left. apply in_names.
  rewrite list_elem_of_In, filter_In, <- list_elem_of_In in Ht. tauto.
Qed.

Lemma flow_step_elem targets prods s R t p :
  (t, p) ∈ flow_step targets prods s R <->
  t ∈ targets s /\ (s ∈ prods /\ p = s \/ s ∉ prods /\ (s, p) ∈ R).
Proof.
  unfold flow_step. rewrite elem_of_list_to_set, list_elem_of_In, in_prod_iff, <- !list_elem_of_In.
  rewrite elem_of_elements. apply and_iff_compat_l. unfold out_set. case_bool_decide as Hs.
  - rewrite elem_of_singleton. tauto.
  - rewrite elem_of_map. setoid_rewrite elem_of_filter. split.
    + intros ([s' p'] & -> & <- & H). auto.
    + intros [[]|[_ H]]; [done|]. exists (s, p). auto.
Qed.

Lemma flow_fixpoint_spec def t p :
  well_formed def -> (t, p) ∈ flow_fixpoint def <-> carries def p t.
Proof.
  intros wf. unfold flow_fixpoint. set (targets := flow_targets _ _ _). set (names := stateNames def).
  set (gen := flow_step targets (producers def)). set (R := saturate _ _ _ _).
  assert (Ht : forall s t, t ∈ targets s <-> flow_edge def s t) by (intros; by apply flow_targets_spec).
  set (bound := list_to_set (list_prod names names) : gset (string * string)).
  assert (Hb : forall u q, (u, q) ∈ bound <-> u ∈ names /\ q ∈ names)
    by (intros; unfold bound; by rewrite elem_of_list_to_set, list_elem_of_In, in_prod_iff, <- !list_elem_of_In).
  assert (Hclosed : forall s, s ∈ names -> gen s R ⊆ R).
  { intros s Hs. apply (saturate_closed gen names bound); [| |rewrite size_empty|done].
    - intros x X Hx HX [u q] [He Hq]%flow_step_elem. apply Ht, flow_edge_declared in He as [_ He]; [|done].
      apply Hb. split; [done|]. destruct Hq as [[Hq ->]|[_ Hq%HX%Hb]]; [by apply producers_declared|tauto].
    - intros x Hx. set_solver.
    - pose proof (size_list_to_set_le (list_prod names names)) as Hsz.
      rewrite length_prod in Hsz. unfold bound. lia. }
  split.
  - enough (forall x : string * string, x ∈ R -> carries def x.2 x.1) as H by apply (H (t, p)).
    apply (saturate_least gen names (fun x => carries def x.2 x.1)); [|intros x Hx; set_solver].
    intros s X Hs HX [u q] [He Hq]%flow_step_elem. apply Ht in He. cbn.
    destruct Hq as [[Hq ->]|[Hn Hq%HX]]; [by apply carries_first|by eapply carries_on].
  - induction 1 as [t Hp He|s t _ IH Hn He].
    + apply (Hclosed p); [by apply producers_declared|]. apply flow_step_elem. rewrite Ht. auto.
    + apply (Hclosed s); [by apply (flow_edge_declared def wf s t)|]. apply flow_step_elem. rewrite Ht. auto.
Qed.

Lemma reaching_spec def :
  well_formed def -> reachingProducers def = Some (flow_fixpoint def, producers def).
Proof. intros wf. unfold reachingProducers. by rewrite (wf_structure def wf). Qed.

(** C22: the reaching-definitions analysis is sound and complete, and always
    ends: on a definition that passes the structure, fan-out and join rules, has no
    maps and names the join of every parallel, it returns, and it pairs a state with
    a producer exactly when some run leaves that producer and comes to the state
    without meeting another one, joins and branch failures included.  (With a map
    it misses the lane of a failed item, [map_failure_is_no_handoff] below.) *)
Theorem reaching_producers_are_exact def :
  well_formed def ->
  exists reaching, reachingProducers def = Some (reaching, producers def)
    /\ forall state p, (state, p) ∈ reaching <-> carries def p state.
Proof.
  intros wf. exists (flow_fixpoint def). split; [by apply reaching_spec|].
  intros. by apply flow_fixpoint_spec.
Qed.

(** ** The declarations *)

Lemma requiredCoverage_elem name R p : p ∈ requiredCoverage name R <-> p <> name /\ (name, p) ∈ R.
Proof.
  unfold requiredCoverage. rewrite elem_of_filter, elem_of_map. setoid_rewrite elem_of_filter.
  apply and_iff_compat_l. split; [intros ([n q] & -> & <- & H); done|]. intros H. by exists (name, p).
Qed.

Lemma setKeys_elem s p : p ∈ setKeys s <-> p ∈ s.
Proof. unfold setKeys, sort_strings. by rewrite sort_by_elem, elem_of_elements. Qed.

Lemma entry_ok tasks prods required name d :
  entry_problems tasks prods required name d = [] <->
  d <> "" /\ d <> name /\ d ∈ tasks /\ d ∈ prods /\ d ∈ required.
Proof.
  unfold entry_problems. destruct (String.eqb_spec d ""); [naive_solver|].
  destruct (String.eqb_spec d name); [naive_solver|]. repeat case_bool_decide; naive_solver.
Qed.

Lemma task_handoff_ok tasks prods R t :
  task_handoff_problems tasks prods R t = [] ->
  if isRepoConsumer t then forall p, p ∈ RepoFrom t <-> p ∈ requiredCoverage (task_Name t) R
  else RepoFrom t = [].
Proof.
  unfold task_handoff_problems. destruct (isRepoConsumer t); cbn [negb]; [|by destruct (RepoFrom t)].
  set (req := requiredCoverage _ _). intros H.
  assert (Hboth : concat (map (fun p => if mem_string p (RepoFrom t) then [] else [Uncovered (task_Name t) p])
                            (setKeys req)) = []
                  /\ concat (map (entry_problems tasks prods req (task_Name t)) (RepoFrom t)) = []).
  { destruct (RepoFrom t), (setKeys req); try done; by apply app_nil in H. }
  destruct Hboth as [H1 H2]. rewrite concat_nil in H1. rewrite concat_nil in H2. intros p. split.
  - intros Hp%H2. apply entry_ok in Hp. tauto.
  - intros Hp. specialize (H1 p). rewrite setKeys_elem in H1. specialize (H1 Hp).
    destruct (mem_string p (RepoFrom t)) eqn:E; [by apply mem_string_true|done].
Qed.

(** C15: rule WF022 refuses every wrong handoff: in a definition without maps that
    passes the structure, fan-out and join rules, names the join of every parallel
    and is accepted by WF022, a stage on the writable repository declares exactly the other stages whose
    commit can be the last before it, no other stage declares any, and no
    read-only agentic gate has one before it. *)
Theorem accepted_handoffs_are_exact def :
  well_formed def -> repoHandoffProblems def = [] ->
  (forall t, t ∈ Tasks (Spec def) ->
     if isRepoConsumer t
     then forall p, p ∈ RepoFrom t <-> p <> task_Name t /\ carries def p (task_Name t)
     else RepoFrom t = [])
  /\ (forall g a, g ∈ Gates_ (Spec def) -> Evaluator g = EvaluatorAgentic -> Agentic g = Some a ->
       agentic_Workspace a = WorkspaceRepoReadOnly ->
       forall p, carries def p (gate_Name g) -> p = gate_Name g).
Proof.
  intros wf. unfold repoHandoffProblems. rewrite reaching_spec by done. cbn zeta. rewrite app_nil.
  intros [H1 H2].
  rewrite concat_nil in H1. rewrite concat_nil in H2. split.
  - intros t Ht%H1. apply task_handoff_ok in Ht. destruct (isRepoConsumer t); [|done].
    intros p. by rewrite Ht, requiredCoverage_elem, flow_fixpoint_spec.
  - intros g a Hg%H2 He Ha Hw p Hp. unfold gate_handoff_problems in Hg.
    rewrite He, Ha, bool_decide_eq_true_2 in Hg by done.
    destruct (setKeys _) eqn:Ek; [|done]. apply dec_stable. intros Hne.
    assert (Hin : p ∈ setKeys (requiredCoverage (gate_Name g) (flow_fixpoint def)))
      by (by rewrite setKeys_elem, requiredCoverage_elem, flow_fixpoint_spec).
    rewrite Ek in Hin. set_solver.
Qed.

Lemma carries_producer def p t : carries def p t -> p ∈ producers def.
Proof. induction 1; auto. Qed.

Lemma coverage_lookup def coverage t :
  well_formed def -> RepoFromCoverage def = Some coverage -> t ∈ Tasks (Spec def) ->
  coverage !! task_Name t =
    if isRepoConsumer t then Some (setKeys (requiredCoverage (task_Name t) (flow_fixpoint def))) else None.
Proof.
  intros wf Hc Ht. unfold RepoFromCoverage in Hc. rewrite reaching_spec in Hc by done.
  apply (inj Some) in Hc as <-.
  pose proof (names_split def (names_unique def (wf_structure def wf))) as (HT & _). cbn zeta in HT.
  rewrite (fold_write_own task_Name) with (value := fun t =>
    if isRepoConsumer t then Some (setKeys (requiredCoverage (task_Name t) (flow_fixpoint def))) else None); auto.
  - intros a q k Hk. destruct (isRepoConsumer q); [by rewrite lookup_insert_ne|done].
  - intros a q Hq. destruct (isRepoConsumer q); [apply lookup_insert_eq|done].
Qed.

(** The coverage the migrator inserts is what the rule wants: a
    well-formed definition whose tasks declare exactly the computed coverage
    has no task-level handoff problem. *)
Theorem computed_coverage_is_accepted def coverage :
  well_formed def -> RepoFromCoverage def = Some coverage ->
  (forall t, t ∈ Tasks (Spec def) ->
     task_Name t <> "" /\ RepoFrom t = default [] (coverage !! task_Name t)) ->
  forall pr, pr ∈ repoHandoffProblems def -> exists gate required, pr = ReadonlyGate gate required.
Proof.
  intros wf Hc Hdecl pr. unfold repoHandoffProblems. rewrite reaching_spec by done.
  rewrite elem_of_app, !concat_map_elem. intros [(t & Ht & H)|(g & _ & H)].
  - exfalso. enough (E : task_handoff_problems (list_to_set (map task_Name (Tasks (Spec def))))
                           (producers def) (flow_fixpoint def) t = []) by (rewrite E in H; set_solver).
    destruct (Hdecl t Ht) as [_ Hr]. rewrite (coverage_lookup def coverage t wf Hc Ht) in Hr.
    unfold task_handoff_problems. destruct (isRepoConsumer t); cbn in Hr; rewrite Hr; [|done]. cbn [negb].
    set (req := requiredCoverage _ _).
    assert (E1 : concat (map (fun p => if mem_string p (setKeys req) then [] else [Uncovered (task_Name t) p])
                           (setKeys req)) = [])
      by (apply concat_nil; intros p Hp%mem_string_true; by rewrite Hp).
    assert (E2 : concat (map (entry_problems (list_to_set (map task_Name (Tasks (Spec def)))) (producers def)
                                req (task_Name t)) (setKeys req)) = []).
    { apply concat_nil. intros p Hp%setKeys_elem. apply entry_ok.
      pose proof Hp as [Hne Hin]%requiredCoverage_elem. apply flow_fixpoint_spec, carries_producer in Hin; [|done].
      pose proof Hin as Htask. unfold producers in Htask.
      rewrite elem_of_list_to_set in Htask. apply list_elem_of_fmap in Htask as (u & -> & Hu).
      rewrite list_elem_of_In, filter_In, <- list_elem_of_In in Hu. destruct Hu as [Hu _].
      split; [by apply Hdecl|]. split; [done|]. split; [|done].
      rewrite elem_of_list_to_set. by apply in_names. }
    rewrite E1, E2. by destruct (setKeys req).
  - unfold gate_handoff_problems in H. destruct (Evaluator g); try (by apply not_elem_of_nil in H).
    destruct (Agentic g); [|by apply not_elem_of_nil in H].
    case_bool_decide; [|by apply not_elem_of_nil in H].
    destruct (setKeys _); [by apply not_elem_of_nil in H|]. apply list_elem_of_singleton in H. eauto.
Qed.

(** ** A pipeline the compiler accepts

    Implement, review, fan out to two checks, push; a failed check goes to a
    fixing stage.  The guarantees of the workflow rules, on this definition. *)

Module WorkflowExample.

Definition task (name : string) (ty : TaskType) (w : WorkspaceMode) (next : string) (from : list string) : Task :=
  mkTask name ty "goober" false None ∅ "" [] 0 "" [] ∅ w next None from false None false [] None.

Definition implement : Task := task "implement" TaskAgentic WorkspaceUnset "review" [].
Definition lint : Task := task "lint" TaskDeterministic WorkspaceScratch TargetJoin [].
Definition test : Task := task "test" TaskDeterministic WorkspaceScratch TargetJoin [].
Definition fix_ci : Task := task "fix" TaskAgentic WorkspaceRepo "" ["implement"].
Definition push : Task := task "push" TaskDeterministic WorkspaceRepo "" ["implement"].

Definition review : Gate :=
  mkGate "review" EvaluatorAgentic None (Some (mkAgentic "reviewer" None WorkspaceRepo 0)) None
    {["pass" := "fan"; "fail" := "@abort"; "needs-changes" := "implement"]} 3 None.

Definition fan_lint : Branch := mkBranch "lint" "lint".
Definition fan_test : Branch := mkBranch "test" "test".
Definition fan : Parallel := mkParallel "fan" BranchFailFast [fan_lint; fan_test] "push" "fix" 0 0.

Definition pipeline : Definition_ :=
  mkDefinition "pipeline" 1 "3.0"
    (mkSpec "implement" None [implement; lint; test; fix_ci; push] [review] [fan] [] false).

(** The same fan-out with no join, and nothing else that has one. *)
Definition joinless : Definition_ :=
  mkDefinition "joinless" 1 "3.0"
    (mkSpec "fan" None [lint; test] []
       [mkParallel "fan" BranchContinueOnError [fan_lint; fan_test] "" "" 0 0] [] false).

Lemma pipeline_structure : structuralProblems (newMachine pipeline) = [].
Proof. vm_compute. reflexivity. Qed.

Lemma pipeline_fanout : fanout_ok (newMachine pipeline).
Proof. intros p ->%list_elem_of_singleton. split; vm_compute; reflexivity. Qed.

Lemma pipeline_joins : joinEntryProblems (newMachine pipeline) = [].
Proof. vm_compute. reflexivity. Qed.

Lemma pipeline_named p : p ∈ Parallels (Spec pipeline) -> par_Join p <> "".
Proof. by intros ->%list_elem_of_singleton. Qed.

Lemma pipeline_well_formed : well_formed pipeline.
Proof.
  constructor; auto using pipeline_structure, pipeline_fanout, pipeline_joins, pipeline_named.
Qed.

Lemma lint_in_branch : body_reaches (newMachine pipeline) "lint" "lint".
Proof. apply reaches_root; [left | vm_compute; reflexivity]. Qed.

Lemma accepted_gates_cover_outcomes_witness :
  gateOutcomeProblems pipeline None = []
  /\ (exists target, BranchTarget review "needs-changes" = Some target).
Proof.
  split; [vm_compute; reflexivity|].
  apply (accepted_gates_cover_outcomes pipeline None review agenticOutcomes);
    [vm_compute; reflexivity | left | reflexivity | right; right; left].
Defined.

Lemma accepted_branches_are_disjoint_witness : "lint" <> par_Join fan.
Proof.
  apply (accepted_branches_are_disjoint pipeline fan fan_lint fan fan_lint "lint");
    solve [apply pipeline_fanout | left | apply lint_in_branch].
Defined.

Lemma accepted_branches_can_end_witness :
  can_end (Outgoing (newMachine pipeline)) IsReservedAnyTarget
    (branchBody (newMachine pipeline) "lint") "lint".
Proof.
  apply (accepted_branches_can_end pipeline fan fan_lint "lint");
    solve [apply pipeline_fanout | left | apply lint_in_branch].
Defined.

Lemma accepted_runs_stay_on_declared_states_witness :
  "review" ∈ stateNames pipeline \/ "review" = TargetJoin.
Proof.
  apply (accepted_runs_stay_on_declared_states pipeline "review");
    [apply pipeline_structure | apply pipeline_fanout | apply pipeline_joins | reflexivity
    | apply pipeline_named |].
  eapply reaches_step; [apply reaches_root; [left | reflexivity] | | reflexivity].
  vm_compute. left.
Defined.

Lemma missing_join_goes_unreported_witness : joinEntryProblems (newMachine joinless) = [].
Proof.
  apply missing_join_goes_unreported; [reflexivity|]. by intros p ->%list_elem_of_singleton.
Defined.

Lemma reaching_producers_are_exact_witness :
  exists reaching, reachingProducers pipeline = Some (reaching, producers pipeline)
    /\ forall state p, (state, p) ∈ reaching <-> carries pipeline p state.
Proof. apply reaching_producers_are_exact, pipeline_well_formed. Defined.

Lemma accepted_handoffs_are_exact_witness :
  RepoFrom push = ["implement"]
  /\ (forall p, p ∈ RepoFrom push <-> p <> "push" /\ carries pipeline p "push").
Proof.
  split; [reflexivity|].
  apply (proj1 (accepted_handoffs_are_exact pipeline pipeline_well_formed
                  ltac:(vm_compute; reflexivity)) push).
  do 4 right. left.
Defined.

(** A map whose task brings the branch up to date, and a repair stage on the writable
    repository that a failed item leads to.  The rules accept it although the repair
    stage declares no handoff: failure edges are drawn for parallels only. *)
Definition sync : Task :=
  mkTask "sync" TaskDeterministic "" false (Some (mkRun ["goobers"; "update-behind-pr"] true "" WorkspaceScratch ∅ ""))
    ∅ "" [] 0 "" [] ∅ WorkspaceScratch TargetJoin None [] false None false [] None.
Definition after_all : Task := task "after" TaskDeterministic WorkspaceScratch "" [].
Definition repair : Task := task "repair" TaskDeterministic WorkspaceRepo "" [].
Definition mapped : Definition_ :=
  mkDefinition "mapped" 1 "3.1" (mkSpec "each" None [sync; after_all; repair] [] [] [mkMap "each" "sync" "after" "repair"] false).
Example map_failure_is_no_handoff :
  structuralProblems (newMachine mapped) = [] /\ isRepoProducer sync = true /\ isRepoConsumer repair = true /\
  repoHandoffProblems mapped = [].
Proof. split_and!; vm_compute; reflexivity. Qed.

(** The computed coverage, evaluated. *)
Definition pipeline_coverage : gmap string (list string) :=
  {["implement" := []; "fix" := ["implement"]; "push" := ["implement"]]}.

Lemma computed_coverage_is_accepted_witness :
  RepoFromCoverage pipeline = Some pipeline_coverage
  /\ (forall pr, pr ∈ repoHandoffProblems pipeline -> exists gate required, pr = ReadonlyGate gate required).
Proof.
  split; [vm_compute; reflexivity|].
  apply (computed_coverage_is_accepted pipeline pipeline_coverage pipeline_well_formed);
    [vm_compute; reflexivity|].
  intros t Ht. repeat (apply elem_of_cons in Ht as [->|Ht]; [done|]). by apply not_elem_of_nil in Ht.
Defined.

End WorkflowExample.
