(* ===== verification/ByteLog.v ===== *)
(** * Byte slices and newline-terminated records

    The [bytes] operations the journal reads its files with, on byte slices
    [list N], and the frame of an event log: complete records, each ended by a
    newline, followed by a tail that holds no newline. *)

From S2P Require Export GoStrings.
Local Open Scope list_scope.

Definition newline : N := 10.
Definition nul : N := 0.

(** ** The [bytes] package *)

(** [bytes.IndexByte]: the first position of [c]. *)
Fixpoint IndexByte (c : N) (l : list N) : option nat :=
  match l with
  | [] => None
  | b :: l' => if (b =? c)%N then Some O else option_map S (IndexByte c l')
  end.

(** [bytes.LastIndexByte]: the last position of [c]. *)
Fixpoint LastIndexByte (c : N) (l : list N) : option nat :=
  match l with
  | [] => None
  | b :: l' =>
      match LastIndexByte c l' with
      | Some i => Some (S i)
      | None => if (b =? c)%N then Some O else None
      end
  end.

(** [bytes.TrimLeft(line, NUL)]. *)
Fixpoint TrimLeftNul (l : list N) : list N :=
  match l with
  | b :: l' => if (b =? nul)%N then TrimLeftNul l' else l
  | [] => []
  end.

(** The cleaning every reader of a log gives a line: white space trimmed, then
    leading crash fill stripped and, when there was any, trimmed again. *)
Definition clean_line (raw : list N) : list N :=
  let line := TrimSpaceBytes raw in
  let stripped := TrimLeftNul line in
  if (length stripped =? length line)%nat then line else TrimSpaceBytes stripped.

(** ** Frames *)

Definition no_newline (l : list N) : Prop := newline ∉ l.

(** Complete records: every line followed by its newline. *)
Definition unlines (ls : list (list N)) : list N := concat (map (fun l => l ++ [newline]) ls).

Lemma unlines_app ls ls' : unlines (ls ++ ls') = unlines ls ++ unlines ls'.
Proof. unfold unlines. by rewrite map_app, concat_app. Qed.
Lemma unlines_cons l ls : unlines (l :: ls) = l ++ newline :: unlines ls.
Proof. unfold unlines. cbn. by rewrite <- app_assoc. Qed.
Lemma unlines_snoc ls l : unlines (ls ++ [l]) = unlines ls ++ l ++ [newline].
Proof. rewrite unlines_app. unfold unlines. cbn. by rewrite app_nil_r. Qed.

Lemma IndexByte_None c l : IndexByte c l = None <-> c ∉ l.
Proof.
  induction l as [|b l IH]; cbn; [split; [set_solver|done]|].
  destruct (N.eqb_spec b c) as [->|Hne]; [split; [done|set_solver]|].
  destruct (IndexByte c l); cbn; [|set_solver].
  split; [done|]. intros Hn. exfalso. destruct IH as [_ IH]. discriminate IH. set_solver.
Qed.

Lemma IndexByte_app c l r : c ∉ l -> IndexByte c (l ++ c :: r) = Some (length l).
Proof.
  induction l as [|b l IH]; intros Hc; cbn; [by rewrite N.eqb_refl|].
  destruct (N.eqb_spec b c) as [->|_]; [set_solver|]. rewrite IH by set_solver. done.
Qed.

Lemma LastIndexByte_None c l : LastIndexByte c l = None <-> c ∉ l.
Proof.
  induction l as [|b l IH]; cbn; [split; [set_solver|done]|].
  destruct (LastIndexByte c l); [split; [done|]|].
  - intros Hn. exfalso. destruct IH as [_ IH]. discriminate IH. set_solver.
  - destruct (N.eqb_spec b c) as [->|Hne]; [split; [done|set_solver]|].
    split; [|done]. intros _. destruct IH as [IH _]. specialize (IH eq_refl). set_solver.
Qed.

Lemma LastIndexByte_app c l r : c ∉ r -> LastIndexByte c (l ++ c :: r) = Some (length l).
Proof.
  intros Hr. induction l as [|b l IH]; cbn.
  - apply LastIndexByte_None in Hr. by rewrite Hr, N.eqb_refl.
  - by rewrite IH.
Qed.

(** Every slice splits at its last newline. *)
Lemma LastIndexByte_split c l i :
  LastIndexByte c l = Some i -> exists r, l = take i l ++ c :: r /\ c ∉ r /\ (i < length l)%nat.
Proof.
  revert i. induction l as [|b l IH]; cbn; [done|]. intros i.
  destruct (LastIndexByte c l) as [j|] eqn:E.
  - intros [= <-]. destruct (IH j eq_refl) as (r & Hl & Hr & Hlt). exists r. cbn.
    split; [by f_equal|]. split; [done|lia].
  - destruct (N.eqb_spec b c) as [->|]; [|done]. intros [= <-]. exists l. cbn.
    split; [done|]. split; [by apply LastIndexByte_None|lia].
Qed.

(** Every file is a sequence of complete records and a torn tail, in one way. *)
Lemma frame_exists data :
  exists ls tail, data = unlines ls ++ tail /\ Forall no_newline ls /\ no_newline tail.
Proof.
  induction data as [|b data (ls & tail & -> & Hls & Ht)].
  { exists [], []. split; [done|]. split; [constructor|]. unfold no_newline. set_solver. }
  destruct (decide (b = newline)) as [->|Hb].
  { exists ([] :: ls), tail. rewrite unlines_cons. split; [done|]. split; [|done].
    constructor; [unfold no_newline; set_solver|done]. }
  destruct ls as [|l ls].
  - exists [], (b :: tail). split; [done|]. split; [done|]. unfold no_newline in *. set_solver.
  - exists ((b :: l) :: ls), tail. rewrite !unlines_cons. split; [done|]. split; [|done].
    inversion_clear Hls. constructor; [unfold no_newline in *; set_solver|done].
Qed.

Lemma no_newline_app l r : no_newline (l ++ r) <-> no_newline l /\ no_newline r.
Proof. unfold no_newline. set_solver. Qed.

Lemma unlines_has_newline ls : ls <> [] -> newline ∈ unlines ls.
Proof. destruct ls; [done|]. intros _. rewrite unlines_cons. set_solver. Qed.

Lemma frame_inj ls ls' t t' :
  Forall no_newline ls -> Forall no_newline ls' -> no_newline t -> no_newline t' ->
  unlines ls ++ t = unlines ls' ++ t' -> ls = ls' /\ t = t'.
Proof.
  revert ls'. induction ls as [|l ls IH]; intros [|l' ls'] Hls Hls' Ht Ht' Heq.
  - done.
  - exfalso. apply Ht. rewrite unlines_cons in Heq. cbn in Heq. rewrite Heq. set_solver.
  - exfalso. apply Ht'. rewrite unlines_cons in Heq. cbn in Heq. rewrite <- Heq. set_solver.
  - rewrite !unlines_cons, <- !app_assoc in Heq. cbn in Heq.
    inversion_clear Hls. inversion_clear Hls'.
    apply split_at_separator in Heq as [-> Heq]; [|done|done].
    destruct (IH ls' ltac:(done) ltac:(done) Ht Ht' Heq) as [-> ->]. done.
Qed.

(** The last line of a frame without tail, as the backward scans peel it. *)
Lemma LastIndexByte_unlines ls t :
  ls <> [] -> no_newline t -> exists init last,
  ls = init ++ [last] /\ unlines ls ++ t = (unlines init ++ last) ++ newline :: t /\
  LastIndexByte newline (unlines ls ++ t) = Some (length (unlines init ++ last)).
Proof.
  intros Hne Ht. destruct (exists_last Hne) as (init & last & ->). exists init, last.
  assert (Heq : unlines (init ++ [last]) ++ t = (unlines init ++ last) ++ newline :: t).
  { rewrite unlines_snoc, <- !app_assoc. done. }
  split; [done|]. split; [done|]. rewrite Heq. by apply LastIndexByte_app.
Qed.

(** ** Scrubbing: [internal/journal/scrub.go]

    [RegistryScrubber]: the registered secrets, the sorted list of what to
    replace, which is kept until the registry changes or a secret retires, and
    [Scrub].  The digest a secret is filed under and the two encodings of a string
    by [encoding/json] (with HTML escapes and without, less the quotes) are the
    class [SecretText]; the clock is an argument. *)
Module Scrub.
Local Open Scope Z_scope.

Class SecretText := {
  Digest : list N -> string;
  marshal_text : list N -> list N;
  encode_text : list N -> list N
}.

(** "[REDACTED]" *)
Definition Redacted : list N := [91; 82; 69; 68; 65; 67; 84; 69; 68; 93]%N.
Definition minSecretLen : nat := 6.
Definition RegistryRetirementGrace : Z := 24 * 3600 * 1000000000.

Fixpoint HasPrefixBytes (s p : list N) : bool :=
  match p, s with
  | [], _ => true
  | c :: p', b :: s' => (b =? c)%N && HasPrefixBytes s' p'
  | _, [] => false
  end.

(** [bytes.ReplaceAll] of a text [old] that is not empty; [skip] counts the bytes
    of a match still to pass. *)
Fixpoint replace_from (old new : list N) (skip : nat) (s : list N) : list N :=
  match s with
  | [] => []
  | b :: s' =>
      match skip with
      | S k => replace_from old new k s'
      | O => if HasPrefixBytes s old then new ++ replace_from old new (length old - 1) s'
             else b :: replace_from old new 0 s'
      end
  end.
Definition ReplaceAll (s old new : list N) : list N := replace_from old new 0 s.

(** [bytes.Compare], as an order. *)
Fixpoint bytes_le (a b : list N) : bool :=
  match a, b with
  | [], _ => true
  | _ :: _, [] => false
  | x :: a', y :: b' => if (x =? y)%N then bytes_le a' b' else (x <? y)%N
  end.
Definition target_le (a b : list N) : bool :=
  if (length a =? length b)%nat then bytes_le a b else (length b <? length a)%nat.

Record registryEntry := mkEntry { forms : list (list N); expiresAt : Time }.
Record RegistryScrubber := mkRegistry {
  secrets : gmap string registryEntry;
  targets : list (list N);
  stale : bool;
  nextRetire : Time
}.
Definition NewRegistryScrubber : RegistryScrubber := mkRegistry ∅ [] false 0.

Definition noteDeadline (next expires : Time) : Time :=
  if IsZero expires then next
  else
    let deadline := expires + RegistryRetirementGrace in
    if IsZero next || Before deadline next then deadline else next.
Definition recomputeNextRetire (m : gmap string registryEntry) : Time :=
  foldr (fun p next => noteDeadline next (expiresAt p.2)) 0 (map_to_list m).

(** The deadline of the entry has passed. *)
Definition retired (now : Time) (e : registryEntry) : bool :=
  negb (IsZero (expiresAt e)) && negb (Before now (expiresAt e + RegistryRetirementGrace)).
Definition live (now : Time) (m : gmap string registryEntry) : gmap string registryEntry :=
  filter (fun p => retired now p.2 = false) m.

Definition prune (now : Time) (s : RegistryScrubber) : RegistryScrubber :=
  if IsZero (nextRetire s) || Before now (nextRetire s) then s
  else
    let kept := live now (secrets s) in
    mkRegistry kept (targets s) (stale s || negb (size kept =? size (secrets s))%nat) (recomputeNextRetire kept).

Definition sortedTargets (m : gmap string registryEntry) : list (list N) :=
  sort_by target_le (concat (map (fun p => forms p.2) (map_to_list m))).

Definition redactionTargets (now : Time) (s : RegistryScrubber) : list (list N) * RegistryScrubber :=
  if negb (stale s) && (IsZero (nextRetire s) || Before now (nextRetire s)) then (targets s, s)
  else
    let s := prune now s in
    let s := if stale s then mkRegistry (secrets s) (sortedTargets (secrets s)) false (nextRetire s) else s in
    (targets s, s).

(** Every target replaced, in order. *)
Definition redact (ts : list (list N)) (b : list N) : list N :=
  fold_left (fun out t => ReplaceAll out t Redacted) ts b.
Definition Scrub (now : Time) (s : RegistryScrubber) (b : list N) : list N * RegistryScrubber :=
  let '(ts, s) := redactionTargets now s in (redact ts b, s).

Section register.
Context {Txt : SecretText}.

Definition add_form (v : list N) (fs : list (list N)) (inner : list N) : list (list N) :=
  if (length inner =? 0)%nat || bool_decide (inner = v) || bool_decide (inner ∈ fs) then fs else fs ++ [inner].
Definition jsonEscapedForms (v : list N) : list (list N) :=
  add_form v (add_form v [] (marshal_text v)) (encode_text v).

Definition RegisterUntil (now : Time) (secret : list N) (expires : Time) (s : RegistryScrubber) : RegistryScrubber :=
  if (length secret <? minSecretLen)%nat then s
  else
    let key := Digest secret in
    prune now
      (match secrets s !! key with
       | Some e =>
           if negb (IsZero expires) && (IsZero (expiresAt e) || After expires (expiresAt e)) then
             let m := <[key := mkEntry (forms e) expires]> (secrets s) in
             mkRegistry m (targets s) (stale s) (recomputeNextRetire m)
           else s
       | None =>
           mkRegistry (<[key := mkEntry (secret :: jsonEscapedForms secret) expires]> (secrets s))
             (targets s) true (noteDeadline (nextRetire s) expires)
       end).
Definition Register (now : Time) (secret : list N) : RegistryScrubber -> RegistryScrubber := RegisterUntil now secret 0.

(** *** The kept list is the current one *)

(** The scrubbers of a process: secrets registered (an expiry is none, or after
    the zero time) and bytes scrubbed, at any times. *)
Inductive reached : RegistryScrubber -> Prop :=
| reached_new : reached NewRegistryScrubber
| reached_register now secret expires s : 0 <= expires -> reached s -> reached (RegisterUntil now secret expires s)
| reached_scrub now b s : reached s -> reached (Scrub now s b).2.

Record registry_ok (s : RegistryScrubber) : Prop := {
  ok_targets : stale s = false -> targets s = sortedTargets (secrets s);
  ok_expiry : forall k e, secrets s !! k = Some e -> 0 <= expiresAt e;
  ok_retire : forall k e, secrets s !! k = Some e -> expiresAt e <> 0 ->
    0 < nextRetire s <= expiresAt e + RegistryRetirementGrace;
  ok_positive : 0 <= nextRetire s
}.

Lemma sortedTargets_forms m m' : forms <$> m = forms <$> m' -> sortedTargets m = sortedTargets m'.
Proof.
  unfold sortedTargets. intros Hf.
  assert (Hm : forall m : gmap string registryEntry,
    map (fun p => forms p.2) (map_to_list m) = map snd (map_to_list (forms <$> m))).
  { intros n. rewrite map_to_list_fmap. change map with (@fmap list _). rewrite <- list_fmap_compose. done. }
  by rewrite !Hm, Hf.
Qed.

Lemma note_spec next expires :
  0 <= next -> 0 <= expires ->
  0 <= noteDeadline next expires
  /\ (expires <> 0 -> 0 < noteDeadline next expires <= expires + RegistryRetirementGrace)
  /\ (0 < next -> 0 < noteDeadline next expires <= next).
Proof.
  intros Hn He. unfold noteDeadline, IsZero, Before. destruct (Z.eqb_spec expires 0); [lia|].
  assert (0 < RegistryRetirementGrace) by done.
  destruct (Z.eqb_spec next 0); cbn; [lia|]. destruct (Z.ltb_spec (expires + RegistryRetirementGrace) next); lia.
Qed.

Lemma recompute_spec m :
  (forall k e, m !! k = Some e -> 0 <= expiresAt e) ->
  0 <= recomputeNextRetire m /\
  forall k e, m !! k = Some e -> expiresAt e <> 0 ->
    0 < recomputeNextRetire m <= expiresAt e + RegistryRetirementGrace.
Proof.
  intros Hpos. unfold recomputeNextRetire.
  assert (Hl : forall l : list (string * registryEntry), (forall p, p ∈ l -> 0 <= expiresAt p.2) ->
    0 <= foldr (fun p next => noteDeadline next (expiresAt p.2)) 0 l /\
    forall p, p ∈ l -> expiresAt p.2 <> 0 ->
      0 < foldr (fun p next => noteDeadline next (expiresAt p.2)) 0 l <= expiresAt p.2 + RegistryRetirementGrace).
  { induction l as [|q l IH]; intros Hq; cbn [foldr]; [split; [lia|intros p []%not_elem_of_nil]|].
    destruct IH as [H0 IH]; [intros p Hp; apply Hq; by right|].
    destruct (note_spec _ (expiresAt q.2) H0 (Hq q ltac:(left))) as (N1 & N2 & N3). split; [done|].
    intros p [->|Hp]%elem_of_cons Hne; [by apply N2|]. specialize (IH p Hp Hne). lia. }
  destruct (Hl (map_to_list m)) as [H0 H1].
  - intros [k e] Hp%elem_of_map_to_list. by eapply Hpos.
  - split; [done|]. intros k e Hk. apply (H1 (k, e)). by apply elem_of_map_to_list.
Qed.

Lemma live_all now m : (forall k e, m !! k = Some e -> retired now e = false) -> live now m = m.
Proof. intros Hl. unfold live. apply map_filter_id. intros k e Hk. by apply (Hl k). Qed.

Lemma not_due now s : registry_ok s -> IsZero (nextRetire s) || Before now (nextRetire s) = true ->
  live now (secrets s) = secrets s.
Proof.
  intros Hs Hn. apply live_all. intros k e Hk. unfold retired, IsZero, Before in *.
  destruct (Z.eqb_spec (expiresAt e) 0) as [|Hne]; [done|]. cbn.
  destruct (ok_retire _ Hs k e Hk Hne) as [Hp Hle]. apply negb_false_iff, Z.ltb_lt.
  apply orb_true_iff in Hn as [Hz%Z.eqb_eq|Hz%Z.ltb_lt]; lia.
Qed.

Lemma prune_spec now s : registry_ok s -> registry_ok (prune now s) /\ secrets (prune now s) = live now (secrets s).
Proof.
  intros Hs. unfold prune. destruct (_ || _) eqn:Hn; [split; [done|by rewrite (not_due now s)]|]. split; [|done].
  assert (Hsub : forall k e, live now (secrets s) !! k = Some e -> secrets s !! k = Some e)
    by (intros k e H; by apply map_lookup_filter_Some in H as [H _]).
  destruct (recompute_spec (live now (secrets s))) as [R0 R1].
  { intros k e Hk%Hsub. by apply (ok_expiry _ Hs k). }
  split; cbn; [|intros k e Hk%Hsub; by apply (ok_expiry _ Hs k)|done|done].
  intros [Hst Hsz]%orb_false_iff. rewrite (ok_targets _ Hs Hst). apply negb_false_iff, Nat.eqb_eq in Hsz.
  f_equal. symmetry. apply map_subseteq_size_eq; [|lia]. apply map_filter_subseteq.
Qed.

Lemma register_spec now secret expires s :
  0 <= expires -> registry_ok s -> registry_ok (RegisterUntil now secret expires s).
Proof.
  intros He Hs. unfold RegisterUntil. destruct (_ <? _)%nat; [done|]. apply prune_spec.
  destruct (secrets s !! Digest secret) as [e|] eqn:Ek.
  - destruct (_ && _); [|done]. set (m := <[_ := _]> _).
    assert (Hpos : forall k e', m !! k = Some e' -> 0 <= expiresAt e').
    { intros k e' [[_ <-]|[_ Hk]]%lookup_insert_Some; [done|]. by apply (ok_expiry _ Hs k). }
    destruct (recompute_spec m Hpos) as [R0 R1]. split; cbn; try done.
    intros Hst. rewrite (ok_targets _ Hs Hst). apply sortedTargets_forms. unfold m. rewrite fmap_insert. cbn.
    symmetry. apply insert_id. by rewrite lookup_fmap, Ek.
  - destruct (note_spec (nextRetire s) expires (ok_positive _ Hs) He) as (N1 & N2 & N3). split; cbn; try done.
    + intros k e' [[_ <-]|[_ Hk]]%lookup_insert_Some; [done|]. by apply (ok_expiry _ Hs k).
    + intros k e' [[_ <-]|[_ Hk]]%lookup_insert_Some Hne; [by apply N2|].
      destruct (ok_retire _ Hs k e' Hk Hne). lia.
Qed.

Lemma scrub_spec now s b :
  registry_ok s -> registry_ok (Scrub now s b).2 /\ (Scrub now s b).1 = redact (sortedTargets (live now (secrets s))) b.
Proof.
  intros Hs. unfold Scrub, redactionTargets. destruct (negb (stale s) && _) eqn:Hf.
  - apply andb_true_iff in Hf as [Hst%negb_true_iff Hn]. cbn. split; [done|].
    by rewrite (ok_targets _ Hs Hst), (not_due now s).
  - destruct (prune_spec now s Hs) as [Hp Hl]. destruct (stale (prune now s)) eqn:Est; cbn.
    + split; [|by rewrite Hl]. destruct Hp. by split.
    + split; [done|]. by rewrite (ok_targets _ Hp Est), Hl.
Qed.

(** *** What was redacted does not come back *)

Definition occurs (t s : list N) : Prop := exists pre post, s = pre ++ t ++ post.
(** A text that cannot overlap the placeholder: without brackets, and not inside
    of it. *)
Definition plain (t : list N) : Prop := t <> [] /\ 91%N ∉ t /\ 93%N ∉ t /\ ~ occurs t Redacted.

Lemma occurs_cons t b s : occurs t (b :: s) <-> t `prefix_of` (b :: s) \/ occurs t s.
Proof.
  split.
  - intros ([|c pre] & post & Hs); [left; by exists post|]. injection Hs as -> ->. right. by exists pre, post.
  - intros [[post Hs]|(pre & post & ->)]; [by exists [], post|by exists (b :: pre), post].
Qed.

Lemma occurs_apart c t s s' : c ∉ t -> occurs t (s ++ c :: s') -> occurs t (s ++ [c]) \/ occurs t s'.
Proof.
  intros Hc. induction s as [|b s IH]; cbn [app]; rewrite !occurs_cons.
  - intros [Hp|Ho]; [|by right]. destruct t as [|d t]; [left; right; by exists [], []|].
    destruct Hp as [k Hk]. injection Hk as -> _. destruct Hc. by left.
  - intros [[post Hp]|[Ho|Ho]%IH]; [|auto|auto]. left. left. change (b :: s ++ [c]) with ((b :: s) ++ [c]).
    change (b :: s ++ c :: s') with ((b :: s) ++ c :: s') in Hp.
    apply app_eq_inv in Hp as [[k [Hk Hs]]|[k [Hk Hs]]].
    + rewrite Hk, <- app_assoc. by exists (k ++ [c]).
    + destruct k as [|d k]; [rewrite app_nil_r in Hk; subst t; by exists [c]|].
      injection Hs as <- _. destruct Hc. rewrite Hk. apply elem_of_app. right. by left.
Qed.

Lemma plain_redacted t out : plain t -> occurs t (Redacted ++ out) -> occurs t out.
Proof.
  intros (_ & _ & Hc & Hr). change (Redacted ++ out) with (removelast Redacted ++ 93%N :: out).
  intros [Ho|Ho]%occurs_apart; [by destruct (Hr Ho)|done|done].
Qed.

Lemma replace_prefix old t s :
  91%N ∉ t -> t `prefix_of` replace_from old Redacted 0 s -> t `prefix_of` s.
Proof.
  revert t. induction s as [|b s IH]; intros t Hc; [done|]. cbn [replace_from]. destruct (HasPrefixBytes _ _); intros Hp.
  - destruct t as [|d t]; [apply prefix_nil|]. destruct Hp as [k Hk]. injection Hk as <- _. destruct Hc. by left.
  - destruct t as [|d t]; [apply prefix_nil|]. apply not_elem_of_cons in Hc as [_ Hc].
    pose proof (prefix_cons_inv_1 _ _ _ _ Hp) as ->. apply prefix_cons, IH; [done|]. by apply prefix_cons_inv_2 in Hp.
Qed.

Lemma replace_keeps_absent old t k s :
  plain t -> occurs t (replace_from old Redacted k s) -> occurs t s.
Proof.
  intros Hp. revert k. induction s as [|b s IH]; intros k; [by destruct k|]. cbn [replace_from]. rewrite occurs_cons.
  destruct k as [|k]; [|intros Ho; right; by eapply IH].
  destruct (HasPrefixBytes _ _) eqn:Ep; [intros Ho%plain_redacted; [right; by eapply IH|done]|].
  rewrite occurs_cons. intros [Hb|Ho]; [left|right; by eapply IH]. apply (replace_prefix old); [apply Hp|].
  cbn [replace_from]. by rewrite Ep.
Qed.

Lemma HasPrefixBytes_spec t s : t `prefix_of` s -> HasPrefixBytes s t = true.
Proof. intros [k ->]. induction t as [|b t IH]; [by destruct k|]. cbn. by rewrite N.eqb_refl. Qed.

Lemma replace_removes t k s : plain t -> ~ occurs t (replace_from t Redacted k s).
Proof.
  intros Hp. revert k. induction s as [|b s IH]; intros k.
  - intros (pre & post & H). destruct Hp as [Hne _]. by destruct k, pre, t.
  - cbn [replace_from]. destruct k as [|k]; [|apply IH].
    destruct (HasPrefixBytes _ _) eqn:Ep; [intros Ho%plain_redacted; [by eapply IH|done]|].
    rewrite occurs_cons. intros [Hb|Ho]; [|by eapply IH]. rewrite HasPrefixBytes_spec in Ep; [done|].
    apply (replace_prefix t); [apply Hp|]. cbn [replace_from]. by destruct (HasPrefixBytes _ _).
Qed.

Lemma redact_hides ts t b : t ∈ ts -> plain t -> ~ occurs t (redact ts b).
Proof.
  intros Ht Hp. unfold redact.
  assert (Hk : forall ts out, ~ occurs t out -> ~ occurs t (fold_left (fun out t => ReplaceAll out t Redacted) ts out)).
  { induction ts0 as [|u us IH]; intros out Ho; [done|]. apply IH. intros H. by apply Ho, (replace_keeps_absent u _ 0). }
  revert b. induction Ht as [t us|t u us _ IH]; intros b; cbn [fold_left]; [apply Hk; by apply replace_removes|by apply IH].
Qed.

Lemma live_targets now m k e f :
  m !! k = Some e -> retired now e = false -> f ∈ forms e -> f ∈ sortedTargets (live now m).
Proof.
  intros Hk Hr Hf. unfold sortedTargets. rewrite sort_by_elem. apply list_elem_of_In, in_concat.
  exists (forms e). split; [|by apply list_elem_of_In]. apply in_map_iff. exists (k, e). split; [done|].
  apply list_elem_of_In, elem_of_map_to_list. by apply map_lookup_filter_Some.
Qed.

(** C38: Registered secrets do not reach what is written.  However secrets were
    registered, with or without an expiry, and whatever was scrubbed before,
    scrubbing replaces exactly the encodings of the secrets that are not retired
    at that time, the longest first, as if the kept list were built anew; and no
    encoding of such a secret that has no bracket and is not a piece of the
    placeholder occurs in the result.  A new secret of six bytes or more, with its
    JSON encodings, is among them as soon as it is registered, unless a day has
    already passed since its expiry. *)
Theorem scrub_hides_live_secrets now s b :
  reached s ->
  (Scrub now s b).1 = redact (sortedTargets (live now (secrets s))) b
  /\ (forall k e f, secrets s !! k = Some e -> retired now e = false -> f ∈ forms e -> plain f ->
        ~ occurs f (Scrub now s b).1)
  /\ (forall secret expires, (minSecretLen <= length secret)%nat -> secrets s !! Digest secret = None ->
        0 <= expires -> (expires = 0 \/ now < expires + RegistryRetirementGrace) ->
        secrets (RegisterUntil now secret expires s) !! Digest secret
          = Some (mkEntry (secret :: jsonEscapedForms secret) expires)).
Proof.
  intros Hr.
  assert (Hs : registry_ok s).
  { induction Hr as [|now' secret expires s He _ IH|now' b' s _ IH]; [by split|by apply register_spec|by apply scrub_spec]. }
  destruct (scrub_spec now s b Hs) as [_ Hout]. split; [done|]. split.
  - intros k e f Hk He Hf Hp. rewrite Hout. apply redact_hides; [by eapply live_targets|done].
  - intros secret expires Hlen Hnew He Hexp. unfold RegisterUntil.
    rewrite (proj2 (Nat.ltb_ge _ _) Hlen), Hnew. set (s' := mkRegistry _ _ _ _).
    destruct (note_spec (nextRetire s) expires (ok_positive _ Hs) He) as (N1 & N2 & N3).
    assert (Hs' : registry_ok s').
    { split; cbn; [done| | |done].
      - intros k e' [[_ <-]|[_ Hk]]%lookup_insert_Some; [done|]. by apply (ok_expiry _ Hs k).
      - intros k e' [[_ <-]|[_ Hk]]%lookup_insert_Some Hne; [by apply N2|].
        destruct (ok_retire _ Hs k e' Hk Hne). lia. }
    rewrite (proj2 (prune_spec now s' Hs')). apply map_lookup_filter_Some. split; [apply lookup_insert_eq|].
    unfold retired, IsZero, Before. cbn. destruct Hexp as [->|Hexp]; [done|].
    apply andb_false_iff. right. by apply negb_false_iff, Z.ltb_lt.
Qed.
End register.

(** A secret of six digits that expires. *)
#[local] Instance plain_text : SecretText := {| Digest b := of_bytes b; marshal_text b := b; encode_text b := b |}.
Definition pin : list N := [49; 50; 51; 52; 53; 54]%N.
Definition pinned : RegistryScrubber := RegisterUntil 5 pin 10 NewRegistryScrubber.

Lemma scrub_hides_live_secrets_witness :
  (Scrub 20 pinned (91 :: pin)%N).1 = 91%N :: Redacted /\ ~ occurs pin (Scrub 20 pinned (91 :: pin)%N).1.
Proof.
  split; [vm_compute; reflexivity|].
  apply (scrub_hides_live_secrets 20 pinned (91 :: pin)%N) with (k := of_bytes pin) (e := mkEntry [pin] 10).
  - apply reached_register; [lia|apply reached_new].
  - vm_compute. reflexivity.
  - reflexivity.
  - left.
  - split; [done|]. split; [by apply (bool_decide_unpack _); vm_compute|]. split; [by apply (bool_decide_unpack _); vm_compute|].
    intros (pre & post & H). unfold Redacted in H.
    repeat (destruct pre as [|? pre]; cbn in H; [discriminate H|first [discriminate H|injection H as _ H]]).
Defined.
End Scrub.
