(* ===== verification/JournalEvent.v ===== *)
(** * Journal events

    The event envelope of [internal/journal] ([event.go], [state.go],
    [terminalcause.go]): the fields the modelled code reads, the run phases, and
    the class [EventCodec] of what stands between an event and the bytes of its
    line: [encoding/json], the configured [Scrubber], and the validation and rate
    limit of agent events ([agent.go]), which are left open. *)

From S2P Require Export ByteLog.
Local Open Scope string_scope.
Local Open Scope list_scope.

(** ** Event types

    The taxonomy is open: a type this file does not name is [EventOther]. *)
Inductive EventType :=
| EventRunStarted | EventRunResumed | EventRunFinished
| EventStageStarted | EventStageHeartbeat | EventStageFinished | EventStageRerunRequested
| EventGateStarted | EventGatePaused | EventGateEvaluated | EventGateOverridden
| EventArtifactRecorded | EventSpanRecorded | EventError | EventRepaired
| EventRunnerAnnotation
| EventNotificationRequested | EventNotificationReceipt
| EventOperatorMessageRequested | EventOperatorMessageAcknowledged | EventOperatorMessageOutcome
| EventAgentLifecycle | EventAgentMessage | EventAgentProgress
| EventParallelStarted | EventBranchStarted | EventBranchFinished | EventParallelFinished
| EventMapStarted | EventMapFinished
| EventReviewerStarted | EventReviewerFinished
| EventInitCompleted | EventTriggerFired | EventTickSkipped
| EventClusterCheckCompleted | EventWorkerConfigDivergence | EventConfigReloaded
| EventOther (name : string).
#[export] Instance EventType_eq_dec : EqDecision EventType.
Proof. solve_decision. Defined.

Definition EventSchema : string := "goobers.dev/journal/event/v1".
Definition StateSchema : string := "goobers.dev/journal/state/v1".
Definition TerminalCauseSchema : string := "goobers.dev/journal/terminal-cause/v1".
Definition TargetAbort : string := "@abort".
Definition TargetEscalate : string := "@escalate".
Definition RunDispositionNoWork : string := "no-work".

(** ** Run phases *)
Inductive RunPhase :=
| PhaseRunning | PhaseCompleted | PhaseFailed | PhaseAborted | PhaseEscalated
| PhaseUnknown (name : string).
#[export] Instance RunPhase_eq_dec : EqDecision RunPhase.
Proof. solve_decision. Defined.

Definition run_phase (s : string) : RunPhase :=
  if s =? "running" then PhaseRunning
  else if s =? "completed" then PhaseCompleted
  else if s =? "failed" then PhaseFailed
  else if s =? "aborted" then PhaseAborted
  else if s =? "escalated" then PhaseEscalated
  else PhaseUnknown s.

Definition IsTerminal (p : RunPhase) : bool :=
  match p with
  | PhaseCompleted | PhaseFailed | PhaseAborted | PhaseEscalated => true
  | _ => false
  end.

(** A [run.finished] status that is no terminal phase counts as completed. *)
Definition phaseFromStatus (status : string) : RunPhase :=
  if IsTerminal (run_phase status) then run_phase status else PhaseCompleted.

Definition phaseFromTerminalTarget (target : string) : option RunPhase :=
  if target =? TargetAbort then Some PhaseAborted
  else if target =? TargetEscalate then Some PhaseEscalated
  else None.

(** ** Payload records *)

(** A value of a [map[string]any] annotation: the shapes the modelled code writes
    and reads.  [AnyInt] is a number with an integer value, whichever Go type holds
    it, and [AnyFloat] any other float64, by its bits. *)
Inductive Any :=
| AnyString (s : string) | AnyInt (z : Z) | AnyBool (b : bool) | AnyFloat (bits : Z)
| AnyStrings (l : list string)
| AnyRecords (l : list (list (string * string))).
#[export] Instance Any_eq_dec : EqDecision Any.
Proof. solve_decision. Defined.
#[export] Instance Any_countable : Countable Any.
Proof.
  refine (inj_countable'
    (fun a => match a with
              | AnyString s => inl s | AnyInt z => inr (inl z) | AnyBool b => inr (inr (inl b))
              | AnyStrings l => inr (inr (inr (inl l))) | AnyRecords l => inr (inr (inr (inr (inl l))))
              | AnyFloat x => inr (inr (inr (inr (inr x))))
              end)
    (fun c => match c with
              | inl s => AnyString s | inr (inl z) => AnyInt z | inr (inr (inl b)) => AnyBool b
              | inr (inr (inr (inl l))) => AnyStrings l | inr (inr (inr (inr (inl l)))) => AnyRecords l
              | inr (inr (inr (inr (inr x)))) => AnyFloat x
              end) _).
  by intros [].
Defined.

Record ErrorDetail := mkErrorDetail { ed_Code : string; ed_Message : string }.
#[export] Instance ErrorDetail_eq_dec : EqDecision ErrorDetail.
Proof. solve_decision. Defined.

Record TerminalBudget := mkTerminalBudget { tb_Consumed : Z; tb_Allowed : Z }.
#[export] Instance TerminalBudget_eq_dec : EqDecision TerminalBudget.
Proof. solve_decision. Defined.

Definition TerminalDefinedAbort : string := "defined-abort".
Definition TerminalOperatorAbort : string := "operator-abort".

Record TerminalCause := mkTerminalCause {
  tc_Schema : string;
  tc_Phase : RunPhase;
  tc_Classification : string;
  tc_SelectorKind : string;
  tc_Selector : string;
  tc_Branch : Z;
  tc_Verdict : string;
  tc_Target : string;
  tc_Retry : option TerminalBudget;
  tc_Poll : option TerminalBudget;
  tc_Repass : option TerminalBudget;
  tc_Code : string;
  tc_Message : string;
  tc_CausalEventSeq : N
}.
#[export] Instance TerminalCause_eq_dec : EqDecision TerminalCause.
Proof. solve_decision. Defined.

(** ** Events

    [ev_PayloadSet] says that the typed payload pointers the event's type
    requires ([MapRoster] with its items, [NotificationRequest], ...) are set;
    their contents are not read by the code modelled here. *)
Record Event := mkEvent {
  ev_Schema : string;
  ev_Seq : N;
  ev_Type : EventType;
  ev_Branch : Z;
  ev_Time : Z;
  ev_Stage : string;
  ev_AttemptClass : string;
  ev_Gate : string;
  ev_Verdict : string;
  ev_Target : string;
  ev_Status : string;
  ev_Disposition : string;
  ev_TerminalCause : option TerminalCause;
  ev_Rationale : string;
  ev_Error : option ErrorDetail;
  ev_Runner : gmap string Any;
  ev_PayloadSet : bool;
  ev_Parallel : string;
  ev_BranchName : string;
  ev_MapItemIdentity : string;
  ev_MapItemDigest : string;
  ev_BranchStatus : string;
  ev_Workflow : string;
  ev_Gaggle : string;
  ev_RunID : string;
  ev_Reason : string;
  ev_Actor : string;
  ev_Escalated : bool;
  ev_Attempt : Z
}.
#[export] Instance Event_eq_dec : EqDecision Event.
Proof. solve_decision. Defined.

(** The zero event with a type, as [Event{Type: t}]. *)
Definition zero_event (t : EventType) : Event :=
  mkEvent "" 0 t 0 0 "" "" "" "" "" "" "" None "" None ∅ false "" "" "" "" "" "" "" "" "" "" false 0.

Definition KnownSchema (e : Event) : bool := ev_Schema e =? EventSchema.

Definition set_Branch (b : Z) (e : Event) : Event :=
  mkEvent (ev_Schema e) (ev_Seq e) (ev_Type e) b (ev_Time e) (ev_Stage e) (ev_AttemptClass e)
    (ev_Gate e) (ev_Verdict e) (ev_Target e) (ev_Status e) (ev_Disposition e) (ev_TerminalCause e)
    (ev_Rationale e) (ev_Error e) (ev_Runner e) (ev_PayloadSet e) (ev_Parallel e) (ev_BranchName e)
    (ev_MapItemIdentity e) (ev_MapItemDigest e) (ev_BranchStatus e) (ev_Workflow e) (ev_Gaggle e)
    (ev_RunID e) (ev_Reason e) (ev_Actor e) (ev_Escalated e) (ev_Attempt e).

(** Sequence, schema and time are assigned by the journal. *)
Definition stamp (seq : N) (now : Z) (e : Event) : Event :=
  mkEvent EventSchema seq (ev_Type e) (ev_Branch e) now (ev_Stage e) (ev_AttemptClass e)
    (ev_Gate e) (ev_Verdict e) (ev_Target e) (ev_Status e) (ev_Disposition e) (ev_TerminalCause e)
    (ev_Rationale e) (ev_Error e) (ev_Runner e) (ev_PayloadSet e) (ev_Parallel e) (ev_BranchName e)
    (ev_MapItemIdentity e) (ev_MapItemDigest e) (ev_BranchStatus e) (ev_Workflow e) (ev_Gaggle e)
    (ev_RunID e) (ev_Reason e) (ev_Actor e) (ev_Escalated e) (ev_Attempt e).

(** The corrective event a repair of a torn tail leaves. *)
Definition repaired_event (tornBytes : nat) : Event :=
  mkEvent "" 0 EventRepaired 0 0 "" "" "" "" "" "" "" None "" None
    {[ "discardedBytes" := AnyInt (Z.of_nat tornBytes) ]} false "" "" "" "" "" "" "" "" "" "" false 0.

(** ** From events to lines *)

Class EventCodec := {
  json_Marshal : Event -> list N;
  json_Unmarshal : list N -> option Event;
  (** the scrubber of the journal as it is at a time: secrets are registered and retired *)
  Scrub : Z -> list N -> list N;
  ValidateAgentEvent : Event -> bool;
  validateAgentProgressRate : list Event -> Event -> Z -> bool
}.

(** [marshalEvent]: the requirements of a type on its payload, then the JSON
    object. *)
Definition marshalEvent `{EventCodec} (ev : Event) : option (list N) :=
  match ev_Type ev with
  | EventGateOverridden => if ev_Target ev =? "" then None else Some (json_Marshal ev)
  | EventMapStarted =>
      if negb (ev_PayloadSet ev) || (ev_Parallel ev =? "") then None else Some (json_Marshal ev)
  | EventNotificationRequested | EventNotificationReceipt
  | EventOperatorMessageRequested | EventOperatorMessageAcknowledged | EventOperatorMessageOutcome =>
      if ev_PayloadSet ev then Some (json_Marshal ev) else None
  | EventAgentLifecycle | EventAgentMessage | EventAgentProgress =>
      if ValidateAgentEvent ev then Some (json_Marshal ev) else None
  | _ => Some (json_Marshal ev)
  end.

(** What the reading side relies on of [encoding/json]: the empty text and a text
    that starts with a NUL are no JSON values.  Nothing is assumed of [Scrub]: the
    interface [Scrubber] of [scrub.go] asks for a pure function of the bytes, and
    which of its lines can be read back is the predicate [survives] below.  Its
    registry changes while a run goes on, so the time of the append is an argument. *)
Class JSONLaws (C : EventCodec) := {
  nul_is_not_json l : json_Unmarshal (nul :: l) = None;
  empty_is_not_json : json_Unmarshal [] = None
}.

Lemma marshalEvent_Some `{EventCodec} ev line :
  marshalEvent ev = Some line -> line = json_Marshal ev.
Proof. unfold marshalEvent. destruct (ev_Type ev); repeat case_match; congruence. Qed.

(** ** The event log of a run

    [internal/journal/eventlog.go], [reader.go], [run.go] and [branchcursor.go]:
    reading a log, appending to it, repairing its tail and reopening it after a
    crash.  A run directory is the bytes of [events.jsonl] and the checkpoint
    [state.json]; a writer is the record [Run].  Every method holds the writer's
    mutex throughout and is one function; what the disk does to each write it
    makes is an argument. *)

Inductive journal_error :=
| ErrClosed
| ErrAppendBlocked
| ErrMarshal
| ErrTooLarge
| ErrWrite
| ErrCorrupt
| ErrScan
| ErrSchema
| ErrPrepare
| ErrRateLimited
| ErrCheckpoint
| ErrPruning.

(** ** Reading *)

Definition maxEventBytes : N := 8 * 1024 * 1024.

Section reader.
Context `{EventCodec}.

(** One scanned line: [None] is crash fill, which is skipped. *)
Definition parse_line (raw : list N) : result journal_error (option Event) :=
  let line := clean_line raw in
  if (length line =? 0)%nat then Ok None
  else match json_Unmarshal line with
       | None => Error ErrCorrupt
       | Some ev => Ok (Some ev)
       end.

(** The line an event is committed as, and what a reader makes of it. *)
Definition encoded (ev : Event) : list N := Scrub (ev_Time ev) (json_Marshal ev).
Definition redacted (ev : Event) : Event :=
  match parse_line (encoded ev) with Ok (Some ev') => ev' | _ => ev end.

(** The scrubbed line of an event is still one line that reads back, with the
    sequence, schema, type and time of the event.  A scrubber works on the raw
    bytes, so this can fail: a registered secret may occur in the digits of the
    envelope, or a pattern may match across the fields of the object. *)
Definition survives (ev : Event) : bool :=
  forallb (fun b => negb (b =? newline)%N) (encoded ev)
  && match parse_line (encoded ev) with
     | Ok (Some ev') =>
         (ev_Seq ev' =? ev_Seq ev)%N && (ev_Schema ev' =? ev_Schema ev)
         && bool_decide (ev_Type ev' = ev_Type ev) && (ev_Time ev' =? ev_Time ev)%Z
     | _ => false
     end.

(** The scanner refuses a line that does not fit its buffer with its newline. *)
Definition too_long (raw : list N) : bool := (maxEventBytes <? N.of_nat (length raw) + 1)%N.

Fixpoint scan_lines (ls : list (list N)) : result journal_error (list Event) :=
  match ls with
  | [] => Ok []
  | raw :: ls' =>
      if too_long raw then Error ErrScan
      else match parse_line raw with
           | Error e => Error e
           | Ok None => scan_lines ls'
           | Ok (Some ev) =>
               match scan_lines ls' with Ok evs => Ok (ev :: evs) | Error e => Error e end
           end
  end.

(** The lines of a newline-terminated slice, by repeated [IndexByte]. *)
Fixpoint split_lines (fuel : nat) (data : list N) : list (list N) :=
  match fuel with
  | O => []
  | S n =>
      match IndexByte newline data with
      | None => []
      | Some i => take i data :: split_lines n (drop (S i) data)
      end
  end.

Definition parseEventRecords (data : list N) : result journal_error (list Event * nat) :=
  let '(complete, tail) :=
    match LastIndexByte newline data with
    | Some nl => (take (S nl) data, drop (S nl) data)
    | None => ([], data)
    end in
  match scan_lines (split_lines (length complete) complete) with
  | Ok evs => Ok (evs, length tail)
  | Error e => Error e
  end.

Definition validateEventSchemas (events : list Event) : result journal_error unit :=
  if forallb KnownSchema events then Ok () else Error ErrSchema.

(** A missing file reads as an empty one. *)
Definition readEvents (data : list N) : result journal_error (list Event * nat) :=
  match parseEventRecords data with
  | Error e => Error e
  | Ok (events, torn) =>
      match validateEventSchemas events with Ok _ => Ok (events, torn) | Error e => Error e end
  end.

Definition highestEventSeq (events : list Event) : N :=
  fold_left (fun highest ev => if (highest <? ev_Seq ev)%N then ev_Seq ev else highest) events 0%N.

Definition truncateTornTail (data : list N) (tornBytes : nat) : list N :=
  if (tornBytes =? 0)%nat then data else take (length data - tornBytes) data.

(** ** Appending *)

(** The fate of one write and the sync after it: durable, or an error with some
    of the bytes in the file, possibly followed by the zero fill of a file the
    crash extended.  A failed sync is [WriteFailed] with all the bytes. *)
Inductive write_fate := WriteDone | WriteFailed (written fill : nat).

Definition write_bytes (fate : write_fate) (data line : list N) : list N :=
  match fate with
  | WriteDone => data ++ line
  | WriteFailed k fill => data ++ take k line ++ repeat nul fill
  end.

(** [appendEvent]: the result, the sequence counter and the file. *)
Definition appendEvent (fate : write_fate) (now : Z) (data : list N) (seq : N) (ev : Event)
    : result journal_error Event * N * list N :=
  let seq' := (seq + 1)%N in
  let ev' := stamp seq' now ev in
  match marshalEvent ev' with
  | None => (Error ErrMarshal, seq, data)
  | Some line =>
      let line := Scrub (ev_Time ev') line in
      if (maxEventBytes <? N.of_nat (length line) + 1)%N then (Error ErrTooLarge, seq, data)
      else
        let data' := write_bytes fate data (line ++ [newline]) in
        match fate with
        | WriteDone => (Ok ev', seq', data')
        | WriteFailed _ _ => (Error ErrWrite, seq', data')
        end
  end.
End reader.

(** ** Branch cursors *)

Record BranchCursor := mkBranchCursor {
  bc_Branch : Z;
  bc_Name : string;
  bc_Parallel : string;
  bc_ItemIdentity : string;
  bc_ItemDigest : string;
  bc_MachineState : string;
  bc_Status : string
}.
#[export] Instance BranchCursor_eq_dec : EqDecision BranchCursor.
Proof. solve_decision. Defined.

Definition set_MachineState (s : string) (c : BranchCursor) : BranchCursor :=
  mkBranchCursor (bc_Branch c) (bc_Name c) (bc_Parallel c) (bc_ItemIdentity c) (bc_ItemDigest c)
    s (bc_Status c).

(** The fan-out that started and has not finished, with the type that ends it. *)
Definition open_step (st : string * option EventType) (e : Event) : string * option EventType :=
  let '(openParallel, openFinish) := st in
  match ev_Type e with
  | EventParallelStarted => (ev_Parallel e, Some EventParallelFinished)
  | EventMapStarted => (ev_Parallel e, Some EventMapFinished)
  | EventParallelFinished | EventMapFinished =>
      if bool_decide (Some (ev_Type e) = openFinish) && (ev_Parallel e =? openParallel)
      then ("", openFinish) else st
  | _ => st
  end.

Definition open_fanout (events : list Event) : string :=
  fst (fold_left open_step events ("", None)).

(** One event of the second pass, on the cursors by branch id. *)
Definition cursor_step (openParallel : string) (byID : gmap Z BranchCursor) (e : Event)
    : gmap Z BranchCursor :=
  if negb (ev_Parallel e =? openParallel) && (ev_Branch e =? 0)%Z then byID
  else match ev_Type e with
  | EventBranchStarted =>
      if negb (ev_Parallel e =? openParallel) then byID
      else <[ev_Branch e := mkBranchCursor (ev_Branch e) (ev_BranchName e) (ev_Parallel e)
               (ev_MapItemIdentity e) (ev_MapItemDigest e) (ev_Stage e) ""]> byID
  | EventBranchFinished =>
      if negb (ev_Parallel e =? openParallel) then byID
      else match byID !! ev_Branch e with
      | Some c => <[ev_Branch e := mkBranchCursor (bc_Branch c) (bc_Name c) (bc_Parallel c)
                      (bc_ItemIdentity c) (bc_ItemDigest c) "" (ev_BranchStatus e)]> byID
      | None => byID
      end
  | EventStageStarted | EventGateEvaluated =>
      match byID !! ev_Branch e with
      | Some c =>
          if bc_Status c =? "" then
            if negb (ev_Stage e =? "") then <[ev_Branch e := set_MachineState (ev_Stage e) c]> byID
            else if negb (ev_Gate e =? "") then <[ev_Branch e := set_MachineState (ev_Gate e) c]> byID
            else byID
          else byID
      | None => byID
      end
  | _ => byID
  end.

Definition reconstructBranchCursors (events : list Event) : option (list BranchCursor) :=
  let openParallel := open_fanout events in
  if openParallel =? "" then None
  else
    let byID := fold_left (cursor_step openParallel) events ∅ in
    if (size byID =? 0)%nat then None
    else Some (omap (fun id => byID !! id) (sort_by Z.leb (map fst (map_to_list byID)))).
