(* ===== verification/JournalPhase.v ===== *)
(** * The phase of a run

    [internal/journal/reader.go] and [runphasetail.go]: the phase a log implies,
    whether it ends parked at a gate, and the bounded scans that answer from the
    end of the file.  The loops over events run from the newest to the oldest
    and are written on the reversed log. *)

From S2P Require Export JournalEvent.
Local Open Scope string_scope.
Local Open Scope list_scope.

(** ** Phase *)

(** Was the [gate.evaluated] of [gate] on [branch] produced by the runner
    executing the gate?  [older] holds the events before it, newest first. *)
Fixpoint terminalGateExecuted (gate : string) (branch : Z) (older : list Event) : bool :=
  match older with
  | [] => true
  | ev :: older' =>
      if negb (ev_Branch ev =? branch)%Z then terminalGateExecuted gate branch older'
      else if negb (ev_Gate ev =? gate) then
        match ev_Type ev with
        | EventGatePaused | EventGateStarted => terminalGateExecuted gate branch older'
        | _ => true
        end
      else match ev_Type ev with
        | EventGateStarted => true
        | EventGatePaused => false
        | EventGateEvaluated => true
        | _ => terminalGateExecuted gate branch older'
        end
  end.

Fixpoint reconstruct_scan (newest : list Event) : RunPhase :=
  match newest with
  | [] => PhaseRunning
  | ev :: older =>
      match ev_Type ev with
      | EventStageRerunRequested | EventRunResumed | EventGateOverridden => PhaseRunning
      | EventRunFinished => phaseFromStatus (ev_Status ev)
      | EventGateEvaluated =>
          match phaseFromTerminalTarget (ev_Target ev) with
          | Some phase =>
              if negb (terminalGateExecuted (ev_Gate ev) (ev_Branch ev) older) then PhaseRunning
              else phase
          | None => reconstruct_scan older
          end
      | _ => reconstruct_scan older
      end
  end.
Definition reconstructPhase (events : list Event) : RunPhase := reconstruct_scan (rev events).

Fixpoint reason_scan (newest : list Event) : string :=
  match newest with
  | [] => ""
  | ev :: older =>
      match ev_Type ev with
      | EventStageRerunRequested | EventRunResumed | EventGateOverridden => ""
      | EventRunFinished => match ev_Error ev with Some e => ed_Message e | None => "" end
      | _ => reason_scan older
      end
  end.
Definition reconstructReason (events : list Event) : string := reason_scan (rev events).

Fixpoint resume_scan (newest : list Event) : option Event :=
  match newest with
  | [] => None
  | ev :: older =>
      match ev_Type ev with
      | EventRunResumed | EventGateOverridden => Some ev
      | EventRunFinished => None
      | _ => resume_scan older
      end
  end.
Definition latestActiveResume (events : list Event) : option Event := resume_scan (rev events).

(** ** Parking *)

Definition gateParkingEffect (ev : Event) : option bool :=
  match ev_Type ev with
  | EventGatePaused => Some true
  | EventGateStarted | EventGateEvaluated | EventGateOverridden
  | EventRunStarted | EventRunResumed | EventRunFinished
  | EventStageStarted | EventStageFinished | EventStageRerunRequested
  | EventParallelStarted | EventParallelFinished | EventMapStarted | EventMapFinished
  | EventBranchStarted | EventBranchFinished => Some false
  | _ => None
  end.

Fixpoint parked_scan (newest : list Event) : bool :=
  match newest with
  | [] => false
  | ev :: older => match gateParkingEffect ev with Some parked => parked | None => parked_scan older end
  end.
Definition ParkedAtGate (events : list Event) : bool := parked_scan (rev events).
Definition GateParkingAfter (prior : bool) (ev : Event) : bool := default prior (gateParkingEffect ev).

(** ** Terminal causes *)

Fixpoint cause_scan (newest : list Event) : option TerminalCause :=
  match newest with
  | [] => None
  | e :: older =>
      if negb (KnownSchema e) then cause_scan older
      else match ev_Type e with
      | EventRunResumed | EventGateOverridden | EventStageRerunRequested => None
      | EventRunFinished =>
          match ev_TerminalCause e with
          | Some c => if tc_Schema c =? TerminalCauseSchema then Some c else None
          | None => None
          end
      | _ => cause_scan older
      end
  end.
Definition TerminalCauseFromEvents (events : list Event) : option TerminalCause :=
  cause_scan (rev events).

(** ** Bounded scans *)

Section tail.
Context `{EventCodec}.

(** Peel the last line off [buf]: the line and what precedes its newline. *)
Definition last_line (atFileStart : bool) (buf : list N) : option (list N * list N) :=
  match LastIndexByte newline buf with
  | None => if atFileStart then Some (buf, []) else None
  | Some nl => Some (drop (S nl) buf, take nl buf)
  end.

(** The pending terminal gate of the scan: its name, branch and phase. *)
Definition terminal_gate : Type := string * Z * RunPhase.

(** [decisivePhaseInChunkContext]; [None] is found = false. *)
Fixpoint decisive_phase (fuel : nat) (atFileStart : bool) (gate : option terminal_gate) (buf : list N)
    : result journal_error (option RunPhase) :=
  let at_end := match gate with
                | Some (_, _, phase) => if atFileStart then Some phase else None
                | None => None
                end in
  match fuel with
  | O => Ok at_end
  | S n =>
      if (length buf =? 0)%nat then Ok at_end
      else match last_line atFileStart buf with
      | None => Ok at_end
      | Some (raw, buf') =>
          match parse_line raw with
          | Error e => Error e
          | Ok None => decisive_phase n atFileStart gate buf'
          | Ok (Some ev) =>
              match gate with
              | Some (g, branch, phase) =>
                  if negb (ev_Branch ev =? branch)%Z then decisive_phase n atFileStart gate buf'
                  else if negb (ev_Gate ev =? g) then
                    match ev_Type ev with
                    | EventGatePaused | EventGateStarted => decisive_phase n atFileStart gate buf'
                    | _ => Ok (Some phase)
                    end
                  else match ev_Type ev with
                    | EventGateStarted | EventGateEvaluated => Ok (Some phase)
                    | EventGatePaused => Ok (Some PhaseRunning)
                    | _ => decisive_phase n atFileStart gate buf'
                    end
              | None =>
                  match ev_Type ev with
                  | EventStageRerunRequested | EventRunResumed | EventGateOverridden =>
                      Ok (Some PhaseRunning)
                  | EventRunFinished => Ok (Some (phaseFromStatus (ev_Status ev)))
                  | EventGateEvaluated =>
                      match phaseFromTerminalTarget (ev_Target ev) with
                      | Some phase =>
                          decisive_phase n atFileStart (Some (ev_Gate ev, ev_Branch ev, phase)) buf'
                      | None => decisive_phase n atFileStart None buf'
                      end
                  | _ => decisive_phase n atFileStart None buf'
                  end
              end
          end
      end
  end.

Definition decisivePhaseInChunk (buf : list N) (atFileStart : bool)
    : result journal_error (option RunPhase) :=
  decisive_phase (length buf) atFileStart None buf.

(** The torn region, once it is known: the bytes after the last newline of the
    window, or the whole file. *)
Definition torn_region (window : list N) (start : nat) (known : option nat) : option nat :=
  match known with
  | Some t => Some t
  | None =>
      match LastIndexByte newline window with
      | Some nl => Some (length window - S nl)%nat
      | None => if (start =? 0)%nat then Some (length window) else None
      end
  end.

(** What a bounded scan reports: an answer, an exhausted budget, or an error. *)
Inductive tail_answer (A : Type) := Decided (a : A) | BudgetExhausted | TailFailed (e : journal_error).
Arguments Decided {A} _.
Arguments BudgetExhausted {A}.
Arguments TailFailed {A} _.

(** The loop of both bounded scans: extend the window backwards by a chunk,
    growing the step up to [maxChunk], and try [scan] on its complete part,
    until an answer, the start of the file or the budget.  The answer comes with
    the size of the torn region and of the window. *)
Section loop.
Context {A : Type} (scan : list N -> bool -> result journal_error (option A))
        (maxChunk budget : N) (file : list N).

Fixpoint tail_loop (fuel : nat) (start chunkSize : N) (known : option nat) (window : list N)
    : tail_answer (option A * nat * nat) :=
  match fuel with
  | O => Decided (None, default O known, length window)
  | S n =>
      if (start =? 0)%N then Decided (None, default O known, length window)
      else
        let chunkStart := (start - chunkSize)%N in
        let chunk := take (N.to_nat (start - chunkStart)) (drop (N.to_nat chunkStart) file) in
        let window := chunk ++ window in
        let chunkSize := if (chunkSize <? maxChunk)%N then (chunkSize * 2)%N else chunkSize in
        let known := torn_region window (N.to_nat chunkStart) known in
        let found := match known with
                     | Some tail => scan (take (length window - tail) window) (chunkStart =? 0)%N
                     | None => Ok None
                     end in
        match found with
        | Error e => TailFailed e
        | Ok (Some a) => Decided (Some a, default O known, length window)
        | Ok None =>
            if (chunkStart =? 0)%N then Decided (None, default O known, length window)
            else if (budget <=? N.of_nat (length window))%N then BudgetExhausted
            else tail_loop n chunkStart chunkSize known window
        end
  end.

Definition tail_scan (chunkSize : N) : tail_answer (option A * nat * nat) :=
  tail_loop (length file) (N.of_nat (length file)) chunkSize None [].
End loop.

Definition runPhaseTailBudget : N := maxEventBytes.
Definition runPhaseChunkSize : N := 16 * 1024.
Definition runPhaseMaxChunkSize : N := 1024 * 1024.

(** A scan of the whole file without a decisive record is decided: running. *)
Definition tailPhase_with (chunk maxChunk budget : N) (file : list N) : tail_answer RunPhase :=
  match tail_scan decisivePhaseInChunk maxChunk budget file chunk with
  | Decided (found, _, _) => Decided (default PhaseRunning found)
  | BudgetExhausted => BudgetExhausted
  | TailFailed e => TailFailed e
  end.
Definition tailPhase : list N -> tail_answer RunPhase :=
  tailPhase_with runPhaseChunkSize runPhaseMaxChunkSize runPhaseTailBudget.

(** The fallback reads forward: the records of each chunk update the phase. *)
Definition lifecycle_phase (phase : RunPhase) (ev : Event) : RunPhase :=
  match ev_Type ev with
  | EventStageRerunRequested | EventRunResumed | EventGateOverridden => PhaseRunning
  | EventRunFinished => phaseFromStatus (ev_Status ev)
  | _ => phase
  end.

Fixpoint forward_lines (fuel : nat) (phase : RunPhase) (pending : list N)
    : result journal_error (RunPhase * list N) :=
  match fuel with
  | O => Ok (phase, pending)
  | S n =>
      match IndexByte newline pending with
      | None => Ok (phase, pending)
      | Some nl =>
          match parse_line (take nl pending) with
          | Error e => Error e
          | Ok None => forward_lines n phase (drop (S nl) pending)
          | Ok (Some ev) => forward_lines n (lifecycle_phase phase ev) (drop (S nl) pending)
          end
      end
  end.

Fixpoint forward_reads (phase : RunPhase) (pending : list N) (reads : list (list N))
    : result journal_error RunPhase :=
  match reads with
  | [] => Ok phase
  | chunk :: reads' =>
      match forward_lines (S (length (pending ++ chunk))) phase (pending ++ chunk) with
      | Error e => Error e
      | Ok (phase', pending') =>
          if (maxEventBytes <? N.of_nat (length pending'))%N then Error ErrScan
          else forward_reads phase' pending' reads'
      end
  end.

(** [phaseFromReaderContext], given what each read returned. *)
Definition phaseFromReader (reads : list (list N)) : result journal_error RunPhase :=
  forward_reads PhaseRunning [] reads.

(** [PhaseBounded], and [Phase], which reads the whole log. *)
Definition PhaseBounded_with (chunk maxChunk budget : N) (file : list N) (reads : list (list N))
    : result journal_error RunPhase :=
  match tailPhase_with chunk maxChunk budget file with
  | Decided phase => Ok phase
  | TailFailed e => Error e
  | BudgetExhausted => phaseFromReader reads
  end.
Definition PhaseBounded : list N -> list (list N) -> result journal_error RunPhase :=
  PhaseBounded_with runPhaseChunkSize runPhaseMaxChunkSize runPhaseTailBudget.

Definition Phase (file : list N) : result journal_error RunPhase :=
  match readEvents file with
  | Ok (events, _) => Ok (reconstructPhase events)
  | Error e => Error e
  end.
End tail.
Arguments Decided {A} _.
Arguments BudgetExhausted {A}.
Arguments TailFailed {A} _.
