(* ===== verification/JournalLogFacts.v ===== *)
(** * Facts on reading and extending a log

    A log is a frame: [unlines ls ++ tail].  This file computes the readers on
    frames and the frame an append leaves behind. *)

From S2P Require Export JournalPhase.
Local Open Scope list_scope.

Section facts.
Context `{C : EventCodec}.

(** ** Reading a frame *)

Lemma split_lines_unlines fuel ls :
  Forall no_newline ls -> (length ls <= fuel)%nat -> split_lines fuel (unlines ls) = ls.
Proof.
  revert fuel. induction ls as [|l ls IH]; intros fuel Hls Hf.
  - destruct fuel; done.
  - destruct fuel as [|fuel]; [cbn in Hf; lia|]. inversion_clear Hls.
    cbn [split_lines]. rewrite unlines_cons, IndexByte_app by done.
    rewrite take_app_length. f_equal.
    rewrite (app_assoc l [newline] (unlines ls) : l ++ newline :: unlines ls = (l ++ [newline]) ++ unlines ls).
    replace (S (length l)) with (length (l ++ [newline])) by (rewrite length_app; cbn; lia).
    rewrite drop_app_length. apply IH; [done|]. cbn in Hf. lia.
Qed.

Lemma length_unlines ls : (length ls <= length (unlines ls))%nat.
Proof. induction ls; [done|]. rewrite unlines_cons, length_app. cbn. lia. Qed.

Lemma parse_frame ls t :
  Forall no_newline ls -> no_newline t ->
  parseEventRecords (unlines ls ++ t) =
    match scan_lines ls with Ok evs => Ok (evs, length t) | Error e => Error e end.
Proof.
  intros Hls Ht. unfold parseEventRecords. destruct (decide (ls = [])) as [->|Hne].
  - cbn. apply LastIndexByte_None in Ht. by rewrite Ht.
  - destruct (LastIndexByte_unlines ls t Hne Ht) as (init & last & Hsp & Heq & Hidx).
    rewrite Hidx. assert (Hlen : S (length (unlines init ++ last)) = length (unlines ls)).
    { rewrite Hsp, unlines_snoc, !length_app. cbn. lia. }
    rewrite Hlen, take_app_length, drop_app_length.
    rewrite split_lines_unlines; [done|done|apply length_unlines].
Qed.

(** The events of complete lines. *)
Definition lines_hold (ls : list (list N)) (evs : list Event) : Prop :=
  Forall no_newline ls /\ scan_lines ls = Ok evs.

Lemma scan_lines_app ls ls' :
  scan_lines (ls ++ ls') =
    match scan_lines ls with
    | Error e => Error e
    | Ok evs => match scan_lines ls' with Ok evs' => Ok (evs ++ evs') | Error e => Error e end
    end.
Proof.
  induction ls as [|l ls IH]; cbn; [by destruct (scan_lines ls')|].
  destruct (too_long l); [done|]. destruct (parse_line l) as [[ev|]|]; [|apply IH|done].
  rewrite IH. destruct (scan_lines ls); [|done]. by destruct (scan_lines ls').
Qed.

Lemma lines_hold_app ls ls' evs :
  lines_hold (ls ++ ls') evs <->
  exists evs1 evs2, evs = evs1 ++ evs2 /\ lines_hold ls evs1 /\ lines_hold ls' evs2.
Proof.
  unfold lines_hold. rewrite Forall_app, scan_lines_app. split.
  - intros [[H1 H2] Hs]. destruct (scan_lines ls) as [e1|]; [|done].
    destruct (scan_lines ls') as [e2|]; [|done]. simplify_eq. eauto 10.
  - intros (e1 & e2 & -> & [H1 Hs1] & [H2 Hs2]). by rewrite Hs1, Hs2.
Qed.

Lemma lines_hold_nil evs : lines_hold [] evs <-> evs = [].
Proof. unfold lines_hold. cbn. split; [intros [_ [= <-]]; done|intros ->; by split]. Qed.

Lemma scan_lines_one l evs :
  scan_lines [l] = Ok evs -> exists o, parse_line l = Ok o /\ evs = match o with Some e => [e] | None => [] end.
Proof.
  cbn. destruct (too_long l); [done|]. destruct (parse_line l) as [[e|]|]; intros [= <-]; eauto.
Qed.

(** ** Well-formed logs *)

(** The complete records of [file] hold [evs], all of this schema, and
    [tail] is its torn region. *)
Definition log_holds (file : list N) (evs : list Event) (tail : list N) : Prop :=
  exists ls, file = unlines ls ++ tail /\ no_newline tail /\ lines_hold ls evs /\
    Forall (fun e => KnownSchema e = true) evs.

Lemma log_holds_read file evs tail :
  log_holds file evs tail -> readEvents file = Ok (evs, length tail).
Proof.
  intros (ls & -> & Ht & [Hls Hs] & Hk). unfold readEvents. rewrite parse_frame by done.
  rewrite Hs. unfold validateEventSchemas.
  assert (forallb KnownSchema evs = true) as ->; [|done].
  apply forallb_forall. intros x Hx%list_elem_of_In. by eapply Forall_forall in Hk.
Qed.

Lemma readEvents_log_holds file evs n :
  readEvents file = Ok (evs, n) -> exists tail, log_holds file evs tail /\ n = length tail.
Proof.
  destruct (frame_exists file) as (ls & tail & -> & Hls & Ht).
  unfold readEvents. rewrite parse_frame by done.
  destruct (scan_lines ls) as [evs'|] eqn:Hs; [|done].
  unfold validateEventSchemas. destruct (forallb KnownSchema evs') eqn:Hk; [|done].
  intros [= <- <-]. exists tail. split; [|done]. exists ls. split; [done|]. split; [done|].
  split; [by split|]. apply Forall_forall. intros x Hx.
  rewrite forallb_forall in Hk. apply Hk. by apply list_elem_of_In.
Qed.

Lemma log_holds_inj file evs evs' t t' :
  log_holds file evs t -> log_holds file evs' t' -> evs = evs' /\ t = t'.
Proof.
  intros (ls & -> & Ht & [Hls Hs] & _) (ls' & Heq & Ht' & [Hls' Hs'] & _).
  apply frame_inj in Heq as [<- <-]; [|done..]. split; congruence.
Qed.

Lemma log_holds_nil : log_holds [] [] [].
Proof. exists []. split; [done|]. split; [unfold no_newline; set_solver|]. split; [by split|done]. Qed.

Lemma truncate_holds file evs tail :
  log_holds file evs tail -> log_holds (truncateTornTail file (length tail)) evs [].
Proof.
  intros (ls & -> & Ht & Hl & Hk). unfold truncateTornTail.
  assert (Hres : (if (length tail =? 0)%nat then unlines ls ++ tail
                  else take (length (unlines ls ++ tail) - length tail) (unlines ls ++ tail)) = unlines ls ++ []).
  { destruct (Nat.eqb_spec (length tail) 0) as [H0|_].
    - apply nil_length_inv in H0. by subst.
    - rewrite length_app. replace (_ + _ - _)%nat with (length (unlines ls)) by lia.
      by rewrite take_app_length, app_nil_r. }
  rewrite Hres. exists ls. split; [done|]. split; [unfold no_newline; set_solver|]. done.
Qed.

(** Bytes without a newline only extend the torn region. *)
Lemma log_holds_torn file evs tail junk :
  log_holds file evs tail -> no_newline junk -> log_holds (file ++ junk) evs (tail ++ junk).
Proof.
  intros (ls & -> & Ht & Hl & Hk) Hj. exists ls. rewrite app_assoc. split; [done|].
  split; [by apply no_newline_app|]. done.
Qed.
End facts.

Section appending.
Context `{C : EventCodec}.

(** What a line that survived the scrubber holds. *)
Record kept (ev : Event) : Prop := {
  kept_line : no_newline (encoded ev);
  kept_read : parse_line (encoded ev) = Ok (Some (redacted ev));
  kept_Seq : ev_Seq (redacted ev) = ev_Seq ev;
  kept_Schema : ev_Schema (redacted ev) = ev_Schema ev;
  kept_Type : ev_Type (redacted ev) = ev_Type ev;
  kept_Time : ev_Time (redacted ev) = ev_Time ev
}.

Lemma survives_kept ev : survives ev = true -> kept ev.
Proof.
  unfold survives. intros [Hn Hp]%andb_true_iff.
  destruct (parse_line (encoded ev)) as [[ev'|]|] eqn:E; try done.
  assert (Hr : redacted ev = ev') by (unfold redacted; by rewrite E).
  apply andb_true_iff in Hp as [[[Hq%N.eqb_eq Hs%String.eqb_eq]%andb_true_iff Ht%bool_decide_eq_true]%andb_true_iff Hm%Z.eqb_eq].
  split; rewrite ?Hr; try done. unfold no_newline. intros Hin%list_elem_of_In.
  rewrite forallb_forall in Hn. apply Hn in Hin. by rewrite N.eqb_refl in Hin.
Qed.

Lemma lines_hold_encoded ev :
  survives ev = true -> (N.of_nat (length (encoded ev)) + 1 <= maxEventBytes)%N -> lines_hold [encoded ev] [redacted ev].
Proof.
  intros Hs%survives_kept Hlen. split; [constructor; [apply (kept_line _ Hs)|constructor]|].
  cbn [scan_lines]. unfold too_long. rewrite (proj2 (N.ltb_ge _ _)) by lia. by rewrite (kept_read _ Hs).
Qed.

Lemma KnownSchema_stamp seq now ev :
  survives (stamp seq now ev) = true -> KnownSchema (redacted (stamp seq now ev)) = true.
Proof. intros Hs%survives_kept. unfold KnownSchema. rewrite (kept_Schema _ Hs). by apply String.eqb_eq. Qed.

(** What one [appendEvent] on a clean log can do. *)
Inductive append_effect (seq : N) (now : Z) (ev : Event) (evs : list Event)
    : result journal_error Event -> N -> list N -> Prop :=
| effect_refused err file : (err = ErrMarshal \/ err = ErrTooLarge) ->
    log_holds file evs [] -> append_effect seq now ev evs (Error err) seq file
| effect_done file : log_holds file (evs ++ [redacted (stamp (seq + 1) now ev)]) [] ->
    append_effect seq now ev evs (Ok (stamp (seq + 1) now ev)) (seq + 1) file
| effect_torn file tail : log_holds file evs tail ->
    append_effect seq now ev evs (Error ErrWrite) (seq + 1) file
| effect_unsynced file tail : log_holds file (evs ++ [redacted (stamp (seq + 1) now ev)]) tail ->
    append_effect seq now ev evs (Error ErrWrite) (seq + 1) file.

Lemma nul_fill_no_newline n : no_newline (repeat nul n).
Proof. unfold no_newline. intros H. apply list_elem_of_In, repeat_spec in H. done. Qed.

Lemma log_holds_snoc file evs ev :
  log_holds file evs [] -> survives ev = true -> (N.of_nat (length (encoded ev)) + 1 <= maxEventBytes)%N ->
  KnownSchema (redacted ev) = true ->
  log_holds (file ++ encoded ev ++ [newline]) (evs ++ [redacted ev]) [].
Proof.
  intros (ls & -> & Ht & Hl & Hk) Hsv Hlen Hknown. exists (ls ++ [encoded ev]).
  rewrite unlines_snoc, !app_nil_r. split; [done|]. split; [done|].
  split; [|apply Forall_app; split; [done|by constructor]].
  apply lines_hold_app. exists evs, [redacted ev]. split; [done|]. split; [done|].
  by apply lines_hold_encoded.
Qed.

Lemma appendEvent_spec fate now file seq ev evs :
  log_holds file evs [] -> survives (stamp (seq + 1) now ev) = true ->
  let '(r, seq', file') := appendEvent fate now file seq ev in append_effect seq now ev evs r seq' file'.
Proof.
  intros Hlog Hsv. unfold appendEvent. destruct (marshalEvent _) as [line|] eqn:Hm; [|by constructor; [left|]].
  apply marshalEvent_Some in Hm as ->. fold (encoded (stamp (seq + 1) now ev)).
  destruct (_ <? _)%N eqn:Hlen; [by constructor; [right|]|]. apply N.ltb_ge in Hlen.
  pose proof (log_holds_snoc _ _ _ Hlog Hsv Hlen (KnownSchema_stamp _ _ _ Hsv)) as Hsnoc.
  destruct fate as [|k fill]; cbn [write_bytes]; [by constructor|].
  destruct (decide (length (encoded (stamp (seq + 1) now ev)) < k)%nat) as [Hk|Hk].
  - rewrite take_ge by (rewrite length_app; cbn; lia).
    eapply effect_unsynced. rewrite app_assoc. apply log_holds_torn; [done|apply nul_fill_no_newline].
  - rewrite take_app_le by lia. eapply effect_torn. apply log_holds_torn; [done|].
    apply no_newline_app. split; [|apply nul_fill_no_newline].
    pose proof (kept_line _ (survives_kept _ Hsv)) as Hn. unfold no_newline in *.
    intros Hin. apply Hn. apply elem_of_take in Hin as (i & Hi & _). by eapply list_elem_of_lookup_2.
Qed.
End appending.

(** ** Facts on the bounded scans

    A window of a log, and the backward loop: whatever [tail_scan] reports, it
    read off a suffix of the complete records, and it knows the torn region. *)

(** ** Suffixes of a frame *)

(** Lines joined by newlines, after a first piece. *)
Definition joined (part : list N) (ls : list (list N)) : list N :=
  part ++ concat (map (fun l => newline :: l) ls).

Lemma joined_snoc part ls l : joined part (ls ++ [l]) = joined part ls ++ newline :: l.
Proof. unfold joined. rewrite map_app, concat_app, <- app_assoc. cbn. by rewrite app_nil_r. Qed.

Lemma joined_nil part : joined part [] = part.
Proof. unfold joined. cbn. by rewrite app_nil_r. Qed.

Lemma unlines_joined l ls : unlines (l :: ls) = joined l (ls ++ [[]]).
Proof.
  revert l. induction ls as [|l' ls IH]; intros l.
  - unfold joined, unlines. cbn. by rewrite app_nil_r.
  - rewrite unlines_cons, IH. unfold joined. cbn. done.
Qed.

(** A proper suffix of complete records starts inside some record. *)
Lemma drop_unlines ls k :
  (k < length (unlines ls))%nat ->
  exists ls1 pre part ls2, ls = ls1 ++ (pre ++ part) :: ls2 /\
    drop k (unlines ls) = unlines (part :: ls2) /\ (k = 0%nat -> ls1 = [] /\ pre = []).
Proof.
  revert k. induction ls as [|l ls IH]; intros k Hk; [cbn in Hk; lia|].
  rewrite unlines_cons in *. destruct (decide (k <= length l)%nat) as [Hle|Hgt].
  - exists [], (take k l), (drop k l), ls. rewrite take_drop. split; [done|].
    split; [by rewrite drop_app_le, unlines_cons|]. intros ->. done.
  - rewrite length_app in Hk. cbn in Hk.
    destruct (IH (k - S (length l))%nat) as (ls1 & pre & part & ls2 & -> & Hd & _); [lia|].
    exists (l :: ls1), pre, part, ls2. split; [done|]. split; [|lia]. rewrite <- Hd.
    rewrite drop_app_ge by lia. replace (k - length l)%nat with (S (k - S (length l))) by lia. done.
Qed.

Lemma drop_frame ls t k :
  (k <= length (unlines ls))%nat -> drop k (unlines ls ++ t) = drop k (unlines ls) ++ t.
Proof. intros. by rewrite drop_app_le. Qed.

(** ** The loop *)

Section loop.
Context {A : Type} (scan : list N -> bool -> result journal_error (option A))
        (maxChunk budget : N) (ls : list (list N)) (t : list N).
Hypothesis t_no_newline : no_newline t.

Notation file := (unlines ls ++ t).

(** An answer of [scan] on some suffix of the complete records. *)
Definition suffix_answer (r : result journal_error (option A)) : Prop :=
  exists k, (k <= length (unlines ls))%nat /\ scan (drop k (unlines ls)) (k =? 0)%nat = r.

Lemma window_chunk start chunkStart :
  (chunkStart <= start)%N -> (start <= N.of_nat (length file))%N ->
  take (N.to_nat (start - chunkStart)) (drop (N.to_nat chunkStart) file) ++ drop (N.to_nat start) file
    = drop (N.to_nat chunkStart) file.
Proof.
  intros H1 H2. rewrite <- (take_drop (N.to_nat (start - chunkStart)) (drop (N.to_nat chunkStart) file)) at 2.
  f_equal. rewrite drop_drop. f_equal. lia.
Qed.

Lemma torn_region_window k known :
  (k <= length file)%nat -> (known = None \/ known = Some (length t)) ->
  (known <> None -> (k <= length (unlines ls))%nat) ->
  match torn_region (drop k file) k known with
  | Some n => n = length t /\ (k <= length (unlines ls))%nat
  | None => k <> 0%nat
  end.
Proof.
  intros Hk [->| ->] Hkn; cbn; [|split; [done|apply Hkn; done]].
  destruct (decide (k < length (unlines ls))%nat) as [Hlt|Hge].
  - destruct (drop_unlines ls k Hlt) as (ls1 & pre & part & ls2 & _ & Hd & _).
    rewrite drop_frame by lia. rewrite Hd.
    destruct (LastIndexByte_unlines (part :: ls2) t ltac:(done) t_no_newline) as (init & last & Hsp & Heq & ->).
    rewrite Heq, length_app. cbn. split; lia.
  - assert (Hn : no_newline (drop k file)).
    { unfold no_newline. rewrite drop_app_ge by lia. intros Hin. apply t_no_newline.
      apply list_elem_of_lookup in Hin as (i & Hi). rewrite lookup_drop in Hi. by eapply list_elem_of_lookup_2. }
    apply LastIndexByte_None in Hn. rewrite Hn.
    destruct (Nat.eqb_spec k 0) as [->|]; [|done].
    assert (Hls : unlines ls = []) by (apply nil_length_inv; lia). rewrite Hls. cbn. done.
Qed.

Lemma tail_loop_spec fuel : forall start chunkSize known,
  (0 < chunkSize)%N -> (0 < start)%N -> (start <= N.of_nat (length file))%N ->
  (N.to_nat start <= fuel)%nat ->
  (known = None \/ known = Some (length t)) ->
  (known <> None -> (N.to_nat start <= length (unlines ls))%nat) ->
  match tail_loop scan maxChunk budget file fuel start chunkSize known (drop (N.to_nat start) file) with
  | Decided (Some a, n, _) => n = length t /\ suffix_answer (Ok (Some a))
  | Decided (None, n, _) => n = length t /\ scan (unlines ls) true = Ok None
  | BudgetExhausted => True
  | TailFailed e => suffix_answer (Error e)
  end.
Proof.
  induction fuel as [|fuel IH]; intros start chunkSize known Hc Hs Hlen Hf Hkn Hkw; [lia|].
  cbn [tail_loop]. rewrite (proj2 (N.eqb_neq start 0)) by lia.
  set (cs := (start - chunkSize)%N). rewrite window_chunk by lia.
  assert (Hpre : known <> None -> (N.to_nat cs <= length (unlines ls))%nat) by (intros H; specialize (Hkw H); lia).
  pose proof (torn_region_window (N.to_nat cs) known ltac:(lia) Hkn Hpre) as Hreg.
  destruct (torn_region (drop (N.to_nat cs) file) (N.to_nat cs) known) as [n|] eqn:Er.
  - destruct Hreg as [-> Hle].
    assert (Hcomp : take (length (drop (N.to_nat cs) file) - length t) (drop (N.to_nat cs) file)
                    = drop (N.to_nat cs) (unlines ls)).
    { rewrite drop_frame by done. rewrite length_app. replace (_ + _ - _)%nat with (length (drop (N.to_nat cs) (unlines ls))) by lia.
      apply take_app_length. }
    rewrite Hcomp.
    assert (Hb : (cs =? 0)%N = (N.to_nat cs =? 0)%nat).
    { destruct (N.eqb_spec cs 0), (Nat.eqb_spec (N.to_nat cs) 0); done || lia. }
    destruct (scan (drop (N.to_nat cs) (unlines ls)) (cs =? 0)%N) as [[a|]|e] eqn:Esc.
    + cbn. split; [done|]. exists (N.to_nat cs). by rewrite <- Hb.
    + destruct (N.eqb_spec cs 0) as [H0|H0].
      * rewrite H0 in Esc. cbn in *. done.
      * destruct (budget <=? _)%N; [done|]. apply IH; [destruct (_ <? _)%N; lia|lia..|by right|done].
    + exists (N.to_nat cs). by rewrite <- Hb.
  - destruct (N.eqb_spec cs 0) as [H0|H0]; [exfalso; apply Hreg; lia|].
    destruct (budget <=? _)%N; [done|]. apply IH; [destruct (_ <? _)%N; lia|lia..|by left|done].
Qed.

Lemma tail_scan_spec chunkSize :
  (0 < chunkSize)%N -> file <> [] ->
  match tail_scan scan maxChunk budget file chunkSize with
  | Decided (Some a, n, _) => n = length t /\ suffix_answer (Ok (Some a))
  | Decided (None, n, _) => n = length t /\ scan (unlines ls) true = Ok None
  | BudgetExhausted => True
  | TailFailed e => suffix_answer (Error e)
  end.
Proof.
  intros Hc Hne. unfold tail_scan.
  assert (length file <> 0%nat) by (intros H0; by apply nil_length_inv in H0).
  pose proof (tail_loop_spec (length file) (N.of_nat (length file)) chunkSize None) as Hl.
  rewrite Nat2N.id, drop_all in Hl. apply Hl; try lia; [by left|done].
Qed.
End loop.

(** ** Backward line scans

    Both bounded scans walk the lines of a buffer from the last to the first and
    act on the events they hold; [step] is that action, [fin] what the scan
    reports when the buffer is used up. *)
Section backward.
Context `{C : EventCodec} {St R : Type}
        (scan : nat -> bool -> St -> list N -> result journal_error R)
        (step : St -> Event -> result journal_error R + St) (fin : bool -> St -> R).
Hypothesis scan_nil : forall n afs s, scan n afs s [] = Ok (fin afs s).
Hypothesis scan_stop : forall n s buf, no_newline buf -> scan n false s buf = Ok (fin false s).
Hypothesis scan_step : forall n afs s buf raw buf',
  buf <> [] -> last_line afs buf = Some (raw, buf') ->
  scan (S n) afs s buf =
    match parse_line raw with
    | Error e => Error e
    | Ok None => scan n afs s buf'
    | Ok (Some ev) => match step s ev with inl r => r | inr s' => scan n afs s' buf' end
    end.

Fixpoint back_run (s : St) (newest : list Event) : result journal_error R + St :=
  match newest with
  | [] => inr s
  | ev :: older => match step s ev with inl r => inl r | inr s' => back_run s' older end
  end.
Definition back_result (afs : bool) (x : result journal_error R + St) : result journal_error R :=
  match x with inl r => r | inr s => Ok (fin afs s) end.

Lemma last_line_joined b part ls l :
  no_newline l -> last_line b (joined part (ls ++ [l])) = Some (l, joined part ls).
Proof.
  intros Hl. unfold last_line. rewrite joined_snoc, LastIndexByte_app by done.
  rewrite take_app_length.
  rewrite (app_assoc (joined part ls) [newline] l : joined part ls ++ newline :: l = (joined part ls ++ [newline]) ++ l).
  replace (S (length (joined part ls))) with (length (joined part ls ++ [newline])) by (rewrite length_app; cbn; lia).
  by rewrite drop_app_length.
Qed.

(** The raw lines the scan sees, oldest first. *)
Definition seen_lines (afs : bool) (part : list N) (ls : list (list N)) : list (list N) :=
  if afs then part :: ls else ls.

Lemma backward_joined afs part evs : forall ls fuel s,
  no_newline part -> lines_hold (seen_lines afs part ls) evs -> Forall no_newline ls ->
  (length (joined part ls) <= fuel)%nat ->
  scan fuel afs s (joined part ls) = back_result afs (back_run s (rev evs)).
Proof.
  intros ls. revert evs. induction ls as [|l ls IH] using rev_ind; intros evs fuel s Hp Hl Hls Hf.
  - rewrite joined_nil in *. destruct (decide (part = [])) as [->|Hne].
    + rewrite scan_nil. destruct afs; cbn in Hl.
      * destruct Hl as [_ Hl]. cbn in Hl. by injection Hl as <-.
      * apply lines_hold_nil in Hl as ->. done.
    + destruct fuel as [|fuel]; [destruct part; [done|cbn in Hf; lia]|].
      destruct afs; cbn in Hl.
      * rewrite (scan_step fuel true s part part []);
          [|done|unfold last_line; by rewrite (proj2 (LastIndexByte_None _ _) Hp)].
        destruct Hl as [_ Hl]. apply scan_lines_one in Hl as (o & -> & ->).
        destruct o as [ev|]; cbn; [|by rewrite scan_nil].
        destruct (step s ev); [done|]. by rewrite scan_nil.
      * apply lines_hold_nil in Hl as ->. by rewrite scan_stop.
  - apply Forall_app in Hls as [Hls Hl1]. apply Forall_cons in Hl1 as [Hl1 _].
    assert (Hsplit : seen_lines afs part (ls ++ [l]) = seen_lines afs part ls ++ [l]) by by destruct afs.
    rewrite Hsplit in Hl. apply lines_hold_app in Hl as (evs1 & evs2 & -> & Hl & [_ Hl2]).
    apply scan_lines_one in Hl2 as (o & Ho & ->).
    rewrite joined_snoc, length_app in Hf. cbn in Hf.
    destruct fuel as [|fuel]; [lia|].
    rewrite (scan_step fuel afs s _ l (joined part ls)); cycle 1.
    { rewrite joined_snoc. by destruct (joined part ls). }
    { by apply last_line_joined. }
    rewrite Ho. destruct o as [ev|].
    + rewrite rev_app_distr. cbn [rev app back_run]. destruct (step s ev); [done|].
      apply IH; first [assumption | lia].
    + rewrite app_nil_r. apply IH; first [assumption | lia].
Qed.

(** The scan of a suffix of the complete records is the scan of the events of
    the records it holds completely. *)
Lemma backward_suffix ls evs k s :
  lines_hold ls evs -> (k <= length (unlines ls))%nat ->
  exists older newer, evs = older ++ newer /\ (k = 0%nat -> older = []) /\
    scan (length (drop k (unlines ls))) (k =? 0)%nat s (drop k (unlines ls)) =
      back_result (k =? 0)%nat (back_run s (rev newer)).
Proof.
  intros Hl Hk. destruct (decide (k < length (unlines ls))%nat) as [Hlt|Hge].
  - destruct (drop_unlines ls k Hlt) as (ls1 & pre & part & ls2 & Hls & Hd & H0).
    rewrite Hd, unlines_joined.
    rewrite Hls in Hl. assert (Hnn : Forall no_newline (ls1 ++ (pre ++ part) :: ls2)) by apply Hl.
    apply Forall_app in Hnn as [_ Hnn]. apply Forall_cons in Hnn as [Hpp Hnn].
    apply no_newline_app in Hpp as [_ Hpart].
    assert (Hempty : lines_hold [[]] []).
    { split; [constructor; [unfold no_newline; set_solver|constructor]|done]. }
    assert (Hnn' : Forall no_newline (ls2 ++ [[]])).
    { apply Forall_app. split; [done|]. by destruct Hempty. }
    destruct (Nat.eqb_spec k 0) as [Hk0|Hk0].
    + destruct (H0 Hk0) as [-> ->]. exists [], evs. split; [done|]. split; [done|].
      apply backward_joined; [done| |done|done]. cbn [seen_lines]. rewrite app_comm_cons.
      apply lines_hold_app. exists evs, []. rewrite app_nil_r. done.
    + rewrite (app_assoc ls1 [pre ++ part] ls2 : ls1 ++ (pre ++ part) :: ls2 = (ls1 ++ [pre ++ part]) ++ ls2) in Hl.
      apply lines_hold_app in Hl as (older & newer & -> & _ & Hl). exists older, newer.
      split; [done|]. split; [done|]. apply backward_joined; [done| |done|done]. cbn [seen_lines].
      apply lines_hold_app. exists newer, []. rewrite app_nil_r. done.
  - rewrite drop_ge by lia. exists evs, []. rewrite app_nil_r. split; [done|]. split.
    + intros ->. destruct ls as [|l ls]; [by apply lines_hold_nil in Hl|].
      rewrite unlines_cons, length_app in Hge. cbn in Hge. lia.
    + by rewrite scan_nil.
Qed.
End backward.
