(* ===== verification/JournalPhaseProps.v ===== *)
(** * The bounded phase scan answers as the full read

    On a log that reads without error, the bounded scan either exhausts its
    budget or reports the phase the full read reconstructs, for every chunk size
    and budget. *)

From S2P Require Export JournalLogFacts.
Local Open Scope string_scope.
Local Open Scope list_scope.

Section phase.
Context `{C : EventCodec}.

(** ** The scan on events *)

(** Where the backward scan stands: decided, or pending with its gate. *)
Inductive scan_state := Done (p : RunPhase) | Pending (g : option terminal_gate).

Definition scan_event (g : option terminal_gate) (ev : Event) : scan_state :=
  match g with
  | Some (gate, branch, phase) =>
      if negb (ev_Branch ev =? branch)%Z then Pending g
      else if negb (ev_Gate ev =? gate) then
        match ev_Type ev with
        | EventGatePaused | EventGateStarted => Pending g
        | _ => Done phase
        end
      else match ev_Type ev with
        | EventGateStarted | EventGateEvaluated => Done phase
        | EventGatePaused => Done PhaseRunning
        | _ => Pending g
        end
  | None =>
      match ev_Type ev with
      | EventStageRerunRequested | EventRunResumed | EventGateOverridden => Done PhaseRunning
      | EventRunFinished => Done (phaseFromStatus (ev_Status ev))
      | EventGateEvaluated =>
          match phaseFromTerminalTarget (ev_Target ev) with
          | Some phase => Pending (Some (ev_Gate ev, ev_Branch ev, phase))
          | None => Pending None
          end
      | _ => Pending None
      end
  end.

Fixpoint scan_events (g : option terminal_gate) (newest : list Event) : scan_state :=
  match newest with
  | [] => Pending g
  | ev :: older =>
      match scan_event g ev with Done p => Done p | Pending g' => scan_events g' older end
  end.

(** The phase when the file begins before anything decided. *)
Definition at_start (g : option terminal_gate) : RunPhase :=
  match g with Some (_, _, phase) => phase | None => PhaseRunning end.

(** What [reconstruct_scan] is still to compute at a scan state. *)
Definition resume_scan_at (g : option terminal_gate) (older : list Event) : RunPhase :=
  match g with
  | Some (gate, branch, phase) =>
      if negb (terminalGateExecuted gate branch older) then PhaseRunning else phase
  | None => reconstruct_scan older
  end.

Lemma scan_event_sound g ev older :
  resume_scan_at g (ev :: older) =
    match scan_event g ev with Done p => p | Pending g' => resume_scan_at g' older end.
Proof.
  destruct g as [[[gate branch] phase]|]; cbn [resume_scan_at scan_event].
  - cbn [terminalGateExecuted]. destruct (_ =? branch)%Z; cbn [negb]; [|done].
    destruct (ev_Gate ev =? gate); cbn [negb]; by destruct (ev_Type ev).
  - cbn [reconstruct_scan]. destruct (ev_Type ev); try done.
    by destruct (phaseFromTerminalTarget _).
Qed.

Lemma scan_events_sound newest g older :
  resume_scan_at g (newest ++ older) =
    match scan_events g newest with Done p => p | Pending g' => resume_scan_at g' older end.
Proof.
  revert g. induction newest as [|ev newest IH]; intros g; [done|]. cbn [app scan_events].
  rewrite scan_event_sound. destruct (scan_event g ev); [done|]. apply IH.
Qed.

Lemma resume_scan_at_start g : resume_scan_at g [] = at_start g.
Proof. by destruct g as [[[??]?]|]. Qed.

(** ** The scan on bytes *)

Definition phase_step (g : option terminal_gate) (ev : Event)
    : result journal_error (option RunPhase) + option terminal_gate :=
  match scan_event g ev with Done p => inl (Ok (Some p)) | Pending g' => inr g' end.

Definition phase_fin (afs : bool) (g : option terminal_gate) : option RunPhase :=
  match g with Some (_, _, phase) => if afs then Some phase else None | None => None end.

Definition report (afs : bool) (s : scan_state) : option RunPhase :=
  match s with Done p => Some p | Pending g => phase_fin afs g end.

Lemma decisive_phase_step n afs g buf raw buf' :
  buf <> [] -> last_line afs buf = Some (raw, buf') ->
  decisive_phase (S n) afs g buf =
    match parse_line raw with
    | Error e => Error e
    | Ok None => decisive_phase n afs g buf'
    | Ok (Some ev) =>
        match phase_step g ev with inl r => r | inr g' => decisive_phase n afs g' buf' end
    end.
Proof.
  intros Hne Hl. cbn [decisive_phase]. destruct buf as [|b buf0]; [done|]. cbn [length Nat.eqb].
  rewrite Hl. destruct (parse_line raw) as [[ev|]|]; [|done..]. unfold phase_step.
  destruct g as [[[gate branch] phase]|]; cbn [scan_event].
  - destruct (_ =? branch)%Z; cbn [negb]; [|done].
    destruct (ev_Gate ev =? gate); cbn [negb]; by destruct (ev_Type ev).
  - destruct (ev_Type ev); try done. by destruct (phaseFromTerminalTarget _).
Qed.

Lemma decisive_phase_nil n afs g : decisive_phase n afs g [] = Ok (phase_fin afs g).
Proof. destruct n; by destruct g as [[[??]?]|]. Qed.

Lemma decisive_phase_stop n g buf : no_newline buf -> decisive_phase n false g buf = Ok (phase_fin false g).
Proof.
  intros Hb. destruct n; [by destruct g as [[[??]?]|]|]. cbn [decisive_phase].
  destruct buf; [by destruct g as [[[??]?]|]|]. cbn [length Nat.eqb]. unfold last_line.
  rewrite (proj2 (LastIndexByte_None _ _) Hb). by destruct g as [[[??]?]|].
Qed.

Lemma back_run_events g newest afs :
  back_result phase_fin afs (back_run phase_step g newest) = Ok (report afs (scan_events g newest)).
Proof.
  revert g. induction newest as [|ev newest IH]; intros g; [done|]. cbn [back_run scan_events].
  unfold phase_step at 1. destruct (scan_event g ev); [done|]. apply IH.
Qed.

Lemma decisivePhase_suffix ls evs k :
  lines_hold ls evs -> (k <= length (unlines ls))%nat ->
  exists older newer, evs = older ++ newer /\ (k = 0%nat -> older = []) /\
    decisivePhaseInChunk (drop k (unlines ls)) (k =? 0)%nat =
      Ok (report (k =? 0)%nat (scan_events None (rev newer))).
Proof.
  intros Hl Hk. unfold decisivePhaseInChunk.
  destruct (backward_suffix decisive_phase phase_step phase_fin decisive_phase_nil decisive_phase_stop
              decisive_phase_step ls evs k None Hl Hk) as (older & newer & Hev & H0 & Hd).
  exists older, newer. split; [done|]. split; [done|]. by rewrite Hd, back_run_events.
Qed.

Lemma tailPhase_agrees chunk maxChunk budget file evs tail :
  (0 < chunk)%N -> log_holds file evs tail ->
  tailPhase_with chunk maxChunk budget file = Decided (reconstructPhase evs) \/
  tailPhase_with chunk maxChunk budget file = BudgetExhausted.
Proof.
  intros Hc (ls & -> & Ht & Hl & _). unfold tailPhase_with.
  destruct (decide (unlines ls ++ tail = [])) as [Hnil|Hne].
  { apply app_nil in Hnil as [Hu ->]. destruct ls as [|l ls].
    - apply lines_hold_nil in Hl as ->. by left.
    - rewrite unlines_cons in Hu. by destruct l. }
  pose proof (tail_scan_spec decisivePhaseInChunk maxChunk budget ls tail Ht chunk Hc Hne) as Hspec.
  destruct (tail_scan _ _ _ _ _) as [[[found n] w]| |e].
  - left. f_equal. destruct found as [p|].
    + destruct Hspec as [_ (k & Hk & Hd)].
      destruct (decisivePhase_suffix ls evs k Hl Hk) as (older & newer & -> & H0 & Hd').
      rewrite Hd in Hd'. injection Hd' as Hp. unfold reconstructPhase.
      rewrite rev_app_distr. change (reconstruct_scan (rev newer ++ rev older)) with (resume_scan_at None (rev newer ++ rev older)).
      rewrite scan_events_sound. destruct (scan_events None (rev newer)) as [q|g]; cbn in Hp; [by simplify_eq|].
      destruct (Nat.eqb_spec k 0) as [Hk0|]; [|by destruct g as [[[??]?]|]].
      rewrite H0 by done. cbn [rev]. rewrite resume_scan_at_start. by destruct g as [[[??]?]|]; simplify_eq/=.
    + destruct Hspec as [_ Hd].
      destruct (decisivePhase_suffix ls evs 0 Hl ltac:(lia)) as (older & newer & -> & H0 & Hd').
      rewrite H0 in * by done. cbn [drop Nat.eqb] in Hd'. cbn [app] in *. rewrite drop_0 in Hd'. rewrite Hd in Hd'. injection Hd' as Hp.
      unfold reconstructPhase. rewrite <- (app_nil_r (rev newer)).
      change (reconstruct_scan (rev newer ++ [])) with (resume_scan_at None (rev newer ++ [])).
      rewrite scan_events_sound. destruct (scan_events None (rev newer)) as [q|g]; cbn in Hp; [done|].
      rewrite resume_scan_at_start. by destruct g as [[[??]?]|].
  - by right.
  - exfalso. destruct Hspec as (k & Hk & Hd).
    destruct (decisivePhase_suffix ls evs k Hl Hk) as (older & newer & -> & H0 & Hd'). congruence.
Qed.

(** ** The forward read *)

Lemma forward_lines_frame ls p evs : forall fuel phase,
  lines_hold ls evs -> no_newline p -> (length ls < fuel)%nat ->
  forward_lines fuel phase (unlines ls ++ p) = Ok (fold_left lifecycle_phase evs phase, p).
Proof.
  revert evs. induction ls as [|l ls IH]; intros evs fuel phase Hl Hp Hf;
    (destruct fuel as [|fuel]; [lia|]); cbn [forward_lines].
  - apply lines_hold_nil in Hl as ->. cbn. by rewrite (proj2 (IndexByte_None _ _) Hp).
  - assert (Hn : no_newline l) by (destruct Hl as [Hl _]; by inversion Hl).
    change (l :: ls) with ([l] ++ ls) in Hl.
    apply lines_hold_app in Hl as (evs1 & evs2 & -> & [_ Hl1] & Hl2).
    apply scan_lines_one in Hl1 as (o & Ho & ->).
    rewrite unlines_cons, <- app_assoc. cbn [app]. rewrite IndexByte_app by done.
    rewrite take_app_length, Ho.
    rewrite (app_assoc l [newline] (unlines ls ++ p) : l ++ newline :: unlines ls ++ p = (l ++ [newline]) ++ unlines ls ++ p).
    replace (S (length l)) with (length (l ++ [newline])) by (rewrite length_app; cbn; lia).
    rewrite drop_app_length. cbn in Hf.
    destruct o as [ev|]; cbn [app fold_left]; apply IH; first [assumption | lia].
Qed.

(** A line that scans fits the buffer. *)
Lemma lines_hold_length l ls evs : lines_hold (l :: ls) evs -> (N.of_nat (length l) < maxEventBytes)%N.
Proof.
  intros [_ Hs]. cbn in Hs. destruct (too_long l) eqn:E; [done|]. unfold too_long in E. brefl.
  apply N.ltb_ge in E. lia.
Qed.

Lemma no_newline_prefix p r l ls t :
  no_newline p -> p ++ r = l ++ newline :: unlines ls ++ t -> (length p <= length l)%nat.
Proof.
  intros Hp Heq. destruct (decide (length p <= length l)%nat) as [|Hgt]; [done|]. exfalso.
  apply Hp. assert (Hlk : (p ++ r) !! length l = Some newline).
  { rewrite Heq, lookup_app_r, Nat.sub_diag by lia. done. }
  rewrite lookup_app_l in Hlk by lia. by eapply list_elem_of_lookup_2.
Qed.

Lemma forward_reads_frame t : forall reads phase pending ls evs,
  no_newline t -> (N.of_nat (length t) <= maxEventBytes)%N -> no_newline pending -> lines_hold ls evs ->
  pending ++ concat reads = unlines ls ++ t ->
  forward_reads phase pending reads = Ok (fold_left lifecycle_phase evs phase).
Proof.
  induction reads as [|c reads IH]; intros phase pending ls evs Ht Hmax Hp Hl Heq.
  - cbn in *. rewrite app_nil_r in Heq.
    destruct ls as [|l ls]; [by apply lines_hold_nil in Hl as ->|].
    exfalso. apply Hp. rewrite Heq, unlines_cons. set_solver.
  - cbn [forward_reads concat] in *.
    destruct (frame_exists (pending ++ c)) as (la & p & Hf & Hla & Hp').
    destruct (frame_exists (p ++ concat reads)) as (lb & t' & Hf' & Hlb & Ht').
    assert (Hall : unlines (la ++ lb) ++ t' = unlines ls ++ t).
    { rewrite unlines_app, <- app_assoc, <- Hf', app_assoc, <- Hf, <- Heq. by rewrite app_assoc. }
    apply frame_inj in Hall as [Hls ->]; [|by apply Forall_app| by apply Hl | done..].
    rewrite <- Hls in Hl. apply lines_hold_app in Hl as (e1 & e2 & -> & H1 & H2).
    rewrite Hf, (forward_lines_frame la p e1); [|done..|].
    2: { rewrite length_app. pose proof (length_unlines la). lia. }
    assert (Hlen : (N.of_nat (length p) <= maxEventBytes)%N).
    { destruct lb as [|l lb].
      - cbn in Hf'. assert (length p <= length t)%nat by (rewrite <- Hf', length_app; lia). lia.
      - rewrite unlines_cons, <- app_assoc in Hf'. apply no_newline_prefix in Hf'; [|done].
        apply lines_hold_length in H2. lia. }
    rewrite (proj2 (N.ltb_ge _ _)) by done. rewrite fold_left_app. by eapply IH.
Qed.

Lemma phaseFromReader_frame reads file evs tail :
  log_holds file evs tail -> (N.of_nat (length tail) <= maxEventBytes)%N -> concat reads = file ->
  phaseFromReader reads = Ok (fold_left lifecycle_phase evs PhaseRunning).
Proof.
  intros (ls & -> & Ht & Hl & _) Hmax Heq. unfold phaseFromReader.
  eapply (forward_reads_frame tail); [done|done| |done|done]. unfold no_newline. set_solver.
Qed.

(** The forward fold agrees with the backward scan when no gate ends the run. *)
Definition gate_ends_run (e : Event) : bool :=
  match ev_Type e with
  | EventGateEvaluated => negb (bool_decide (phaseFromTerminalTarget (ev_Target e) = None))
  | _ => false
  end.

Lemma lifecycle_agrees evs :
  Forall (fun e => gate_ends_run e = false) evs ->
  fold_left lifecycle_phase evs PhaseRunning = reconstructPhase evs.
Proof.
  unfold reconstructPhase. induction evs as [|e evs IH] using rev_ind; intros Hf; [done|].
  apply Forall_app in Hf as [Hf He]. apply Forall_cons in He as [He _].
  rewrite fold_left_app, rev_app_distr. cbn [fold_left rev app reconstruct_scan]. rewrite IH by done.
  unfold lifecycle_phase, gate_ends_run in *. destruct (ev_Type e); try done.
  apply negb_false_iff, bool_decide_eq_true in He. by rewrite He.
Qed.

(** C4: The bounded phase scan is equivalent to the full read.  On a log that
    reads without error (with a torn tail, crash fill and all), for every chunk
    size, growth and budget, [PhaseBounded] reports exactly the phase [Phase]
    reconstructs from the whole log, whether the window decided or the forward
    fallback ran; the fallback needs that no gate of the log selected a terminal
    target, which the backward scan does not. *)
Theorem bounded_phase_agrees chunk maxChunk budget file reads evs tail :
  (0 < chunk)%N -> log_holds file evs tail -> (N.of_nat (length tail) <= maxEventBytes)%N ->
  concat reads = file ->
  (tailPhase_with chunk maxChunk budget file = BudgetExhausted ->
   Forall (fun e => gate_ends_run e = false) evs) ->
  PhaseBounded_with chunk maxChunk budget file reads = Phase file.
Proof.
  intros Hc Hlog Hmax Hreads Hgates. unfold PhaseBounded_with, Phase.
  rewrite (log_holds_read _ _ _ Hlog).
  destruct (tailPhase_agrees chunk maxChunk budget file evs tail Hc Hlog) as [->|Hb]; [done|].
  rewrite Hb. erewrite phaseFromReader_frame by done. f_equal. by apply lifecycle_agrees, Hgates.
Qed.

(** ** Where the fallback differs *)

Definition lifecycle_neutral (e : Event) : bool :=
  match ev_Type e with
  | EventStageRerunRequested | EventRunResumed | EventGateOverridden | EventRunFinished | EventGateEvaluated => false
  | _ => true
  end.

Lemma neutral_phase evs phase :
  Forall (fun e => lifecycle_neutral e = true) evs -> fold_left lifecycle_phase evs phase = phase.
Proof.
  induction 1 as [|e evs He _ IH]; [done|]. cbn. unfold lifecycle_neutral in He.
  unfold lifecycle_phase at 2. by destruct (ev_Type e).
Qed.

Lemma unfinished_phase evs :
  Forall (fun e => ev_Type e <> EventRunFinished) evs -> fold_left lifecycle_phase evs PhaseRunning = PhaseRunning.
Proof.
  induction 1 as [|e evs He _ IH]; [done|]. cbn. unfold lifecycle_phase at 2. by destruct (ev_Type e).
Qed.

Lemma neutral_reconstruct evs post :
  Forall (fun e => lifecycle_neutral e = true) post -> reconstructPhase (evs ++ post) = reconstructPhase evs.
Proof.
  unfold reconstructPhase. induction post as [|e post IH] using rev_ind; intros Hf; [by rewrite app_nil_r|].
  apply Forall_app in Hf as [Hf He]. apply Forall_cons in He as [He _].
  rewrite app_assoc, rev_app_distr. cbn [rev app reconstruct_scan]. rewrite IH by done.
  unfold lifecycle_neutral in He. by destruct (ev_Type e).
Qed.

Lemma terminal_phase target phase : phaseFromTerminalTarget target = Some phase -> phase <> PhaseRunning.
Proof. unfold phaseFromTerminalTarget. repeat case_match; intros [= <-]; done. Qed.

(** C40: The forward fallback of the bounded scan does not follow
    [reconstructPhase].  On every log of a run that no [run.finished] ended and
    whose last lifecycle record is a gate the runner executed with a terminal
    target, when the records behind it exhaust the budget of the window, the
    bounded read answers running, and the full read answers the phase the gate's
    target stands for. *)
Theorem fallback_misses_terminal_gate chunk maxChunk budget file reads before gate after tail phase :
  log_holds file (before ++ gate :: after) tail -> (N.of_nat (length tail) <= maxEventBytes)%N ->
  concat reads = file -> tailPhase_with chunk maxChunk budget file = BudgetExhausted ->
  Forall (fun e => ev_Type e <> EventRunFinished) before -> Forall (fun e => lifecycle_neutral e = true) after ->
  ev_Type gate = EventGateEvaluated -> phaseFromTerminalTarget (ev_Target gate) = Some phase ->
  terminalGateExecuted (ev_Gate gate) (ev_Branch gate) (rev before) = true ->
  Phase file = Ok phase /\ phase <> PhaseRunning /\
  PhaseBounded_with chunk maxChunk budget file reads = Ok PhaseRunning.
Proof.
  intros Hlog Hmax Hreads Hb Hbefore Hafter Hg Hp Hx. split; [|split; [by eapply terminal_phase|]].
  - unfold Phase. rewrite (log_holds_read _ _ _ Hlog).
    rewrite (app_assoc before [gate] after : before ++ gate :: after = (before ++ [gate]) ++ after), neutral_reconstruct by done.
    unfold reconstructPhase. rewrite rev_app_distr. cbn [rev app reconstruct_scan]. by rewrite Hg, Hp, Hx.
  - unfold PhaseBounded_with. rewrite Hb. erewrite phaseFromReader_frame by done.
    rewrite fold_left_app. cbn [fold_left]. rewrite unfinished_phase by done.
    unfold lifecycle_phase at 2. rewrite Hg. by rewrite neutral_phase.
Qed.

(** ** Parking *)

(** The incremental projection of gate parking agrees with the backward
    scan: folding [GateParkingAfter] over the events as they arrive yields what
    [ParkedAtGate] reads off the log, and telemetry appended after a pause never
    unparks the run. *)
Theorem incremental_parking_agrees events observed :
  fold_left GateParkingAfter events false = ParkedAtGate events /\
  (Forall (fun e => gateParkingEffect e = None) observed ->
   ParkedAtGate (events ++ observed) = ParkedAtGate events).
Proof.
  unfold ParkedAtGate. split.
  - induction events as [|e events IH] using rev_ind; [done|].
    rewrite fold_left_app, rev_app_distr. cbn [fold_left rev app parked_scan].
    unfold GateParkingAfter at 1. rewrite IH. by destruct (gateParkingEffect e).
  - intros Hobs. rewrite rev_app_distr.
    assert (Hr : Forall (fun e => gateParkingEffect e = None) (rev observed)).
    { apply Forall_forall. intros e He%list_elem_of_In%in_rev%list_elem_of_In. by eapply Forall_forall in Hobs. }
    induction Hr as [|e l He Hr IH]; [done|]. cbn [app parked_scan]. by rewrite He.
Qed.
End phase.
