(* ===== verification/JournalRun.v ===== *)
(** * The writer of a run journal

    [Run] of [internal/journal/run.go] and [Recover] of [reader.go].  The state
    of a run directory is [RunDisk]; a crash leaves the disk and drops the
    writer.  [call_env] is what one call meets: the clock readings of the append
    and of the checkpoint, and the fate of their writes. *)

From S2P Require Export JournalPhase.
Local Open Scope string_scope.
Local Open Scope list_scope.

Record State := mkState {
  st_Schema : string;
  st_Phase : RunPhase;
  st_MachineState : string;
  st_Branches : list BranchCursor;
  st_Reason : string;
  st_LastSeq : N;
  st_UpdatedAt : Z
}.

(** [state.json] is replaced atomically; [None] is missing or unreadable. *)
Record RunDisk := mkRunDisk { d_events : list N; d_state : option State }.

Record Run := mkRun {
  r_seq : N;
  r_phase : RunPhase;
  r_machineState : string;
  r_branch : Z;
  r_branches : list BranchCursor;
  r_reason : string;
  r_lastActivity : Z;
  r_appendErr : bool;
  r_closed : bool
}.

(** [writeStateAtomic]: replaced, not replaced, or replaced with the sync of the
    directory failing. *)
Inductive checkpoint_fate := CheckpointDone | CheckpointLost | CheckpointUnsynced.

Record call_env := mkEnv {
  env_now : Z;
  env_write : write_fate;
  env_checkpoint_now : Z;
  env_checkpoint : checkpoint_fate
}.

Section run.
Context `{EventCodec}.

(** Only the log reader decides whether a checkpoint is usable. *)
Definition read_state (d : RunDisk) : option State :=
  match d_state d with
  | Some st => if st_Schema st =? StateSchema then Some st else None
  | None => None
  end.

Definition checkpoint (env : call_env) (r : Run) (d : RunDisk) : result journal_error unit * RunDisk :=
  let st := mkState StateSchema (r_phase r) (r_machineState r) (r_branches r) (r_reason r) (r_seq r)
              (env_checkpoint_now env) in
  match env_checkpoint env with
  | CheckpointDone => (Ok (), mkRunDisk (d_events d) (Some st))
  | CheckpointLost => (Error ErrCheckpoint, d)
  | CheckpointUnsynced => (Error ErrCheckpoint, mkRunDisk (d_events d) (Some st))
  end.

(** The lock-held core: attribute the event to the active branch, check the rate
    of progress updates, append, and remember a failure. *)
Definition append (env : call_env) (r : Run) (d : RunDisk) (ev : Event)
    : result journal_error unit * Run * RunDisk :=
  if r_appendErr r then (Error ErrAppendBlocked, r, d)
  else
    let ev := if (ev_Branch ev =? 0)%Z then set_Branch (r_branch r) ev else ev in
    let rate :=
      match ev_Type ev with
      | EventAgentProgress =>
          if ev_PayloadSet ev then
            match readEvents (d_events d) with
            | Error e => Error e
            | Ok (events, _) =>
                if validateAgentProgressRate events ev (env_now env) then Ok () else Error ErrRateLimited
            end
          else Ok ()
      | _ => Ok ()
      end in
    match rate with
    | Error e => (Error e, r, d)
    | Ok _ =>
        let '(res, seq, file) := appendEvent (env_write env) (env_now env) (d_events d) (r_seq r) ev in
        let d' := mkRunDisk file (d_state d) in
        match res with
        | Error e =>
            (Error e, mkRun seq (r_phase r) (r_machineState r) (r_branch r) (r_branches r) (r_reason r)
                        (r_lastActivity r) true (r_closed r), d')
        | Ok stamped =>
            (Ok (), mkRun seq (r_phase r) (r_machineState r) (r_branch r) (r_branches r) (r_reason r)
                      (ev_Time stamped) (r_appendErr r) (r_closed r), d')
        end
    end.

Definition applyLifecycle (ev : Event) (r : Run) : Run :=
  let set phase state reason :=
    mkRun (r_seq r) phase state (r_branch r) (r_branches r) reason (r_lastActivity r)
      (r_appendErr r) (r_closed r) in
  match ev_Type ev with
  | EventRunResumed | EventGateOverridden => set PhaseRunning (ev_Target ev) ""
  | EventRunFinished =>
      set (phaseFromStatus (ev_Status ev)) ""
        (match ev_Error ev with Some e => ed_Message e | None => "" end)
  | EventStageRerunRequested => set PhaseRunning (ev_Stage ev) ""
  | _ => r
  end.

(** [appendPrepared]; [Append] is the case without preparation. *)
Definition appendPrepared (env : call_env) (prepare : option (Event -> N -> option Event))
    (ev : Event) (r : Run) (d : RunDisk) : result journal_error unit * Run * RunDisk :=
  if r_closed r then (Error ErrClosed, r, d)
  else
    let prepared :=
      match prepare with
      | None => Some ev
      | Some f => f (if (ev_Branch ev =? 0)%Z then set_Branch (r_branch r) ev else ev) (r_seq r + 1)%N
      end in
    match prepared with
    | None => (Error ErrPrepare, r, d)
    | Some ev =>
        let '(res, r, d) := append env r d ev in
        match res with
        | Error e => (Error e, r, d)
        | Ok _ =>
            let r := applyLifecycle ev r in
            let '(res, d) := checkpoint env r d in (res, r, d)
        end
    end.
Definition Append (env : call_env) (ev : Event) (r : Run) (d : RunDisk)
    : result journal_error unit * Run * RunDisk :=
  appendPrepared env None ev r d.

(** [appendBatch] checks every event before it writes one, then commits a
    prefix; the i-th append meets [env i]. *)
Fixpoint batch_fits (now : Z) (seq : N) (events : list Event) : result journal_error unit :=
  match events with
  | [] => Ok ()
  | ev :: events' =>
      match marshalEvent (stamp (seq + 1) now ev) with
      | None => Error ErrMarshal
      | Some line =>
          if (maxEventBytes <? N.of_nat (length (Scrub now line)) + 1)%N then Error ErrTooLarge
          else batch_fits now (seq + 1) events'
      end
  end.

Fixpoint batch_loop (envs : nat -> call_env) (i : nat) (events : list Event) (r : Run) (d : RunDisk)
    : result journal_error unit * nat * Run * RunDisk :=
  match events with
  | [] => (Ok (), i, r, d)
  | ev :: events' =>
      let '(res, r, d) := append (envs i) r d ev in
      match res with
      | Error e => (Error e, i, r, d)
      | Ok _ =>
          let r := applyLifecycle ev r in
          let '(res, d) := checkpoint (envs i) r d in
          match res with
          | Error e => (Error e, S i, r, d)
          | Ok _ => batch_loop envs (S i) events' r d
          end
      end
  end.

Definition appendBatch (now : Z) (envs : nat -> call_env) (events : list Event) (r : Run) (d : RunDisk)
    : result journal_error unit * nat * Run * RunDisk :=
  if r_closed r then (Error ErrClosed, O, r, d)
  else match batch_fits now (r_seq r) events with
       | Error e => (Error e, O, r, d)
       | Ok _ => batch_loop envs 0 events r d
       end.

Definition AppendIfAbsent (env : call_env) (ev : Event) (matches : Event -> bool) (r : Run) (d : RunDisk)
    : result journal_error bool * Run * RunDisk :=
  if r_closed r then (Error ErrClosed, r, d)
  else match readEvents (d_events d) with
  | Error e => (Error e, r, d)
  | Ok (events, _) =>
      if existsb matches events then (Ok false, r, d)
      else
        let '(res, r, d) := append env r d ev in
        match res with
        | Error e => (Error e, r, d)
        | Ok _ =>
            let '(res, d) := checkpoint env r d in
            match res with Error e => (Error e, r, d) | Ok _ => (Ok true, r, d) end
        end
  end.

(** [RepairAppendBoundary]; the truncation may fail. *)
Definition RepairAppendBoundary (env : call_env) (truncates : bool) (r : Run) (d : RunDisk)
    : result journal_error unit * Run * RunDisk :=
  if r_closed r then (Error ErrClosed, r, d)
  else match readEvents (d_events d) with
  | Error e => (Error e, r, d)
  | Ok (events, tornBytes) =>
      if negb truncates && negb (tornBytes =? 0)%nat then (Error ErrWrite, r, d)
      else
        let d := mkRunDisk (truncateTornTail (d_events d) tornBytes) (d_state d) in
        let r := mkRun (highestEventSeq events) (r_phase r) (r_machineState r) (r_branch r)
                   (r_branches r) (r_reason r) (r_lastActivity r) false (r_closed r) in
        if (tornBytes =? 0)%nat then (Ok (), r, d)
        else append env r d (repaired_event tornBytes)
  end.

Definition SetMachineState (state : string) (r : Run) : Run :=
  mkRun (r_seq r) (r_phase r) state (r_branch r) (r_branches r) (r_reason r) (r_lastActivity r)
    (r_appendErr r) (r_closed r).
Definition SetBranch (branch : Z) (r : Run) : Run :=
  mkRun (r_seq r) (r_phase r) (r_machineState r) branch (r_branches r) (r_reason r) (r_lastActivity r)
    (r_appendErr r) (r_closed r).
Definition SetBranchCursors (cursors : list BranchCursor) (r : Run) : Run :=
  mkRun (r_seq r) (r_phase r) (r_machineState r) (r_branch r) cursors (r_reason r) (r_lastActivity r)
    (r_appendErr r) (r_closed r).

Definition Checkpoint (env : call_env) (r : Run) (d : RunDisk) : result journal_error unit * RunDisk :=
  if r_closed r then (Error ErrClosed, d) else checkpoint env r d.

Definition Close (r : Run) : Run :=
  mkRun (r_seq r) (r_phase r) (r_machineState r) (r_branch r) (r_branches r) (r_reason r)
    (r_lastActivity r) (r_appendErr r) true.

(** The instant claimed, when no activity was observed since [cutoff];
    [suspended] is the time the host slept since the last activity. *)
Definition IfLastActivityBefore (suspended cutoff : Z) (r : Run) : option Z :=
  if IsZero (r_lastActivity r) then None
  else if negb (Before (r_lastActivity r + suspended)%Z cutoff) then None
  else Some (r_lastActivity r).

Definition ObserveActivity (now : Z) (r : Run) : Run :=
  if Before (r_lastActivity r) now then
    mkRun (r_seq r) (r_phase r) (r_machineState r) (r_branch r) (r_branches r) (r_reason r) now
      (r_appendErr r) (r_closed r)
  else r.

(** ** Recovery *)

Record RecoverReport := mkReport {
  rep_LastSeq : N;
  rep_TornBytes : nat;
  rep_Repaired : bool;
  rep_Events : list Event
}.

(** The branch cursors of the log win over the checkpoint's. *)
Definition recovered_branches (events : list Event) (disk : list BranchCursor)
    : list BranchCursor * bool :=
  match reconstructBranchCursors events with
  | Some logCursors =>
      if bool_decide (disk = logCursors) then (disk, false) else (logCursors, true)
  | None => match disk with [] => ([], false) | _ => ([], true) end
  end.

(** Whether the checkpoint disagrees with the log, and the machine state. *)
Definition heal_state (phase : RunPhase) (reason : string) (events : list Event) (diskSt : option State)
    : string * bool :=
  let machine := match diskSt with Some st => st_MachineState st | None => "" end in
  if negb (bool_decide (phase = PhaseRunning)) then
    match diskSt with
    | Some st =>
        if bool_decide (st_Phase st = phase) && (st_MachineState st =? "") && (st_Reason st =? reason)
        then (machine, false) else ("", true)
    | None => ("", true)
    end
  else match latestActiveResume events with
  | Some resumed =>
      match diskSt with
      | Some st =>
          if (st_LastSeq st <=? ev_Seq resumed)%N
             && (negb (bool_decide (st_Phase st = PhaseRunning)) || negb (st_MachineState st =? ev_Target resumed))
          then (ev_Target resumed, true) else (machine, false)
      | None => (machine, false)
      end
  | None => (machine, false)
  end.

(** [Recover], from the single read under the run lock on; the recovery of
    completed transcripts, which removes superseded blobs, follows it. *)
Definition Recover (env : call_env) (pruning truncates : bool) (d : RunDisk)
    : result journal_error (Run * RecoverReport) * RunDisk :=
  if pruning then (Error ErrPruning, d)
  else match readEvents (d_events d) with
  | Error e => (Error e, d)
  | Ok (events, tornBytes) =>
      if negb truncates && negb (tornBytes =? 0)%nat then (Error ErrWrite, d)
      else
        let diskSt := read_state d in
        let d := mkRunDisk (truncateTornTail (d_events d) tornBytes) (d_state d) in
        let phase := reconstructPhase events in
        let reason := reconstructReason events in
        let '(branches, needsBranch) :=
          recovered_branches events (match diskSt with Some st => st_Branches st | None => [] end) in
        let '(machine, needsHeal) := heal_state phase reason events diskSt in
        let r := mkRun (highestEventSeq events) phase machine 0 branches reason
                   (match last events with Some e => ev_Time e | None => 0%Z end) false false in
        let needsCheckpoint := negb (tornBytes =? 0)%nat || needsBranch || needsHeal in
        let '(res, r, d) :=
          if (tornBytes =? 0)%nat then (Ok (), r, d) else append env r d (repaired_event tornBytes) in
        match res with
        | Error e => (Error e, d)
        | Ok _ =>
            let report := mkReport (highestEventSeq events) tornBytes (negb (tornBytes =? 0)%nat) events in
            if needsCheckpoint then
              let '(res, d) := checkpoint env r d in
              match res with Error e => (Error e, d) | Ok _ => (Ok (r, report), d) end
            else (Ok (r, report), d)
        end
  end.

(** The journal half of [Create]: the staged log opens with [run.started] and a
    checkpoint; a failure publishes nothing. *)
Definition run_started (target : string) : Event :=
  mkEvent "" 0 EventRunStarted 0 0 "" "" "" "" target "running" "" None "" None ∅ false
    "" "" "" "" "" "" "" "" "" "" false 0.

Definition new_run : Run := mkRun 0 PhaseRunning "" 0 [] "" 0 false false.

Definition create_log (env : call_env) (target : string) : option RunDisk :=
  let '(res, r, d) := append env new_run (mkRunDisk [] None) (run_started target) in
  match res with
  | Error _ => None
  | Ok _ => let '(res, d) := checkpoint env r d in
            match res with Ok _ => Some d | Error _ => None end
  end.
End run.
