(* ===== verification/JournalRunProps.v ===== *)
(** * The run journal is an append-only log

    Every operation of a writer, whatever its writes meet, extends the events a
    reader sees by events it was given (or a repair marker) and keeps their
    sequence numbers increasing; recovery loses nothing. *)

From Stdlib Require Import Sorting.Sorted.
From S2P Require Export JournalLogFacts JournalRun.
Local Open Scope string_scope.
Local Open Scope list_scope.

(** ** Sequences *)

(** Sequence numbers start above 0 and increase strictly. *)
Definition seq_increasing (evs : list Event) : Prop :=
  StronglySorted (fun a b => (ev_Seq a < ev_Seq b)%N) evs /\ Forall (fun e => (0 < ev_Seq e)%N) evs.

Lemma highest_step m e :
  (if (m <? ev_Seq e)%N then ev_Seq e else m) = N.max m (ev_Seq e).
Proof. destruct (N.ltb_spec m (ev_Seq e)); lia. Qed.

Lemma highest_snoc evs e : highestEventSeq (evs ++ [e]) = N.max (highestEventSeq evs) (ev_Seq e).
Proof. unfold highestEventSeq. rewrite fold_left_app. cbn. apply highest_step. Qed.

Lemma highest_ge evs e : e ∈ evs -> (ev_Seq e <= highestEventSeq evs)%N.
Proof.
  induction evs as [|x evs IH] using rev_ind; [set_solver|]. rewrite highest_snoc.
  intros [He|He]%elem_of_app; [specialize (IH He); lia|]. apply list_elem_of_singleton in He as ->. lia.
Qed.

Lemma seq_increasing_nil : seq_increasing [].
Proof. split; constructor. Qed.

Lemma seq_increasing_snoc evs e :
  seq_increasing evs -> (highestEventSeq evs < ev_Seq e)%N -> seq_increasing (evs ++ [e]).
Proof.
  intros [Hs Hp] Hlt. split; [|apply Forall_app; split; [done|]; constructor; [lia|done]].
  assert (Hall : Forall (fun x => (ev_Seq x < ev_Seq e)%N) evs).
  { apply Forall_forall. intros x Hx. apply highest_ge in Hx. lia. }
  clear Hlt Hp. induction Hs as [|x l Hs IH Hx]; cbn; [repeat constructor|].
  inversion_clear Hall. constructor; [by apply IH|]. apply Forall_app. split; [done|by constructor].
Qed.

Section props.
Context `{C : EventCodec}.

(** ** The invariant *)

(** What the disk and the writer (if one is open) agree on: the events a reader
    sees, in order, and a writer that is not blocked stands at their end. *)
Definition journal_holds (d : RunDisk) (w : option Run) (evs : list Event) : Prop :=
  exists tail, log_holds (d_events d) evs tail /\ seq_increasing evs /\
    match w with
    | Some r => r_closed r = false -> r_appendErr r = false ->
                tail = [] /\ r_seq r = highestEventSeq evs
    | None => True
    end.

(** The event an append commits. *)
Definition committed_event (seq : N) (now : Z) (ev : Event) : Event := redacted (stamp (seq + 1) now ev).

Lemma committed_increasing evs now ev :
  survives (stamp (highestEventSeq evs + 1) now ev) = true -> seq_increasing evs ->
  seq_increasing (evs ++ [committed_event (highestEventSeq evs) now ev]) /\
  highestEventSeq (evs ++ [committed_event (highestEventSeq evs) now ev]) = (highestEventSeq evs + 1)%N.
Proof.
  intros Hsv Hs. assert (Hseq : ev_Seq (committed_event (highestEventSeq evs) now ev) = (highestEventSeq evs + 1)%N)
    by (unfold committed_event; by rewrite (kept_Seq _ (survives_kept _ Hsv))).
  split; [apply seq_increasing_snoc; [done|lia]|]. rewrite highest_snoc, Hseq. lia.
Qed.

(** The branch a writer attributes an event to. *)
Definition attributed (r : Run) (ev : Event) : Event :=
  if (ev_Branch ev =? 0)%Z then set_Branch (r_branch r) ev else ev.

(** The line the next append of [ev] would commit survives the scrubber. *)
Definition next_survives (env : call_env) (r : Run) (ev : Event) : bool :=
  survives (stamp (r_seq r + 1) (env_now env) (attributed r ev)).

Lemma append_frame env r d ev r' d' :
  append env r d ev = (Ok (), r', d') -> r_seq r' = (r_seq r + 1)%N /\ r_branch r' = r_branch r.
Proof.
  unfold append, appendEvent. destruct (r_appendErr r); [done|].
  match goal with |- context [match ?x with Ok _ => _ | Error e => _ end] => destruct x as [[]|e] end; [|done].
  destruct (marshalEvent _) as [line|]; [|done]. destruct (_ <? _)%N; [done|].
  destruct (env_write env); [|done]. by intros [= <- _].
Qed.

Lemma append_spec env r d ev evs res r' d' :
  journal_holds d (Some r) evs -> r_closed r = false -> next_survives env r ev = true -> append env r d ev = (res, r', d') ->
  d_state d' = d_state d /\ r_closed r' = false /\
  ((journal_holds d' (Some r') evs /\ res <> Ok ()) \/
   journal_holds d' (Some r') (evs ++ [committed_event (highestEventSeq evs) (env_now env) (attributed r ev)]) /\
   (r_appendErr r = false) /\
   (res = Ok () -> r_appendErr r' = false /\ r_seq r' = (highestEventSeq evs + 1)%N /\
      log_holds (d_events d') (evs ++ [committed_event (highestEventSeq evs) (env_now env) (attributed r ev)]) [])).
Proof.
  intros (tail & Hlog & Hinc & Hw) Hopen Hsv. unfold append.
  destruct (r_appendErr r) eqn:Herr.
  { intros [= <- <- <-]. split; [done|]. split; [done|]. left. split; [|done].
    exists tail. split; [done|]. split; [done|]. congruence. }
  destruct (Hw Hopen eq_refl) as [-> Hseq]. fold (attributed r ev). unfold next_survives in Hsv.
  match goal with |- context [match ?x with Ok _ => _ | Error e => _ end] => destruct x as [[]|e] eqn:Hrate end.
  2: { intros [= <- <- <-]. split; [done|]. split; [done|]. left. split; [|done].
       exists []. split; [done|]. split; [done|]. done. }
  pose proof (appendEvent_spec (env_write env) (env_now env) (d_events d) (r_seq r) (attributed r ev) evs Hlog Hsv) as Heff.
  destruct (appendEvent _ _ _ _ _) as [[ares aseq] afile]. rewrite Hseq in Heff, Hsv.
  pose proof (committed_increasing evs (env_now env) (attributed r ev) Hsv Hinc) as [Hinc' Hhigh'].
  fold (committed_event (highestEventSeq evs) (env_now env) (attributed r ev)) in Heff.
  inversion Heff; subst; intros [= <- <- <-]; cbn; (split; [done|]); (split; [done|]).
  - left. split; [|done]. exists []. split; [done|]. split; [done|]. done.
  - right. split; [|split; [done|]; intros _; split; [done|]; split; done].
    exists []. split; [done|]. split; [done|]. intros _ _. cbn. by rewrite Hhigh'.
  - left. split; [|done]. eexists. split; [done|]. split; [done|]. done.
  - right. split; [|done]. eexists. split; [done|]. split; [done|]. done.
Qed.

Lemma checkpoint_events env r d : d_events (snd (checkpoint env r d)) = d_events d.
Proof. unfold checkpoint. by destruct (env_checkpoint env). Qed.

Lemma journal_holds_disk d d' w evs :
  d_events d' = d_events d -> journal_holds d w evs -> journal_holds d' w evs.
Proof. intros Heq (tail & Hlog & Hrest). exists tail. by rewrite Heq. Qed.

Lemma journal_holds_run d r r' evs :
  r_closed r' = r_closed r -> r_appendErr r' = r_appendErr r -> r_seq r' = r_seq r ->
  journal_holds d (Some r) evs -> journal_holds d (Some r') evs.
Proof. intros H1 H2 H3 (tail & Hlog & Hi & Hw). exists tail. split; [done|]. split; [done|]. by rewrite H1, H2, H3. Qed.

Lemma applyLifecycle_frame ev r :
  r_closed (applyLifecycle ev r) = r_closed r /\ r_appendErr (applyLifecycle ev r) = r_appendErr r /\
  r_seq (applyLifecycle ev r) = r_seq r /\ r_branch (applyLifecycle ev r) = r_branch r.
Proof. unfold applyLifecycle. by destruct (ev_Type ev). Qed.

(** An operation extends the log. *)
Definition extends (evs : list Event) (d' : RunDisk) (w' : option Run) : Prop :=
  exists added, journal_holds d' w' (evs ++ added).

Lemma extends_refl evs d w : journal_holds d w evs -> extends evs d w.
Proof. intros H. exists []. by rewrite app_nil_r. Qed.

Lemma extends_trans evs added d w : extends (evs ++ added) d w -> extends evs d w.
Proof. intros [more Hm]. exists (added ++ more). by rewrite app_assoc. Qed.

Lemma append_extends env r d ev evs res r' d' :
  journal_holds d (Some r) evs -> r_closed r = false -> next_survives env r ev = true -> append env r d ev = (res, r', d') ->
  r_closed r' = false /\ extends evs d' (Some r').
Proof.
  intros Hj Ho Hsv Ha. destruct (append_spec _ _ _ _ _ _ _ _ Hj Ho Hsv Ha) as (_ & Hc & [[H _]|[H _]]);
    (split; [done|]); [by apply extends_refl | by eexists].
Qed.

Lemma finish_append env ev r d evs :
  journal_holds d (Some r) evs ->
  journal_holds (snd (checkpoint env (applyLifecycle ev r) d)) (Some (applyLifecycle ev r)) evs.
Proof.
  intros Hj. eapply journal_holds_disk; [apply checkpoint_events|].
  destruct (applyLifecycle_frame ev r) as (H1 & H2 & H3 & _). by eapply journal_holds_run.
Qed.

(** The event [appendPrepared] appends. *)
Definition prepared (prepare : option (Event -> N -> option Event)) (ev : Event) (r : Run) : option Event :=
  match prepare with None => Some ev | Some f => f (attributed r ev) (r_seq r + 1)%N end.
Definition prepared_survives (env : call_env) (prepare : option (Event -> N -> option Event)) (ev : Event) (r : Run) : bool :=
  match prepared prepare ev r with Some ev' => next_survives env r ev' | None => true end.

Lemma appendPrepared_extends env prepare ev r d evs res r' d' :
  journal_holds d (Some r) evs -> prepared_survives env prepare ev r = true -> appendPrepared env prepare ev r d = (res, r', d') -> extends evs d' (Some r').
Proof.
  intros Hj. unfold appendPrepared, prepared_survives. destruct (r_closed r) eqn:Hc.
  { intros _ [= <- <- <-]. by apply extends_refl. }
  fold (attributed r ev). fold (prepared prepare ev r). destruct (prepared prepare ev r) as [ev'|]; intros Hsv.
  2: { intros [= <- <- <-]. by apply extends_refl. }
  destruct (append env r d ev') as [[ares r1] d1] eqn:Ha.
  destruct (append_extends _ _ _ _ _ _ _ _ Hj Hc Hsv Ha) as [_ [added Hadd]].
  destruct ares as [[]|e].
  2: { intros [= <- <- <-]. by exists added. }
  pose proof (finish_append env ev' r1 d1 _ Hadd) as Hf.
  destruct (checkpoint env (applyLifecycle ev' r1) d1) as [cres d2]. intros [= <- <- <-]. by exists added.
Qed.

(** Every line of a batch survives, the sequence counting up from [seq]. *)
Fixpoint batch_survives (envs : nat -> call_env) (i : nat) (seq : N) (branch : Z) (events : list Event) : bool :=
  match events with
  | [] => true
  | ev :: events' =>
      survives (stamp (seq + 1) (env_now (envs i)) (if (ev_Branch ev =? 0)%Z then set_Branch branch ev else ev))
      && batch_survives envs (S i) (seq + 1) branch events'
  end.

Lemma batch_loop_extends envs : forall events i r d evs res n r' d',
  journal_holds d (Some r) evs -> r_closed r = false ->
  batch_survives envs i (r_seq r) (r_branch r) events = true ->
  batch_loop envs i events r d = (res, n, r', d') -> extends evs d' (Some r').
Proof.
  induction events as [|ev events IH]; intros i r d evs res n r' d' Hj Hc; cbn [batch_loop batch_survives].
  { intros _ [= <- <- <- <-]. by apply extends_refl. }
  intros [Hsv Hrest]%andb_true_iff. destruct (append (envs i) r d ev) as [[ares r1] d1] eqn:Ha.
  destruct (append_extends _ _ _ _ _ _ _ _ Hj Hc Hsv Ha) as [Hc1 [added Hadd]].
  destruct ares as [[]|e].
  2: { intros [= <- <- <- <-]. by exists added. }
  pose proof (finish_append (envs i) ev r1 d1 _ Hadd) as Hf.
  destruct (checkpoint (envs i) (applyLifecycle ev r1) d1) as [cres d2]. cbn [snd] in Hf.
  destruct cres as [[]|e].
  - intros Hb. destruct (append_frame _ _ _ _ _ _ Ha) as [Hq Hbr].
    destruct (applyLifecycle_frame ev r1) as (F1 & _ & F3 & F4).
    eapply extends_trans, IH; [exact Hf|by rewrite F1| |exact Hb]. by rewrite F3, F4, Hq, Hbr.
  - intros [= <- <- <- <-]. by exists added.
Qed.

Lemma AppendIfAbsent_extends env ev m r d evs res r' d' :
  journal_holds d (Some r) evs -> next_survives env r ev = true -> AppendIfAbsent env ev m r d = (res, r', d') -> extends evs d' (Some r').
Proof.
  intros Hj Hsv. unfold AppendIfAbsent. destruct (r_closed r) eqn:Hc.
  { intros [= <- <- <-]. by apply extends_refl. }
  destruct (readEvents (d_events d)) as [[events torn]|e].
  2: { intros [= <- <- <-]. by apply extends_refl. }
  destruct (existsb m events); [intros [= <- <- <-]; by apply extends_refl|].
  destruct (append env r d ev) as [[ares r1] d1] eqn:Ha.
  destruct (append_extends _ _ _ _ _ _ _ _ Hj Hc Hsv Ha) as [_ [added Hadd]].
  destruct ares as [[]|e].
  2: { intros [= <- <- <-]. by exists added. }
  pose proof (journal_holds_disk d1 _ _ _ (checkpoint_events env r1 d1) Hadd) as Hf.
  destruct (checkpoint env r1 d1) as [[[]|e] d2]; intros [= <- <- <-]; by exists added.
Qed.

(** A writer that stands at the end of a truncated log. *)
Lemma truncated_holds d w evs tail r :
  journal_holds d w evs -> readEvents (d_events d) = Ok (evs, tail) ->
  r_seq r = highestEventSeq evs ->
  journal_holds (mkRunDisk (truncateTornTail (d_events d) tail) (d_state d)) (Some r) evs.
Proof.
  intros (t & Hlog & Hinc & _) Hread Hseq.
  rewrite (log_holds_read _ _ _ Hlog) in Hread. injection Hread as <-.
  exists []. split; [by apply truncate_holds|]. done.
Qed.

(** The marker of a repair, when one is due, survives. *)
Definition marker_survives (env : call_env) (branch : Z) (d : RunDisk) : bool :=
  match readEvents (d_events d) with
  | Ok (events, torn) =>
      (torn =? 0)%nat || survives (stamp (highestEventSeq events + 1) (env_now env) (set_Branch branch (repaired_event torn)))
  | Error _ => true
  end.

Lemma RepairAppendBoundary_extends env truncates r d evs res r' d' :
  journal_holds d (Some r) evs -> marker_survives env (r_branch r) d = true -> RepairAppendBoundary env truncates r d = (res, r', d') ->
  extends evs d' (Some r').
Proof.
  intros Hj. unfold RepairAppendBoundary, marker_survives. destruct (r_closed r) eqn:Hc.
  { intros _ [= <- <- <-]. by apply extends_refl. }
  assert (Hev : exists n, readEvents (d_events d) = Ok (evs, n)).
  { destruct Hj as (t & Hlog & _). eexists. by apply log_holds_read. }
  destruct Hev as [torn Hread]. rewrite Hread. intros Hsv.
  destruct (negb truncates && negb (torn =? 0)%nat); [intros [= <- <- <-]; by apply extends_refl|].
  set (r1 := mkRun _ _ _ _ _ _ _ _ _). set (d1 := mkRunDisk _ _).
  assert (Hj1 : journal_holds d1 (Some r1) evs) by (by eapply truncated_holds).
  destruct (torn =? 0)%nat; [intros [= <- <- <-]; by apply extends_refl|].
  intros Ha. by destruct (append_extends _ _ _ (repaired_event torn) _ _ _ _ Hj1 eq_refl Hsv Ha).
Qed.

Lemma Recover_extends env pruning truncates d w evs res d' :
  journal_holds d w evs -> marker_survives env 0 d = true -> Recover env pruning truncates d = (res, d') ->
  extends evs d' (match res with Ok (r, _) => Some r | Error _ => None end).
Proof.
  assert (Hdrop : forall d w evs, journal_holds d w evs -> journal_holds d None evs).
  { intros d0 w0 evs0 (t & Hl & Hi & _). by exists t. }
  intros Hj. unfold Recover, marker_survives. destruct pruning.
  { intros _ [= <- <-]. apply extends_refl. by eapply Hdrop. }
  assert (Hev : exists n, readEvents (d_events d) = Ok (evs, n)).
  { destruct Hj as (t & Hlog & _). eexists. by apply log_holds_read. }
  destruct Hev as [torn Hread]. rewrite Hread. intros Hsv.
  destruct (negb truncates && negb (torn =? 0)%nat).
  { intros [= <- <-]. apply extends_refl. by eapply Hdrop. }
  set (d1 := mkRunDisk _ _). destruct (recovered_branches _ _) as [branches nb].
  destruct (heal_state _ _ _ _) as [machine nh]. set (r1 := mkRun _ _ _ _ _ _ _ _ _).
  assert (Hj1 : journal_holds d1 (Some r1) evs) by (by eapply truncated_holds).
  destruct (if (torn =? 0)%nat then _ else _) as [[ares r2] d2] eqn:Ha.
  assert (Hext : exists added, journal_holds d2 (Some r2) (evs ++ added)).
  { destruct (torn =? 0)%nat; [injection Ha as <- <- <-; by apply extends_refl|].
    by destruct (append_extends _ _ _ (repaired_event torn) _ _ _ _ Hj1 eq_refl Hsv Ha). }
  destruct Hext as [added Hadd].
  destruct ares as [[]|e]; [|intros [= <- <-]; exists added; by eapply Hdrop].
  destruct (negb (torn =? 0)%nat || nb || nh); [|intros [= <- <-]; by exists added].
  pose proof (journal_holds_disk d2 _ _ _ (checkpoint_events env r2 d2) Hadd) as Hf.
  destruct (checkpoint env r2 d2) as [[[]|e] d3]; cbn [snd] in Hf; intros [= <- <-]; exists added; [done|].
  by eapply Hdrop.
Qed.

(** ** Histories

    A run directory and its writer through appends, repairs, crashes and
    recoveries.  The run lock lets one writer hold the directory: recovery needs
    the last one closed or dead.  Every line that is written survives the
    scrubber. *)
Inductive journal_step : RunDisk * option Run -> RunDisk * option Run -> Prop :=
| step_append env prepare ev r d res r' d' :
    prepared_survives env prepare ev r = true -> appendPrepared env prepare ev r d = (res, r', d') -> journal_step (d, Some r) (d', Some r')
| step_batch now envs events r d res n r' d' :
    batch_survives envs 0 (r_seq r) (r_branch r) events = true -> appendBatch now envs events r d = (res, n, r', d') -> journal_step (d, Some r) (d', Some r')
| step_absent env ev m r d res r' d' :
    next_survives env r ev = true -> AppendIfAbsent env ev m r d = (res, r', d') -> journal_step (d, Some r) (d', Some r')
| step_repair env truncates r d res r' d' :
    marker_survives env (r_branch r) d = true -> RepairAppendBoundary env truncates r d = (res, r', d') -> journal_step (d, Some r) (d', Some r')
| step_machine s r d : journal_step (d, Some r) (d, Some (SetMachineState s r))
| step_branch b r d : journal_step (d, Some r) (d, Some (SetBranch b r))
| step_cursors cs r d : journal_step (d, Some r) (d, Some (SetBranchCursors cs r))
| step_activity now r d : journal_step (d, Some r) (d, Some (ObserveActivity now r))
| step_checkpoint env r d res d' :
    Checkpoint env r d = (res, d') -> journal_step (d, Some r) (d', Some r)
| step_close r d : journal_step (d, Some r) (d, Some (Close r))
| step_crash r d : journal_step (d, Some r) (d, None)
| step_recover env pruning truncates d w res d' :
    match w with Some r => r_closed r = true | None => True end -> marker_survives env 0 d = true ->
    Recover env pruning truncates d = (res, d') ->
    journal_step (d, w) (d', match res with Ok (r, _) => Some r | Error _ => None end).

Lemma journal_step_extends s s' evs :
  journal_step s s' -> journal_holds (fst s) (snd s) evs -> extends evs (fst s') (snd s').
Proof.
  destruct 1; cbn [fst snd]; intros Hj.
  - by eapply appendPrepared_extends.
  - unfold appendBatch in *. destruct (r_closed r) eqn:Hc; [simplify_eq; by apply extends_refl|].
    destruct (batch_fits now (r_seq r) events); [|simplify_eq; by apply extends_refl].
    by eapply batch_loop_extends.
  - by eapply AppendIfAbsent_extends.
  - by eapply RepairAppendBoundary_extends.
  - apply extends_refl. by eapply journal_holds_run.
  - apply extends_refl. by eapply journal_holds_run.
  - apply extends_refl. by eapply journal_holds_run.
  - apply extends_refl. unfold ObserveActivity. case_match; [by eapply journal_holds_run|done].
  - apply extends_refl. unfold Checkpoint in *. destruct (r_closed r); [by simplify_eq|].
    eapply journal_holds_disk; [|exact Hj]. pose proof (checkpoint_events env r d) as Hce.
    match goal with Hc : checkpoint env r d = _ |- _ => rewrite Hc in Hce end. done.
  - apply extends_refl. destruct Hj as (t & Hl & Hi & _). by exists t.
  - apply extends_refl. destruct Hj as (t & Hl & Hi & _). by exists t.
  - by eapply Recover_extends.
Qed.

(** C3: The journal is append-only over every history.  However appends,
    batches, repairs, checkpoints, crashes in the middle of any write and
    recoveries interleave, the events a reader sees at the end are those it saw
    at the start followed by others, and their sequence numbers still increase
    strictly, so no committed event is ever lost, altered, reordered or given a
    sequence twice; provided every line the operations write survives the
    scrubber, that is reads back with the sequence, schema, type and time of its
    event. *)
Theorem journal_is_append_only s s' evs :
  journal_holds (fst s) (snd s) evs -> rtc journal_step s s' ->
  exists added torn, readEvents (d_events (fst s')) = Ok (evs ++ added, torn) /\
    seq_increasing (evs ++ added) /\ journal_holds (fst s') (snd s') (evs ++ added).
Proof.
  intros Hj Hsteps. revert evs Hj. induction Hsteps as [s|s s1 s' Hstep _ IH]; intros evs Hj.
  - exists []. rewrite app_nil_r. pose proof Hj as (t & Hl & Hi & _). exists (length t).
    split; [by apply log_holds_read|done].
  - destruct (journal_step_extends _ _ _ Hstep Hj) as [added Hadd].
    destruct (IH _ Hadd) as (more & t & Hread & Hi & Hj').
    exists (added ++ more), t. by rewrite app_assoc.
Qed.

(** C31: What one [Append] does to the log, on every branch, for an event whose
    line survives the scrubber.  Success commits
    exactly the stamped event, with the next sequence, at the end of a log with
    no torn tail, and the checkpoint carries that sequence.  Failure leaves the
    events as they were or with exactly that event added (a write whose sync
    failed), never another; the writer is then blocked, so that the next event
    cannot be glued to a torn record. *)
Theorem append_commits_exactly env ev r d evs res r' d' :
  journal_holds d (Some r) evs -> r_closed r = false -> r_appendErr r = false -> next_survives env r ev = true ->
  Append env ev r d = (res, r', d') ->
  let e := committed_event (highestEventSeq evs) (env_now env) (attributed r ev) in
  match res with
  | Ok _ => readEvents (d_events d') = Ok (evs ++ [e], 0%nat) /\
            exists st, d_state d' = Some st /\ st_LastSeq st = ev_Seq e /\ st_Phase st = r_phase r'
  | Error _ =>
      exists n, (readEvents (d_events d') = Ok (evs, n) \/ readEvents (d_events d') = Ok (evs ++ [e], n)) /\
        (n <> 0%nat -> r_appendErr r' = true)
  end.
Proof.
  intros Hj Hc Herr Hsv. unfold Append, appendPrepared. rewrite Hc.
  destruct (append env r d ev) as [[ares r1] d1] eqn:Ha.
  destruct (append_spec _ _ _ _ _ _ _ _ Hj Hc Hsv Ha) as (_ & Hc1 & Hcases).
  assert (Herrs : forall evs0, journal_holds d1 (Some r1) evs0 ->
            exists n, readEvents (d_events d1) = Ok (evs0, n) /\ (n <> 0%nat -> r_appendErr r1 = true)).
  { intros evs0 (t & Hl & _ & Hw). exists (length t). split; [by apply log_holds_read|].
    intros Hn. destruct (r_appendErr r1); [done|]. by destruct (Hw Hc1 eq_refl) as [-> _]. }
  destruct ares as [[]|e0].
  - destruct Hcases as [[_ Hbad]|(Hj1 & _ & Hok)]; [done|]. destruct (Hok eq_refl) as (Herr1 & Hseq1 & Hlog1).
    set (r2 := applyLifecycle ev r1). destruct (checkpoint env r2 d1) as [cres d2] eqn:Hck.
    intros [= <- <- <-]. pose proof (checkpoint_events env r2 d1) as Hev. rewrite Hck in Hev. cbn [snd] in Hev.
    apply log_holds_read in Hlog1.
    destruct cres as [[]|e1]; rewrite Hev.
    + split; [done|]. unfold checkpoint in Hck. destruct (env_checkpoint env); simplify_eq.
      eexists. split; [done|]. cbn. split; [|done]. unfold committed_event.
      assert (Hq : r_seq r = highestEventSeq evs) by (destruct Hj as (t & _ & _ & Hw); by apply Hw).
      unfold next_survives in Hsv. rewrite Hq in Hsv. rewrite (kept_Seq _ (survives_kept _ Hsv)). cbn.
      pose proof (proj1 (proj2 (proj2 (applyLifecycle_frame ev r1)))) as Hfr. fold r2 in Hfr. congruence.
    + exists 0%nat. split; [by right|done].
  - intros [= <- <- <-]. destruct Hcases as [[Hj1 _]|(Hj1 & _ & _)];
      destruct (Herrs _ Hj1) as (n & Hr & Hn); exists n; auto.
Qed.

(** A record that reads as no event blocks the log.  When the scrubber turns the
    line of an event into one line that is no JSON value, the append still
    succeeds; from then on every read of the log fails, whatever is appended
    after it, so that neither a reader nor recovery gets past it, and recovery
    leaves the directory as it is. *)
Theorem unreadable_record_blocks_the_log env ev r d evs r' d' more :
  journal_holds d (Some r) evs -> r_closed r = false ->
  no_newline (encoded (stamp (r_seq r + 1) (env_now env) (attributed r ev))) ->
  parse_line (encoded (stamp (r_seq r + 1) (env_now env) (attributed r ev))) = Error ErrCorrupt ->
  append env r d ev = (Ok (), r', d') ->
  readEvents (d_events d' ++ more) = Error ErrCorrupt /\
  forall env' truncates st, Recover env' false truncates (mkRunDisk (d_events d' ++ more) st)
    = (Error ErrCorrupt, mkRunDisk (d_events d' ++ more) st).
Proof.
  intros (t & Hlog & _ & Hw) Hc Hnl Hbad. unfold append. destruct (r_appendErr r) eqn:Herr; [done|].
  destruct (Hw Hc eq_refl) as [-> _]. fold (attributed r ev).
  match goal with |- context [match ?x with Ok _ => _ | Error e => _ end] => destruct x as [[]|e] end; [|done].
  unfold appendEvent. destruct (marshalEvent _) as [line|] eqn:Hm; [|done].
  apply marshalEvent_Some in Hm as ->. set (st := stamp _ _ _) in *. fold (encoded st).
  destruct (_ <? _)%N eqn:Hlen; [done|]. destruct (env_write env); [|done]. intros [= _ <-]. cbn [d_events write_bytes].
  assert (Hread : readEvents ((d_events d ++ encoded st ++ [newline]) ++ more) = Error ErrCorrupt).
  { destruct Hlog as (ls & -> & _ & [Hls Hs] & _). destruct (frame_exists more) as (ls' & t & -> & Hls' & Ht).
    unfold readEvents.
    replace ((_ ++ _) ++ unlines ls' ++ t) with (unlines (ls ++ encoded st :: ls') ++ t)
      by (by rewrite unlines_app, unlines_cons, app_nil_r, <- !app_assoc).
    rewrite parse_frame; [|apply Forall_app; split; [done|by constructor]|done].
    rewrite scan_lines_app, Hs. cbn [scan_lines]. unfold too_long. by rewrite Hlen, Hbad. }
  split; [done|]. intros env' truncates st'. unfold Recover. cbn [d_events]. by rewrite Hread.
Qed.

(** ** Recovery *)

(** A repair marker fits a line. *)
Definition repair_fits (seq : N) (now : Z) (torn : nat) : Prop :=
  (N.of_nat (length (encoded (stamp (seq + 1) now (repaired_event torn)))) + 1 <= maxEventBytes)%N.

Lemma append_repaired env r d evs torn :
  journal_holds d (Some r) evs -> r_closed r = false -> r_appendErr r = false -> r_branch r = 0%Z ->
  env_write env = WriteDone -> repair_fits (highestEventSeq evs) (env_now env) torn ->
  exists r', append env r d (repaired_event torn) =
    (Ok (), r', mkRunDisk (d_events d ++ encoded (stamp (highestEventSeq evs + 1) (env_now env) (repaired_event torn)) ++ [newline]) (d_state d)) /\
    r_phase r' = r_phase r /\ r_machineState r' = r_machineState r /\ r_reason r' = r_reason r.
Proof.
  intros (t & Hlog & Hinc & Hw) Hc Herr Hb Hwr Hfit. destruct (Hw Hc Herr) as [-> Hseq].
  unfold append. rewrite Herr, Hb, Hwr, Hseq. cbn [ev_Branch repaired_event Z.eqb].
  unfold appendEvent, marshalEvent. cbn [ev_Type stamp set_Branch repaired_event].
  change (set_Branch 0 (repaired_event torn)) with (repaired_event torn).
  unfold repair_fits in Hfit. unfold encoded in *.
  rewrite (proj2 (N.ltb_ge _ _)) by exact Hfit. eexists. done.
Qed.

(** C19: Recovery after a crash loses nothing.  Whatever prefix of a record and
    zero fill the crash left behind, [Recover] on a working disk succeeds
    (the line of the marker it may write fits and survives the scrubber),
    reports exactly the committed events, cuts the torn tail and marks the cut
    with one [repaired] event (and only then), and hands out a writer in the
    phase the log implies, standing after the last event.  A terminal phase is
    healed into [state.json], with no machine state, even when the crash had
    stranded the checkpoint. *)
Theorem recovery_loses_nothing env d evs tail :
  log_holds (d_events d) evs tail -> seq_increasing evs ->
  env_write env = WriteDone -> env_checkpoint env = CheckpointDone ->
  repair_fits (highestEventSeq evs) (env_now env) (length tail) -> marker_survives env 0 d = true ->
  let marker := committed_event (highestEventSeq evs) (env_now env) (repaired_event (length tail)) in
  let evs' := if (length tail =? 0)%nat then evs else evs ++ [marker] in
  exists r report d', Recover env false true d = (Ok (r, report), d') /\
    rep_Events report = evs /\ readEvents (d_events d') = Ok (evs', 0%nat) /\
    r_phase r = reconstructPhase evs /\ r_seq r = highestEventSeq evs' /\
    journal_holds d' (Some r) evs' /\
    (reconstructPhase evs <> PhaseRunning ->
     exists st, d_state d' = Some st /\ st_Phase st = reconstructPhase evs /\ st_MachineState st = "" /\
                st_Reason st = reconstructReason evs).
Proof.
  intros Hlog Hinc Hwr Hck Hfit. cbv zeta. unfold Recover, marker_survives.
  rewrite (log_holds_read _ _ _ Hlog). intros Hms. cbn [negb andb].
  set (d1 := mkRunDisk _ _).
  destruct (recovered_branches _ _) as [branches nb].
  destruct (heal_state _ _ _ _) as [machine nh] eqn:Hheal. set (r1 := mkRun _ _ _ _ _ _ _ _ _).
  assert (Hj0 : journal_holds d None evs) by (by exists tail).
  assert (Hj1 : journal_holds d1 (Some r1) evs).
  { eapply truncated_holds; [exact Hj0|by apply log_holds_read|done]. }
  assert (Hterm : reconstructPhase evs <> PhaseRunning -> machine = "" /\
            (nh = false -> exists st, d_state d = Some st /\ st_Phase st = reconstructPhase evs /\
                             st_MachineState st = "" /\ st_Reason st = reconstructReason evs)).
  { intros Hne. revert Hheal. unfold heal_state. rewrite bool_decide_eq_false_2 by done. cbn [negb].
    unfold read_state. destruct (d_state d) as [st|]; [|intros [= <- <-]; done].
    destruct (st_Schema st =? StateSchema); [|intros [= <- <-]; done].
    destruct (bool_decide _ && _ && _) eqn:Hcmp; intros [= <- <-]; [|done].
    apply andb_true_iff in Hcmp as [[Hp%bool_decide_eq_true Hm%String.eqb_eq]%andb_true_iff Hr%String.eqb_eq].
    split; [done|]. intros _. by exists st. }
  destruct (Nat.eqb_spec (length tail) 0) as [H0|H0].
  - cbn [negb orb]. assert (Hlog1 : log_holds (d_events d1) evs []) by (cbn; by apply truncate_holds).
    destruct (nb || nh) eqn:Hneed.
    + unfold checkpoint. rewrite Hck. eexists r1, _, _. split; [done|]. split; [done|].
      split; [cbn; by apply (log_holds_read _ _ [])|]. split; [done|]. split; [done|].
      split; [by eapply journal_holds_disk|]. intros Hne. destruct (Hterm Hne) as [-> _]. eexists. done.
    + apply orb_false_iff in Hneed as [_ Hnh]. eexists r1, _, _. split; [done|]. split; [done|].
      split; [by apply (log_holds_read _ _ [])|]. split; [done|]. split; [done|]. split; [done|].
      intros Hne. by apply (proj2 (Hterm Hne)).
  - cbn [negb orb]. destruct (append_repaired env r1 d1 evs (length tail)) as (r2 & Ha & Hp & Hm & Hr); try done.
    assert (Hlog1 : log_holds (d_events d1) evs []) by (cbn; by apply truncate_holds).
    rewrite Ha. unfold checkpoint. rewrite Hck. cbn [d_events].
    cbn [orb] in Hms. change (set_Branch 0 (repaired_event (length tail))) with (repaired_event (length tail)) in Hms.
    assert (Hsn := log_holds_snoc _ _ _ Hlog1 Hms Hfit (KnownSchema_stamp _ _ _ Hms)).
    destruct (append_spec _ _ _ (repaired_event (length tail)) _ _ _ _ Hj1 eq_refl Hms Ha) as (_ & _ & [[_ Hbad]|(Hj2 & _ & Hok)]); [done|].
    destruct (Hok eq_refl) as (_ & Hseq2 & _).
    assert (Hatt : attributed r1 (repaired_event (length tail)) = repaired_event (length tail)) by done.
    rewrite Hatt in *. pose proof (committed_increasing evs (env_now env) (repaired_event (length tail)) Hms Hinc) as [_ Hh].
    eexists r2, _, _. split; [done|]. split; [done|]. split; [by apply (log_holds_read _ _ [])|].
    split; [done|]. split; [by rewrite Hh|]. split; [by eapply journal_holds_disk|].
    intros Hne. destruct (Hterm Hne) as [Hmach _]. eexists. split; [done|]. cbn.
    rewrite Hp, Hm, Hr. cbn. by rewrite Hmach.
Qed.
End props.
