(* ===== verification/JournalInstance.v ===== *)
(** * The instance journal

    [internal/journal/instance.go], [instancetail.go], [instancelogtail.go],
    [instancegen.go], [compact.go] and [instancetickskips.go]: the log of the
    scheduler's decisions, which every process of the instance may append to.
    Each operation runs under the cross-process journal lock.  Compaction writes
    a new generation and advances a pointer; a generation is numbered and its
    file is never rewritten.  Reclaiming stale generations, which removes files
    nothing resolves to any more, is left out. *)

From S2P Require Export JournalRun.
Local Open Scope string_scope.
Local Open Scope list_scope.

Definition instanceTailBudget : N := 8 * 1024 * 1024.
Definition tailChunkSize : N := 64 * 1024.
Definition ConfigGenerationAppliedAnnotation : string := "config.generation.applied".

(** The directory: the generation the pointer names and the generation files. *)
Record InstanceDir := mkDir { dir_gen : N; dir_files : gmap N (list N) }.

(** A handle: its counter, the generation it has open, the fence of the
    tick-skip pass. *)
Record InstanceLog := mkLog {
  il_seq : N;
  il_gen : N;
  il_closed : bool;
  il_retry : option (N * N)
}.

Section instance.
Context `{EventCodec}.

(** ** Sequence allocation *)

(** [highestSeqInChunk]: the highest sequence seen so far, if any. *)
Fixpoint highest_seq (fuel : nat) (atFileStart : bool) (found : option N) (buf : list N)
    : result journal_error (option N) :=
  match fuel with
  | O => Ok found
  | S n =>
      if (length buf =? 0)%nat then Ok found
      else match last_line atFileStart buf with
      | None => Ok found
      | Some (raw, buf') =>
          match parse_line raw with
          | Error e => Error e
          | Ok None => highest_seq n atFileStart found buf'
          | Ok (Some ev) =>
              if negb (KnownSchema ev) then Error ErrSchema
              else if (ev_Seq ev =? 0)%N then highest_seq n atFileStart found buf'
              else
                let highest := default 0%N found in
                let highest := if (highest <? ev_Seq ev)%N then ev_Seq ev else highest in
                highest_seq n atFileStart (Some highest) buf'
          end
      end
  end.
Definition highestSeqInChunk (buf : list N) (atFileStart : bool) : result journal_error (option N) :=
  highest_seq (length buf) atFileStart None buf.

Definition tailSequence_with (chunk budget : N) (file : list N) : tail_answer (N * nat) :=
  match tail_scan highestSeqInChunk chunk budget file chunk with
  | Decided (found, torn, _) => Decided (default 0%N found, torn)
  | BudgetExhausted => BudgetExhausted
  | TailFailed e => TailFailed e
  end.

(** An exhausted budget falls back to the full read, never to zero. *)
Definition sequenceFromTailOrFull_with (chunk budget : N) (file : list N)
    : result journal_error (N * nat) :=
  match tailSequence_with chunk budget file with
  | Decided a => Ok a
  | TailFailed e => Error e
  | BudgetExhausted =>
      match readEvents file with
      | Ok (events, torn) => Ok (highestEventSeq events, torn)
      | Error e => Error e
      end
  end.
Definition sequenceFromTailOrFull : list N -> result journal_error (N * nat) :=
  sequenceFromTailOrFull_with tailChunkSize instanceTailBudget.

(** ** Opening and appending *)

Definition current_file (dir : InstanceDir) : list N := default [] (dir_files dir !! dir_gen dir).
Definition set_file (dir : InstanceDir) (file : list N) : InstanceDir :=
  mkDir (dir_gen dir) (<[dir_gen dir := file]> (dir_files dir)).

Record instance_env := mkIEnv {
  ie_now : Z;
  ie_truncates : bool;
  ie_repair : write_fate;
  ie_write : write_fate
}.

(** Cut the torn tail and mark the cut; shared by opening and appending. *)
Definition repair_tail (env : instance_env) (seq : N) (tornBytes : nat) (dir : InstanceDir)
    : result journal_error unit * N * InstanceDir :=
  if (tornBytes =? 0)%nat then (Ok (), seq, dir)
  else if negb (ie_truncates env) then (Error ErrWrite, seq, dir)
  else
    let file := truncateTornTail (current_file dir) tornBytes in
    let '(res, seq, file) := appendEvent (ie_repair env) (ie_now env) file seq (repaired_event tornBytes) in
    (match res with Ok _ => Ok () | Error e => Error e end, seq, set_file dir file).

Definition OpenInstanceLog (env : instance_env) (dir : InstanceDir)
    : result journal_error InstanceLog * InstanceDir :=
  match sequenceFromTailOrFull (current_file dir) with
  | Error e => (Error e, dir)
  | Ok (highest, tornBytes) =>
      let '(res, seq, dir) := repair_tail env highest tornBytes dir in
      match res with
      | Error e => (Error e, dir)
      | Ok _ => (Ok (mkLog seq (dir_gen dir) false None), set_file dir (current_file dir))
      end
  end.

(** [InstanceLog.Append]; the active generation must exist. *)
Definition InstanceAppend (env : instance_env) (ev : Event) (l : InstanceLog) (dir : InstanceDir)
    : result journal_error unit * InstanceLog * InstanceDir :=
  if il_closed l then (Error ErrClosed, l, dir)
  else match dir_files dir !! dir_gen dir with
  | None => (Error ErrWrite, l, dir)
  | Some file =>
      let l := mkLog (il_seq l) (dir_gen dir) false (il_retry l) in
      match sequenceFromTailOrFull file with
      | Error e => (Error e, l, dir)
      | Ok (highest, tornBytes) =>
          let highest := if (highest <? il_seq l)%N then il_seq l else highest in
          let '(res, seq, dir) := repair_tail env highest tornBytes dir in
          match res with
          | Error e => (Error e, mkLog seq (il_gen l) false (il_retry l), dir)
          | Ok _ =>
              let '(res, seq, file) := appendEvent (ie_write env) (ie_now env) (current_file dir) seq ev in
              (match res with Ok _ => Ok () | Error e => Error e end,
               mkLog seq (il_gen l) false (il_retry l), set_file dir file)
          end
      end
  end.

Definition CloseInstanceLog (l : InstanceLog) : InstanceLog :=
  mkLog (il_seq l) (il_gen l) true (il_retry l).

(** ** Reading after a sequence *)

Definition eventsAfter (events : list Event) (seq : N) : list Event :=
  List.filter (fun e => (seq <? ev_Seq e)%N) events.

(** The records after the last one whose sequence is at most [seq]. *)
Fixpoint after_last_le (seq : N) (newest : list Event) (after : list Event) : option (list Event) :=
  match newest with
  | [] => None
  | e :: older => if (ev_Seq e <=? seq)%N then Some after else after_last_le seq older (e :: after)
  end.

Fixpoint read_after_loop (chunk : N) (fuel : nat) (file : list N) (seq start : N) (window : list N)
    : result journal_error (list Event * nat) :=
  match fuel with
  | O => Error ErrScan
  | S n =>
      let chunkStart := (start - chunk)%N in
      let piece := take (N.to_nat (start - chunkStart)) (drop (N.to_nat chunkStart) file) in
      let window := piece ++ window in
      let candidate :=
        if (chunkStart =? 0)%N then Some window
        else match IndexByte newline window with
             | None => None
             | Some nl => Some (drop (S nl) window)
             end in
      match candidate with
      | None => read_after_loop chunk n file seq chunkStart window
      | Some candidate =>
          match parseEventRecords candidate with
          | Error e => Error e
          | Ok (events, torn) =>
              match after_last_le seq (rev events) [] with
              | Some after => Ok (eventsAfter after seq, (length file - torn)%nat)
              | None =>
                  if (chunkStart =? 0)%N then Ok (eventsAfter events seq, (length file - torn)%nat)
                  else read_after_loop chunk n file seq chunkStart window
              end
          end
      end
  end.

(** [readEventsAfterSeq]: the events and the offset of the end of the complete
    records. *)
Definition readEventsAfterSeq_with (chunk : N) (file : list N) (seq : N)
    : result journal_error (list Event * nat) :=
  if (seq =? 0)%N then
    match parseEventRecords file with
    | Error e => Error e
    | Ok (events, torn) => Ok (eventsAfter events seq, (length file - torn)%nat)
    end
  else read_after_loop chunk (S (length file)) file seq (N.of_nat (length file)) [].
Definition readEventsAfterSeq : list N -> N -> result journal_error (list Event * nat) :=
  readEventsAfterSeq_with tailChunkSize.

(** ** The incremental reader *)

Record InstanceLogTail := mkTail { t_gen : N; t_offset : nat; t_seq : N }.

Definition accept (events : list Event) (t : InstanceLogTail) : InstanceLogTail :=
  mkTail (t_gen t) (t_offset t)
    (fold_left (fun s e => if (s <? ev_Seq e)%N then ev_Seq e else s) events (t_seq t)).

Definition OpenInstanceLogTail_with (chunk budget : N) (dir : InstanceDir) : option InstanceLogTail :=
  match tailSequence_with chunk budget (current_file dir) with
  | Decided (seq, torn) => Some (mkTail (dir_gen dir) (length (current_file dir) - torn) seq)
  | _ => None
  end.

Definition readCurrent (t : InstanceLogTail) (dir : InstanceDir)
    : result journal_error (list Event) * InstanceLogTail :=
  let file := default [] (dir_files dir !! t_gen t) in
  if (length file <=? t_offset t)%nat then (Ok [], t)
  else
    let data := drop (t_offset t) file in
    match parseEventRecords data with
    | Error e => (Error e, t)
    | Ok (records, torn) =>
        let t := mkTail (t_gen t) (t_offset t + (length data - torn)) (t_seq t) in
        let events := eventsAfter records (t_seq t) in
        (Ok events, accept events t)
    end.

(** [InstanceLogTail.Events] on a directory that does not change under it: the
    current generation, then, when the pointer moved, the rest of the frozen
    generation and the records of the new one beyond the last sequence. *)
Definition TailEvents (t : InstanceLogTail) (dir : InstanceDir)
    : result journal_error (list Event) * InstanceLogTail :=
  let '(res, t) := readCurrent t dir in
  match res with
  | Error e => (Error e, t)
  | Ok events =>
      if (t_gen t =? dir_gen dir)%N then (Ok events, t)
      else
        let '(res, t) := readCurrent t dir in
        match res with
        | Error e => (Error e, t)
        | Ok drained =>
            match readEventsAfterSeq (current_file dir) (t_seq t) with
            | Error e => (Error e, t)
            | Ok (appended, offset) =>
                let t := accept appended (mkTail (dir_gen dir) offset (t_seq t)) in
                let '(res, t) := readCurrent t dir in
                match res with
                | Error e => (Error e, t)
                | Ok more => (Ok (events ++ drained ++ appended ++ more), t)
                end
            end
        end
  end.
End instance.
