(* ===== verification/JournalInstanceProps.v ===== *)
(** * Sequence allocation and incremental reads of the instance journal

    The bounded tail read allocates exactly as the full read does; appends from
    any number of handles keep the sequences increasing; reading after a
    sequence is the filter of the full read. *)

From Stdlib Require Import Sorting.Sorted.
From S2P Require Export JournalLogFacts JournalRunProps JournalInstance.
Local Open Scope list_scope.

(** ** Increasing sequences *)

Lemma seq_increasing_app_inv evs1 evs2 :
  seq_increasing (evs1 ++ evs2) ->
  seq_increasing evs1 /\ seq_increasing evs2 /\
  forall a b, a ∈ evs1 -> b ∈ evs2 -> (ev_Seq a < ev_Seq b)%N.
Proof.
  intros [Hs Hp]. apply Forall_app in Hp as [Hp1 Hp2].
  induction evs1 as [|x evs1 IH]; cbn in *; [split; [apply seq_increasing_nil|]; split; [done|]; set_solver|].
  inversion_clear Hs as [|? ? Hs' Hx]. apply Forall_app in Hx as [Hx1 Hx2]. inversion_clear Hp1.
  destruct IH as ([Hs1 _] & Hs2 & Hlt); [done..|].
  split; [split; constructor; done|]. split; [done|].
  intros a b [->|Ha]%elem_of_cons Hb; [by eapply Forall_forall in Hx2|by apply Hlt].
Qed.


Lemma highest_suffix_eq older newer :
  seq_increasing (older ++ newer) -> newer <> [] ->
  highestEventSeq newer = highestEventSeq (older ++ newer).
Proof.
  intros Hinc Hne. destruct (exists_last Hne) as (init & e & ->).
  rewrite app_assoc, !highest_snoc. rewrite app_assoc in Hinc.
  apply seq_increasing_app_inv in Hinc as (_ & _ & Hlt).
  assert (Hle : forall l, (forall a, a ∈ l -> a ∈ older ++ init) -> (highestEventSeq l <= ev_Seq e)%N).
  { intros l. induction l as [|x l IH] using rev_ind; intros Hin; [cbn; lia|]. rewrite highest_snoc.
    assert (ev_Seq x < ev_Seq e)%N by (apply Hlt; [apply Hin|]; set_solver).
    specialize (IH ltac:(set_solver)). lia. }
  pose proof (Hle init ltac:(set_solver)). pose proof (Hle (older ++ init) ltac:(auto)). lia.
Qed.

Section allocation.
Context `{C : EventCodec}.

Definition seq_step (found : option N) (ev : Event) : result journal_error (option N) + option N :=
  if negb (KnownSchema ev) then inl (Error ErrSchema)
  else if (ev_Seq ev =? 0)%N then inr found
  else inr (Some (if (default 0 found <? ev_Seq ev)%N then ev_Seq ev else default 0%N found)).
Definition seq_fin (afs : bool) (found : option N) : option N := found.

Lemma highest_seq_step n afs found buf raw buf' :
  buf <> [] -> last_line afs buf = Some (raw, buf') ->
  highest_seq (S n) afs found buf =
    match parse_line raw with
    | Error e => Error e
    | Ok None => highest_seq n afs found buf'
    | Ok (Some ev) => match seq_step found ev with inl r => r | inr f => highest_seq n afs f buf' end
    end.
Proof.
  intros Hne Hl. cbn [highest_seq]. destruct buf as [|b buf0]; [done|]. cbn [length Nat.eqb].
  rewrite Hl. destruct (parse_line raw) as [[ev|]|]; [|done..]. unfold seq_step.
  destruct (negb (KnownSchema ev)); [done|]. by destruct (ev_Seq ev =? 0)%N.
Qed.
Lemma highest_seq_nil n afs found : highest_seq n afs found [] = Ok (seq_fin afs found).
Proof. by destruct n. Qed.
Lemma highest_seq_stop n found buf : no_newline buf -> highest_seq n false found buf = Ok (seq_fin false found).
Proof.
  intros Hb. destruct n; [done|]. cbn [highest_seq]. destruct buf; [done|]. cbn [length Nat.eqb].
  unfold last_line. by rewrite (proj2 (LastIndexByte_None _ _) Hb).
Qed.

Lemma back_run_seq newest found afs :
  Forall (fun e => KnownSchema e = true) newest -> Forall (fun e => (0 < ev_Seq e)%N) newest ->
  back_result seq_fin afs (back_run seq_step found newest) =
    Ok (if decide (newest = []) then found
        else Some (N.max (default 0%N found) (highestEventSeq (rev newest)))).
Proof.
  intros Hk Hp. revert found. induction newest as [|ev newest IH]; intros found; [done|].
  inversion_clear Hk. inversion_clear Hp. cbn [back_run]. unfold seq_step at 1.
  rewrite H, (proj2 (N.eqb_neq _ _)) by lia. cbn [negb]. rewrite IH by done. cbn [rev].
  rewrite highest_step, highest_snoc. destruct (decide (newest = [])) as [->|]; cbn; do 2 f_equal; lia.
Qed.

Lemma highestSeq_suffix ls evs k :
  lines_hold ls evs -> Forall (fun e => KnownSchema e = true) evs -> seq_increasing evs ->
  (k <= length (unlines ls))%nat ->
  exists newer older, evs = older ++ newer /\ (k = 0%nat -> older = []) /\
    highestSeqInChunk (drop k (unlines ls)) (k =? 0)%nat =
      Ok (if decide (newer = []) then None else Some (highestEventSeq newer)).
Proof.
  intros Hl Hk Hinc Hle. unfold highestSeqInChunk.
  destruct (backward_suffix highest_seq seq_step seq_fin highest_seq_nil highest_seq_stop
              highest_seq_step ls evs k None Hl Hle) as (older & newer & -> & H0 & Hd).
  exists newer, older. split; [done|]. split; [done|]. rewrite Hd.
  apply Forall_app in Hk as [_ Hk]. apply seq_increasing_app_inv in Hinc as (_ & [_ Hp] & _).
  rewrite back_run_seq.
  - rewrite rev_involutive. cbn [default].
    destruct (decide (rev newer = [])) as [Hr|Hr], (decide (newer = [])) as [Hn|Hn]; try done.
    + apply (f_equal (@rev Event)) in Hr. by rewrite rev_involutive in Hr.
    + by rewrite Hn in Hr.
    + do 2 f_equal. lia.
  - apply Forall_forall. intros e He%list_elem_of_In%in_rev%list_elem_of_In. by eapply Forall_forall in Hk.
  - apply Forall_forall. intros e He%list_elem_of_In%in_rev%list_elem_of_In. by eapply Forall_forall in Hp.
Qed.

Lemma tailSequence_agrees chunk budget file evs tail :
  (0 < chunk)%N -> log_holds file evs tail -> seq_increasing evs ->
  tailSequence_with chunk budget file = Decided (highestEventSeq evs, length tail) \/
  tailSequence_with chunk budget file = BudgetExhausted.
Proof.
  intros Hc (ls & -> & Ht & Hl & Hk) Hinc. unfold tailSequence_with.
  destruct (decide (unlines ls ++ tail = [])) as [Hnil|Hne].
  { apply app_nil in Hnil as [Hu ->]. destruct ls as [|l ls].
    - apply lines_hold_nil in Hl as ->. by left.
    - rewrite unlines_cons in Hu. by destruct l. }
  pose proof (tail_scan_spec highestSeqInChunk chunk budget ls tail Ht chunk Hc Hne) as Hspec.
  destruct (tail_scan _ _ _ _ _) as [[[found n] w]| |e].
  - left. destruct found as [p|].
    + destruct Hspec as [-> (k & Hkl & Hd)].
      destruct (highestSeq_suffix ls evs k Hl Hk Hinc Hkl) as (newer & older & -> & H0 & Hd').
      rewrite Hd in Hd'. destruct (decide (newer = [])) as [|Hnn]; [done|]. injection Hd' as ->.
      cbn. by rewrite (highest_suffix_eq older newer).
    + destruct Hspec as [-> Hd].
      destruct (highestSeq_suffix ls evs 0 Hl Hk Hinc ltac:(lia)) as (newer & older & -> & H0 & Hd').
      rewrite H0 in * by done. cbn [drop Nat.eqb] in Hd'. rewrite drop_0 in Hd'. rewrite Hd in Hd'.
      destruct (decide (newer = [])) as [->|]; [done|done].
  - by right.
  - exfalso. destruct Hspec as (k & Hkl & Hd).
    destruct (highestSeq_suffix ls evs k Hl Hk Hinc Hkl) as (newer & older & -> & H0 & Hd'). congruence.
Qed.

Lemma sequence_agrees chunk budget file evs tail :
  (0 < chunk)%N -> log_holds file evs tail -> seq_increasing evs ->
  sequenceFromTailOrFull_with chunk budget file = Ok (highestEventSeq evs, length tail).
Proof.
  intros Hc Hlog Hinc. unfold sequenceFromTailOrFull_with.
  destruct (tailSequence_agrees chunk budget file evs tail Hc Hlog Hinc) as [-> | ->]; [done|].
  by rewrite (log_holds_read _ _ _ Hlog).
Qed.
End allocation.

Section appends.
Context `{C : EventCodec}.

(** The events of the current generation. *)
Definition dir_holds (dir : InstanceDir) (evs : list Event) : Prop :=
  exists tail, log_holds (current_file dir) evs tail /\ seq_increasing evs.

Lemma current_set dir file : current_file (set_file dir file) = file.
Proof. unfold current_file, set_file. cbn. by rewrite lookup_insert_eq. Qed.

(** The lines an operation writes survive the scrubber: the marker of a repair,
    when one is due, and the event. *)
Definition repair_survives (env : instance_env) (seq : N) (torn : nat) : bool :=
  (torn =? 0)%nat || survives (stamp (seq + 1) (ie_now env) (repaired_event torn)).
Definition open_survives (env : instance_env) (dir : InstanceDir) : bool :=
  match sequenceFromTailOrFull (current_file dir) with
  | Ok (highest, torn) => repair_survives env highest torn
  | Error _ => true
  end.
Definition append_survives (env : instance_env) (ev : Event) (l : InstanceLog) (dir : InstanceDir) : bool :=
  match sequenceFromTailOrFull (current_file dir) with
  | Ok (highest, torn) =>
      let highest := if (highest <? il_seq l)%N then il_seq l else highest in
      let seq := if (torn =? 0)%nat then highest else (highest + 1)%N in
      repair_survives env highest torn && survives (stamp (seq + 1) (ie_now env) ev)
  | Error _ => true
  end.

Lemma repair_tail_seq env seq torn dir seq' dir' :
  repair_tail env seq torn dir = (Ok (), seq', dir') -> seq' = if (torn =? 0)%nat then seq else (seq + 1)%N.
Proof.
  unfold repair_tail, appendEvent. destruct (torn =? 0)%nat; [by intros [= <-]|].
  destruct (negb _); [done|]. destruct (marshalEvent _) as [line|]; [|done]. destruct (_ <? _)%N; [done|].
  destruct (ie_repair env); [|done]. by intros [= <-].
Qed.

(** One append with a counter at or above everything committed. *)
Lemma counter_append fate now file seq ev evs res seq' file' :
  log_holds file evs [] -> seq_increasing evs -> (highestEventSeq evs <= seq)%N ->
  survives (stamp (seq + 1) now ev) = true ->
  appendEvent fate now file seq ev = (res, seq', file') ->
  let e := committed_event seq now ev in
  (seq <= seq')%N /\
  ((exists tail, log_holds file' evs tail /\ ~ result_is_ok res) \/
   (seq_increasing (evs ++ [e]) /\ highestEventSeq (evs ++ [e]) = seq' /\
    exists tail, log_holds file' (evs ++ [e]) tail /\ (result_is_ok res -> tail = []))).
Proof.
  intros Hlog Hinc Hle Hsv Ha. pose proof (appendEvent_spec fate now file seq ev evs Hlog Hsv) as Heff.
  rewrite Ha in Heff. cbv zeta.
  assert (Hseq : ev_Seq (committed_event seq now ev) = (seq + 1)%N).
  { unfold committed_event. by rewrite (kept_Seq _ (survives_kept _ Hsv)). }
  assert (Hinc' : seq_increasing (evs ++ [committed_event seq now ev])) by (apply seq_increasing_snoc; [done|lia]).
  assert (Hh : highestEventSeq (evs ++ [committed_event seq now ev]) = (seq + 1)%N) by (rewrite highest_snoc; lia).
  fold (committed_event seq now ev) in Heff. inversion Heff; subst; (split; [lia|]).
  - left. exists []. split; [done|]. cbn. auto.
  - right. split; [done|]. split; [done|]. by exists [].
  - left. eexists. split; [done|]. cbn. auto.
  - right. split; [done|]. split; [done|]. eexists. split; [done|]. cbn. done.
Qed.

Lemma repair_tail_spec env seq dir evs tail res seq' dir' :
  log_holds (current_file dir) evs tail -> seq_increasing evs -> (highestEventSeq evs <= seq)%N ->
  repair_survives env seq (length tail) = true -> repair_tail env seq (length tail) dir = (res, seq', dir') ->
  dir_gen dir' = dir_gen dir /\ (seq <= seq')%N /\
  exists added tail', log_holds (current_file dir') (evs ++ added) tail' /\ seq_increasing (evs ++ added) /\
    (result_is_ok res -> tail' = [] /\ (highestEventSeq (evs ++ added) <= seq')%N).
Proof.
  intros Hlog Hinc Hle. unfold repair_tail, repair_survives. destruct (Nat.eqb_spec (length tail) 0) as [H0|H0]; intros Hsv.
  { intros [= <- <- <-]. apply nil_length_inv in H0 as ->. split; [done|]. split; [lia|].
    exists [], []. rewrite app_nil_r. done. }
  destruct (ie_truncates env); cbn [negb].
  2: { intros [= <- <- <-]. split; [done|]. split; [lia|]. exists [], tail. rewrite app_nil_r.
       split; [done|]. split; [done|]. cbn. done. }
  destruct (appendEvent _ _ _ _ _) as [[ares aseq] afile] eqn:Ha. intros [= <- <- <-].
  apply truncate_holds in Hlog.
  destruct (counter_append _ _ _ _ _ _ _ _ _ Hlog Hinc Hle Hsv Ha) as [Hmono [(t & Hl & Hno)|(Hi & Hh & t & Hl & Hok)]];
    (split; [done|]); (split; [done|]); rewrite current_set.
  - exists [], t. rewrite app_nil_r. split; [done|]. split; [done|]. by destruct ares.
  - eexists [_], t. split; [done|]. split; [done|]. destruct ares; [|done]. intros _.
    split; [by apply Hok|]. by rewrite Hh.
Qed.

Lemma OpenInstanceLog_extends env dir evs res dir' :
  dir_holds dir evs -> open_survives env dir = true -> OpenInstanceLog env dir = (res, dir') ->
  dir_gen dir' = dir_gen dir /\ exists added, dir_holds dir' (evs ++ added).
Proof.
  intros (tail & Hlog & Hinc). unfold open_survives, OpenInstanceLog, sequenceFromTailOrFull.
  rewrite (sequence_agrees _ _ _ evs tail) by done. intros Hsv.
  destruct (repair_tail _ _ _ _) as [[rres rseq] rdir] eqn:Hr.
  destruct (repair_tail_spec _ _ _ _ _ _ _ _ Hlog Hinc (N.le_refl _) Hsv Hr) as (Hg & _ & added & t & Hl & Hi & _).
  destruct rres; intros [= <- <-]; (split; [done|]); exists added, t; [|done].
  by rewrite current_set.
Qed.

Lemma InstanceAppend_extends env ev l dir evs res l' dir' :
  dir_holds dir evs -> append_survives env ev l dir = true -> InstanceAppend env ev l dir = (res, l', dir') ->
  dir_gen dir' = dir_gen dir /\ (il_seq l <= il_seq l')%N /\
  exists added, dir_holds dir' (evs ++ added) /\
    (result_is_ok res -> exists marker,
       added = marker ++ [committed_event (il_seq l' - 1) (ie_now env) ev] /\
       (il_seq l < il_seq l')%N /\ (highestEventSeq evs < il_seq l')%N /\
       survives (stamp (il_seq l' - 1 + 1) (ie_now env) ev) = true /\
       readEvents (current_file dir') = Ok (evs ++ added, 0%nat)).
Proof.
  intros (tail & Hlog & Hinc) Hsv. unfold InstanceAppend.
  destruct (il_closed l).
  { intros [= <- <- <-]. split; [done|]. split; [lia|]. exists []. rewrite app_nil_r. split; [by exists tail|done]. }
  destruct (dir_files dir !! dir_gen dir) as [file|] eqn:Hf.
  2: { intros [= <- <- <-]. split; [done|]. split; [lia|]. exists []. rewrite app_nil_r. split; [by exists tail|done]. }
  assert (Hcf : file = current_file dir) by (unfold current_file; by rewrite Hf). subst file.
  unfold append_survives in Hsv. unfold sequenceFromTailOrFull in *. rewrite (sequence_agrees _ _ _ evs tail) in * by done.
  cbn [il_seq il_gen il_retry]. cbv zeta in Hsv. set (high := if (_ <? _)%N then _ else _) in *.
  assert (Hhigh : (highestEventSeq evs <= high)%N /\ (il_seq l <= high)%N).
  { unfold high. destruct (N.ltb_spec (highestEventSeq evs) (il_seq l)); lia. }
  apply andb_true_iff in Hsv as [Hmark Hev].
  destruct (repair_tail _ _ _ _) as [[rres rseq] rdir] eqn:Hr.
  destruct (repair_tail_spec _ _ _ _ _ _ _ _ Hlog Hinc (proj1 Hhigh) Hmark Hr) as (Hg & Hm & marker & t & Hl & Hi & Hok).
  destruct rres as [[]|e].
  2: { intros [= <- <- <-]. split; [done|]. split; [cbn; lia|]. exists marker. split; [by exists t|done]. }
  destruct (Hok I) as [-> Hle2]. rewrite <- (repair_tail_seq _ _ _ _ _ _ Hr) in Hev. destruct (appendEvent _ _ _ _ _) as [[ares aseq] afile] eqn:Ha.
  intros [= <- <- <-]. cbn [il_seq].
  destruct (counter_append _ _ _ _ _ _ _ _ _ Hl Hi Hle2 Hev Ha) as [Hmono [(t2 & Hl2 & Hno)|(Hi2 & Hh2 & t2 & Hl2 & Hok2)]];
    (split; [done|]); (split; [lia|]).
  - exists marker. split; [exists t2; by rewrite current_set|]. by destruct ares.
  - exists (marker ++ [committed_event rseq (ie_now env) ev]). rewrite app_assoc, current_set.
    split; [exists t2; by rewrite current_set|]. destruct ares; [|done]. intros _. rewrite (Hok2 I) in Hl2.
    assert (Hs : aseq = (rseq + 1)%N).
    { rewrite <- Hh2, highest_snoc. unfold committed_event. rewrite (kept_Seq _ (survives_kept _ Hev)). cbn. lia. }
    exists marker. split; [by rewrite Hs, N.add_sub|]. split; [lia|]. split; [lia|]. split; [by rewrite Hs, N.add_sub|].
    by apply (log_holds_read _ _ []).
Qed.

(** Any process opens the log, appends through any handle (even one whose
    counter is stale) or dies in the middle of a write; every line it writes
    survives the scrubber. *)
Inductive instance_step : InstanceDir -> InstanceDir -> Prop :=
| istep_open env dir res dir' : open_survives env dir = true -> OpenInstanceLog env dir = (res, dir') -> instance_step dir dir'
| istep_append env ev l dir res l' dir' :
    append_survives env ev l dir = true -> InstanceAppend env ev l dir = (res, l', dir') -> instance_step dir dir'.

Lemma instance_step_extends dir dir' evs : dir_holds dir evs -> instance_step dir dir' ->
  exists added, dir_holds dir' (evs ++ added).
Proof.
  intros Hd Hs. destruct Hs as [env dir res dir1 Hsv Ho|env ev l dir res l' dir1 Hsv Ha].
  - by destruct (OpenInstanceLog_extends _ _ _ _ _ Hd Hsv Ho) as [_ ?].
  - destruct (InstanceAppend_extends _ _ _ _ _ _ _ _ Hd Hsv Ha) as (_ & _ & added & ? & _). by exists added.
Qed.

(** Sequence numbers are unique across processes.  However opens and appends
    of any number of handles interleave, whatever counters those handles carry
    and however their writes fail, the generation grows at its end only and its
    sequences increase strictly; and an append that succeeds gives its event a
    sequence above everything committed and above everything its handle ever
    allocated. *)
Theorem instance_sequences_increase dir dir' evs :
  dir_holds dir evs -> rtc instance_step dir dir' ->
  (exists added, dir_holds dir' (evs ++ added)) /\
  forall env ev l l' dir'' evs', dir_holds dir' evs' -> append_survives env ev l dir' = true ->
    InstanceAppend env ev l dir' = (Ok (), l', dir'') ->
    exists marker e, readEvents (current_file dir'') = Ok (evs' ++ marker ++ [e], 0%nat) /\
      ev_Type e = ev_Type ev /\ ev_Seq e = il_seq l' /\
      (highestEventSeq evs' < ev_Seq e)%N /\ (il_seq l < ev_Seq e)%N.
Proof.
  intros Hd Hsteps. split.
  - revert evs Hd. induction Hsteps as [dir|dir dir1 dir' Hs _ IH]; intros evs Hd; [exists []; by rewrite app_nil_r|].
    destruct (instance_step_extends _ _ _ Hd Hs) as [added Hadd]. destruct (IH _ Hadd) as [more Hmore].
    exists (added ++ more). by rewrite app_assoc.
  - intros env ev l l' dir'' evs' Hd' Hsv Ha.
    destruct (InstanceAppend_extends _ _ _ _ _ _ _ _ Hd' Hsv Ha) as (_ & _ & added & _ & Hok).
    destruct (Hok I) as (marker & -> & H1 & H2 & Hk%survives_kept & Hread).
    exists marker, (committed_event (il_seq l' - 1) (ie_now env) ev). split; [done|].
    unfold committed_event. rewrite (kept_Type _ Hk), (kept_Seq _ Hk). cbn. split; [done|]. split; [lia|]. split; lia.
Qed.
End appends.

Section reading.
Context `{C : EventCodec}.

Lemma after_last_le_spec seq l : forall acc,
  match after_last_le seq (rev l) acc with
  | Some r => exists l1 x l2, l = l1 ++ x :: l2 /\ r = l2 ++ acc /\ (ev_Seq x <= seq)%N
  | None => Forall (fun e => (seq < ev_Seq e)%N) l
  end.
Proof.
  induction l as [|x l IH] using rev_ind; intros acc; [by cbn|].
  rewrite rev_app_distr. cbn [rev app after_last_le]. destruct (N.leb_spec (ev_Seq x) seq) as [Hle|Hgt].
  - exists l, x, []. done.
  - specialize (IH (x :: acc)). destruct (after_last_le seq (rev l) (x :: acc)).
    + destruct IH as (l1 & y & l2 & -> & -> & Hy). exists l1, y, (l2 ++ [x]).
      rewrite <- !app_assoc. done.
    + apply Forall_app. split; [done|by constructor].
Qed.

Lemma eventsAfter_app evs1 evs2 seq : eventsAfter (evs1 ++ evs2) seq = eventsAfter evs1 seq ++ eventsAfter evs2 seq.
Proof. apply List.filter_app. Qed.

Lemma eventsAfter_none evs seq : (forall e, e ∈ evs -> (ev_Seq e <= seq)%N) -> eventsAfter evs seq = [].
Proof.
  induction evs as [|e evs IH]; intros Hle; [done|]. unfold eventsAfter. cbn.
  rewrite (proj2 (N.ltb_ge _ _)) by (apply Hle; left). apply IH. intros x Hx. apply Hle. by right.
Qed.

Lemma eventsAfter_increasing l1 x l2 seq :
  seq_increasing (l1 ++ x :: l2) -> (ev_Seq x <= seq)%N -> eventsAfter (l1 ++ x :: l2) seq = eventsAfter l2 seq.
Proof.
  intros Hinc Hx. rewrite (app_assoc l1 [x] l2 : l1 ++ x :: l2 = (l1 ++ [x]) ++ l2) in *.
  rewrite eventsAfter_app, (eventsAfter_none (l1 ++ [x])); [done|].
  apply seq_increasing_app_inv in Hinc as (Hinc & _ & _).
  apply seq_increasing_app_inv in Hinc as (_ & _ & Hlt).
  intros e [He|He]%elem_of_app; [|apply list_elem_of_singleton in He; by subst].
  specialize (Hlt e x He ltac:(set_solver)). lia.
Qed.

(** The answer of the last records, given that they hold a record at or below
    [seq], is the answer of the whole log. *)
Lemma after_found older newer seq r :
  seq_increasing (older ++ newer) -> after_last_le seq (rev newer) [] = Some r ->
  eventsAfter r seq = eventsAfter (older ++ newer) seq.
Proof.
  intros Hinc Hr. pose proof (after_last_le_spec seq newer []) as Hs. rewrite Hr in Hs.
  destruct Hs as (l1 & x & l2 & -> & -> & Hx). rewrite app_nil_r.
  rewrite app_assoc in *. by rewrite eventsAfter_increasing.
Qed.

Lemma read_after_loop_spec chunk ls t evs seq : (0 < chunk)%N -> no_newline t -> lines_hold ls evs ->
  seq_increasing evs -> forall fuel start,
  (start <= N.of_nat (length (unlines ls ++ t)))%N -> (N.to_nat start < fuel)%nat ->
  read_after_loop chunk fuel (unlines ls ++ t) seq start (drop (N.to_nat start) (unlines ls ++ t)) =
    Ok (eventsAfter evs seq, (length (unlines ls ++ t) - length t)%nat).
Proof.
  intros Hc Ht Hl Hinc. induction fuel as [|fuel IH]; intros start Hs Hf; [lia|].
  cbn [read_after_loop]. set (cs := (start - chunk)%N). rewrite window_chunk by lia.
  destruct (N.eqb_spec cs 0) as [H0|H0].
  - rewrite H0. cbn [N.to_nat]. rewrite drop_0, parse_frame by (done || apply Hl).
    rewrite (proj2 Hl). destruct (after_last_le seq (rev evs) []) as [r|] eqn:Hr; [|done].
    by rewrite (after_found [] evs seq r).
  - destruct (decide (N.to_nat cs < length (unlines ls))%nat) as [Hlt|Hge].
    + destruct (drop_unlines ls (N.to_nat cs) Hlt) as (ls1 & pre & part & ls2 & Hls & Hd & _).
      assert (Hlp := Hl). rewrite Hls in Hlp. assert (Hnn : Forall no_newline (ls1 ++ (pre ++ part) :: ls2)) by apply Hlp.
      apply Forall_app in Hnn as [_ Hnn]. apply Forall_cons in Hnn as [Hpp Hnn].
      apply no_newline_app in Hpp as [_ Hpart].
      rewrite (app_assoc ls1 [pre ++ part] ls2 : ls1 ++ (pre ++ part) :: ls2 = (ls1 ++ [pre ++ part]) ++ ls2) in Hlp.
      apply lines_hold_app in Hlp as (older & newer & Hev & _ & Hl2).
      assert (Hw : drop (N.to_nat cs) (unlines ls ++ t) = part ++ newline :: unlines ls2 ++ t).
      { rewrite drop_frame by lia. by rewrite Hd, unlines_cons, <- app_assoc. }
      rewrite Hw. rewrite IndexByte_app by done.
      rewrite (app_assoc part [newline] (unlines ls2 ++ t) : part ++ newline :: unlines ls2 ++ t = (part ++ [newline]) ++ unlines ls2 ++ t).
      replace (S (length part)) with (length (part ++ [newline])) by (rewrite length_app; cbn; lia).
      rewrite drop_app_length, parse_frame by done. rewrite (proj2 Hl2).
      destruct (after_last_le seq (rev newer) []) as [r|] eqn:Hr.
      * rewrite Hev. by erewrite after_found by (by rewrite <- ?Hev).
      * rewrite <- app_assoc. cbn [app]. rewrite <- Hw. apply IH; lia.
    + assert (Hn : no_newline (drop (N.to_nat cs) (unlines ls ++ t))).
      { unfold no_newline. rewrite drop_app_ge by lia. intros Hin. apply Ht.
        apply list_elem_of_lookup in Hin as (i & Hi). rewrite lookup_drop in Hi. by eapply list_elem_of_lookup_2. }
      apply IndexByte_None in Hn. rewrite Hn. apply IH; lia.
Qed.

Lemma read_after_agrees chunk file evs tail seq :
  (0 < chunk)%N -> log_holds file evs tail -> seq_increasing evs ->
  readEventsAfterSeq_with chunk file seq =
    Ok (List.filter (fun e => (seq <? ev_Seq e)%N) evs, (length file - length tail)%nat).
Proof.
  intros Hc (ls & -> & Ht & Hl & _) Hinc. unfold readEventsAfterSeq_with.
  destruct (seq =? 0)%N.
  - rewrite parse_frame by (done || apply Hl). by rewrite (proj2 Hl).
  - pose proof (read_after_loop_spec chunk ls tail evs seq Hc Ht Hl Hinc (S (length (unlines ls ++ tail)))
                  (N.of_nat (length (unlines ls ++ tail)))) as Hs.
    rewrite Nat2N.id, drop_all in Hs. apply Hs; lia.
Qed.

(** Reading the instance journal after a sequence is the filter of the full
    read: for every chunk size the backward scan ends, and it returns exactly
    the committed events above the sequence, in order, with the offset at which
    the complete records end. *)
Theorem read_after_is_filter chunk file evs tail seq :
  (0 < chunk)%N -> log_holds file evs tail -> seq_increasing evs ->
  readEventsAfterSeq_with chunk file seq =
    Ok (List.filter (fun e => (seq <? ev_Seq e)%N) evs, (length file - length tail)%nat).
Proof. apply read_after_agrees. Qed.
End reading.
