(* ===== verification/JournalCompact.v ===== *)
(** * Compaction of the instance journal

    [internal/journal/compact.go] and [instancetickskips.go]: the two passes
    that drop aged records, and the installation of the generation they write.
    The decoded metadata of a line is its event. *)

From S2P Require Export JournalInstance.
Local Open Scope string_scope.
Local Open Scope list_scope.

Section compact.
Context `{EventCodec}.

(** ** Records and checkpoints *)

Definition runner_string (runner : gmap string Any) (key : string) : string :=
  match runner !! key with Some (AnyString s) => s | _ => "" end.

Definition IsConfigGenerationAuthority (ev : Event) : bool :=
  match ev_Type ev with
  | EventConfigReloaded => true
  | EventRunnerAnnotation =>
      bool_decide (ev_Runner ev !! "kind" = Some (AnyString ConfigGenerationAppliedAnnotation))
  | _ => false
  end.

(** The key of a scheduled trigger, empty for any other record. *)
Definition trigger_key (ev : Event) : string :=
  match ev_Type ev with
  | EventTriggerFired =>
      if negb (ev_Workflow ev =? "")
         && ((ev_Reason ev =? "") || (ev_Reason ev =? "scheduled") || HasPrefix (ev_Reason ev) "catch-up ")
      then ev_Gaggle ev +:+ String "000" (ev_Workflow ev) else ""
  | _ => ""
  end.

Definition compactWorkerDivergenceKey (ev : Event) : string :=
  match ev_Type ev with
  | EventWorkerConfigDivergence => runner_string (ev_Runner ev) "worker"
  | _ => ""
  end.

(** [clusterCheckCheckpoints.record]: a warning does not supersede a failure. *)
Definition cluster_record (latest : gmap string (nat * string)) (ev : Event) (index : nat)
    : string * gmap string (nat * string) :=
  match ev_Type ev with
  | EventClusterCheckCompleted =>
      let check := runner_string (ev_Runner ev) "check" in
      let outcome := runner_string (ev_Runner ev) "outcome" in
      if check =? "" then ("", latest)
      else if (outcome =? "warn") && (match latest !! check with Some (_, o) => o =? "fail" | None => false end)
      then (check, latest)
      else (check, <[check := (index, outcome)]> latest)
  | _ => ("", latest)
  end.

Record record := mkRecord {
  rec_line : list N;
  rec_event : Event;
  rec_clusterKey : string
}.

(** What the first pass over the lines remembers. *)
Record compact_acc := mkAcc {
  acc_records : list record;
  acc_trigger : gmap string nat;
  acc_worker : gmap string nat;
  acc_cluster : gmap string (nat * string);
  acc_config : option (nat * N)
}.
Definition empty_acc : compact_acc := mkAcc [] ∅ ∅ ∅ None.

Definition compact_line (acc : compact_acc) (line : list N) : result journal_error compact_acc :=
  if (length (TrimSpaceBytes line) =? 0)%nat then Ok acc
  else match json_Unmarshal (TrimSpaceBytes line) with
  | None => Error ErrCorrupt
  | Some ev =>
      if negb (KnownSchema ev) then Error ErrSchema
      else
        let index := length (acc_records acc) in
        let config :=
          if IsConfigGenerationAuthority ev
             && (match acc_config acc with Some (_, s) => (s <=? ev_Seq ev)%N | None => true end)
          then Some (index, ev_Seq ev) else acc_config acc in
        let trigger := if trigger_key ev =? "" then acc_trigger acc
                       else <[trigger_key ev := index]> (acc_trigger acc) in
        let worker := <[compactWorkerDivergenceKey ev := index]> (acc_worker acc) in
        let '(key, cluster) := cluster_record (acc_cluster acc) ev index in
        Ok (mkAcc (acc_records acc ++ [mkRecord line ev key]) trigger worker cluster config)
  end.

Fixpoint compact_lines (acc : compact_acc) (ls : list (list N)) : result journal_error compact_acc :=
  match ls with
  | [] => Ok acc
  | l :: ls' => match compact_line acc l with Ok acc' => compact_lines acc' ls' | Error e => Error e end
  end.

Definition compactDropsAgedRecord (at_ keepAfter : Z)
    (triggerCheckpoint resultCheckpoint budgetHistory initDone : bool) : bool :=
  negb (IsZero keepAfter) && Before at_ keepAfter && negb triggerCheckpoint && negb resultCheckpoint
  && negb budgetHistory && negb initDone.

(** Whether the second pass drops the [i]-th record. *)
Definition record_dropped (acc : compact_acc) (keepAfter keepRunStartsAfter : Z) (i : nat) (rec : record)
    : bool :=
  let ev := rec_event rec in
  let keepTrigger := negb (trigger_key ev =? "")
                     && bool_decide (acc_trigger acc !! trigger_key ev = Some i) in
  let worker := compactWorkerDivergenceKey ev in
  let keepWorker := negb (worker =? "") && bool_decide (acc_worker acc !! worker = Some i) in
  let keepCluster := negb (rec_clusterKey rec =? "")
                     && (match acc_cluster acc !! rec_clusterKey rec with
                         | Some (j, _) => (j =? i)%nat | None => (0 =? i)%nat end) in
  let keepConfig := match acc_config acc with Some (j, _) => (j =? i)%nat | None => false end in
  let keepBudget := match ev_Type ev with
                    | EventRunStarted => IsZero keepRunStartsAfter || negb (Before (ev_Time ev) keepRunStartsAfter)
                    | _ => false end in
  let initDone := match ev_Type ev with EventInitCompleted => true | _ => false end in
  compactDropsAgedRecord (ev_Time ev) keepAfter keepTrigger (keepWorker || keepCluster || keepConfig)
    keepBudget initDone.

Definition kept_records (acc : compact_acc) (keepAfter keepRunStartsAfter : Z) : list record :=
  map snd (List.filter (fun p => negb (record_dropped acc keepAfter keepRunStartsAfter (fst p) (snd p)))
             (imap pair (acc_records acc))).

(** [compactInstanceEventsData]: the number of records dropped and the data of
    the next generation; a torn tail is kept verbatim. *)
Definition compactInstanceEventsData (data : list N) (keepAfter keepRunStartsAfter : Z)
    : result journal_error (nat * list N) :=
  match LastIndexByte newline data with
  | None => Ok (O, data)
  | Some end_ =>
      let complete := take (S end_) data in
      let tail := drop (S end_) data in
      match compact_lines empty_acc (split_lines (length complete) complete) with
      | Error e => Error e
      | Ok acc =>
          let kept := kept_records acc keepAfter keepRunStartsAfter in
          let dropped := (length (acc_records acc) - length kept)%nat in
          if (dropped =? 0)%nat then Ok (O, data)
          else Ok (dropped, unlines (map rec_line kept) ++ tail)
      end
  end.

Definition firstRecordReadLimit : N := 64 * 1024.

(** [nothingCanAgeOut]: the oldest record alone, read from the head of the
    file, settles that no record is before the cut. *)
Definition nothingCanAgeOut_with (limit : N) (file : list N) (keepAfter : Z) : bool :=
  if IsZero keepAfter then true
  else
    let head := take (N.to_nat limit) file in
    match IndexByte newline head with
    | None => false
    | Some end_ =>
        match json_Unmarshal (TrimSpaceBytes (take end_ head)) with
        | Some ev => if KnownSchema ev then negb (Before (ev_Time ev) keepAfter) else false
        | None => false
        end
    end.
Definition nothingCanAgeOut : list N -> Z -> bool := nothingCanAgeOut_with firstRecordReadLimit.

(** ** Tick skips *)

Record skip_acc := mkSkip {
  sk_kept : list (list N);
  sk_dropped : nat;
  sk_max : option (N * list N * bool)
}.

Definition skip_line (keepAfter : Z) (acc : skip_acc) (line : list N) : result journal_error skip_acc :=
  if (length (TrimSpaceBytes line) =? 0)%nat then Ok acc
  else match json_Unmarshal (TrimSpaceBytes line) with
  | None => Error ErrCorrupt
  | Some ev =>
      if negb (KnownSchema ev) then Error ErrSchema
      else
        let drop := match ev_Type ev with EventTickSkipped => Before (ev_Time ev) keepAfter | _ => false end in
        let max := match sk_max acc with
                   | None => Some (ev_Seq ev, line, drop)
                   | Some (s, _, _) => if (s <=? ev_Seq ev)%N then Some (ev_Seq ev, line, drop) else sk_max acc
                   end in
        Ok (if drop then mkSkip (sk_kept acc) (S (sk_dropped acc)) max
            else mkSkip (sk_kept acc ++ [line]) (sk_dropped acc) max)
  end.

Fixpoint skip_lines (keepAfter : Z) (acc : skip_acc) (ls : list (list N)) : result journal_error skip_acc :=
  match ls with
  | [] => Ok acc
  | l :: ls' => match skip_line keepAfter acc l with Ok acc' => skip_lines keepAfter acc' ls' | Error e => Error e end
  end.

(** [dropTickSkipsBefore]: the record with the highest sequence is always kept,
    last. *)
Definition dropTickSkipsBefore (data : list N) (keepAfter : Z) : result journal_error (nat * list N) :=
  match LastIndexByte newline data with
  | None => Ok (O, data)
  | Some end_ =>
      let complete := take (S end_) data in
      match skip_lines keepAfter (mkSkip [] 0 None) (split_lines (length complete) complete) with
      | Error e => Error e
      | Ok acc =>
          let '(kept, dropped) :=
            match sk_max acc with
            | Some (_, line, true) => (sk_kept acc ++ [line], (sk_dropped acc - 1)%nat)
            | _ => (sk_kept acc, sk_dropped acc)
            end in
          if (dropped =? 0)%nat then Ok (O, data)
          else Ok (dropped, unlines kept ++ drop (S end_) data)
      end
  end.

(** ** Installing a generation *)

(** The new file and the pointer: both durable; the file incomplete; the pointer
    not advanced; or advanced with the sync of the directory failing. *)
Inductive install_fate :=
| InstallDone | InstallTorn (junk : list N) | InstallUnpointed | InstallUnsynced.

Definition installCompactedGeneration (fate : install_fate) (compacted : list N) (dir : InstanceDir)
    : result journal_error unit * InstanceDir :=
  let nextGen := (dir_gen dir + 1)%N in
  let write file := <[nextGen := file]> (dir_files dir) in
  match fate with
  | InstallDone => (Ok (), mkDir nextGen (write compacted))
  | InstallTorn junk => (Error ErrWrite, mkDir (dir_gen dir) (write junk))
  | InstallUnpointed => (Error ErrWrite, mkDir (dir_gen dir) (write compacted))
  | InstallUnsynced => (Error ErrWrite, mkDir nextGen (write compacted))
  end.

(** [InstanceLog.Compact]. *)
Definition Compact (fate : install_fate) (keepAfter keepRunStartsAfter : Z) (l : InstanceLog) (dir : InstanceDir)
    : result journal_error nat * InstanceLog * InstanceDir :=
  if il_closed l then (Error ErrClosed, l, dir)
  else match dir_files dir !! dir_gen dir with
  | None => (Error ErrWrite, l, dir)
  | Some data =>
      match compactInstanceEventsData data keepAfter keepRunStartsAfter with
      | Error e => (Error e, l, dir)
      | Ok (O, _) => (Ok O, l, dir)
      | Ok (dropped, compacted) =>
          match installCompactedGeneration fate compacted dir with
          | (Error e, dir') => (Error e, l, dir')
          | (Ok _, dir') => (Ok dropped, mkLog (il_seq l) (dir_gen dir') false (il_retry l), dir')
          end
      end
  end.

(** [CompactInstanceEvents]: the pass without a handle; a missing journal is not
    an error, and a dry run only counts. *)
Definition CompactInstanceEvents (fate : install_fate) (keepAfter keepRunStartsAfter : Z) (dryRun : bool)
    (dir : InstanceDir) : result journal_error nat * InstanceDir :=
  match dir_files dir !! dir_gen dir with
  | None => (Ok O, dir)
  | Some data =>
      if nothingCanAgeOut data keepAfter then (Ok O, dir)
      else match compactInstanceEventsData data keepAfter keepRunStartsAfter with
      | Error e => (Error e, dir)
      | Ok (dropped, compacted) =>
          if (dropped =? 0)%nat || dryRun then (Ok dropped, dir)
          else match installCompactedGeneration fate compacted dir with
          | (Error e, dir') => (Error e, dir')
          | (Ok _, dir') => (Ok dropped, dir')
          end
      end
  end.

Definition tickSkipCompactionDue (retry : option (N * N)) (generation size maxBytes : N) : bool :=
  if (maxBytes =? 0)%N || (size <=? maxBytes)%N then false
  else match retry with
       | None => true
       | Some (gen, atBytes) =>
           (atBytes =? 0)%N || negb (gen =? generation)%N || (atBytes + maxBytes / 4 <=? size)%N
       end.

(** [InstanceLog.CompactTickSkips]. *)
Definition CompactTickSkips (fate : install_fate) (maxBytes : N) (keepAfter : Z) (l : InstanceLog) (dir : InstanceDir)
    : result journal_error nat * InstanceLog * InstanceDir :=
  if il_closed l then (Error ErrClosed, l, dir)
  else match dir_files dir !! dir_gen dir with
  | None => (Ok O, l, dir)
  | Some data =>
      if negb (tickSkipCompactionDue (il_retry l) (dir_gen dir) (N.of_nat (length data)) maxBytes)
      then (Ok O, l, dir)
      else match dropTickSkipsBefore data keepAfter with
      | Error e => (Error e, l, dir)
      | Ok (dropped, compacted) =>
          let '(res, dir') := if (dropped =? 0)%nat then (Ok (), dir)
                              else installCompactedGeneration fate compacted dir in
          match res with
          | Error e => (Error e, l, dir')
          | Ok _ =>
              let after := N.of_nat (length compacted) in
              let retry := if (maxBytes <? after)%N then Some (dir_gen dir', after) else None in
              (Ok dropped, mkLog (il_seq l) (dir_gen dir') false retry, dir')
          end
      end
  end.
End compact.
