(* ===== verification/JournalCompactProps.v ===== *)
(** * What compaction keeps

    Both passes rewrite the log to a sublist of its records, chosen by the
    declarative conditions of this file; the tick-skip pass keeps the highest
    sequence, so that no sequence is ever issued twice. *)

From Stdlib Require Import Sorting.Sorted.
From S2P Require Export JournalInstanceProps JournalCompact.
Local Open Scope string_scope.
Local Open Scope list_scope.

(** ** Sublists of increasing logs *)

Lemma seq_increasing_filter (p : Event -> bool) evs :
  seq_increasing evs -> seq_increasing (List.filter p evs).
Proof.
  intros [Hs Hp]. split.
  - induction Hs as [|x l Hs IH Hx]; cbn; [constructor|]. inversion_clear Hp.
    destruct (p x); [|by apply IH]. constructor; [by apply IH|].
    apply Forall_forall. intros y [Hy _]%list_elem_of_In%filter_In. eapply Forall_forall in Hx; [done|].
    by apply list_elem_of_In.
  - apply Forall_forall. intros y [Hy _]%list_elem_of_In%filter_In. eapply Forall_forall in Hp; [done|].
    by apply list_elem_of_In.
Qed.

Lemma highest_In evs : evs <> [] -> exists e, e ∈ evs /\ ev_Seq e = highestEventSeq evs.
Proof.
  induction evs as [|x evs IH] using rev_ind; [done|]. intros _. rewrite highest_snoc.
  destruct (decide (evs = [])) as [->|Hne].
  - exists x. split; [set_solver|cbn; lia].
  - destruct (IH Hne) as (e & He & Hh). destruct (N.leb_spec (ev_Seq x) (highestEventSeq evs)).
    + exists e. split; [set_solver|lia].
    + exists x. split; [set_solver|lia].
Qed.

(** ** The lines a pass reads *)

Definition no_nul (l : list N) : Prop := nul ∉ l.

Lemma TrimLeftNul_id l : no_nul l -> TrimLeftNul l = l.
Proof.
  unfold no_nul. destruct l as [|b l]; cbn; [done|]. destruct (N.eqb_spec b nul) as [->|]; [set_solver|done].
Qed.

Lemma trim_left_sub sp2 sp3 l x : x ∈ trim_left sp2 sp3 l -> x ∈ l.
Proof.
  revert l. fix IH 1. intros [|b0 l]; [done|]. cbn [trim_left].
  destruct (ascii_space b0); [intros H%IH; by right|]. destruct l as [|b1 l]; [done|].
  destruct (sp2 b0 b1); [intros H%IH; by do 2 right|]. destruct l as [|b2 l]; [done|].
  destruct (sp3 b0 b1 b2); [intros H%IH; by do 3 right|done].
Qed.

Lemma TrimSpace_sub l x : x ∈ TrimSpaceBytes l -> x ∈ l.
Proof.
  unfold TrimSpaceBytes. intros H%list_elem_of_In%in_rev%list_elem_of_In%trim_left_sub.
  apply list_elem_of_In, in_rev, list_elem_of_In in H. by apply trim_left_sub in H.
Qed.

Lemma filter_same_length {A} (f : A -> bool) l : length (List.filter f l) = length l -> List.filter f l = l.
Proof.
  intros Hf. apply List.filter_length_forallb in Hf. induction l as [|x l IH]; [done|]. cbn in *.
  apply andb_true_iff in Hf as [-> Hf]. by rewrite IH.
Qed.

Lemma nul_in_lines ls t : (exists l, l ∈ ls /\ ~ no_nul l) -> nul ∈ unlines ls ++ t.
Proof.
  intros (l & Hin & Hnul). destruct (decide (nul ∈ l)) as [Hn|]; [|done].
  apply elem_of_app. left. apply list_elem_of_In, in_concat. exists (l ++ [newline]).
  split; [apply in_map_iff; exists l; split; [done|by apply list_elem_of_In]|].
  apply list_elem_of_In. set_solver.
Qed.

Section lines.
Context `{L : JSONLaws}.

(** The loop both passes share: blank lines skipped, every other line decoded. *)
Fixpoint decode_lines (ls : list (list N)) : result journal_error (list (list N * Event)) :=
  match ls with
  | [] => Ok []
  | l :: ls' =>
      if (length (TrimSpaceBytes l) =? 0)%nat then decode_lines ls'
      else match json_Unmarshal (TrimSpaceBytes l) with
      | None => Error ErrCorrupt
      | Some ev =>
          if negb (KnownSchema ev) then Error ErrSchema
          else match decode_lines ls' with Ok prs => Ok ((l, ev) :: prs) | Error e => Error e end
      end
  end.

(** A decoded pair is a line that holds its event. *)
Definition line_holds (p : list N * Event) : Prop := lines_hold [p.1] [p.2] /\ KnownSchema p.2 = true.

Lemma lines_of_pairs prs : Forall line_holds prs -> lines_hold (map fst prs) (map snd prs).
Proof.
  induction 1 as [|[l e] prs [Hl _] _ IH]; [by apply lines_hold_nil|]. cbn [map fst snd].
  apply (lines_hold_app [l]). by exists [e], (map snd prs).
Qed.

(** Cleaning a line for a reader or for a pass gives the same event, unless the
    pass refuses the line. *)
Lemma parse_trimmed l o : parse_line l = Ok o ->
  (length (TrimSpaceBytes l) = 0%nat /\ o = None) \/
  (length (TrimSpaceBytes l) <> 0%nat /\
   (json_Unmarshal (TrimSpaceBytes l) = None /\ nul ∈ l \/
    exists ev, json_Unmarshal (TrimSpaceBytes l) = Some ev /\ o = Some ev)).
Proof.
  unfold parse_line, clean_line. destruct (TrimSpaceBytes l) as [|b t] eqn:Ht.
  { cbn. intros [= <-]. by left. }
  intros Ho. right. split; [done|]. destruct (decide (b = nul)) as [->|Hb].
  - left. split; [apply nul_is_not_json|]. apply TrimSpace_sub. rewrite Ht. by left.
  - cbn [TrimLeftNul] in Ho. rewrite (proj2 (N.eqb_neq _ _) Hb), Nat.eqb_refl in Ho. cbn [length Nat.eqb] in Ho.
    destruct (json_Unmarshal (b :: t)) as [ev|]; [|done]. injection Ho as <-. right. by exists ev.
Qed.

Lemma decode_lines_hold ls evs : lines_hold ls evs -> Forall (fun e => KnownSchema e = true) evs ->
  match decode_lines ls with
  | Ok prs => Forall line_holds prs /\ map snd prs = evs
  | Error _ => exists l, l ∈ ls /\ ~ no_nul l
  end.
Proof.
  revert evs. induction ls as [|l ls IH]; intros evs Hl Hk.
  { apply lines_hold_nil in Hl as ->. done. }
  apply (lines_hold_app [l]) in Hl as (e1 & e2 & -> & Hl1 & Hl2).
  apply Forall_app in Hk as [Hk1 Hk2]. specialize (IH e2 Hl2 Hk2). assert (Hone := Hl1).
  destruct Hl1 as [_ (o & Ho & ->)%scan_lines_one]. cbn [decode_lines].
  destruct (parse_trimmed l o Ho) as [[Hz ->]|[Hz [[Hn Hnul]|(ev & Hu & ->)]]].
  - rewrite Hz. cbn. destruct (decode_lines ls); [done|]. destruct IH as (x & Hx & Hx').
    exists x. split; [by right|done].
  - rewrite (proj2 (Nat.eqb_neq _ _) Hz), Hn. exists l. split; [by left|]. unfold no_nul. auto.
  - rewrite (proj2 (Nat.eqb_neq _ _) Hz), Hu. inversion_clear Hk1 as [|? ? Hkev _]. rewrite Hkev. cbn [negb].
    destruct (decode_lines ls) as [prs|].
    + destruct IH as [Hprs Hsnd]. split; [constructor; [by split|done]|]. cbn. by rewrite Hsnd.
    + destruct IH as (x & Hx & Hx'). exists x. split; [by right|done].
Qed.

(** Rewriting a log to some of its decoded lines. *)
Lemma rewrite_holds evs tail prs :
  no_newline tail -> Forall line_holds prs -> map snd prs = evs ->
  log_holds (unlines (map fst prs) ++ tail) evs tail.
Proof.
  intros Ht Hprs <-. exists (map fst prs). split; [done|]. split; [done|]. split; [by apply lines_of_pairs|].
  apply Forall_fmap. eapply Forall_impl; [exact Hprs|]. by intros p [_ ?].
Qed.

(** ** The tick-skip pass *)

Definition aged_skip (keepAfter : Z) (e : Event) : bool :=
  match ev_Type e with EventTickSkipped => Before (ev_Time e) keepAfter | _ => false end.

(** The records the pass keeps: all but the aged skips, and the highest. *)
Definition retained (keepAfter : Z) (evs : list Event) : list Event :=
  List.filter (fun e => negb (aged_skip keepAfter e) || (ev_Seq e =? highestEventSeq evs)%N) evs.

Definition skip_step (keepAfter : Z) (acc : skip_acc) (p : list N * Event) : skip_acc :=
  let d := aged_skip keepAfter p.2 in
  let max := match sk_max acc with
             | None => Some (ev_Seq p.2, p.1, d)
             | Some (s, _, _) => if (s <=? ev_Seq p.2)%N then Some (ev_Seq p.2, p.1, d) else sk_max acc
             end in
  if d then mkSkip (sk_kept acc) (S (sk_dropped acc)) max
  else mkSkip (sk_kept acc ++ [p.1]) (sk_dropped acc) max.

Lemma skip_lines_fold keepAfter ls : forall acc,
  skip_lines keepAfter acc ls =
    match decode_lines ls with Ok prs => Ok (fold_left (skip_step keepAfter) prs acc) | Error e => Error e end.
Proof.
  induction ls as [|l ls IH]; intros acc; [done|]. cbn [skip_lines decode_lines]. unfold skip_line.
  destruct (length (TrimSpaceBytes l) =? 0)%nat; [apply IH|].
  destruct (json_Unmarshal (TrimSpaceBytes l)) as [ev|]; [|done].
  destruct (negb (KnownSchema ev)); [done|]. rewrite IH. by destruct (decode_lines ls).
Qed.

Lemma skip_fold_spec keepAfter prs : seq_increasing (map snd prs) ->
  let acc := fold_left (skip_step keepAfter) prs (mkSkip [] 0 None) in
  sk_kept acc = map fst (List.filter (fun p => negb (aged_skip keepAfter p.2)) prs) /\
  (sk_dropped acc + length (sk_kept acc) = length prs)%nat /\
  sk_max acc = match last prs with
               | Some p => Some (ev_Seq p.2, p.1, aged_skip keepAfter p.2)
               | None => None
               end.
Proof.
  induction prs as [|p prs IH] using rev_ind; intros Hinc; cbv zeta; [done|].
  rewrite map_app in Hinc. apply seq_increasing_app_inv in Hinc as (Hinc & _ & Hlt).
  destruct (IH Hinc) as (Hk & Hd & Hm). rewrite fold_left_app. cbn [fold_left].
  set (acc := fold_left _ prs _) in *. unfold skip_step. rewrite last_snoc, Hm, List.filter_app, map_app, length_app.
  assert (Hmx : (match match last prs with Some q => Some (ev_Seq q.2, q.1, aged_skip keepAfter q.2) | None => None end with
    | Some (s, _, _) => if (s <=? ev_Seq p.2)%N then Some (ev_Seq p.2, p.1, aged_skip keepAfter p.2)
        else match last prs with Some q => Some (ev_Seq q.2, q.1, aged_skip keepAfter q.2) | None => None end
    | None => Some (ev_Seq p.2, p.1, aged_skip keepAfter p.2) end) = Some (ev_Seq p.2, p.1, aged_skip keepAfter p.2)).
  { destruct (last prs) as [q|] eqn:Hq; [|done].
    assert (ev_Seq q.2 < ev_Seq p.2)%N.
    { apply Hlt; [|set_solver]. apply last_Some in Hq as [l' ->]. rewrite map_app. set_solver. }
    rewrite (proj2 (N.leb_le _ _)) by lia. done. }
  rewrite Hmx. cbn [List.filter]. destruct (aged_skip keepAfter p.2); cbn [negb map sk_kept sk_dropped sk_max].
  - rewrite app_nil_r. split; [done|]. split; [cbn; lia|done].
  - rewrite Hk. split; [done|]. rewrite length_app. split; [cbn; rewrite <- Hk; lia|done].
Qed.

(** The lines kept, with the highest record appended when it was dropped. *)
Lemma retained_split keepAfter evs e : seq_increasing (evs ++ [e]) ->
  retained keepAfter (evs ++ [e]) = List.filter (fun x => negb (aged_skip keepAfter x)) evs ++ [e].
Proof.
  intros Hinc. assert (Hh : highestEventSeq (evs ++ [e]) = ev_Seq e).
  { rewrite <- (highest_suffix_eq evs [e]) by done. cbn. destruct (N.ltb_spec 0 (ev_Seq e)); lia. }
  unfold retained. rewrite Hh, List.filter_app. cbn [List.filter].
  rewrite N.eqb_refl, orb_true_r. f_equal. apply List.filter_ext_in. intros x Hx%list_elem_of_In.
  apply seq_increasing_app_inv in Hinc as (_ & _ & Hlt). specialize (Hlt x e Hx ltac:(set_solver)).
  rewrite (proj2 (N.eqb_neq _ _)) by lia. apply orb_false_r.
Qed.

Lemma skip_pairs keepAfter prs : seq_increasing (map snd prs) ->
  exists kept, map snd kept = retained keepAfter (map snd prs) /\ (forall p, p ∈ kept -> p ∈ prs) /\
    (length kept <= length prs)%nat /\ (length kept = length prs -> kept = prs) /\
    let acc := fold_left (skip_step keepAfter) prs (mkSkip [] 0 None) in
    match sk_max acc with
    | Some (_, line, true) => (sk_kept acc ++ [line], (sk_dropped acc - 1)%nat)
    | _ => (sk_kept acc, sk_dropped acc)
    end = (map fst kept, (length prs - length kept)%nat).
Proof.
  intros Hinc. destruct (skip_fold_spec keepAfter prs Hinc) as (Hk & Hd & Hm). cbv zeta.
  set (acc := fold_left _ prs _) in *. clearbody acc.
  destruct prs as [|p prs _] using rev_ind.
  { exists []. cbn in *. rewrite Hm, Hk in *. repeat split; [done..|]. f_equal. cbn in Hd. lia. }
  rewrite last_snoc in Hm. exists (List.filter (fun q => negb (aged_skip keepAfter q.2)) prs ++ [p]).
  assert (Hlen : (length (List.filter (fun q => negb (aged_skip keepAfter q.2)) prs) <= length prs)%nat)
    by apply List.filter_length_le.
  rewrite !map_app in *. split; [|split; [|split; [|split]]].
  - cbn [map]. rewrite retained_split by done. f_equal. clear.
    induction prs as [|q prs IH]; [done|]. cbn. destruct (negb (aged_skip keepAfter q.2)); cbn; [by f_equal|done].
  - intros q [Hq|Hq]%elem_of_app; [|set_solver]. apply list_elem_of_In, filter_In in Hq as [Hq _].
    apply elem_of_app. left. by apply list_elem_of_In.
  - rewrite !length_app. cbn. lia.
  - rewrite !length_app. cbn. intros Hl. f_equal. apply filter_same_length. lia.
  - rewrite Hm, Hk, List.filter_app, map_app in *. rewrite !length_app, !length_map in *. cbn [length map List.filter] in *.
    destruct (aged_skip keepAfter p.2); cbn [negb map length] in *; rewrite ?app_nil_r; f_equal; lia.
Qed.

(** Cutting a frame at its last newline. *)
Lemma frame_cut ls t : Forall no_newline ls -> no_newline t ->
  (LastIndexByte newline (unlines ls ++ t) = None /\ ls = []) \/
  exists e, LastIndexByte newline (unlines ls ++ t) = Some e /\
    drop (S e) (unlines ls ++ t) = t /\
    split_lines (length (take (S e) (unlines ls ++ t))) (take (S e) (unlines ls ++ t)) = ls.
Proof.
  intros Hls Ht. destruct (decide (ls = [])) as [->|Hne].
  { left. split; [by apply LastIndexByte_None|done]. }
  right. destruct (LastIndexByte_unlines ls t Hne Ht) as (init & last & Hsp & Heq & Hidx).
  eexists. split; [exact Hidx|]. assert (Hlen : S (length (unlines init ++ last)) = length (unlines ls)).
  { rewrite Hsp, unlines_snoc, !length_app. cbn. lia. }
  rewrite Hlen, take_app_length, drop_app_length. split; [done|].
  apply split_lines_unlines; [done|apply length_unlines].
Qed.

Lemma retained_highest keepAfter evs : seq_increasing evs ->
  highestEventSeq (retained keepAfter evs) = highestEventSeq evs.
Proof.
  intros Hinc. destruct evs as [|e evs _] using rev_ind; [done|]. rewrite retained_split by done.
  assert (Hr : seq_increasing (List.filter (fun x => negb (aged_skip keepAfter x)) evs ++ [e])).
  { rewrite <- retained_split by done. by apply seq_increasing_filter. }
  rewrite <- (highest_suffix_eq _ [e] Hr), <- (highest_suffix_eq _ [e] Hinc); done.
Qed.

Lemma retained_increasing keepAfter evs : seq_increasing evs -> seq_increasing (retained keepAfter evs).
Proof. apply seq_increasing_filter. Qed.

Lemma dropTickSkips_spec data evs tail keepAfter :
  log_holds data evs tail -> seq_increasing evs ->
  match dropTickSkipsBefore data keepAfter with
  | Ok (dropped, out) =>
      log_holds out (retained keepAfter evs) tail /\
      (dropped + length (retained keepAfter evs) = length evs)%nat
  | Error _ => nul ∈ data
  end.
Proof.
  intros Hlog Hinc. assert (Hlog0 := Hlog). destruct Hlog as (ls & -> & Ht & Hl & Hk).
  unfold dropTickSkipsBefore. destruct (frame_cut ls tail (proj1 Hl) Ht) as [[-> ->]|(e & -> & -> & ->)].
  { apply lines_hold_nil in Hl as ->. done. }
  rewrite skip_lines_fold. pose proof (decode_lines_hold ls evs Hl Hk) as Hd.
  destruct (decode_lines ls) as [prs|]; [|by eapply nul_in_lines].
  destruct Hd as [Hprs <-]. destruct (skip_pairs keepAfter prs Hinc) as (kept & Hmap & Hsub & Hle & Hsame & Heq).
  cbv zeta in Heq. rewrite Heq, <- Hmap, !length_map. destruct (Nat.eqb_spec (length prs - length kept) 0) as [H0|H0].
  - rewrite Hsame by lia. split; [done|lia].
  - split; [|lia]. apply rewrite_holds; [done| |done]. apply Forall_forall. intros p Hp%Hsub.
    by eapply Forall_forall in Hprs.
Qed.

(** The tick-skip pass rewrites a log to exactly its records other than
    aged [tick.skipped] ones, plus the record of the highest sequence, and counts
    what it drops; it is defined on every log without crash fill; it keeps the
    torn tail verbatim, and the sequence a later handle allocates from is the
    one of the log it read. *)
Theorem tick_skips_retained data evs tail keepAfter :
  log_holds data evs tail -> seq_increasing evs ->
  match dropTickSkipsBefore data keepAfter with
  | Ok (dropped, out) =>
      readEvents out = Ok (retained keepAfter evs, length tail) /\
      (dropped + length (retained keepAfter evs) = length evs)%nat /\
      sequenceFromTailOrFull out = sequenceFromTailOrFull data
  | Error _ => nul ∈ data
  end.
Proof.
  intros Hlog Hinc. pose proof (dropTickSkips_spec data evs tail keepAfter Hlog Hinc) as Hs.
  destruct (dropTickSkipsBefore data keepAfter) as [[dropped out]|]; [|done]. destruct Hs as [Hout Hcount].
  split; [by apply log_holds_read|]. split; [done|]. unfold sequenceFromTailOrFull.
  rewrite (sequence_agrees _ _ data evs tail), (sequence_agrees _ _ out (retained keepAfter evs) tail);
    [by rewrite retained_highest|done..|by apply retained_increasing|done|done|done].
Qed.

(** ** Histories with compaction *)

Lemma install_current fate out dir res dir' :
  installCompactedGeneration fate out dir = (res, dir') ->
  current_file dir' = out \/ current_file dir' = current_file dir.
Proof.
  unfold installCompactedGeneration, current_file.
  destruct fate; intros [= <- <-]; cbn [dir_gen dir_files]; rewrite ?lookup_insert_eq; [by left|right..|by left];
    (rewrite lookup_insert_ne by lia; done).
Qed.

Lemma CompactTickSkips_holds fate maxBytes keepAfter l dir evs res l' dir' :
  dir_holds dir evs -> CompactTickSkips fate maxBytes keepAfter l dir = (res, l', dir') ->
  dir_holds dir' evs \/ dir_holds dir' (retained keepAfter evs).
Proof.
  intros Hd. unfold CompactTickSkips. destruct (il_closed l); [intros [= <- <- <-]; by left|].
  destruct (dir_files dir !! dir_gen dir) as [data|] eqn:Hf; [|intros [= <- <- <-]; by left].
  assert (Hcf : current_file dir = data) by (unfold current_file; by rewrite Hf).
  destruct (tickSkipCompactionDue _ _ _ _); cbn [negb]; [|intros [= <- <- <-]; by left].
  destruct Hd as (tail & Hlog & Hinc). rewrite Hcf in Hlog.
  pose proof (dropTickSkips_spec data evs tail keepAfter Hlog Hinc) as Hs.
  destruct (dropTickSkipsBefore data keepAfter) as [[dropped out]|]; [|intros [= <- <- <-]; left; exists tail; by rewrite Hcf].
  assert (Hcase : forall dir', current_file dir' = out \/ current_file dir' = current_file dir ->
            dir_holds dir' evs \/ dir_holds dir' (retained keepAfter evs)).
  { intros d [Hc|Hc]; [right|left]; exists tail; rewrite Hc, ?Hcf; [split; [apply Hs|by apply retained_increasing]|done]. }
  destruct (dropped =? 0)%nat; [intros [= <- <- <-]; apply Hcase; by right|].
  destruct (installCompactedGeneration fate out dir) as [ires idir] eqn:Hi.
  apply install_current, Hcase in Hi. by destruct ires; intros [= <- <- <-].
Qed.

(** Opens, appends and tick-skip passes of any handles. *)
Inductive log_step : InstanceDir -> InstanceDir -> Prop :=
| lstep_write dir dir' : instance_step dir dir' -> log_step dir dir'
| lstep_skips fate maxBytes keepAfter l dir res l' dir' :
    CompactTickSkips fate maxBytes keepAfter l dir = (res, l', dir') -> log_step dir dir'.

(** Everything a later generation holds is an old record or lies above every
    sequence of the old one. *)
Definition no_reuse (evs evs' : list Event) : Prop :=
  (highestEventSeq evs <= highestEventSeq evs')%N /\
  forall e, e ∈ evs' -> e ∈ evs \/ (highestEventSeq evs < ev_Seq e)%N.

Lemma no_reuse_trans evs1 evs2 evs3 : no_reuse evs1 evs2 -> no_reuse evs2 evs3 -> no_reuse evs1 evs3.
Proof.
  intros [H1 H1'] [H2 H2']. split; [lia|]. intros e He. destruct (H2' e He) as [He2|Hlt]; [auto|]. right. lia.
Qed.

Lemma no_reuse_app evs added : seq_increasing (evs ++ added) -> no_reuse evs (evs ++ added).
Proof.
  intros Hinc. split.
  - destruct evs as [|x evs]; [cbn; lia|].
    destruct (highest_In (x :: evs)) as (e & He & <-); [done|]. apply highest_ge. set_solver.
  - intros e [He|He]%elem_of_app; [by left|]. right.
    destruct (decide (evs = [])) as [->|Hne].
    + destruct Hinc as [_ Hp]. eapply Forall_forall in Hp; [exact Hp|]. set_solver.
    + destruct (highest_In evs Hne) as (m & Hm & <-). apply seq_increasing_app_inv in Hinc as (_ & _ & Hlt). auto.
Qed.

Lemma no_reuse_retained keepAfter evs : seq_increasing evs -> no_reuse evs (retained keepAfter evs).
Proof.
  intros Hinc. split; [rewrite retained_highest; [lia|done]|]. intros e [He _]%list_elem_of_In%filter_In.
  left. by apply list_elem_of_In.
Qed.

(** C16: No sequence number of the instance journal is issued twice, across
    generations: however opens, appends and tick-skip compactions of any handles
    interleave, and whatever their writes, repairs and installations meet, a
    record of the generation then current either was there at the start,
    unchanged, or has a sequence above every one there was; provided every line
    that is written survives the scrubber. *)
Theorem sequences_never_reissued dir dir' evs :
  dir_holds dir evs -> rtc log_step dir dir' ->
  exists evs', dir_holds dir' evs' /\ (highestEventSeq evs <= highestEventSeq evs')%N /\
    forall e, e ∈ evs' -> e ∈ evs \/ (highestEventSeq evs < ev_Seq e)%N.
Proof.
  intros Hd Hsteps. cut (exists evs', dir_holds dir' evs' /\ no_reuse evs evs'); [done|].
  revert evs Hd. induction Hsteps as [dir|dir dir1 dir' Hs _ IH]; intros evs Hd.
  { exists evs. split; [done|]. split; [lia|auto]. }
  assert (Hstep : exists evs1, dir_holds dir1 evs1 /\ no_reuse evs evs1).
  { destruct Hs as [dir dir1 Hi|fate maxBytes keepAfter l dir res l' dir1 Hc].
    - destruct (instance_step_extends _ _ _ Hd Hi) as [added Ha]. eexists. split; [done|].
      apply no_reuse_app. by destruct Ha as (? & ? & ?).
    - assert (Hinc : seq_increasing evs) by (by destruct Hd as (? & ? & ?)).
      destruct (CompactTickSkips_holds _ _ _ _ _ _ _ _ _ Hd Hc); eexists; (split; [done|]);
        [split; [lia|auto]|by apply no_reuse_retained]. }
  destruct Hstep as (evs1 & Hd1 & Hn1). destruct (IH evs1 Hd1) as (evs' & Hd' & Hn').
  exists evs'. split; [done|]. by eapply no_reuse_trans.
Qed.
End lines.
