(* ===== verification/JournalRetention.v ===== *)
(** * What the retention pass keeps

    [compactInstanceEventsData] against a declarative account of its doc
    comment: recent records, the init marker, run starts of the budget window,
    and the checkpoints a restart reads, each the last of its kind. *)

From S2P Require Export JournalCompactProps.
Local Open Scope string_scope.
Local Open Scope list_scope.

(** ** The last record of a kind *)

Definition is_last (p : Event -> bool) (evs : list Event) (i : nat) : Prop :=
  (exists e, evs !! i = Some e /\ p e = true) /\
  forall j e, (i < j)%nat -> evs !! j = Some e -> p e = false.

Lemma is_last_nil p i : ~ is_last p [] i.
Proof. intros [(e & He & _) _]. done. Qed.

Lemma is_last_snoc p evs e i :
  is_last p (evs ++ [e]) i <-> if p e then i = length evs else is_last p evs i.
Proof.
  assert (Hlast : (evs ++ [e]) !! length evs = Some e) by (by rewrite lookup_app_r, Nat.sub_diag).
  assert (Hlt : forall j x, (evs ++ [e]) !! j = Some x -> (j < length evs)%nat /\ evs !! j = Some x \/ j = length evs /\ x = e).
  { intros j x. rewrite lookup_app. destruct (evs !! j) eqn:Hj; [intros [= ->]; left; split; [by eapply lookup_lt_Some|done]|].
    apply lookup_ge_None in Hj. intros Hx. right. apply list_lookup_singleton_Some in Hx as [? <-]. split; [lia|done]. }
  destruct (p e) eqn:Hp; split.
  - intros [(x & Hx & _) Hafter]. destruct (Hlt i x Hx) as [[Hi _]|[-> _]]; [|done].
    specialize (Hafter _ _ Hi Hlast). congruence.
  - intros ->. split; [by exists e|]. intros j x Hj [[Hx _]|[-> ->]]%Hlt; lia.
  - intros [(x & Hx & Hpx) Hafter]. destruct (Hlt i x Hx) as [[Hi Hx']|[-> ->]]; [|congruence].
    split; [by exists x|]. intros j y Hij Hy. apply (Hafter j y Hij). by apply lookup_app_l_Some.
  - intros [(x & Hx & Hpx) Hafter]. split; [exists x; split; [by apply lookup_app_l_Some|done]|].
    intros j y Hij [[Hj Hy]|[-> ->]]%Hlt; [by eapply Hafter|done].
Qed.

Lemma is_last_fun p evs i j : is_last p evs i -> is_last p evs j -> i = j.
Proof.
  intros [(x & Hx & Hpx) Hi] [(y & Hy & Hpy) Hj]. destruct (Nat.lt_trichotomy i j) as [H|[H|H]]; [|done|].
  - specialize (Hi _ _ H Hy). congruence.
  - specialize (Hj _ _ H Hx). congruence.
Qed.

(** ** Cluster checks *)

Definition check_key (e : Event) : string :=
  match ev_Type e with EventClusterCheckCompleted => runner_string (ev_Runner e) "check" | _ => "" end.
Definition outcome (e : Event) : string := runner_string (ev_Runner e) "outcome".
Definition reports (c : string) (e : Event) : bool := check_key e =? c.
Definition definitive (c : string) (e : Event) : bool := reports c e && negb (outcome e =? "warn").

(** The standing result of a check: its last definitive report when that is a
    failure, else its last report. *)
Definition standing (c : string) (evs : list Event) (i : nat) : Prop :=
  (exists e, is_last (definitive c) evs i /\ evs !! i = Some e /\ outcome e = "fail") \/
  (is_last (reports c) evs i /\
   forall j e, is_last (definitive c) evs j -> evs !! j = Some e -> outcome e <> "fail").

(** ** What must be kept *)

Definition run_start (e : Event) : bool := match ev_Type e with EventRunStarted => true | _ => false end.
Definition init_done (e : Event) : bool := match ev_Type e with EventInitCompleted => true | _ => false end.

Definition must_keep (keepAfter keepRunStartsAfter : Z) (evs : list Event) (i : nat) (e : Event) : Prop :=
  IsZero keepAfter = true \/ Before (ev_Time e) keepAfter = false \/
  init_done e = true \/
  (run_start e = true /\ (IsZero keepRunStartsAfter = true \/ Before (ev_Time e) keepRunStartsAfter = false)) \/
  (trigger_key e <> "" /\ is_last (fun x => trigger_key x =? trigger_key e) evs i) \/
  (compactWorkerDivergenceKey e <> "" /\
   is_last (fun x => compactWorkerDivergenceKey x =? compactWorkerDivergenceKey e) evs i) \/
  is_last IsConfigGenerationAuthority evs i \/
  (check_key e <> "" /\ standing (check_key e) evs i).

(** The events at the positions of a mask. *)
Fixpoint select {A} (mask : nat -> bool) (l : list A) : list A :=
  match l with
  | [] => []
  | x :: l' => if mask O then x :: select (fun i => mask (S i)) l' else select (fun i => mask (S i)) l'
  end.

Lemma select_map {A B} (f : A -> B) mask l : map f (select mask l) = select mask (map f l).
Proof. revert mask. induction l as [|x l IH]; intros mask; [done|]. cbn. destruct (mask O); cbn; by rewrite IH. Qed.

Lemma select_ext {A} mask mask' (l : list A) : (forall i, mask i = mask' i) -> select mask l = select mask' l.
Proof.
  revert mask mask'. induction l as [|x l IH]; intros m m' Heq; [done|]. cbn. rewrite Heq.
  by rewrite (IH _ (fun i => m' (S i))).
Qed.

Lemma select_sub {A} mask (l : list A) x : x ∈ select mask l -> x ∈ l.
Proof.
  revert mask. induction l as [|y l IH]; intros mask; [done|]. cbn. destruct (mask O); [|intros H%IH; by right].
  intros [->|H%IH]%elem_of_cons; [left|by right].
Qed.

Lemma select_length {A} mask (l : list A) :
  (length (select mask l) <= length l)%nat /\ (length (select mask l) = length l -> select mask l = l).
Proof.
  revert mask. induction l as [|y l IH]; intros mask; [done|]. cbn. destruct (IH (fun i => mask (S i))) as [Hle Heq].
  destruct (mask O); cbn; (split; [lia|]); intros H; [f_equal; apply Heq; lia|lia].
Qed.

Lemma select_all {A} mask (l : list A) : (forall i x, l !! i = Some x -> mask i = true) -> select mask l = l.
Proof.
  revert mask. induction l as [|x l IH]; intros mask Hm; [done|]. cbn. rewrite (Hm O x eq_refl). f_equal.
  apply IH. intros i y Hi. by apply (Hm (S i) y).
Qed.

Lemma select_imap {A} (g : nat -> A -> bool) (h : nat -> nat) l :
  map snd (List.filter (fun p => g (fst p) (snd p)) (imap (fun i x => (h i, x)) l)) =
  select (fun i => match l !! i with Some x => g (h i) x | None => false end) l.
Proof.
  revert h. induction l as [|x l IH]; intros h; [done|]. cbn. specialize (IH (fun i => h (S i))).
  destruct (g (h O) x); cbn; [f_equal|]; apply IH.
Qed.

(** ** Standing results *)

Lemma lookup_snoc_l {A} (l : list A) x i y : l !! i = Some y -> (l ++ [x]) !! i = Some y.
Proof. intros H. by apply lookup_app_l_Some. Qed.
Lemma lookup_snoc_last {A} (l : list A) x : (l ++ [x]) !! length l = Some x.
Proof. by rewrite lookup_app_r, Nat.sub_diag. Qed.

(** No failure of [c] stands. *)
Definition unfailed (c : string) (evs : list Event) : Prop :=
  forall j e, is_last (definitive c) evs j -> evs !! j = Some e -> outcome e <> "fail".

Lemma standing_fun c evs i j : standing c evs i -> standing c evs j -> i = j.
Proof.
  intros [(e & Hi & He & Hf)|[Hi Hi']] [(e' & Hj & He' & Hf')|[Hj Hj']].
  - by eapply is_last_fun.
  - by destruct (Hj' _ _ Hi He).
  - by destruct (Hi' _ _ Hj He').
  - by eapply is_last_fun.
Qed.

Lemma definitive_of c e : reports c e = false -> definitive c e = false.
Proof. unfold definitive. by intros ->. Qed.

Lemma unfailed_snoc c evs e : definitive c e = false -> unfailed c evs -> unfailed c (evs ++ [e]).
Proof.
  intros Hd Hu j x Hj Hx. apply is_last_snoc in Hj. rewrite Hd in Hj. apply (Hu j x Hj).
  destruct Hj as [(y & Hy & _) _]. assert (Hy' := lookup_snoc_l evs e j y Hy). congruence.
Qed.

Lemma standing_fail_snoc c evs e i x :
  definitive c e = false -> is_last (definitive c) evs i -> evs !! i = Some x -> outcome x = "fail" ->
  standing c (evs ++ [e]) i.
Proof.
  intros Hd Hi Hx Hf. left. exists x. rewrite is_last_snoc, Hd. split; [done|]. split; [by apply lookup_snoc_l|done].
Qed.

Lemma standing_skip c evs e i : reports c e = false -> standing c evs i -> standing c (evs ++ [e]) i.
Proof.
  intros Hr Hs. pose proof (definitive_of c e Hr) as Hd. destruct Hs as [(x & Hi & Hx & Hf)|[Hi Hu]].
  - by eapply standing_fail_snoc.
  - right. rewrite is_last_snoc, Hr. split; [done|]. by apply unfailed_snoc.
Qed.

Lemma standing_definitive c evs e : definitive c e = true -> standing c (evs ++ [e]) (length evs).
Proof.
  intros Hd. assert (Hr : reports c e = true) by (by apply andb_true_iff in Hd as [? _]).
  destruct (decide (outcome e = "fail")) as [Hf|Hf]; [left; exists e|right].
  - rewrite is_last_snoc, Hd. split; [done|]. split; [apply lookup_snoc_last|done].
  - rewrite is_last_snoc, Hr. split; [done|]. intros j x Hj Hx. apply is_last_snoc in Hj. rewrite Hd in Hj. subst j.
    rewrite lookup_snoc_last in Hx. congruence.
Qed.

Lemma standing_warn c evs e : reports c e = true -> definitive c e = false -> unfailed c evs ->
  standing c (evs ++ [e]) (length evs).
Proof. intros Hr Hd Hu. right. rewrite is_last_snoc, Hr. split; [done|]. by apply unfailed_snoc. Qed.

Lemma standing_split c evs i x : standing c evs i -> evs !! i = Some x ->
  if decide (outcome x = "fail") then is_last (definitive c) evs i else unfailed c evs.
Proof.
  intros [(y & Hi & Hy & Hf)|[Hi Hu]] Hx; destruct (decide (outcome x = "fail")) as [Hxf|Hxf]; [done|congruence| |done].
  exfalso. destruct Hi as [(y & Hy & Hr) Hafter]. assert (y = x) as -> by congruence.
  eapply (Hu i x); [|done|done]. split.
  - exists x. split; [done|]. unfold definitive. rewrite Hr, Hxf. done.
  - intros j z Hj Hz. by apply definitive_of, (Hafter j z).
Qed.

(** What the pass remembers of a check. *)
Definition remembers (evs : list Event) (cluster : gmap string (nat * string)) (c : string) : Prop :=
  match cluster !! c with
  | None => Forall (fun e => reports c e = false) evs
  | Some (i, o) => standing c evs i /\ exists x, evs !! i = Some x /\ outcome x = o
  end.

Lemma cluster_record_spec evs cluster e :
  (forall c, c <> "" -> remembers evs cluster c) ->
  fst (cluster_record cluster e (length evs)) = check_key e /\
  forall c, c <> "" -> remembers (evs ++ [e]) (snd (cluster_record cluster e (length evs))) c.
Proof.
  intros Hrem. assert (Hskip : forall c, c <> "" -> reports c e = false -> remembers (evs ++ [e]) cluster c).
  { intros c Hc Hr. specialize (Hrem c Hc). unfold remembers in *. destruct (cluster !! c) as [[i o]|].
    - destruct Hrem as (Hs & x & Hx & Ho). split; [by apply standing_skip|]. exists x. split; [by apply lookup_snoc_l|done].
    - apply Forall_app. split; [done|by constructor]. }
  assert (Hnone : check_key e = "" -> forall c, c <> "" -> remembers (evs ++ [e]) cluster c).
  { intros Hk c Hc. apply Hskip; [done|]. unfold reports. rewrite Hk. by apply String.eqb_neq. }
  unfold cluster_record. unfold check_key in *.
  destruct (ev_Type e) eqn:Hty; try (split; [done|by apply Hnone]).
  set (k := runner_string (ev_Runner e) "check") in *. fold (outcome e).
  assert (Hrk : forall c, reports c e = (k =? c)).
  { intros c. unfold reports, check_key. by rewrite Hty. }
  destruct (String.eqb_spec k "") as [Hk|Hk]; [split; [done|by apply Hnone]|].
  assert (Hme := Hrem k Hk). assert (Hrr : reports k e = true) by (by rewrite Hrk, String.eqb_refl).
  assert (Hnew : standing k (evs ++ [e]) (length evs) ->
            forall c, c <> "" -> remembers (evs ++ [e]) (<[k:=(length evs, outcome e)]> cluster) c).
  { intros Hs c Hc. destruct (decide (k = c)) as [<-|Hne]; unfold remembers.
    - rewrite lookup_insert_eq. split; [done|]. exists e. split; [apply lookup_snoc_last|done].
    - rewrite lookup_insert_ne by done. apply Hskip; [done|]. rewrite Hrk. by apply String.eqb_neq. }
  destruct (String.eqb_spec (outcome e) "warn") as [Hw|Hw]; cbn [andb].
  2: { split; [done|]. apply Hnew, standing_definitive. unfold definitive. rewrite Hrr.
       by rewrite (proj2 (String.eqb_neq _ _)). }
  assert (Hnd : definitive k e = false) by (unfold definitive; by rewrite Hrr, Hw).
  destruct (cluster !! k) as [[i o]|] eqn:Hl; unfold remembers in Hme; rewrite Hl in Hme.
  - destruct Hme as (Hs & x & Hx & <-). pose proof (standing_split _ _ _ _ Hs Hx) as Hsp.
    destruct (String.eqb_spec (outcome x) "fail") as [Hf|Hf].
    + split; [done|]. intros c Hc. destruct (decide (k = c)) as [<-|Hne].
      * unfold remembers. cbn [snd]. rewrite Hl. rewrite decide_True in Hsp by done.
        split; [by eapply standing_fail_snoc|]. exists x. split; [by apply lookup_snoc_l|done].
      * apply Hskip; [done|]. rewrite Hrk. by apply String.eqb_neq.
    + split; [done|]. rewrite decide_False in Hsp by done. by apply Hnew, standing_warn.
  - split; [done|]. apply Hnew, standing_warn; [done|done|]. intros j x [(y & Hy & Hdy) _] _. exfalso.
    apply list_elem_of_lookup_2 in Hy. eapply Forall_forall in Hme; [|exact Hy].
    apply definitive_of in Hme. congruence.
Qed.

(** What a map of last positions remembers of a key. *)
Definition tracks (key : Event -> string) (evs : list Event) (m : gmap string nat) (k : string) : Prop :=
  forall i, m !! k = Some i <-> is_last (fun x => key x =? k) evs i.

Lemma tracks_insert key evs m e k :
  tracks key evs m k -> tracks key (evs ++ [e]) (<[key e := length evs]> m) k.
Proof.
  intros Ht i. rewrite is_last_snoc. destruct (String.eqb_spec (key e) k) as [<-|Hne].
  - rewrite lookup_insert_eq. split; [by intros [= <-]|by intros ->].
  - rewrite lookup_insert_ne by done. apply Ht.
Qed.

Lemma tracks_other key evs m e k : key e <> k -> tracks key evs m k -> tracks key (evs ++ [e]) m k.
Proof. intros Hne Ht i. rewrite is_last_snoc, (proj2 (String.eqb_neq _ _) Hne). apply Ht. Qed.

Section retention.
Context `{L : JSONLaws}.

Definition compact_step (acc : compact_acc) (p : list N * Event) : compact_acc :=
  let ev := p.2 in
  let index := length (acc_records acc) in
  let config :=
    if IsConfigGenerationAuthority ev
       && (match acc_config acc with Some (_, s) => (s <=? ev_Seq ev)%N | None => true end)
    then Some (index, ev_Seq ev) else acc_config acc in
  let trigger := if trigger_key ev =? "" then acc_trigger acc
                 else <[trigger_key ev := index]> (acc_trigger acc) in
  let worker := <[compactWorkerDivergenceKey ev := index]> (acc_worker acc) in
  let '(key, cluster) := cluster_record (acc_cluster acc) ev index in
  mkAcc (acc_records acc ++ [mkRecord p.1 ev key]) trigger worker cluster config.

Lemma compact_lines_fold ls : forall acc,
  compact_lines acc ls =
    match decode_lines ls with Ok prs => Ok (fold_left compact_step prs acc) | Error e => Error e end.
Proof.
  induction ls as [|l ls IH]; intros acc; [done|]. cbn [compact_lines decode_lines]. unfold compact_line.
  destruct (length (TrimSpaceBytes l) =? 0)%nat; [apply IH|].
  destruct (json_Unmarshal (TrimSpaceBytes l)) as [ev|]; [|done].
  destruct (negb (KnownSchema ev)); [done|].
  transitivity (compact_lines (compact_step acc (l, ev)) ls).
  { unfold compact_step. cbn [fst snd]. by destruct (cluster_record _ _ _). }
  rewrite IH. by destruct (decode_lines ls).
Qed.

(** The accumulator of the first pass describes the records it has read. *)
Record acc_describes (prs : list (list N * Event)) (acc : compact_acc) : Prop := {
  ad_records : acc_records acc = map (fun p => mkRecord p.1 p.2 (check_key p.2)) prs;
  ad_trigger k : k <> "" -> tracks trigger_key (map snd prs) (acc_trigger acc) k;
  ad_worker k : tracks compactWorkerDivergenceKey (map snd prs) (acc_worker acc) k;
  ad_cluster c : c <> "" -> remembers (map snd prs) (acc_cluster acc) c;
  ad_config i : (exists s, acc_config acc = Some (i, s)) <-> is_last IsConfigGenerationAuthority (map snd prs) i;
  ad_config_seq i s : acc_config acc = Some (i, s) -> (s <= highestEventSeq (map snd prs))%N
}.

Lemma compact_step_describes prs acc p :
  seq_increasing (map snd prs ++ [p.2]) -> acc_describes prs acc -> acc_describes (prs ++ [p]) (compact_step acc p).
Proof.
  intros Hinc [Hrec Htr Hwk Hcl Hcf Hcs]. destruct p as [l ev]. cbn [snd fst] in *. unfold compact_step.
  assert (Hlen : length (acc_records acc) = length (map snd prs)) by (by rewrite Hrec, !length_map).
  cbn [fst snd]. rewrite Hlen.
  assert (Hs : (highestEventSeq (map snd prs) < ev_Seq ev)%N).
  { destruct (no_reuse_app _ _ Hinc) as [_ Hn]. destruct (Hn ev ltac:(set_solver)) as [Hin|]; [|done].
    apply seq_increasing_app_inv in Hinc as (_ & _ & Hlt). specialize (Hlt ev ev Hin ltac:(set_solver)). lia. }
  pose proof (cluster_record_spec (map snd prs) (acc_cluster acc) ev Hcl) as [Hkey Hcl'].
  destruct (cluster_record _ _ _) as [key cluster]. cbn [fst snd] in *. subst key.
  assert (Hauth : (match acc_config acc with Some (_, s) => (s <=? ev_Seq ev)%N | None => true end) = true).
  { destruct (acc_config acc) as [[i s]|] eqn:Hc; [|done]. apply N.leb_le. specialize (Hcs i s eq_refl). lia. }
  rewrite Hauth, andb_true_r. split; rewrite ?map_app; cbn [acc_records acc_trigger acc_worker acc_cluster acc_config map fst snd].
  - by rewrite Hrec.
  - intros k Hk. destruct (String.eqb_spec (trigger_key ev) "") as [He|He].
    + apply tracks_other; [congruence|by apply Htr].
    + by apply tracks_insert, Htr.
  - intros k. apply tracks_insert, Hwk.
  - exact Hcl'.
  - intros i. rewrite is_last_snoc. destruct (IsConfigGenerationAuthority ev); [|apply Hcf].
    split; [by intros [s [= <- _]]|intros ->; by eexists].
  - intros i s. rewrite highest_snoc. destruct (IsConfigGenerationAuthority ev); [intros [= _ <-]; lia|].
    intros Hc. specialize (Hcs i s Hc). lia.
Qed.

Lemma compact_fold_describes prs : seq_increasing (map snd prs) ->
  acc_describes prs (fold_left compact_step prs empty_acc).
Proof.
  induction prs as [|p prs IH] using rev_ind; intros Hinc.
  - split; cbn; [done| | | | |done].
    + intros k _ i. split; [by intros ?%lookup_empty_Some|by intros ?%is_last_nil].
    + intros k i. split; [by intros ?%lookup_empty_Some|by intros ?%is_last_nil].
    + intros c _. unfold remembers. rewrite lookup_empty. constructor.
    + intros i. split; [by intros [s ?]|by intros ?%is_last_nil].
  - rewrite fold_left_app. cbn [fold_left]. rewrite map_app in Hinc. apply compact_step_describes; [done|].
    apply IH. by apply seq_increasing_app_inv in Hinc as (? & _ & _).
Qed.

Lemma record_dropped_spec prs acc keepAfter keepRunStartsAfter i l e :
  acc_describes prs acc -> prs !! i = Some (l, e) ->
  record_dropped acc keepAfter keepRunStartsAfter i (mkRecord l e (check_key e)) = false <->
  must_keep keepAfter keepRunStartsAfter (map snd prs) i e.
Proof.
  intros [_ Htr Hwk Hcl Hcf _] Hi. unfold record_dropped, compactDropsAgedRecord, must_keep.
  cbn [rec_event rec_clusterKey].
  rewrite !andb_false_iff, !negb_false_iff, !orb_true_iff, !andb_true_iff, !negb_true_iff, !bool_decide_eq_true, !String.eqb_neq.
  assert (Htrig : trigger_key e <> "" /\ acc_trigger acc !! trigger_key e = Some i <->
                  trigger_key e <> "" /\ is_last (fun x => trigger_key x =? trigger_key e) (map snd prs) i).
  { split; intros [Hk H]; (split; [done|]); by apply (Htr _ Hk). }
  rewrite Htrig, (Hwk _ i).
  assert (Hclus : check_key e <> "" /\ (match acc_cluster acc !! check_key e with Some (j, _) => (j =? i)%nat | None => (0 =? i)%nat end) = true <->
                  check_key e <> "" /\ standing (check_key e) (map snd prs) i).
  { split; intros [Hk H]; (split; [done|]); specialize (Hcl _ Hk); unfold remembers in Hcl;
      destruct (acc_cluster acc !! check_key e) as [[j o]|].
    - apply Nat.eqb_eq in H as ->. apply Hcl.
    - exfalso. assert (Hin : e ∈ map snd prs) by (apply list_elem_of_fmap; exists (l, e); split; [done|by eapply list_elem_of_lookup_2]).
      eapply Forall_forall in Hcl; [|exact Hin]. unfold reports in Hcl. by rewrite String.eqb_refl in Hcl.
    - apply Nat.eqb_eq. eapply standing_fun; [apply Hcl|done].
    - exfalso. assert (Hin : e ∈ map snd prs) by (apply list_elem_of_fmap; exists (l, e); split; [done|by eapply list_elem_of_lookup_2]).
      eapply Forall_forall in Hcl; [|exact Hin]. unfold reports in Hcl. by rewrite String.eqb_refl in Hcl. }
  rewrite Hclus.
  assert (Hconf : (match acc_config acc with Some (j, _) => (j =? i)%nat | None => false end) = true <->
                  is_last IsConfigGenerationAuthority (map snd prs) i).
  { rewrite <- (Hcf i). destruct (acc_config acc) as [[j s]|]; [|split; [done|by intros [? ?]]].
    rewrite Nat.eqb_eq. split; [intros ->; by exists s|by intros [? [= -> _]]]. }
  rewrite Hconf.
  assert (Hrun : match ev_Type e with
                 | EventRunStarted => IsZero keepRunStartsAfter || negb (Before (ev_Time e) keepRunStartsAfter)
                 | _ => false end = true <->
               run_start e = true /\ (IsZero keepRunStartsAfter = true \/ Before (ev_Time e) keepRunStartsAfter = false)).
  { unfold run_start. destruct (ev_Type e); try (split; [done|intros [? _]; done]).
    rewrite orb_true_iff, negb_true_iff. tauto. }
  rewrite Hrun. fold (init_done e). clear.
  generalize (init_done e = true), (IsZero keepAfter = true), (Before (ev_Time e) keepAfter = false).
  generalize (run_start e = true /\ (IsZero keepRunStartsAfter = true \/ Before (ev_Time e) keepRunStartsAfter = false)).
  tauto.
Qed.

Lemma retention_exact data evs tail keepAfter keepRunStartsAfter :
  log_holds data evs tail -> seq_increasing evs ->
  match compactInstanceEventsData data keepAfter keepRunStartsAfter with
  | Ok (dropped, out) => exists mask,
      (forall i e, evs !! i = Some e -> mask i = true <-> must_keep keepAfter keepRunStartsAfter evs i e) /\
      readEvents out = Ok (select mask evs, length tail) /\
      (dropped + length (select mask evs) = length evs)%nat
  | Error _ => nul ∈ data
  end.
Proof.
  intros Hlog Hinc. assert (Hread := log_holds_read _ _ _ Hlog). destruct Hlog as (ls & -> & Ht & Hl & Hk).
  unfold compactInstanceEventsData. destruct (frame_cut ls tail (proj1 Hl) Ht) as [[-> ->]|(e & -> & -> & ->)].
  { apply lines_hold_nil in Hl as ->. exists (fun _ => true). done. }
  rewrite compact_lines_fold. pose proof (decode_lines_hold ls evs Hl Hk) as Hd.
  destruct (decode_lines ls) as [prs|]; [|by eapply nul_in_lines].
  destruct Hd as [Hprs <-]. pose proof (compact_fold_describes prs Hinc) as Had.
  set (acc := fold_left _ prs _) in *. clearbody acc.
  set (mask := fun i => match prs !! i with
                        | Some p => negb (record_dropped acc keepAfter keepRunStartsAfter i (mkRecord p.1 p.2 (check_key p.2)))
                        | None => false end).
  assert (Hmask : forall i e0, map snd prs !! i = Some e0 ->
            mask i = true <-> must_keep keepAfter keepRunStartsAfter (map snd prs) i e0).
  { intros i e0 Hi. apply list_lookup_fmap_Some in Hi as ([l x] & -> & Hi). unfold mask. rewrite Hi.
    rewrite negb_true_iff. by apply (record_dropped_spec prs acc keepAfter keepRunStartsAfter i l x). }
  assert (Hkept : kept_records acc keepAfter keepRunStartsAfter = map (fun p => mkRecord p.1 p.2 (check_key p.2)) (select mask prs)).
  { unfold kept_records.
    rewrite (select_imap (fun i r => negb (record_dropped acc keepAfter keepRunStartsAfter i r)) (fun i => i)).
    rewrite (ad_records _ _ Had), select_map. apply select_ext. intros i. unfold mask.
    rewrite list_lookup_fmap. by destruct (prs !! i). }
  rewrite Hkept, (ad_records _ _ Had), !length_map.
  destruct (select_length mask prs) as [Hle Hsame]. destruct (Nat.eqb_spec (length prs - length (select mask prs)) 0) as [H0|H0].
  - exists mask. split; [done|]. rewrite <- select_map, Hsame by lia. split; [done|]. rewrite length_map. lia.
  - exists mask. split; [done|]. rewrite <- select_map, length_map. split; [|lia]. rewrite map_map. cbn [rec_line].
    apply log_holds_read, rewrite_holds; [done| |done]. apply Forall_forall. intros p Hp%select_sub.
    by eapply Forall_forall in Hprs.
Qed.

(** The retention pass keeps exactly what its contract lists, at every
    position: records at or after the cut (all of them for a zero cut), the init
    marker, the run starts of the budget window, the last scheduled trigger of
    each workflow, the last divergence of each worker, the last configuration
    authority, and the standing result of each cluster check, where a warning
    never replaces a failure.  It counts the others, keeps the order and the
    torn tail, and is defined on every log without crash fill. *)
Theorem retention_is_exact data evs tail keepAfter keepRunStartsAfter :
  log_holds data evs tail -> seq_increasing evs ->
  match compactInstanceEventsData data keepAfter keepRunStartsAfter with
  | Ok (dropped, out) => exists mask,
      (forall i e, evs !! i = Some e -> mask i = true <-> must_keep keepAfter keepRunStartsAfter evs i e) /\
      readEvents out = Ok (select mask evs, length tail) /\
      (dropped + length (select mask evs) = length evs)%nat
  | Error _ => nul ∈ data
  end.
Proof. apply retention_exact. Qed.

(** ** The fence *)

(** Records appended in time order. *)
Definition time_ordered (evs : list Event) : Prop :=
  forall i j a b, (i < j)%nat -> evs !! i = Some a -> evs !! j = Some b -> (ev_Time a <= ev_Time b)%Z.

Lemma take_line l rest n : no_newline l ->
  IndexByte newline (take n (l ++ newline :: rest)) = Some (length l) \/
  IndexByte newline (take n (l ++ newline :: rest)) = None.
Proof.
  intros Hl. destruct (decide (length l < n)%nat) as [Hn|Hn].
  - left. rewrite take_app_ge by lia. replace (n - length l)%nat with (S (n - length l - 1)) by lia.
    cbn [take]. by apply IndexByte_app.
  - right. rewrite take_app_le by lia. apply IndexByte_None. intros Hin. apply Hl.
    apply elem_of_take in Hin as (i & Hi & _). by eapply list_elem_of_lookup_2.
Qed.

(** The fence decodes the first record. *)
Lemma fence_first ls evs tail limit keepAfter :
  no_newline tail -> lines_hold ls evs -> IsZero keepAfter = false ->
  nothingCanAgeOut_with limit (unlines ls ++ tail) keepAfter = true ->
  exists e rest, evs = e :: rest /\ Before (ev_Time e) keepAfter = false.
Proof.
  intros Ht Hl Hz. unfold nothingCanAgeOut_with. rewrite Hz. destruct ls as [|l ls].
  { cbn [unlines map concat app]. assert (Hn : no_newline (take (N.to_nat limit) tail)).
    { intros Hin. apply Ht. apply elem_of_take in Hin as (i & Hi & _). by eapply list_elem_of_lookup_2. }
    apply IndexByte_None in Hn. by rewrite Hn. }
  apply (lines_hold_app [l]) in Hl as (e1 & e2 & -> & [Hnl Hs] & _). inversion_clear Hnl as [|? ? Hnl' _].
  apply scan_lines_one in Hs as (o & Ho & ->). rewrite unlines_cons, <- app_assoc. cbn [app].
  destruct (take_line l (unlines ls ++ tail) (N.to_nat limit) Hnl') as [Hi|Hi]; rewrite Hi; [|done].
  assert (Htk : take (length l) (take (N.to_nat limit) (l ++ newline :: unlines ls ++ tail)) = l).
  { rewrite take_take, Nat.min_l; [apply take_app_length|].
    destruct (decide (length l <= N.to_nat limit)%nat); [done|]. rewrite take_app_le in Hi by lia. exfalso.
    assert (Hn : no_newline (take (N.to_nat limit) l)).
    { intros Hin. apply Hnl'. apply elem_of_take in Hin as (i & Hi' & _). by eapply list_elem_of_lookup_2. }
    apply IndexByte_None in Hn. congruence. }
  rewrite Htk. destruct (parse_trimmed l o Ho) as [[Hb ->]|[_ [[-> _]|(ev & -> & ->)]]]; [|done|].
  - apply nil_length_inv in Hb as ->. by rewrite empty_is_not_json.
  - destruct (KnownSchema ev); [|done]. intros Hb%negb_true_iff. by exists ev, e2.
Qed.

(** The fence that skips a pass is right: on a log appended in time order,
    when the first record alone says that nothing can age out, the full pass
    would drop nothing, whatever prefix of the file the fence reads. *)
Theorem fence_is_sound data evs tail limit keepAfter keepRunStartsAfter :
  log_holds data evs tail -> seq_increasing evs -> time_ordered evs ->
  nothingCanAgeOut_with limit data keepAfter = true ->
  match compactInstanceEventsData data keepAfter keepRunStartsAfter with
  | Ok (dropped, _) => dropped = 0%nat
  | Error _ => nul ∈ data
  end.
Proof.
  intros Hlog Hinc Htime Hf. pose proof (retention_exact data evs tail keepAfter keepRunStartsAfter Hlog Hinc) as Hr.
  destruct (compactInstanceEventsData _ _ _) as [[dropped out]|]; [|done]. destruct Hr as (mask & Hmask & _ & Hc).
  assert (Hall : forall i e, evs !! i = Some e -> mask i = true).
  { intros i e Hi. apply (Hmask i e Hi). unfold must_keep. destruct (IsZero keepAfter) eqn:Hz; [by left|]. right. left.
    destruct Hlog as (ls & -> & Ht & Hl & _).
    destruct (fence_first ls evs tail limit keepAfter Ht Hl Hz Hf) as (e0 & rest & -> & Hb).
    unfold Before in *. apply Z.ltb_ge in Hb. apply Z.ltb_ge. destruct i as [|i]; [by injection Hi as ->|].
    specialize (Htime O (S i) e0 e ltac:(lia) eq_refl Hi). lia. }
  rewrite select_all in Hc by done. lia.
Qed.
End retention.
