(* ===== verification/JournalFollow.v ===== *)
(** * Following the instance journal

    [instancelogtail.go]: a reader that keeps an offset and a sequence sees
    every record exactly once while other processes append to the journal,
    repair it and move it to a new generation. *)

From S2P Require Export JournalCompactProps.
Local Open Scope list_scope.

(** ** Extension of a file *)

(** Complete records stay where they are; only the torn region may change. *)
Definition file_extends (file file' : list N) : Prop :=
  exists ls ls' t t', file = unlines ls ++ t /\ file' = unlines (ls ++ ls') ++ t' /\
    Forall no_newline ls /\ Forall no_newline ls' /\ no_newline t /\ no_newline t'.

#[export] Instance file_extends_refl : Reflexive file_extends.
Proof.
  intros file. destruct (frame_exists file) as (ls & t & -> & Hls & Ht). exists ls, [], t, t.
  rewrite app_nil_r. repeat split; (done || constructor).
Qed.

#[export] Instance file_extends_trans : Transitive file_extends.
Proof.
  intros f1 f2 f3 (ls & ls' & t & t' & -> & H2 & Hls & Hls' & Ht & Ht')
    (ms & ms' & s & s' & Heq & -> & Hms & Hms' & Hs & Hs'). rewrite H2 in Heq.
  apply frame_inj in Heq as [<- <-]; [|by apply Forall_app|done..].
  exists ls, (ls' ++ ms'), t, s'. rewrite app_assoc. repeat split; try done. by apply Forall_app.
Qed.

Lemma extend_torn file junk : no_newline junk -> file_extends file (file ++ junk).
Proof.
  intros Hj. destruct (frame_exists file) as (ls & t & -> & Hls & Ht). exists ls, [], t, (t ++ junk).
  rewrite app_nil_r, <- app_assoc. repeat split; try done. by apply no_newline_app.
Qed.

Lemma extend_line file line : no_newline line -> file_extends file (file ++ line ++ [newline]).
Proof.
  intros Hj. destruct (frame_exists file) as (ls & t & -> & Hls & Ht). exists ls, [t ++ line], t, [].
  rewrite unlines_snoc, app_nil_r, <- !app_assoc. repeat split; try done.
  - constructor; [by apply no_newline_app|constructor].
  - unfold no_newline. set_solver.
Qed.

Lemma extend_truncated ls t : Forall no_newline ls -> no_newline t ->
  file_extends (unlines ls ++ t) (truncateTornTail (unlines ls ++ t) (length t)).
Proof.
  intros Hls Ht. exists ls, [], t, []. unfold truncateTornTail. rewrite !app_nil_r.
  split; [done|]. split; [|repeat split; try done; unfold no_newline; set_solver].
  destruct (Nat.eqb_spec (length t) 0) as [H0|_]; [apply nil_length_inv in H0 as ->; by rewrite app_nil_r|].
  rewrite length_app. replace (_ + _ - _)%nat with (length (unlines ls)) by lia. by rewrite take_app_length.
Qed.

Section follow.
Context `{L : JSONLaws}.

Lemma append_line_file fate now data seq ev :
  survives (stamp (seq + 1) now ev) = true -> file_extends data (appendEvent fate now data seq ev).2.
Proof.
  intros Hsv. unfold appendEvent. destruct (marshalEvent _) as [line|] eqn:Hm; [|reflexivity].
  apply marshalEvent_Some in Hm as ->. destruct (_ <? _)%N; [reflexivity|].
  pose proof (kept_line _ (survives_kept _ Hsv)) as Hn. unfold encoded in Hn. set (line := Scrub _ _) in *.
  destruct fate as [|k fill]; cbn [write_bytes snd]; [by apply extend_line|].
  destruct (decide (length line < k)%nat).
  - rewrite take_ge by (rewrite length_app; cbn; lia). rewrite app_assoc.
    transitivity (data ++ line ++ [newline]); [by apply extend_line|]. apply extend_torn, nul_fill_no_newline.
  - apply extend_torn, no_newline_app. split; [|apply nul_fill_no_newline]. rewrite take_app_le by lia.
    intros Hin. apply Hn. apply elem_of_take in Hin as (i & Hi & _). by eapply list_elem_of_lookup_2.
Qed.

(** What a writer does to the directory: the current file is extended, the
    other generations stay. *)
Definition dir_extends (dir dir' : InstanceDir) : Prop :=
  dir_gen dir' = dir_gen dir /\ file_extends (current_file dir) (current_file dir') /\
  forall g, g <> dir_gen dir -> dir_files dir' !! g = dir_files dir !! g.

#[local] Instance dir_extends_refl : Reflexive dir_extends.
Proof. intros dir. by split. Qed.
#[local] Instance dir_extends_trans : Transitive dir_extends.
Proof.
  intros d1 d2 d3 (G1 & F1 & O1) (G2 & F2 & O2). split; [congruence|]. split; [by etransitivity|].
  intros g Hg. rewrite O2 by congruence. by apply O1.
Qed.

Lemma set_file_extends dir file : file_extends (current_file dir) file -> dir_extends dir (set_file dir file).
Proof.
  intros Hf. split; [done|]. rewrite current_set. split; [done|]. intros g Hg. cbn. by rewrite lookup_insert_ne.
Qed.

Lemma repair_tail_file env seq dir evs tail :
  log_holds (current_file dir) evs tail -> repair_survives env seq (length tail) = true ->
  dir_extends dir (repair_tail env seq (length tail) dir).2.
Proof.
  intros (ls & Hf & Ht & [Hls _] & _). unfold repair_tail, repair_survives.
  destruct (length tail =? 0)%nat; intros Hsv; [reflexivity|]. destruct (negb (ie_truncates env)); [reflexivity|].
  pose proof (append_line_file (ie_repair env) (ie_now env) (truncateTornTail (current_file dir) (length tail)) seq
                (repaired_event (length tail)) Hsv) as Ha.
  destruct (appendEvent _ _ _ _ _) as [[ares aseq] afile]. cbn [snd] in *. apply set_file_extends.
  etransitivity; [|exact Ha]. rewrite Hf. by apply extend_truncated.
Qed.

Lemma instance_step_file dir dir' evs :
  dir_holds dir evs -> instance_step dir dir' -> dir_extends dir dir'.
Proof.
  intros (tail & Hlog & Hinc) Hs. destruct Hs as [env dir res dir' Hsv Ho|env ev l dir res l' dir' Hsv Ha].
  - revert Ho. unfold open_survives in Hsv. unfold OpenInstanceLog, sequenceFromTailOrFull in *. rewrite (sequence_agrees _ _ _ evs tail) in * by done.
    pose proof (repair_tail_file env (highestEventSeq evs) dir evs tail Hlog Hsv) as Hr.
    destruct (repair_tail _ _ _ _) as [[rres rseq] rdir]. destruct rres; intros [= <- <-]; [|done].
    etransitivity; [exact Hr|]. by apply set_file_extends.
  - revert Ha. unfold InstanceAppend. destruct (il_closed l); [by intros [= <- <- <-]|].
    destruct (dir_files dir !! dir_gen dir) as [file|] eqn:Hf; [|by intros [= <- <- <-]].
    assert (Hcf : file = current_file dir) by (unfold current_file; by rewrite Hf). subst file.
    unfold append_survives in Hsv. unfold sequenceFromTailOrFull in *. rewrite (sequence_agrees _ _ _ evs tail) in * by done.
    cbn [il_seq]. cbv zeta in Hsv. set (high := if (_ <? _)%N then _ else _) in *. apply andb_true_iff in Hsv as [Hmark Hev].
    pose proof (repair_tail_file env high dir evs tail Hlog Hmark) as Hr.
    destruct (repair_tail _ _ _ _) as [[rres rseq] rdir] eqn:Ht. destruct rres as [[]|]; [|by intros [= <- <- <-]].
    rewrite <- (repair_tail_seq _ _ _ _ _ _ Ht) in Hev.
    pose proof (append_line_file (ie_write env) (ie_now env) (current_file rdir) rseq ev Hev) as Hap.
    destruct (appendEvent _ _ _ _ _) as [[ares aseq] afile]. intros [= <- <- <-].
    etransitivity; [exact Hr|]. by apply set_file_extends.
Qed.

Lemma instance_steps_extend dir dir' evs :
  dir_holds dir evs -> rtc instance_step dir dir' ->
  dir_extends dir dir' /\ exists added, dir_holds dir' (evs ++ added).
Proof.
  intros Hd Hs. revert evs Hd. induction Hs as [dir|dir dir1 dir' Hs _ IH]; intros evs Hd.
  - split; [reflexivity|]. exists []. by rewrite app_nil_r.
  - pose proof (instance_step_file _ _ _ Hd Hs) as Hf. destruct (instance_step_extends _ _ _ Hd Hs) as [added Ha].
    destruct (IH _ Ha) as [Hf' [more Hm]]. split; [by etransitivity|]. exists (added ++ more). by rewrite app_assoc.
Qed.

(** ** The reader's position *)

(** The reader stands behind the complete records of [file], which hold [evs]. *)
Definition at_end (t : InstanceLogTail) (file : list N) (evs : list Event) : Prop :=
  t_seq t = highestEventSeq evs /\
  exists ls tail, file = unlines ls ++ tail /\ no_newline tail /\ lines_hold ls evs /\
    t_offset t = length (unlines ls).

Lemma accept_highest events t evs : t_seq t = highestEventSeq evs ->
  t_seq (accept events t) = highestEventSeq (evs ++ events).
Proof. intros Ht. unfold accept, highestEventSeq. cbn. by rewrite Ht, fold_left_app. Qed.

Lemma eventsAfter_all evs added : seq_increasing (evs ++ added) -> eventsAfter added (highestEventSeq evs) = added.
Proof.
  intros Hinc. unfold eventsAfter. apply forallb_filter_id, forallb_forall. intros e He%list_elem_of_In.
  apply N.ltb_lt. destruct (decide (evs = [])) as [->|Hne].
  - destruct Hinc as [_ Hp]. by eapply Forall_forall in Hp.
  - destruct (highest_In evs Hne) as (m & Hm & <-). apply seq_increasing_app_inv in Hinc as (_ & _ & Hlt). auto.
Qed.

(** One read of the reader's generation. *)
Lemma readCurrent_spec t dir f0 evs0 evs tail :
  at_end t f0 evs0 -> file_extends f0 (default [] (dir_files dir !! t_gen t)) ->
  log_holds (default [] (dir_files dir !! t_gen t)) evs tail -> seq_increasing evs ->
  exists added t', evs = evs0 ++ added /\ readCurrent t dir = (Ok added, t') /\ t_gen t' = t_gen t /\
    at_end t' (default [] (dir_files dir !! t_gen t)) evs.
Proof.
  intros (Hseq & ls0 & t0 & -> & Ht0 & Hl0 & Hoff) (ls & ls' & s & s' & Heq & Hf & Hls & Hls' & Hs & Hs') Hlog Hinc.
  apply frame_inj in Heq as [<- <-]; [|apply Hl0|done..]. unfold readCurrent. rewrite Hf in *.
  destruct Hlog as (ms & Hms & Ht & Hl & Hk). apply frame_inj in Hms as [<- <-]; [|by apply Forall_app|apply Hl|done..].
  assert (Hl2 := Hl). apply lines_hold_app in Hl2 as (e1 & added & -> & [_ He1] & Hadd). destruct Hl0 as [_ Hl0].
  assert (e1 = evs0) as -> by congruence. exists added. rewrite Hoff, unlines_app, <- app_assoc, length_app, drop_app_length.
  destruct (Nat.leb_spec (length (unlines ls0) + length (unlines ls' ++ s')) (length (unlines ls0))) as [Hle|Hgt].
  - assert (Hnil : unlines ls' ++ s' = []) by (apply nil_length_inv; lia). apply app_nil in Hnil as [Hu ->].
    assert (ls' = []) as -> by (destruct ls'; [done|]; rewrite unlines_cons in Hu; by destruct l).
    apply lines_hold_nil in Hadd as ->. exists t. rewrite !app_nil_r in *. repeat split; try done.
    exists ls0, []. rewrite app_nil_r. split; [done|]. split; [done|]. done.
  - rewrite parse_frame by done. rewrite (proj2 Hadd). cbn [t_seq]. rewrite Hseq, eventsAfter_all by done.
    eexists. split; [done|]. split; [done|]. split; [done|]. split; [by apply accept_highest|].
    exists (ls0 ++ ls'), s'. rewrite unlines_app, <- app_assoc. split; [done|]. split; [done|]. split; [done|].
    cbn. rewrite !length_app. lia.
Qed.

Definition follows (t : InstanceLogTail) (dir : InstanceDir) (evs : list Event) : Prop :=
  t_gen t = dir_gen dir /\ at_end t (current_file dir) evs.

Lemma log_at_end t file evs tail : log_holds file evs tail ->
  t_seq t = highestEventSeq evs -> t_offset t = (length file - length tail)%nat -> at_end t file evs.
Proof.
  intros (ls & -> & Ht & Hl & _) Hs Ho. split; [done|]. exists ls, tail. repeat split; try done; try apply Hl.
  rewrite Ho, length_app. lia.
Qed.

(** Opening the reader on a log whose end fits its budget. *)
Lemma OpenInstanceLogTail_follows chunk budget dir evs t :
  (0 < chunk)%N -> dir_holds dir evs -> OpenInstanceLogTail_with chunk budget dir = Some t -> follows t dir evs.
Proof.
  intros Hc (tail & Hlog & Hinc). unfold OpenInstanceLogTail_with.
  destruct (tailSequence_agrees chunk budget _ _ _ Hc Hlog Hinc) as [-> | ->]; [|done].
  intros [= <-]. split; [done|]. by eapply log_at_end.
Qed.

(** A poll after the generation has moved: the frozen file first, then what the
    new one holds beyond it. *)
Lemma poll_moved t dir1 dir3 f0 evs0 evs1 kept added2 :
  at_end t f0 evs0 -> file_extends f0 (current_file dir1) -> dir_holds dir1 evs1 ->
  t_gen t = dir_gen dir1 -> dir_gen dir3 <> dir_gen dir1 ->
  dir_files dir3 !! dir_gen dir1 = dir_files dir1 !! dir_gen dir1 ->
  dir_holds dir3 (kept ++ added2) -> highestEventSeq kept = highestEventSeq evs1 ->
  exists added1 t', evs1 = evs0 ++ added1 /\ TailEvents t dir3 = (Ok (added1 ++ added2), t') /\
    follows t' dir3 (kept ++ added2).
Proof.
  intros Hend Hf (tail1 & Hlog1 & Hinc1) Hg Hne Hfrozen (tail3 & Hlog3 & Hinc3) Hhigh.
  assert (Hcf : default [] (dir_files dir3 !! t_gen t) = current_file dir1) by (unfold current_file; by rewrite Hg, Hfrozen).
  destruct (readCurrent_spec t dir3 f0 evs0 evs1 tail1 Hend) as (a1 & t1 & Ha1 & Hr1 & Hg1 & Hend1);
    [by rewrite Hcf|by rewrite Hcf|done|]. rewrite Hcf in Hend1.
  assert (Hcf1 : default [] (dir_files dir3 !! t_gen t1) = current_file dir1) by (by rewrite Hg1).
  destruct (readCurrent_spec t1 dir3 (current_file dir1) evs1 evs1 tail1 Hend1) as (a2 & t2 & Ha2 & Hr2 & Hg2 & Hend2);
    [by rewrite Hcf1|by rewrite Hcf1|done|].
  rewrite <- (app_nil_r evs1) in Ha2 at 1. apply app_inv_head in Ha2 as <-.
  exists a1. unfold TailEvents. rewrite Hr1, Hg1, Hg, (proj2 (N.eqb_neq _ _)) by congruence. rewrite Hr2.
  assert (Hseq2 : t_seq t2 = highestEventSeq kept) by (rewrite (proj1 Hend2); congruence).
  unfold readEventsAfterSeq. rewrite (read_after_agrees _ _ (kept ++ added2) tail3) by done.
  fold (eventsAfter (kept ++ added2) (t_seq t2)). rewrite eventsAfter_app, Hseq2, (eventsAfter_all kept added2) by done.
  rewrite (eventsAfter_none kept) by (intros e He; by apply highest_ge). cbn [app].
  set (t3 := accept _ _). assert (Hend3 : at_end t3 (current_file dir3) (kept ++ added2)).
  { eapply log_at_end; [exact Hlog3| |done]. by apply accept_highest. }
  assert (Hcf3 : default [] (dir_files dir3 !! t_gen t3) = current_file dir3) by done.
  destruct (readCurrent_spec t3 dir3 (current_file dir3) (kept ++ added2) (kept ++ added2) tail3 Hend3) as (a4 & t4 & Ha4 & Hr4 & Hg4 & Hend4);
    [by rewrite Hcf3|by rewrite Hcf3|done|].
  rewrite <- (app_nil_r (kept ++ added2)) in Ha4 at 1. apply app_inv_head in Ha4 as <-.
  exists t4. rewrite Hr4, app_nil_r. split; [done|]. split; [done|]. split; [done|]. by rewrite <- Hcf3.
Qed.

(** What a tick-skip pass leaves: the same generation, or the next one holding
    the retained records, the old file frozen. *)
Lemma CompactTickSkips_moves fate maxBytes keepAfter l dir evs res l' dir' :
  dir_holds dir evs -> CompactTickSkips fate maxBytes keepAfter l dir = (res, l', dir') ->
  (dir_gen dir' = dir_gen dir /\ current_file dir' = current_file dir) \/
  (dir_gen dir' <> dir_gen dir /\ dir_holds dir' (retained keepAfter evs) /\
   dir_files dir' !! dir_gen dir = dir_files dir !! dir_gen dir).
Proof.
  intros (tail & Hlog & Hinc). unfold CompactTickSkips. destruct (il_closed l); [intros [= <- <- <-]; by left|].
  destruct (dir_files dir !! dir_gen dir) as [data|] eqn:Hf; [|intros [= <- <- <-]; by left].
  assert (Hcf : current_file dir = data) by (unfold current_file; by rewrite Hf). rewrite Hcf in Hlog.
  destruct (negb _); [intros [= <- <- <-]; by left|].
  pose proof (dropTickSkips_spec data evs tail keepAfter Hlog Hinc) as Hs.
  destruct (dropTickSkipsBefore data keepAfter) as [[dropped out]|]; [|intros [= <- <- <-]; by left].
  destruct (dropped =? 0)%nat; [intros [= <- <- <-]; by left|].
  assert (Hnew : forall files, files !! dir_gen dir = dir_files dir !! dir_gen dir ->
     dir_holds (mkDir (dir_gen dir + 1) (<[(dir_gen dir + 1)%N := out]> files)) (retained keepAfter evs)).
  { intros files _. exists tail. unfold current_file. cbn. rewrite lookup_insert_eq. split; [apply Hs|by apply retained_increasing]. }
  assert (Hold : forall d : list N, (<[(dir_gen dir + 1)%N := d]> (dir_files dir)) !! dir_gen dir = dir_files dir !! dir_gen dir)
    by (intros d; rewrite lookup_insert_ne; [done|lia]).
  unfold installCompactedGeneration. destruct fate; intros [= <- <- <-]; cbn [dir_gen dir_files current_file].
  - right. split; [lia|]. split; [by apply Hnew|]. by rewrite Hold.
  - left. split; [done|]. unfold current_file. cbn. by rewrite Hold.
  - left. split; [done|]. unfold current_file. cbn. by rewrite Hold.
  - right. split; [lia|]. split; [by apply Hnew|]. by rewrite Hold.
Qed.

(** C24: A follower of the instance journal sees every record exactly once, in
    order.  It stands behind the records [evs]; then any processes append and
    repair, one of them runs a tick-skip pass, whatever becomes of its
    installation, and any processes append and repair again.  Its next poll
    returns exactly the records appended before the pass and those appended
    after it, though the pass has dropped some of the former from the new
    generation; and it stands behind the end of the generation then current.  Every
    line that is written survives the scrubber. *)
Theorem follower_sees_each_once t dir dir1 dir2 dir3 evs fate maxBytes keepAfter l res l' :
  dir_holds dir evs -> follows t dir evs ->
  rtc instance_step dir dir1 -> CompactTickSkips fate maxBytes keepAfter l dir1 = (res, l', dir2) ->
  rtc instance_step dir2 dir3 ->
  exists before kept after t',
    dir_holds dir1 (evs ++ before) /\ dir_holds dir2 kept /\ dir_holds dir3 (kept ++ after) /\
    TailEvents t dir3 = (Ok (before ++ after), t') /\ follows t' dir3 (kept ++ after).
Proof.
  intros Hd Hfol Hs1 Hc Hs2. destruct (instance_steps_extend _ _ _ Hd Hs1) as [(Hg1 & Hf1 & _) [before Hd1]].
  destruct (CompactTickSkips_moves _ _ _ _ _ _ _ _ _ Hd1 Hc) as [[Hg2 Hf2]|(Hg2 & Hd2 & Hfrozen)].
  - assert (Hd2 : dir_holds dir2 (evs ++ before)) by (unfold dir_holds; by rewrite Hf2).
    destruct (instance_steps_extend _ _ _ Hd2 Hs2) as [(Hg3 & Hf3 & _) [after Hd3]].
    assert (Hd3' := Hd3). destruct Hd3' as (tail3 & Hlog3 & Hinc3). destruct Hfol as [Hg Hend].
    assert (Hcf : default [] (dir_files dir3 !! t_gen t) = current_file dir3) by (unfold current_file; by rewrite Hg3, Hg2, Hg1, Hg).
    rewrite <- app_assoc in Hlog3, Hinc3.
    destruct (readCurrent_spec t dir3 _ evs (evs ++ before ++ after) tail3 Hend) as (a & t' & Ha & Hr & Hgt & Hend');
      [rewrite Hcf; etransitivity; [exact Hf1|]; by rewrite <- Hf2|by rewrite Hcf|done|]. apply app_inv_head in Ha as <-.
    exists before, (evs ++ before), after, t'. split; [done|]. split; [done|]. split; [done|].
    unfold TailEvents. rewrite Hr, (proj2 (N.eqb_eq _ _)) by congruence. split; [done|].
    rewrite <- app_assoc. split; [congruence|]. by rewrite <- Hcf.
  - destruct (instance_steps_extend _ _ _ Hd2 Hs2) as [(Hg3 & _ & Hoth3) [after Hd3]]. destruct Hfol as [Hg Hend].
    assert (Hinc1 : seq_increasing (evs ++ before)) by (by destruct Hd1 as (? & ? & ?)).
    destruct (poll_moved t dir1 dir3 _ evs (evs ++ before) (retained keepAfter (evs ++ before)) after Hend Hf1 Hd1)
      as (a & t' & Ha & Hp & Hfol'); [congruence|congruence|rewrite Hoth3; [done|congruence]|done|by apply retained_highest|].
    apply app_inv_head in Ha as <-. exists before, (retained keepAfter (evs ++ before)), after, t'. done.
Qed.
End follow.
