(* ===== verification/ReleaseReason.v ===== *)
(** * Why a run's claims end

    [internal/localscheduler/releasereason.go]: the release reason the scheduler
    derives from the journal of a finished run, over the journal's phase
    reconstruction and the normalization of reasons. *)

From S2P Require Export JournalPhaseProps ClaimRelease.
Local Open Scope string_scope.
Local Open Scope list_scope.

Definition ReleaseCodeRunJournalUnavailable : string := "run_journal_unavailable".
Definition ReleaseCodeRunNotTerminal : string := "run_not_terminal".

Fixpoint finished_scan (newest : list Event) : option Event :=
  match newest with
  | [] => None
  | e :: older =>
      match ev_Type e with
      | EventRunFinished => if KnownSchema e then Some e else finished_scan older
      | _ => finished_scan older
      end
  end.
(** The zero event when there is none. *)
Definition lastRunFinished (events : list Event) : Event * bool :=
  match finished_scan (rev events) with
  | Some e => (e, true)
  | None => (zero_event (EventOther ""), false)
  end.

Definition terminalDisposition (phase : RunPhase) (work : string) (cause : option TerminalCause) : Disposition :=
  match phase with
  | PhaseCompleted => if work =? RunDispositionNoWork then NoWork else Completed
  | PhaseFailed => Failed
  | PhaseEscalated => Escalated
  | PhaseAborted =>
      match cause with
      | Some c => if tc_Classification c =? TerminalDefinedAbort then Abandoned else Cancelled
      | None => Cancelled
      end
  | PhaseRunning | PhaseUnknown _ => Unknown
  end.

Section reasons.
Context {Sanitize0 : Sanitizer}.

Definition ReleaseReasonFromRunEvents (events : list Event) : Reason :=
  let phase := reconstructPhase events in
  if bool_decide (phase = PhaseRunning) then Normalize (Because Unknown ReleaseCodeRunNotTerminal "")
  else
    let '(finished, _) := lastRunFinished events in
    let cause := TerminalCauseFromEvents events in
    let disposition := terminalDisposition phase (ev_Disposition finished) cause in
    Normalize
      (match cause with
       | Some c =>
           mkReason disposition
             (if (tc_SelectorKind c =? "stage") || (tc_SelectorKind c =? "gate") then tc_Selector c else "")
             (tc_Code c) (tc_Message c) ""
       | None => mkReason disposition "" "" "" ""
       end).

(** [TerminalReleaseReason], given the log of the run ([None] when its directory
    cannot be found or opened). *)
Definition TerminalReleaseReason `{EventCodec} (findRunDir : option (string -> option (list N))) (runID : string)
    : Reason :=
  let events :=
    match findRunDir with
    | None => None
    | Some find =>
        match find runID with
        | None => None
        | Some file => match readEvents file with Ok (events, _) => Some events | Error _ => None end
        end
    end in
  match events with
  | None => Normalize (Because Unknown ReleaseCodeRunJournalUnavailable "")
  | Some events => ReleaseReasonFromRunEvents events
  end.
End reasons.

(** ** What decides *)

(** Events that neither end nor reopen a run. *)
Definition neutral (e : Event) : bool :=
  match ev_Type e with
  | EventStageRerunRequested | EventRunResumed | EventGateOverridden | EventRunFinished => false
  | EventGateEvaluated => negb (gate_ends_run e)
  | _ => true
  end.
Definition reopens (e : Event) : bool :=
  match ev_Type e with
  | EventStageRerunRequested | EventRunResumed | EventGateOverridden => true
  | _ => false
  end.

Lemma reconstruct_neutral newest older : Forall (fun e => neutral e = true) newest ->
  reconstruct_scan (newest ++ older) = reconstruct_scan older.
Proof.
  induction 1 as [|e l He _ IH]; [done|]. cbn [app reconstruct_scan]. unfold neutral, gate_ends_run in He.
  destruct (ev_Type e); try done. rewrite negb_involutive in He. apply bool_decide_eq_true in He. by rewrite He.
Qed.

Lemma cause_neutral newest older : Forall (fun e => neutral e = true) newest ->
  cause_scan (newest ++ older) = cause_scan older.
Proof.
  induction 1 as [|e l He _ IH]; [done|]. cbn [app cause_scan]. destruct (KnownSchema e); [|done].
  unfold neutral in He. destruct (ev_Type e); done.
Qed.

Lemma finished_neutral newest older : Forall (fun e => neutral e = true) newest ->
  finished_scan (newest ++ older) = finished_scan older.
Proof.
  induction 1 as [|e l He _ IH]; [done|]. cbn [app finished_scan]. unfold neutral in He. by destruct (ev_Type e).
Qed.

Lemma rev_split (pre post : list Event) e : rev (pre ++ e :: post) = rev post ++ e :: rev pre.
Proof. rewrite rev_app_distr. cbn. by rewrite <- app_assoc. Qed.

Section exact.
Context {Sanitize0 : Sanitizer}.

(** The cause a [run.finished] record carries in this schema. *)
Definition recorded_cause (f : Event) : option TerminalCause :=
  match ev_TerminalCause f with
  | Some c => if tc_Schema c =? TerminalCauseSchema then Some c else None
  | None => None
  end.

(** What a final [run.finished] record says. *)
Definition reason_of (f : Event) : Reason :=
  let d := terminalDisposition (phaseFromStatus (ev_Status f)) (ev_Disposition f) (recorded_cause f) in
  match recorded_cause f with
  | Some c => mkReason d (if (tc_SelectorKind c =? "stage") || (tc_SelectorKind c =? "gate") then tc_Selector c else "")
                (tc_Code c) (tc_Message c) ""
  | None => mkReason d "" "" "" ""
  end.

Lemma finished_decides pre f post :
  ev_Type f = EventRunFinished -> KnownSchema f = true -> Forall (fun e => neutral e = true) post ->
  ReleaseReasonFromRunEvents (pre ++ f :: post) = Normalize (reason_of f).
Proof.
  intros Hf Hk Hp%Forall_rev. unfold ReleaseReasonFromRunEvents, reconstructPhase, lastRunFinished, TerminalCauseFromEvents.
  rewrite !rev_split, reconstruct_neutral, cause_neutral, finished_neutral by done.
  cbn [reconstruct_scan cause_scan finished_scan]. rewrite Hf, Hk. cbn [negb].
  assert (Hn : phaseFromStatus (ev_Status f) <> PhaseRunning).
  { unfold phaseFromStatus. destruct (run_phase (ev_Status f)); done. }
  rewrite bool_decide_eq_false_2 by done. unfold reason_of, recorded_cause.
  by destruct (ev_TerminalCause f) as [c|]; [destruct (tc_Schema c =? TerminalCauseSchema)|].
Qed.

Lemma reopened_decides pre r post :
  reopens r = true -> Forall (fun e => neutral e = true) post ->
  ReleaseReasonFromRunEvents (pre ++ r :: post) = Normalize (Because Unknown ReleaseCodeRunNotTerminal "").
Proof.
  intros Hr Hp%Forall_rev. unfold ReleaseReasonFromRunEvents, reconstructPhase.
  rewrite !rev_split, reconstruct_neutral by done. cbn [reconstruct_scan].
  unfold reopens in Hr. by destruct (ev_Type r).
Qed.

(** The reason a run's claims end is the one its last lifecycle record gives,
    whatever came before and whatever telemetry follows.  A [run.finished]
    record yields its phase's disposition, with [no-work] and a defined abort
    told apart, and the stage, code and summary of its recorded cause; a record
    that reopens the run hides every earlier outcome; a journal that cannot be
    found or read is reported as unknown, never guessed; and the disposition is
    always a known one, with tokens safe for the marker line. *)
Theorem release_reason_is_exact `{EventCodec} findRunDir runID :
  let reason := TerminalReleaseReason findRunDir runID in
  (forall find file pre d post torn, findRunDir = Some find -> find runID = Some file ->
     readEvents file = Ok (pre ++ d :: post, torn) -> Forall (fun e => neutral e = true) post ->
     (ev_Type d = EventRunFinished -> reason = Normalize (reason_of d)) /\
     (reopens d = true -> reason = Normalize (Because Unknown ReleaseCodeRunNotTerminal ""))) /\
  (match findRunDir ≫= (fun find => find runID) with Some file => exists e, readEvents file = Error e | None => True end ->
     reason = Normalize (Because Unknown ReleaseCodeRunJournalUnavailable "")) /\
  Known (reason_disposition reason) = true /\ Normalize reason = mkReason (reason_disposition reason)
    (reason_stage reason) (reason_code reason) (Sanitize (reason_summary reason)) (reason_actor reason).
Proof.
  cbv zeta. split; [|split].
  - intros find file pre d post torn -> Hfind Hread Hp. unfold TerminalReleaseReason. rewrite Hfind, Hread. split; intros Hd.
    + apply finished_decides; [done| |done]. apply readEvents_log_holds in Hread as (t & (ls & _ & _ & _ & Hk) & _).
      apply Forall_app in Hk as [_ Hk]. by apply Forall_cons in Hk as [? _].
    + by apply reopened_decides.
  - intros Hf. unfold TerminalReleaseReason. destruct findRunDir as [find|]; [|done]. cbn in Hf.
    destruct (find runID) as [file|]; [|done]. by destruct Hf as [e ->].
  - assert (Hn : exists r, TerminalReleaseReason findRunDir runID = Normalize r).
    { unfold TerminalReleaseReason, ReleaseReasonFromRunEvents.
      repeat (case_match; try (eexists; reflexivity)). }
    destruct Hn as [r ->]. split; [by destruct r as [[]]|]. unfold Normalize at 1. cbn.
    rewrite !token_idempotent. by destruct r as [[]].
Qed.
End exact.
