(* ===== verification/JournalExample.v ===== *)
(** * A concrete codec

    An instance of [EventCodec] that satisfies [JSONLaws] and all of whose lines
    survive, so that every property of the journal can be applied: an event is the
    list of the encodings of its fields, written in binary between braces.  A
    second one scrubs with a registry whose secret occurs in a record. *)

From S2P Require Export JournalRetention JournalFollow JournalPhaseProps ReleaseReason.
Local Open Scope string_scope.
Local Open Scope list_scope.

(** ** Fields as positives *)

Definition enc {A} `{Countable A} (a : A) : positive := encode a.
Definition dec {A} `{Countable A} (p : positive) : option A := decode p.
Lemma dec_enc {A} `{Countable A} (a : A) : dec (enc a) = Some a.
Proof. apply decode_encode. Qed.

Definition known_types : list EventType :=
  [EventRunStarted; EventRunResumed; EventRunFinished; EventStageStarted; EventStageHeartbeat;
   EventStageFinished; EventStageRerunRequested; EventGateStarted; EventGatePaused; EventGateEvaluated;
   EventGateOverridden; EventArtifactRecorded; EventSpanRecorded; EventError; EventRepaired;
   EventRunnerAnnotation; EventNotificationRequested; EventNotificationReceipt;
   EventOperatorMessageRequested; EventOperatorMessageAcknowledged; EventOperatorMessageOutcome;
   EventAgentLifecycle; EventAgentMessage; EventAgentProgress; EventParallelStarted; EventBranchStarted;
   EventBranchFinished; EventParallelFinished; EventMapStarted; EventMapFinished; EventInitCompleted;
   EventTriggerFired; EventTickSkipped; EventClusterCheckCompleted; EventWorkerConfigDivergence;
   EventConfigReloaded; EventReviewerStarted; EventReviewerFinished].

#[local] Instance EventType_countable : Countable EventType.
Proof.
  refine (inj_countable
    (fun t => match t with EventOther n => inl n | _ => inr (from_option fst 0%nat (list_find (fun u => u = t) known_types)) end)
    (fun c => match c with inl n => Some (EventOther n) | inr i => known_types !! i end) _).
  by intros [].
Defined.

#[local] Instance RunPhase_countable : Countable RunPhase.
Proof.
  refine (inj_countable'
    (fun p => match p with PhaseRunning => inr 0%nat | PhaseCompleted => inr 1%nat | PhaseFailed => inr 2%nat
                      | PhaseAborted => inr 3%nat | PhaseEscalated => inr 4%nat | PhaseUnknown s => inl s end)
    (fun c => match c with inr 0%nat => PhaseRunning | inr 1%nat => PhaseCompleted | inr 2%nat => PhaseFailed
                      | inr 3%nat => PhaseAborted | inr _ => PhaseEscalated | inl s => PhaseUnknown s end) _).
  by intros [].
Defined.

#[local] Instance ErrorDetail_countable : Countable ErrorDetail.
Proof.
  refine (inj_countable' (fun e => (ed_Code e, ed_Message e)) (fun p => mkErrorDetail p.1 p.2) _). by intros [].
Defined.
#[local] Instance TerminalBudget_countable : Countable TerminalBudget.
Proof.
  refine (inj_countable' (fun e => (tb_Consumed e, tb_Allowed e)) (fun p => mkTerminalBudget p.1 p.2) _). by intros [].
Defined.

(** Decoding a list of fields, one at a time. *)
Local Notation "'field' x <- p ; k" := (match dec p with Some x => k | None => None end)
  (at level 60, x name, p at level 0, k at level 200).

#[local] Instance TerminalCause_countable : Countable TerminalCause.
Proof.
  refine (inj_countable
    (fun c => [enc (tc_Schema c); enc (tc_Phase c); enc (tc_Classification c); enc (tc_SelectorKind c);
               enc (tc_Selector c); enc (tc_Branch c); enc (tc_Verdict c); enc (tc_Target c); enc (tc_Retry c);
               enc (tc_Poll c); enc (tc_Repass c); enc (tc_Code c); enc (tc_Message c); enc (tc_CausalEventSeq c)])
    (fun l => match l with
       | [p1; p2; p3; p4; p5; p6; p7; p8; p9; p10; p11; p12; p13; p14] =>
           field a1 <- p1; field a2 <- p2; field a3 <- p3; field a4 <- p4; field a5 <- p5; field a6 <- p6;
           field a7 <- p7; field a8 <- p8; field a9 <- p9; field a10 <- p10; field a11 <- p11;
           field a12 <- p12; field a13 <- p13; field a14 <- p14;
           Some (mkTerminalCause a1 a2 a3 a4 a5 a6 a7 a8 a9 a10 a11 a12 a13 a14)
       | _ => None
       end) _).
  intros []. cbn. by rewrite !dec_enc.
Defined.

Definition event_fields (e : Event) : list positive :=
  [enc (ev_Schema e); enc (ev_Seq e); enc (ev_Type e); enc (ev_Branch e); enc (ev_Time e); enc (ev_Stage e);
   enc (ev_AttemptClass e); enc (ev_Gate e); enc (ev_Verdict e); enc (ev_Target e); enc (ev_Status e);
   enc (ev_Disposition e); enc (ev_TerminalCause e); enc (ev_Rationale e); enc (ev_Error e); enc (ev_Runner e);
   enc (ev_PayloadSet e); enc (ev_Parallel e); enc (ev_BranchName e); enc (ev_MapItemIdentity e);
   enc (ev_MapItemDigest e); enc (ev_BranchStatus e); enc (ev_Workflow e); enc (ev_Gaggle e); enc (ev_RunID e);
   enc (ev_Reason e); enc (ev_Actor e); enc (ev_Escalated e); enc (ev_Attempt e)].

Definition fields_event (l : list positive) : option Event :=
  match l with
  | [p1; p2; p3; p4; p5; p6; p7; p8; p9; p10; p11; p12; p13; p14; p15; p16; p17; p18; p19; p20; p21; p22; p23; p24; p25; p26; p27; p28; p29] =>
      field a1 <- p1; field a2 <- p2; field a3 <- p3; field a4 <- p4; field a5 <- p5; field a6 <- p6;
      field a7 <- p7; field a8 <- p8; field a9 <- p9; field a10 <- p10; field a11 <- p11; field a12 <- p12;
      field a13 <- p13; field a14 <- p14; field a15 <- p15; field a16 <- p16; field a17 <- p17; field a18 <- p18;
      field a19 <- p19; field a20 <- p20; field a21 <- p21; field a22 <- p22; field a23 <- p23; field a24 <- p24;
      field a25 <- p25; field a26 <- p26; field a27 <- p27; field a28 <- p28; field a29 <- p29;
      Some (mkEvent a1 a2 a3 a4 a5 a6 a7 a8 a9 a10 a11 a12 a13 a14 a15 a16 a17 a18 a19 a20 a21 a22 a23 a24 a25 a26 a27 a28 a29)
  | _ => None
  end.

Lemma fields_event_fields e : fields_event (event_fields e) = Some e.
Proof. destruct e. cbn. by rewrite !dec_enc. Qed.

(** ** Lines *)

Fixpoint bits (p : positive) : list N :=
  match p with xH => [] | xO q => 48%N :: bits q | xI q => 49%N :: bits q end.
Fixpoint unbits (l : list N) : positive :=
  match l with [] => xH | b :: l' => if (b =? 48)%N then xO (unbits l') else xI (unbits l') end.

Lemma unbits_bits p : unbits (bits p) = p.
Proof. induction p; cbn; congruence. Qed.
Lemma bits_no_newline p : no_newline (bits p).
Proof. unfold no_newline, newline. induction p; cbn; set_solver. Qed.

Definition encode_line (e : Event) : list N := 123%N :: bits (encode (event_fields e)) ++ [125%N].
Definition decode_line (l : list N) : option Event :=
  match l with
  | b :: r => if (b =? 123)%N then
                match decode (unbits (removelast r)) with Some fs => fields_event fs | None => None end
              else None
  | [] => None
  end.

#[export] Instance binary_codec : EventCodec := {
  json_Marshal := encode_line;
  json_Unmarshal := decode_line;
  Scrub _ l := l;
  ValidateAgentEvent _ := true;
  validateAgentProgressRate _ _ _ := true
}.

Lemma decode_encode_line e : decode_line (encode_line e) = Some e.
Proof.
  unfold decode_line, encode_line. cbn [N.eqb Pos.eqb]. rewrite removelast_last, unbits_bits, decode_encode.
  apply fields_event_fields.
Qed.

#[export] Instance binary_laws : JSONLaws binary_codec.
Proof. by split. Defined.

Lemma encode_line_no_newline e : no_newline (encode_line e).
Proof.
  unfold encode_line, no_newline. rewrite elem_of_cons, elem_of_app.
  intros [H|[H|H]]; [done|by apply bits_no_newline in H|]. apply list_elem_of_singleton in H. done.
Qed.

(** The trimming of a reader leaves a line alone. *)
Lemma trim_left_id sp2 sp3 b m :
  ascii_space b = false -> (forall x, sp2 b x = false) -> (forall x y, sp3 b x y = false) ->
  trim_left sp2 sp3 (b :: m) = b :: m.
Proof.
  intros Hb H2 H3. cbn [trim_left]. rewrite Hb.
  destruct m as [|x m]; [done|]. rewrite H2. destruct m; [done|]. by rewrite H3.
Qed.
Lemma clean_encoded e : clean_line (encode_line e) = encode_line e.
Proof.
  unfold encode_line. generalize (bits (encode (event_fields e))) as body. intros body.
  assert (Ht : TrimSpaceBytes (123%N :: body ++ [125%N]) = 123%N :: body ++ [125%N]).
  { unfold TrimSpaceBytes. rewrite trim_left_id by done. rewrite app_comm_cons, rev_app_distr. cbn [rev app].
    rewrite trim_left_id.
    - cbn [rev]. by rewrite rev_app_distr, rev_involutive.
    - done.
    - intros x. cbv beta. unfold space2. rewrite andb_comm. done.
    - intros x y. cbv beta. unfold space3, between.
      replace (125 =? 128)%N with false by done. cbn. rewrite !andb_false_r. done. }
  unfold clean_line. rewrite Ht. cbn [TrimLeftNul]. cbn [N.eqb nul]. by rewrite Nat.eqb_refl.
Qed.

(** Without a scrubber every line survives, and reads back as its event. *)
Lemma parse_encode_line e : parse_line (encode_line e) = Ok (Some e).
Proof.
  unfold parse_line. rewrite clean_encoded. cbn [encode_line length Nat.eqb].
  change (json_Unmarshal (encode_line e)) with (decode_line (encode_line e)). by rewrite decode_encode_line.
Qed.
Lemma binary_redacted e : redacted e = e.
Proof. unfold redacted. change (encoded e) with (encode_line e). by rewrite parse_encode_line. Qed.
Lemma binary_survives e : survives e = true.
Proof.
  unfold survives. change (encoded e) with (encode_line e). rewrite parse_encode_line.
  rewrite N.eqb_refl, String.eqb_refl, bool_decide_eq_true_2, Z.eqb_refl by done. rewrite !andb_true_r.
  apply forallb_forall. intros b Hb%list_elem_of_In. destruct (N.eqb_spec b newline) as [->|]; [|done].
  by apply encode_line_no_newline in Hb.
Qed.

Lemma binary_marker env branch d : marker_survives env branch d = true.
Proof. unfold marker_survives. destruct (readEvents _) as [[evs torn]|]; [|done]. by rewrite binary_survives, orb_true_r. Qed.
Lemma binary_append env ev l dir : append_survives env ev l dir = true.
Proof.
  unfold append_survives, repair_survives. destruct (sequenceFromTailOrFull _) as [[highest torn]|]; [|done].
  by rewrite !binary_survives, orb_true_r.
Qed.

(** ** Logs of given events *)

Definition event_ok (e : Event) : bool :=
  KnownSchema e && (N.of_nat (length (encode_line e)) + 1 <=? maxEventBytes)%N.

Definition log_file (evs : list Event) (junk : list N) : list N := unlines (map encode_line evs) ++ junk.

Lemma log_file_holds evs junk :
  forallb event_ok evs = true -> no_newline junk -> log_holds (log_file evs junk) evs junk.
Proof.
  intros Hok Hj. exists (map encode_line evs). split; [done|]. split; [done|]. unfold log_file.
  induction evs as [|e evs IH]; [split; [by apply lines_hold_nil|done]|]. cbn in Hok.
  apply andb_true_iff in Hok as [[Hk Hlen]%andb_true_iff Hok]. destruct (IH Hok) as [Hl Hs].
  split; [|by constructor]. apply (lines_hold_app [encode_line e]). exists [e], evs. split; [done|].
  split; [|done]. apply N.leb_le in Hlen. rewrite <- (binary_redacted e) at 2. exact (lines_hold_encoded e (binary_survives e) Hlen).
Qed.

Lemma seq_increasing_ok evs :
  forallb (fun e => (0 <? ev_Seq e)%N) evs = true ->
  forallb (fun p => (ev_Seq (fst p) <? ev_Seq (snd p))%N) (zip evs (tail evs)) = true -> seq_increasing evs.
Proof.
  intros Hpos Hlt. split.
  2: { apply Forall_forall. intros e He%list_elem_of_In. rewrite forallb_forall in Hpos. by apply N.ltb_lt, Hpos. }
  apply Sorted.Sorted_StronglySorted; [intros x y z; apply N.lt_trans|].
  clear Hpos. induction evs as [|e evs IH]; [constructor|]. destruct evs as [|e' evs]; [repeat constructor|].
  cbn in Hlt. apply andb_true_iff in Hlt as [He Hlt]. constructor; [by apply IH|]. constructor. by apply N.ltb_lt.
Qed.

(** A run that started, evaluated a gate with a terminal target and then only
    recorded telemetry; and the file of a crash in the next append. *)
Definition gate_event (target : string) : Event :=
  mkEvent "" 0 EventGateEvaluated 0 0 "" "" "review" "fail" target "" "" None "" None ∅ false "" "" "" "" "" "" "" "" "" "" false 0.
Definition run_events : list Event :=
  [stamp 1 10 (run_started "review"); stamp 2 20 (gate_event TargetAbort); stamp 3 30 (zero_event EventSpanRecorded)].
Definition crash_tail : list N := [123%N; 48%N; nul].
Definition run_file : list N := log_file run_events crash_tail.
Definition good_env : call_env := mkEnv 40 WriteDone 41 CheckpointDone.

Lemma run_file_holds : log_holds run_file run_events crash_tail.
Proof. apply log_file_holds; [vm_compute; reflexivity|]. unfold no_newline, crash_tail, newline, nul. set_solver. Qed.
Lemma run_events_increasing : seq_increasing run_events.
Proof. by apply seq_increasing_ok. Qed.

(** The bounded scan of that file, decided in the window. *)
Lemma bounded_phase_agrees_witness :
  PhaseBounded_with 64 128 8192 run_file [run_file] = Phase run_file /\ Phase run_file = Ok PhaseAborted.
Proof.
  split; [|vm_compute; reflexivity].
  apply (bounded_phase_agrees 64 128 8192 run_file [run_file] run_events crash_tail).
  - done.
  - apply run_file_holds.
  - vm_compute. discriminate.
  - cbn. by rewrite app_nil_r.
  - vm_compute. discriminate.
Defined.

Definition paused : Event := zero_event EventGatePaused.
Lemma incremental_parking_agrees_witness :
  ParkedAtGate [paused; zero_event EventSpanRecorded] = true.
Proof.
  etransitivity.
  - apply (proj2 (incremental_parking_agrees [paused] [zero_event EventSpanRecorded])).
    constructor; [reflexivity|constructor].
  - reflexivity.
Defined.

Lemma recovery_loses_nothing_witness :
  exists r report d', Recover good_env false true (mkRunDisk run_file None) = (Ok (r, report), d') /\
    rep_Events report = run_events /\ r_phase r = PhaseAborted.
Proof.
  destruct (recovery_loses_nothing good_env (mkRunDisk run_file None) run_events crash_tail)
    as (r & report & d' & HR & He & _ & Hp & _).
  - apply run_file_holds.
  - apply run_events_increasing.
  - reflexivity.
  - reflexivity.
  - vm_compute. discriminate.
  - apply binary_marker.
  - exists r, report, d'. split; [exact HR|]. split; [exact He|]. rewrite Hp. reflexivity.
Defined.

(** A crash in the middle of an append, then recovery. *)
Definition live_run : Run := mkRun 3 PhaseRunning "review" 0 [] "" 30 false false.
Definition live_disk : RunDisk := mkRunDisk (log_file run_events []) None.
Lemma live_holds : journal_holds live_disk (Some live_run) run_events.
Proof.
  exists []. split; [apply log_file_holds; [vm_compute; reflexivity|unfold no_newline; set_solver]|].
  split; [apply run_events_increasing|]. intros _ _. split; reflexivity.
Qed.
Definition torn_env : call_env := mkEnv 40 (WriteFailed 7 2) 41 CheckpointLost.

Lemma triple_eta {A B C} (p : A * B * C) : p = (p.1.1, p.1.2, p.2).
Proof. by destruct p as [[]]. Defined.

Lemma journal_is_append_only_witness :
  exists added torn, readEvents (d_events (snd (Recover good_env false true
      (snd (Append torn_env (zero_event EventError) live_run live_disk))))) = Ok (run_events ++ added, torn) /\
    seq_increasing (run_events ++ added).
Proof.
  destruct (journal_is_append_only (live_disk, Some live_run)
    ((Recover good_env false true (snd (Append torn_env (zero_event EventError) live_run live_disk))).2,
     match (Recover good_env false true (snd (Append torn_env (zero_event EventError) live_run live_disk))).1 with
     | Ok (r, _) => Some r | Error _ => None end) run_events) as (added & torn & HR & Hi & _).
  - apply live_holds.
  - eapply rtc_l; [|eapply rtc_l; [|eapply rtc_l; [|apply rtc_refl]]].
    + eapply (step_append torn_env None); [exact (binary_survives _)|apply triple_eta].
    + apply step_crash.
    + eapply (step_recover good_env false true _ None); [exact I|apply binary_marker|apply surjective_pairing].
  - exists added, torn. split; [exact HR|exact Hi].
Defined.

Lemma append_commits_exactly_witness :
  readEvents (d_events (snd (Append good_env (zero_event EventError) live_run live_disk))) =
    Ok (run_events ++ [stamp 4 40 (zero_event EventError)], 0%nat).
Proof.
  refine (proj1 (append_commits_exactly good_env (zero_event EventError) live_run live_disk run_events (Ok ())
           (Append good_env (zero_event EventError) live_run live_disk).1.2
           (Append good_env (zero_event EventError) live_run live_disk).2 _ _ _ _ _)).
  - apply live_holds.
  - reflexivity.
  - reflexivity.
  - exact (binary_survives _).
  - vm_compute. reflexivity.
Defined.

(** The same codec over a registry that holds a secret of six bytes, which are
    also the first six of a record. *)
Definition error_line : list N := encode_line (stamp 1 40 (zero_event EventError)).
#[local] Instance raw_text : Scrub.SecretText :=
  {| Scrub.Digest := of_bytes; Scrub.marshal_text b := b; Scrub.encode_text b := b |}.
Definition colliding : Scrub.RegistryScrubber := Scrub.Register 5 (take 6 error_line) Scrub.NewRegistryScrubber.
Definition scrubbed_codec : EventCodec := {|
  json_Marshal := encode_line;
  json_Unmarshal := decode_line;
  Scrub now l := (Scrub.Scrub now colliding l).1;
  ValidateAgentEvent _ := true;
  validateAgentProgressRate _ _ _ := true
|}.

Lemma unreadable_record_blocks_the_log_witness :
  let d' := (@append scrubbed_codec good_env new_run (mkRunDisk [] None) (zero_event EventError)).2 in
  @readEvents scrubbed_codec (d_events d') = Error ErrCorrupt.
Proof.
  cbv zeta. rewrite <- (app_nil_r (d_events _)).
  refine (proj1 (@unreadable_record_blocks_the_log scrubbed_codec good_env (zero_event EventError) new_run
    (mkRunDisk [] None) [] (@append scrubbed_codec good_env new_run (mkRunDisk [] None) (zero_event EventError)).1.2
    _ [] _ _ _ _ _)).
  - exists []. split; [apply log_holds_nil|]. split; [apply seq_increasing_nil|done].
  - reflexivity.
  - apply (bool_decide_unpack _). vm_compute. exact I.
  - vm_compute. reflexivity.
  - vm_compute. reflexivity.
Defined.

(** A run that resumed, then ended with a recorded cause; its journal is the one
    the resolver finds. *)
Definition abort_cause : TerminalCause :=
  mkTerminalCause TerminalCauseSchema PhaseAborted TerminalDefinedAbort "gate" "review" 0 "" "" None None None
    "gate_abort" "stopped at review" 2.
Definition finished_event : Event :=
  mkEvent "" 0 EventRunFinished 0 0 "" "" "" "" "" "aborted" "" (Some abort_cause) "" None ∅ false "" "" "" "" "" "" "" "" "" "" false 0.
Definition finished_events : list Event := [stamp 1 10 (run_started "review"); stamp 2 20 (zero_event EventRunResumed)].
Definition finished_file : list N := log_file (finished_events ++ [stamp 3 30 finished_event; stamp 4 40 (zero_event EventSpanRecorded)]) [].
Definition same_text : Sanitizer := fun s => s.

Lemma release_reason_is_exact_witness :
  @TerminalReleaseReason same_text _ (Some (fun _ => Some finished_file)) "run-1" =
    mkReason Abandoned "review" "gate_abort" "stopped at review" "".
Proof.
  etransitivity.
  - refine (proj1 (proj1 (release_reason_is_exact (Some (fun _ => Some finished_file)) "run-1")
      (fun _ => Some finished_file) finished_file finished_events (stamp 3 30 finished_event)
      [stamp 4 40 (zero_event EventSpanRecorded)] 0%nat _ _ _ _) _).
    + reflexivity.
    + reflexivity.
    + vm_compute. reflexivity.
    + repeat constructor.
    + reflexivity.
  - vm_compute. reflexivity.
Defined.

(** ** The instance journal *)

Definition note (s : string) : Event := zero_event (EventOther s).
Definition instance_events : list Event :=
  [stamp 1 10 (zero_event EventTickSkipped); stamp 2 20 (note "tick"); stamp 3 30 (zero_event EventTickSkipped)].
Definition instance_dir : InstanceDir := mkDir 1 {[ 1%N := log_file instance_events crash_tail ]}.
Definition good_ienv : instance_env := mkIEnv 40 true WriteDone WriteDone.
Definition stale_handle : InstanceLog := mkLog 1 1 false None.

Lemma instance_dir_log : log_holds (log_file instance_events crash_tail) instance_events crash_tail.
Proof. apply log_file_holds; [vm_compute; reflexivity|]. unfold no_newline, crash_tail, newline, nul. set_solver. Qed.
Lemma instance_increasing : seq_increasing instance_events.
Proof. by apply seq_increasing_ok. Qed.
Lemma instance_dir_holds : dir_holds instance_dir instance_events.
Proof. exists crash_tail. split; [apply instance_dir_log|apply instance_increasing]. Qed.

Lemma append_step env ev l dir : instance_step dir (InstanceAppend env ev l dir).2.
Proof. eapply (istep_append env ev l); [apply binary_append|apply triple_eta]. Qed.
Lemma skips_step fate maxBytes keepAfter l dir : log_step dir (CompactTickSkips fate maxBytes keepAfter l dir).2.
Proof. eapply (lstep_skips fate maxBytes keepAfter l). apply triple_eta. Qed.

Definition appended_dir : InstanceDir := (InstanceAppend good_ienv (note "new") stale_handle instance_dir).2.
Lemma appended_step : instance_step instance_dir appended_dir.
Proof. unfold appended_dir. apply append_step. Qed.

(** A handle with a stale counter appends after the repair of a crash. *)
Lemma instance_sequences_increase_witness :
  exists added, dir_holds appended_dir (instance_events ++ added).
Proof.
  apply (proj1 (instance_sequences_increase instance_dir appended_dir instance_events instance_dir_holds
           (rtc_once _ _ appended_step))).
Defined.

Lemma read_after_is_filter_witness :
  readEventsAfterSeq_with 100 (log_file instance_events crash_tail) 2 =
    Ok ([stamp 3 30 (zero_event EventTickSkipped)],
        (length (log_file instance_events crash_tail) - length crash_tail)%nat).
Proof.
  apply (read_after_is_filter 100 (log_file instance_events crash_tail) instance_events crash_tail 2).
  - done.
  - apply instance_dir_log.
  - apply instance_increasing.
Defined.

(** Both skips are aged; the later one is kept for its sequence. *)
Lemma tick_skips_retained_witness :
  match dropTickSkipsBefore (log_file instance_events crash_tail) 35 with
  | Ok (dropped, out) =>
      readEvents out = Ok ([stamp 2 20 (note "tick"); stamp 3 30 (zero_event EventTickSkipped)], 3%nat) /\
      (dropped + 2 = 3)%nat /\ sequenceFromTailOrFull out = sequenceFromTailOrFull (log_file instance_events crash_tail)
  | Error _ => nul ∈ log_file instance_events crash_tail
  end.
Proof.
  apply (tick_skips_retained (log_file instance_events crash_tail) instance_events crash_tail 35).
  - apply instance_dir_log.
  - apply instance_increasing.
Defined.

Definition skipped_dir : InstanceDir := (CompactTickSkips InstallDone 100 35 stale_handle appended_dir).2.
Definition later_dir : InstanceDir := (InstanceAppend good_ienv (note "later") stale_handle skipped_dir).2.

Lemma sequences_never_reissued_witness :
  exists evs', dir_holds later_dir evs' /\ (3 <= highestEventSeq evs')%N /\
    forall e, e ∈ evs' -> e ∈ instance_events \/ (3 < ev_Seq e)%N.
Proof.
  apply (sequences_never_reissued instance_dir later_dir instance_events).
  - apply instance_dir_holds.
  - eapply rtc_l; [apply lstep_write, appended_step|]. eapply rtc_l; [|eapply rtc_l; [|apply rtc_refl]].
    + apply (skips_step InstallDone 100 35 stale_handle).
    + apply lstep_write. unfold later_dir. apply (append_step good_ienv (note "later") stale_handle).
Defined.

Lemma retention_is_exact_witness :
  match compactInstanceEventsData (log_file instance_events crash_tail) 25 0 with
  | Ok (dropped, out) => exists mask,
      (forall i e, instance_events !! i = Some e -> mask i = true <-> must_keep 25 0 instance_events i e) /\
      readEvents out = Ok (select mask instance_events, 3%nat) /\
      (dropped + length (select mask instance_events) = 3)%nat
  | Error _ => nul ∈ log_file instance_events crash_tail
  end.
Proof.
  apply (retention_is_exact (log_file instance_events crash_tail) instance_events crash_tail 25 0).
  - apply instance_dir_log.
  - apply instance_increasing.
Defined.

Lemma instance_time_ordered : time_ordered instance_events.
Proof.
  intros i j a b Hij Ha Hb. destruct i as [|[|[|i]]], j as [|[|[|j]]]; cbn in Ha, Hb; simplify_eq; cbn; lia.
Qed.

Lemma fence_is_sound_witness :
  match compactInstanceEventsData (log_file instance_events crash_tail) 10 0 with
  | Ok (dropped, _) => dropped = 0%nat
  | Error _ => nul ∈ log_file instance_events crash_tail
  end.
Proof.
  apply (fence_is_sound (log_file instance_events crash_tail) instance_events crash_tail 4096 10 0).
  - apply instance_dir_log.
  - apply instance_increasing.
  - apply instance_time_ordered.
  - vm_compute. reflexivity.
Defined.

Definition follower : InstanceLogTail :=
  mkTail 1 (length (log_file instance_events crash_tail) - length crash_tail) 3.

Lemma follower_sees_each_once_witness :
  exists before kept after t',
    dir_holds appended_dir (instance_events ++ before) /\ dir_holds skipped_dir kept /\
    dir_holds later_dir (kept ++ after) /\ TailEvents follower later_dir = (Ok (before ++ after), t') /\
    follows t' later_dir (kept ++ after).
Proof.
  apply (follower_sees_each_once follower instance_dir appended_dir skipped_dir later_dir instance_events
           InstallDone 100 35 stale_handle
           (CompactTickSkips InstallDone 100 35 stale_handle appended_dir).1.1
           (CompactTickSkips InstallDone 100 35 stale_handle appended_dir).1.2).
  - apply instance_dir_holds.
  - split; [reflexivity|]. eapply log_at_end; [apply instance_dir_log|reflexivity|reflexivity].
  - apply rtc_once, appended_step.
  - unfold skipped_dir. apply triple_eta.
  - apply rtc_once. unfold later_dir. apply append_step.
Defined.

(** ** Divergences *)

(** A window of 128 bytes sees only telemetry. *)
Lemma fallback_misses_terminal_gate_witness :
  Phase run_file = Ok PhaseAborted /\ PhaseAborted <> PhaseRunning /\
  PhaseBounded_with 64 64 128 run_file [run_file] = Ok PhaseRunning.
Proof.
  apply (fallback_misses_terminal_gate 64 64 128 run_file [run_file] [stamp 1 10 (run_started "review")]
           (stamp 2 20 (gate_event TargetAbort)) [stamp 3 30 (zero_event EventSpanRecorded)] crash_tail PhaseAborted).
  - apply run_file_holds.
  - vm_compute. discriminate.
  - cbn. by rewrite app_nil_r.
  - vm_compute. reflexivity.
  - repeat constructor. discriminate.
  - repeat constructor.
  - reflexivity.
  - reflexivity.
  - reflexivity.
Defined.

(** An instance whose only record is old, a handle on it and a reader behind it. *)
Definition idle_event : Event := stamp 1 10 (note "idle").
Definition idle_dir : InstanceDir := mkDir 1 {[ 1%N := log_file [idle_event] [] ]}.
Definition idle_handle : InstanceLog := mkLog 1 1 false None.
Definition idle_follower : InstanceLogTail := mkTail 1 (length (log_file [idle_event] [])) 1.
Definition compacted_dir : InstanceDir := (Compact InstallDone 100 100 idle_handle idle_dir).2.
Definition reopened : result journal_error InstanceLog * InstanceDir := OpenInstanceLog good_ienv compacted_dir.
Definition reused : result journal_error unit * InstanceLog * InstanceDir :=
  match reopened.1 with
  | Ok l => InstanceAppend good_ienv (note "fresh") l reopened.2
  | Error e => (Error e, idle_handle, reopened.2)
  end.

(** The retention pass does not keep the highest sequence, as the tick-skip
    pass takes care to: when the newest record has aged out, a handle opened
    after the pass issues its sequence again, to a different event, and a
    follower that has seen the old one never sees the new one. *)
Theorem retention_reissues_sequence :
  dir_holds idle_dir [idle_event] /\
  (Compact InstallDone 100 100 idle_handle idle_dir).1.1 = Ok 1%nat /\
  reused.1.1 = Ok () /\
  readEvents (current_file reused.2) = Ok ([stamp 1 40 (note "fresh")], 0%nat) /\
  ev_Seq (stamp 1 40 (note "fresh")) = ev_Seq idle_event /\
  (TailEvents idle_follower reused.2).1 = Ok [].
Proof.
  split.
  { exists []. split; [apply log_file_holds; [vm_compute; reflexivity|unfold no_newline; set_solver]|].
    by apply seq_increasing_ok. }
  repeat split; vm_compute; reflexivity.
Qed.
