(* ===== verification/BlockedCycle.v ===== *)
(** * Blocked-cycle detection

    [internal/blockedcycle/blockedcycle.go]: which blocked backlog items form a
    cycle, and the representative paths that describe it.  A [map] whose
    iteration order Go leaves open is a [gmap] or a [gset] here; every slice
    built from one is sorted, or only read as a set, except the reverse edges,
    which only [reachable] reads. *)

From S2P Require Export GoStrings.
Local Open Scope string_scope.
Local Open Scope list_scope.

(** ** Repositories and nodes *)

Record RepositoryRef := mkRepo {
  repo_Provider : string;
  repo_Owner : string;
  repo_Project : string;
  repo_Name : string;
  repo_ID : string;
  repo_URL : string
}.
#[export] Instance RepositoryRef_eq_dec : EqDecision RepositoryRef.
Proof. solve_decision. Defined.
#[export] Instance RepositoryRef_countable : Countable RepositoryRef.
Proof.
  refine (inj_countable
    (fun r => [repo_Provider r; repo_Owner r; repo_Project r; repo_Name r; repo_ID r; repo_URL r])
    (fun l => match l with [p; o; j; n; i; u] => Some (mkRepo p o j n i u) | _ => None end) _). by intros [].
Defined.

Record Node := mkNode { node_Repository : RepositoryRef; node_ItemID : string }.
#[export] Instance Node_eq_dec : EqDecision Node.
Proof. solve_decision. Defined.
#[export] Instance Node_countable : Countable Node.
Proof.
  refine (inj_countable (fun n => (node_Repository n, node_ItemID n)) (fun p => Some (mkNode p.1 p.2)) _). by intros [].
Defined.

Record BlockRecord := mkBlock {
  block_Repository : RepositoryRef;
  block_ItemID : string;
  block_Blockers : list string
}.

Record Result := mkResult { Affected : list Node; Paths : list (list string); MorePaths : bool }.
Definition no_cycle : Result := mkResult [] [] false.

Definition MaxPaths : nat := 3.

Definition RepositoryEmpty (r : RepositoryRef) : bool :=
  (repo_Provider r =? "") && (repo_Owner r =? "") && (repo_Project r =? "") && (repo_Name r =? "").

(** [url.PathEscape]: a path segment keeps the unreserved characters and
    [$ & + : = @]. *)
Definition segment_char (b : N) : bool :=
  unreserved b || existsb (N.eqb b) [36; 38; 43; 58; 61; 64]%N.
Definition escape_segment_byte (b : N) : list N :=
  if segment_char b then [b] else [37%N; hex_digit (b / 16); hex_digit (b mod 16)].
Definition PathEscape (s : string) : string := of_bytes (concat (map escape_segment_byte (bytes s))).

Definition RepositoryIdentity (r : RepositoryRef) : string :=
  if RepositoryEmpty r then ""
  else
    let parts := [repo_Provider r; repo_Owner r]
                 ++ (if repo_Project r =? "" then [] else [repo_Project r]) ++ [repo_Name r] in
    String.concat "/" (map PathEscape parts).

(** [sortNodes]: by repository identity, then by item. *)
Definition node_le (a b : Node) : bool :=
  let left := RepositoryIdentity (node_Repository a) in
  let right := RepositoryIdentity (node_Repository b) in
  if negb (left =? right) then String.ltb left right
  else negb (String.ltb (node_ItemID b) (node_ItemID a)).
Definition sortNodes (nodes : list Node) : list Node := sort_by node_le nodes.

(** ** Graphs *)

Notation Graph := (gmap Node (list Node)) (only parsing).
Definition successors (g : Graph) (n : Node) : list Node := default [] (g !! n).

(** The edges of one record: those not yet in the list are appended. *)
Definition add_edge (edges : list Node) (blocker : Node) : list Node :=
  if bool_decide (blocker ∈ edges) then edges else edges ++ [blocker].
Definition add_record (g : Graph) (rec : BlockRecord) : Graph :=
  if RepositoryEmpty (block_Repository rec) then g
  else
    let node := mkNode (block_Repository rec) (block_ItemID rec) in
    <[node := fold_left add_edge (map (mkNode (block_Repository rec)) (block_Blockers rec)) (successors g node)]> g.
Definition forward_graph (records : list BlockRecord) : Graph := fold_left add_record records ∅.

Definition add_reverse (r : Graph) (from : Node) (edges : list Node) : Graph :=
  fold_left (fun r to => <[to := successors r to ++ [from]]> r) edges
    (match r !! from with Some _ => r | None => <[from := []]> r end).
Definition reverse_graph (g : Graph) : Graph :=
  fold_left (fun r p => add_reverse r p.1 p.2) (map_to_list g) ∅.

Definition BuildGraph (records : list BlockRecord) : Graph * Graph :=
  let graph := forward_graph records in (graph, reverse_graph graph).

(** ** Searches *)

(** Every iteration of a search takes one node off the queue, and a node is
    queued at most once. *)
Definition search_fuel (g : Graph) : nat := S (S (length (concat (map snd (map_to_list g))))).

(** The inner loop of [reachable]: mark and queue the new successors. *)
Fixpoint visit (nexts : list Node) (reached : gset Node) (queue : list Node) : gset Node * list Node :=
  match nexts with
  | [] => (reached, queue)
  | next :: nexts' =>
      if bool_decide (next ∈ reached) then visit nexts' reached queue
      else visit nexts' ({[next]} ∪ reached) (queue ++ [next])
  end.

Fixpoint reach_loop (fuel : nat) (g : Graph) (reached : gset Node) (queue : list Node) : gset Node :=
  match fuel, queue with
  | S n, node :: queue' =>
      let '(reached, queue) := visit (successors g node) reached queue' in reach_loop n g reached queue
  | _, _ => reached
  end.
Definition reachable (g : Graph) (start : Node) : gset Node :=
  reach_loop (search_fuel g) g {[start]} [start].

(** The state of [shortestPath]. *)
Record Search := mkSearch { s_seen : gset Node; s_previous : gmap Node Node; s_queue : list Node }.

(** Its inner loop; [inl] is the early return. *)
Fixpoint path_visit (target : Node) (allowed : gset Node) (node : Node) (nexts : list Node) (s : Search)
    : gmap Node Node + Search :=
  match nexts with
  | [] => inr s
  | next :: nexts' =>
      if negb (bool_decide (next ∈ allowed)) || bool_decide (next ∈ s_seen s)
      then path_visit target allowed node nexts' s
      else
        let previous := <[next := node]> (s_previous s) in
        if bool_decide (next = target) then inl previous
        else path_visit target allowed node nexts' (mkSearch ({[next]} ∪ s_seen s) previous (s_queue s ++ [next]))
  end.

(** The path back from [current] to [start] along [previous]. *)
Fixpoint path_back (fuel : nat) (previous : gmap Node Node) (start current : Node) (path : list Node) : list Node :=
  match fuel with
  | O => path
  | S n =>
      if bool_decide (current = start) then path
      else match previous !! current with
           | None => path
           | Some p => path_back n previous start p (p :: path)
           end
  end.

Fixpoint path_loop (fuel : nat) (g : Graph) (start target : Node) (allowed : gset Node) (s : Search)
    : option (list Node) :=
  match fuel, s_queue s with
  | S n, node :: queue' =>
      match path_visit target allowed node (successors g node) (mkSearch (s_seen s) (s_previous s) queue') with
      | inl previous => Some (path_back (S (size previous)) previous start target [target])
      | inr s' => path_loop n g start target allowed s'
      end
  | _, _ => None
  end.

Definition shortestPath (g : Graph) (start target : Node) (allowed : gset Node) : option (list Node) :=
  if bool_decide (start = target) then Some [target]
  else path_loop (search_fuel g) g start target allowed (mkSearch {[start]} ∅ [start]).

(** ** Cycles *)

Definition path_edges (nodes : list Node) : list (Node * Node) := zip nodes (tail nodes).

(** The paths listed so far, the nodes and the edges they cover. *)
Record Cover := mkCover { cv_paths : list (list Node); cv_nodes : gset Node; cv_edges : gset (Node * Node) }.

Definition appendPath (nodes : list Node) (c : Cover) : Cover :=
  mkCover (cv_paths c ++ [nodes]) (list_to_set nodes ∪ cv_nodes c) (list_to_set (path_edges nodes) ∪ cv_edges c).

Definition cover_member (g : Graph) (item : Node) (component : gset Node) (c : Cover) (member : Node) : Cover :=
  if bool_decide (member ∈ cv_nodes c) || (length (cv_paths c) =? MaxPaths)%nat then c
  else match shortestPath g item member component with
       | None => c
       | Some outbound =>
           match shortestPath g member item component with
           | None => c
           | Some inbound => appendPath (outbound ++ tail inbound) c
           end
       end.

Definition component_of (g reverse : Graph) (item : Node) : gset Node :=
  reachable g item ∩ reachable reverse item.

Definition uncovered_edge (g : Graph) (component : gset Node) (c : Cover) : bool :=
  existsb (fun p => bool_decide (p.1 ∈ component)
                    && existsb (fun to => bool_decide (to ∈ component) && negb (bool_decide ((p.1, to) ∈ cv_edges c))) p.2)
    (map_to_list g).

Definition resultForNode (g reverse : Graph) (item : Node) : Result :=
  let component := component_of g reverse item in
  if (size component =? 1)%nat && negb (bool_decide (item ∈ successors g item)) then no_cycle
  else
    let others := sortNodes (elements (component ∖ {[item]})) in
    let start := mkCover [] {[item]} ∅ in
    let c := if (size component =? 1)%nat then appendPath [item; item] start
             else fold_left (cover_member g item component) others start in
    let morePaths := negb (bool_decide (component ⊆ cv_nodes c)) || uncovered_edge g component c in
    mkResult (item :: others) (map (map node_ItemID) (cv_paths c)) morePaths.

Definition Find (records : list BlockRecord) (item : Node) : Result :=
  if RepositoryEmpty (node_Repository item) then no_cycle
  else let '(graph, reverse) := BuildGraph records in resultForNode graph reverse item.

Definition find_step (g reverse : Graph) (acc : gset Node * list Result) (node : Node) : gset Node * list Result :=
  let '(seen, cycles) := acc in
  if bool_decide (node ∈ seen) then acc
  else
    let result := resultForNode g reverse node in
    match Affected result with
    | [] => ({[node]} ∪ seen, cycles)
    | affected => (list_to_set affected ∪ seen, cycles ++ [result])
    end.
Definition FindAll (records : list BlockRecord) : list Result :=
  let '(graph, reverse) := BuildGraph records in
  snd (fold_left (find_step graph reverse) (sortNodes (elements (dom graph))) (∅, [])).
