(* ===== verification/BlockedCycleProps.v ===== *)
(** * Correctness of blocked-cycle detection

    The searches are exact: [reachable] is reachability and [shortestPath] a
    shortest path; [FindAll] returns every strongly connected component that
    holds a cycle, once. *)

From Stdlib Require Import Sorting.Sorted Sorting.Permutation.
From S2P Require Export BlockedCycle.
Local Open Scope list_scope.

Definition edge (g : Graph) (a b : Node) : Prop := b ∈ successors g a.

(** ** The graphs *)

Lemma successors_insert (g : Graph) n es m :
  successors (<[n := es]> g) m = if decide (n = m) then es else successors g m.
Proof.
  unfold successors. destruct (decide (n = m)) as [->|]; [by rewrite lookup_insert_eq|by rewrite lookup_insert_ne].
Qed.
Lemma successors_empty n : successors ∅ n = [].
Proof. unfold successors. by rewrite lookup_empty. Qed.

Lemma add_edge_elem edges b x : x ∈ add_edge edges b <-> x ∈ edges \/ x = b.
Proof. unfold add_edge. case_bool_decide; set_solver. Qed.

Lemma add_edges_elem bs edges x : x ∈ fold_left add_edge bs edges <-> x ∈ edges \/ x ∈ bs.
Proof.
  revert edges. induction bs as [|b bs IH]; intros edges; cbn; [set_solver|].
  rewrite IH, add_edge_elem. set_solver.
Qed.

(** A record says that its item waits for its blockers. *)
Definition record_edge (rec : BlockRecord) (a b : Node) : Prop :=
  RepositoryEmpty (block_Repository rec) = false /\ a = mkNode (block_Repository rec) (block_ItemID rec) /\
  exists id, id ∈ block_Blockers rec /\ b = mkNode (block_Repository rec) id.

Lemma add_record_edge g rec a b : edge (add_record g rec) a b <-> edge g a b \/ record_edge rec a b.
Proof.
  unfold add_record, edge, record_edge. destruct (RepositoryEmpty (block_Repository rec)); [naive_solver|].
  rewrite successors_insert. case_decide as Ha; [|naive_solver]. subst a.
  rewrite add_edges_elem, list_elem_of_fmap. naive_solver.
Qed.

Lemma forward_graph_edge records a b :
  edge (forward_graph records) a b <-> exists rec, rec ∈ records /\ record_edge rec a b.
Proof.
  unfold forward_graph.
  assert (H : forall g, edge (fold_left add_record records g) a b <->
                edge g a b \/ exists rec, rec ∈ records /\ record_edge rec a b).
  { induction records as [|r records IH]; intros g; cbn; [set_solver|].
    rewrite IH, add_record_edge. set_solver. }
  rewrite H. unfold edge. rewrite successors_empty. set_solver.
Qed.

Lemma reverse_edges_elem from edges (r : Graph) b a :
  a ∈ successors (fold_left (fun r to => <[to := successors r to ++ [from]]> r) edges r) b <->
  a ∈ successors r b \/ (a = from /\ b ∈ edges).
Proof.
  revert r. induction edges as [|e edges IH]; intros r; cbn [fold_left]; [set_solver|]. rewrite IH.
  rewrite successors_insert. case_decide; set_solver.
Qed.

Lemma add_reverse_elem r from edges b a :
  a ∈ successors (add_reverse r from edges) b <-> a ∈ successors r b \/ (a = from /\ b ∈ edges).
Proof.
  unfold add_reverse. rewrite reverse_edges_elem. destruct (r !! from) eqn:Hf; [done|].
  rewrite successors_insert. case_decide as Hb; [subst; unfold successors; by rewrite Hf|done].
Qed.

Lemma reverse_graph_edge g a b : edge (reverse_graph g) b a <-> edge g a b.
Proof.
  unfold reverse_graph, edge.
  assert (H : forall l r, a ∈ successors (fold_left (fun r p => add_reverse r p.1 p.2) l r) b <->
                a ∈ successors r b \/ exists es, (a, es) ∈ l /\ b ∈ es).
  { induction l as [|[n es] l IH]; intros r; cbn [fold_left]; [set_solver|]. rewrite IH, add_reverse_elem. cbn.
    set_solver. }
  rewrite H, successors_empty. unfold successors. split.
  - intros [Hn|(es & Hin & Hb)]; [set_solver|]. apply elem_of_map_to_list in Hin. by rewrite Hin.
  - intros Hb. right. destruct (g !! a) as [es|] eqn:Hg; [|set_solver]. exists es.
    split; [by apply elem_of_map_to_list|done].
Qed.

(** Every node a search can queue. *)
Definition targets (g : Graph) : gset Node := list_to_set (concat (map snd (map_to_list g))).

Lemma edge_target g a b : edge g a b -> b ∈ targets g.
Proof.
  unfold edge, successors, targets. destruct (g !! a) as [es|] eqn:Hg; [|set_solver]. intros Hb.
  apply elem_of_list_to_set, list_elem_of_In, in_concat. exists es. split; [|by apply list_elem_of_In].
  apply in_map_iff. exists (a, es). split; [done|]. by apply list_elem_of_In, elem_of_map_to_list.
Qed.

Lemma targets_fuel g : (S (size (targets g)) < search_fuel g)%nat.
Proof.
  unfold search_fuel, targets. generalize (concat (map snd (map_to_list g))). intros l.
  assert (size (list_to_set l : gset Node) <= length l)%nat; [|lia].
  induction l as [|x l IH]; cbn [list_to_set length]; [by rewrite size_empty|].
  rewrite size_union_alt, size_singleton.
  assert (size (list_to_set l ∖ {[x]} : gset Node) <= size (list_to_set l : gset Node))%nat by (apply subseteq_size; set_solver).
  lia.
Qed.

(** ** Reachability *)

(** The invariant of [reachable]: what is marked is reachable, and what is
    marked and not queued has its successors marked. *)
Record reach_inv (g : Graph) (start : Node) (reached : gset Node) (queue : list Node) : Prop := {
  ri_start : start ∈ reached;
  ri_sound n : n ∈ reached -> rtc (edge g) start n;
  ri_queue n : n ∈ queue -> n ∈ reached;
  ri_closed n m : n ∈ reached -> n ∉ queue -> edge g n m -> m ∈ reached
}.

Lemma visit_spec nexts : forall reached queue reached' queue',
  visit nexts reached queue = (reached', queue') ->
  (forall n, n ∈ reached' <-> n ∈ reached \/ n ∈ nexts) /\
  (forall n, n ∈ queue' <-> n ∈ queue \/ (n ∈ nexts /\ n ∉ reached)) /\
  (length queue' + size reached = length queue + size reached')%nat.
Proof.
  induction nexts as [|x nexts IH]; intros reached queue reached' queue'; cbn [visit].
  { intros [= <- <-]. set_solver by lia. }
  case_bool_decide as Hx; intros H; apply IH in H as (Hr & Hq & Hl).
  - split; [set_solver|]. split; [|done]. intros n. rewrite Hq. set_solver.
  - split; [set_solver|]. split.
    + intros n. rewrite Hq. destruct (decide (n = x)); set_solver.
    + rewrite size_union, size_singleton in Hl by set_solver. rewrite length_app in Hl. cbn in Hl. lia.
Qed.

Lemma reach_done g start reached n : reach_inv g start reached [] -> rtc (edge g) start n -> n ∈ reached.
Proof.
  intros [Hs _ _ Hc] Hn. clear -Hs Hc Hn. induction Hn as [|x y z Hxy _ IH]; [done|].
  apply IH. apply (Hc x); [done|set_solver|done].
Qed.

Lemma reach_loop_spec g start fuel : forall reached queue,
  reach_inv g start reached queue ->
  reached ⊆ {[start]} ∪ targets g -> (length queue + size ({[start]} ∪ targets g) - size reached <= fuel)%nat ->
  forall n, n ∈ reach_loop fuel g reached queue <-> rtc (edge g) start n.
Proof.
  induction fuel as [|fuel IH]; intros reached queue Hinv Hsub Hf n.
  - assert (Hle : (size reached <= size ({[start]} ∪ targets g))%nat) by by apply subseteq_size.
    assert (queue = []) as -> by (apply nil_length_inv; lia).
    cbn [reach_loop]. split; [apply Hinv|]. by apply reach_done.
  - destruct queue as [|node queue].
    + cbn [reach_loop]. split; [apply Hinv|]. by apply reach_done.
    + cbn [reach_loop]. destruct (visit _ _ _) as [reached' queue'] eqn:Hv.
      apply visit_spec in Hv as (Hr & Hq & Hl). destruct Hinv as [Hs Hso Hqu Hc].
      assert (Hsub' : reached' ⊆ {[start]} ∪ targets g).
      { intros x Hx. apply Hr in Hx as [Hx|Hx]; [by apply Hsub|]. apply elem_of_union_r. by eapply edge_target. }
      apply IH; [|done|].
      * split.
        -- apply Hr. by left.
        -- intros x Hx. apply Hr in Hx as [Hx|Hx]; [by apply Hso|].
           eapply rtc_r; [apply Hso, Hqu; left|done].
        -- intros x Hx. apply Hr. apply Hq in Hx as [Hx|[Hx _]]; [left; apply Hqu; by right|by right].
        -- intros x m Hx Hxq Hm. apply Hr. destruct (decide (x = node)) as [->|Hne]; [by right|].
           apply Hr in Hx as [Hx|Hx].
           ++ left. apply (Hc x); [done| |done]. set_solver.
           ++ destruct (decide (x ∈ reached)) as [Hx'|]; [|set_solver]. left. apply (Hc x); [done|set_solver|done].
      * assert (Hle : (size reached' <= size ({[start]} ∪ targets g))%nat) by by apply subseteq_size.
        assert (Hle0 : (size reached <= size ({[start]} ∪ targets g))%nat) by by apply subseteq_size.
        cbn [length] in Hf. lia.
Qed.

Lemma reachable_spec g start n : n ∈ reachable g start <-> rtc (edge g) start n.
Proof.
  apply reach_loop_spec.
  - split; [set_solver| | |set_solver].
    + intros x ->%elem_of_singleton. apply rtc_refl.
    + set_solver.
  - set_solver.
  - pose proof (targets_fuel g). rewrite size_union_alt, size_singleton. cbn [length].
    assert (size (targets g ∖ {[start]}) <= size (targets g))%nat by (apply subseteq_size; set_solver). lia.
Qed.

(** ** Shortest paths *)

(** A path as the list of its nodes. *)
Inductive path (R : Node -> Node -> Prop) : Node -> list Node -> Node -> Prop :=
| path_one a : path R a [a] a
| path_cons a b p c : R a b -> path R b p c -> path R a (a :: p) c.

Lemma path_nsteps R a p b : path R a p b -> exists k, nsteps R k a b /\ length p = S k.
Proof.
  induction 1 as [a|a b p c Hab _ (k & Hk & Hl)]; [exists O; split; [constructor|done]|].
  exists (S k). split; [by econstructor|]. cbn. lia.
Qed.

Section shortest.
Context (g : Graph) (start target : Node) (allowed : gset Node).

Definition step (a b : Node) : Prop := edge g a b /\ b ∈ allowed.

(** The invariant of the search between two iterations, with the depth [D] of
    every node seen; [busy] is the node whose successors are being visited and
    [rest] those left to visit. *)
Record path_inv (D : Node -> nat) (busy : option (Node * list Node)) (s : Search) : Prop := {
  pi_start : start ∈ s_seen s /\ D start = 0%nat;
  pi_previous n : n ∈ s_seen s -> n <> start ->
    exists p, s_previous s !! n = Some p /\ p ∈ s_seen s /\ step p n /\ D n = S (D p);
  pi_queue n : n ∈ s_queue s -> n ∈ s_seen s;
  pi_sorted : StronglySorted (fun a b => (D a <= D b)%nat) (s_queue s);
  pi_near a b : a ∈ s_queue s -> b ∈ s_queue s -> (D b <= S (D a))%nat;
  pi_closed n m : n ∈ s_seen s -> n ∉ s_queue s -> step n m ->
    match busy with Some (node, rest) => n = node -> m ∉ rest | None => True end ->
    m ∈ s_seen s /\ (D m <= S (D n))%nat;
  pi_short n k : n ∈ s_seen s -> nsteps step k start n -> (D n <= k)%nat;
  pi_target : target ∉ s_seen s;
  pi_dom : dom (s_previous s) = s_seen s ∖ {[start]};
  pi_size n : n ∈ s_seen s -> (D n < size (s_seen s))%nat;
  pi_busy : match busy with
            | Some (node, _) => node ∈ s_seen s /\
                (forall q, q ∈ s_queue s -> (D node <= D q <= S (D node))%nat) /\
                (forall m k, m ∉ s_seen s -> nsteps step k start m -> (S (D node) <= k)%nat)
            | None => True
            end
}.

(** A walk that leaves the seen nodes passes the queue. *)
Lemma walk_through_queue D s : path_inv D None s -> forall k m, nsteps step k start m ->
  (m ∈ s_seen s /\ (D m <= k)%nat) \/ exists q, q ∈ s_queue s /\ (D q < k)%nat.
Proof.
  intros Hinv k. induction k as [|k IH]; intros m Hm.
  { assert (m = start) as -> by (by inversion Hm). left. destruct (pi_start _ _ _ Hinv) as [Hs ->]. done. }
  apply nsteps_inv_r in Hm as (u & Hu & Hum). destruct (IH u Hu) as [[Hseen Hd]|(q & Hq & Hd)].
  - destruct (decide (u ∈ s_queue s)) as [Hq|Hq]; [right; exists u; split; [done|lia]|].
    left. destruct (pi_closed _ _ _ Hinv u m Hseen Hq Hum I) as [Hm Hdm]. split; [done|lia].
  - right. exists q. split; [done|lia].
Qed.

(** Taking the head of the queue. *)
Lemma path_pop D s node queue :
  path_inv D None s -> s_queue s = node :: queue ->
  path_inv D (Some (node, successors g node)) (mkSearch (s_seen s) (s_previous s) queue).
Proof.
  intros Hinv Hq. assert (Hwalk := walk_through_queue D s Hinv). destruct Hinv as [Hs Hp Hqu Hso Hne Hc Hsh Ht Hdom Hsz _].
  rewrite Hq in *. inversion_clear Hso as [|? ? Hso' Hall].
  split; cbn [s_seen s_previous s_queue]; try done.
  - intros n Hn. apply Hqu. by right.
  - intros a b Ha Hb. apply Hne; by right.
  - intros n m Hn Hnq Hnm Hrest. destruct (decide (n = node)) as [->|Hnn]; [by destruct (Hrest eq_refl (proj1 Hnm))|].
    apply Hc; [done|set_solver|done|done].
  - split; [apply Hqu; left|]. split.
    + intros q Hin. split; [by eapply Forall_forall in Hall|]. apply Hne; [left|by right].
    + intros m k Hm Hk. destruct (Hwalk k m Hk) as [[Hm' _]|(q & Hin & Hd)]; [done|].
      apply elem_of_cons in Hin as [->|Hin]; [lia|]. eapply Forall_forall in Hall; [|exact Hin]. cbn in Hall. lia.
Qed.

(** The depth function extended to a new node. *)
Definition deepen (D : Node -> nat) (n : Node) (d : nat) : Node -> nat := fun x => if decide (x = n) then d else D x.
Lemma deepen_eq D n d : deepen D n d n = d.
Proof. unfold deepen. by rewrite decide_True. Qed.
Lemma deepen_ne D n d x : x <> n -> deepen D n d x = D x.
Proof. intros H. unfold deepen. by rewrite decide_False. Qed.

Lemma depths_snoc D (q : list Node) x :
  StronglySorted (fun a b => (D a <= D b)%nat) q -> (forall y, y ∈ q -> (D y <= D x)%nat) ->
  StronglySorted (fun a b => (D a <= D b)%nat) (q ++ [x]).
Proof.
  induction 1 as [|y q Hq IH Hy]; intros Hx; cbn; [repeat constructor|]. constructor.
  - apply IH. intros z Hz. apply Hx. by right.
  - apply Forall_app. split; [done|]. constructor; [apply Hx; left|constructor].
Qed.

Lemma sorted_ext D D' (q : list Node) : (forall x, x ∈ q -> D' x = D x) ->
  StronglySorted (fun a b => (D a <= D b)%nat) q -> StronglySorted (fun a b => (D' a <= D' b)%nat) q.
Proof.
  intros He. induction 1 as [|y q Hq IH Hy]; constructor; [apply IH; intros; apply He; by right|].
  apply Forall_forall. intros x Hx. rewrite !He; [|by right|left]. by eapply Forall_forall in Hy.
Qed.

(** Visiting one new successor keeps the invariant. *)
Lemma path_push D s node next rest :
  path_inv D (Some (node, next :: rest)) s -> step node next -> next ∉ s_seen s -> next <> target ->
  path_inv (deepen D next (S (D node))) (Some (node, rest))
    (mkSearch ({[next]} ∪ s_seen s) (<[next := node]> (s_previous s)) (s_queue s ++ [next])).
Proof.
  intros [[Hs Hs0] Hp Hqu Hso Hne Hc Hsh Ht Hdom Hsz (Hnode & Hnear & Hlow)] Hst Hnew Htgt.
  assert (Hold : forall x, x ∈ s_seen s -> deepen D next (S (D node)) x = D x) by (intros x Hx; apply deepen_ne; by intros ->).
  split; cbn [s_seen s_previous s_queue].
  - split; [set_solver|]. by rewrite Hold.
  - intros n Hn Hns. destruct (decide (n = next)) as [->|Hnn].
    + exists node. rewrite lookup_insert_eq, deepen_eq, Hold by done. split; [done|]. split; [set_solver|done].
    + assert (Hn' : n ∈ s_seen s) by set_solver. destruct (Hp n Hn' Hns) as (p & H1 & H2 & H3 & H4).
      exists p. rewrite lookup_insert_ne, !Hold by done. split; [done|]. split; [set_solver|done].
  - intros n Hn. apply elem_of_app in Hn as [Hn|Hn]; [apply elem_of_union_r, Hqu, Hn|set_solver].
  - apply depths_snoc.
    + eapply sorted_ext; [|exact Hso]. intros x Hx. apply Hold, Hqu, Hx.
    + intros y Hy. rewrite deepen_eq, Hold by (apply Hqu, Hy). by apply Hnear.
  - intros a b Ha Hb. apply elem_of_app in Ha as [Ha|Ha], Hb as [Hb|Hb].
    + rewrite !Hold by (apply Hqu; done). by apply Hne.
    + apply list_elem_of_singleton in Hb as ->. rewrite deepen_eq, Hold by (apply Hqu; done). apply Hnear in Ha. lia.
    + apply list_elem_of_singleton in Ha as ->. rewrite deepen_eq, Hold by (apply Hqu; done). apply Hnear in Hb. lia.
    + apply list_elem_of_singleton in Ha as ->, Hb as ->. lia.
  - intros n m Hn Hnq Hnm Hrest. assert (Hnn : n <> next) by set_solver. assert (Hn' : n ∈ s_seen s) by set_solver.
    destruct (decide (m = next)) as [->|Hmn].
    + split; [set_solver|]. rewrite deepen_eq, Hold by done.
      destruct (decide (n = node)) as [->|Hnd]; [lia|].
      destruct (Hc n next Hn' ltac:(set_solver) Hnm) as [? _]; [done|done].
    + destruct (Hc n m Hn' ltac:(set_solver) Hnm) as [Hm Hd].
      { intros ->. specialize (Hrest eq_refl). set_solver. }
      split; [set_solver|]. by rewrite !Hold.
  - intros n k Hn Hk. destruct (decide (n = next)) as [->|Hnn].
    + rewrite deepen_eq. by apply (Hlow next).
    + assert (Hn' : n ∈ s_seen s) by set_solver. rewrite Hold by done. by apply Hsh.
  - set_solver.
  - rewrite dom_insert_L, Hdom. assert (next <> start) by (by intros ->). set_solver.
  - intros n Hn. rewrite size_union, size_singleton by set_solver. destruct (decide (n = next)) as [->|Hnn].
    + rewrite deepen_eq. specialize (Hsz node Hnode). lia.
    + assert (Hn' : n ∈ s_seen s) by set_solver. rewrite Hold by done. specialize (Hsz n Hn'). lia.
  - rewrite Hold by done. split; [set_solver|]. split.
    + intros q Hq. apply elem_of_app in Hq as [Hq|Hq].
      * rewrite Hold by (apply Hqu, Hq). by apply Hnear.
      * apply list_elem_of_singleton in Hq as ->. rewrite deepen_eq. lia.
    + intros m k Hm. apply Hlow. set_solver.
Qed.

(** A node seen is reached in as many steps as its depth. *)
Lemma path_depth D busy s n : path_inv D busy s -> n ∈ s_seen s -> nsteps step (D n) start n.
Proof.
  intros Hinv. remember (D n) as d eqn:Hd. revert n Hd. induction d as [|d IH]; intros n Hd Hn.
  - destruct (decide (n = start)) as [->|Hne]; [constructor|].
    destruct (pi_previous _ _ _ Hinv n Hn Hne) as (p & _ & _ & _ & Hdp). lia.
  - destruct (decide (n = start)) as [->|Hne]; [destruct (pi_start _ _ _ Hinv); lia|].
    destruct (pi_previous _ _ _ Hinv n Hn Hne) as (p & _ & Hp & Hst & Hdp).
    eapply nsteps_r; [|exact Hst]. apply IH; [lia|done].
Qed.

(** Skipping a successor that is seen or not allowed keeps it too. *)
Lemma path_skip D s node next rest :
  path_inv D (Some (node, next :: rest)) s -> (next ∉ allowed \/ next ∈ s_seen s) -> edge g node next ->
  path_inv D (Some (node, rest)) s.
Proof.
  intros Hinv Hskip Hedge. assert (Hb := pi_busy _ _ _ Hinv). assert (Hdep := path_depth D _ s node Hinv).
  destruct Hinv as [Hs Hp Hqu Hso Hne Hc Hsh Ht Hdom Hsz _]. destruct Hb as (Hnode & Hnear & Hlow).
  split; try done. intros n m Hn Hnq Hnm Hrest.
  destruct (decide (n = node)) as [->|Hnn]; [|by apply Hc]. specialize (Hrest eq_refl).
  destruct (decide (m = next)) as [->|Hmn]; [|apply Hc; [done|done|done|set_solver]].
  destruct Hskip as [Hna|Hin]; [by destruct Hnm|]. split; [done|].
  apply Hsh; [done|]. eapply nsteps_r; [by apply Hdep|done].
Qed.

(** When every successor is visited the node is done. *)
Lemma path_close D s node : path_inv D (Some (node, [])) s -> path_inv D None s.
Proof. intros [Hs Hp Hqu Hso Hne Hc Hsh Ht Hdom Hsz _]. split; try done. intros n m Hn Hq Hnm _. apply Hc; [done..|set_solver]. Qed.

(** What the early return holds: a tree of predecessors in which [target] has
    the least possible depth. *)
Definition found (previous : gmap Node Node) : Prop :=
  exists D, D start = 0%nat /\ (D target <= size previous)%nat /\
    (forall n, n = target \/ (exists m, previous !! m = Some n) -> n <> start ->
       exists p, previous !! n = Some p /\ step p n /\ D n = S (D p)) /\
    forall k, nsteps step k start target -> (D target <= k)%nat.

Lemma path_found D s node rest :
  path_inv D (Some (node, target :: rest)) s -> step node target -> target ∉ s_seen s ->
  found (<[target := node]> (s_previous s)).
Proof.
  intros [[Hs Hs0] Hp Hqu Hso Hne Hc Hsh Ht Hdom Hsz (Hnode & Hnear & Hlow)] Hst Hnew.
  exists (deepen D target (S (D node))).
  assert (Hold : forall x, x ∈ s_seen s -> deepen D target (S (D node)) x = D x) by (intros x Hx; apply deepen_ne; by intros ->).
  assert (Hnone : s_previous s !! target = None) by (apply not_elem_of_dom; rewrite Hdom; set_solver).
  split; [by rewrite Hold|]. split.
  { rewrite deepen_eq, map_size_insert_None by done. assert (Hsize : size (s_previous s) = (size (s_seen s) - 1)%nat).
    { rewrite <- size_dom, Hdom, size_difference by set_solver. by rewrite size_singleton. }
    specialize (Hsz node Hnode). rewrite Hsize. lia. }
  split.
  - intros n Hn Hns. destruct (decide (n = target)) as [->|Hnt].
    + exists node. rewrite lookup_insert_eq, deepen_eq, Hold by done. done.
    + assert (Hseen : n ∈ s_seen s).
      { destruct Hn as [->|(m & Hm)]; [done|]. destruct (decide (m = target)) as [->|Hmt].
        - rewrite lookup_insert_eq in Hm. by injection Hm as <-.
        - rewrite lookup_insert_ne in Hm by done. assert (Hmd : m ∈ dom (s_previous s)) by by eapply elem_of_dom_2.
          rewrite Hdom in Hmd. destruct (Hp m) as (p & Hmp & Hps & _); [set_solver|set_solver|]. congruence. }
      destruct (Hp n Hseen Hns) as (p & H1 & H2 & H3 & H4). exists p.
      rewrite lookup_insert_ne, !Hold by done. done.
  - intros k Hk. rewrite deepen_eq. by apply (Hlow target).
Qed.

Lemma path_visit_spec node nexts : forall D s,
  path_inv D (Some (node, nexts)) s -> (forall n, n ∈ nexts -> edge g node n) ->
  match path_visit target allowed node nexts s with
  | inl previous => found previous
  | inr s' => exists D', path_inv D' None s' /\ s_seen s ⊆ s_seen s' /\ s_seen s' ⊆ s_seen s ∪ targets g /\
      (length (s_queue s') + size (s_seen s) = length (s_queue s) + size (s_seen s'))%nat
  end.
Proof.
  induction nexts as [|next nexts IH]; intros D s Hinv Hedge; cbn [path_visit].
  { exists D. split; [by eapply path_close|]. split; [done|]. split; [set_solver|lia]. }
  destruct (negb (bool_decide (next ∈ allowed)) || bool_decide (next ∈ s_seen s)) eqn:Hskip.
  - apply orb_true_iff in Hskip. rewrite negb_true_iff, bool_decide_eq_false, bool_decide_eq_true in Hskip.
    apply (IH D s); [|set_solver]. eapply path_skip; [done|done|]. apply Hedge. left.
  - apply orb_false_iff in Hskip. rewrite negb_false_iff, bool_decide_eq_false, bool_decide_eq_true in Hskip.
    destruct Hskip as [Hal Hns]. assert (Hst : step node next) by (split; [apply Hedge; left|done]).
    case_bool_decide as Ht; [subst next; by eapply path_found|].
    pose proof (path_push D s node next nexts Hinv Hst Hns Ht) as Hinv'.
    specialize (IH _ _ Hinv' ltac:(set_solver)). destruct (path_visit _ _ _ _ _) as [previous|s']; [done|].
    destruct IH as (D' & Hi & Hsub & Hsup & Hl). cbn [s_seen s_queue] in *. exists D'. split; [done|].
    split; [set_solver|]. split.
    + pose proof (edge_target g node next (proj1 Hst)). set_solver.
    + rewrite size_union, size_singleton, length_app in Hl by set_solver. cbn in Hl. lia.
Qed.

Lemma path_back_spec previous D : D start = 0%nat ->
  (forall n, n = target \/ (exists m, previous !! m = Some n) -> n <> start ->
     exists p, previous !! n = Some p /\ step p n /\ D n = S (D p)) ->
  forall fuel n acc, n = target \/ (exists m, previous !! m = Some n) -> (D n < fuel)%nat -> path step n acc target ->
  let p := path_back fuel previous start n acc in path step start p target /\ length p = (D n + length acc)%nat.
Proof.
  intros H0 Hprev. induction fuel as [|fuel IH]; intros n acc Hn Hf Hp; [lia|]. cbv zeta. cbn [path_back].
  case_bool_decide as Hs; [subst n; rewrite H0; done|]. destruct (Hprev n Hn Hs) as (p & Hpr & Hst & Hd). rewrite Hpr.
  destruct (IH p (p :: acc)) as [Hp1 Hl1]; [right; by exists n|lia|by econstructor|]. split; [done|].
  rewrite Hl1. cbn. lia.
Qed.

Lemma found_path previous : found previous ->
  let p := path_back (S (size previous)) previous start target [target] in
  path step start p target /\ forall k, nsteps step k start target -> (length p <= S k)%nat.
Proof.
  intros (D & H0 & Hsz & Hprev & Hmin). cbv zeta.
  destruct (path_back_spec previous D H0 Hprev (S (size previous)) target [target]) as [Hp Hl];
    [by left|lia|constructor|]. split; [done|]. intros k Hk. rewrite Hl. specialize (Hmin k Hk). cbn. lia.
Qed.

Lemma path_loop_spec fuel : forall D s, path_inv D None s -> s_seen s ⊆ {[start]} ∪ targets g ->
  (length (s_queue s) + size ({[start]} ∪ targets g) - size (s_seen s) <= fuel)%nat ->
  match path_loop fuel g start target allowed s with
  | Some p => path step start p target /\ forall k, nsteps step k start target -> (length p <= S k)%nat
  | None => forall k, ~ nsteps step k start target
  end.
Proof.
  assert (Hdone : forall D s, path_inv D None s -> s_queue s = [] -> forall k, ~ nsteps step k start target).
  { intros D s Hinv Hq k Hk. destruct (walk_through_queue D s Hinv k target Hk) as [[Hin _]|(q & Hin & _)].
    - by destruct (pi_target _ _ _ Hinv). 
    - rewrite Hq in Hin. set_solver. }
  induction fuel as [|fuel IH]; intros D s Hinv Hsub Hf.
  - cbn [path_loop]. apply (Hdone D s Hinv). apply nil_length_inv.
    assert (size (s_seen s) <= size ({[start]} ∪ targets g))%nat by (by apply subseteq_size). lia.
  - cbn [path_loop]. destruct (s_queue s) as [|node queue] eqn:Hq; [by apply (Hdone D s)|].
    pose proof (path_pop D s node queue Hinv Hq) as Hpop.
    pose proof (path_visit_spec node (successors g node) D _ Hpop ltac:(done)) as Hv.
    destruct (path_visit _ _ _ _ _) as [previous|s']; [by apply found_path|].
    destruct Hv as (D' & Hinv' & _ & Hsup & Hl). cbn [s_seen s_queue] in *.
    assert (Hsub' : s_seen s' ⊆ {[start]} ∪ targets g) by set_solver.
    apply (IH D' s'); [done|done|].
    assert (size (s_seen s') <= size ({[start]} ∪ targets g))%nat by (by apply subseteq_size).
    assert (size (s_seen s) <= size ({[start]} ∪ targets g))%nat by (by apply subseteq_size).
    cbn [length] in Hf. lia.
Qed.

Lemma shortestPath_spec :
  match shortestPath g start target allowed with
  | Some p => path step start p target /\ forall k, nsteps step k start target -> (length p <= S k)%nat
  | None => forall k, ~ nsteps step k start target
  end.
Proof.
  unfold shortestPath. case_bool_decide as Hst.
  { subst. split; [constructor|]. intros k _. cbn. lia. }
  apply (path_loop_spec _ (fun _ => 0%nat)).
  - split; cbn [s_seen s_previous s_queue]; try done; try set_solver.
    + constructor; constructor.
    + intros n k Hn _. lia.
    + intros n Hn. rewrite size_singleton. lia.
  - set_solver.
  - pose proof (targets_fuel g). cbn [s_queue s_seen length]. rewrite size_union_alt, size_singleton.
    assert (size (targets g ∖ {[start]}) <= size (targets g))%nat by (apply subseteq_size; set_solver). lia.
Qed.
End shortest.

(** ** Components *)

Lemma tc_inv {A} (R : A -> A -> Prop) x y : tc R x y -> R x y \/ exists z, R x z /\ tc R z y.
Proof. destruct 1; eauto. Qed.

Lemma singleton_of (X : gset Node) i : i ∈ X -> X ∖ {[i]} ≡ ∅ -> X = {[i]}.
Proof.
  intros Hi He. apply set_eq. intros x. rewrite elem_of_singleton. split; [|by intros ->]. intros Hx.
  destruct (decide (x = i)); [done|]. exfalso. set_solver.
Qed.

Section component.
Context (g : Graph) (item : Node).
Notation rev_g := (reverse_graph g).
Notation comp := (component_of g rev_g item).

Lemma reverse_rtc a b : rtc (edge rev_g) a b <-> rtc (edge g) b a.
Proof.
  split; induction 1 as [|x y z Hxy _ IH]; try apply rtc_refl;
    (eapply rtc_r; [exact IH|]); by apply reverse_graph_edge.
Qed.

(** The strongly connected component of [item]. *)
Lemma component_spec n : n ∈ comp <-> rtc (edge g) item n /\ rtc (edge g) n item.
Proof. unfold component_of. by rewrite elem_of_intersection, !reachable_spec, reverse_rtc. Qed.

Lemma component_item : item ∈ comp.
Proof. apply component_spec. split; apply rtc_refl. Qed.

(** A walk between members stays inside. *)
Lemma component_walk k n m : n ∈ comp -> m ∈ comp -> nsteps (edge g) k n m -> nsteps (step g comp) k n m.
Proof.
  intros Hn Hm Hk. revert Hn. induction Hk as [|k x y z Hxy Hyz IH]; intros Hn; [constructor|].
  assert (Hy : y ∈ comp).
  { apply component_spec in Hn as [H1 _]. apply component_spec in Hm as [_ H2]. apply component_spec.
    split; [eapply rtc_r; eassumption|]. etransitivity; [|exact H2]. by eapply rtc_nsteps_2. }
  econstructor; [by split|]. by apply IH.
Qed.

Lemma step_edge k a b : nsteps (step g comp) k a b -> nsteps (edge g) k a b.
Proof. induction 1 as [|? ? ? ? [? _]]; econstructor; eauto. Qed.

Lemma path_step_edge a p b : path (step g comp) a p b -> path (edge g) a p b.
Proof. induction 1 as [|? ? ? ? [? _]]; econstructor; eauto. Qed.

(** Between members a shortest path is always found, and it is shortest among
    all walks of the graph. *)
Lemma member_path n m : n ∈ comp -> m ∈ comp ->
  exists p, shortestPath g n m comp = Some p /\ path (step g comp) n p m /\
    forall k, nsteps (edge g) k n m -> (length p <= S k)%nat.
Proof.
  intros Hn Hm. pose proof (shortestPath_spec g n m comp) as Hs.
  assert (Hr : rtc (edge g) n m).
  { apply component_spec in Hn as [_ H1]. apply component_spec in Hm as [H2 _]. by etransitivity. }
  apply rtc_nsteps in Hr as [k Hk]. destruct (shortestPath g n m comp) as [p|].
  - destruct Hs as [Hp Hmin]. exists p. split; [done|]. split; [done|]. intros j Hj. by apply Hmin, component_walk.
  - by destruct (Hs k (component_walk k n m Hn Hm Hk)).
Qed.

(** The guard of [resultForNode] says that [item] lies on no cycle. *)
Lemma cycle_guard :
  (size comp =? 1)%nat && negb (bool_decide (item ∈ successors g item)) = true <-> ~ tc (edge g) item item.
Proof.
  rewrite andb_true_iff, negb_true_iff, bool_decide_eq_false, Nat.eqb_eq. pose proof component_item as Hi. split.
  - intros [H1 Hself] Hc. apply size_1_elem_of in H1 as [x Hx].
    assert (item = x) as <- by set_solver. apply Hself.
    apply tc_inv in Hc as [Hc|(y & Hy & Hyi)]; [done|].
    assert (Hin : y ∈ comp) by (apply component_spec; split; [by apply rtc_once|by apply tc_rtc]).
    assert (y = item) as -> by set_solver. done.
  - intros Hno. split; [|intros Hself; by apply Hno, tc_once].
    assert (comp = {[item]}) as ->; [|apply size_singleton]. apply set_eq. intros n. rewrite elem_of_singleton.
    split; [|by intros ->]. intros [H1 H2]%component_spec. destruct (decide (n = item)) as [|Hne]; [done|]. exfalso. apply Hno.
    apply rtc_tc in H1 as [->|H1]; [done|]. eapply tc_rtc_r; eassumption.
Qed.

#[local] Instance on_cycle_dec : Decision (tc (edge g) item item).
Proof.
  destruct ((size comp =? 1)%nat && negb (bool_decide (item ∈ successors g item))) eqn:E;
    [right; by apply cycle_guard|left].
  apply andb_false_iff in E as [E%Nat.eqb_neq|E%negb_false_iff%bool_decide_eq_true]; [|by apply tc_once].
  destruct (set_choose_or_empty (comp ∖ {[item]})) as [(m & [Hm Hne%not_elem_of_singleton]%elem_of_difference)|Hem].
  - apply component_spec in Hm as [H1 H2]. apply rtc_tc in H1 as [->|H1]; [done|]. by eapply tc_rtc_r.
  - exfalso. apply E. rewrite (singleton_of comp item component_item Hem). apply size_singleton.
Qed.

(** A member other than [item], or a lone member on a cycle, has an edge inside. *)
Lemma member_edge n : tc (edge g) item item -> n ∈ comp -> exists m, m ∈ comp /\ edge g n m.
Proof.
  intros Hc Hn. assert (Hn' := Hn). apply component_spec in Hn' as [H1 H2].
  assert (Ht : tc (edge g) n item).
  { apply rtc_tc in H2 as [->|H2]; [done|]. done. }
  apply tc_inv in Ht as [He|(m & He & Hm)].
  - exists item. split; [apply component_item|done].
  - exists m. split; [|done]. apply component_spec. split; [by eapply rtc_r|by apply tc_rtc].
Qed.
End component.

(** ** Representative paths *)

Lemma path_head R a p b : path R a p b -> exists q, p = a :: q.
Proof. destruct 1; eauto. Qed.
Lemma path_ends R a p b : path R a p b -> a ∈ p /\ b ∈ p.
Proof. induction 1 as [|a b p c _ _ [IH1 IH2]]; set_solver. Qed.

Lemma path_app R a p b q c : path R a p b -> path R b q c ->
  path R a (p ++ tail q) c /\ length (p ++ tail q) = (length p + length q - 1)%nat.
Proof.
  intros Hp Hq. induction Hp as [a|a b' p b Hab Hp IH].
  - destruct (path_head _ _ _ _ Hq) as [q' ->]. cbn. split; [done|lia].
  - destruct (IH Hq) as [IH1 IH2]. cbn [app length]. split; [by econstructor|]. rewrite IH2.
    destruct (path_head _ _ _ _ Hp) as [? ->]. cbn. lia.
Qed.

Lemma path_step_in g X a p b : path (step g X) a p b -> a ∈ X -> forall x, x ∈ p -> x ∈ X.
Proof. induction 1 as [|a b p c [_ Hb] _ IH]; intros Ha x Hx; set_solver. Qed.

Section cover.
Context (g : Graph) (item : Node).
Notation comp := (component_of g (reverse_graph g) item).

(** No closed walk through [item] and some node of [p] is shorter than [p]. *)
Definition tight (p : list Node) : Prop :=
  exists m, m ∈ p /\ forall k1 k2, nsteps (edge g) k1 item m -> nsteps (edge g) (S k2) m item ->
    (length p <= S (k1 + S k2))%nat.

Record cover_inv (c : Cover) : Prop := {
  ci_paths p : p ∈ cv_paths c ->
    path (edge g) item p item /\ (2 <= length p)%nat /\ (forall x, x ∈ p -> x ∈ comp) /\ tight p;
  ci_nodes n : n ∈ cv_nodes c <-> n = item \/ exists p, p ∈ cv_paths c /\ n ∈ p;
  ci_edges e : e ∈ cv_edges c <-> exists p, p ∈ cv_paths c /\ e ∈ path_edges p;
  ci_length : (length (cv_paths c) <= MaxPaths)%nat
}.

Lemma appendPath_inv c p : cover_inv c -> (length (cv_paths c) < MaxPaths)%nat ->
  path (edge g) item p item -> (2 <= length p)%nat -> (forall x, x ∈ p -> x ∈ comp) -> tight p ->
  cover_inv (appendPath p c).
Proof.
  intros [Hp Hn He Hl] Hlt H1 H2 H3 H4. split; cbn [appendPath cv_paths cv_nodes cv_edges].
  - intros q [Hq|Hq]%elem_of_app; [by apply Hp|]. by apply list_elem_of_singleton in Hq as ->.
  - intros n. rewrite elem_of_union, elem_of_list_to_set, Hn. set_solver.
  - intros e. rewrite elem_of_union, elem_of_list_to_set, He. set_solver.
  - rewrite length_app. cbn. lia.
Qed.

Lemma cover_member_spec c m : cover_inv c -> m ∈ comp -> m <> item ->
  let c' := cover_member g item comp c m in
  cover_inv c' /\ cv_nodes c ⊆ cv_nodes c' /\ (length (cv_paths c) <= length (cv_paths c'))%nat /\
  (m ∈ cv_nodes c' \/ length (cv_paths c') = MaxPaths).
Proof.
  intros Hinv Hm Hne. cbv zeta. unfold cover_member.
  destruct (bool_decide (m ∈ cv_nodes c)) eqn:Hin; cbn [orb].
  { apply bool_decide_eq_true in Hin. split; [done|]. split; [done|]. split; [lia|by left]. }
  destruct (Nat.eqb_spec (length (cv_paths c)) MaxPaths) as [Hmax|Hmax].
  { split; [done|]. split; [done|]. split; [lia|by right]. }
  destruct (member_path g item item m (component_item g item) Hm) as (out & -> & Hout & Hmin1).
  destruct (member_path g item m item Hm (component_item g item)) as (inb & -> & Hin' & Hmin2).
  destruct (path_app _ _ _ _ _ _ Hout Hin') as [Hp Hl].
  assert (Hlen : (2 <= length out /\ 2 <= length inb)%nat).
  { inversion Hout as [|? ? p' ? _ Hp1]; subst; [done|]. inversion Hin' as [|? ? p'' ? _ Hp2]; subst; [done|].
    destruct (path_head _ _ _ _ Hp1) as [? ->]. destruct (path_head _ _ _ _ Hp2) as [? ->]. cbn. lia. }
  split; [|split; [|split; [|left]]].
  - apply appendPath_inv; [done| | | | |].
    + pose proof (ci_length _ Hinv). lia.
    + by eapply path_step_edge.
    + lia.
    + eapply path_step_in; [exact Hp|apply component_item].
    + exists m. split; [apply elem_of_app; left; by eapply path_ends|]. intros k1 k2 H1 H2.
      specialize (Hmin1 _ H1). specialize (Hmin2 _ H2). lia.
  - cbn. set_solver.
  - cbn. rewrite length_app. lia.
  - cbn. apply elem_of_union_l, elem_of_list_to_set, elem_of_app. left. by eapply path_ends.
Qed.

Lemma cover_fold_spec others : forall c, cover_inv c -> (forall m, m ∈ others -> m ∈ comp /\ m <> item) ->
  let c' := fold_left (cover_member g item comp) others c in
  cover_inv c' /\ cv_nodes c ⊆ cv_nodes c' /\ (length (cv_paths c) <= length (cv_paths c'))%nat /\
  forall m, m ∈ others -> m ∈ cv_nodes c' \/ length (cv_paths c') = MaxPaths.
Proof.
  induction others as [|m others IH]; intros c Hinv Hoth; cbv zeta; cbn [fold_left]; [set_solver|].
  destruct (cover_member_spec c m Hinv) as (H1 & H2 & H3 & H4); [apply Hoth; left..|].
  destruct (IH _ H1) as (H5 & H6 & H7 & H8); [intros x Hx; apply Hoth; by right|].
  split; [done|]. split; [set_solver|]. split; [lia|]. intros x [->|Hx]%elem_of_cons; [|by apply H8].
  destruct H4 as [H4|H4]; [left; set_solver|]. right. pose proof (ci_length _ H5). lia.
Qed.

(** The cover [resultForNode] ends with. *)
Definition final_cover : Cover :=
  let start := mkCover [] {[item]} ∅ in
  if (size comp =? 1)%nat then appendPath [item; item] start
  else fold_left (cover_member g item comp) (sortNodes (elements (comp ∖ {[item]}))) start.

Lemma final_cover_spec : tc (edge g) item item ->
  cover_inv final_cover /\ (1 <= length (cv_paths final_cover))%nat /\
  ((length (cv_paths final_cover) < MaxPaths)%nat -> comp ⊆ cv_nodes final_cover).
Proof.
  intros Hc. pose proof (component_item g item) as Hi.
  assert (H0 : cover_inv (mkCover [] {[item]} ∅)) by (split; cbn; [set_solver|set_solver|set_solver|unfold MaxPaths; lia]).
  unfold final_cover. destruct (Nat.eqb_spec (size comp) 1) as [H1|H1].
  - apply size_1_elem_of in H1 as [x Hx]. assert (item = x) as <- by set_solver.
    assert (Hself : edge g item item).
    { destruct (member_edge g item item Hc Hi) as (m & Hm & He). assert (m = item) as -> by set_solver. done. }
    split; [|cbn; split; [lia|set_solver]]. apply appendPath_inv; [done|unfold MaxPaths; cbn; lia| |cbn; lia|set_solver|].
    + econstructor; [done|]. constructor.
    + exists item. split; [set_solver|]. intros k1 k2 _ _. cbn. lia.
  - assert (Hoth : forall m, m ∈ sortNodes (elements (comp ∖ {[item]})) <-> m ∈ comp /\ m <> item).
    { intros m. unfold sortNodes. rewrite sort_by_elem, elem_of_elements, elem_of_difference, elem_of_singleton. done. }
    pose proof (cover_fold_spec (sortNodes (elements (comp ∖ {[item]}))) _ H0 (fun m Hm => proj1 (Hoth m) Hm)) as Hfold.
    cbv zeta in Hfold. set (c' := fold_left _ _ _) in *. clearbody c'. destruct Hfold as (Hinv & Hsub & _ & Hall).
    split; [done|]. split.
    + destruct (cv_paths _) as [|p ps] eqn:Hp; [|cbn; lia]. exfalso.
      assert (Hex : exists m, m ∈ comp /\ m <> item).
      { destruct (set_choose_or_empty (comp ∖ {[item]})) as [[m Hm]|Hem];
          [exists m; by apply elem_of_difference in Hm as [? ?%not_elem_of_singleton]|]. exfalso. apply H1.
        rewrite (singleton_of comp item Hi Hem). apply size_singleton. }
      destruct Hex as (m & Hm & Hne). destruct (Hall m) as [Hcov|Hlen]; [by apply Hoth| |by rewrite ?Hp in Hlen].
      apply (ci_nodes _ Hinv) in Hcov as [->|(p & Hpin & _)]; [done|]. rewrite ?Hp in Hpin. by apply not_elem_of_nil in Hpin.
    + intros Hlt n Hn. destruct (decide (n = item)) as [->|Hne]; [apply (ci_nodes _ Hinv); by left|].
      destruct (Hall n) as [Hcov|Hlen]; [by apply Hoth|done|lia].
Qed.

Lemma uncovered_edge_spec c :
  uncovered_edge g comp c = false <-> forall a b, a ∈ comp -> b ∈ comp -> edge g a b -> (a, b) ∈ cv_edges c.
Proof.
  unfold uncovered_edge. split.
  - intros Hf a b Ha Hb He. destruct (decide ((a, b) ∈ cv_edges c)) as [|Hn]; [done|]. exfalso.
    revert Hf. apply not_false_iff_true, existsb_exists. unfold edge, successors in He.
    destruct (g !! a) as [es|] eqn:Hg; [|set_solver]. exists (a, es).
    split; [by apply list_elem_of_In, elem_of_map_to_list|]. cbn. rewrite bool_decide_eq_true_2 by done. cbn.
    apply existsb_exists. exists b. split; [by apply list_elem_of_In|].
    by rewrite bool_decide_eq_true_2, bool_decide_eq_false_2.
  - intros Hall. apply not_true_iff_false. intros (p & Hp & Hb)%existsb_exists. destruct p as [a es]. cbn in Hb.
    apply andb_true_iff in Hb as [Ha%bool_decide_eq_true (b & Hbin & Hb)%existsb_exists].
    apply andb_true_iff in Hb as [Hbc%bool_decide_eq_true Hn%negb_true_iff%bool_decide_eq_false].
    apply Hn, Hall; [done|done|]. unfold edge, successors.
    apply list_elem_of_In, elem_of_map_to_list in Hp. rewrite Hp. by apply list_elem_of_In.
Qed.

Lemma path_edges_in p a b : (a, b) ∈ path_edges p -> a ∈ p.
Proof. unfold path_edges. intros H. by apply elem_of_zip_l in H. Qed.
End cover.

(** ** Results *)

(** The item waits for the blocker. *)
Definition waits (records : list BlockRecord) (a b : Node) : Prop :=
  exists rec, rec ∈ records /\ record_edge rec a b.

Lemma others_elem (X : gset Node) item n : n ∈ sortNodes (elements (X ∖ {[item]})) <-> n ∈ X /\ n <> item.
Proof. unfold sortNodes. by rewrite sort_by_elem, elem_of_elements, elem_of_difference, elem_of_singleton. Qed.

Lemma others_NoDup (X : gset Node) : NoDup (sortNodes (elements X)).
Proof. unfold sortNodes. rewrite <- (sort_by_perm node_le). apply NoDup_elements. Qed.

Section result.
Context (g : Graph) (item : Node).
Notation r := (resultForNode g (reverse_graph g) item).
Notation comp := (component_of g (reverse_graph g) item).

Lemma result_none : ~ tc (edge g) item item -> r = no_cycle.
Proof. intros Hn. unfold resultForNode. by rewrite (proj2 (cycle_guard g item) Hn). Qed.

Lemma result_some : tc (edge g) item item ->
  r = mkResult (item :: sortNodes (elements (comp ∖ {[item]}))) (map (map node_ItemID) (cv_paths (final_cover g item)))
        (negb (bool_decide (comp ⊆ cv_nodes (final_cover g item))) || uncovered_edge g comp (final_cover g item)).
Proof.
  intros Hc. unfold resultForNode.
  assert (Hg : (size comp =? 1)%nat && negb (bool_decide (item ∈ successors g item)) = false).
  { apply not_true_iff_false. intros Ht%cycle_guard. done. }
  by rewrite Hg.
Qed.

Lemma result_affected : tc (edge g) item item ->
  head (Affected r) = Some item /\ NoDup (Affected r) /\
  forall n, n ∈ Affected r <-> rtc (edge g) item n /\ rtc (edge g) n item.
Proof.
  intros Hc. rewrite result_some by done. cbn [Affected]. split; [done|]. split.
  - constructor; [|apply others_NoDup]. by intros [_ ?]%others_elem.
  - intros n. rewrite elem_of_cons, others_elem, <- component_spec. pose proof (component_item g item).
    destruct (decide (n = item)) as [->|]; tauto.
Qed.

Lemma result_paths : tc (edge g) item item ->
  exists ps, Paths r = map (map node_ItemID) ps /\ (1 <= length ps <= MaxPaths)%nat /\
    (forall p, p ∈ ps -> path (edge g) item p item /\ (2 <= length p)%nat /\ tight g item p) /\
    ((length ps < MaxPaths)%nat -> forall n, n ∈ Affected r -> exists p, p ∈ ps /\ n ∈ p) /\
    (MorePaths r = false <->
     forall a b, a ∈ Affected r -> b ∈ Affected r -> edge g a b -> exists p, p ∈ ps /\ (a, b) ∈ path_edges p).
Proof.
  intros Hc. destruct (final_cover_spec g item Hc) as (Hinv & H1 & Hcov).
  assert (Hin : forall n, n ∈ Affected r <-> n ∈ comp).
  { intros n. by rewrite (proj2 (proj2 (result_affected Hc))), component_spec. }
  setoid_rewrite Hin. rewrite result_some by done. cbn [Paths MorePaths]. set (c := final_cover g item) in *. clearbody c.
  exists (cv_paths c). split; [done|]. split; [split; [done|apply Hinv]|]. split.
  { intros p Hp. destruct (ci_paths _ _ _ Hinv p Hp) as (? & ? & _ & ?). done. }
  assert (Hnode : forall n, n ∈ comp -> n ∈ cv_nodes c -> exists p, p ∈ cv_paths c /\ n ∈ p).
  { intros n Hn Hcn. apply (ci_nodes _ _ _ Hinv) in Hcn as [->|]; [|done].
    destruct (cv_paths c) as [|p ps] eqn:Hps; [cbn in H1; lia|]. exists p. split; [left|].
    destruct (ci_paths _ _ _ Hinv p) as (Hp & _); [rewrite Hps; left|]. by eapply path_ends. }
  split; [intros Hlt n Hn; by apply Hnode, (Hcov Hlt)|].
  rewrite orb_false_iff, negb_false_iff, bool_decide_eq_true, uncovered_edge_spec. split.
  - intros [_ He] a b Ha Hb Hab. apply (ci_edges _ _ _ Hinv). by apply He.
  - intros He. split.
    + intros n Hn. destruct (member_edge g item n Hc Hn) as (m & Hm & Hnm).
      destruct (He n m Hn Hm Hnm) as (p & Hp & Hpe). apply (ci_nodes _ _ _ Hinv). right. exists p.
      split; [done|by eapply path_edges_in].
    + intros a b Ha Hb Hab. apply (ci_edges _ _ _ Hinv). by apply He.
Qed.
End result.

(** The relation of the records is that of the graph. *)
Lemma graph_waits records a b : edge (forward_graph records) a b <-> waits records a b.
Proof. apply forward_graph_edge. Qed.

Lemma waits_rtc records a b : rtc (edge (forward_graph records)) a b <-> rtc (waits records) a b.
Proof. split; induction 1; try apply rtc_refl; (eapply rtc_l; [by apply graph_waits|done]). Qed.
Lemma waits_tc records a b : tc (edge (forward_graph records)) a b <-> tc (waits records) a b.
Proof. split; induction 1; [by apply tc_once, graph_waits|eapply tc_l; [by apply graph_waits|done]|by apply tc_once, graph_waits|eapply tc_l; [by apply graph_waits|done]]. Qed.
Lemma waits_nsteps records k a b : nsteps (edge (forward_graph records)) k a b <-> nsteps (waits records) k a b.
Proof. split; induction 1; try constructor; (econstructor; [by apply graph_waits|done]). Qed.
Lemma waits_path records a p b : path (edge (forward_graph records)) a p b -> path (waits records) a p b.
Proof. induction 1; econstructor; [by apply graph_waits|done]. Qed.

Lemma cyclic_repository records n : tc (waits records) n n -> RepositoryEmpty (node_Repository n) = false.
Proof.
  intros Hc. assert (exists m, waits records n m) as (m & rec & _ & He & -> & _); [|done].
  inversion Hc; eauto.
Qed.

Lemma Find_cyclic records n : tc (waits records) n n ->
  Find records n = resultForNode (forward_graph records) (reverse_graph (forward_graph records)) n.
Proof. intros Hc. unfold Find. by rewrite (cyclic_repository records n Hc). Qed.

(** C20: [Find] reports an item exactly when it waits for itself, directly or
    through others, and reports the cycle exactly: the affected items, the seed
    first, are those that wait for it and that it waits for; one to three paths,
    each a closed walk through the item, no longer than any closed walk through
    the item and some member it describes; fewer than three paths together visit
    every member; and [MorePaths] says that some blocking edge between members
    lies on none of the listed paths. *)
Theorem find_reports_the_cycle records item :
  let R := waits records in
  let r := Find records item in
  (Affected r = [] <-> ~ tc R item item) /\
  (tc R item item ->
    head (Affected r) = Some item /\ NoDup (Affected r) /\
    (forall n, n ∈ Affected r <-> rtc R item n /\ rtc R n item) /\
    exists ps, Paths r = map (map node_ItemID) ps /\ (1 <= length ps <= MaxPaths)%nat /\
      (forall p, p ∈ ps -> path R item p item /\ (2 <= length p)%nat /\
         exists m, m ∈ p /\ forall k1 k2, nsteps R k1 item m -> nsteps R (S k2) m item ->
           (length p <= S (k1 + S k2))%nat) /\
      ((length ps < MaxPaths)%nat -> forall n, n ∈ Affected r -> exists p, p ∈ ps /\ n ∈ p) /\
      (MorePaths r = false <->
       forall a b, a ∈ Affected r -> b ∈ Affected r -> R a b -> exists p, p ∈ ps /\ (a, b) ∈ path_edges p)).
Proof.
  cbv zeta. split.
  - split.
    + intros He Hc. rewrite Find_cyclic in He by done.
      destruct (result_affected (forward_graph records) item) as (Hh & _); [by apply waits_tc|]. by rewrite He in Hh.
    + intros Hn. unfold Find. destruct (RepositoryEmpty _); [done|]. cbn.
      rewrite result_none; [done|]. by rewrite waits_tc.
  - intros Hc. rewrite Find_cyclic by done. assert (Hg := proj2 (waits_tc records item item) Hc).
    destruct (result_affected _ _ Hg) as (Hh & Hnd & Ha). split; [done|]. split; [done|].
    split; [intros n; by rewrite Ha, !waits_rtc|].
    destruct (result_paths _ _ Hg) as (ps & Hps & Hlen & Hpath & Hcov & Hmore). exists ps.
    split; [done|]. split; [done|]. split.
    + intros p Hp. destruct (Hpath p Hp) as (H1 & H2 & m & Hm & H3). split; [by apply waits_path|]. split; [done|].
      exists m. split; [done|]. intros k1 k2 Hk1 Hk2. apply H3; by apply waits_nsteps.
    + split; [done|]. rewrite Hmore. by setoid_rewrite graph_waits.
Qed.

Section findall.
Context (g : Graph).
Notation result n := (resultForNode g (reverse_graph g) n).
Definition mutual (a b : Node) : Prop := rtc (edge g) a b /\ rtc (edge g) b a.

Record find_inv (processed : list Node) (seen : gset Node) (cycles : list Result) : Prop := {
  fi_processed n : n ∈ processed -> n ∈ seen;
  fi_cycles r : r ∈ cycles -> exists n, tc (edge g) n n /\ r = result n;
  fi_affected r n : r ∈ cycles -> n ∈ Affected r -> n ∈ seen;
  fi_found n : n ∈ seen -> tc (edge g) n n -> exists r, r ∈ cycles /\ n ∈ Affected r;
  fi_closed n m : n ∈ seen -> mutual n m -> m ∈ seen;
  fi_disjoint i j ri rj n : cycles !! i = Some ri -> cycles !! j = Some rj ->
    n ∈ Affected ri -> n ∈ Affected rj -> i = j
}.

Lemma mutual_alone n m : ~ tc (edge g) n n -> mutual n m -> m = n.
Proof.
  intros Hn [H1 H2]. apply rtc_tc in H1 as [->|H1]; [done|]. exfalso. apply Hn. by eapply tc_rtc_r.
Qed.

Lemma find_step_inv processed seen cycles n :
  find_inv processed seen cycles ->
  let '(seen', cycles') := find_step g (reverse_graph g) (seen, cycles) n in
  find_inv (processed ++ [n]) seen' cycles'.
Proof.
  intros [Hp Hc Ha Hf Hcl Hd]. unfold find_step. case_bool_decide as Hin.
  { split; try done. intros x [Hx|Hx]%elem_of_app; [by apply Hp|]. by apply list_elem_of_singleton in Hx as ->. }
  destruct (on_cycle_dec g n) as [Ht|Ht].
  - destruct (result_affected g n Ht) as (Hh & _ & Haff). set (r := result n) in *.
    assert (Hr : exists rest, Affected r = n :: rest) by (destruct (Affected r) as [|x l]; [done|]; injection Hh as ->; eauto).
    destruct Hr as [rest Hrest]. rewrite Hrest, <- Hrest.
    assert (Hfresh : forall x, x ∈ Affected r -> x ∉ seen).
    { intros x Hx Hs. apply Hin. apply (Hcl x); [done|]. apply Haff in Hx as [? ?]. by split. }
    split.
    + intros x [Hx|Hx]%elem_of_app; [apply elem_of_union_r, Hp, Hx|]. apply list_elem_of_singleton in Hx as ->.
      apply elem_of_union_l, elem_of_list_to_set. rewrite Hrest. left.
    + intros x [Hx|Hx]%elem_of_app; [by apply Hc|]. apply list_elem_of_singleton in Hx as ->. by exists n.
    + intros x m [Hx|Hx]%elem_of_app Hm; [apply elem_of_union_r; by apply (Ha x)|].
      apply list_elem_of_singleton in Hx as ->. by apply elem_of_union_l, elem_of_list_to_set.
    + intros m [Hm%elem_of_list_to_set|Hm]%elem_of_union Hmc; [exists r; split; [set_solver|done]|].
      destruct (Hf m Hm Hmc) as (x & Hx & Hmx). exists x. split; [set_solver|done].
    + intros x m [Hx%elem_of_list_to_set|Hx]%elem_of_union Hmut.
      * apply elem_of_union_l, elem_of_list_to_set, Haff. apply Haff in Hx as [H1 H2]. destruct Hmut as [H3 H4].
        split; by etransitivity.
      * apply elem_of_union_r. by apply (Hcl x).
    + intros i j ri rj m Hi Hj Hmi Hmj.
      assert (Hlook : forall k x, (cycles ++ [r]) !! k = Some x -> cycles !! k = Some x \/ (k = length cycles /\ x = r)).
      { intros k x Hk. apply lookup_snoc_Some in Hk as [[_ Hk]|[-> <-]]; [by left|by right]. }
      assert (Hne : forall k x, cycles !! k = Some x -> m ∈ Affected x -> m ∈ Affected r -> False).
      { intros k x Hk Hmx Hmr. apply (Hfresh m Hmr). apply (Ha x); [|done]. by eapply list_elem_of_lookup_2. }
      apply Hlook in Hi as [Hi|[-> ->]], Hj as [Hj|[-> ->]]; [by eapply Hd|exfalso; by eapply Hne..|done].
  - rewrite result_none by done. cbn [Affected no_cycle]. split; try done.
    + intros x [Hx|Hx]%elem_of_app; [apply elem_of_union_r, Hp, Hx|]. apply list_elem_of_singleton in Hx as ->.
      by apply elem_of_union_l, elem_of_singleton.
    + intros r m Hr Hm. apply elem_of_union_r. by apply (Ha r).
    + intros m [->%elem_of_singleton|Hm]%elem_of_union Hmc; [done|by apply Hf].
    + intros x m [->%elem_of_singleton|Hx]%elem_of_union Hmut.
      * apply elem_of_union_l, elem_of_singleton. by apply mutual_alone.
      * apply elem_of_union_r. by apply (Hcl x).
Qed.

Lemma find_fold_inv nodes : forall processed seen cycles,
  find_inv processed seen cycles ->
  let '(seen', cycles') := fold_left (find_step g (reverse_graph g)) nodes (seen, cycles) in
  find_inv (processed ++ nodes) seen' cycles'.
Proof.
  induction nodes as [|n nodes IH]; intros processed seen cycles Hinv; cbn [fold_left]; [by rewrite app_nil_r|].
  pose proof (find_step_inv processed seen cycles n Hinv) as Hs.
  destruct (find_step g (reverse_graph g) (seen, cycles) n) as [seen1 cycles1].
  specialize (IH _ _ _ Hs). by rewrite <- app_assoc in IH.
Qed.
End findall.

(** [FindAll] enumerates the cycles exactly, once each: every result is what
    [Find] reports of an item on a cycle, every item that waits for itself is in
    exactly one result, and no item in a result is on no cycle. *)
Theorem find_all_partitions_the_cycles records :
  (forall r, r ∈ FindAll records -> exists item, tc (waits records) item item /\ r = Find records item) /\
  (forall n, tc (waits records) n n <-> exists r, r ∈ FindAll records /\ n ∈ Affected r) /\
  (forall i j ri rj n, FindAll records !! i = Some ri -> FindAll records !! j = Some rj ->
     n ∈ Affected ri -> n ∈ Affected rj -> i = j).
Proof.
  set (g := forward_graph records).
  assert (H0 : find_inv g [] ∅ []) by (split; set_solver).
  pose proof (find_fold_inv g (sortNodes (elements (dom g))) [] ∅ [] H0) as Hinv.
  unfold FindAll. cbn [BuildGraph]. fold g. destruct (fold_left _ _ _) as [seen cycles]. cbn [app snd] in *.
  destruct Hinv as [Hp Hc Ha Hf Hcl Hd].
  assert (Hcyc : forall r, r ∈ cycles -> exists item, tc (waits records) item item /\ r = Find records item).
  { intros r Hr. destruct (Hc r Hr) as (n & Hn & ->). apply waits_tc in Hn. exists n. split; [done|].
    by rewrite Find_cyclic. }
  split; [done|]. split; [|done]. intros n. split.
  - intros Hn%waits_tc. apply Hf; [|done]. apply Hp. unfold sortNodes. rewrite sort_by_elem, elem_of_elements.
    assert (exists m, edge g n m) as [m Hm] by (inversion Hn; eauto).
    unfold edge, successors in Hm. apply elem_of_dom. destruct (g !! n) eqn:Hg; [done|set_solver].
  - intros (r & Hr & Hn). destruct (Hc r Hr) as (item & Hi & ->).
    apply (result_affected g item Hi) in Hn as [H1 H2]. apply waits_tc.
    eapply tc_rtc_r; [|exact H1]. by eapply tc_rtc_l.
Qed.

(** ** Identities *)

Definition slash : N := 47.

Fixpoint unescape_segment (bs : list N) : list N :=
  match bs with
  | 37%N :: h :: l :: r => (16 * unhex h + unhex l)%N :: unescape_segment r
  | b :: r => b :: unescape_segment r
  | [] => []
  end.

Lemma unescape_segment_byte c r :
  unescape_segment (escape_segment_byte (N_of_ascii c) ++ r) = N_of_ascii c :: unescape_segment r.
Proof. destruct c as [[] [] [] [] [] [] [] []]; reflexivity. Qed.

Lemma escape_segment_range c : Forall (fun b => (b < 256)%N /\ b <> slash) (escape_segment_byte (N_of_ascii c)).
Proof. destruct c as [[] [] [] [] [] [] [] []]; cbn; repeat constructor; done. Qed.

Lemma bytes_PathEscape s :
  bytes (PathEscape s) = concat (map escape_segment_byte (bytes s)) /\ slash ∉ bytes (PathEscape s).
Proof.
  assert (H : Forall (fun b => (b < 256)%N /\ b <> slash) (concat (map escape_segment_byte (bytes s)))).
  { induction s; cbn [bytes map concat]; [constructor|]. apply Forall_app. split; [apply escape_segment_range | done]. }
  assert (Heq : bytes (PathEscape s) = concat (map escape_segment_byte (bytes s))).
  { apply bytes_of_bytes. eapply Forall_impl; [exact H|]. cbn. tauto. }
  split; [done|]. rewrite Heq. intros Hin. rewrite Forall_forall in H. by destruct (H _ Hin).
Qed.

Lemma PathEscape_inj s t : PathEscape s = PathEscape t -> s = t.
Proof.
  assert (Hun : forall s, unescape_segment (bytes (PathEscape s)) = bytes s).
  { intros u. rewrite (proj1 (bytes_PathEscape u)). induction u as [|c u IH]; [done|].
    cbn [bytes map concat]. by rewrite unescape_segment_byte, IH. }
  intros H. apply bytes_inj. rewrite <- (Hun s), <- (Hun t), H. done.
Qed.

(** Segments without a slash, joined by slashes. *)
Lemma join_inj l l' :
  Forall (fun s => slash ∉ bytes s) l -> Forall (fun s => slash ∉ bytes s) l' -> l <> [] -> l' <> [] ->
  String.concat "/" l = String.concat "/" l' -> l = l'.
Proof.
  assert (Hj : forall s (m : list string), m <> [] -> bytes (String.concat "/" (s :: m)) = bytes s ++ slash :: bytes (String.concat "/" m)).
  { intros s [|x m] Hm; [done|]. cbn [String.concat]. rewrite bytes_app. done. }
  revert l'. induction l as [|s l IH]; intros [|s' l'] H1 H2 Hn Hn' Heq; try done.
  inversion_clear H1 as [|? ? Hs Hl]. inversion_clear H2 as [|? ? Hs' Hl'].
  destruct (decide (l = [])) as [->|Hne], (decide (l' = [])) as [->|Hne'].
  - cbn in Heq. by subst.
  - exfalso. apply Hs. change (String.concat "/" [s]) with s in Heq. rewrite Heq, Hj by done. set_solver.
  - exfalso. apply Hs'. change (String.concat "/" [s']) with s' in Heq. rewrite <- Heq, Hj by done. set_solver.
  - apply (f_equal bytes) in Heq. rewrite !Hj in Heq by done. apply split_at_separator in Heq as [Hb Hr]; [|done..].
    apply bytes_inj in Hb as ->. apply bytes_inj in Hr. f_equal. by apply IH.
Qed.

(** The repository identity, which orders nodes and keys durable records, is
    one per repository: two references have the same identity exactly when they
    agree on provider, owner, project and name, though any of these may hold
    slashes, percent signs or nothing at all. *)
Theorem repository_identity_is_injective r r' :
  RepositoryIdentity r = RepositoryIdentity r' <->
  repo_Provider r = repo_Provider r' /\ repo_Owner r = repo_Owner r' /\
  repo_Project r = repo_Project r' /\ repo_Name r = repo_Name r'.
Proof.
  assert (Hempty : forall r, RepositoryEmpty r = true <->
            repo_Provider r = ""%string /\ repo_Owner r = ""%string /\ repo_Project r = ""%string /\ repo_Name r = ""%string).
  { intros x. unfold RepositoryEmpty. brefl. tauto. }
  split.
  2: { intros (Hp & Ho & Hj & Hn). unfold RepositoryIdentity, RepositoryEmpty. by rewrite Hp, Ho, Hj, Hn. }
  set (parts := fun r => [repo_Provider r; repo_Owner r]
                 ++ (if (repo_Project r =? "")%string then [] else [repo_Project r]) ++ [repo_Name r]).
  assert (Hid : forall r, RepositoryEmpty r = false -> RepositoryIdentity r = String.concat "/" (map PathEscape (parts r))).
  { intros x Hx. unfold RepositoryIdentity. by rewrite Hx. }
  assert (Hslash : forall l : list string, Forall (fun s => slash ∉ bytes s) (map PathEscape l)).
  { intros l. apply Forall_fmap, Forall_true. intros s. apply bytes_PathEscape. }
  assert (Hnz : forall r, RepositoryEmpty r = false -> RepositoryIdentity r <> ""%string).
  { intros x Hx. rewrite Hid by done. unfold parts. cbn [map app String.concat].
    intros Hb%(f_equal bytes). rewrite !bytes_app in Hb. cbn in Hb. by apply app_eq_nil in Hb as [_ ?]. }
  destruct (RepositoryEmpty r) eqn:E, (RepositoryEmpty r') eqn:E'; intros Heq.
  - apply Hempty in E as (-> & -> & -> & ->). apply Hempty in E' as (-> & -> & -> & ->). done.
  - exfalso. apply (Hnz r' E'). rewrite <- Heq. unfold RepositoryIdentity. by rewrite E.
  - exfalso. apply (Hnz r E). rewrite Heq. unfold RepositoryIdentity. by rewrite E'.
  - rewrite !Hid in Heq by done. apply join_inj in Heq; [|apply Hslash|apply Hslash|done|done].
    unfold parts in Heq. destruct (String.eqb_spec (repo_Project r) ""), (String.eqb_spec (repo_Project r') "");
      cbn [map app] in Heq; simplify_eq;
      repeat match goal with H : PathEscape _ = PathEscape _ |- _ => apply PathEscape_inj in H end;
      repeat split; congruence.
Qed.

(** ** An example *)

Module BlockedExample.
Definition repo : RepositoryRef := mkRepo "github" "goobers" "" "core" "" "".
Definition item (id : string) : Node := mkNode repo id.
(** 1 waits for 2, 2 for 1 and 3, 3 for 1; 4 waits for 1 and is on no cycle. *)
Definition records : list BlockRecord :=
  [mkBlock repo "1" ["2"]; mkBlock repo "2" ["1"; "3"; "1"]; mkBlock repo "3" ["1"]; mkBlock repo "4" ["1"]]%string.

Example find_all_example :
  FindAll records = [mkResult [item "1"; item "2"; item "3"] [["1"; "2"; "1"]; ["1"; "2"; "3"; "1"]]%string false].
Proof. vm_compute. reflexivity. Qed.

Lemma waits_1_1 : tc (waits records) (item "1") (item "1").
Proof.
  apply waits_tc. eapply (tc_l _ _ (item "2")); [|apply tc_once]; apply graph_waits.
  - exists (mkBlock repo "1" ["2"%string]). split; [left|]. split; [done|]. split; [done|]. exists "2"%string. split; [left|done].
  - exists (mkBlock repo "2" ["1"; "3"; "1"]%string). split; [right; left|]. split; [done|]. split; [done|]. exists "1"%string. split; [left|done].
Qed.

Lemma find_reports_the_cycle_witness : head (Affected (Find records (item "1"))) = Some (item "1").
Proof.
  exact (proj1 (proj2 (find_reports_the_cycle records (item "1")) waits_1_1)).
Defined.

Lemma find_all_partitions_the_cycles_witness : exists r, r ∈ FindAll records /\ item "1" ∈ Affected r.
Proof.
  exact (proj1 (proj1 (proj2 (find_all_partitions_the_cycles records)) (item "1")) waits_1_1).
Defined.
End BlockedExample.
