(* ===== verification/BlockedComment.v ===== *)
(** * The comments that escalate a blocked cycle

    [internal/blockedcycle/comment.go]: the report of a cycle, its paths
    truncated and its members split over further comments, so that no comment
    exceeds what a provider accepts.  Lengths are byte counts. *)

From stdpp Require Import pretty.
From S2P Require Export BlockedCycle.
Local Open Scope string_scope.
Local Open Scope list_scope.
Local Open Scope Z_scope.

Definition MaxCommentLength : Z := 2000.
Definition pathSeparator : string := " -> ".
Definition len (s : string) : Z := Z.of_nat (String.length s).
Definition issue_ref (n : string) : string := "#" +:+ n.

Definition issueRefList (numbers : list string) : string := String.concat ", " (map issue_ref numbers).
Definition renderPath (numbers : list string) : string := String.concat pathSeparator (map issue_ref numbers).
Definition membersOmitted (count : nat) : string := "[" +:+ pretty count +:+ " cycle members omitted]".

(** [pathLength]: the length of the rendered path, when it fits. *)
Fixpoint path_length (first : bool) (length : Z) (numbers : list string) (maxLength : Z) : option Z :=
  match numbers with
  | [] => Some length
  | number :: numbers' =>
      let addition := 1 + len number + (if first then 0 else len pathSeparator) in
      if maxLength - length <? addition then None
      else path_length false (length + addition) numbers' maxLength
  end.
Definition pathLength (numbers : list string) (maxLength : Z) : option Z := path_length true 0 numbers maxLength.

(** The best truncation so far: how many members of the head it names, whether
    it names the last one, and how many that makes. *)
Record Best := mkBest { best_head : nat; best_tail : bool; best_identified : Z }.

Definition consider (numbers : list string) (maxLength prefixLength : Z) (head : nat) (includeTail : bool)
    (best : Best) : Best :=
  let omitted := (Z.of_nat (length numbers) - Z.of_nat head - (if includeTail then 1 else 0)) in
  let identified := Z.of_nat head + (if includeTail then 1 else 0) in
  if omitted <=? 0 then best
  else
    let length := prefixLength + (if (0 <? head)%nat then len pathSeparator else 0)
                  + len (membersOmitted (Z.to_nat omitted))
                  + (if includeTail then len pathSeparator + 1 + len (default "" (last numbers)) else 0) in
    if (length <=? maxLength)
       && ((best_identified best <? identified)
           || (identified =? best_identified best) && (best_head best <? head)%nat)
    then mkBest head includeTail identified else best.

(** The loop over the heads; [rest] is [numbers] from [head] on. *)
Fixpoint truncate_loop (numbers : list string) (maxLength : Z) (rest : list string) (head : nat) (prefixLength : Z)
    (best : Best) : Best :=
  match rest with
  | [] => best
  | number :: rest' =>
      let best := consider numbers maxLength prefixLength head false best in
      let best := consider numbers maxLength prefixLength head (head <? length numbers - 1)%nat best in
      let prefixLength := prefixLength + 1 + len number + (if (0 <? head)%nat then len pathSeparator else 0) in
      if maxLength <? prefixLength then best
      else truncate_loop numbers maxLength rest' (S head) prefixLength best
  end.

Definition truncatedPath (numbers : list string) (maxLength : Z) : string :=
  if (length numbers =? 0)%nat || (maxLength <=? 0) then ""
  else
    let best := truncate_loop numbers maxLength numbers 0 0 (mkBest 0 false (-1)) in
    if best_identified best <? 0 then ""
    else
      let omitted := (length numbers - best_head best - (if best_tail best then 1 else 0))%nat in
      String.concat pathSeparator
        (map issue_ref (take (best_head best) numbers) ++ [membersOmitted omitted]
         ++ (if best_tail best then [issue_ref (default "" (last numbers))] else [])).

Definition boundedPath (numbers : list string) (maxLength : Z) : string * bool :=
  match pathLength numbers maxLength with
  | Some _ => (renderPath numbers, false)
  | None => (truncatedPath numbers maxLength, true)
  end.

Definition additionalPathsOmitted : string := "additional cycle paths omitted".

Fixpoint summaries_length (first : bool) (total : Z) (paths : list (list string)) (maxLength : Z) : option Z :=
  match paths with
  | [] => Some total
  | path :: paths' =>
      let separatorLength := if first then 0 else 2 in
      match pathLength path (maxLength - total - separatorLength) with
      | None => None
      | Some length => summaries_length false (total + separatorLength + length) paths' maxLength
      end
  end.

Definition completeSummaries (paths : list (list string)) (morePaths : bool) (maxLength : Z) : option string :=
  match summaries_length true 0 paths maxLength with
  | None => None
  | Some total =>
      let separatorLength := if (0 <? length paths)%nat then 2 else 0 in
      if morePaths && (maxLength - total - separatorLength <? len additionalPathsOmitted) then None
      else
        let summaries := String.concat "; " (map renderPath paths) in
        Some (if morePaths then
                (if (0 <? len summaries) then summaries +:+ "; " else summaries) +:+ additionalPathsOmitted
              else summaries)
  end.

(** The loop of [Comment]: the summaries and how many paths they include. *)
Fixpoint summarize (available : Z) (morePaths : bool) (paths : list (list string)) (summaries : string) (included : nat)
    : string * nat :=
  match paths with
  | [] => (summaries, included)
  | path :: paths' =>
      let separatorLength := if 0 <? len summaries then 2 else 0 in
      let reservedNoticeLength :=
        if morePaths || (0 <? length paths')%nat then 2 + len additionalPathsOmitted else 0 in
      let pathBudget := available - len summaries - separatorLength - reservedNoticeLength in
      let '(summary, truncated) := boundedPath path pathBudget in
      if (summary =? "")%string then (summaries, included)
      else
        let summaries := (if 0 <? separatorLength then summaries +:+ "; " else summaries) +:+ summary in
        if truncated then (summaries, S included)
        else summarize available morePaths paths' summaries (S included)
  end.

Definition comment_prefix : string := "Goobers detected circular issue dependencies. Representative cycles: ".
Definition comment_suffix : string :=
  ". Every issue in the cycle has been marked `goobers:needs-human` and removed from `goobers:ready` for human resolution.".

Definition Comment (paths : list (list string)) (morePaths : bool) : string :=
  let available := MaxCommentLength - len comment_prefix - len comment_suffix in
  match completeSummaries paths morePaths available with
  | Some summaries => comment_prefix +:+ summaries +:+ comment_suffix
  | None =>
      let '(summaries, included) := summarize available morePaths paths "" 0 in
      let summaries :=
        if morePaths || (included <? length paths)%nat then
          (if 0 <? len summaries then summaries +:+ "; " else summaries) +:+ additionalPathsOmitted
        else summaries in
      comment_prefix +:+ summaries +:+ comment_suffix
  end.

(** ** The members *)

Definition members_prefix : string := "Affected issues in this dependency cycle: ".

(** The loop over the members: the finished comments and the current one. *)
Fixpoint member_comments (itemIDs : list string) (comments : list string) (current : string) : list string * string :=
  match itemIDs with
  | [] => (comments, current)
  | itemID :: itemIDs' =>
      let separator := if len members_prefix <? len current then ", " else "" in
      let reference := issue_ref itemID in
      if MaxCommentLength <? len current + len separator + len reference + 1
      then member_comments itemIDs' (comments ++ [current +:+ "."]) (members_prefix +:+ reference)
      else member_comments itemIDs' comments (current +:+ separator +:+ reference)
  end.

Definition cycleComments (cycle : Result) : list string :=
  let report := Comment (Paths cycle) (MorePaths cycle) in
  let itemIDs := map node_ItemID (Affected cycle) in
  let memberList := " Affected issues: " +:+ issueRefList itemIDs +:+ "." in
  if len report + len memberList <=? MaxCommentLength then [report +:+ memberList]
  else
    let '(comments, current) := member_comments itemIDs [report] members_prefix in
    if len members_prefix <? len current then comments ++ [current +:+ "."] else comments.

(** ** Unverified members *)

(** The three bytes of the ellipsis. *)
Definition ellipsis : string := of_bytes [226; 128; 166]%N.

Definition unverifiedComment (notes : list string) : string :=
  let text :=
    "Some issues in this cycle could not be checked against the provider before escalating, so one of them may already be closed: "
    +:+ String.concat "; " notes +:+ ". If the cycle is not real, remove the needs-human label." in
  if MaxCommentLength <? len text
  then String.substring 0 (Z.to_nat (MaxCommentLength - 1)) text +:+ ellipsis
  else text.

(** [Comments], with the notes on unverified members. *)
Definition Comments (cycle : Result) (unverified : list string) : list string :=
  cycleComments cycle ++ (if (0 <? length unverified)%nat then [unverifiedComment unverified] else []).
