(* ===== verification/BlockedCommentProps.v ===== *)
(** * Bounds of the escalation comments

    Every comment of a cycle report fits the provider's limit and together the
    comments name every member; the comment on unverified members does not fit. *)

From S2P Require Export BlockedComment BlockedCycleProps.
Local Open Scope string_scope.
Local Open Scope list_scope.
Local Open Scope Z_scope.

(** ** Lengths *)

Lemma len_app a b : len (a +:+ b) = len a + len b.
Proof. unfold len. induction a as [|c a IH]; [done|]. simpl. lia. Qed.
Lemma len_nonneg a : 0 <= len a.
Proof. unfold len. lia. Qed.
Lemma len_zero a : len a <= 0 -> a = "".
Proof. unfold len. destruct a; cbn; [done|lia]. Qed.
Lemma len_ref n : len (issue_ref n) = 1 + len n.
Proof. unfold issue_ref. rewrite len_app. done. Qed.

Lemma join_cons sep s l : l <> [] -> String.concat sep (s :: l) = s +:+ sep +:+ String.concat sep l.
Proof. by destruct l. Qed.

Lemma len_join_app sep l l' : l <> [] -> l' <> [] ->
  len (String.concat sep (l ++ l')) = len (String.concat sep l) + len sep + len (String.concat sep l').
Proof.
  intros Hl Hl'. induction l as [|s l IH]; [done|]. cbn [app]. destruct (decide (l = [])) as [->|Hne].
  - cbn [app]. rewrite join_cons, !len_app by done. cbn [String.concat]. lia.
  - rewrite !join_cons by (done || by destruct l). rewrite !len_app, IH by done. lia.
Qed.

(** The length the loops count for members after the first. *)
Definition tail_len (numbers : list string) : Z :=
  fold_right (fun n acc => len pathSeparator + 1 + len n + acc) 0 numbers.

Lemma tail_len_nonneg numbers : 0 <= tail_len numbers.
Proof.
  induction numbers as [|n l IH]; [done|]. cbn [tail_len fold_right]. fold (tail_len l).
  pose proof (len_nonneg n). pose proof (len_nonneg pathSeparator). lia.
Qed.

Lemma len_renderPath n numbers : len (renderPath (n :: numbers)) = 1 + len n + tail_len numbers.
Proof.
  unfold renderPath. revert n. induction numbers as [|m numbers IH]; intros n.
  - cbn [map String.concat tail_len fold_right]. rewrite len_ref. lia.
  - cbn [map] in *. rewrite join_cons, !len_app, len_ref, IH by done. cbn [tail_len fold_right]. fold (tail_len numbers). lia.
Qed.

Lemma path_length_tail numbers : forall l m n,
  path_length false l numbers m = Some n -> l <= m -> n = l + tail_len numbers /\ n <= m.
Proof.
  induction numbers as [|x numbers IH]; intros l m n; cbn [path_length tail_len fold_right].
  { intros [= <-] Hl. split; lia. }
  destruct (Z.ltb_spec (m - l) (1 + len x + len pathSeparator)) as [|Hge]; [done|]. intros H Hl. fold (tail_len numbers).
  apply IH in H as [-> Hm]; [|lia]. split; lia.
Qed.

Lemma pathLength_spec numbers m n : pathLength numbers m = Some n -> numbers <> [] ->
  n = len (renderPath numbers) /\ n <= m.
Proof.
  destruct numbers as [|x numbers]; [done|]. intros H _. unfold pathLength in H. cbn [path_length] in H.
  destruct (Z.ltb_spec (m - 0) (1 + len x + 0)) as [|Hge]; [done|].
  apply path_length_tail in H as [-> Hm]; [|lia]. rewrite len_renderPath. split; lia.
Qed.

(** ** Truncated paths *)

Section truncated.
Context (numbers : list string) (maxLength : Z).

(** The path a truncation renders. *)
Definition truncation (head : nat) (tail : bool) : string :=
  String.concat pathSeparator
    (map issue_ref (take head numbers)
     ++ [membersOmitted (length numbers - head - (if tail then 1 else 0))]
     ++ (if tail then [issue_ref (default "" (last numbers))] else [])).

Lemma len_truncation head tail : (head <= length numbers)%nat ->
  len (truncation head tail) =
    len (renderPath (take head numbers)) + (if (0 <? head)%nat then len pathSeparator else 0)
    + len (membersOmitted (length numbers - head - (if tail then 1 else 0)))
    + (if tail then len pathSeparator + 1 + len (default "" (last numbers)) else 0).
Proof.
  intros Hh. unfold truncation. set (mid := membersOmitted _). set (lst := issue_ref (default "" (last numbers))).
  assert (Hlast : len lst = 1 + len (default "" (last numbers))) by apply len_ref.
  assert (Hrest : len (String.concat pathSeparator ([mid] ++ (if tail then [lst] else []))) =
            len mid + (if tail then len pathSeparator + 1 + len (default "" (last numbers)) else 0)).
  { destruct tail; cbn [app].
    - rewrite join_cons, !len_app by done. cbn [String.concat]. lia.
    - cbn [String.concat]. lia. }
  destruct head as [|head].
  - rewrite take_0. cbn [map]. rewrite app_nil_l, Hrest. change (len (renderPath [])) with 0. cbn [Nat.ltb Nat.leb]. lia.
  - rewrite len_join_app; [|destruct numbers; cbn in *; [lia|done]|done]. rewrite Hrest. unfold renderPath. cbn [Nat.ltb Nat.leb]. lia.
Qed.

Definition fits (b : Best) : Prop :=
  best_identified b < 0 \/ len (truncation (best_head b) (best_tail b)) <= maxLength.

Lemma consider_fits prefixLength head tail b :
  (head < length numbers)%nat -> prefixLength = len (renderPath (take head numbers)) -> fits b ->
  fits (consider numbers maxLength prefixLength head tail b).
Proof.
  intros Hh -> Hb. unfold consider. destruct (Z.leb_spec (Z.of_nat (length numbers) - Z.of_nat head - (if tail then 1 else 0)) 0) as [|Ho]; [done|].
  replace (Z.to_nat _) with (length numbers - head - (if tail then 1 else 0))%nat by (destruct tail; lia).
  rewrite <- len_truncation by lia.
  destruct (Z.leb_spec (len (truncation head tail)) maxLength) as [Hle|]; cbn [andb]; [|done].
  destruct (_ || _); [|done]. right. done.
Qed.

Lemma renderPath_snoc l x : len (renderPath (l ++ [x])) =
  len (renderPath l) + 1 + len x + (if (0 <? length l)%nat then len pathSeparator else 0).
Proof.
  unfold renderPath. rewrite map_app. destruct l as [|y l].
  - cbn [map app String.concat length Nat.ltb Nat.leb]. rewrite len_ref. change (len "") with 0. lia.
  - rewrite len_join_app by done. cbn [map String.concat]. rewrite len_ref. cbn [length Nat.ltb Nat.leb]. lia.
Qed.

Lemma truncate_loop_fits rest : forall head prefixLength b,
  numbers = take head numbers ++ rest -> (head <= length numbers)%nat ->
  prefixLength = len (renderPath (take head numbers)) -> fits b ->
  fits (truncate_loop numbers maxLength rest head prefixLength b).
Proof.
  induction rest as [|x rest IH]; intros head pl b Hn Hh Hp Hb; cbn [truncate_loop]; [done|].
  assert (Hlen : length numbers = (head + S (length rest))%nat).
  { rewrite Hn, length_app, length_take. cbn. lia. }
  assert (Hb' : fits (consider numbers maxLength pl head (head <? length numbers - 1)%nat
                   (consider numbers maxLength pl head false b))).
  { apply consider_fits; [lia|done|]. apply consider_fits; [lia|done|done]. }
  destruct (_ <? _); [done|].
  assert (Htake : take (S head) numbers = take head numbers ++ [x]).
  { rewrite Hn at 1. rewrite take_app_ge by (rewrite length_take; lia).
    rewrite length_take, Nat.min_l by lia. replace (S head - head)%nat with 1%nat by lia. done. }
  apply IH; [by rewrite Htake, <- app_assoc|lia| |done].
  rewrite Htake, renderPath_snoc, length_take, Nat.min_l by lia. lia.
Qed.

Lemma truncatedPath_fits : truncatedPath numbers maxLength = "" \/ len (truncatedPath numbers maxLength) <= maxLength.
Proof.
  unfold truncatedPath. destruct (_ || _) eqn:E; [by left|]. apply orb_false_iff in E as [E1 E2].
  pose proof (truncate_loop_fits numbers 0 0 (mkBest 0 false (-1))) as Hf. set (b := truncate_loop _ _ _ _ _ _) in *.
  assert (Hb : fits b). { apply Hf; [done|lia|done|]. left. done. }
  destruct (Z.ltb_spec (best_identified b) 0); [by left|]. right. destruct Hb as [|Hb]; [lia|]. exact Hb.
Qed.
End truncated.

Lemma boundedPath_fits path m summary truncated : path <> [] -> boundedPath path m = (summary, truncated) ->
  summary = "" \/ len summary <= m.
Proof.
  intros Hne. unfold boundedPath. destruct (pathLength path m) as [n|] eqn:Hp; intros [= <- <-].
  - right. apply pathLength_spec in Hp as [<- ?]; done.
  - apply truncatedPath_fits.
Qed.

(** ** The report *)

Definition notice : Z := 2 + len additionalPathsOmitted.

(** Non-empty paths, joined. *)
Definition joined_len (paths : list (list string)) : Z :=
  fold_right (fun p acc => 2 + len (renderPath p) + acc) 0 paths.

Lemma len_join_paths p paths :
  len (String.concat "; " (map renderPath (p :: paths))) = len (renderPath p) + joined_len paths.
Proof.
  revert p. induction paths as [|q paths IH]; intros p.
  - cbn [map String.concat joined_len fold_right]. lia.
  - cbn [map] in *. rewrite join_cons, !len_app, IH by done. cbn [joined_len fold_right].
    fold (joined_len paths). change (len "; ") with 2. lia.
Qed.

Lemma renderPath_pos p : p <> [] -> 0 < len (renderPath p).
Proof.
  destruct p as [|n p]; [done|]. intros _. rewrite len_renderPath.
  pose proof (len_nonneg n). pose proof (tail_len_nonneg p). lia.
Qed.

Lemma summaries_length_tail paths : forall total m n, Forall (fun p => p <> []) paths ->
  summaries_length false total paths m = Some n -> total <= m -> n = total + joined_len paths /\ n <= m.
Proof.
  induction paths as [|p paths IH]; intros total m n Hne; cbn [summaries_length joined_len fold_right].
  { intros [= <-] Hl. split; lia. }
  inversion_clear Hne as [|? ? Hp Hne']. destruct (pathLength p (m - total - 2)) as [l|] eqn:Hpl; [|done].
  apply pathLength_spec in Hpl as [-> Hl]; [|done]. intros H _. apply IH in H as [-> Hm]; [|done|lia].
  fold (joined_len paths). split; lia.
Qed.

Lemma completeSummaries_fits paths morePaths m s : Forall (fun p => p <> []) paths -> 0 <= m ->
  completeSummaries paths morePaths m = Some s -> len s <= m.
Proof.
  intros Hne Hm. unfold completeSummaries. destruct (summaries_length true 0 paths m) as [total|] eqn:Ht; [|done].
  assert (Htot : total = len (String.concat "; " (map renderPath paths)) /\ total <= m).
  { destruct paths as [|p paths]; [cbn in Ht; injection Ht as <-; done|]. inversion_clear Hne as [|? ? Hp Hne'].
    cbn [summaries_length] in Ht. destruct (pathLength p (m - 0 - 0)) as [l|] eqn:Hpl; [|done].
    apply pathLength_spec in Hpl as [-> Hl]; [|done]. apply summaries_length_tail in Ht as [-> Hm']; [|done|lia].
    rewrite len_join_paths. split; lia. }
  destruct Htot as [-> Hle]. set (j := String.concat "; " (map renderPath paths)) in *.
  destruct morePaths; cbn [andb].
  2: { by intros [= <-]. }
  destruct (Z.ltb_spec (m - len j - (if (0 <? length paths)%nat then 2 else 0)) (len additionalPathsOmitted)) as [|Hge]; [done|].
  intros [= <-]. destruct (Z.ltb_spec 0 (len j)) as [Hj|Hj]; rewrite !len_app; change (len "; ") with 2.
  - destruct paths; [by cbn in Hj|]. cbn [length Nat.ltb Nat.leb] in Hge. lia.
  - pose proof (len_nonneg j). destruct (0 <? length paths)%nat; lia.
Qed.

Lemma summarize_fits available morePaths : forall paths s inc s' inc',
  Forall (fun p => p <> []) paths ->
  (s = "" \/ len s + (if morePaths || (0 <? length paths)%nat then notice else 0) <= available) -> 0 <= available ->
  summarize available morePaths paths s inc = (s', inc') ->
  (inc <= inc' <= inc + length paths)%nat /\
  (s' = "" \/ len s' + (if morePaths || (inc' <? inc + length paths)%nat then notice else 0) <= available).
Proof.
  induction paths as [|p paths IH]; intros s inc s' inc' Hne Hs Ha; cbn [summarize].
  { intros [= <- <-]. cbn [length]. rewrite Nat.add_0_r, Nat.ltb_irrefl. cbn in Hs. split; [lia|done]. }
  inversion_clear Hne as [|? ? Hp Hne']. set (sep := if 0 <? len s then 2 else 0).
  set (reserved := if morePaths || (0 <? length paths)%nat then 2 + len additionalPathsOmitted else 0).
  destruct (boundedPath p _) as [summary truncated] eqn:Hb. apply boundedPath_fits in Hb; [|done].
  destruct (String.eqb_spec summary "") as [->|Hsum].
  { intros [= <- <-]. split; [lia|]. destruct Hs as [Hs|Hs]; [by left|right].
    cbn [length Nat.ltb Nat.leb] in Hs. rewrite orb_true_r in Hs. cbn [length].
    replace (inc <? inc + S (length paths))%nat with true by (symmetry; apply Nat.ltb_lt; lia). by destruct morePaths. }
  destruct Hb as [|Hb]; [done|]. set (s1 := (if 0 <? sep then s +:+ "; " else s) +:+ summary).
  assert (Hs1 : len s1 + reserved <= available).
  { unfold s1. destruct (Z.ltb_spec 0 sep) as [Hsep|Hsep]; rewrite !len_app; [change (len "; ") with 2|];
      unfold sep in *; destruct (Z.ltb_spec 0 (len s)); lia. }
  assert (Hres : reserved = if morePaths || (0 <? length paths)%nat then notice else 0) by done.
  destruct truncated.
  - intros [= <- <-]. cbn [length]. split; [lia|]. right. rewrite Hres in Hs1.
    replace (S inc <? inc + S (length paths))%nat with (0 <? length paths)%nat; [done|].
    destruct (Nat.ltb_spec 0 (length paths)), (Nat.ltb_spec (S inc) (inc + S (length paths))); lia.
  - intros H. destruct (IH s1 (S inc) s' inc' Hne') as [H1 H2]; [right; by rewrite <- Hres|done|done|].
    cbn [length]. split; [lia|]. by replace (inc + S (length paths))%nat with (S inc + length paths)%nat by lia.
Qed.

Lemma Comment_fits paths morePaths : Forall (fun p => p <> []) paths -> len (Comment paths morePaths) <= MaxCommentLength.
Proof.
  intros Hne. unfold Comment. set (available := MaxCommentLength - len comment_prefix - len comment_suffix).
  assert (Hav : notice <= available) by (vm_compute; discriminate).
  assert (Hn : 2 <= notice) by (vm_compute; discriminate).
  assert (Hgoal : forall s, len s <= available -> len (comment_prefix +:+ s +:+ comment_suffix) <= MaxCommentLength).
  { intros s Hs. rewrite !len_app. unfold available in Hs. lia. }
  destruct (completeSummaries paths morePaths available) as [s|] eqn:Hc.
  { apply Hgoal. eapply completeSummaries_fits; [done| |exact Hc]. lia. }
  destruct (summarize available morePaths paths "" 0) as [s inc] eqn:Hs.
  apply summarize_fits in Hs as [_ Hs]; [|done|by left|lia]. apply Hgoal. cbn [Nat.add] in Hs.
  destruct (morePaths || (inc <? length paths)%nat).
  - destruct Hs as [->|Hs].
    { change (0 <? len "") with false. cbv iota. rewrite len_app. change (len "") with 0. unfold notice in Hav. lia. }
    destruct (0 <? len s); rewrite !len_app; [change (len "; ") with 2|]; unfold notice in Hs; lia.
  - destruct Hs as [->|Hs]; [change (len "") with 0; lia|lia].
Qed.

(** ** The members *)

Definition mentions (comment s : string) : Prop := exists a b, comment = a +:+ s +:+ b.

Lemma string_app_assoc a b c : (a +:+ b) +:+ c = a +:+ (b +:+ c).
Proof. apply bytes_inj. by rewrite !bytes_app, app_assoc. Qed.
Lemma string_app_nil a : a +:+ "" = a.
Proof. apply bytes_inj. rewrite bytes_app. apply app_nil_r. Qed.

Lemma mentions_l a b s : mentions a s -> mentions (a +:+ b) s.
Proof. intros (x & y & ->). exists x, (y +:+ b). by rewrite !string_app_assoc. Qed.
Lemma mentions_r a b s : mentions b s -> mentions (a +:+ b) s.
Proof. intros (x & y & ->). exists (a +:+ x), y. by rewrite !string_app_assoc. Qed.
Lemma mentions_self s : mentions s s.
Proof. exists "", "". by rewrite string_app_nil. Qed.

Lemma mentions_join sep l s : s ∈ l -> mentions (String.concat sep l) s.
Proof.
  induction l as [|x l IH]; [by intros ?%not_elem_of_nil|].
  destruct (decide (l = [])) as [->|Hne]; [intros ->%list_elem_of_singleton; apply mentions_self|].
  rewrite join_cons by done. intros [->|Hs]%elem_of_cons; [apply mentions_l, mentions_self|by do 2 apply mentions_r; apply IH].
Qed.

(** An item id that fits a comment of its own. *)
Definition id_fits (id : string) : Prop := len members_prefix + len id + 2 <= MaxCommentLength.

Lemma member_comments_spec ids : forall comments current comments' current',
  Forall id_fits ids -> len members_prefix <= len current -> len current + 1 <= MaxCommentLength ->
  Forall (fun c => len c <= MaxCommentLength) comments ->
  member_comments ids comments current = (comments', current') ->
  Forall (fun c => len c <= MaxCommentLength) comments' /\ len current' + 1 <= MaxCommentLength /\
  (ids <> [] \/ len members_prefix < len current -> len members_prefix < len current') /\
  (forall s, (exists c, c ∈ comments ++ [current] /\ mentions c s) \/ (exists id, id ∈ ids /\ s = issue_ref id) ->
     exists c, c ∈ comments' ++ [current'] /\ mentions c s).
Proof.
  induction ids as [|id ids IH]; intros comments current comments' current' Hids Hlow Hcur Hcom; cbn [member_comments].
  { intros [= <- <-]. split; [done|]. split; [done|]. split; [naive_solver|]. intros s [Hs|(id & Hid & _)]; [done|].
    by apply not_elem_of_nil in Hid. }
  inversion_clear Hids as [|? ? Hid Hids']. unfold id_fits in Hid. set (sep := if _ <? _ then ", " else "").
  destruct (Z.ltb_spec MaxCommentLength (len current + len sep + len (issue_ref id) + 1)) as [Hover|Hfit]; intros H.
  - apply IH in H as (H1 & H2 & H3 & H4); [|done|rewrite len_app; pose proof (len_nonneg (issue_ref id)); lia|rewrite len_app, len_ref; lia|].
    2: { apply Forall_app. split; [done|]. constructor; [rewrite len_app; change (len ".") with 1; lia|constructor]. }
    split; [done|]. split; [done|]. split; [intros _; apply H3; right; rewrite len_app, len_ref; pose proof (len_nonneg id); lia|].
    intros s [(c & Hc & Hm)|(x & Hx & ->)]; apply H4.
    + left. apply elem_of_app in Hc as [Hc|Hc]; [exists c; split; [set_solver|done]|].
      apply list_elem_of_singleton in Hc as ->. exists (current +:+ "."). split; [set_solver|by apply mentions_l].
    + apply elem_of_cons in Hx as [->|Hx]; [left|right; by exists x].
      exists (members_prefix +:+ issue_ref id). split; [set_solver|apply mentions_r, mentions_self].
  - pose proof (len_nonneg id) as Hl1. pose proof (len_nonneg sep) as Hl2. pose proof (len_ref id) as Hl3.
    apply IH in H as (H1 & H2 & H3 & H4); [|done|rewrite !len_app; lia|rewrite !len_app; lia|done].
    split; [done|]. split; [done|]. split; [intros _; apply H3; right; rewrite !len_app; lia|].
    intros s [(c & Hc & Hm)|(x & Hx & ->)]; apply H4.
    + left. apply elem_of_app in Hc as [Hc|Hc]; [exists c; split; [set_solver|done]|].
      apply list_elem_of_singleton in Hc as ->. eexists. split; [apply elem_of_app; right; left|by apply mentions_l].
    + apply elem_of_cons in Hx as [->|Hx]; [left|right; by exists x].
      eexists. split; [apply elem_of_app; right; left|]. do 2 apply mentions_r. apply mentions_self.
Qed.

Lemma cycleComments_spec cycle :
  Forall (fun p => p <> []) (Paths cycle) -> Forall (fun n => id_fits (node_ItemID n)) (Affected cycle) ->
  Forall (fun c => len c <= MaxCommentLength) (cycleComments cycle) /\
  forall n, n ∈ Affected cycle -> exists c, c ∈ cycleComments cycle /\ mentions c (issue_ref (node_ItemID n)).
Proof.
  intros Hp Hids. pose proof (Comment_fits _ (MorePaths cycle) Hp) as Hrep. unfold cycleComments.
  set (report := Comment _ _) in *. set (ids := map node_ItemID (Affected cycle)).
  assert (Hid : forall n, n ∈ Affected cycle -> node_ItemID n ∈ ids) by (intros n Hn; by apply list_elem_of_fmap_2).
  destruct (Z.leb_spec (len report + len (" Affected issues: " +:+ issueRefList ids +:+ ".")) MaxCommentLength) as [Hle|Hgt].
  - split; [constructor; [rewrite len_app; lia|constructor]|]. intros n Hn%Hid. eexists. split; [left|].
    apply mentions_r, mentions_r, mentions_l, mentions_join. by apply list_elem_of_fmap_2.
  - destruct (member_comments ids [report] members_prefix) as [comments current] eqn:Hm.
    apply member_comments_spec in Hm as (H1 & H2 & H3 & H4);
      [|by apply Forall_fmap|lia|vm_compute; discriminate|by constructor].
    destruct (Z.ltb_spec (len members_prefix) (len current)) as [Hlt|Hge].
    + split; [apply Forall_app; split; [done|]; constructor; [rewrite len_app; change (len ".") with 1; lia|constructor]|].
      intros n Hn%Hid. destruct (H4 (issue_ref (node_ItemID n))) as (c & Hc & Hmc); [right; by eexists|].
      apply elem_of_app in Hc as [Hc|Hc]; [exists c; split; [set_solver|done]|].
      apply list_elem_of_singleton in Hc as ->. eexists. split; [apply elem_of_app; right; left|by apply mentions_l].
    + split; [done|]. intros n Hn%Hid. exfalso.
      assert (len members_prefix < len current); [|lia]. apply H3. left. intros He. rewrite He in Hn. by apply not_elem_of_nil in Hn.
Qed.

Lemma Find_paths records item : Forall (fun p => p <> []) (Paths (Find records item)).
Proof.
  unfold Find. destruct (RepositoryEmpty _); [constructor|]. cbn [BuildGraph].
  destruct (on_cycle_dec (forward_graph records) item) as [Hc|Hc]; [|rewrite result_none by done; constructor].
  destruct (result_paths _ _ Hc) as (ps & -> & _ & Hps & _). apply Forall_fmap, Forall_forall. intros p Hp.
  destruct (Hps p Hp) as (_ & Hl & _). by destruct p; cbn in *; [lia|].
Qed.

(** The comments that report a cycle fit the provider's limit and hide no
    member: each is at most 2000 bytes long, whatever the number and length of
    the paths, and every affected item is named in one of them, as long as an
    item id alone fits a comment. *)
Theorem cycle_comments_fit records item :
  let cycle := Find records item in
  Forall (fun n => len members_prefix + len (node_ItemID n) + 2 <= MaxCommentLength) (Affected cycle) ->
  Forall (fun c => len c <= MaxCommentLength) (cycleComments cycle) /\
  forall n, n ∈ Affected cycle -> exists c, c ∈ cycleComments cycle /\ mentions c (issue_ref (node_ItemID n)).
Proof. intros cycle Hids. apply cycleComments_spec; [apply Find_paths|done]. Qed.

(** The comment on unverified members exceeds the limit it is cut to: the
    ellipsis that replaces its last byte is three bytes long. *)
Theorem unverified_comment_exceeds_limit notes :
  MaxCommentLength < len (String.concat "; " notes) -> len (unverifiedComment notes) = MaxCommentLength + 2.
Proof.
  intros Hlong. unfold unverifiedComment. set (text := _ +:+ _).
  assert (Ht : MaxCommentLength < len text).
  { unfold text. rewrite !len_app. set (a := len (String _ _)). pose proof (len_nonneg ". If the cycle is not real, remove the needs-human label.").
    assert (0 <= a) by apply len_nonneg. lia. }
  rewrite (proj2 (Z.ltb_lt _ _) Ht), len_app. change (len ellipsis) with 3.
  assert (Hsub : forall n s, Z.of_nat n <= len s -> len (String.substring 0 n s) = Z.of_nat n).
  { intros n. induction n as [|n IH]; intros s Hn; [by destruct s|].
    destruct s as [|c s]; [unfold len in Hn; cbn in Hn; lia|]. unfold len in *. cbn [String.substring String.length] in *. specialize (IH s). lia. }
  unfold MaxCommentLength in *. rewrite Hsub by lia. lia.
Qed.

Module CommentExample.
Import BlockedExample.

Lemma cycle_comments_fit_witness :
  exists c, c ∈ cycleComments (Find records (item "1")) /\ mentions c "#3".
Proof.
  refine (proj2 (cycle_comments_fit records (item "1") _) (item "3") _).
  - vm_compute. repeat constructor; discriminate.
  - vm_compute. right. right. left.
Defined.

Lemma unverified_comment_exceeds_limit_witness :
  len (unverifiedComment [String.concat "" (repeat "#7: rate limited" 200)]) = 2002.
Proof. apply (unverified_comment_exceeds_limit [String.concat "" (repeat "#7: rate limited" 200)]). reflexivity. Defined.
End CommentExample.
