(* ===== verification/GoText.v ===== *)
(** * String operations of the Go standard library

    The functions of [strings], [strconv] and [regexp] that the gate's finding
    rules use.  [strings.ToLower], whose Unicode tables are not modelled, is the
    class [LowerCase]. *)

From S2P Require Export GoStrings.
Local Open Scope string_scope.
Local Open Scope list_scope.

Class LowerCase := ToLower : string -> string.

(** [strings.Contains]. *)
Definition Contains (s sub : string) : bool :=
  match String.index 0 sub s with Some _ => true | None => false end.
Definition HasSuffix (s p : string) : bool :=
  (String.length p <=? String.length s)%nat
  && (String.substring (String.length s - String.length p) (String.length p) s =? p).
(** [strings.CutSuffix]. *)
Definition CutSuffix (s p : string) : option string :=
  if HasSuffix s p then Some (String.substring 0 (String.length s - String.length p) s) else None.
Definition TrimSpace (s : string) : string := of_bytes (TrimSpaceBytes (bytes s)).

(** [strings.Split(s, c)] for a single byte. *)
Fixpoint Split (c : ascii) (s : string) : list string :=
  match s with
  | EmptyString => [""]
  | String b s' =>
      match Split c s' with
      | [] => []
      | f :: fs => if (b =? c)%char then "" :: f :: fs else String b f :: fs
      end
  end.

(** [strings.IndexByte] and [strings.LastIndexByte]. *)
Fixpoint IndexChar (c : ascii) (s : string) : option nat :=
  match s with
  | EmptyString => None
  | String b s' => if (b =? c)%char then Some O else S <$> IndexChar c s'
  end.
Fixpoint LastIndexChar (c : ascii) (s : string) : option nat :=
  match s with
  | EmptyString => None
  | String b s' =>
      match LastIndexChar c s' with
      | Some i => Some (S i)
      | None => if (b =? c)%char then Some O else None
      end
  end.
(** [s[i:]]. *)
Definition from (i : nat) (s : string) : string := String.substring i (String.length s - i) s.
Definition upto (i : nat) (s : string) : string := String.substring 0 i s.

(** Digits. *)
Definition digit (c : ascii) : option Z :=
  let n := Z.of_N (N_of_ascii c) in if (48 <=? n)%Z && (n <=? 57)%Z then Some (n - 48)%Z else None.
Definition is_digit (c : ascii) : bool := match digit c with Some _ => true | None => false end.
Fixpoint digits (acc : Z) (s : string) : option Z :=
  match s with
  | EmptyString => Some acc
  | String c s' => match digit c with Some d => digits (10 * acc + d)%Z s' | None => None end
  end.
Definition unsigned (s : string) : option Z := match s with EmptyString => None | _ => digits 0 s end.

(** [strconv.Atoi] on a 64-bit platform: an optional sign, digits, in range. *)
Definition Atoi (s : string) : option Z :=
  let value :=
    match s with
    | String "-" r => Z.opp <$> unsigned r
    | String "+" r => unsigned r
    | _ => unsigned s
    end in
  match value with
  | Some z => if (- 2 ^ 63 <=? z)%Z && (z <? 2 ^ 63)%Z then Some z else None
  | None => None
  end.

(** The longest prefix of digits, and the rest. *)
Fixpoint span_digits (s : string) : string * string :=
  match s with
  | String c s' => if is_digit c then let '(d, r) := span_digits s' in (String c d, r) else ("", s)
  | EmptyString => ("", "")
  end.

(** [digitRun.ReplaceAllString(s, "#")]: each run of digits becomes one mark. *)
Fixpoint hash_digits (in_run : bool) (s : string) : string :=
  match s with
  | EmptyString => ""
  | String c s' =>
      if is_digit c then if in_run then hash_digits true s' else String "#" (hash_digits true s')
      else String c (hash_digits false s')
  end.

(** One trailing [:digits] group. *)
Definition strip_group (s : string) : option string :=
  match LastIndexChar ":" s with
  | Some i => match unsigned (from (S i) s) with Some _ => Some (upto i s) | None => None end
  | None => None
  end.
(** [trailingLocation.ReplaceAllString(s, "")]: at most two trailing groups. *)
Definition strip_location (s : string) : string :=
  match strip_group s with
  | Some s1 => match strip_group s1 with Some s2 => s2 | None => s1 end
  | None => s
  end.

(** [strings.Fields]: the maximal runs of bytes that are not white space. *)
Fixpoint fields_bytes (cur : list N) (bs : list N) : list (list N) :=
  let flush (rest : list (list N)) := match cur with [] => rest | _ => rev cur :: rest end in
  match bs with
  | [] => flush []
  | b0 :: r0 =>
      if ascii_space b0 then flush (fields_bytes [] r0)
      else match r0 with
      | [] => fields_bytes (b0 :: cur) r0
      | b1 :: r1 =>
          if space2 b0 b1 then flush (fields_bytes [] r1)
          else match r1 with
          | [] => fields_bytes (b0 :: cur) r0
          | b2 :: r2 => if space3 b0 b1 b2 then flush (fields_bytes [] r2) else fields_bytes (b0 :: cur) r0
          end
      end
  end.
Definition Fields (s : string) : list string := map of_bytes (fields_bytes [] (bytes s)).

(** [strings.ReplaceAll(s, c, d)] for single bytes. *)
Fixpoint replace_char (c d : ascii) (s : string) : string :=
  match s with
  | EmptyString => ""
  | String b s' => String (if (b =? c)%char then d else b) (replace_char c d s')
  end.

(** ** Facts *)

Lemma Atoi_range s z : Atoi s = Some z -> (- 2 ^ 63 <= z < 2 ^ 63)%Z.
Proof.
  unfold Atoi. intros H. case_match; [|done]. case_match eqn:E; [|done]. simplify_eq.
  apply andb_true_iff in E as [H1%Z.leb_le H2%Z.ltb_lt]. lia.
Qed.
