(* ===== verification/GateFindings.v ===== *)
(** * Reviewer findings: [internal/gate], [internal/learning]

    What happens to the findings of a reviewer's verdict before it is routed:
    identities are carried over from the episodes of earlier repasses
    ([learningfindings.go]), findings the reviewed patch disproves are removed
    ([reviewfindingevidence.go]), and a verdict that only repeats findings the
    patch cannot corroborate is sent to arbitration ([repeatedfinding.go]).

    The hash of an identity, [json.Valid] and the decoding of an episode are the
    class [FindingText]; the resolver of artifacts is an argument, as in the
    code. *)

From S2P Require Export GoText.
Local Open Scope string_scope.
Local Open Scope list_scope.

(** ** Envelope types *)

Record Finding := mkFinding {
  fi_ID : string;
  fi_LearningSignature : string;
  fi_LearningClassification : string;
  fi_EvidenceDigest : string;
  fi_Severity : string;
  fi_Message : string;
  fi_Location : string;
  fi_Class : string
}.
#[export] Instance Finding_eq_dec : EqDecision Finding.
Proof. solve_decision. Defined.

Definition VerdictPass : string := "pass".
Definition VerdictFail : string := "fail".
Definition VerdictNeedsChanges : string := "needs-changes".
Definition VerdictDefer : string := "defer".
Definition VerdictEscalate : string := "escalate".

(** The fields of a verdict that gate evaluation reads or writes. *)
Record Verdict := mkVerdict {
  vd_Decision : string;
  vd_ReasonCode : string;
  vd_Rationale : string;
  vd_Findings : list Finding;
  vd_Synthesized : bool;
  vd_Summary : string;
  vd_Elected : bool
}.
#[export] Instance Verdict_eq_dec : EqDecision Verdict.
Proof. solve_decision. Defined.

Definition set_Decision (d : string) (v : Verdict) : Verdict :=
  mkVerdict d (vd_ReasonCode v) (vd_Rationale v) (vd_Findings v) (vd_Synthesized v) (vd_Summary v) (vd_Elected v).
Definition set_Findings (fs : list Finding) (v : Verdict) : Verdict :=
  mkVerdict (vd_Decision v) (vd_ReasonCode v) (vd_Rationale v) fs (vd_Synthesized v) (vd_Summary v) (vd_Elected v).
Definition set_Rationale (r : string) (v : Verdict) : Verdict :=
  mkVerdict (vd_Decision v) (vd_ReasonCode v) r (vd_Findings v) (vd_Synthesized v) (vd_Summary v) (vd_Elected v).
(** The note a rule leaves: the rationale, or appended to it. *)
Definition add_note (note : string) (v : Verdict) : Verdict :=
  set_Rationale (if vd_Rationale v =? "" then note
                 else vd_Rationale v +:+ String "010" (String "010" note)) v.

Record ArtifactPointer := mkArtifact { ap_Path : string; ap_Digest : string; ap_MediaType : string }.
Record ContextPointer := mkPointer { cp_Name : string; cp_Artifact : option ArtifactPointer }.

(** [ArtifactBytes]; [None] is the nil resolver. *)
Definition ArtifactBytes : Type := option (ArtifactPointer -> option string).

(** ** Identities: [internal/learning/episode.go] *)

Definition EpisodeSchema : string := "goobers.dev/learning/episode/v1".
Record Episode := mkEpisode {
  ep_Schema : string;
  ep_SourceSeq : N;
  ep_Gate : string;
  ep_Findings : list Finding
}.

Class FindingText := {
  Sum256Hex : string -> string;
  json_Valid : string -> bool;
  unmarshal_episode : string -> option Episode
}.

(** [LearningClassification.IsValid]. *)
Definition LearningClassificationValid (c : string) : bool :=
  mem_string c ["instruction"; "skill"; "workflow"; "gate"; "validation"; "code-defect"].
(** [FindingClass.RequiresCodeChange]. *)
Definition RequiresCodeChange (c : string) : bool :=
  mem_string c ["conflict"; "substantive"; "missing-tests"; "scope-creep"; "contract-change"].

Section findings.
Context {Lower : LowerCase} {Text : FindingText}.

Definition ClassificationForFinding (f : Finding) : string :=
  if LearningClassificationValid (fi_LearningClassification f) then fi_LearningClassification f
  else if fi_Class f =? "missing-tests" then "validation"
  else if RequiresCodeChange (fi_Class f) then "code-defect"
  else
    let path := ToLower (replace_char "\" "/" (fi_Location f)) in
    if Contains path "/skills/" then "skill"
    else if Contains path "/workflows/" then "workflow"
    else "instruction".

Definition FindingSignature (gate : string) (f : Finding) : string :=
  let location := strip_location (TrimSpace (ToLower (fi_Location f))) in
  let message := hash_digits false (String.concat " " (Fields (ToLower (fi_Message f)))) in
  let class := if fi_LearningClassification f =? "" then ClassificationForFinding f
               else fi_LearningClassification f in
  String.concat "|" [ToLower (TrimSpace gate); class; fi_Class f; fi_Severity f; location; message].

Definition set_classification (c : string) (f : Finding) : Finding :=
  mkFinding (fi_ID f) (fi_LearningSignature f) c (fi_EvidenceDigest f) (fi_Severity f) (fi_Message f) (fi_Location f) (fi_Class f).
Definition set_signature (s : string) (f : Finding) : Finding :=
  mkFinding (fi_ID f) s (fi_LearningClassification f) (fi_EvidenceDigest f) (fi_Severity f) (fi_Message f) (fi_Location f) (fi_Class f).
Definition set_id (i : string) (f : Finding) : Finding :=
  mkFinding i (fi_LearningSignature f) (fi_LearningClassification f) (fi_EvidenceDigest f) (fi_Severity f) (fi_Message f) (fi_Location f) (fi_Class f).
Definition set_evidence (d : string) (f : Finding) : Finding :=
  mkFinding (fi_ID f) (fi_LearningSignature f) (fi_LearningClassification f) d (fi_Severity f) (fi_Message f) (fi_Location f) (fi_Class f).

(** [NormalizeFinding] fills the fields a reviewer omitted. *)
Definition NormalizeFinding (f : Finding) (gate evidenceDigest : string) : Finding :=
  let f := if LearningClassificationValid (fi_LearningClassification f) then f
           else set_classification (ClassificationForFinding f) f in
  let f := if blank (fi_LearningSignature f) then set_signature (FindingSignature gate f) f else f in
  let f := if blank (fi_ID f) then set_id ("finding:sha256:" +:+ Sum256Hex (fi_LearningSignature f)) f else f in
  if blank (fi_EvidenceDigest f) then set_evidence evidenceDigest f else f.

(** ** Episodes of earlier repasses *)

Record episodeHistory := mkHistory {
  latestSeq : N;
  active : gmap string Finding;
  known : gmap string Finding;
  bySignature : gmap string Finding;
  evidenceByID : gmap string (gset string);
  resolved : gset string
}.
Definition no_history : episodeHistory := mkHistory 0 ∅ ∅ ∅ ∅ ∅.

(** [isLearningEpisodePointerName]. *)
Definition isLearningEpisodePointerName (name : string) : bool :=
  match CutPrefix "learning.episode[" name with
  | Some rest =>
      match CutSuffix rest "]" with
      | Some seq => match unsigned seq with Some _ => true | None => false end
      | None => false
      end
  | None => false
  end.

(** The episodes of this gate among the pointers, in order. *)
Definition read_episode (resolve : ArtifactPointer -> option string) (gateName : string) (p : ContextPointer)
    : option Episode :=
  if negb (isLearningEpisodePointerName (cp_Name p)) then None
  else match cp_Artifact p with
  | None => None
  | Some a =>
      match resolve a with
      | None => None
      | Some data =>
          match unmarshal_episode data with
          | None => None
          | Some e => if (ep_Schema e =? EpisodeSchema) && (ep_Gate e =? gateName) then Some e else None
          end
      end
  end.
Definition read_episodes (resolve : ArtifactPointer -> option string) (gateName : string)
    (pointers : list ContextPointer) : list Episode :=
  omap (read_episode resolve gateName) pointers.

Definition record_finding (h : episodeHistory) (f : Finding) : episodeHistory :=
  let old := default ∅ (evidenceByID h !! fi_ID f) in
  mkHistory (latestSeq h) (active h) (<[fi_ID f := f]> (known h)) (<[fi_LearningSignature f := f]> (bySignature h))
    (<[fi_ID f := if fi_EvidenceDigest f =? "" then old else {[fi_EvidenceDigest f]} ∪ old]> (evidenceByID h))
    (resolved h).
Definition record_episode (h : episodeHistory) (e : Episode) : episodeHistory :=
  fold_left record_finding (ep_Findings e)
    (mkHistory (if (latestSeq h <? ep_SourceSeq e)%N then ep_SourceSeq e else latestSeq h)
       (active h) (known h) (bySignature h) (evidenceByID h) (resolved h)).
Definition place_finding (seq : N) (h : episodeHistory) (f : Finding) : episodeHistory :=
  if (seq =? latestSeq h)%N
  then mkHistory (latestSeq h) (<[fi_ID f := f]> (active h)) (known h) (bySignature h) (evidenceByID h) (resolved h)
  else mkHistory (latestSeq h) (active h) (known h) (bySignature h) (evidenceByID h) ({[fi_ID f]} ∪ resolved h).
Definition place_episode (h : episodeHistory) (e : Episode) : episodeHistory :=
  fold_left (place_finding (ep_SourceSeq e)) (ep_Findings e) h.
Definition history_of (episodes : list Episode) : episodeHistory :=
  let h := fold_left place_episode episodes (fold_left record_episode episodes no_history) in
  mkHistory (latestSeq h) (active h) (known h) (bySignature h) (evidenceByID h) (resolved h ∖ dom (active h)).

Definition readEpisodeHistory (pointers : list ContextPointer) (resolve : ArtifactBytes) (gateName : string)
    : episodeHistory :=
  match resolve with
  | None => no_history
  | Some r => history_of (read_episodes r gateName pointers)
  end.

(** [history.active[id].ID == ""]. *)
Definition inactive (h : episodeHistory) (id : string) : bool :=
  match active h !! id with Some f => fi_ID f =? "" | None => true end.

(** ** Reconciliation: [reconcileLearningFindings] *)

Record FindingResolution := mkResolution {
  fr_Resolved : list string;
  fr_Suppressed : list string;
  fr_Reopened : list string;
  fr_Disproven : list string;
  fr_DisprovenFindings : list Finding;
  fr_AllSuppressed : bool;
  fr_Repeated : list string;
  fr_UnverifiedRepeats : list string
}.
Definition no_resolution : FindingResolution := mkResolution [] [] [] [] [] false [] [].

(** The identity and classification a finding inherits from the episodes. *)
Definition inherit (h : episodeHistory) (gateName diffDigest : string) (f : Finding) : Finding :=
  let f :=
    if fi_ID f =? "" then
      let f := if fi_LearningSignature f =? "" then set_signature (FindingSignature gateName f) f else f in
      match bySignature h !! fi_LearningSignature f with
      | Some prior =>
          let f := set_id (fi_ID prior) f in
          if fi_LearningClassification f =? "" then set_classification (fi_LearningClassification prior) f else f
      | None => f
      end
    else f in
  let f :=
    match known h !! fi_ID f with
    | Some prior =>
        let f := if fi_LearningSignature f =? "" then set_signature (fi_LearningSignature prior) f else f in
        if fi_LearningClassification f =? "" then set_classification (fi_LearningClassification prior) f else f
    | None => f
    end in
  NormalizeFinding f gateName diffDigest.

(** Resolved by an earlier repass and not raised in the latest episode. *)
Definition was_resolved (h : episodeHistory) (id : string) : bool :=
  bool_decide (id ∈ resolved h) && inactive h id.
(** No evidence that the earlier episodes have not seen. *)
Definition stale_evidence (h : episodeHistory) (f : Finding) : bool :=
  (fi_EvidenceDigest f =? "") || bool_decide (fi_EvidenceDigest f ∈ default ∅ (evidenceByID h !! fi_ID f)).

Record reconcile_acc := mkReconcile {
  ra_remaining : list Finding;
  ra_suppressed : list string;
  ra_reopened : list string
}.
Definition reconcile_finding (h : episodeHistory) (gateName diffDigest : string) (acc : reconcile_acc) (f : Finding)
    : reconcile_acc :=
  let f := inherit h gateName diffDigest f in
  if was_resolved h (fi_ID f) then
    if stale_evidence h f then mkReconcile (ra_remaining acc) (ra_suppressed acc ++ [fi_ID f]) (ra_reopened acc)
    else mkReconcile (ra_remaining acc ++ [f]) (ra_suppressed acc) (ra_reopened acc ++ [fi_ID f])
  else mkReconcile (ra_remaining acc ++ [f]) (ra_suppressed acc) (ra_reopened acc).

Definition ReasonFindingResolved : string := "REVIEW_FINDING_RESOLVED".

Definition reconcileLearningFindings (verdict : Verdict) (pointers : list ContextPointer) (resolve : ArtifactBytes)
    (gateName diffDigest : string) : Verdict * FindingResolution :=
  let h := readEpisodeHistory pointers resolve gateName in
  let acc := fold_left (reconcile_finding h gateName diffDigest) (vd_Findings verdict) (mkReconcile [] [] []) in
  let remaining := ra_remaining acc in
  let gone := List.filter (fun id => negb (mem_string id (map fi_ID remaining))) (map fst (map_to_list (active h))) in
  let verdict' := set_Findings remaining verdict in
  let all := (vd_Decision verdict =? VerdictNeedsChanges) && (0 <? length (vd_Findings verdict))%nat
             && (length remaining =? 0)%nat && (0 <? length (ra_suppressed acc))%nat in
  let note := ReasonFindingResolved
              +:+ ": suppressed previously resolved finding identities without new evidence: "
              +:+ String.concat ", " (ra_suppressed acc) in
  (if all then add_note note (set_Decision VerdictPass verdict') else verdict',
   mkResolution (sort_strings gone) (sort_strings (ra_suppressed acc)) (sort_strings (ra_reopened acc)) [] []
     all [] []).

Definition findingIDs (findings : list Finding) : list string :=
  List.filter (fun id => negb (id =? "")) (map fi_ID findings).
Definition removedFindingIDs (before : list string) (remaining : list Finding) : list string :=
  List.filter (fun id => negb (id =? "") && negb (mem_string id (map fi_ID remaining))) before.
Definition removedFindings (before remaining : list Finding) : list Finding :=
  List.filter (fun f => negb (fi_ID f =? "") && negb (mem_string (fi_ID f) (map fi_ID remaining))) before.

(** ** The reviewed patch *)

(** [patchSource]: the text of the new file's lines, by path and line. *)
Abbreviation patchSource := (gmap string (gmap Z string)).

(** [patchHunkStart]. *)
Definition patchHunkStart (header : string) : Z :=
  match String.index 0 " +" header with
  | None => 0
  | Some plus =>
      let '(ds, _) := span_digits (from (plus + 2) header) in
      default 0%Z (Atoi ds)
  end.

Record patch_state := mkPatch { ps_source : patchSource; ps_path : string; ps_next : Z }.
Definition add_line (s : patch_state) (text : string) : patch_state :=
  mkPatch (<[ps_path s := <[ps_next s := text]> (default ∅ (ps_source s !! ps_path s))]> (ps_source s))
    (ps_path s) (ps_next s + 1).
(** One line of a unified diff. *)
Definition patch_line (s : patch_state) (raw : string) : patch_state :=
  match CutPrefix "+++ b/" raw with
  | Some path => mkPatch (ps_source s) path 0
  | None =>
      if HasPrefix raw "@@ " then mkPatch (ps_source s) (ps_path s) (patchHunkStart raw)
      else if (ps_path s =? "") || (ps_next s =? 0)%Z then s
      else if HasPrefix raw "+" && negb (HasPrefix raw "+++") then add_line s (from 1 raw)
      else if HasPrefix raw " " then add_line s (from 1 raw)
      else s
  end.
Definition parsePatchSource (patch : string) : patchSource :=
  ps_source (fold_left patch_line (Split "010" patch) (mkPatch ∅ "" 0)).

Definition isDiffPointer (name : string) (a : ArtifactPointer) : bool :=
  let mediaType := ToLower (ap_MediaType a) in
  (mediaType =? "text/x-diff") || (mediaType =? "text/x-patch")
  || HasSuffix (ToLower name) ".diff" || HasSuffix (ToLower name) ".patch".

(** The patch one pointer of the gate carries. *)
Definition pointer_patch (resolve : ArtifactPointer -> option string) (gateName : string) (p : ContextPointer)
    : option patchSource :=
  if negb (cp_Name p =? gateName +:+ ".diff") then None
  else match cp_Artifact p with
  | None => None
  | Some a =>
      if isDiffPointer (cp_Name p) a then parsePatchSource <$> resolve a else None
  end.
(** Lines of a later patch replace those of an earlier one. *)
Definition merge_patch (combined added : patchSource) : patchSource :=
  union_with (fun new old => Some (new ∪ old)) added combined.
Definition reviewerPatchSource (pointers : list ContextPointer) (resolve : ArtifactPointer -> option string)
    (gateName : string) : patchSource :=
  fold_left merge_patch (omap (pointer_patch resolve gateName) pointers) ∅.

(** [patchSource.lineAt]: the text at [path:line]. *)
Definition lineAt (source : patchSource) (location : string) : option string :=
  match LastIndexChar ":" location with
  | Some (S c as colon) =>
      if (colon =? String.length location - 1)%nat then None
      else match Atoi (from (S colon) location) with
      | Some line => if (line <? 1)%Z then None else (source !! upto colon location) ≫= (fun lines => lines !! line)
      | None => None
      end
  | _ => None
  end.

(** [patchSource.covers]. *)
Definition covers (source : patchSource) (location : string) : bool :=
  let location := TrimSpace location in
  if location =? "" then false
  else match lineAt source location with
  | Some _ => true
  | None =>
      let path :=
        match LastIndexChar ":" location with
        | Some (S c as colon) =>
            match Atoi (from (S colon) location) with Some _ => upto colon location | None => location end
        | _ => location
        end in
      bool_decide (is_Some (source !! path))
  end.

(** ** Disproof: [disproveReviewerFindings] *)

Definition ReasonFindingDisproven : string := "REVIEW_FINDING_DISPROVEN".

Definition isInvalidJSONFinding (f : Finding) : bool :=
  let message := ToLower (fi_Message f) in
  let says := existsb (Contains message) in
  if negb (Contains message "json") then false
  else if says ["unparseable"; "fails to parse"; "cannot parse"; "does not parse"; "parse error"; "syntax error"]
  then true
  else if negb (says ["invalid"; "malformed"]) then false
  else says ["escape"; "backslash"; "quote"; "raw string"; "raw-string"; "literal"].

(** The raw strings of a line of Go; [None] when one is left open. *)
Fixpoint raw_strings (fuel : nat) (line : string) : option (list string) :=
  match fuel with
  | O => Some []
  | S n =>
      match IndexChar "`" line with
      | None => Some []
      | Some open =>
          let rest := from (S open) line in
          match IndexChar "`" rest with
          | None => None
          | Some close =>
              match raw_strings n (from (S close) rest) with
              | Some values => Some (upto close rest :: values)
              | None => None
              end
          end
      end
  end.
Definition singleRawString (line : string) : option string :=
  match raw_strings (S (String.length line)) line with Some [raw] => Some raw | _ => None end.

Definition disproven (source : patchSource) (f : Finding) : bool :=
  isInvalidJSONFinding f
  && match lineAt source (fi_Location f) with
     | None => false
     | Some line => match singleRawString line with None => false | Some raw => json_Valid raw end
     end.

Definition disproof_evidence (f : Finding) : string :=
  fi_Location f +:+ ": exact raw-string bytes parse successfully with encoding/json.Valid".

Definition disproveReviewerFindings (verdict : Verdict) (pointers : list ContextPointer) (resolve : ArtifactBytes)
    (gateName : string) : Verdict * bool :=
  match resolve with
  | None => (verdict, false)
  | Some r =>
      if (length (vd_Findings verdict) =? 0)%nat then (verdict, false)
      else
        let source := reviewerPatchSource pointers r gateName in
        if bool_decide (source = ∅) then (verdict, false)
        else
          let remaining := List.filter (fun f => negb (disproven source f)) (vd_Findings verdict) in
          let evidence := map disproof_evidence (List.filter (disproven source) (vd_Findings verdict)) in
          if (length evidence =? 0)%nat then (verdict, false)
          else
            let verdict' := add_note (ReasonFindingDisproven +:+ ": " +:+ String.concat "; " evidence)
                              (set_Findings remaining verdict) in
            if (length remaining =? 0)%nat then (set_Decision VerdictPass verdict', true) else (verdict', false)
  end.

(** ** Arbitration: [arbitrateRepeatedFindings] *)

Definition ReasonFindingUnverifiedRepeat : string := "REVIEW_FINDING_UNVERIFIED_REPEAT".

Record RepeatedFindingArbitration := mkArbitration {
  rf_Repeated : list string;
  rf_Unverified : list string;
  rf_Arbitrate : bool
}.
Definition no_arbitration : RepeatedFindingArbitration := mkArbitration [] [] false.

(** The scan of the findings: what repeated, what the patch does not cover, and
    whether it covers one; it stops, keeping what it saw, at a finding that is
    not a repeat. *)
Fixpoint scan_repeats (h : episodeHistory) (source : patchSource) (repeated unverified : list string)
    (verified : bool) (findings : list Finding) : list string * list string * option bool :=
  match findings with
  | [] => (repeated, unverified, Some verified)
  | f :: rest =>
      if (fi_ID f =? "") || inactive h (fi_ID f) then (repeated, unverified, None)
      else if covers source (fi_Location f)
      then scan_repeats h source (repeated ++ [fi_ID f]) unverified true rest
      else scan_repeats h source (repeated ++ [fi_ID f]) (unverified ++ [fi_ID f]) verified rest
  end.

Definition arbitrateRepeatedFindings (verdict : Verdict) (pointers : list ContextPointer) (resolve : ArtifactBytes)
    (gateName : string) : Verdict * RepeatedFindingArbitration :=
  match resolve with
  | None => (verdict, no_arbitration)
  | Some r =>
      if negb (vd_Decision verdict =? VerdictNeedsChanges) || (length (vd_Findings verdict) =? 0)%nat
      then (verdict, no_arbitration)
      else
        let h := readEpisodeHistory pointers resolve gateName in
        if bool_decide (active h = ∅) then (verdict, no_arbitration)
        else
          let source := reviewerPatchSource pointers r gateName in
          if bool_decide (source = ∅) then (verdict, no_arbitration)
          else
            match scan_repeats h source [] [] false (vd_Findings verdict) with
            | (repeated, unverified, None) => (verdict, mkArbitration repeated unverified false)
            | (repeated, unverified, Some true) =>
                (verdict, mkArbitration (sort_strings repeated) (sort_strings unverified) false)
            | (repeated, unverified, Some false) =>
                let note := ReasonFindingUnverifiedRepeat
                  +:+ ": every finding repeats the previous episode's identity ("
                  +:+ String.concat ", " (sort_strings unverified)
                  +:+ ") and names a location absent from the reviewed diff, so another repass has no new evidence to act on "
                  +:+ of_bytes [226; 128; 148]%N +:+ " routing to arbitration" in
                (add_note note verdict, mkArbitration (sort_strings repeated) (sort_strings unverified) true)
            end
  end.
End findings.
