(* ===== verification/GateEvaluate.v ===== *)
(** * Gate evaluation: [internal/gate/evaluate.go], [mechanical.go], [journal.go]

    The evaluator of one run.  Its state is the budget and the last reviewed
    digests; the checks, the reviewer, the human gate's decision and the journal
    are outside of it.  A method is a computation in the monad [M] over the
    evaluator, the outside world and the journal; it may fail, and what it did
    before it failed stays done.

    Left out: the deadline of an attempt, which only shows in the error the call
    returns, and the integrity grades of artifacts. *)

From stdpp Require Import pretty.
From S2P Require Export WorkflowMachine RunControl GateFindings JournalEvent.
Local Open Scope Z_scope.
Local Open Scope string_scope.
Local Open Scope list_scope.

(** ** Values *)

Definition OutcomePass : string := "pass".
Definition OutcomeFail : string := "fail".
Definition OutcomeInfra : string := "infra".
Definition OutcomeTimeout : string := "timeout".

Definition VerdictReasonEmptyDiff : string := "empty-diff".
Definition VerdictReasonUnchangedRepass : string := "unchanged-repass".
Definition VerdictReasonRepassBudget : string := "repass-budget-exhausted".
Definition VerdictReasonEvidenceNotInspected : string := "remediation-evidence-not-inspected".

Definition ReasonUnchangedRepass : string := "UNCHANGED_REPASS".
Definition ReasonRemediationEvidenceNotInspected : string := "REMEDIATION_EVIDENCE_NOT_INSPECTED".
Definition escalation_string (e : escalation) : string :=
  match e with
  | ReasonPollingBudgetExhausted => "POLLING_BUDGET_EXHAUSTED"
  | ReasonInfrastructureBudgetExhausted => "INFRASTRUCTURE_REPASS_BUDGET_EXHAUSTED"
  | ReasonRepassBudgetExhausted => "REPASS_BUDGET_EXHAUSTED"
  end.

Definition AttemptPolicy : string := "policy".
Definition AttemptInfra : string := "infra".

Record RepassCause := mkCause {
  rc_Kind : string;
  rc_Gate : string;
  rc_Outcome : string;
  rc_Stage : string;
  rc_ErrorCode : string;
  rc_ErrorMessage : string;
  rc_Rationale : string;
  rc_Findings : list Finding;
  rc_Infrastructure : bool
}.

(** [Result]. *)
Record GateResult := mkResult {
  gr_Gate : string;
  gr_Actor : string;
  gr_Outcome : string;
  gr_Target : string;
  gr_Attempt : Z;
  gr_RepassTarget : string;
  gr_GateAttempt : Z;
  gr_PollAttempt : Z;
  gr_PollTarget : string;
  gr_Escalated : bool;
  gr_DuplicateDiff : bool;
  gr_RepassCause : option RepassCause;
  gr_Reason : string;
  gr_CacheHit : bool;
  gr_Interrupted : bool;
  gr_Verdict : option Verdict;
  gr_VerdictArtifact : option ArtifactPointer;
  gr_Resolution : FindingResolution
}.
Definition set_Verdict (outcome : string) (v : option Verdict) (r : GateResult) : GateResult :=
  mkResult (gr_Gate r) (gr_Actor r) outcome (gr_Target r) (gr_Attempt r) (gr_RepassTarget r) (gr_GateAttempt r)
    (gr_PollAttempt r) (gr_PollTarget r) (gr_Escalated r) (gr_DuplicateDiff r) (gr_RepassCause r) (gr_Reason r)
    (gr_CacheHit r) (gr_Interrupted r) v (gr_VerdictArtifact r) (gr_Resolution r).
Definition set_VerdictArtifact (a : option ArtifactPointer) (r : GateResult) : GateResult :=
  mkResult (gr_Gate r) (gr_Actor r) (gr_Outcome r) (gr_Target r) (gr_Attempt r) (gr_RepassTarget r) (gr_GateAttempt r)
    (gr_PollAttempt r) (gr_PollTarget r) (gr_Escalated r) (gr_DuplicateDiff r) (gr_RepassCause r) (gr_Reason r)
    (gr_CacheHit r) (gr_Interrupted r) (gr_Verdict r) a (gr_Resolution r).

(** [strconv.Quote], whose Unicode tables are not modelled. *)
Class Quoting := Quote : string -> string.

(** ** Mechanical verdicts *)

Definition StructuredMechanicalEscalation (g : Gate) : bool :=
  bool_decide (is_Some (gate_Branches g !! VerdictDefer)) && bool_decide (is_Some (gate_Branches g !! VerdictEscalate)).

Definition MechanicalVerdict (v : Verdict) (reason : string) (enabled : bool) : Verdict :=
  if enabled then
    mkVerdict VerdictEscalate reason (vd_Rationale v) (vd_Findings v) (vd_Synthesized v) (vd_Summary v) false
  else v.

(** [BudgetEscalationVerdict]; the flag says that it made a new verdict. *)
Definition BudgetEscalationVerdict (g : Gate) (exhausted : bool) (v : option Verdict) : option Verdict * bool :=
  match v with
  | Some v' =>
      if exhausted && StructuredMechanicalEscalation g then
        let copy := MechanicalVerdict v' VerdictReasonRepassBudget true in
        (Some (if vd_Rationale copy =? ""
               then set_Rationale "The configured repass budget is exhausted; the review findings remain unresolved." copy
               else copy), true)
      else (v, false)
  | None => (None, false)
  end.

Definition EmptyDiffVerdict : Verdict :=
  mkVerdict VerdictFail ""
    ("runner: the implement stage produced no committed changes " +:+ of_bytes [226; 128; 148]%N
     +:+ " failing without review, since an empty diff offers nothing to evaluate and a repass can only reproduce it")
    [] true "" false.

Section values.
Context {Quo : Quoting}.

(** [RepassCause.String]. *)
Definition cause_string (c : RepassCause) : string :=
  if rc_Kind c =? "stage-failure" then
    let detail := (if rc_ErrorCode c =? "" then "" else " (code " +:+ Quote (rc_ErrorCode c) +:+ ")")
                  +:+ (if rc_ErrorMessage c =? "" then "" else ": " +:+ rc_ErrorMessage c) in
    "the prior repass was triggered by gate " +:+ Quote (rc_Gate c) +:+ " outcome " +:+ Quote (rc_Outcome c)
    +:+ " after stage " +:+ Quote (rc_Stage c) +:+ " failed with "
    +:+ (if rc_Infrastructure c then "an infrastructure/environment" else "an implementation")
    +:+ " failure" +:+ detail
  else if rc_Kind c =? "reviewer" then
    "the prior repass was triggered by reviewer gate " +:+ Quote (rc_Gate c) +:+ " returning " +:+ Quote (rc_Outcome c)
    +:+ (if rc_Rationale c =? "" then "" else ": " +:+ rc_Rationale c)
  else "the prior repass was triggered by gate " +:+ Quote (rc_Gate c) +:+ " outcome " +:+ Quote (rc_Outcome c).

Definition DuplicateDiffVerdict (diffDigest : string) (cause : option RepassCause) : Verdict :=
  mkVerdict VerdictNeedsChanges ""
    (match cause with
     | Some c => cause_string c +:+ "; the implementer produced no change in response"
     | None => "runner: this repass produced no change (digest " +:+ diffDigest +:+ ")"
     end) [] true "" false.
End values.

Definition escalationTarget (g : Gate) : string :=
  match BranchTarget g BranchEscalate with Some t => t | None => WorkflowMachine.TargetEscalate end.

(** ** Calls outside the evaluator *)

Record call_error := mkCallError {
  ce_Message : string;
  ce_Infrastructure : bool;
  ce_NoCompletion : bool;
  ce_CustodyPending : bool
}.

Record InvocationEnvelope := mkInvocation {
  inv_Inputs : gmap string Any;
  inv_ContextPointers : list ContextPointer;
  inv_InstructionAddendum : string;
  inv_Attempt : Z;
  inv_ReviewerDeferralAllowed : bool;
  inv_ReviewerMechanicalEscalationAllowed : bool
}.
Definition set_pointers (ps : list ContextPointer) (env : InvocationEnvelope) : InvocationEnvelope :=
  mkInvocation (inv_Inputs env) ps (inv_InstructionAddendum env) (inv_Attempt env)
    (inv_ReviewerDeferralAllowed env) (inv_ReviewerMechanicalEscalationAllowed env).

Inductive gate_error :=
| ErrNoAutomated | ErrNoReviewer | ErrHumanDecisionRequired | ErrUnknownEvaluator
| ErrNoBranch (outcome : string)
| ErrGateJournal
| ErrEvaluate (e : call_error)
| ErrCancelled
| ErrContinuation
| ErrRecoverReview
| ErrNotHuman | ErrActorRequired | ErrNotApprover | ErrDecisionRequired
| ErrNotAutomated.

(** [Journal]: an append and the storage of an artifact, each of which may fail. *)
Class GateJournal (J : Type) := {
  j_Append : J -> Event -> J * bool;
  j_RecordArtifact : J -> string -> Verdict -> J * option ArtifactPointer
}.

(** What the runner binds into an [Evaluator] before a call; [None] is nil. *)
Record Wiring (W : Type) := mkWiring {
  wi_Automated : option (W -> AutomatedGate -> InvocationEnvelope -> W * result call_error string);
  wi_Reviewer : option (W -> InvocationEnvelope -> W * result call_error Verdict);
  wi_Wait : W -> Z -> W * bool;
  wi_Resolve : ArtifactBytes;
  wi_RecoveryVerdict : option (string -> option (option Verdict));
  wi_ReviewerContinuation : option (string -> option Z);
  wi_MaxRepasses : Z;
  wi_IsReentry : option (string -> bool);
  wi_RepassCause : option RepassCause;
  wi_CachedVerdict : option Verdict;
  wi_IsNeedsHumanTarget : option (string -> bool)
}.
Arguments mkWiring {W} _ _ _ _ _ _ _ _ _ _ _.
Arguments wi_Automated {W} _.
Arguments wi_Reviewer {W} _.
Arguments wi_Wait {W} _.
Arguments wi_Resolve {W} _.
Arguments wi_RecoveryVerdict {W} _.
Arguments wi_ReviewerContinuation {W} _.
Arguments wi_MaxRepasses {W} _.
Arguments wi_IsReentry {W} _.
Arguments wi_RepassCause {W} _.
Arguments wi_CachedVerdict {W} _.
Arguments wi_IsNeedsHumanTarget {W} _.

(** ** Events *)

Definition gate_started_event (g : Gate) (repassAttempt : Z) : Event :=
  let runner := {[ "repassAttempt" := AnyInt repassAttempt ]} in
  let runner :=
    match Evaluator g, Agentic g with
    | EvaluatorAgentic, Some a => <[ "goober" := AnyString (agentic_Goober a) ]> runner
    | _, _ => runner
    end in
  mkEvent "" 0 EventGateStarted 0 0 "" "" (gate_Name g) "" "" "" "" None "" None runner false
    "" "" "" "" "" "" "" "" "" "" false 0.

Definition gate_error_event (gateName code message class : string) (attempt : Z) : Event :=
  mkEvent "" 0 EventError 0 0 "" "" gateName "" "" "" "" None "" (Some (mkErrorDetail code message))
    {[ "evaluatorAttempt" := AnyInt attempt; "retryFailureClass" := AnyString class ]} false
    "" "" "" "" "" "" "" "" "" "" false 0.

Definition ReviewerAttemptEvent (kind : EventType) (gate : string) (attempt : Z) (class status verdict : string)
    (error : option ErrorDetail) (runner : gmap string Any) : Event :=
  mkEvent "" 0 kind 0 0 gate class gate verdict "" status "" None "" error runner false
    "" "" "" "" "" "" "" "" "" "" false attempt.

Definition finding_record (f : Finding) : list (string * string) :=
  [("id", fi_ID f); ("signature", fi_LearningSignature f); ("classification", fi_LearningClassification f);
   ("evidenceDigest", fi_EvidenceDigest f); ("message", fi_Message f); ("location", fi_Location f);
   ("class", fi_Class f); ("severity", fi_Severity f)].
Definition learningFindingRecords (findings : list Finding) : Any := AnyRecords (map finding_record findings).
(** The cause as the journal stores it: its fields, then its findings. *)
Definition cause_record (c : RepassCause) : Any :=
  AnyRecords
    ([("kind", rc_Kind c); ("gate", rc_Gate c); ("outcome", rc_Outcome c); ("stage", rc_Stage c);
      ("errorCode", rc_ErrorCode c); ("errorMessage", rc_ErrorMessage c); ("rationale", rc_Rationale c);
      ("infrastructure", if rc_Infrastructure c then "true" else "")] :: map finding_record (rc_Findings c)).

Definition put (present : bool) (k : string) (v : Any) (m : gmap string Any) : gmap string Any :=
  if present then <[k := v]> m else m.
Definition some_ids (k : string) (ids : list string) : gmap string Any -> gmap string Any :=
  put (0 <? length ids)%nat k (AnyStrings ids).

(** The annotations of [recordVerdict]. *)
Definition verdict_annotations (r : GateResult) (diffDigest : string) : gmap string Any :=
  let res := gr_Resolution r in
  let findings := match gr_Verdict r with Some v => vd_Findings v | None => [] end in
  let raised := (0 <? length findings)%nat in
  some_ids "unverifiedRepeatFindingIdentities" (fr_UnverifiedRepeats res)
    (some_ids "repeatedFindingIdentities" (fr_Repeated res)
    (put (0 <? length (fr_DisprovenFindings res))%nat "disprovenLearningFindings"
       (learningFindingRecords (fr_DisprovenFindings res))
    (some_ids "disprovenFindingIdentities" (fr_Disproven res)
    (some_ids "reopenedFindingIdentities" (fr_Reopened res)
    (some_ids "suppressedFindingIdentities" (fr_Suppressed res)
    (some_ids "resolvedFindingIdentities" (fr_Resolved res)
    (put raised "correctionFeedback" (AnyString (match gr_Verdict r with Some v => vd_Rationale v | None => "" end))
    (put raised "learningFindings" (learningFindingRecords findings)
    (put raised "findingIdentities" (AnyStrings (map fi_ID findings))
    (put (negb (gr_Reason r =? "")) "reason" (AnyString (gr_Reason r))
    (put (bool_decide (is_Some (gr_RepassCause r))) "repassCause"
       (match gr_RepassCause r with Some c => cause_record c | None => AnyBool false end)
    (put (negb (diffDigest =? "")) "diffDigest" (AnyString diffDigest)
    (put (gr_Interrupted r) "interrupted" (AnyBool true)
    (put (negb (gr_PollTarget r =? "")) "pollTarget" (AnyString (gr_PollTarget r))
    (put (negb (gr_PollTarget r =? "")) "pollAttempt" (AnyInt (gr_PollAttempt r))
    (put (negb (gr_RepassTarget r =? "")) "repassTarget" (AnyString (gr_RepassTarget r))
    {[ "repassAttempt" := AnyInt (gr_Attempt r); "gateAttempt" := AnyInt (gr_GateAttempt r);
       "escalated" := AnyBool (gr_Escalated r); "duplicateDiff" := AnyBool (gr_DuplicateDiff r);
       "verdictCacheHit" := AnyBool (gr_CacheHit r) ]} )))))))))))))))).

Definition gate_evaluated_event (r : GateResult) (diffDigest : string) : Event :=
  mkEvent "" 0 EventGateEvaluated 0 0 "" "" (gr_Gate r) (gr_Outcome r) (gr_Target r) "" "" None "" None
    (verdict_annotations r diffDigest) false "" "" "" "" "" "" "" "" "" (gr_Actor r) (gr_Escalated r) 0.

(** ** The evaluator *)

Record GateEvaluator := mkEvaluator {
  ge_Budget : RepassBudget;
  ge_LastDiffDigest : gmap string string
}.

Definition needsHumanRationaleFeedback : string :=
  "Reviewer verdict rejected: when this verdict selects a needs-human disposition, the trimmed rationale must end with a non-empty human decision question ending in '?'. Return a corrected verdict without changing the disposition.".

Definition validNeedsHumanRationale (rationale : string) : bool :=
  let rationale := TrimSpace rationale in
  let question := TrimSpace (match CutSuffix rationale "?" with Some r => r | None => rationale end) in
  negb (question =? "") && HasSuffix rationale "?".

Definition gateRetryPolicy (g : Gate) : option RetryPolicy :=
  match Evaluator g with
  | EvaluatorAutomated => Automated g ≫= automated_Retry
  | EvaluatorAgentic => Agentic g ≫= agentic_Retry
  | _ => None
  end.

Definition RetryBounds (policy : option RetryPolicy) : Z * Duration :=
  match policy with
  | Some p => if (1 <? retry_MaxAttempts p)%Z then (retry_MaxAttempts p, (BackoffSeconds p * second)%Z) else (1%Z, 0%Z)
  | None => (1%Z, 0%Z)
  end.

Definition ValidateHumanDecision (g : Gate) (decision actor : string) : option gate_error :=
  let approvers := match gate_Human g with Some h => Approvers h | None => [] end in
  match Evaluator g with
  | EvaluatorHuman =>
      if (0 <? length approvers)%nat && (actor =? "") then Some ErrActorRequired
      else if (0 <? length approvers)%nat && negb (mem_string actor approvers) then Some ErrNotApprover
      else if decision =? "" then Some ErrDecisionRequired
      else match BranchTarget g decision with Some _ => None | None => Some (ErrNoBranch decision) end
  | _ => Some ErrNotHuman
  end.

(** ** Computations *)

Section computations.
Context {W J : Type}.

Record gate_state := mkState { gs_eval : GateEvaluator; gs_world : W; gs_journal : option J }.

Definition M (A : Type) : Type := gate_state -> result gate_error A * gate_state.
Definition ret {A} (a : A) : M A := fun s => (Ok a, s).
Definition fail {A} (e : gate_error) : M A := fun s => (Error e, s).
Definition bind {A B} (m : M A) (f : A -> M B) : M B := fun s =>
  match m s with (Ok a, s') => f a s' | (Error e, s') => (Error e, s') end.
Definition get_eval : M GateEvaluator := fun s => (Ok (gs_eval s), s).
Definition put_eval (e : GateEvaluator) : M unit := fun s => (Ok (), mkState e (gs_world s) (gs_journal s)).
(** A call outside: its answer, error included, and the world after it. *)
Definition call {A} (f : W -> W * A) : M A := fun s =>
  let '(w, a) := f (gs_world s) in (Ok a, mkState (gs_eval s) w (gs_journal s)).
End computations.
Arguments gate_state : clear implicits.
Arguments M : clear implicits.

Declare Scope gate_scope.
Delimit Scope gate_scope with gate.
Notation "'let!' x := m 'in' k" := (bind m (fun x => k))
  (at level 200, x name, m at level 100, k at level 200) : gate_scope.
Notation "'do!' m ; k" := (bind m (fun _ => k)) (at level 200, m at level 100, k at level 200) : gate_scope.
Local Open Scope gate_scope.

Section evaluate.
Context {W J : Type} `{GateJournal J} {Lower : LowerCase} {Text : FindingText} {Quo : Quoting}.
Variable wire : Wiring W.
Abbreviation M := (M W J).

(** ** Recording *)

(** A nil journal records nothing. *)
Definition journal_event (e : Event) : M unit := fun s =>
  match gs_journal s with
  | None => (Ok (), s)
  | Some j =>
      let '(j', ok) := j_Append j e in
      (if ok then Ok () else Error ErrGateJournal, mkState (gs_eval s) (gs_world s) (Some j'))
  end.

Definition recordStart (g : Gate) (repassAttempt : Z) : M unit := journal_event (gate_started_event g repassAttempt).
Definition recordEvaluatorRetry (gateName : string) (attempt : Z) (e : call_error) : M unit :=
  journal_event (gate_error_event gateName "evaluator_transient" (ce_Message e) "infra" attempt).
Definition recordVerdictValidationRetry (gateName : string) (attempt : Z) : M unit :=
  journal_event (gate_error_event gateName "verdict_invalid" needsHumanRationaleFeedback "policy" attempt).
Definition recordReviewerStart (g : Gate) (number : Z) (class : string) : M unit :=
  journal_event (ReviewerAttemptEvent EventReviewerStarted (gate_Name g) number class "" "" None
    (match Agentic g with Some a => {[ "goober" := AnyString (agentic_Goober a) ]} | None => ∅ end)).
Definition recordReviewerFinish (name : string) (number : Z) (class : string) (answer : result call_error Verdict)
    (invalid : bool) : M unit :=
  let failed := negb (result_is_ok answer) || invalid in
  let infra := match answer with Error e => ce_Infrastructure e | Ok _ => false end in
  let runner := {[ "reviewed" := AnyBool (result_is_ok answer) ]} in
  journal_event (ReviewerAttemptEvent EventReviewerFinished name number class
    (if failed then "failure" else "success")
    (match answer with Ok v => vd_Decision v | Error _ => "" end)
    (if invalid then Some (mkErrorDetail "verdict_invalid" needsHumanRationaleFeedback)
     else match answer with Error e => Some (mkErrorDetail "evaluator_error" (ce_Message e)) | Ok _ => None end)
    (put failed "retryFailureClass" (AnyString (if infra then AttemptInfra else AttemptPolicy)) runner)).

(** [recordVerdict] completes the findings of the verdict, stores the verdict and
    appends [gate.evaluated]; the result carries what it stored. *)
Definition recordVerdict (r : GateResult) (diffDigest : string) : M GateResult := fun s =>
  match gs_journal s with
  | None => (Ok r, s)
  | Some j =>
      let verdict := (fun v => set_Findings (map (fun f => NormalizeFinding f (gr_Gate r) diffDigest) (vd_Findings v)) v)
                     <$> gr_Verdict r in
      let r := set_Verdict (gr_Outcome r) verdict r in
      let name := "verdict/" +:+ gr_Gate r +:+ "-" +:+ pretty (gr_Attempt r) +:+ ".json" in
      let '(j, stored) :=
        match verdict with
        | None => (j, Some None)
        | Some v => let '(j, a) := j_RecordArtifact j name v in (j, Some <$> a)
        end in
      match stored with
      | None => (Error ErrGateJournal, mkState (gs_eval s) (gs_world s) (Some j))
      | Some artifact =>
          let '(j, ok) := j_Append j (gate_evaluated_event r diffDigest) in
          (if ok then Ok (set_VerdictArtifact artifact r) else Error ErrGateJournal,
           mkState (gs_eval s) (gs_world s) (Some j))
      end
  end.

(** ** Charging and routing *)

Definition maxRepasses (g : Gate) : Z := MaxRepassesForGate g (wi_MaxRepasses wire).

Definition trackRepass (g : Gate) (outcome target : string) : M RepassCharge :=
  let! e := get_eval in
  let reentry := match wi_IsReentry wire with Some f => f target | None => negb (outcome =? OutcomePass) end in
  let '(budget, charge) := Charge (ge_Budget e) g outcome target reentry (wi_MaxRepasses wire) in
  do! put_eval (mkEvaluator budget (ge_LastDiffDigest e));
  ret charge.

Definition note_digest (g : Gate) (diffDigest : string) : M unit :=
  let! e := get_eval in
  if diffDigest =? "" then ret ()
  else put_eval (mkEvaluator (ge_Budget e) (<[gate_Name g := diffDigest]> (ge_LastDiffDigest e))).

Definition resolveOutcome (g : Gate) (outcome : string) (verdict : option Verdict) (diffDigest : string)
    (duplicateDiff forcedEscalation cacheHit : bool) (outcomeReason : string) (resolution : FindingResolution)
    : M GateResult :=
  do! note_digest g diffDigest;
  match BranchTarget g outcome with
  | None => fail (ErrNoBranch outcome)
  | Some target =>
      let! charge := trackRepass g outcome target in
      let '(verdict, converted) := BudgetEscalationVerdict g (Exceeded charge) verdict in
      let outcome := match verdict with Some v => if converted then vd_Decision v else outcome | None => outcome end in
      let escalated := Exceeded charge || duplicateDiff || forcedEscalation in
      let target := if escalated then escalationTarget g else target in
      let repassCause := if duplicateDiff then wi_RepassCause wire else None in
      let reason := if duplicateDiff then ReasonUnchangedRepass else outcomeReason in
      let reason := if escalated && (reason =? "") then escalation_string (EscalationReason charge) else reason in
      recordVerdict
        (mkResult (gate_Name g) "" outcome target (Attempt charge) (RepassTarget charge) (GateAttempt charge)
           (PollAttempt charge) (PollTarget charge) escalated duplicateDiff repassCause reason cacheHit false verdict
           None resolution) diffDigest
  end.

(** ** Recovery of an interrupted evaluation *)

Definition recovered_review (gateName : string) : M (option Verdict) :=
  match wi_RecoveryVerdict wire with
  | None => ret None
  | Some f => match f gateName with Some v => ret v | None => fail ErrRecoverReview end
  end.

Definition setInterruptedVerdict (g : Gate) (r : GateResult) : M GateResult :=
  if negb (StructuredMechanicalEscalation g) then ret r
  else
    let! prior := recovered_review (gate_Name g) in
    let verdict := default (mkVerdict "" "" "" [] false "" false) prior in
    let verdict := if vd_Rationale verdict =? ""
      then set_Rationale "The interrupted review exhausted its repass budget; no prior reviewer rationale was recorded." verdict
      else verdict in
    let verdict := MechanicalVerdict verdict VerdictReasonRepassBudget true in
    ret (set_Verdict (vd_Decision verdict) (Some verdict) r).

(** [RecoverInterrupted]; [None] when the gate is not interrupted. *)
Definition RecoverInterrupted (g : Gate) (diffDigest : string) : M (option GateResult) :=
  let! e := get_eval in
  let attempt := counter (Attempts (ge_Budget e)) (gate_Name g) in
  if (attempt <=? maxRepasses g)%Z then ret None
  else
    let r := mkResult (gate_Name g) "" OutcomeFail (escalationTarget g) attempt "" attempt 0 "" true false None
               (escalation_string ReasonRepassBudgetExhausted) false true None None no_resolution in
    let! r := setInterruptedVerdict g r in
    let! r := recordVerdict r diffDigest in
    ret (Some r).

Definition setEvidenceInspectionVerdict (g : Gate) (verdict : Verdict) (r : GateResult) : M GateResult :=
  if negb (StructuredMechanicalEscalation g) then ret r
  else
    let! prior := recovered_review (gate_Name g) in
    let verdict := match prior with
      | Some p => set_Rationale (vd_Rationale p +:+ String "010" (String "010" "Mechanical stop: ") +:+ vd_Rationale verdict) p
      | None => verdict
      end in
    let verdict := MechanicalVerdict verdict VerdictReasonEvidenceNotInspected true in
    ret (set_Verdict (vd_Decision verdict) (Some verdict) r).

Definition EscalateUninspectedRemediation (g : Gate) (cause : string) (rejections : Z) (diffDigest : string)
    : M GateResult :=
  let rationale := "runner: " +:+ pretty rejections
    +:+ " consecutive unchanged remediation attempts were rejected without inspecting the required failure evidence"
    +:+ (if cause =? "" then "" else "; last rejection: " +:+ cause) in
  let! e := get_eval in
  let attempt := counter (Attempts (ge_Budget e)) (gate_Name g) in
  let verdict := mkVerdict VerdictNeedsChanges "" rationale [] false "" false in
  let r := mkResult (gate_Name g) "" VerdictNeedsChanges (escalationTarget g) attempt "" attempt 0 "" true false
             (wi_RepassCause wire) ReasonRemediationEvidenceNotInspected false false (Some verdict) None no_resolution in
  let! r := setEvidenceInspectionVerdict g verdict r in
  recordVerdict r diffDigest.

(** ** Human gates and known outcomes *)

Definition EvaluateHuman (g : Gate) (decision actor : string) : M GateResult :=
  match ValidateHumanDecision g decision actor with
  | Some e => fail e
  | None =>
      let target := default "" (BranchTarget g decision) in
      let r := mkResult (gate_Name g) actor decision target 0 "" 0 0 "" false false None "" false false None None
                 no_resolution in
      do! recordVerdict r "";
      ret r
  end.

Definition EvaluateKnownOutcome (g : Gate) (outcome : string) : M GateResult :=
  let! recovered := RecoverInterrupted g "" in
  match recovered with
  | Some r => ret r
  | None =>
      match Evaluator g with
      | EvaluatorAutomated =>
          let! e := get_eval in
          do! recordStart g (counter (Attempts (ge_Budget e)) (gate_Name g) + 1);
          resolveOutcome g outcome None "" false false false "" no_resolution
      | _ => fail ErrNotAutomated
      end
  end.

(** ** Calling an evaluator, with retries *)

(** [evaluateWithRetry]: [left] bounds the attempts that remain after this one. *)
Fixpoint retry_automated (gateName : string) (maxAttempts backoff : Z) (attempt : Z) (left : nat)
    (f : W -> W * result call_error string) : M string :=
  let! answer := call f in
  match answer with
  | Ok out => ret out
  | Error e =>
      if negb (ce_Infrastructure e) then fail (ErrEvaluate e)
      else
        do! recordEvaluatorRetry gateName attempt e;
        if (maxAttempts <=? attempt)%Z then fail (ErrEvaluate e)
        else
          let! cancelled := (if (0 <? backoff)%Z then call (fun w => wi_Wait wire w backoff) else ret false) in
          if (cancelled : bool) then fail (ErrEvaluate e)
          else match left with
          | O => fail (ErrEvaluate e)
          | S left' => retry_automated gateName maxAttempts backoff (attempt + 1) left' f
          end
  end.
Definition evaluateWithRetry (gateName : string) (policy : option RetryPolicy)
    (f : W -> W * result call_error string) : M string :=
  let '(maxAttempts, backoff) := RetryBounds policy in
  retry_automated gateName maxAttempts backoff 1 (Z.to_nat (maxAttempts - 1)) f.

Definition invalidNeedsHumanVerdict (g : Gate) (v : Verdict) : bool :=
  match wi_IsNeedsHumanTarget wire, BranchTarget g (vd_Decision v) with
  | Some needs, Some target => needs target && negb (validNeedsHumanRationale (vd_Rationale v))
  | _, _ => false
  end.

(** [ReviewerInvocation]: the subject's artifacts as evidence. *)
Definition ReviewerInvocation (base : InvocationEnvelope) (subjectStage : string) (artifacts : list ArtifactPointer)
    : InvocationEnvelope :=
  if (length artifacts =? 0)%nat then base
  else set_pointers (inv_ContextPointers base
         ++ imap (fun i a => mkPointer (subjectStage +:+ ".artifact[" +:+ pretty i +:+ "]") (Some a)) artifacts) base.

(** [ReviewerEvaluator.Review]: an agent that completed nothing is an
    infrastructure failure. *)
Definition Review (goober : W -> InvocationEnvelope -> W * result call_error Verdict) (env : InvocationEnvelope)
    (subjectStage : string) (artifacts : list ArtifactPointer) (w : W) : W * result call_error Verdict :=
  let '(w, answer) := goober w (ReviewerInvocation env subjectStage artifacts) in
  match answer with
  | Error e =>
      (w, Error (if ce_NoCompletion e && negb (ce_Infrastructure e)
                 then mkCallError (ce_Message e) true (ce_NoCompletion e) (ce_CustodyPending e) else e))
  | Ok v => (w, Ok v)
  end.

(** One pass of [evaluateReviewerWithRetry]; the flag says that the verdict stays
    invalid after the last attempt. *)
Fixpoint retry_reviewer (goober : W -> InvocationEnvelope -> W * result call_error Verdict) (g : Gate)
    (maxAttempts backoff previous : Z) (class : string) (subjectStage : string) (artifacts : list ArtifactPointer)
    (attempt : Z) (left : nat) (env : InvocationEnvelope) : M (Verdict * bool) :=
  let number := (previous + attempt)%Z in
  let env := mkInvocation (inv_Inputs env) (inv_ContextPointers env) (inv_InstructionAddendum env) number
               (inv_ReviewerDeferralAllowed env) (inv_ReviewerMechanicalEscalationAllowed env) in
  do! recordReviewerStart g number class;
  let! answer := call (Review goober env subjectStage artifacts) in
  let again (class : string) (env : InvocationEnvelope) (last : M (Verdict * bool)) : M (Verdict * bool) :=
    if (maxAttempts <=? attempt)%Z then last
    else
      let! cancelled := (if (0 <? backoff)%Z then call (fun w => wi_Wait wire w backoff) else ret false) in
      if (cancelled : bool) then fail ErrCancelled
      else match left with
      | O => last
      | S left' =>
          retry_reviewer goober g maxAttempts backoff previous class subjectStage artifacts (attempt + 1) left' env
      end in
  match answer with
  | Error e =>
      if ce_CustodyPending e then fail (ErrEvaluate e)
      else
        do! recordReviewerFinish (gate_Name g) number class answer false;
        if negb (ce_Infrastructure e) then fail (ErrEvaluate e)
        else
          do! recordEvaluatorRetry (gate_Name g) attempt e;
          again AttemptInfra env (fail (ErrEvaluate e))
  | Ok v =>
      let invalid := invalidNeedsHumanVerdict g v in
      do! recordReviewerFinish (gate_Name g) number class answer invalid;
      if negb invalid then ret (v, false)
      else
        do! recordVerdictValidationRetry (gate_Name g) attempt;
        again AttemptPolicy
          (mkInvocation (inv_Inputs env) (inv_ContextPointers env)
             (TrimSpace (inv_InstructionAddendum env +:+ String "010" (String "010" needsHumanRationaleFeedback)))
             (inv_Attempt env) (inv_ReviewerDeferralAllowed env) (inv_ReviewerMechanicalEscalationAllowed env))
          (ret (v, true))
  end.
Definition evaluateReviewerWithRetry (goober : W -> InvocationEnvelope -> W * result call_error Verdict) (g : Gate)
    (policy : option RetryPolicy) (env : InvocationEnvelope) (subjectStage : string) (artifacts : list ArtifactPointer)
    : M (Verdict * bool) :=
  let env := mkInvocation (inv_Inputs env) (inv_ContextPointers env) (inv_InstructionAddendum env) (inv_Attempt env)
               (bool_decide (is_Some (gate_Branches g !! VerdictDefer))) (StructuredMechanicalEscalation g) in
  let '(maxAttempts, backoff) := RetryBounds policy in
  let! previous := match wi_ReviewerContinuation wire with
    | None => ret 0%Z
    | Some f => match f (gate_Name g) with Some n => ret n | None => fail ErrContinuation end
    end in
  retry_reviewer goober g maxAttempts backoff previous (if (0 <? previous)%Z then AttemptInfra else "")
    subjectStage artifacts 1 (Z.to_nat (maxAttempts - 1)) env.

(** ** [Evaluate] *)

(** What the evaluator answered: the outcome, the verdict, and the flags of the
    short cuts. *)
Record answer := mkAnswer {
  an_Outcome : string;
  an_Verdict : option Verdict;
  an_Duplicate : bool;
  an_CacheHit : bool;
  an_Invalid : bool
}.

Definition answer_of_agentic (g : Gate) (env : InvocationEnvelope) (subjectStage : string)
    (artifacts : list ArtifactPointer) (diffDigest : string) (emptyDiff : bool) : M answer :=
  let! e := get_eval in
  match wi_CachedVerdict wire with
  | Some v => ret (mkAnswer (vd_Decision v) (Some v) false true (invalidNeedsHumanVerdict g v))
  | None =>
      if emptyDiff then
        let v := MechanicalVerdict EmptyDiffVerdict VerdictReasonEmptyDiff (StructuredMechanicalEscalation g) in
        ret (mkAnswer (vd_Decision v) (Some v) false false false)
      else if negb (diffDigest =? "") && bool_decide (ge_LastDiffDigest e !! gate_Name g = Some diffDigest) then
        let v := MechanicalVerdict (DuplicateDiffVerdict diffDigest (wi_RepassCause wire))
                   VerdictReasonUnchangedRepass (StructuredMechanicalEscalation g) in
        ret (mkAnswer (vd_Decision v) (Some v) true false false)
      else
        match wi_Reviewer wire with
        | None => fail ErrNoReviewer
        | Some goober =>
            let! reviewed := evaluateReviewerWithRetry goober g (gateRetryPolicy g) env subjectStage artifacts in
            let '(v, invalid) := reviewed in
            ret (mkAnswer (vd_Decision v) (Some v) false false invalid)
        end
  end.

Definition answer_of_automated (g : Gate) (env : InvocationEnvelope) : M answer :=
  match wi_Automated wire with
  | None => fail ErrNoAutomated
  | Some check =>
      let conf := default (mkAutomated "" ∅ None 0 0 0) (Automated g) in
      let! out := evaluateWithRetry (gate_Name g) (gateRetryPolicy g) (fun w => check w conf env) in
      ret (mkAnswer out None false false false)
  end.

(** The three finding rules, in the order [Evaluate] applies them. *)
Definition set_disproof (before : list Finding) (remaining : list Finding) (r : FindingResolution) : FindingResolution :=
  mkResolution (fr_Resolved r) (fr_Suppressed r) (fr_Reopened r) (removedFindingIDs (findingIDs before) remaining)
    (removedFindings before remaining) (fr_AllSuppressed r) (fr_Repeated r) (fr_UnverifiedRepeats r).
Definition set_repeats (a : RepeatedFindingArbitration) (r : FindingResolution) : FindingResolution :=
  mkResolution (fr_Resolved r) (fr_Suppressed r) (fr_Reopened r) (fr_Disproven r) (fr_DisprovenFindings r)
    (fr_AllSuppressed r) (rf_Repeated a) (rf_Unverified a).

Record judged := mkJudged {
  jd_Outcome : string;
  jd_Verdict : option Verdict;
  jd_Reason : string;
  jd_Resolution : FindingResolution;
  jd_Forced : bool
}.

Definition apply_reconcile (g : Gate) (env : InvocationEnvelope) (diffDigest : string) (emptyDiff duplicate : bool)
    (j : judged) : judged :=
  match jd_Verdict j with
  | Some v =>
      if negb duplicate && negb emptyDiff then
        let '(v', res) := reconcileLearningFindings v (inv_ContextPointers env) (wi_Resolve wire) (gate_Name g) diffDigest in
        mkJudged (vd_Decision v') (Some v') (if fr_AllSuppressed res then ReasonFindingResolved else jd_Reason j) res
          (jd_Forced j)
      else j
  | None => j
  end.
Definition apply_disproof (g : Gate) (env : InvocationEnvelope) (j : judged) : judged :=
  match jd_Verdict j with
  | Some v =>
      if jd_Outcome j =? VerdictNeedsChanges then
        let '(v', all) := disproveReviewerFindings v (inv_ContextPointers env) (wi_Resolve wire) (gate_Name g) in
        mkJudged (vd_Decision v') (Some v') (if all then ReasonFindingDisproven else jd_Reason j)
          (set_disproof (vd_Findings v) (vd_Findings v') (jd_Resolution j)) (jd_Forced j)
      else j
  | None => j
  end.
Definition apply_arbitration (g : Gate) (env : InvocationEnvelope) (duplicate : bool) (j : judged) : judged :=
  match jd_Verdict j with
  | Some v =>
      if (jd_Outcome j =? VerdictNeedsChanges) && negb duplicate then
        let '(v', a) := arbitrateRepeatedFindings v (inv_ContextPointers env) (wi_Resolve wire) (gate_Name g) in
        mkJudged (jd_Outcome j) (Some v') (if rf_Arbitrate a then ReasonFindingUnverifiedRepeat else jd_Reason j)
          (set_repeats a (jd_Resolution j)) (jd_Forced j || rf_Arbitrate a)
      else j
  | None => j
  end.
Definition judge (g : Gate) (env : InvocationEnvelope) (diffDigest : string) (emptyDiff : bool) (a : answer) : judged :=
  apply_arbitration g env (an_Duplicate a)
    (apply_disproof g env
      (apply_reconcile g env diffDigest emptyDiff (an_Duplicate a)
        (mkJudged (an_Outcome a) (an_Verdict a) "" no_resolution emptyDiff))).

Definition configured (g : Gate) : option gate_error :=
  match Evaluator g with
  | EvaluatorAutomated => match wi_Automated wire with None => Some ErrNoAutomated | Some _ => None end
  | EvaluatorAgentic =>
      match wi_CachedVerdict wire, wi_Reviewer wire with None, None => Some ErrNoReviewer | _, _ => None end
  | EvaluatorHuman => Some ErrHumanDecisionRequired
  | EvaluatorOther _ => Some ErrUnknownEvaluator
  end.

Definition Evaluate (g : Gate) (env : InvocationEnvelope) (subjectStage : string) (artifacts : list ArtifactPointer)
    (diffDigest : string) (emptyDiff : bool) : M GateResult :=
  let! recovered := RecoverInterrupted g diffDigest in
  match recovered with
  | Some r => ret r
  | None =>
      match configured g with
      | Some e => fail e
      | None =>
          let! e := get_eval in
          do! recordStart g (counter (Attempts (ge_Budget e)) (gate_Name g) + 1);
          let! a := match Evaluator g with
            | EvaluatorAgentic => answer_of_agentic g env subjectStage artifacts diffDigest emptyDiff
            | _ => answer_of_automated g env
            end in
          if an_Invalid a then
            resolveOutcome g (an_Outcome a) (an_Verdict a) diffDigest (an_Duplicate a) true (an_CacheHit a) "" no_resolution
          else
            let j := judge g env diffDigest emptyDiff a in
            resolveOutcome g (jd_Outcome j) (jd_Verdict j) diffDigest (an_Duplicate a) (jd_Forced j) (an_CacheHit a)
              (jd_Reason j) (jd_Resolution j)
      end
  end.
End evaluate.
