(* ===== verification/GateResume.v ===== *)
(** * Resuming a run's gate budgets: [internal/runner/resume.go]

    What a restarted runner reads back from the events of a run: the counters of
    the gate evaluator, its last reviewed digests, the stages already visited,
    the rejection streaks, and where the run stood.  Also the reroute of an
    invalid handoff ([handoff_validation.go]), which charges the same counters
    and is read back with them. *)

From S2P Require Export GateEvaluate.
Local Open Scope Z_scope.
Local Open Scope string_scope.
Local Open Scope list_scope.

(** ** Annotations *)

(** [e.Runner[k].(float64)]: a number of the decoded event. *)
Definition runner_int (e : Event) (k : string) : option Z :=
  match ev_Runner e !! k with Some (AnyInt z) => Some z | _ => None end.
(** [e.Runner[k].(string)], empty when it is none. *)
Definition runner_text (e : Event) (k : string) : string :=
  match ev_Runner e !! k with Some (AnyString s) => s | _ => "" end.
Definition runner_true (e : Event) (k : string) : bool :=
  match ev_Runner e !! k with Some (AnyBool b) => b | _ => false end.

Definition handoffValidationRetryAnnotationKind : string := "handoff.validation.retry".
Definition RetryDecisionKind : string := "stage.retry.decision".
Definition invalidHandoffGateName (consumer : string) : string := "handoff.validation:" +:+ consumer.
Definition invalidHandoffUnsupportedTopologyReason : string := "invalid_handoff_unsupported_topology".

(** ** The invalid handoff reroute *)

Record invalidHandoffRetry := mkHandoff { ih_Producer : string; ih_Input : string }.

Definition synthetic_gate (consumer producer : string) : Gate :=
  mkGate (invalidHandoffGateName consumer) EvaluatorAutomated None None None {[ OutcomeFail := producer ]} 0 None.

(** [decideInvalidHandoff]: the budget after it, the annotation, and whether the
    run escalates. *)
Definition decideInvalidHandoff (budget : RepassBudget) (consumer : string) (retry : invalidHandoffRetry)
    (unsupported : string) (reentry : bool) (maxRepasses : Z) : RepassBudget * gmap string Any * bool :=
  let fields : gmap string Any :=
    {[ "kind" := AnyString handoffValidationRetryAnnotationKind; "consumer" := AnyString consumer;
       "producer" := AnyString (ih_Producer retry); "input" := AnyString (ih_Input retry) ]} in
  if negb (unsupported =? "") then
    (budget,
     <["escalated" := AnyBool true]> (<["reason" := AnyString invalidHandoffUnsupportedTopologyReason]>
       (<["detail" := AnyString unsupported]> fields)), true)
  else
    let '(budget, charge) := Charge budget (synthetic_gate consumer (ih_Producer retry)) OutcomeFail
                               (ih_Producer retry) reentry maxRepasses in
    let fields := <["target" := AnyString (ih_Producer retry)]> (<["repassAttempt" := AnyInt (Attempt charge)]>
                    (<["repassLimit" := AnyInt (Bound charge)]> fields)) in
    if Exceeded charge then
      (budget, <["escalated" := AnyBool true]>
                 (<["reason" := AnyString (escalation_string (EscalationReason charge))]> fields), true)
    else (budget, fields, false).

Definition handoff_event (consumer : string) (fields : gmap string Any) : Event :=
  mkEvent "" 0 EventRunnerAnnotation 0 0 consumer "" "" "" "" "" "" None "" None fields false
    "" "" "" "" "" "" "" "" "" "" false 0.

(** ** Seeds *)

Definition is_handoff_retry (e : Event) : bool :=
  match ev_Type e with
  | EventRunnerAnnotation => runner_text e "kind" =? handoffValidationRetryAnnotationKind
  | _ => false
  end.

(** [gateAttempt], or [repassAttempt] in older events. *)
Definition recorded_attempt (e : Event) : option Z :=
  match runner_int e "gateAttempt" with Some n => Some n | None => runner_int e "repassAttempt" end.

Definition gate_repass_step (seed : Counters) (e : Event) : Counters :=
  if is_handoff_retry e then
    match runner_int e "repassAttempt" with
    | Some n => if runner_text e "target" =? "" then seed else set_counter seed (invalidHandoffGateName (ev_Stage e)) n
    | None => seed
    end
  else
    let recorded := match recorded_attempt e with Some n => set_counter seed (ev_Gate e) n | None => seed end in
    match ev_Type e with
    | EventGateStarted => recorded
    | EventGateEvaluated =>
        if ev_Verdict e =? OutcomeTimeout then seed
        else if ev_Verdict e =? OutcomeInfra then set_counter seed (ev_Gate e) 0
        else recorded
    | _ => seed
    end.
Definition gateRepassSeed (events : list Event) : Counters := fold_left gate_repass_step events None.

Definition gate_infra_step (seed : Counters) (e : Event) : Counters :=
  match ev_Type e with
  | EventGateEvaluated =>
      if ev_Verdict e =? OutcomeTimeout then seed
      else
        let seed := Some (default ∅ seed) in
        if negb (ev_Verdict e =? OutcomeInfra) then set_counter seed (ev_Gate e) 0
        else match recorded_attempt e with Some n => set_counter seed (ev_Gate e) n | None => seed end
  | _ => seed
  end.
Definition gateInfrastructureSeed (events : list Event) : Counters := fold_left gate_infra_step events None.

(** [if n > seed[target] { seed[target] = n }] on a map made when nil. *)
Definition raise_to (seed : Counters) (target : string) (n : Z) : Counters :=
  let seed := Some (default ∅ seed) in if (counter seed target <? n)%Z then set_counter seed target n else seed.

Definition target_repass_step (seed : Counters) (e : Event) : Counters :=
  if is_handoff_retry e then
    match runner_int e "repassAttempt" with
    | Some n => if runner_text e "target" =? "" then seed else raise_to seed (runner_text e "target") n
    | None => seed
    end
  else match ev_Type e with
  | EventGateEvaluated =>
      if (ev_Verdict e =? OutcomeInfra) || (ev_Verdict e =? OutcomeTimeout) then seed
      else
        let target := runner_text e "repassTarget" in
        let target := if (target =? "") && negb (ev_Verdict e =? OutcomePass) && negb (ev_Escalated e)
                      then ev_Target e else target in
        match runner_int e "repassAttempt" with
        | Some n => if target =? "" then seed else raise_to seed target n
        | None => seed
        end
  | _ => seed
  end.
Definition targetRepassSeed (events : list Event) : Counters := fold_left target_repass_step events None.

(** The seeds that a gate's other outcomes reset: the counters, and the last
    target each gate charged. *)
Record reset_seed := mkSeed { rs_seed : Counters; rs_targets : gmap string string }.
Definition reset_target (s : reset_seed) (gate : string) : reset_seed :=
  match rs_targets s !! gate, rs_seed s with
  | Some t, Some _ => mkSeed (set_counter (rs_seed s) t 0) (rs_targets s)
  | _, _ => s
  end.
Definition charge_target (s : reset_seed) (gate target : string) (n : Z) : reset_seed :=
  mkSeed (raise_to (rs_seed s) target n) (<[gate := target]> (rs_targets s)).

Definition infra_target_step (s : reset_seed) (e : Event) : reset_seed :=
  match ev_Type e with
  | EventGateEvaluated =>
      if ev_Verdict e =? OutcomeTimeout then s
      else if negb (ev_Verdict e =? OutcomeInfra) then reset_target s (ev_Gate e)
      else
        let target := runner_text e "repassTarget" in
        let target := if (target =? "") && negb (ev_Escalated e) then ev_Target e else target in
        match runner_int e "repassAttempt" with
        | Some n => if target =? "" then s else charge_target s (ev_Gate e) target n
        | None => s
        end
  | _ => s
  end.
Definition infrastructureTargetRepassSeed (events : list Event) : Counters :=
  rs_seed (fold_left infra_target_step events (mkSeed None ∅)).

Definition polling_target_step (s : reset_seed) (e : Event) : reset_seed :=
  match ev_Type e with
  | EventGateEvaluated =>
      if negb (ev_Verdict e =? OutcomeTimeout) then reset_target s (ev_Gate e)
      else
        let target := runner_text e "pollTarget" in
        let target := if (target =? "") && negb (ev_Escalated e) then ev_Target e else target in
        match runner_int e "pollAttempt" with
        | Some n => if target =? "" then s else charge_target s (ev_Gate e) target n
        | None => s
        end
  | _ => s
  end.
Definition pollingTargetSeed (events : list Event) : Counters :=
  rs_seed (fold_left polling_target_step events (mkSeed None ∅)).

Definition stage_visit_step (seed : gset string) (e : Event) : gset string :=
  match ev_Type e with
  | EventStageFinished => if ev_Stage e =? "" then seed else {[ev_Stage e]} ∪ seed
  | _ => seed
  end.
Definition stageVisitSeed (events : list Event) : gset string := fold_left stage_visit_step events ∅.

Definition gate_diff_step (seed : gmap string string) (e : Event) : gmap string string :=
  match ev_Type e with
  | EventGateEvaluated =>
      if runner_text e "diffDigest" =? "" then seed else <[ev_Gate e := runner_text e "diffDigest"]> seed
  | _ => seed
  end.
Definition gateDiffSeed (events : list Event) : gmap string string := fold_left gate_diff_step events ∅.

Record evidenceRejectionBudget := mkRejections { rej_digest : string; rej_count : Z }.
Definition charge_rejection (budgets : gmap string evidenceRejectionBudget) (gate digest : string)
    : gmap string evidenceRejectionBudget :=
  let budget := default (mkRejections "" 0) (budgets !! gate) in
  let budget := if rej_digest budget =? digest then budget else mkRejections digest 0 in
  <[gate := mkRejections (rej_digest budget) (rej_count budget + 1)]> budgets.
Definition rejection_step (seed : gmap string evidenceRejectionBudget) (e : Event)
    : gmap string evidenceRejectionBudget :=
  match ev_Type e with
  | EventGateEvaluated => delete (ev_Gate e) seed
  | EventRunnerAnnotation =>
      if runner_text e "kind" =? "remediation-evidence-validation"
      then charge_rejection seed (ev_Gate e) (runner_text e "diffDigest") else seed
  | _ => seed
  end.
Definition remediationEvidenceRejectionSeed (events : list Event) : gmap string evidenceRejectionBudget :=
  fold_left rejection_step events ∅.

(** [rerunContext], as far as the gate budgets go: the stage an operator asked to
    run again, and the evaluations of it started since. *)
Record rerunContext := mkRerun { rc_stage : string; rc_gateAttempts : Z }.

(** [pendingRerunGateAttempts]. *)
Definition pendingRerunGateAttempts (events : list Event) (gate : string) : Z :=
  Z.of_nat (length (List.filter (fun e => bool_decide (ev_Type e = EventGateStarted) && (ev_Gate e =? gate)) events)).

(** [resetRerunGateSeeds]: the rerun of an agentic gate starts its count and its
    reviewed digest afresh. *)
Definition resetRerunGateSeeds (gates : gmap string Gate) (rerun : option rerunContext)
    (attempts : Counters) (digests : gmap string string) : Counters * gmap string string :=
  match rerun with
  | None => (attempts, digests)
  | Some rc =>
      match gates !! rc_stage rc with
      | None => (attempts, digests)
      | Some g =>
          if negb (bool_decide (Evaluator g = EvaluatorAgentic)) then (attempts, digests)
          else
            let attempts := match attempts with
                            | None => if (0 <? rc_gateAttempts rc)%Z then Some ∅ else None
                            | Some _ => attempts
                            end in
            (match attempts with
             | None => None
             | Some _ => set_counter attempts (rc_stage rc) (rc_gateAttempts rc)
             end, delete (rc_stage rc) digests)
      end
  end.

(** The budgets of a resumed evaluator; [gates] are the machine's. *)
Definition seedGateBudgets (gates : gmap string Gate) (rerun : option rerunContext) (segment : list Event)
    : GateEvaluator :=
  let '(attempts, digests) := resetRerunGateSeeds gates rerun (gateRepassSeed segment) (gateDiffSeed segment) in
  mkEvaluator
    (mkBudget attempts (gateInfrastructureSeed segment) (targetRepassSeed segment)
       (infrastructureTargetRepassSeed segment) (pollingTargetSeed segment))
    digests.

(** A stage was asked to run again; without such an event [pendingRerun] finds
    nothing, and a restart has no rerun context. *)
Definition rerun_requested (events : list Event) : bool :=
  existsb (fun e => bool_decide (ev_Type e = EventStageRerunRequested)) events.

(** ** Where the run stood *)

Fixpoint segment_scan (newest acc : list Event) : list Event * string :=
  match newest with
  | [] => (acc, "")
  | e :: older =>
      match ev_Type e with
      | EventRunResumed | EventGateOverridden => (acc, ev_Target e)
      | _ => segment_scan older (e :: acc)
      end
  end.
Definition currentRunSegment (events : list Event) : list Event * string := segment_scan (rev events) [].

Fixpoint evaluation_scan (gateName : string) (newest : list Event) : option Event :=
  match newest with
  | [] => None
  | e :: older =>
      match ev_Type e with
      | EventStageFinished => None
      | EventGateEvaluated => if ev_Gate e =? gateName then Some e else evaluation_scan gateName older
      | EventGatePaused | EventGateStarted => if ev_Gate e =? gateName then None else evaluation_scan gateName older
      | _ => evaluation_scan gateName older
      end
  end.
Definition latestCompletedGateEvaluation (events : list Event) (gateName : string) : option Event :=
  evaluation_scan gateName (rev events).

(** [Event.RepassAttempt]. *)
Definition gateRepassAttempt (e : Event) : Z := default 0%Z (runner_int e "repassAttempt").

Definition gateResultFromEvent (e : Event) : GateResult :=
  mkResult (ev_Gate e) "" (ev_Verdict e) (ev_Target e) (gateRepassAttempt e) "" 0 0 "" (ev_Escalated e) false None ""
    false false None None no_resolution.

Fixpoint retry_decision_scan (evaluated : Event) (newest : list Event) : bool :=
  match newest with
  | [] => false
  | e :: older =>
      if (ev_Seq e <=? ev_Seq evaluated)%N then false
      else match ev_Type e with
      | EventRunnerAnnotation =>
          if (ev_Gate e =? ev_Gate evaluated) && (runner_text e "kind" =? RetryDecisionKind) then true
          else retry_decision_scan evaluated older
      | _ => retry_decision_scan evaluated older
      end
  end.
Definition hasRetryDecisionAfter (events : list Event) (evaluated : Event) : bool :=
  retry_decision_scan evaluated (rev events).

Fixpoint interrupted_scan (stageName : string) (newest : list Event) : Z :=
  match newest with
  | [] => 0
  | e :: older =>
      if negb (ev_Stage e =? stageName) then interrupted_scan stageName older
      else match ev_Type e with
      | EventStageStarted => ev_Attempt e
      | EventStageFinished => 0
      | _ => interrupted_scan stageName older
      end
  end.
Definition interruptedAttempt (events : list Event) (stageName : string) : Z := interrupted_scan stageName (rev events).

Fixpoint continuation_scan (gate : string) (branch : Z) (newest : list Event) : Z :=
  match newest with
  | [] => 0
  | e :: older =>
      let here := (ev_Branch e =? branch)%Z in
      match ev_Type e with
      | EventRunFinished => 0
      | EventParallelStarted => if negb (branch =? 0)%Z then 0 else continuation_scan gate branch older
      | EventGateEvaluated => if here && (ev_Gate e =? gate) then 0 else continuation_scan gate branch older
      | EventStageRerunRequested => if here && (ev_Stage e =? gate) then 0 else continuation_scan gate branch older
      | EventReviewerStarted => if here && (ev_Gate e =? gate) then ev_Attempt e else continuation_scan gate branch older
      | _ => continuation_scan gate branch older
      end
  end.
(** [journal.ReviewerContinuation]. *)
Definition ReviewerContinuation (events : list Event) (gate : string) (branch : Z) : Z :=
  continuation_scan gate branch (rev events).
