(* ===== verification/GateResumeFacts.v ===== *)
(** * What one gate evaluation does, to the budget and to the journal

    The counters after a charge, the annotations a verdict leaves, and the
    events an evaluation appends, against any journal that keeps the laws of
    [GateJournalLaws]. *)

From S2P Require Export GateResume.
Local Open Scope Z_scope.
Local Open Scope string_scope.
Local Open Scope list_scope.

(** ** A charge, counter by counter *)

Definition on (b : bool) (z : Z) : Z := if b then z else 0.

Record charge_effect (b : RepassBudget) (g : Gate) (outcome target : string) (reentry : bool)
    (b' : RepassBudget) (c : RepassCharge) : Prop := {
  eff_attempts : forall n, counter (Attempts b') n =
    if negb (n =? gate_Name g) then counter (Attempts b) n
    else match class_of outcome with
         | Some Poll => counter (Attempts b) n | Some Policy => counter (Attempts b) n + 1 | _ => 0
         end;
  eff_infra_attempts : forall n, counter (InfrastructureAttempts b') n =
    if negb (n =? gate_Name g) then counter (InfrastructureAttempts b) n
    else match class_of outcome with
         | Some Poll => counter (InfrastructureAttempts b) n
         | Some Infra => counter (InfrastructureAttempts b) n + 1 | _ => 0
         end;
  eff_gate_attempt : GateAttempt c =
    match class_of outcome with
    | Some Policy => counter (Attempts b) (gate_Name g) + 1
    | Some Infra => counter (InfrastructureAttempts b) (gate_Name g) + 1
    | _ => 0
    end;
  eff_repass : forall t, counter (RepassAttempts b') t =
    match class_of outcome with
    | Some Policy => counter (RepassAttempts b) t + on (reentry && (t =? target)) 1
    | _ => counter (RepassAttempts b) t
    end;
  eff_infra_repass : forall t, counter (InfrastructureRepassAttempts b') t =
    match class_of outcome with
    | Some Infra => counter (InfrastructureRepassAttempts b) t + on (reentry && (t =? target)) 1
    | Some Poll => counter (InfrastructureRepassAttempts b) t
    | _ => if bool_decide (gate_Branches g !! "infra" = Some t) then 0
           else counter (InfrastructureRepassAttempts b) t
    end;
  eff_polls : forall t, counter (PollAttempts b') t =
    match class_of outcome with
    | Some Poll => counter (PollAttempts b) t + on (reentry && (t =? target)) 1
    | _ => if bool_decide (gate_Branches g !! "timeout" = Some t) then 0 else counter (PollAttempts b) t
    end;
  eff_charged : (RepassTarget c, Attempt c) =
    match class_of outcome with
    | Some Policy => if reentry then (target, counter (RepassAttempts b') target) else ("", 0)
    | Some Infra => if reentry then (target, counter (InfrastructureRepassAttempts b') target) else ("", 0)
    | _ => ("", 0)
    end;
  eff_polled : (PollTarget c, PollAttempt c) =
    match class_of outcome with
    | Some Poll => if reentry then (target, counter (PollAttempts b') target) else ("", 0)
    | _ => ("", 0)
    end;
  eff_pass : Exceeded c = true -> class_of outcome <> None
}.

Lemma class_of_cases o :
  (class_of o = None /\ o = "pass") \/ (class_of o = Some Poll /\ o = "timeout") \/
  (class_of o = Some Infra /\ o = "infra") \/
  (class_of o = Some Policy /\ o <> "pass" /\ o <> "timeout" /\ o <> "infra").
Proof.
  unfold class_of, is_pass, is_timeout, is_infra.
  destruct (String.eqb_spec o "pass"); [by left|]. destruct (String.eqb_spec o "timeout"); [by right; left|].
  destruct (String.eqb_spec o "infra"); [by right; right; left|]. by right; right; right.
Qed.

Lemma set_counter_eqb m k v j : counter (set_counter m k v) j = if (j =? k)%string then v else counter m j.
Proof.
  rewrite counter_set. destruct (String.eqb_spec j k); [by rewrite bool_decide_eq_true_2|by rewrite bool_decide_eq_false_2].
Qed.
Lemma bump_eqb m k j : counter (bump m k) j = counter m j + on (j =? k) 1.
Proof. unfold bump. rewrite set_counter_eqb. unfold on. destruct (String.eqb_spec j k); subst; lia. Qed.
Lemma counter_made m k : counter (Some (default ∅ m)) k = counter m k.
Proof. by destruct m. Qed.

Lemma Charge_effect b g outcome target reentry mx b' c :
  Charge b g outcome target reentry mx = (b', c) -> charge_effect b g outcome target reentry b' c.
Proof.
  unfold Charge, charge_gate. intros HC.
  destruct (class_of_cases outcome) as [[Hc ->]|[[Hc ->]|[[Hc ->]|(Hc & Hp%String.eqb_neq & Ht%String.eqb_neq & Hi%String.eqb_neq)]]];
    [| | |change (is_pass outcome = false) in Hp; change (is_timeout outcome = false) in Ht;
          change (is_infra outcome = false) in Hi; rewrite Hp, Ht, Hi in HC];
    cbn [is_pass is_timeout is_infra String.eqb Ascii.eqb Bool.eqb negb andb orb] in HC;
    unfold is_pass, is_timeout, is_infra in HC; cbn in HC; rewrite ?orb_false_r, ?orb_true_r in HC;
    destruct reentry; cbn in HC; injection HC as <- <-;
    (split; rewrite ?Hc; cbn; try done;
     intros; rewrite ?set_counter_eqb, ?bump_eqb, ?counter_reset, ?counter_made, ?String.eqb_refl; unfold on; cbn;
     try done; try (destruct (String.eqb_spec n (gate_Name g)); subst; cbn; lia); try lia).
Qed.

(** ** Journals *)

(** The fields the seeds read. *)
Definition seen_as (e e' : Event) : Prop :=
  ev_Type e' = ev_Type e /\ ev_Gate e' = ev_Gate e /\ ev_Verdict e' = ev_Verdict e /\ ev_Target e' = ev_Target e /\
  ev_Stage e' = ev_Stage e /\ ev_Escalated e' = ev_Escalated e /\ ev_Runner e' = ev_Runner e.

(** Events no seed reads, no segment starts at and no rerun is asked with. *)
Definition inert (e : Event) : bool :=
  match ev_Type e with
  | EventGateStarted | EventGateEvaluated | EventRunResumed | EventGateOverridden | EventStageRerunRequested => false
  | EventRunnerAnnotation => negb (is_handoff_retry e)
  | _ => true
  end.

(** A journal keeps what was appended, in order; storing an artifact may leave
    records of its own. *)
Class GateJournalLaws (J : Type) `{GateJournal J} := {
  j_events : J -> list Event;
  append_kept : forall j e j', j_Append j e = (j', true) ->
    exists e', j_events j' = j_events j ++ [e'] /\ seen_as e e';
  artifact_kept : forall j name v j' a, j_RecordArtifact j name v = (j', Some a) ->
    exists extra, j_events j' = j_events j ++ extra /\ Forall (fun e => inert e = true) extra
}.

Lemma seen_inert e e' : seen_as e e' -> inert e' = inert e.
Proof.
  intros (Ht & _ & _ & _ & _ & _ & Hr). unfold inert, is_handoff_retry, runner_text. by rewrite Ht, Hr.
Qed.

Section effects.
Context {W J : Type} `{L : GateJournalLaws J} {Lower : LowerCase} {Text : FindingText} {Quo : Quoting}.
Abbreviation M := (M W J).
Abbreviation state := (gate_state W J).

(** The evaluator is as before and the journal grew by [extra]. *)
Definition grew (s s' : state) (extra : list Event) : Prop :=
  gs_eval s' = gs_eval s /\
  forall j, gs_journal s = Some j -> exists j', gs_journal s' = Some j' /\ j_events j' = j_events j ++ extra.
Definition quiet (s s' : state) : Prop := exists extra, grew s s' extra /\ Forall (fun e => inert e = true) extra.
Definition quiet_m {A} (m : M A) : Prop := forall s a s', m s = (Ok a, s') -> quiet s s'.

Lemma grew_nil s : grew s s [].
Proof. split; [done|]. intros j Hj. exists j. by rewrite app_nil_r. Qed.
Lemma grew_trans s1 s2 s3 x y : grew s1 s2 x -> grew s2 s3 y -> grew s1 s3 (x ++ y).
Proof.
  intros [He1 H1] [He2 H2]. split; [congruence|]. intros j Hj. destruct (H1 j Hj) as (j2 & Hj2 & E2).
  destruct (H2 j2 Hj2) as (j3 & Hj3 & E3). exists j3. split; [done|]. by rewrite E3, E2, app_assoc.
Qed.
Lemma quiet_refl s : quiet s s.
Proof. exists []. split; [apply grew_nil|constructor]. Qed.
Lemma quiet_trans s1 s2 s3 : quiet s1 s2 -> quiet s2 s3 -> quiet s1 s3.
Proof.
  intros (x & Hx & Fx) (y & Hy & Fy). exists (x ++ y). split; [by eapply grew_trans|]. by apply Forall_app.
Qed.

Lemma bind_ok {A B} (m : M A) (f : A -> M B) s b s' :
  bind m f s = (Ok b, s') <-> exists a s1, m s = (Ok a, s1) /\ f a s1 = (Ok b, s').
Proof.
  unfold bind. destruct (m s) as [[a|e] s1]; split; [by eauto|naive_solver|done|naive_solver].
Qed.

Lemma quiet_ret {A} (a : A) : quiet_m (ret a).
Proof. intros s a' s' [= _ <-]. apply quiet_refl. Qed.
Lemma quiet_fail {A} e : quiet_m (@fail W J A e).
Proof. by intros s a s' H'. Qed.
Lemma quiet_get : quiet_m get_eval.
Proof. intros s a s' [= _ <-]. apply quiet_refl. Qed.
Lemma quiet_call {A} (f : W -> W * A) : quiet_m (call f).
Proof.
  intros s a s'. unfold call. destruct (f (gs_world s)) as [w x]. intros [= _ <-]. exists [].
  split; [|constructor]. split; [done|]. intros j Hj. exists j. by rewrite app_nil_r.
Qed.
Lemma quiet_bind {A B} (m : M A) (f : A -> M B) : quiet_m m -> (forall a, quiet_m (f a)) -> quiet_m (bind m f).
Proof. intros Hm Hf s b s' (a & s1 & H1 & H2)%bind_ok. eapply quiet_trans; [by eapply Hm|by eapply Hf]. Qed.

Lemma journal_event_grew e s a s' :
  journal_event e s = (Ok a, s') ->
  exists e', seen_as e e' /\ grew s s' (match gs_journal s with Some _ => [e'] | None => [] end).
Proof.
  unfold journal_event. destruct (gs_journal s) as [j|] eqn:Ej.
  - destruct (j_Append j e) as [j' []] eqn:Ea; [|done]. intros [= _ <-].
    destruct (append_kept _ _ _ Ea) as (e' & Hev & Hs). exists e'. split; [done|].
    split; [done|]. intros j0 [= <-]%(eq_trans (eq_sym Ej)). by exists j'.
  - intros [= _ <-]. exists e. split; [done|]. apply grew_nil.
Qed.
Lemma quiet_event e : inert e = true -> quiet_m (journal_event e).
Proof.
  intros He s a s' (e' & Hs & Hg)%journal_event_grew. eexists. split; [exact Hg|].
  destruct (gs_journal s); constructor; [|constructor]. by rewrite (seen_inert _ _ Hs).
Qed.
End effects.

Create HintDb quiet_db.
#[export] Hint Resolve quiet_ret quiet_fail quiet_get quiet_call : quiet_db.
(** The computation changes no counter and appends nothing a seed reads. *)
Ltac quiet :=
  repeat first
    [ progress intros
    | apply quiet_bind
    | solve [eauto with quiet_db]
    | solve [apply quiet_event; reflexivity]
    | match goal with |- quiet_m (match ?x with _ => _ end) => destruct x end
    | match goal with |- quiet_m (if ?x then _ else _) => destruct x end ].

Section calls.
Context {W J : Type} `{L : GateJournalLaws J} {Lower : LowerCase} {Text : FindingText} {Quo : Quoting}.
Variable wire : Wiring W.

Lemma quiet_retry_automated name mx backoff attempt left f :
  quiet_m (J := J) (retry_automated wire name mx backoff attempt left f).
Proof. revert attempt. induction left as [|left IH]; intros attempt; cbn [retry_automated]; quiet. Qed.

Lemma quiet_retry_reviewer goober g mx backoff previous class stage artifacts attempt left env :
  quiet_m (J := J) (retry_reviewer wire goober g mx backoff previous class stage artifacts attempt left env).
Proof.
  revert class attempt env. induction left as [|left IH]; intros class attempt env; cbn [retry_reviewer];
    unfold recordReviewerStart, recordReviewerFinish, recordEvaluatorRetry, recordVerdictValidationRetry; quiet.
Qed.

Lemma quiet_recovered_review name : quiet_m (J := J) (recovered_review wire name).
Proof. unfold recovered_review. quiet. Qed.

Lemma quiet_agentic g env stage artifacts d empty :
  quiet_m (J := J) (answer_of_agentic wire g env stage artifacts d empty).
Proof.
  unfold answer_of_agentic, evaluateReviewerWithRetry. destruct (RetryBounds _). quiet.
  all: try apply quiet_retry_reviewer.
Qed.
Lemma quiet_automated g env : quiet_m (J := J) (answer_of_automated wire g env).
Proof.
  unfold answer_of_automated, evaluateWithRetry. destruct (RetryBounds _). quiet. all: try apply quiet_retry_automated.
Qed.
End calls.

(** ** What [gate.evaluated] says *)

Lemma put_ne b k v m k' : k' <> k -> put b k v m !! k' = m !! k'.
Proof. intros Hk. unfold put. destruct b; [|done]. by rewrite lookup_insert_ne. Qed.
Lemma put_eq b k v m : put b k v m !! k = if b then Some v else m !! k.
Proof. unfold put. destruct b; [|done]. by rewrite lookup_insert_eq. Qed.
Ltac annotation :=
  unfold runner_int, runner_text, recorded_attempt, verdict_annotations, some_ids;
  rewrite ?put_ne by discriminate; rewrite ?put_eq; rewrite ?put_ne by discriminate;
  rewrite ?lookup_insert_ne by discriminate; rewrite ?lookup_insert_eq, ?lookup_singleton_eq, ?lookup_empty.

Lemma verdict_annotations_read r d e :
  ev_Runner e = verdict_annotations r d ->
  runner_int e "repassAttempt" = Some (gr_Attempt r) /\
  runner_int e "gateAttempt" = Some (gr_GateAttempt r) /\
  runner_text e "repassTarget" = gr_RepassTarget r /\
  runner_text e "pollTarget" = gr_PollTarget r /\
  (gr_PollTarget r <> "" -> runner_int e "pollAttempt" = Some (gr_PollAttempt r)) /\
  (gr_PollTarget r = "" -> runner_int e "pollAttempt" = None) /\
  runner_text e "diffDigest" = d.
Proof.
  intros He. unfold runner_int, runner_text. rewrite He.
  repeat split; annotation; try done.
  - by destruct (String.eqb_spec (gr_RepassTarget r) "") as [->|].
  - by destruct (String.eqb_spec (gr_PollTarget r) "") as [->|].
  - by intros ->%String.eqb_neq.
  - by intros ->.
  - by destruct (String.eqb_spec d "") as [->|].
Qed.

(** The event a result is reported with. *)
Record reports (r : GateResult) (d : string) (e : Event) : Prop := {
  rep_type : ev_Type e = EventGateEvaluated;
  rep_gate : ev_Gate e = gr_Gate r;
  rep_verdict : ev_Verdict e = gr_Outcome r;
  rep_target : ev_Target e = gr_Target r;
  rep_escalated : ev_Escalated e = gr_Escalated r;
  rep_attempt : runner_int e "repassAttempt" = Some (gr_Attempt r);
  rep_gate_attempt : runner_int e "gateAttempt" = Some (gr_GateAttempt r);
  rep_repass_target : runner_text e "repassTarget" = gr_RepassTarget r;
  rep_poll_target : runner_text e "pollTarget" = gr_PollTarget r;
  rep_polled : gr_PollTarget r <> "" -> runner_int e "pollAttempt" = Some (gr_PollAttempt r);
  rep_unpolled : gr_PollTarget r = "" -> runner_int e "pollAttempt" = None;
  rep_digest : runner_text e "diffDigest" = d
}.

Lemma evaluated_reports r d e : seen_as (gate_evaluated_event r d) e -> reports r d e.
Proof.
  intros (Ht & Hg & Hv & Htg & _ & He & Hr).
  destruct (verdict_annotations_read r d e Hr) as (? & ? & ? & ? & ? & ? & ?). by constructor.
Qed.

(** The result a caller gets is the one reported, up to the verdict's findings. *)
Definition same_route (r r' : GateResult) : Prop :=
  gr_Gate r' = gr_Gate r /\ gr_Outcome r' = gr_Outcome r /\ gr_Target r' = gr_Target r /\
  gr_Escalated r' = gr_Escalated r /\ gr_Interrupted r' = gr_Interrupted r /\ gr_Reason r' = gr_Reason r.

Section resolve.
Context {W J : Type} `{L : GateJournalLaws J} {Lower : LowerCase} {Text : FindingText} {Quo : Quoting}.

Lemma recordVerdict_ok r d (s : gate_state W J) j r' s' :
  recordVerdict r d s = (Ok r', s') -> gs_journal s = Some j ->
  same_route r r' /\ exists extra e, grew s s' (extra ++ [e]) /\ Forall (fun x => inert x = true) extra /\ reports r d e.
Proof.
  intros HR Hj. unfold recordVerdict in HR. rewrite Hj in HR. cbn zeta in HR.
  set (v := fmap _ (gr_Verdict r)) in HR. set (name := (_ +:+ _)%string) in HR.
  set (stored := match v with Some _ => _ | None => _ end) in HR.
  destruct stored as [j1 [a|]] eqn:Es; [|done].
  assert (exists extra, j_events j1 = j_events j ++ extra /\ Forall (fun x => inert x = true) extra) as (extra & Hx & Fx).
  { subst stored. destruct v as [v'|]; [|injection Es as <- _; exists []; rewrite app_nil_r; by split].
    destruct (j_RecordArtifact j name v') as [j2 [p|]] eqn:Ea; cbn in Es; [|done].
    injection Es as <- _. by eapply artifact_kept. }
  destruct (j_Append j1 _) as [j2 []] eqn:Ea; [|done]. injection HR as <- <-.
  split; [by repeat split|]. destruct (append_kept _ _ _ Ea) as (e & He & Hs).
  exists extra, e. split; [|split; [done|]].
  - split; [done|]. intros j0 [= <-]%(eq_trans (eq_sym Hj)). exists j2. split; [done|]. by rewrite He, Hx, app_assoc.
  - destruct (evaluated_reports _ _ _ Hs). by constructor.
Qed.

(** [outcome] of [g] was charged and reported by [ev]. *)
Record resolved (wire : Wiring W) (g : Gate) (outcome d : string) (e e' : GateEvaluator) (r : GateResult) (ev : Event)
    (target : string) (charge : RepassCharge) : Prop := {
  res_branch : BranchTarget g outcome = Some target;
  res_charge : Charge (ge_Budget e) g outcome target
      (match wi_IsReentry wire with Some f => f target | None => negb (outcome =? OutcomePass) end)
      (wi_MaxRepasses wire) = (ge_Budget e', charge);
  res_digest : ge_LastDiffDigest e' =
      if d =? "" then ge_LastDiffDigest e else <[gate_Name g := d]> (ge_LastDiffDigest e);
  res_reports : reports r d ev;
  res_gate : gr_Gate r = gate_Name g;
  res_class : class_of (gr_Outcome r) = class_of outcome;
  res_attempt : gr_Attempt r = Attempt charge;
  res_gate_attempt : gr_GateAttempt r = GateAttempt charge;
  res_repass_target : gr_RepassTarget r = RepassTarget charge;
  res_poll_target : gr_PollTarget r = PollTarget charge;
  res_poll_attempt : gr_PollAttempt r = PollAttempt charge;
  res_target : gr_Escalated r = false -> gr_Target r = target;
  res_interrupted : gr_Interrupted r = false
}.

(** A gate judged by an agent has no branch for what only a check reports. *)
Definition verdict_gate (g : Gate) : Prop :=
  BranchTarget g OutcomeInfra = None /\ BranchTarget g OutcomeTimeout = None.

Lemma note_digest_run g d (s : gate_state W J) :
  note_digest g d s = (Ok (), mkState (mkEvaluator (ge_Budget (gs_eval s))
    (if d =? "" then ge_LastDiffDigest (gs_eval s) else <[gate_Name g := d]> (ge_LastDiffDigest (gs_eval s))))
    (gs_world s) (gs_journal s)).
Proof.
  unfold note_digest, get_eval, bind, put_eval, ret. destruct (d =? "")%string; [|done].
  by destruct s as [[] ? ?].
Qed.

Lemma escalate_class g exceeded v o t v' :
  (v <> None -> verdict_gate g) -> BranchTarget g o = Some t -> (exceeded = true -> class_of o <> None) ->
  BudgetEscalationVerdict g exceeded (Some v') = (v, true) ->
  class_of (match v with Some x => vd_Decision x | None => o end) = class_of o.
Proof.
  intros HV HB HE. unfold BudgetEscalationVerdict. destruct exceeded; [|done].
  destruct (StructuredMechanicalEscalation g); [|done]. cbn. intros [= <-].
  assert (class_of o = Some Policy) as ->.
  { destruct (HV ltac:(done)) as [Hi Ht]. specialize (HE eq_refl).
    destruct (class_of_cases o) as [[? ?]|[[? ->]|[[? ->]|[? _]]]]; unfold OutcomeInfra, OutcomeTimeout in *; congruence. }
  by destruct (_ =? "")%string.
Qed.

Lemma resolveOutcome_ok (wire : Wiring W) g outcome verdict d dup forced hit reason res (s : gate_state W J) j r s' :
  (verdict <> None -> verdict_gate g) ->
  resolveOutcome wire g outcome verdict d dup forced hit reason res s = (Ok r, s') -> gs_journal s = Some j ->
  exists r0 target charge extra ev j', same_route r0 r /\
    resolved wire g outcome d (gs_eval s) (gs_eval s') r0 ev target charge /\
    gr_Escalated r0 = Exceeded charge || dup || forced /\
    (gr_Escalated r0 = true -> gr_Target r0 = escalationTarget g) /\
    gs_journal s' = Some j' /\ j_events j' = j_events j ++ extra ++ [ev] /\ Forall (fun x => inert x = true) extra.
Proof.
  intros HV HR Hj. unfold resolveOutcome in HR. apply bind_ok in HR as ([] & s1 & Hn & HR).
  rewrite note_digest_run in Hn. injection Hn as <-. cbn in HR.
  destruct (BranchTarget g outcome) as [target|] eqn:Eb; [|done].
  apply bind_ok in HR as (charge & s2 & Ht & HR). unfold trackRepass in Ht. cbn in Ht.
  destruct (Charge _ _ _ _ _ _) as [budget charge'] eqn:Ec in Ht. cbn in Ht. injection Ht as -> <-.
  destruct (BudgetEscalationVerdict g (Exceeded charge) verdict) as [v conv] eqn:Ev.
  apply (recordVerdict_ok _ _ _ j) in HR as [Hroute (extra & ev & [He Hg] & Fx & Hrep)]; [|done].
  destruct (Hg j) as (j' & Hj' & Hev); [done|].
  eexists _, target, charge, extra, ev, j'. split; [exact Hroute|]. split; [|split; [done|split; [|done]]].
  - rewrite He. constructor; cbn; try done.
    + destruct v as [x|], conv; try done. destruct verdict as [v'|]; [|done].
      eapply (escalate_class g _ (Some x)); [by intros _; apply HV|done|exact (eff_pass _ _ _ _ _ _ _ (Charge_effect _ _ _ _ _ _ _ _ Ec))|done].
    + by intros ->.
  - by cbn; intros ->.
Qed.
End resolve.

Section evaluations.
Context {W J : Type} `{L : GateJournalLaws J} {Lower : LowerCase} {Text : FindingText} {Quo : Quoting}.
Variable wire : Wiring W.

(** A gate was started, judged and resolved; [outcome] is what it was judged. *)
Definition evaluated (g : Gate) (outcome d : string) (s s' : gate_state W J) (j : J) (r : GateResult) : Prop :=
  exists r0 target charge start extra ev j', same_route r0 r /\
    resolved wire g outcome d (gs_eval s) (gs_eval s') r0 ev target charge /\
    seen_as (gate_started_event g (counter (Attempts (ge_Budget (gs_eval s))) (gate_Name g) + 1)) start /\
    Forall (fun x => inert x = true) extra /\
    gs_journal s' = Some j' /\ j_events j' = j_events j ++ [start] ++ extra ++ [ev].

Lemma RecoverInterrupted_ok g d (s : gate_state W J) j o s' :
  RecoverInterrupted wire g d s = (Ok o, s') -> gs_journal s = Some j ->
  match o with
  | None => s' = s /\ (counter (Attempts (ge_Budget (gs_eval s))) (gate_Name g) <= maxRepasses wire g)%Z
  | Some r => gr_Interrupted r = true /\ gr_Escalated r = true /\ gr_Target r = escalationTarget g
  end.
Proof.
  unfold RecoverInterrupted. intros HR Hj. apply bind_ok in HR as (e & s1 & [= <- <-] & HR).
  destruct (Z.leb_spec (counter (Attempts (ge_Budget (gs_eval s))) (gate_Name g)) (maxRepasses wire g)) as [Hle|Hgt].
  { by injection HR as <- <-. }
  apply bind_ok in HR as (r1 & s1 & Hs & HR). apply bind_ok in HR as (r2 & s2 & Hr & [= <- <-]).
  assert (gr_Interrupted r1 = true /\ gr_Escalated r1 = true /\ gr_Target r1 = escalationTarget g) as (Hi & He & Ht).
  { unfold setInterruptedVerdict in Hs. destruct (negb _); [by injection Hs as <- _|].
    apply bind_ok in Hs as (p & s3 & _ & [= <- _]). done. }
  assert (quiet_m (W := W) (J := J) (setInterruptedVerdict wire g (mkResult (gate_Name g) "" OutcomeFail (escalationTarget g)
     (counter (Attempts (ge_Budget (gs_eval s))) (gate_Name g)) "" (counter (Attempts (ge_Budget (gs_eval s))) (gate_Name g)) 0 "" true false None
     (escalation_string ReasonRepassBudgetExhausted) false true None None no_resolution))) as Hq.
  { unfold setInterruptedVerdict. destruct (negb _); [apply quiet_ret|].
    apply quiet_bind; [apply quiet_recovered_review|intros; apply quiet_ret]. }
  destruct (Hq _ _ _ Hs) as (x & [_ Hg] & _). destruct (Hg j Hj) as (j1 & Hj1 & _).
  apply (recordVerdict_ok _ _ _ j1) in Hr as [(_ & _ & Ht' & He' & Hi' & _) _]; [|done]. by rewrite Ht', He', Hi'.
Qed.

Lemma quiet_journal (s s' : gate_state W J) j :
  quiet s s' -> gs_journal s = Some j ->
  gs_eval s' = gs_eval s /\ exists j' extra, gs_journal s' = Some j' /\ j_events j' = j_events j ++ extra /\
    Forall (fun x => inert x = true) extra.
Proof. intros (x & [He Hg] & Fx) Hj. destruct (Hg j Hj) as (j' & ? & ?). split; [done|]. by exists j', x. Qed.

Lemma start_then_resolve g outcome verdict d dup forced hit reason res (s s1 s2 s' : gate_state W J) j r :
  (verdict <> None -> verdict_gate g) -> gs_journal s = Some j ->
  recordStart g (counter (Attempts (ge_Budget (gs_eval s))) (gate_Name g) + 1) s = (Ok (), s1) -> quiet s1 s2 ->
  resolveOutcome wire g outcome verdict d dup forced hit reason res s2 = (Ok r, s') ->
  evaluated g outcome d s s' j r.
Proof.
  intros HV Hj HS HQ HR. apply journal_event_grew in HS as (start & Hseen & [He1 Hg1]). rewrite Hj in Hg1.
  destruct (Hg1 j eq_refl) as (j1 & Hj1 & E1). destruct (quiet_journal _ _ _ HQ Hj1) as (He2 & j2 & x & Hj2 & E2 & Fx).
  destruct (resolveOutcome_ok _ _ _ _ _ _ _ _ _ _ _ j2 _ _ HV HR Hj2)
    as (r0 & target & charge & y & ev & j' & Hroute & Hres & _ & _ & Hj' & E' & Fy).
  rewrite He2, He1 in Hres. exists r0, target, charge, start, (x ++ y), ev, j'.
  split_and!; try done; [by apply Forall_app|]. by rewrite E', E2, E1, <- !app_assoc.
Qed.

Lemma judge_verdict g env d empty a : an_Verdict a = None -> jd_Verdict (judge wire g env d empty a) = None.
Proof. intros Ha. unfold judge, apply_arbitration, apply_disproof, apply_reconcile. cbn. by rewrite Ha; cbn. Qed.

Lemma Evaluate_ok g env stage artifacts d empty (s : gate_state W J) j r s' :
  (Evaluator g <> EvaluatorAutomated -> verdict_gate g) -> gs_journal s = Some j ->
  Evaluate wire g env stage artifacts d empty s = (Ok r, s') -> gr_Interrupted r = false ->
  Evaluator g <> EvaluatorHuman /\ exists outcome, evaluated g outcome d s s' j r.
Proof.
  intros HV Hj HE HI. unfold Evaluate in HE. apply bind_ok in HE as (o & s0 & HR & HE).
  apply (RecoverInterrupted_ok _ _ _ j) in HR; [|done]. destruct o as [r1|].
  { injection HE as <- _. destruct HR as [? _]. congruence. }
  destruct HR as [-> _]. destruct (configured wire g) as [e|] eqn:Ec; [done|].
  split; [intros Eh; unfold configured in Ec; by rewrite Eh in Ec|].
  apply bind_ok in HE as (e & s1 & [= <- <-] & HE). apply bind_ok in HE as ([] & s1 & HS & HE).
  apply bind_ok in HE as (a & s2 & HA & HE).
  assert (quiet s1 s2 /\ (an_Verdict a <> None -> verdict_gate g)) as [HQ HVa].
  { destruct (Evaluator g) eqn:Eg.
    2: by split; [eapply quiet_agentic|intros _; apply HV].
    all: split; [by eapply quiet_automated|].
    all: unfold answer_of_automated in HA; destruct (wi_Automated wire); [|done];
      apply bind_ok in HA as (out & s3 & _ & [= <- _]); done. }
  destruct (an_Invalid a).
  - eexists. by eapply start_then_resolve.
  - eexists. eapply start_then_resolve; [|done..|exact HE].
    intros HJ. apply HVa. intros Ha. by apply HJ, judge_verdict.
Qed.

Lemma EvaluateKnownOutcome_ok g outcome (s : gate_state W J) j r s' :
  gs_journal s = Some j -> EvaluateKnownOutcome wire g outcome s = (Ok r, s') -> gr_Interrupted r = false ->
  Evaluator g = EvaluatorAutomated /\ evaluated g outcome "" s s' j r.
Proof.
  intros Hj HE HI. unfold EvaluateKnownOutcome in HE. apply bind_ok in HE as (o & s0 & HR & HE).
  apply (RecoverInterrupted_ok _ _ _ j) in HR; [|done]. destruct o as [r1|].
  { injection HE as <- _. destruct HR as [? _]. congruence. }
  destruct HR as [-> _]. destruct (Evaluator g); try done. split; [done|].
  apply bind_ok in HE as (e & s1 & [= <- <-] & HE). apply bind_ok in HE as ([] & s1 & HS & HE).
  eapply start_then_resolve; [done|done|exact HS|apply quiet_refl|exact HE].
Qed.

Lemma EvaluateHuman_ok g decision actor (s : gate_state W J) j r s' :
  gs_journal s = Some j -> EvaluateHuman g decision actor s = (Ok r, s') ->
  exists r0 extra ev j', Evaluator g = EvaluatorHuman /\ gs_eval s' = gs_eval s /\ reports r0 "" ev /\
    gr_Gate r0 = gate_Name g /\ gr_Outcome r0 = decision /\ is_Some (BranchTarget g decision) /\ gr_Escalated r0 = false /\
    gr_Attempt r0 = 0%Z /\ gr_GateAttempt r0 = 0%Z /\ gr_RepassTarget r0 = "" /\ gr_PollTarget r0 = "" /\
    gs_journal s' = Some j' /\ j_events j' = j_events j ++ extra ++ [ev] /\ Forall (fun x => inert x = true) extra.
Proof.
  intros Hj HE. unfold EvaluateHuman in HE. destruct (ValidateHumanDecision g decision actor) eqn:EV; [done|].
  apply bind_ok in HE as (r1 & s1 & HR & [= <- <-]).
  apply (recordVerdict_ok _ _ _ j) in HR as [_ (extra & ev & [He Hg] & Fx & Hrep)]; [|done].
  destruct (Hg j Hj) as (j' & Hj' & E'). unfold ValidateHumanDecision in EV.
  destruct (Evaluator g); try done. repeat (destruct (_ && _) in EV; [done|]).
  destruct (BranchTarget g decision) as [t|] eqn:Eb; [|by repeat case_match].
  eexists _, extra, ev, j'. split_and!; try done.
Qed.
End evaluations.
