(* ===== verification/GateResumeProps.v ===== *)
(** * A restarted runner continues the gate budgets it had

    The runs of a gate evaluator against a journal, its crashes and restarts, and
    the theorem that the seeds of [resume.go] restore the counters. *)

From S2P Require Export GateResumeFacts.
Local Open Scope Z_scope.
Local Open Scope string_scope.
Local Open Scope list_scope.

(** ** Runs *)

(** What the restored count of a gate adds to the count the evaluator held: one
    from [gate.started] on, until an evaluation other than a poll that timed out. *)
Definition owed_step (n : string) (z : Z) (e : Event) : Z :=
  match ev_Type e with
  | EventGateStarted => if ev_Gate e =? n then 1 else z
  | EventGateEvaluated => if (ev_Gate e =? n) && negb (ev_Verdict e =? OutcomeTimeout) then 0 else z
  | _ => z
  end.
Definition owed (events : list Event) (n : string) : Z := fold_left (owed_step n) events 0.

Section runs.
Context {W J : Type} `{L : GateJournalLaws J} {Lower : LowerCase} {Text : FindingText} {Quo : Quoting}.
(** The gates of the workflow, by name. *)
Variable gates : gmap string Gate.
Abbreviation state := (gate_state W J).

(** A process and the number of events the journal had when it started. *)
Record process := mkProcess { pr_state : state; pr_since : nat }.

(** What the runner binds: a branch re-enters a stage that has a name. *)
Definition bound_by_runner (wire : Wiring W) : Prop := exists f, wi_IsReentry wire = Some f /\ f "" = false.

Inductive turn : process -> process -> Prop :=
| turn_evaluate wire g env stage artifacts d empty s r s' k :
    gates !! gate_Name g = Some g -> bound_by_runner wire ->
    Evaluate wire g env stage artifacts d empty s = (Ok r, s') -> gr_Interrupted r = false ->
    turn (mkProcess s k) (mkProcess s' k)
| turn_known wire g outcome s r s' k :
    gates !! gate_Name g = Some g -> bound_by_runner wire ->
    EvaluateKnownOutcome wire g outcome s = (Ok r, s') -> gr_Interrupted r = false ->
    turn (mkProcess s k) (mkProcess s' k)
| turn_human g decision actor s r s' k :
    gates !! gate_Name g = Some g -> EvaluateHuman g decision actor s = (Ok r, s') ->
    turn (mkProcess s k) (mkProcess s' k)
| turn_handoff consumer retry unsupported reentry mx e w j b fields stop j' k :
    (reentry = true -> ih_Producer retry <> "") ->
    decideInvalidHandoff (ge_Budget e) consumer retry unsupported reentry mx = (b, fields, stop) ->
    j_Append j (handoff_event consumer fields) = (j', true) ->
    turn (mkProcess (mkState e w (Some j)) k) (mkProcess (mkState (mkEvaluator b (ge_LastDiffDigest e)) w (Some j')) k)
| turn_event ev e w w' j j' k :
    inert ev = true -> j_Append j ev = (j', true) ->
    turn (mkProcess (mkState e w (Some j)) k) (mkProcess (mkState e w' (Some j')) k)
| turn_cut g e w w' j j' k :
    gates !! gate_Name g = Some g -> Evaluator g <> EvaluatorHuman ->
    j_Append j (gate_started_event g (counter (Attempts (ge_Budget e)) (gate_Name g) + 1)) = (j', true) ->
    turn (mkProcess (mkState e w (Some j)) k) (mkProcess (mkState e w' (Some j')) k)
| turn_restart e w w' j k :
    rerun_requested (j_events j) = false ->
    turn (mkProcess (mkState e w (Some j)) k)
      (mkProcess (mkState (seedGateBudgets gates None (fst (currentRunSegment (j_events j)))) w' (Some j)) (length (j_events j))).

(** No other gate has this branch target. *)
Definition exclusive (kind t : string) : Prop := forall n m g h,
  gates !! n = Some g -> gates !! m = Some h -> gate_Branches g !! kind = Some t -> gate_Branches h !! kind = Some t -> n = m.

(** ** The seeds that reset *)

Record tracks (kind : string) (s : reset_seed) (live : Counters) : Prop := {
  tr_branch : forall n t, rs_targets s !! n = Some t -> exists g, gates !! n = Some g /\ gate_Branches g !! kind = Some t;
  tr_exact : forall t, exclusive kind t -> counter (rs_seed s) t = counter live t;
  tr_live : forall t, counter live t <> 0 -> exists n, rs_targets s !! n = Some t;
  tr_seeded : forall t, counter (rs_seed s) t <> 0 -> exists n, rs_targets s !! n = Some t;
  tr_nonneg : forall t, 0 <= counter live t /\ 0 <= counter (rs_seed s) t
}.

Lemma raise_to_eqb m t n k : counter (raise_to m t n) k = if k =? t then Z.max (counter m t) n else counter m k.
Proof.
  unfold raise_to. rewrite counter_made. destruct (Z.ltb_spec (counter m t) n); rewrite ?set_counter_eqb, counter_made;
    destruct (String.eqb_spec k t); subst; lia.
Qed.
Lemma reset_target_seed s n k :
  counter (rs_seed (reset_target s n)) k = if bool_decide (rs_targets s !! n = Some k) then 0 else counter (rs_seed s) k.
Proof.
  unfold reset_target. destruct (rs_targets s !! n) as [t|]; [|by rewrite bool_decide_eq_false_2].
  destruct (rs_seed s) as [m|] eqn:Em; cbn; rewrite ?set_counter_eqb, ?Em.
  - destruct (String.eqb_spec k t) as [->|]; [by rewrite bool_decide_eq_true_2|]. rewrite bool_decide_eq_false_2; congruence.
  - by case_bool_decide.
Qed.
Lemma reset_target_targets s n : rs_targets (reset_target s n) = rs_targets s.
Proof. unfold reset_target. by repeat case_match. Qed.

Lemma tracks_same kind s live live' : tracks kind s live -> (forall t, counter live' t = counter live t) -> tracks kind s live'.
Proof. intros [Hb He Hl Hs Hn] H'. split; intros; rewrite ?H'; eauto. apply Hl. by rewrite <- H'. Qed.

Lemma tracks_reset kind s live live' g :
  tracks kind s live -> gates !! gate_Name g = Some g ->
  (forall t, counter live' t = if bool_decide (gate_Branches g !! kind = Some t) then 0 else counter live t) ->
  tracks kind (reset_target s (gate_Name g)) live'.
Proof.
  intros [Hb He Hl Hs Hn] Hg H'.
  split; intros *; rewrite ?reset_target_targets, ?reset_target_seed, ?H'; eauto.
  - intros Hx. case_bool_decide as Ht; case_bool_decide as Hk; try done; [| |by apply He].
    + destruct (Hb _ _ Ht) as (g' & Hg' & Hk'). congruence.
    + rewrite He by done. destruct (decide (counter live t = 0)) as [|Hz]; [done|].
      destruct (Hl _ Hz) as (m & Hm). destruct (Hb _ _ Hm) as (h & Hh & Hkh).
      rewrite (Hx _ _ _ _ Hg Hh Hk Hkh) in Ht. done.
  - case_bool_decide; [done|]. apply Hl.
  - case_bool_decide; [done|]. apply Hs.
  - destruct (Hn t). repeat case_bool_decide; lia.
Qed.

Lemma tracks_charge kind s live live' g target reentry n :
  tracks kind s live -> gates !! gate_Name g = Some g -> gate_Branches g !! kind = Some target ->
  (forall t, counter live' t = counter live t + on (reentry && (t =? target)) 1) ->
  n = (if reentry then counter live' target else 0) ->
  tracks kind (charge_target s (gate_Name g) target n) live'.
Proof.
  intros [Hb He Hl Hs Hn] Hg Hk H' ->.
  assert (forall t, t <> target -> counter live' t = counter live t) as Ho.
  { intros t Ht%String.eqb_neq. rewrite H', Ht, andb_false_r. unfold on. lia. }
  assert (forall t m, rs_targets s !! m = Some t -> t <> target -> (<[gate_Name g := target]> (rs_targets s)) !! m = Some t) as Hi.
  { intros t m Hm Ht. rewrite lookup_insert_ne; [done|]. intros <-. destruct (Hb _ _ Hm) as (h & Hh & Hkh). congruence. }
  split; cbn -[raise_to]; intros *; rewrite ?raise_to_eqb.
  - rewrite lookup_insert_Some. intros [[<- <-]|[_ Hm]]; eauto.
  - intros Hx. destruct (String.eqb_spec t target) as [->|Ht]; [|rewrite Ho by done; by apply He].
    rewrite He by done. rewrite H', String.eqb_refl, andb_true_r. destruct (Hn target), reentry; unfold on; lia.
  - destruct (String.eqb_spec t target) as [->|Ht]; [intros _; exists (gate_Name g); by rewrite lookup_insert_eq|].
    rewrite Ho by done. intros (m & Hm)%Hl. exists m. by apply Hi.
  - destruct (String.eqb_spec t target) as [->|Ht]; [intros _; exists (gate_Name g); by rewrite lookup_insert_eq|].
    intros (m & Hm)%Hs. exists m. by apply Hi.
  - destruct (Hn t). rewrite (H' t). split; [destruct reentry, (t =? target)%string; unfold on; cbn; lia|].
    destruct (String.eqb_spec t target); [subst|done]. lia.
Qed.

Lemma tracks_restart kind s live : tracks kind s live -> tracks kind s (rs_seed s).
Proof. intros [Hb He Hl Hs Hn]. split; eauto. intros t. destruct (Hn t). done. Qed.

(** ** Agreement of the evaluator with the journal *)

Definition no_marker (e : Event) : Prop :=
  ev_Type e <> EventRunResumed /\ ev_Type e <> EventGateOverridden /\ ev_Type e <> EventStageRerunRequested.

Definition infra_targets (evs : list Event) : reset_seed := fold_left infra_target_step evs (mkSeed None ∅).
Definition poll_targets (evs : list Event) : reset_seed := fold_left polling_target_step evs (mkSeed None ∅).

Record agrees (e : GateEvaluator) (p : string -> Z) (evs : list Event) : Prop := {
  ag_attempts : forall n, is_Some (gates !! n) ->
    counter (gateRepassSeed evs) n = counter (Attempts (ge_Budget e)) n + p n;
  ag_infra : forall n, is_Some (gates !! n) ->
    counter (gateInfrastructureSeed evs) n = counter (InfrastructureAttempts (ge_Budget e)) n;
  ag_repass : forall t, counter (targetRepassSeed evs) t = counter (RepassAttempts (ge_Budget e)) t;
  ag_nonneg : forall t, 0 <= counter (RepassAttempts (ge_Budget e)) t;
  ag_infra_targets : tracks "infra" (infra_targets evs)
    (InfrastructureRepassAttempts (ge_Budget e));
  ag_polls : tracks "timeout" (poll_targets evs) (PollAttempts (ge_Budget e));
  ag_digests : gateDiffSeed evs = ge_LastDiffDigest e;
  ag_human : forall g, gates !! gate_Name g = Some g -> Evaluator g = EvaluatorHuman ->
    counter (Attempts (ge_Budget e)) (gate_Name g) = 0 /\ counter (InfrastructureAttempts (ge_Budget e)) (gate_Name g) = 0 /\
    p (gate_Name g) = 0;
  ag_segment : Forall no_marker evs
}.

Lemma fold_ignore {A} (f : A -> Event -> A) evs s :
  (forall s e, inert e = true -> f s e = s) -> Forall (fun e => inert e = true) evs -> fold_left f evs s = s.
Proof. intros Hf HF. revert s. induction HF as [|e l He _ IH]; intros s; cbn; [done|]. by rewrite Hf. Qed.

Lemma inert_steps e : inert e = true ->
  (forall s, gate_repass_step s e = s) /\ (forall s, gate_infra_step s e = s) /\ (forall s, target_repass_step s e = s) /\
  (forall s, infra_target_step s e = s) /\ (forall s, polling_target_step s e = s) /\ (forall s, gate_diff_step s e = s) /\
  (forall n z, owed_step n z e = z) /\ no_marker e.
Proof.
  unfold inert, gate_repass_step, target_repass_step, gate_infra_step, infra_target_step, polling_target_step,
    gate_diff_step, owed_step, no_marker. intros Hi.
  destruct (is_handoff_retry e) eqn:Eh.
  { unfold is_handoff_retry in Eh. by destruct (ev_Type e). }
  by destruct (ev_Type e).
Qed.

Lemma agrees_ext e p p' evs : agrees e p evs -> (forall n, p' n = p n) -> agrees e p' evs.
Proof. intros [] Hp. split; intros; rewrite ?Hp; eauto. Qed.

Lemma agrees_inert e p evs extra :
  agrees e p evs -> Forall (fun x => inert x = true) extra ->
  agrees e (fun n => fold_left (owed_step n) extra (p n)) (evs ++ extra).
Proof.
  intros [H1 H2 H3 H4 H5 H6 H7 H8 H9] HF.
  assert (forall n z, fold_left (owed_step n) extra z = z) as Hp.
  { intros n z. apply fold_ignore; [|done]. by intros ? ? (_ & _ & _ & _ & _ & _ & ? & _)%inert_steps. }
  split; intros; unfold gateRepassSeed, gateInfrastructureSeed, targetRepassSeed, gateDiffSeed,
    infra_targets, poll_targets;
    rewrite ?fold_left_app, ?Hp, ?(fold_ignore _ extra);
    try (exact HF || by intros ? ? (? & ? & ? & ? & ? & ? & ? & ?)%inert_steps); eauto.
  apply Forall_app. split; [done|]. eapply Forall_impl; [exact HF|].
  by intros ? (_ & _ & _ & _ & _ & _ & _ & ?)%inert_steps.
Qed.

(** One more event. *)
Lemma repass_snoc evs e : gateRepassSeed (evs ++ [e]) = gate_repass_step (gateRepassSeed evs) e.
Proof. apply fold_left_app. Qed.
Lemma infra_snoc evs e : gateInfrastructureSeed (evs ++ [e]) = gate_infra_step (gateInfrastructureSeed evs) e.
Proof. apply fold_left_app. Qed.
Lemma target_snoc evs e : targetRepassSeed (evs ++ [e]) = target_repass_step (targetRepassSeed evs) e.
Proof. apply fold_left_app. Qed.
Lemma infra_targets_snoc evs e : infra_targets (evs ++ [e]) = infra_target_step (infra_targets evs) e.
Proof. apply fold_left_app. Qed.
Lemma poll_targets_snoc evs e : poll_targets (evs ++ [e]) = polling_target_step (poll_targets evs) e.
Proof. apply fold_left_app. Qed.
Lemma diff_snoc evs e : gateDiffSeed (evs ++ [e]) = gate_diff_step (gateDiffSeed evs) e.
Proof. apply fold_left_app. Qed.
Lemma segment_snoc evs e : Forall no_marker evs -> no_marker e -> Forall no_marker (evs ++ [e]).
Proof. intros. by apply Forall_app; split; [|constructor]. Qed.
Hint Rewrite repass_snoc infra_snoc target_snoc infra_targets_snoc poll_targets_snoc diff_snoc : seeds.

Lemma agrees_started e p evs g start :
  agrees e p evs -> gates !! gate_Name g = Some g -> Evaluator g <> EvaluatorHuman ->
  seen_as (gate_started_event g (counter (Attempts (ge_Budget e)) (gate_Name g) + 1)) start ->
  agrees e (fun n => owed_step n (p n) start) (evs ++ [start]).
Proof.
  intros [H1 H2 H3 H4 H5 H6 H7 H8 H9] Hg Hh (Ht & Hn & _ & _ & _ & _ & Hr).
  cbn in Ht, Hn, Hr.
  assert (is_handoff_retry start = false) as Eh by (unfold is_handoff_retry; by rewrite Ht).
  assert (recorded_attempt start = Some (counter (Attempts (ge_Budget e)) (gate_Name g) + 1)) as Hrec.
  { unfold recorded_attempt, runner_int. rewrite Hr. destruct (Evaluator g), (Agentic g); by annotation. }
  split; intros *; autorewrite with seeds; unfold owed_step, gate_repass_step, gate_infra_step, target_repass_step,
    infra_target_step, polling_target_step, gate_diff_step; rewrite ?Eh, ?Ht; eauto.
  - intros Hk. rewrite Hrec, set_counter_eqb, Hn, (String.eqb_sym (gate_Name g)).
    destruct (String.eqb_spec n (gate_Name g)) as [->|]; [done|]. by apply H1.
  - intros Hk Ek. rewrite Hn. destruct (String.eqb_spec (gate_Name g) (gate_Name g0)) as [E|]; [|by apply H8].
    rewrite <- E in Hk. congruence.
  - apply segment_snoc; [done|]. unfold no_marker. by rewrite Ht.
Qed.

(** ** One evaluation *)

Lemma timeout_class o : (o =? OutcomeTimeout) = match class_of o with Some Poll => true | _ => false end.
Proof.
  destruct (class_of_cases o) as [[-> ->]|[[-> ->]|[[-> ->]|(-> & _ & H'%String.eqb_neq & _)]]]; try done.
Qed.
Lemma infra_class o : (o =? OutcomeInfra) = match class_of o with Some Infra => true | _ => false end.
Proof.
  destruct (class_of_cases o) as [[-> ->]|[[-> ->]|[[-> ->]|(-> & _ & _ & H'%String.eqb_neq)]]]; try done.
Qed.
Lemma pass_class o : (o =? OutcomePass) = match class_of o with None => true | _ => false end.
Proof.
  destruct (class_of_cases o) as [[-> ->]|[[-> ->]|[[-> ->]|(-> & H'%String.eqb_neq & _)]]]; try done.
Qed.
Lemma class_outcome o c : class_of o = Some c ->
  match c with Poll => o = "timeout" | Infra => o = "infra" | Policy => True end.
Proof. destruct (class_of_cases o) as [[-> ->]|[[-> ->]|[[-> ->]|(-> & _)]]]; by intros [= <-]. Qed.

Section evaluation.
Context (wire : Wiring W) (g : Gate) (outcome d : string) (e e' : GateEvaluator) (r : GateResult) (ev : Event)
  (target : string) (charge : RepassCharge) (f : string -> bool).
Hypotheses (Hres : resolved wire g outcome d e e' r ev target charge) (Hg : gates !! gate_Name g = Some g)
  (Hf : wi_IsReentry wire = Some f) (Hf0 : f "" = false).

Lemma evaluation_effect : charge_effect (ge_Budget e) g outcome target (f target) (ge_Budget e') charge.
Proof. pose proof (res_charge _ _ _ _ _ _ _ _ _ _ Hres) as Hc. rewrite Hf in Hc. by eapply Charge_effect. Qed.
Lemma reentered : f target = true -> (target =? "") = false.
Proof. intros Ht. apply String.eqb_neq. intros E. rewrite E in Ht. congruence. Qed.
Let reported : reports r d ev := res_reports _ _ _ _ _ _ _ _ _ _ Hres.
Lemma event_class : class_of (ev_Verdict ev) = class_of outcome.
Proof. rewrite (rep_verdict _ _ _ reported). apply Hres. Qed.
Lemma event_gate : ev_Gate ev = gate_Name g.
Proof. rewrite (rep_gate _ _ _ reported). apply Hres. Qed.
Lemma event_type : ev_Type ev = EventGateEvaluated.
Proof. by rewrite (rep_type _ _ _ reported). Qed.
Lemma event_not_handoff : is_handoff_retry ev = false.
Proof. unfold is_handoff_retry. by rewrite event_type. Qed.
Lemma event_attempt : runner_int ev "repassAttempt" = Some (Attempt charge).
Proof. by rewrite (rep_attempt _ _ _ reported), (res_attempt _ _ _ _ _ _ _ _ _ _ Hres). Qed.
Lemma event_recorded : recorded_attempt ev = Some (GateAttempt charge).
Proof. unfold recorded_attempt. by rewrite (rep_gate_attempt _ _ _ reported), (res_gate_attempt _ _ _ _ _ _ _ _ _ _ Hres). Qed.
Lemma event_repass_target : runner_text ev "repassTarget" = RepassTarget charge.
Proof. rewrite (rep_repass_target _ _ _ reported). apply Hres. Qed.
Lemma event_poll_target : runner_text ev "pollTarget" = PollTarget charge.
Proof. rewrite (rep_poll_target _ _ _ reported). apply Hres. Qed.
Lemma event_target : ev_Escalated ev = false -> ev_Target ev = target.
Proof.
  rewrite (rep_escalated _ _ _ reported), (rep_target _ _ _ reported). apply Hres.
Qed.
Lemma event_polled :
  runner_int ev "pollAttempt" = if PollTarget charge =? "" then None else Some (PollAttempt charge).
Proof.
  rewrite <- (res_poll_target _ _ _ _ _ _ _ _ _ _ Hres), <- (res_poll_attempt _ _ _ _ _ _ _ _ _ _ Hres). destruct (String.eqb_spec (gr_PollTarget r) "").
  - by apply (rep_unpolled _ _ _ reported).
  - by apply (rep_polled _ _ _ reported).
Qed.

Lemma evaluation_attempts seed p n :
  counter seed n = counter (Attempts (ge_Budget e)) n + p ->
  counter (gate_repass_step seed ev) n = counter (Attempts (ge_Budget e')) n + owed_step n p ev.
Proof.
  intros Hs. unfold gate_repass_step, owed_step.
  rewrite event_not_handoff, event_type, event_recorded, timeout_class, infra_class, event_class, event_gate,
    (eff_attempts _ _ _ _ _ _ _ evaluation_effect), (eff_gate_attempt _ _ _ _ _ _ _ evaluation_effect),
    (String.eqb_sym (gate_Name g)).
  destruct (class_of outcome) as [[]|]; rewrite ?set_counter_eqb;
    destruct (String.eqb_spec n (gate_Name g)); subst; cbn; lia.
Qed.

Lemma evaluation_infra seed n :
  counter seed n = counter (InfrastructureAttempts (ge_Budget e)) n ->
  counter (gate_infra_step seed ev) n = counter (InfrastructureAttempts (ge_Budget e')) n.
Proof.
  intros Hs. unfold gate_infra_step.
  rewrite event_type, event_recorded, timeout_class, infra_class, event_class, event_gate,
    (eff_infra_attempts _ _ _ _ _ _ _ evaluation_effect), (eff_gate_attempt _ _ _ _ _ _ _ evaluation_effect).
  destruct (class_of outcome) as [[]|]; cbn [negb]; rewrite ?set_counter_eqb, ?counter_made;
    destruct (String.eqb_spec n (gate_Name g)); subst; cbn; lia.
Qed.

Lemma evaluation_repass seed t :
  (forall t, counter seed t = counter (RepassAttempts (ge_Budget e)) t) ->
  (forall t, 0 <= counter (RepassAttempts (ge_Budget e)) t) ->
  counter (target_repass_step seed ev) t = counter (RepassAttempts (ge_Budget e')) t /\
  0 <= counter (RepassAttempts (ge_Budget e')) t.
Proof.
  intros Hs Hn. unfold target_repass_step. pose proof evaluation_effect as E.
  assert (Ht := eff_repass _ _ _ _ _ _ _ E t). assert (Htt := eff_repass _ _ _ _ _ _ _ E target).
  assert (Hc := eff_charged _ _ _ _ _ _ _ E). specialize (Hn t) as Hnt. specialize (Hs t) as Hst.
  rewrite event_not_handoff, event_type, infra_class, timeout_class, pass_class, event_class, event_attempt, event_repass_target.
  destruct (class_of outcome) as [[]|] eqn:Ec; cbn [orb negb].
  2, 3: by rewrite Ht, Hst.
  2: by injection Hc as -> ->; cbn; rewrite Ht, Hst.
  destruct (f target) eqn:Er; injection Hc as -> ->; cbn [andb] in *.
  - rewrite (reentered Er). cbn [andb]. rewrite (reentered Er), raise_to_eqb, Ht, Htt, String.eqb_refl.
    assert (Hst' := Hs target). destruct (String.eqb_spec t target) as [->|]; unfold on; lia.
  - unfold on in Ht. cbn. destruct (ev_Escalated ev); cbn; [lia|]. destruct (ev_Target ev =? "")%string; [lia|].
    rewrite raise_to_eqb. destruct (String.eqb_spec t (ev_Target ev)); subst; lia.
Qed.

Lemma evaluation_infra_targets s :
  tracks "infra" s (InfrastructureRepassAttempts (ge_Budget e)) ->
  tracks "infra" (infra_target_step s ev) (InfrastructureRepassAttempts (ge_Budget e')).
Proof.
  intros HT. unfold infra_target_step. pose proof evaluation_effect as E.
  assert (Ht := eff_infra_repass _ _ _ _ _ _ _ E). assert (Hc := eff_charged _ _ _ _ _ _ _ E).
  rewrite event_type, infra_class, timeout_class, event_class, event_attempt, event_repass_target, event_gate.
  destruct (class_of outcome) as [[]|] eqn:Ec; cbn [negb]; [by eapply tracks_reset| |by eapply tracks_same|by eapply tracks_reset].
  assert (gate_Branches g !! "infra" = Some target) as Hb by (rewrite <- (class_outcome _ _ Ec); apply Hres).
  destruct (f target) eqn:Er; injection Hc as -> ->; cbn [andb] in *.
  - rewrite (reentered Er). cbn [andb]. rewrite (reentered Er). by eapply (tracks_charge _ _ _ _ _ _ true).
  - assert (tracks "infra" s (InfrastructureRepassAttempts (ge_Budget e'))) as HT'.
    { eapply tracks_same; [done|]. intros t. rewrite Ht. unfold on. lia. }
    cbn. destruct (ev_Escalated ev) eqn:Ee; cbn; [done|]. rewrite (event_target Ee).
    destruct (target =? "")%string; [done|]. by eapply (tracks_charge _ _ _ _ _ _ false _ HT).
Qed.

Lemma evaluation_polls s :
  tracks "timeout" s (PollAttempts (ge_Budget e)) ->
  tracks "timeout" (polling_target_step s ev) (PollAttempts (ge_Budget e')).
Proof.
  intros HT. unfold polling_target_step. pose proof evaluation_effect as E.
  assert (Ht := eff_polls _ _ _ _ _ _ _ E). assert (Hc := eff_polled _ _ _ _ _ _ _ E).
  rewrite event_type, timeout_class, event_class, event_polled, event_poll_target, event_gate.
  destruct (class_of outcome) as [[]|] eqn:Ec; cbn [negb]; try by eapply tracks_reset.
  assert (gate_Branches g !! "timeout" = Some target) as Hb by (rewrite <- (class_outcome _ _ Ec); apply Hres).
  destruct (f target) eqn:Er; injection Hc as -> ->; cbn [andb] in *.
  - rewrite (reentered Er). cbn [andb]. rewrite (reentered Er). by eapply (tracks_charge _ _ _ _ _ _ true).
  - cbn. eapply tracks_same; [done|]. intros t. rewrite Ht. unfold on. lia.
Qed.

Lemma agrees_evaluated p evs :
  agrees e p evs -> Evaluator g <> EvaluatorHuman -> agrees e' (fun n => owed_step n (p n) ev) (evs ++ [ev]).
Proof.
  intros [H1 H2 H3 H4 H5 H6 H7 H8 H9] Hh. split; intros *; autorewrite with seeds.
  - intros Hn. by apply evaluation_attempts, H1.
  - intros Hn. by apply evaluation_infra, H2.
  - by apply evaluation_repass.
  - by eapply (evaluation_repass _ _ H3).
  - by apply evaluation_infra_targets.
  - by apply evaluation_polls.
  - unfold gate_diff_step. rewrite event_type, event_gate, (rep_digest _ _ _ (res_reports _ _ _ _ _ _ _ _ _ _ Hres)).
    rewrite (res_digest _ _ _ _ _ _ _ _ _ _ Hres). by rewrite H7.
  - intros Hk Ek. assert (gate_Name g0 =? gate_Name g = false) as Hne.
    { apply String.eqb_neq. intros E. rewrite E in Hk. congruence. }
    unfold owed_step. rewrite (eff_attempts _ _ _ _ _ _ _ evaluation_effect), (eff_infra_attempts _ _ _ _ _ _ _ evaluation_effect),
      event_type, event_gate, (String.eqb_sym (gate_Name g)), Hne. cbn. by apply H8.
  - apply segment_snoc; [done|]. unfold no_marker. by rewrite event_type.
Qed.
End evaluation.

(** ** The other turns *)

Lemma agrees_human e p evs g decision r ev :
  agrees e p evs -> gates !! gate_Name g = Some g -> Evaluator g = EvaluatorHuman -> verdict_gate g ->
  is_Some (BranchTarget g decision) -> reports r "" ev -> gr_Gate r = gate_Name g -> gr_Outcome r = decision ->
  gr_Escalated r = false -> gr_Attempt r = 0 -> gr_GateAttempt r = 0 -> gr_RepassTarget r = "" -> gr_PollTarget r = "" ->
  agrees e (fun n => owed_step n (p n) ev) (evs ++ [ev]).
Proof.
  intros [H1 H2 H3 H4 H5 H6 H7 H8 H9] Hg Hh [Hi Ht] Hb [Rt Rg Rv Rtg Re Ra Rga Rrt Rpt _ Rpa Rd] Eg Eo Ee Ea Ega Ert Ept.
  rewrite Eg in Rg. rewrite Eo in Rv. rewrite Ea in Ra. rewrite Ega in Rga. rewrite Ert in Rrt. rewrite Ee in Re.
  rewrite Ept in Rpt. specialize (Rpa Ept).
  assert (decision =? OutcomeTimeout = false) as Nt.
  { apply String.eqb_neq. intros ->. rewrite Ht in Hb. by destruct Hb. }
  assert (decision =? OutcomeInfra = false) as Ni.
  { apply String.eqb_neq. intros ->. rewrite Hi in Hb. by destruct Hb. }
  assert (is_handoff_retry ev = false) as Eh by (unfold is_handoff_retry; by rewrite Rt).
  assert (recorded_attempt ev = Some 0) as Hrec by (unfold recorded_attempt; by rewrite Rga).
  destruct (H8 g Hg Hh) as (Z1 & Z2 & Z3).
  split; intros *; autorewrite with seeds; unfold owed_step, gate_repass_step, gate_infra_step, target_repass_step,
    infra_target_step, polling_target_step, gate_diff_step;
    rewrite ?Eh, ?Rt, ?Rv, ?Nt, ?Ni, ?Hrec, ?Rg, ?Ra, ?Rrt, ?Rd; cbn [orb negb]; rewrite ?andb_true_r; eauto.
  - intros Hn. rewrite set_counter_eqb, (String.eqb_sym (gate_Name g)).
    destruct (String.eqb_spec n (gate_Name g)) as [->|]; [lia|]. by apply H1.
  - intros Hn. rewrite set_counter_eqb, counter_made. destruct (String.eqb_spec n (gate_Name g)) as [->|]; [lia|]. by apply H2.
  - match goal with |- context [if (?x =? "") then _ else raise_to _ _ _] => destruct (x =? "") end; [done|].
    rewrite raise_to_eqb, <- H3. specialize (H4 t). rewrite <- H3 in H4.
    case_match eqn:Et; [apply String.eqb_eq in Et; subst t|done]. lia.
  - eapply tracks_reset; [done|done|]. intros t. unfold BranchTarget, OutcomeInfra in Hi. by rewrite Hi, bool_decide_eq_false_2.
  - eapply tracks_reset; [done|done|]. intros t. unfold BranchTarget, OutcomeTimeout in Ht. by rewrite Ht, bool_decide_eq_false_2.
  - intros Hk Ek. destruct (H8 _ Hk Ek) as (? & ? & Zp). split_and!; [done|done|]. rewrite Zp. by case_match.
  - apply segment_snoc; [done|]. unfold no_marker. by rewrite Rt.
Qed.

Definition real_names : Prop := forall consumer, gates !! invalidHandoffGateName consumer = None.

Lemma handoff_fields b0 consumer retry unsupported reentry mx b fields stop :
  decideInvalidHandoff b0 consumer retry unsupported reentry mx = (b, fields, stop) ->
  fields !! "kind" = Some (AnyString handoffValidationRetryAnnotationKind) /\
  ((b = b0 /\ fields !! "repassAttempt" = None) \/
   exists charge, charge_effect b0 (synthetic_gate consumer (ih_Producer retry)) OutcomeFail (ih_Producer retry) reentry b charge /\
     fields !! "target" = Some (AnyString (ih_Producer retry)) /\ fields !! "repassAttempt" = Some (AnyInt (Attempt charge))).
Proof.
  unfold decideInvalidHandoff. destruct (negb (unsupported =? "")).
  - intros [= <- <- _]. split; [by annotation|]. left. split; [done|]. by annotation.
  - destruct (Charge _ _ _ _ _ _) as [b1 charge] eqn:Ec. apply Charge_effect in Ec.
    destruct (Exceeded charge); intros [= <- <- _]; (split; [by annotation|]; right; exists charge; split; [done|]; by annotation).
Qed.

Lemma agrees_handoff e p evs consumer retry unsupported reentry mx b fields stop ev :
  real_names -> agrees e p evs -> (reentry = true -> ih_Producer retry <> "") ->
  decideInvalidHandoff (ge_Budget e) consumer retry unsupported reentry mx = (b, fields, stop) ->
  seen_as (handoff_event consumer fields) ev ->
  agrees (mkEvaluator b (ge_LastDiffDigest e)) (fun n => owed_step n (p n) ev) (evs ++ [ev]).
Proof.
  intros HN [H1 H2 H3 H4 H5 H6 H7 H8 H9] Hre HD (Et & _ & _ & _ & Es & _ & Er). cbn in Et, Es, Er.
  apply handoff_fields in HD as [Hk HD].
  assert (is_handoff_retry ev = true) as Eh by (unfold is_handoff_retry, runner_text; rewrite Et, Er, Hk; done).
  assert (no_marker ev) as Hm by (unfold no_marker; by rewrite Et).
  destruct HD as [[-> Ha]|(charge & E & Ht & Ha)].
  - assert (runner_int ev "repassAttempt" = None) as Ra by (unfold runner_int; by rewrite Er, Ha).
    split; intros *; autorewrite with seeds; unfold owed_step, gate_repass_step, gate_infra_step, target_repass_step,
      infra_target_step, polling_target_step, gate_diff_step; rewrite ?Eh, ?Et, ?Ra; eauto using segment_snoc.
  - assert (runner_int ev "repassAttempt" = Some (Attempt charge)) as Ra by (unfold runner_int; by rewrite Er, Ha).
    assert (runner_text ev "target" = ih_Producer retry) as Rt by (unfold runner_text; by rewrite Er, Ht).
    assert (forall n, is_Some (gates !! n) -> n =? invalidHandoffGateName consumer = false) as Hn.
    { intros n Hn. apply String.eqb_neq. intros ->. rewrite HN in Hn. by destruct Hn. }
    assert (Ec := eff_charged _ _ _ _ _ _ _ E).
    split; intros *; autorewrite with seeds; unfold owed_step, gate_repass_step, gate_infra_step, target_repass_step,
      infra_target_step, polling_target_step, gate_diff_step; rewrite ?Eh, ?Et, ?Ra, ?Rt, ?Es; eauto using segment_snoc; cbn.
    + intros Hs. rewrite (eff_attempts _ _ _ _ _ _ _ E). cbn. rewrite (Hn _ Hs). cbn.
      destruct (ih_Producer retry =? ""); rewrite ?set_counter_eqb, ?(Hn _ Hs); by apply H1.
    + intros Hs. rewrite (eff_infra_attempts _ _ _ _ _ _ _ E). cbn. rewrite (Hn _ Hs). by apply H2.
    + assert (Hr := eff_repass _ _ _ _ _ _ _ E t). assert (Hp := eff_repass _ _ _ _ _ _ _ E (ih_Producer retry)).
      change (class_of OutcomeFail) with (Some Policy) in *. rewrite String.eqb_refl in Hp. specialize (H4 t). rewrite Hr, <- H3. rewrite <- H3 in H4.
      destruct reentry; cbn in Ec, Hp, Hr; injection Ec as _ Ec.
      * rewrite (proj2 (String.eqb_neq _ _) (Hre eq_refl)), raise_to_eqb, Ec, Hp, <- H3. cbn.
        destruct (String.eqb_spec t (ih_Producer retry)); subst; unfold on; lia.
      * cbn. destruct (ih_Producer retry =? ""); rewrite ?raise_to_eqb; unfold on; rewrite Z.add_0_r; [done|].
        destruct (String.eqb_spec t (ih_Producer retry)); subst; [lia|done].
    + rewrite (eff_repass _ _ _ _ _ _ _ E). change (class_of OutcomeFail) with (Some Policy). cbn. specialize (H4 t). unfold on. destruct (_ && _); lia.
    + eapply tracks_same; [done|]. intros t. by rewrite (eff_infra_repass _ _ _ _ _ _ _ E).
    + eapply tracks_same; [done|]. intros t. by rewrite (eff_polls _ _ _ _ _ _ _ E).
    + intros Hk0 Ek. rewrite (eff_attempts _ _ _ _ _ _ _ E), (eff_infra_attempts _ _ _ _ _ _ _ E). cbn.
      rewrite (Hn _ (mk_is_Some _ _ Hk0)). cbn. by apply H8.
Qed.

(** ** Restoring *)

Lemma whole_segment evs : Forall no_marker evs -> currentRunSegment evs = (evs, "").
Proof.
  intros HF. unfold currentRunSegment.
  assert (forall newest acc, Forall no_marker newest -> segment_scan newest acc = (rev newest ++ acc, "")) as Hs.
  { induction newest as [|e older IH]; intros acc Hn; [done|]. inversion_clear Hn as [|? ? He Ho].
    cbn. rewrite <- app_assoc. destruct He as (H1 & H2 & _). destruct (ev_Type e); try done; by rewrite IH. }
  rewrite Hs by (by apply Forall_rev). by rewrite rev_involutive, app_nil_r.
Qed.

Definition new_evaluator : GateEvaluator := mkEvaluator (mkBudget None None None None None) ∅.

(** The counters of [e] are those [live] holds, plus [p] for the gates. *)
Record restores (e live : GateEvaluator) (p : string -> Z) : Prop := {
  re_attempts : forall n, is_Some (gates !! n) ->
    counter (Attempts (ge_Budget e)) n = counter (Attempts (ge_Budget live)) n + p n;
  re_infra : forall n, is_Some (gates !! n) ->
    counter (InfrastructureAttempts (ge_Budget e)) n = counter (InfrastructureAttempts (ge_Budget live)) n;
  re_repass : forall t, counter (RepassAttempts (ge_Budget e)) t = counter (RepassAttempts (ge_Budget live)) t;
  re_infra_repass : forall t, exclusive "infra" t ->
    counter (InfrastructureRepassAttempts (ge_Budget e)) t = counter (InfrastructureRepassAttempts (ge_Budget live)) t;
  re_polls : forall t, exclusive "timeout" t -> counter (PollAttempts (ge_Budget e)) t = counter (PollAttempts (ge_Budget live)) t;
  re_digests : ge_LastDiffDigest e = ge_LastDiffDigest live
}.

Definition good (q : process) : Prop :=
  exists j, gs_journal (pr_state q) = Some j /\ (pr_since q <= length (j_events j))%nat /\
    agrees (gs_eval (pr_state q)) (owed (drop (pr_since q) (j_events j))) (j_events j).

Lemma good_restores q : good q -> exists j, gs_journal (pr_state q) = Some j /\
  restores (seedGateBudgets gates None (fst (currentRunSegment (j_events j)))) (gs_eval (pr_state q))
    (owed (drop (pr_since q) (j_events j))).
Proof.
  intros (j & Hj & _ & [H1 H2 H3 H4 H5 H6 H7 H8 H9]). exists j. split; [done|]. rewrite (whole_segment _ H9).
  split; cbn; eauto; [apply (tr_exact _ _ _ H5)|apply (tr_exact _ _ _ H6)].
Qed.

Lemma agrees_fresh evs : Forall (fun x => inert x = true) evs -> agrees new_evaluator (owed evs) evs.
Proof.
  intros HF. apply (agrees_inert new_evaluator (fun _ => 0) []); [|done].
  split; try done; cbn; try (intros; lia).
  all: by split; cbn; try done; intros *; rewrite lookup_empty.
Qed.

Lemma owed_app k evs extra n : (k <= length evs)%nat ->
  owed (drop k (evs ++ extra)) n = fold_left (owed_step n) extra (owed (drop k evs) n).
Proof. intros Hk. rewrite drop_app_le by done. unfold owed. by rewrite fold_left_app. Qed.

(** What was appended to the journal, and the evaluator after it. *)
Lemma good_step (s s' : state) k j j' extra :
  gs_journal s = Some j -> (k <= length (j_events j))%nat -> gs_journal s' = Some j' -> j_events j' = j_events j ++ extra ->
  agrees (gs_eval s') (fun n => fold_left (owed_step n) extra (owed (drop k (j_events j)) n)) (j_events j ++ extra) ->
  good (mkProcess s' k).
Proof.
  intros Hj Hk Hj' E HA. exists j'. cbn. rewrite E, length_app. split_and!; [done|lia|].
  eapply agrees_ext; [exact HA|]. intros n. by apply owed_app.
Qed.

Lemma good_evaluated wire g outcome d s s' j r k :
  gates !! gate_Name g = Some g -> bound_by_runner wire -> Evaluator g <> EvaluatorHuman ->
  gs_journal s = Some j -> (k <= length (j_events j))%nat -> agrees (gs_eval s) (owed (drop k (j_events j))) (j_events j) ->
  evaluated wire g outcome d s s' j r -> good (mkProcess s' k).
Proof.
  intros Hg (f & Hf & Hf0) Hh Hj Hk HA (r0 & target & charge & start & extra & ev & j' & _ & Hres & Hs & Fx & Hj' & E).
  apply (good_step s s' k j j' _ Hj Hk Hj' E).
  eapply agrees_started in HA; [|done|done|exact Hs]. eapply agrees_inert in HA; [|exact Fx].
  eapply agrees_evaluated in HA; [|exact Hres|done|done|done|done].
  rewrite <- !app_assoc in HA. eapply agrees_ext; [exact HA|].
  intros n. by rewrite !fold_left_app.
Qed.

Section preserved.
Hypotheses (Hnames : real_names) (Hchecks : forall n g, gates !! n = Some g -> Evaluator g <> EvaluatorAutomated -> verdict_gate g).

Lemma good_turn q q' : turn q q' -> good q -> good q'.
Proof.
  intros HT. destruct HT as
    [wire g env stage artifacts d empty s r s' k Hg Hw HE Hi | wire g outcome s r s' k Hg Hw HE Hi
    | g decision actor s r s' k Hg HE | consumer retry unsupported reentry mx e w j b fields stop j' k Hre HD HE
    | ev e w w' j j' k Hi HE | g e w w' j j' k Hg Hh HE | e w w' j k _]; intros (j0 & Hj & Hk & HA); cbn in Hj, Hk, HA.
  - eapply Evaluate_ok in HE as (Hh & outcome & HE); [|by eapply Hchecks|exact Hj|done]. by eapply good_evaluated.
  - eapply EvaluateKnownOutcome_ok in HE as (Hh & HE); [|exact Hj|done]. eapply good_evaluated; [done|done|by rewrite Hh|exact Hj|done|done|exact HE].
  - eapply EvaluateHuman_ok in HE as (r0 & extra & ev & j' & Hh & He & Hrep & ? & ? & ? & ? & ? & ? & ? & ? & Hj' & E & Fx); [|exact Hj].
    apply (good_step s s' k j0 j' _ Hj Hk Hj' E). rewrite He. eapply agrees_inert in HA; [|exact Fx].
    eapply agrees_human in HA; try done; [|by eapply Hchecks; [|rewrite Hh]]. rewrite app_assoc.
    eapply agrees_ext; [exact HA|]. intros n. by rewrite fold_left_app.
  - injection Hj as <-. apply append_kept in HE as (ev & E & Hs). apply (good_step (mkState e w (Some j)) _ k j j' [ev]); [done..|].
    eapply agrees_handoff in HA; [exact HA|done..].
  - injection Hj as <-. apply append_kept in HE as (ev' & E & Hs). apply (good_step (mkState e w (Some j)) _ k j j' [ev']); [done..|].
    apply agrees_inert; [done|]. constructor; [|constructor]. by rewrite (seen_inert _ _ Hs).
  - injection Hj as <-. apply append_kept in HE as (ev & E & Hs). apply (good_step (mkState e w (Some j)) _ k j j' [ev]); [done..|].
    by eapply agrees_started in HA.
  - injection Hj as <-. exists j. cbn. split_and!; [done|done|]. rewrite drop_all. destruct HA as [H1 H2 H3 H4 H5 H6 H7 H8 H9].
    rewrite (whole_segment _ H9). split; cbn -[gateRepassSeed]; try done.
    + intros n Hn. change (owed [] n) with 0. lia.
    + intros t. rewrite H3. apply H4.
    + by eapply tracks_restart.
    + by eapply tracks_restart.
    + intros g Hg Hh. destruct (H8 g Hg Hh) as (Z1 & Z2 & Z3). rewrite H1, H2, Z1, Z2, Z3 by eauto. done.
Qed.
End preserved.
End runs.

Lemma no_rerun evs : Forall no_marker evs -> rerun_requested evs = false.
Proof.
  induction 1 as [|e evs (_ & _ & He) _ IH]; [done|]. unfold rerun_requested. cbn. by rewrite bool_decide_eq_false_2.
Qed.

Lemma good_run {W J : Type} `{L : GateJournalLaws J} {Lower : LowerCase} {Text : FindingText} {Quo : Quoting}
    (gates : gmap string Gate) (w : W) (j0 : J) (q : process (W := W) (J := J)) :
  real_names gates -> (forall n g, gates !! n = Some g -> Evaluator g <> EvaluatorAutomated -> verdict_gate g) ->
  Forall (fun e => inert e = true) (j_events j0) ->
  rtc (turn gates) (mkProcess (mkState new_evaluator w (Some j0)) 0) q -> good gates q.
Proof.
  intros HN HC H0 HR.
  assert (good gates (mkProcess (mkState new_evaluator w (Some j0)) 0)) as Hgood.
  { exists j0. cbn. split_and!; [done|lia|]. by apply agrees_fresh. }
  clear H0. induction HR as [|q1 q2 q3 HT _ IH]; [done|]. by eapply IH, good_turn.
Qed.

(** C5: The budgets a restarted runner seeds from the journal are those the
    evaluator held.  Over any run of gate evaluations, known outcomes, human
    decisions, rerouted handoffs and other events, cut off and restarted any number
    of times, for any journal that keeps what is appended: the restored counters of
    infrastructure attempts, of repasses per target and the reviewed digests are
    exact; those of infrastructure repasses and polls are exact for a target no two
    gates share; and the count of a gate is the one it had, plus one while a started
    evaluation has not been resolved by anything but a timeout.  The run has no
    [run.resumed], [gate.overridden] or [stage.rerun.requested] (so no rerun is
    pending at a restart) and no evaluation that escalated as interrupted; gates
    that are not automated declare no [infra] or [timeout] branch, and no gate has
    the name a rerouted handoff is charged under. *)
Theorem resume_restores_budgets {W J : Type} `{L : GateJournalLaws J} {Lower : LowerCase} {Text : FindingText} {Quo : Quoting}
    (gates : gmap string Gate) (w : W) (j0 : J) (q : process (W := W) (J := J)) :
  real_names gates -> (forall n g, gates !! n = Some g -> Evaluator g <> EvaluatorAutomated -> verdict_gate g) ->
  Forall (fun e => inert e = true) (j_events j0) ->
  rtc (turn gates) (mkProcess (mkState new_evaluator w (Some j0)) 0) q ->
  exists j, gs_journal (pr_state q) = Some j /\ rerun_requested (j_events j) = false /\
    restores gates (seedGateBudgets gates None (fst (currentRunSegment (j_events j)))) (gs_eval (pr_state q))
      (owed (drop (pr_since q) (j_events j))).
Proof.
  intros HN HC H0 HR. apply (good_run gates) in HR; [|done..].
  destruct (good_restores gates q HR) as (j & Hj & Hres). exists j. split; [done|]. split; [|done].
  destruct HR as (j' & Hj' & _ & [_ _ _ _ _ _ _ _ Hs]). assert (j' = j) as -> by congruence. by apply no_rerun.
Qed.

(** C39: A restart after a poll that timed out charges the gate a repass that never
    happened.  In any such run, when an evaluation of a gate ends in a timeout, the
    evaluator holds the count it had before; but the [gate.started] of the poll
    stays counted in the journal, because the seed skips the [gate.evaluated] that
    resolved it, and a runner restarted then starts from one more. *)
Theorem restart_charges_a_poll {W J : Type} `{L : GateJournalLaws J} {Lower : LowerCase} {Text : FindingText} {Quo : Quoting}
    (gates : gmap string Gate) (w : W) (j0 : J) (q : process (W := W) (J := J)) wire g env stage artifacts d empty r s' :
  real_names gates -> (forall n g, gates !! n = Some g -> Evaluator g <> EvaluatorAutomated -> verdict_gate g) ->
  Forall (fun e => inert e = true) (j_events j0) ->
  rtc (turn gates) (mkProcess (mkState new_evaluator w (Some j0)) 0) q ->
  gates !! gate_Name g = Some g -> bound_by_runner wire ->
  Evaluate wire g env stage artifacts d empty (pr_state q) = (Ok r, s') -> gr_Interrupted r = false ->
  gr_Outcome r = OutcomeTimeout ->
  exists j, gs_journal s' = Some j /\
    counter (Attempts (ge_Budget (gs_eval s'))) (gate_Name g)
      = counter (Attempts (ge_Budget (gs_eval (pr_state q)))) (gate_Name g) /\
    counter (Attempts (ge_Budget (seedGateBudgets gates None (fst (currentRunSegment (j_events j)))))) (gate_Name g)
      = counter (Attempts (ge_Budget (gs_eval s'))) (gate_Name g) + 1.
Proof.
  intros HN HC H0 HR Hg Hw HE Hi Ho. apply (good_run gates) in HR; [|done..]. destruct HR as (j & Hj & Hk & HA).
  eapply Evaluate_ok in HE as (Hh & outcome & HE); [|by eapply HC|exact Hj|done].
  pose proof (good_evaluated gates wire g outcome d _ _ j r (pr_since q) Hg Hw Hh Hj Hk HA HE) as Hgood.
  destruct (good_restores gates _ Hgood) as (j' & Hj' & Hres). exists j'. split; [done|].
  destruct HE as (r0 & target & charge & start & extra & ev & j1 & Hroute & Hr0 & Hs & Fx & Hj1 & E).
  cbn in Hj', Hres. assert (j1 = j') as -> by congruence.
  assert (class_of outcome = Some Poll) as Hclass.
  { rewrite <- (res_class _ _ _ _ _ _ _ _ _ _ Hr0). destruct Hroute as (_ & Hout & _). by rewrite <- Hout, Ho. }
  destruct Hw as (f & Hf & _).
  pose proof (eff_attempts _ _ _ _ _ _ _ (evaluation_effect wire g outcome d _ _ _ _ _ _ f Hr0 Hf) (gate_Name g)) as Heff.
  rewrite String.eqb_refl, Hclass in Heff. cbn in Heff. split; [done|].
  rewrite (re_attempts _ _ _ _ Hres) by (by rewrite Hg). f_equal.
  rewrite E, owed_app by done. cbn [app fold_left]. rewrite fold_left_app.
  rewrite (fold_ignore _ extra) by (done || by intros ? ? (_ & _ & _ & _ & _ & _ & ? & _)%inert_steps).
  cbn [fold_left]. destruct Hs as (Ht & Hn & _). cbn in Ht, Hn. unfold owed_step.
  rewrite (event_type wire g outcome d _ _ _ _ _ _ Hr0), timeout_class,
    (event_class wire g outcome d _ _ _ _ _ _ Hr0), Hclass, andb_false_r, Ht, Hn, String.eqb_refl. done.
Qed.
