(* ===== verification/GateProps.v ===== *)
(** * What a gate may answer, and how often it asks

    A pass is earned, a result goes where the gate declares, and the calls of one
    evaluation are bounded, whatever the checks, the reviewer and the journal do. *)

From S2P Require Export GateResumeFacts.
Local Open Scope Z_scope.
Local Open Scope string_scope.
Local Open Scope list_scope.

(** ** Findings that do not hold *)

Section refuted.
Context {Lower : LowerCase} {Text : FindingText}.

(** Resolved by an earlier repass, with no evidence that was not seen then. *)
Definition suppressed (h : episodeHistory) (f : Finding) : bool := was_resolved h (fi_ID f) && stale_evidence h f.

Lemma reconcile_remaining h gateName d fs : forall acc,
  ra_remaining (fold_left (reconcile_finding h gateName d) fs acc) =
  ra_remaining acc ++ List.filter (fun f => negb (suppressed h f)) (map (inherit h gateName d) fs).
Proof.
  induction fs as [|f fs IH]; intros acc; cbn [fold_left map List.filter]; [by rewrite app_nil_r|].
  rewrite IH. unfold reconcile_finding, suppressed.
  destruct (was_resolved h (fi_ID (inherit h gateName d f))); cbn; [|by rewrite <- app_assoc].
  destruct (stale_evidence h (inherit h gateName d f)); cbn; [done|by rewrite <- app_assoc].
Qed.

(** A finding is refuted: it was resolved before, or the reviewed patch disproves it. *)
Definition refuted (pointers : list ContextPointer) (resolve : ArtifactBytes) (gateName d : string) (f : Finding) : Prop :=
  let h := readEpisodeHistory pointers resolve gateName in
  let f' := inherit h gateName d f in
  suppressed h f' = true \/
  exists r, resolve = Some r /\ disproven (reviewerPatchSource pointers r gateName) f' = true.

Lemma filter_nil {A} (p : A -> bool) l : List.filter p l = [] <-> Forall (fun x => p x = false) l.
Proof.
  induction l as [|x l IH]; cbn; [by split|]. rewrite Forall_cons. destruct (p x) eqn:E; [|by rewrite IH; intuition].
  split; [done|]. intros [? _]. congruence.
Qed.

Lemma reconcile_decision v pointers resolve gateName d v' res :
  reconcileLearningFindings v pointers resolve gateName d = (v', res) ->
  let h := readEpisodeHistory pointers resolve gateName in
  vd_Findings v' = List.filter (fun f => negb (suppressed h f)) (map (inherit h gateName d) (vd_Findings v)) /\
  (vd_Decision v' = vd_Decision v \/
   vd_Decision v' = VerdictPass /\ vd_Decision v = VerdictNeedsChanges /\ vd_Findings v <> [] /\ vd_Findings v' = []).
Proof.
  unfold reconcileLearningFindings. cbn zeta. rewrite reconcile_remaining. cbn [ra_remaining app].
  set (remaining := List.filter _ _). generalize remaining. clear remaining. intros remaining.
  set (acc := ra_suppressed _). generalize acc. clear acc. intros acc. intros [= <- <-].
  destruct (vd_Decision v =? VerdictNeedsChanges) eqn:Ed; cbn [andb]; [|by split; [|left]].
  destruct (vd_Findings v) as [|f fs] eqn:Ef; [by split; [|left]|].
  destruct remaining as [|r rs] eqn:Er; [|by split; [|left]].
  destruct (0 <? length acc)%nat; cbn; [|by split; [|left]]. unfold add_note. apply String.eqb_eq in Ed.
  split; [done|]. by right.
Qed.

Lemma disprove_decision v pointers resolve gateName v' all :
  disproveReviewerFindings v pointers resolve gateName = (v', all) ->
  vd_Decision v' = vd_Decision v \/
  vd_Decision v' = VerdictPass /\ vd_Findings v <> [] /\
    exists r, resolve = Some r /\ Forall (fun f => disproven (reviewerPatchSource pointers r gateName) f = true) (vd_Findings v).
Proof.
  unfold disproveReviewerFindings. destruct resolve as [r|]; [|by intros [= <- _]; left].
  destruct (vd_Findings v) as [|f fs] eqn:Ef; [by intros [= <- _]; left|]. cbn [length Nat.eqb].
  case_bool_decide; [by intros [= <- _]; left|]. set (remaining := List.filter (fun f => negb _) _).
  destruct (length (map _ _) =? 0)%nat; [by intros [= <- _]; left|].
  destruct remaining as [|x xs] eqn:Er; cbn [length Nat.eqb]; intros [= <- _].
  - right. split; [done|]. split; [done|]. exists r. split; [done|].
    apply filter_nil in Er. eapply Forall_impl; [exact Er|]. cbn. intros y. by destruct (disproven _ y).
  - by left.
Qed.
End refuted.

(** ** Who answered *)

Section answers.
Context {W J : Type} `{GateJournal J} {Lower : LowerCase} {Text : FindingText} {Quo : Quoting}.
Variable wire : Wiring W.

(** A verdict that was cached for these inputs, or that the reviewer gave. *)
Definition verdict_given (v : Verdict) : Prop :=
  wi_CachedVerdict wire = Some v \/
  exists goober w env w', wi_Reviewer wire = Some goober /\ goober w env = (w', Ok v).
(** An outcome that the gate's check gave. *)
Definition outcome_given (g : Gate) (env : InvocationEnvelope) (o : string) : Prop :=
  exists check w w', wi_Automated wire = Some check /\
    check w (default (mkAutomated "" ∅ None 0 0 0) (Automated g)) env = (w', Ok o).

Lemma call_ok {A} (f : W -> W * A) (s : gate_state W J) a s' :
  call f s = (Ok a, s') -> exists w', f (gs_world s) = (w', a) /\ s' = mkState (gs_eval s) w' (gs_journal s).
Proof. unfold call. destruct (f (gs_world s)) as [w x]. intros [= <- <-]. by exists w. Qed.

Lemma Review_ok goober env stage artifacts (w w' : W) v :
  Review goober env stage artifacts w = (w', Ok v) -> exists env', goober w env' = (w', Ok v).
Proof.
  unfold Review. destruct (goober w _) as [w1 [v1|e]] eqn:E; [|done]. intros [= <- <-]. by eexists.
Qed.

Lemma retry_automated_ok name mx backoff f left : forall attempt (s : gate_state W J) o s',
  retry_automated wire name mx backoff attempt left f s = (Ok o, s') -> exists w w', f w = (w', Ok o).
Proof.
  induction left as [|left IH]; intros attempt s o s' HR; cbn [retry_automated] in HR;
    apply bind_ok in HR as (a & s1 & (w' & Hf & _)%call_ok & HR);
    (destruct a as [o'|e]; [injection HR as <- _; by eauto|]);
    (destruct (negb (ce_Infrastructure e)); [done|]); apply bind_ok in HR as ([] & s2 & _ & HR);
    (destruct (mx <=? attempt)%Z; [done|]); apply bind_ok in HR as (c & s3 & _ & HR); destruct c; try done.
  by eapply IH.
Qed.

Lemma retry_reviewer_ok goober g mx backoff previous stage artifacts left : forall class attempt env (s : gate_state W J) r s',
  retry_reviewer wire goober g mx backoff previous class stage artifacts attempt left env s = (Ok r, s') ->
  exists w env' w', goober w env' = (w', Ok r.1).
Proof.
  induction left as [|left IH]; intros class attempt env s r s' HR; cbn [retry_reviewer] in HR;
    apply bind_ok in HR as ([] & s1 & _ & HR); apply bind_ok in HR as (a & s2 & (w' & Hf & _)%call_ok & HR);
    (destruct a as [v|e];
     [apply Review_ok in Hf as [env' Hf]; apply bind_ok in HR as ([] & s3 & _ & HR);
      destruct (negb _); [injection HR as <- _; by eauto|]; apply bind_ok in HR as ([] & s4 & _ & HR)
     |destruct (ce_CustodyPending e); [done|]; apply bind_ok in HR as ([] & s3 & _ & HR);
      destruct (negb _); [done|]; apply bind_ok in HR as ([] & s4 & _ & HR)]);
    (destruct (mx <=? attempt)%Z; [try done; injection HR as <- _; by eauto|]);
    apply bind_ok in HR as (c & s5 & _ & HR); destruct c; try done.
  - injection HR as <- _. by eauto.
  - by eapply IH.
  - by eapply IH.
Qed.

(** What an answer stands on. *)
Definition founded (g : Gate) (env : InvocationEnvelope) (a : answer) : Prop :=
  match an_Verdict a with
  | None => outcome_given g env (an_Outcome a)
  | Some v => an_Outcome a = vd_Decision v /\
      (verdict_given v /\ an_Duplicate a = false \/ vd_Findings v = [] /\ vd_Decision v <> VerdictPass)
  end.

Lemma automated_founded g env (s : gate_state W J) a s' :
  answer_of_automated wire g env s = (Ok a, s') -> founded g env a.
Proof.
  unfold answer_of_automated, evaluateWithRetry. destruct (wi_Automated wire) as [check|] eqn:Ec; [|done].
  destruct (RetryBounds _) as [mx backoff]. intros HR. apply bind_ok in HR as (o & s1 & HR & [= <- _]).
  apply retry_automated_ok in HR as (w & w' & Hf). by exists check, w, w'.
Qed.

Lemma mechanical_not_pass v reason enabled :
  vd_Decision v <> VerdictPass -> vd_Decision (MechanicalVerdict v reason enabled) <> VerdictPass.
Proof. by destruct enabled. Qed.

Lemma agentic_founded g env stage artifacts d empty (s : gate_state W J) a s' :
  answer_of_agentic wire g env stage artifacts d empty s = (Ok a, s') -> founded g env a.
Proof.
  unfold answer_of_agentic. intros HR. apply bind_ok in HR as (e & s1 & [= <- <-] & HR).
  destruct (wi_CachedVerdict wire) as [v|] eqn:Ev; [injection HR as <- _; cbn; split; [done|]; left; by split; [left|]|].
  destruct empty; [injection HR as <- _; cbn; split; [done|]; right|].
  { split; [by destruct (StructuredMechanicalEscalation g)|]. by apply mechanical_not_pass. }
  destruct (_ && _); [injection HR as <- _; cbn; split; [done|]; right|].
  { split; [by destruct (StructuredMechanicalEscalation g)|]. by apply mechanical_not_pass. }
  destruct (wi_Reviewer wire) as [goober|] eqn:Er; [|done]. apply bind_ok in HR as ([v inv] & s2 & HR & [= <- _]).
  unfold evaluateReviewerWithRetry in HR. destruct (RetryBounds _) as [mx backoff].
  apply bind_ok in HR as (previous & s3 & _ & HR). apply retry_reviewer_ok in HR as (w & env' & w' & Hf).
  cbn. split; [done|]. left. split; [|done]. right. by exists goober, w, env', w'.
Qed.
End answers.

(** ** Routes *)

Section routes.
Context {W J : Type} `{GateJournal J} {Lower : LowerCase} {Text : FindingText} {Quo : Quoting}.
Variable wire : Wiring W.

(** Where a result goes: the branch its outcome declares, or the gate's escalation. *)
Definition routes (g : Gate) (r : GateResult) : Prop :=
  if gr_Escalated r then gr_Target r = escalationTarget g else BranchTarget g (gr_Outcome r) = Some (gr_Target r).

Lemma recordVerdict_route r d (s : gate_state W J) r' s' : recordVerdict r d s = (Ok r', s') -> same_route r r'.
Proof.
  unfold recordVerdict. destruct (gs_journal s) as [j|]; [|by intros [= <- _]]. cbn zeta.
  destruct (match _ with Some _ => _ | None => _ end) as [j1 [a|]]; [|done].
  destruct (j_Append j1 _) as [j2 []]; [|done]. by intros [= <- _].
Qed.

Lemma converted_not_pass g v v' : BudgetEscalationVerdict g true v = (Some v', true) -> vd_Decision v' <> VerdictPass.
Proof.
  unfold BudgetEscalationVerdict. destruct v as [v|]; [|done]. destruct (StructuredMechanicalEscalation g); [|done].
  cbn. intros [= <-]. by destruct (vd_Rationale v =? "").
Qed.
Lemma unconverted g v v' b : BudgetEscalationVerdict g false v = (v', b) -> v' = v /\ b = false.
Proof. unfold BudgetEscalationVerdict. destruct v; by intros [= <- <-]. Qed.

Lemma resolveOutcome_route g outcome verdict d dup forced hit reason res (s : gate_state W J) r s' :
  resolveOutcome wire g outcome verdict d dup forced hit reason res s = (Ok r, s') ->
  gr_Interrupted r = false /\ routes g r /\ (gr_Outcome r = VerdictPass -> outcome = VerdictPass) /\
  (dup || forced = true -> gr_Escalated r = true).
Proof.
  unfold resolveOutcome. intros HR. apply bind_ok in HR as ([] & s1 & _ & HR).
  destruct (BranchTarget g outcome) as [target|] eqn:Eb; [|done].
  apply bind_ok in HR as (charge & s2 & _ & HR).
  destruct (BudgetEscalationVerdict g (Exceeded charge) verdict) as [v conv] eqn:Ev.
  apply recordVerdict_route in HR as (_ & Ho & Ht & He & Hi & _). cbn in Ho, Ht, He, Hi. unfold routes.
  rewrite Ho, Ht, He, Hi. split; [done|]. split; [|split].
  - destruct (Exceeded charge); cbn; [done|]. apply unconverted in Ev as [-> ->].
    destruct (dup || forced); [done|]. by destruct verdict.
  - destruct v as [v|]; [|done]. destruct conv; [|done].
    destruct (Exceeded charge); [|by apply unconverted in Ev as [_ ?]]. by intros ?%(converted_not_pass _ _ _ Ev).
  - intros Hd. destruct (Exceeded charge), dup, forced; done.
Qed.

Lemma inherit_text h gateName d f :
  fi_Message (inherit h gateName d f) = fi_Message f /\ fi_Location (inherit h gateName d f) = fi_Location f.
Proof. unfold inherit, NormalizeFinding. by repeat case_match. Qed.
Lemma disproven_inherit source h gateName d f : disproven source (inherit h gateName d f) = disproven source f.
Proof. destruct (inherit_text h gateName d f) as [Hm Hl]. unfold disproven, isInvalidJSONFinding. by rewrite Hm, Hl. Qed.

Lemma arbitration_outcome g env dup j : jd_Outcome (apply_arbitration wire g env dup j) = jd_Outcome j.
Proof.
  unfold apply_arbitration. destruct (jd_Verdict j) as [v|]; [|done]. destruct (_ && _); [|done].
  by destruct (arbitrateRepeatedFindings _ _ _ _).
Qed.

(** Every finding of a verdict that asks for changes is refuted. *)
Definition all_refuted (g : Gate) (env : InvocationEnvelope) (d : string) (v : Verdict) : Prop :=
  vd_Decision v = VerdictNeedsChanges /\ vd_Findings v <> [] /\
  Forall (refuted (inv_ContextPointers env) (wi_Resolve wire) (gate_Name g) d) (vd_Findings v).

Lemma judge_pass g env d empty a :
  founded wire g env a -> jd_Outcome (judge wire g env d empty a) = VerdictPass ->
  match an_Verdict a with
  | None => outcome_given wire g env VerdictPass
  | Some v => verdict_given wire v /\ (vd_Decision v = VerdictPass \/ all_refuted g env d v)
  end.
Proof.
  unfold judge. rewrite arbitration_outcome. unfold founded, apply_reconcile. cbn [jd_Verdict jd_Outcome jd_Forced jd_Resolution jd_Reason].
  destruct (an_Verdict a) as [v|] eqn:Ea; [|unfold apply_disproof; cbn; by intros ? <-].
  intros [Ho Hgiven].
  set (h := readEpisodeHistory (inv_ContextPointers env) (wi_Resolve wire) (gate_Name g)).
  assert (exists v1 j, (if negb (an_Duplicate a) && negb empty then _ else _) = j /\ jd_Verdict j = Some v1 /\ jd_Outcome j = vd_Decision v1 /\
    (v1 = v \/ vd_Findings v1 = List.filter (fun f => negb (suppressed h f)) (map (inherit h (gate_Name g) d) (vd_Findings v)) /\
      (vd_Decision v1 = vd_Decision v \/
       vd_Decision v1 = VerdictPass /\ vd_Decision v = VerdictNeedsChanges /\ vd_Findings v <> [] /\ vd_Findings v1 = []))) as
    (v1 & j & -> & Hv & Hd & Hcase).
  { destruct (negb (an_Duplicate a) && negb empty).
    - destruct (reconcileLearningFindings _ _ _ _ _) as [v1 res] eqn:Er. exists v1. eexists. split; [done|].
      split_and!; [done|done|]. right. by eapply reconcile_decision.
    - exists v. eexists. split; [done|]. cbn. by split_and!; [| |left]. }
  unfold apply_disproof. rewrite Hv, Hd.
  destruct (String.eqb_spec (vd_Decision v1) VerdictNeedsChanges) as [En|Nn].
  - destruct (disproveReviewerFindings _ _ _ _) as [v2 all] eqn:Ed. cbn. intros Hp.
    apply disprove_decision in Ed as [Hsame|(_ & Hne & r & Hr & HF)]; [by rewrite Hp, En in Hsame|].
    assert (vd_Decision v = VerdictNeedsChanges /\ vd_Findings v <> []) as [Hvn Hvf].
    { destruct Hcase as [->|[Hf [He|(He & _)]]]; [done| |by rewrite He in En]. split; [congruence|]. intros E. by rewrite E in Hf. }
    split; [by destruct Hgiven as [[? _]|[? _]]|]. right. split_and!; [done|done|].
    apply Forall_forall. intros f Hin. unfold refuted. fold h. rewrite Forall_forall in HF.
    destruct (suppressed h (inherit h (gate_Name g) d f)) eqn:Es; [by left|]. right. exists r. split; [done|].
    destruct Hcase as [->|[Hf _]]; [rewrite disproven_inherit; by apply HF|]. apply HF. rewrite Hf.
    apply list_elem_of_In, filter_In. split; [|by rewrite Es]. by apply in_map, list_elem_of_In.
  - rewrite Hd. intros Hp.
    destruct Hcase as [->|[Hf [He|(_ & Hvn & Hvf & Hnil)]]].
    + destruct Hgiven as [[? _]|[_ ?]]; [by split; [|left]|done].
    + destruct Hgiven as [[? _]|[_ ?]]; [by split; [|left; congruence]|congruence].
    + split; [by destruct Hgiven as [[? _]|[? _]]|]. right. split_and!; [done|done|].
      rewrite Hnil in Hf. symmetry in Hf. apply filter_nil in Hf. rewrite Forall_map in Hf.
      eapply Forall_impl; [exact Hf|]. cbn. intros f Hs. left. fold h. by destruct (suppressed h _).
Qed.
End routes.

(** ** The number of calls *)

Section cost.
Context {W J : Type} `{GateJournal J} {Lower : LowerCase} {Text : FindingText} {Quo : Quoting}.
Variable wire : Wiring W.
(** How many calls the outside world has seen. *)
Variable cost : W -> nat.

(** Whatever it returns, the computation makes at most [n] calls. *)
Definition spends {A} (n : nat) (m : M W J A) : Prop := forall s, (cost (gs_world (m s).2) <= cost (gs_world s) + n)%nat.

Lemma spends_le {A} n k (m : M W J A) : spends n m -> (n <= k)%nat -> spends k m.
Proof. intros Hm Hk s. specialize (Hm s). lia. Qed.
Lemma spends_ret {A} (a : A) : spends 0 (ret a).
Proof. intros s. cbn. lia. Qed.
Lemma spends_fail {A} e : spends (A := A) 0 (fail e).
Proof. intros s. cbn. lia. Qed.
Lemma spends_get : spends 0 get_eval.
Proof. intros s. cbn. lia. Qed.
Lemma spends_bind {A B} n k (m : M W J A) (f : A -> M W J B) :
  spends n m -> (forall a, spends k (f a)) -> spends (n + k) (bind m f).
Proof.
  intros Hm Hf s. unfold bind. specialize (Hm s). destruct (m s) as [[a|e] s1]; cbn in *; [|lia].
  specialize (Hf a s1). lia.
Qed.
Lemma spends_bind0 {A B} k (m : M W J A) (f : A -> M W J B) :
  spends 0 m -> (forall a, spends k (f a)) -> spends k (bind m f).
Proof. intros Hm Hf. by apply (spends_bind 0 k). Qed.
Lemma spends_call {A} n (f : W -> W * A) : (forall w, cost (f w).1 <= cost w + n)%nat -> spends n (call f).
Proof. intros Hf s. unfold call. specialize (Hf (gs_world s)). by destruct (f (gs_world s)). Qed.
Lemma spends_event e : spends 0 (journal_event e).
Proof. intros s. unfold journal_event. destruct (gs_journal s) as [j|]; [destruct (j_Append j e)|]; cbn; lia. Qed.
Lemma spends_record r d : spends 0 (recordVerdict r d).
Proof.
  intros s. unfold recordVerdict. destruct (gs_journal s) as [j|]; [|cbn; lia]. cbn zeta.
  destruct (match _ with Some _ => _ | None => _ end) as [j1 [a|]]; [destruct (j_Append j1 _)|]; cbn; lia.
Qed.
Lemma spends_resolve g o v d dup forced hit reason res :
  spends 0 (resolveOutcome wire g o v d dup forced hit reason res).
Proof.
  intros s. unfold resolveOutcome. unfold bind at 1. rewrite note_digest_run. destruct (BranchTarget g o); [|cbn; lia].
  unfold bind at 1, trackRepass. cbn. destruct (Charge _ _ _ _ _ _) as [b c]. cbn.
  destruct (BudgetEscalationVerdict _ _ _) as [v' cv].
  match goal with |- (cost (gs_world (recordVerdict ?r ?d ?s).2) <= _)%nat => pose proof (spends_record r d s) as Hr end.
  cbn in Hr. lia.
Qed.

Section bounded.
Hypotheses (Hcheck : forall check w g env, wi_Automated wire = Some check -> (cost (check w g env).1 <= cost w + 1)%nat)
  (Hreview : forall goober w env, wi_Reviewer wire = Some goober -> (cost (goober w env).1 <= cost w + 1)%nat)
  (Hwait : forall w t, (cost (wi_Wait wire w t).1 <= cost w)%nat).

Lemma spends_wait backoff : spends 0 (if (0 <? backoff)%Z then call (fun w => wi_Wait wire w backoff) else ret false).
Proof. destruct (0 <? backoff)%Z; [|apply spends_ret]. apply spends_call. intros w. specialize (Hwait w backoff). lia. Qed.

Lemma spends_retry_automated check name mx backoff g env left : wi_Automated wire = Some check -> forall attempt,
  spends (S left) (retry_automated wire name mx backoff attempt left (fun w => check w g env)).
Proof.
  intros Ec. induction left as [|left IH]; intros attempt; cbn [retry_automated].
  all: match goal with |- spends (S ?n) _ => apply (spends_bind 1 n) end;
    [apply spends_call; intros w; by apply Hcheck|intros [o|e]; [eapply spends_le; [apply spends_ret|lia]|]].
  all: destruct (negb _); [eapply spends_le; [apply spends_fail|lia]|].
  all: apply spends_bind0; [apply spends_event|intros _].
  all: destruct (mx <=? attempt)%Z; [eapply spends_le; [apply spends_fail|lia]|].
  all: apply spends_bind0; [apply spends_wait|intros []]; try (eapply spends_le; [apply spends_fail|lia]).
  apply IH.
Qed.

Lemma spends_review goober env stage artifacts : wi_Reviewer wire = Some goober ->
  spends 1 (call (Review goober env stage artifacts)).
Proof.
  intros Er. apply spends_call. intros w. unfold Review.
  pose proof (Hreview goober w (ReviewerInvocation env stage artifacts) Er) as Hc. by destruct (goober w _) as [w' [v|e]].
Qed.

Lemma spends_retry_reviewer goober g mx backoff previous stage artifacts left : wi_Reviewer wire = Some goober ->
  forall class attempt env,
  spends (S left) (retry_reviewer wire goober g mx backoff previous class stage artifacts attempt left env).
Proof.
  intros Er. induction left as [|left IH]; intros class attempt env; cbn [retry_reviewer].
  all: apply spends_bind0; [apply spends_event|intros _].
  all: match goal with |- spends (S ?n) _ => apply (spends_bind 1 n) end; [by apply spends_review|intros [v|e]].
  all: try (destruct (ce_CustodyPending e); [eapply spends_le; [apply spends_fail|lia]|]).
  all: apply spends_bind0; [apply spends_event|intros _].
  all: destruct (negb _); [eapply spends_le; [first [apply spends_ret|apply spends_fail]|lia]|].
  all: apply spends_bind0; [apply spends_event|intros _].
  all: destruct (mx <=? attempt)%Z; [eapply spends_le; [first [apply spends_ret|apply spends_fail]|lia]|].
  all: apply spends_bind0; [apply spends_wait|intros []].
  all: try (eapply spends_le; [first [apply spends_ret|apply spends_fail]|lia]).
  all: apply IH.
Qed.

Lemma RetryBounds_positive p : (1 <= (RetryBounds p).1)%Z.
Proof. unfold RetryBounds. destruct p as [p|]; [|done]. destruct (Z.ltb_spec 1 (retry_MaxAttempts p)); cbn; lia. Qed.

Lemma spends_evaluate_with_retry check name policy g env : wi_Automated wire = Some check ->
  spends (Z.to_nat (RetryBounds policy).1) (evaluateWithRetry wire name policy (fun w => check w g env)).
Proof.
  intros Ec. unfold evaluateWithRetry. pose proof (RetryBounds_positive policy) as Hpos.
  destruct (RetryBounds policy) as [mx backoff]. cbn [fst] in Hpos |- *.
  eapply spends_le; [by apply spends_retry_automated|lia].
Qed.
Lemma spends_reviewer_with_retry goober g policy env stage artifacts : wi_Reviewer wire = Some goober ->
  spends (Z.to_nat (RetryBounds policy).1) (evaluateReviewerWithRetry wire goober g policy env stage artifacts).
Proof.
  intros Er. unfold evaluateReviewerWithRetry. pose proof (RetryBounds_positive policy) as Hpos.
  destruct (RetryBounds policy) as [mx backoff]. cbn [fst] in Hpos |- *.
  apply spends_bind0; [repeat case_match; first [apply spends_ret|apply spends_fail]|].
  intros previous. eapply spends_le; [by apply spends_retry_reviewer|lia].
Qed.

Lemma spends_answer g env stage artifacts d empty :
  spends (Z.to_nat (RetryBounds (gateRetryPolicy g)).1)
    (match Evaluator g with
     | EvaluatorAgentic => answer_of_agentic wire g env stage artifacts d empty
     | _ => answer_of_automated wire g env
     end).
Proof.
  set (n := Z.to_nat _). rewrite <- (Nat.add_0_r n).
  pose proof (fun check => spends_evaluate_with_retry check (gate_Name g) (gateRetryPolicy g) (default (mkAutomated "" ∅ None 0 0 0) (Automated g)) env) as HA.
  pose proof (fun goober => spends_reviewer_with_retry goober g (gateRetryPolicy g) env stage artifacts) as HR.
  assert (spends (n + 0) (answer_of_automated wire g env)) as Hauto.
  { unfold answer_of_automated. revert HA. case (wi_Automated wire); [intros check HA|intros _; eapply spends_le; [apply spends_fail|lia]].
    apply spends_bind; [by apply HA|intros; apply spends_ret]. }
  destruct (Evaluator g); try done. unfold answer_of_agentic. apply spends_bind0; [apply spends_get|intros e].
  destruct (wi_CachedVerdict wire); [eapply spends_le; [apply spends_ret|lia]|].
  destruct empty; [eapply spends_le; [apply spends_ret|lia]|].
  destruct (_ && _); [eapply spends_le; [apply spends_ret|lia]|].
  revert HR. case (wi_Reviewer wire); [intros goober HR|intros _; eapply spends_le; [apply spends_fail|lia]].
  apply spends_bind; [by apply HR|intros [v i]; apply spends_ret].
Qed.

Lemma spends_recovered g : spends 0 (recovered_review wire g).
Proof. unfold recovered_review. destruct (wi_RecoveryVerdict wire) as [f|]; [destruct (f g)|]; first [apply spends_ret|apply spends_fail]. Qed.
Lemma spends_interrupted g d : spends 0 (RecoverInterrupted wire g d).
Proof.
  unfold RecoverInterrupted. apply spends_bind0; [apply spends_get|intros e]. destruct (_ <=? _)%Z; [apply spends_ret|].
  apply spends_bind0; [|intros r; apply spends_bind0; [apply spends_record|intros; apply spends_ret]].
  unfold setInterruptedVerdict. destruct (negb _); [apply spends_ret|].
  apply spends_bind0; [apply spends_recovered|intros; apply spends_ret].
Qed.
End bounded.
End cost.

Section theorems.
Context {W J : Type} `{GateJournal J} {Lower : LowerCase} {Text : FindingText} {Quo : Quoting}.

Lemma recovered_route (wire : Wiring W) g d (s : gate_state W J) r s' :
  RecoverInterrupted wire g d s = (Ok (Some r), s') ->
  gr_Escalated r = true /\ gr_Target r = escalationTarget g /\ gr_Outcome r <> VerdictPass.
Proof.
  unfold RecoverInterrupted. intros HR. apply bind_ok in HR as (e & s1 & _ & HR). destruct (_ <=? _)%Z; [done|].
  apply bind_ok in HR as (r1 & s2 & Hs & HR). apply bind_ok in HR as (r2 & s3 & Hr & [= <- _]).
  apply recordVerdict_route in Hr as (_ & -> & -> & -> & _).
  unfold setInterruptedVerdict in Hs. destruct (negb _); [by injection Hs as <- _|].
  by apply bind_ok in Hs as (p & s4 & _ & [= <- _]).
Qed.

Lemma answer_founded (wire : Wiring W) g env stage artifacts d empty (s : gate_state W J) a s' :
  configured wire g = None ->
  match Evaluator g with
  | EvaluatorAgentic => answer_of_agentic wire g env stage artifacts d empty
  | _ => answer_of_automated wire g env
  end s = (Ok a, s') ->
  founded wire g env a /\ Evaluator g = match an_Verdict a with None => EvaluatorAutomated | Some _ => EvaluatorAgentic end.
Proof.
  unfold configured. destruct (Evaluator g) eqn:Eg; try done; intros _ HA.
  - pose proof HA as HA'. apply automated_founded in HA'. split; [done|]. unfold answer_of_automated in HA.
    destruct (wi_Automated wire); [|done]. by apply bind_ok in HA as (? & ? & _ & [= <- _]).
  - pose proof HA as HA'. apply agentic_founded in HA'. split; [done|]. unfold answer_of_agentic in HA.
    apply bind_ok in HA as (? & ? & _ & HA). destruct (wi_CachedVerdict wire); [by injection HA as <- _|].
    destruct empty; [by injection HA as <- _|]. destruct (_ && _); [by injection HA as <- _|].
    destruct (wi_Reviewer wire); [|done]. by apply bind_ok in HA as ([] & ? & _ & [= <- _]).
Qed.

(** C6: A gate passes only on a pass that was earned, and never silently.  The
    result of an evaluation goes to the branch the gate declares for its outcome,
    or, when it escalated, to the gate's escalation target.  Its outcome is a pass
    only if a call of the gate's check answered pass, or a verdict of the reviewer
    (one it gave, or one cached for these inputs) says so or asks for changes whose
    findings, of which there is one, were each resolved before with no new evidence
    or are disproven by the reviewed patch. *)
Theorem pass_is_earned (wire : Wiring W) g env stage artifacts d empty (s : gate_state W J) r s' :
  Evaluate wire g env stage artifacts d empty s = (Ok r, s') ->
  routes g r /\
  (gr_Outcome r = VerdictPass ->
     (Evaluator g = EvaluatorAutomated /\ outcome_given wire g env VerdictPass) \/
     (Evaluator g = EvaluatorAgentic /\ exists v, verdict_given wire v /\
        (vd_Decision v = VerdictPass \/ all_refuted wire g env d v))).
Proof.
  unfold Evaluate. intros HE. apply bind_ok in HE as (o & s0 & HR & HE). destruct o as [r1|].
  { injection HE as <- _. eapply recovered_route in HR as (He & Ht & Ho). unfold routes. by rewrite He. }
  destruct (configured wire g) as [e|] eqn:Ec; [done|].
  apply bind_ok in HE as (e & s1 & _ & HE). apply bind_ok in HE as ([] & s2 & _ & HE).
  apply bind_ok in HE as (a & s3 & HA & HE). destruct (answer_founded _ _ _ _ _ _ _ _ _ _ Ec HA) as [HF ->].
  destruct (an_Invalid a) eqn:Ei; apply resolveOutcome_route in HE as (_ & Hr & Hp & _); (split; [done|]; intros Ho%Hp).
  - unfold founded in HF. rewrite Ho in HF. destruct (an_Verdict a) as [v|]; [right|by left].
    split; [done|]. exists v. destruct HF as [<- [[? _]|[_ ?]]]; [by split; [|left]|done].
  - apply (judge_pass _ _ _ _ _ _ HF) in Ho. destruct (an_Verdict a) as [v|]; [right; by eauto|by left].
Qed.

(** One evaluation calls the gate's check or its reviewer at most as often as
    the gate's retry policy allows, once without one, whatever they answer, whether
    the evaluation succeeds or fails, and whatever the journal does. *)
Theorem evaluator_calls_are_bounded (wire : Wiring W) (cost : W -> nat) g env stage artifacts d empty (s : gate_state W J) :
  (forall check w c e, wi_Automated wire = Some check -> (cost (check w c e).1 <= cost w + 1)%nat) ->
  (forall goober w e, wi_Reviewer wire = Some goober -> (cost (goober w e).1 <= cost w + 1)%nat) ->
  (forall w t, (cost (wi_Wait wire w t).1 <= cost w)%nat) ->
  (cost (gs_world (Evaluate wire g env stage artifacts d empty s).2)
   <= cost (gs_world s) + Z.to_nat (RetryBounds (gateRetryPolicy g)).1)%nat.
Proof.
  intros Hc Hr Hw. revert s. change (spends cost (Z.to_nat (RetryBounds (gateRetryPolicy g)).1) (Evaluate wire g env stage artifacts d empty)).
  unfold Evaluate. apply spends_bind0; [apply spends_interrupted|intros [r|]; [eapply spends_le; [apply spends_ret|lia]|]].
  destruct (configured wire g); [eapply spends_le; [apply spends_fail|lia]|].
  apply spends_bind0; [apply spends_get|intros e]. apply spends_bind0; [apply spends_event|intros _].
  rewrite <- (Nat.add_0_r (Z.to_nat _)). apply spends_bind; [by apply spends_answer|intros a].
  destruct (an_Invalid a); apply spends_resolve.
Qed.
End theorems.
