(* ===== verification/GateRunJournal.v ===== *)
(** * The run journal is a gate's journal

    [internal/gate] declares the journal it needs as an interface, "satisfied
    directly by *internal/journal.Run"; here the writer of [JournalRun] discharges
    [GateJournalLaws], so that what is proved of gates against the interface holds
    of a run journal on disk, with writes that fail or are not synced. *)

From S2P Require Export JournalRunProps GateResumeFacts.
Local Open Scope list_scope.

Section run_journal.
Context `{C : EventCodec}.

(** The run's lines survive its scrubber and keep the fields a gate is resumed
    from, as they do under the [nopScrubber] of callers whose events carry no
    secrets: a condition on the scrubber and the events, not a law of either. *)
Class GateRedaction : Prop := {
  lines_survive : forall seq now e, survives (stamp seq now e) = true;
  gate_fields_kept : forall e, seen_as e (redacted e)
}.
Context `{!GateRedaction}.

(** [recordExpectedArtifact] without an expected reference; [stored] is what writing
    the scrubbed content gave. *)
Definition recordArtifact (env : call_env) (stored : option ArtifactPointer) (ev : Event) (r : Run) (d : RunDisk)
    : result journal_error unit * Run * RunDisk * option ArtifactPointer :=
  if r_closed r then (Error ErrClosed, r, d, None)
  else match stored with
  | None => (Error ErrWrite, r, d, None)
  | Some ref =>
      let '(res, r, d) := append env r d ev in
      match res with
      | Error e => (Error e, r, d, None)
      | Ok _ => let '(res, d) := checkpoint env r d in (res, r, d, if result_is_ok res then Some ref else None)
      end
  end.

(** The open writer, the disk, and what the calls to come will meet. *)
Record run_journal := mkRunJournal {
  rj_run : Run;
  rj_disk : RunDisk;
  rj_envs : nat -> call_env;
  rj_stores : nat -> option ArtifactPointer;
  rj_holds : exists evs, journal_holds rj_disk (Some rj_run) evs
}.

Lemma rj_append_holds j e :
  exists evs, journal_holds (Append (rj_envs j 0) e (rj_run j) (rj_disk j)).2
    (Some (Append (rj_envs j 0) e (rj_run j) (rj_disk j)).1.2) evs.
Proof.
  destruct (rj_holds j) as [evs Hj]. destruct (Append _ _ _ _) as [[res r'] d'] eqn:E.
  destruct (appendPrepared_extends _ None e _ _ _ _ _ _ Hj (lines_survive _ _ _) E) as [added Ha]. by eexists.
Qed.

Definition rj_Append (j : run_journal) (e : Event) : run_journal * bool :=
  let step := Append (rj_envs j 0) e (rj_run j) (rj_disk j) in
  (mkRunJournal step.1.2 step.2 (fun n => rj_envs j (S n)) (rj_stores j) (rj_append_holds j e), result_is_ok step.1.1).

Definition artifact_recorded : Event := zero_event EventArtifactRecorded.

(** Recording an artifact is an append of its event, when the content is stored. *)
Lemma recordArtifact_append env ref r d :
  recordArtifact env (Some ref) artifact_recorded r d =
  let step := Append env artifact_recorded r d in (step.1.1, step.1.2, step.2, if result_is_ok step.1.1 then Some ref else None).
Proof.
  unfold recordArtifact, Append, appendPrepared. destruct (r_closed r); [done|].
  destruct (append env r d artifact_recorded) as [[[[]|e] r1] d1]; [|done].
  change (applyLifecycle artifact_recorded r1) with r1. by destruct (checkpoint env r1 d1).
Qed.

Lemma rj_artifact_holds j stored :
  let step := recordArtifact (rj_envs j 0) stored artifact_recorded (rj_run j) (rj_disk j) in
  exists evs, journal_holds step.1.2 (Some step.1.1.2) evs.
Proof.
  destruct stored as [ref|]; [rewrite recordArtifact_append; apply rj_append_holds|].
  destruct (rj_holds j) as [evs Hj]. exists evs. unfold recordArtifact. by destruct (r_closed _).
Qed.

Definition rj_RecordArtifact (j : run_journal) (name : string) (v : Verdict) : run_journal * option ArtifactPointer :=
  let step := recordArtifact (rj_envs j 0) (rj_stores j 0) artifact_recorded (rj_run j) (rj_disk j) in
  (mkRunJournal step.1.1.2 step.1.2 (fun n => rj_envs j (S n)) (fun n => rj_stores j (S n))
     (rj_artifact_holds j (rj_stores j 0)), step.2).

#[export] Instance run_gate_journal : GateJournal run_journal := {|
  j_Append := rj_Append;
  j_RecordArtifact := rj_RecordArtifact
|}.

(** The events a reader of the disk finds. *)
Definition rj_events (j : run_journal) : list Event :=
  match readEvents (d_events (rj_disk j)) with Ok (evs, _) => evs | Error _ => [] end.

Lemma Append_reads env ev r d evs r' d' :
  journal_holds d (Some r) evs -> Append env ev r d = (Ok (), r', d') ->
  exists e, readEvents (d_events d') = Ok (evs ++ [e], 0%nat) /\ e = committed_event (highestEventSeq evs) (env_now env) (attributed r ev).
Proof.
  intros Hj. unfold Append, appendPrepared. destruct (r_closed r) eqn:Hc; [done|].
  destruct (append env r d ev) as [[[[]|e] r1] d1] eqn:Ha; [|done].
  destruct (append_spec env r d ev _ _ _ _ Hj Hc (lines_survive _ _ _) Ha) as (_ & _ & [[_ ?]|(_ & _ & Hok)]); [done|].
  destruct (Hok eq_refl) as (_ & _ & Hlog). pose proof (checkpoint_events env (applyLifecycle ev r1) d1) as Hev.
  destruct (checkpoint _ _ _) as [[[]|e] d2]; [|done]. intros [= <- <-]. cbn in Hev.
  eexists. split; [|done]. rewrite Hev. by apply log_holds_read in Hlog.
Qed.

Lemma committed_seen seq now r ev : seen_as ev (committed_event seq now (attributed r ev)).
Proof.
  unfold committed_event. unfold seen_as at 1. destruct (gate_fields_kept (stamp (seq + 1) now (attributed r ev))) as (-> & -> & -> & -> & -> & -> & ->).
  unfold attributed. by destruct (ev_Branch ev =? 0)%Z.
Qed.

#[export] Instance run_gate_journal_laws : GateJournalLaws run_journal.
Proof.
  refine {| j_events := rj_events |}.
  - intros j e j' Ha. destruct (rj_holds j) as [evs Hj]. cbn in Ha. unfold rj_Append in Ha. injection Ha as Hj' Hok.
    assert (rj_disk j' = (Append (rj_envs j 0) e (rj_run j) (rj_disk j)).2) as Hd by (by subst). clear Hj'.
    destruct (Append (rj_envs j 0) e (rj_run j) (rj_disk j)) as [[[[]|err] r'] d'] eqn:E; [|done]. cbn in Hd.
    destruct (Append_reads _ _ _ _ _ _ _ Hj E) as (e' & Hr & ->). eexists. split; [|apply committed_seen].
    unfold rj_events. rewrite Hd, Hr. destruct Hj as (tail & Hlog & _). by rewrite (log_holds_read _ _ _ Hlog).
  - intros j name v j' a Ha. destruct (rj_holds j) as [evs Hj]. cbn in Ha. unfold rj_RecordArtifact in Ha. injection Ha as Hj' Hs.
    assert (rj_disk j' = (recordArtifact (rj_envs j 0) (rj_stores j 0) artifact_recorded (rj_run j) (rj_disk j)).1.2) as Hd by (by subst).
    clear Hj'. destruct (rj_stores j 0) as [ref|]; [|unfold recordArtifact in Hs; by destruct (r_closed (rj_run j))].
    rewrite recordArtifact_append in Hs, Hd. cbn in Hs, Hd.
    destruct (Append (rj_envs j 0) artifact_recorded (rj_run j) (rj_disk j)) as [[[[]|err] r'] d'] eqn:E; [|done]. cbn in Hd.
    destruct (Append_reads _ _ _ _ _ _ _ Hj E) as (e' & Hr & He'). exists [e'].
    destruct Hj as (tail & Hlog & _). unfold rj_events. rewrite Hd, Hr, (log_holds_read _ _ _ Hlog). split; [done|].
    constructor; [|constructor]. subst e'. by rewrite (seen_inert _ _ (committed_seen _ _ _ artifact_recorded)).
Defined.
End run_journal.
