(* ===== verification/GateChecks.v ===== *)
(** * Automated checks: [internal/gate/automated.go], [artifacts.go]

    The registry of named checks over the flat inputs of a gate, the failure
    classes of [internal/failureclass], the cache of compiled patterns, and the
    evaluator that runs them.  Floating point numbers with their text, regular
    expressions, and the rendering of a value that is not a string are the
    classes [NumberText] and [Regexp]. *)

From S2P Require Export GateEvaluate.
Local Open Scope Z_scope.
Local Open Scope string_scope.
Local Open Scope list_scope.

(** ** Parameters *)

Class NumberText := {
  Float : Type;
  ParseFloat : string -> option Float;
  float_of_int : Z -> Float;
  Float64frombits : Z -> Float;
  float_le : Float -> Float -> bool;
  float_lt : Float -> Float -> bool;
  (** [fmt.Sprintf("%v", v)] for a value that is not a string. *)
  Sprint : Any -> string
}.
(** [regexp.Compile]; a compiled pattern is the predicate it matches with. *)
Class Regexp := Compile : string -> option (string -> bool).

Inductive check_error :=
| ErrMissingParam (name param : string)
| ErrBadThreshold (name text : string)
| ErrBadPattern (name pattern : string)
| ErrInputNotSet (key : string)
| ErrInputType (key : string)
| ErrInputNotNumeric (key text : string)
| ErrUnknownCheck (name : string)
| ErrAmbiguousCheck (name : string)
| ErrNoReader | ErrOpenReader | ErrNilReader | ErrCloseReader
| ErrArtifactCheck.

(** ** The cache of compiled patterns *)

Definition maxRegexCacheEntries : nat := 128.

Record regex_cache := mkCache { rx_cache : gmap string (string -> bool); rx_order : list string }.
Definition empty_cache : regex_cache := mkCache ∅ [].

(** The first occurrence of [p] removed. *)
Fixpoint remove_first (p : string) (l : list string) : option (list string) :=
  match l with
  | [] => None
  | x :: l' => if x =? p then Some l' else cons x <$> remove_first p l'
  end.
(** Eviction of the oldest entries while there are too many. *)
Fixpoint evict (fuel : nat) (c : regex_cache) : regex_cache :=
  if (size (rx_cache c) <=? maxRegexCacheEntries)%nat then c
  else match fuel, rx_order c with
  | S n, oldest :: order => evict n (mkCache (delete oldest (rx_cache c)) order)
  | _, _ => c
  end.

Section checks.
Context {Num : NumberText} {Rx : Regexp} {Lower : LowerCase} {Quo : Quoting}.

Definition getCompiledRegex (pattern : string) (c : regex_cache) : option (string -> bool) * regex_cache :=
  match rx_cache c !! pattern with
  | Some re =>
      (Some re, match remove_first pattern (rx_order c) with
                | Some order => mkCache (rx_cache c) (order ++ [pattern])
                | None => c
                end)
  | None =>
      match Compile pattern with
      | None => (None, c)
      | Some re =>
          let c := mkCache (<[pattern := re]> (rx_cache c)) (rx_order c ++ [pattern]) in
          (Some re, evict (length (rx_order c)) c)
      end
  end.

(** ** Inputs *)

Definition InputKeyStatus : string := "status".
Definition InputKeyErrorCode : string := "errorCode".
Definition InputKeyErrorMessage : string := "errorMessage".
Definition InputKeyErrorRetryable : string := "errorRetryable".
Definition ResultSuccess : string := "success".
Definition ResultFailure : string := "failure".

Record ErrorInfo := mkErrorInfo { ei_Code : string; ei_Message : string; ei_Retryable : bool }.
Record ResultEnvelope := mkEnvelope {
  re_Status : string;
  re_Outputs : gmap string Any;
  re_Error : option ErrorInfo
}.

Definition reserved_keys : list string := [InputKeyStatus; InputKeyErrorCode; InputKeyErrorMessage; InputKeyErrorRetryable].
(** [AutomatedInputs]: the inputs, and the reserved keys the outputs used. *)
Definition AutomatedInputs (subject : ResultEnvelope) : gmap string Any * list string :=
  let collisions := List.filter (fun k => bool_decide (is_Some (re_Outputs subject !! k))) reserved_keys in
  let '(code, message, retryable) :=
    match re_Error subject with
    | Some e => (ei_Code e, ei_Message e, ei_Retryable e)
    | None => ("", "", false)
    end in
  (<[InputKeyErrorRetryable := AnyBool retryable]> (<[InputKeyErrorMessage := AnyString message]>
     (<[InputKeyErrorCode := AnyString code]> (<[InputKeyStatus := AnyString (re_Status subject)]> (re_Outputs subject)))),
   collisions).

Definition stringField (inputs : gmap string Any) (key : string) : string :=
  match inputs !! key with
  | None => ""
  | Some (AnyString s) => s
  | Some v => Sprint v
  end.

Definition outputStringField (inputs : gmap string Any) (key : string) : result check_error string :=
  match inputs !! key with
  | None => Error (ErrInputNotSet key)
  | Some (AnyString s) => Ok s
  | Some (AnyBool b as v) => Ok (Sprint v)
  | Some (AnyInt z as v) => Ok (Sprint v)
  | Some (AnyFloat bits as v) => Ok (Sprint v)
  | Some _ => Error (ErrInputType key)
  end.

Definition numericField (inputs : gmap string Any) (key : string) : result check_error Float :=
  match inputs !! key with
  | None => Error (ErrInputNotSet key)
  | Some (AnyInt z) => Ok (float_of_int z)
  | Some (AnyFloat bits) => Ok (Float64frombits bits)
  | Some (AnyString s) => match ParseFloat s with Some f => Ok f | None => Error (ErrInputNotNumeric key s) end
  | Some _ => Error (ErrInputType key)
  end.

(** ** Checks *)

(** A check of the inputs against the parameters; the cache is shared by all. *)
Definition CheckFunc : Type := gmap string Any -> gmap string string -> regex_cache -> result check_error string * regex_cache.
Definition pure_check (f : gmap string Any -> gmap string string -> result check_error string) : CheckFunc :=
  fun inputs params c => (f inputs params, c).

Definition boolOutcome (pass : bool) : string := if pass then OutcomePass else OutcomeFail.
(** [params[k]], required and not empty. *)
Definition required (params : gmap string string) (name param : string) : result check_error string :=
  match params !! param with
  | Some s => if s =? "" then Error (ErrMissingParam name param) else Ok s
  | None => Error (ErrMissingParam name param)
  end.
(** [params[k]], required. *)
Definition present (params : gmap string string) (name param : string) : result check_error string :=
  match params !! param with Some s => Ok s | None => Error (ErrMissingParam name param) end.

Definition numericOutputCheck (name : string) (cmp : Float -> Float -> bool) : CheckFunc :=
  pure_check (fun inputs params =>
    match required params name "key" with
    | Error e => Error e
    | Ok key =>
        match present params name "threshold" with
        | Error e => Error e
        | Ok text =>
            match ParseFloat text with
            | None => Error (ErrBadThreshold name text)
            | Some threshold =>
                match numericField inputs key with
                | Error e => Error e
                | Ok got => Ok (boolOutcome (cmp got threshold))
                end
            end
        end
    end).

Definition or_default (s d : string) : string := if s =? "" then d else s.

Definition status_equals : CheckFunc :=
  pure_check (fun inputs params =>
    Ok (boolOutcome (stringField inputs InputKeyStatus =? or_default (default "" (params !! "equals")) ResultSuccess))).

Definition output_equals : CheckFunc :=
  pure_check (fun inputs params =>
    match required params "output-equals" "key" with
    | Error e => Error e
    | Ok key =>
        match present params "output-equals" "equals" with
        | Error e => Error e
        | Ok want => Ok (boolOutcome (stringField inputs key =? want))
        end
    end).

Definition output_not_equals : CheckFunc :=
  pure_check (fun inputs params =>
    match required params "output-not-equals" "key" with
    | Error e => Error e
    | Ok key =>
        match present params "output-not-equals" "equals" with
        | Error e => Error e
        | Ok want =>
            match outputStringField inputs key with
            | Error e => Error e
            | Ok got => Ok (boolOutcome (negb (got =? want)))
            end
        end
    end).

Definition output_matches : CheckFunc := fun inputs params c =>
  match required params "output-matches" "key" with
  | Error e => (Error e, c)
  | Ok key =>
      match present params "output-matches" "pattern" with
      | Error e => (Error e, c)
      | Ok pattern =>
          match getCompiledRegex pattern c with
          | (None, c) => (Error (ErrBadPattern "output-matches" pattern), c)
          | (Some re, c) =>
              (match outputStringField inputs key with
               | Error e => Error e
               | Ok got => Ok (boolOutcome (re got))
               end, c)
          end
      end
  end.

Definition ciStatusOutcome (inputs : gmap string Any) (params : gmap string string) : string :=
  let want := or_default (default "" (params !! "equals")) "passing" in
  let got := stringField inputs "ciStatus" in
  if got =? "timeout" then OutcomeTimeout
  else if got =? "merged" then OutcomePass
  else boolOutcome (got =? want).
Definition ci_status : CheckFunc := pure_check (fun inputs params => Ok (ciStatusOutcome inputs params)).

Definition OutcomeMerged : string := "merged".
Definition OutcomeEnqueued : string := "enqueued".
Definition OutcomeEvicted : string := "evicted".

Definition land_outcome : CheckFunc :=
  pure_check (fun inputs _ =>
    let got := stringField inputs "landOutcome" in
    Ok (if (got =? OutcomeMerged) || (got =? OutcomeEnqueued) then got else OutcomeFail)).
Definition queue_outcome : CheckFunc :=
  pure_check (fun inputs _ =>
    let got := stringField inputs "queueOutcome" in
    Ok (if (got =? OutcomeMerged) || (got =? OutcomeEvicted) || (got =? OutcomeTimeout) then got else OutcomeFail)).

(** ** Failure classes: [internal/failureclass] *)

Definition ContainsAny (message : string) (tokens : list string) : bool := existsb (Contains message) tokens.
(** A pattern of the package, which compiles. *)
Definition matches (pattern message : string) : bool :=
  match Compile pattern with Some re => re message | None => false end.

Definition dependencyFetchMarkers : list string :=
  ["go: downloading"; "go: module "; "go mod download"; "verifying module"; "reading https://"; "goproxy";
   "proxy.golang.org"; "sum.golang.org"; "storage.googleapis.com"; "registry.npmjs.org"; "npm error"; "npm err!";
   "files.pythonhosted.org"; "pypi.org"; "index.crates.io"].
Definition quote : string := String "034" "".
Definition goModuleFetchPattern : string := "(?m)(?:^|; failure: )go: [^\s@]+@[^\s:]+: get " +:+ quote +:+ "https?://".
Definition isDependencyFetch (message : string) : bool :=
  ContainsAny message dependencyFetchMarkers || matches goModuleFetchPattern message.
Definition transportDenialTokens : list string :=
  ["403 forbidden"; ": forbidden"; "connection refused"; "econnrefused"; "i/o timeout"; "etimedout";
   "tls handshake timeout"; "proxyconnect"; "network is unreachable"].
Definition dependencyTransportHint (message : string) : string :=
  if ContainsAny message ["no such host"; "server misbehaving"; "temporary failure in name resolution"; "enotfound"; "eai_again"]
  then "check runner DNS resolution and connectivity to the configured module proxy or package registry"
  else if ContainsAny message ["401 unauthorized"; "401 authorization required"; "401 authentication required"]
  then "check the runner's module proxy or package registry credentials and repository access"
  else "".
Definition DependencyTransportHint (message : string) : string :=
  let message := ToLower message in
  if negb (isDependencyFetch message) then "" else dependencyTransportHint message.
Definition IsDependencyTransportDenial (message : string) : bool :=
  let message := ToLower message in
  isDependencyFetch message
  && (ContainsAny message transportDenialTokens || negb (dependencyTransportHint message =? "")).

Definition gitUnresolvableRevisionPattern : string :=
  "(?i)fatal: (?:ambiguous argument '[^']*': unknown revision or path not in the working tree|bad revision '[^']*')".
Definition gitFatalExitPattern : string := "(?i)^command exited 128(?:;|$)".
Definition IsGitUnresolvableRevision (line : string) : bool := matches gitUnresolvableRevisionPattern line.
Definition IsUnrunnableGitRevisionFailure (message : string) : bool :=
  let message := TrimSpace message in matches gitFatalExitPattern message && IsGitUnresolvableRevision message.

Definition managedWorktreePathPattern : string := "(?i)(?:^|[\\/])wt-[0-9a-f]{24}(?:[\\/]|$)".
Definition missingPathMarkers : list string := ["the system cannot find the path specified"; "no such file or directory"].
Definition IsStaleManagedWorktreePath (message : string) : bool :=
  let message := ToLower message in matches managedWorktreePathPattern message && ContainsAny message missingPathMarkers.

Definition windowsLockMarkers : list string :=
  ["sharing violation"; "used by another process"; "the process cannot access the file"; "resource busy or locked"; "unable to unlink"].
Definition windowsLockErrnoOperations : list string := ["unlink"; "rename"; "rmdir"].
Definition windowsAbsolutePathPattern : string := "(?:[a-z]:\\|\\\\)(?:[^\\|;:\r\n]*\\)*[^\\\s|;:\r\n]+".
Definition windowsLockAccessDeniedRenamePattern : string :=
  "(?:^|:\s+)rename\s+" +:+ windowsAbsolutePathPattern +:+ "\s+" +:+ windowsAbsolutePathPattern
  +:+ ":\s+access is denied\.?\s*(?:\|\s|$)".
Definition IsWindowsSharingViolation (message : string) : bool :=
  let message := ToLower message in
  ContainsAny message windowsLockMarkers
  || (Contains message "eperm" && ContainsAny message windowsLockErrnoOperations)
  || matches windowsLockAccessDeniedRenamePattern message.

Definition infrastructureSignatures : list (list string) :=
  [["parallel golangci-lint is running"]; ["resource temporarily unavailable"]; ["failed to create new os thread"];
   ["cannot allocate memory"]; ["npm error openssl/"; "tls alert handshake failure"];
   ["tls handshake error"; "remote error: tls: bad certificate"];
   ["read-only file system"]; ["eacces:"; "permission denied"]; ["permission denied"; "mkdir"]].

Definition containsAll (message : string) (tokens : list string) : bool :=
  (0 <? length tokens)%nat && forallb (Contains message) tokens.

Definition isRecognizedInfrastructureFailure (inputs : gmap string Any) : bool :=
  if negb (stringField inputs InputKeyErrorCode =? "nonzero_exit") then false
  else
    let message := ToLower (stringField inputs InputKeyErrorMessage) in
    existsb (containsAll message) infrastructureSignatures
    || IsDependencyTransportDenial message || IsWindowsSharingViolation message
    || IsStaleManagedWorktreePath message || IsUnrunnableGitRevisionFailure message.

Definition failureClassCheck : CheckFunc :=
  pure_check (fun inputs _ =>
    let status := stringField inputs InputKeyStatus in
    if status =? ResultSuccess then Ok OutcomePass
    else if (status =? ResultFailure) && (stringField inputs InputKeyErrorCode =? "base_sync_conflict") then Ok OutcomeFail
    else
      let retryable := match inputs !! InputKeyErrorRetryable with Some (AnyBool b) => b | _ => false end in
      if (status =? ResultFailure) && (retryable || isRecognizedInfrastructureFailure inputs) then Ok OutcomeInfra
      else Ok OutcomeFail).

(** ** The registry and the evaluator *)

Definition DefaultChecks : gmap string CheckFunc :=
  {[ "status-equals" := status_equals; "failure-class" := failureClassCheck; "output-equals" := output_equals;
     "output-numeric-gte" := numericOutputCheck "output-numeric-gte" (fun got threshold => float_le threshold got);
     "output-numeric-lte" := numericOutputCheck "output-numeric-lte" float_le;
     "output-numeric-lt" := numericOutputCheck "output-numeric-lt" float_lt;
     "output-not-equals" := output_not_equals; "output-matches" := output_matches;
     "ci-status" := ci_status; "land-outcome" := land_outcome; "queue-outcome" := queue_outcome ]}.

(** What a check on artifacts answered: an outcome, evidence that is invalid, or
    another error. *)
Inductive artifact_answer := ArtifactOutcome (outcome : string) | ArtifactInvalid | ArtifactFailed.
(** What opening the reader gave. *)
Inductive reader_answer := ReaderOpened (closes : bool) | ReaderNil | ReaderInvalid | ReaderFailed.

Record AutomatedEvaluator := mkAutomatedEvaluator {
  ae_Checks : option (gmap string CheckFunc);
  ae_ArtifactChecks : gmap string (option (gmap string Any -> gmap string string -> list ContextPointer -> artifact_answer));
  ae_OpenArtifacts : option reader_answer
}.
Definition NewAutomatedEvaluator : AutomatedEvaluator := mkAutomatedEvaluator (Some DefaultChecks) ∅ None.

Definition evaluateArtifacts (e : AutomatedEvaluator)
    (check : gmap string Any -> gmap string string -> list ContextPointer -> artifact_answer)
    (conf : AutomatedGate) (env : InvocationEnvelope) : result check_error string :=
  match ae_OpenArtifacts e with
  | None => Error ErrNoReader
  | Some ReaderInvalid => Ok OutcomeFail
  | Some ReaderFailed => Error ErrOpenReader
  | Some ReaderNil => Error ErrNilReader
  | Some (ReaderOpened closes) =>
      let answer :=
        match check (inv_Inputs env) (Api.Params conf) (inv_ContextPointers env) with
        | ArtifactOutcome outcome => Ok outcome
        | ArtifactInvalid => Ok OutcomeFail
        | ArtifactFailed => Error ErrArtifactCheck
        end in
      if closes then answer else Error ErrCloseReader
  end.

(** [AutomatedEvaluator.Evaluate]. *)
Definition run_check (e : AutomatedEvaluator) (conf : AutomatedGate) (env : InvocationEnvelope) (c : regex_cache)
    : result check_error string * regex_cache :=
  let checks := default DefaultChecks (ae_Checks e) in
  match ae_ArtifactChecks e !! Check conf, checks !! Check conf with
  | Some (Some check), None => (evaluateArtifacts e check conf env, c)
  | Some _, _ => (Error (ErrAmbiguousCheck (Check conf)), c)
  | None, None => (Error (ErrUnknownCheck (Check conf)), c)
  | None, Some check => check (inv_Inputs env) (Api.Params conf) c
  end.

(** The evaluator as the gate calls it: an error of a check is not one of the
    infrastructure. *)
Definition automated_seam (e : AutomatedEvaluator) (c : regex_cache) (conf : AutomatedGate) (env : InvocationEnvelope)
    : regex_cache * result call_error string :=
  let '(answer, c) := run_check e conf env c in
  (c, match answer with Ok o => Ok o | Error _ => Error (mkCallError "" false false false) end).

(** [EvaluateVerdict]. *)
Definition EvaluateVerdict (e : AutomatedEvaluator) (conf : AutomatedGate) (env : InvocationEnvelope) (c : regex_cache)
    : result check_error Verdict * regex_cache :=
  let '(answer, c) := run_check e conf env c in
  (match answer with
   | Error err => Error err
   | Ok outcome =>
       Ok (mkVerdict (if outcome =? OutcomePass then VerdictPass else VerdictFail) "" "" [] false
             ("automated check " +:+ Quote (Check conf) +:+ ": " +:+ outcome) false)
   end, c).
End checks.
