(* ===== verification/GateChecksProps.v ===== *)
(** * The checks answer what the compiler expects

    The outcomes of the registered checks, the composition with the compiler's
    gate rules, the failure class of a stage, and the cache of patterns. *)

From S2P Require Export GateChecks GateProps WorkflowProps.
Local Open Scope Z_scope.
Local Open Scope string_scope.
Local Open Scope list_scope.

(** ** The last entries of a list *)

Definition lastn {A} (n : nat) (l : list A) : list A := drop (length l - n) l.

Lemma lastn_split {A} n (l : list A) : exists older, l = older ++ lastn n l /\ (older = [] \/ length (lastn n l) = n).
Proof.
  exists (take (length l - n) l). unfold lastn. rewrite take_drop. split; [done|]. rewrite length_drop.
  destruct (decide (length l <= n)%nat); [left|right; lia]. by replace (length l - n)%nat with 0%nat by lia.
Qed.
Lemma lastn_app {A} n (l k : list A) : length k = n -> lastn n (l ++ k) = k.
Proof. intros <-. unfold lastn. rewrite length_app. replace (length l + length k - length k)%nat with (length l) by lia. apply drop_app_length. Qed.
Lemma lastn_all {A} n (l : list A) : (length l <= n)%nat -> lastn n l = l.
Proof. intros H. unfold lastn. by replace (length l - n)%nat with 0%nat by lia. Qed.
Lemma lastn_length {A} n (l : list A) : (length (lastn n l) <= n)%nat.
Proof. unfold lastn. rewrite length_drop. lia. Qed.

Lemma lastn_NoDup {A} n (l : list A) : NoDup l -> NoDup (lastn n l).
Proof. destruct (lastn_split n l) as (older & E & _). rewrite E at 1. by intros (_ & _ & ?)%NoDup_app. Qed.

Section cache.
Context {Rx : Regexp}.

Definition without (p : string) (l : list string) : list string := filter (fun q => q <> p) l.
(** The distinct patterns that compile, in the order of their last use. *)
Definition recent (used : list string) : list string :=
  fold_left (fun acc p => match Compile p with Some _ => without p acc ++ [p] | None => acc end) used [].
Definition lookups (used : list string) : regex_cache :=
  fold_left (fun c p => (getCompiledRegex p c).2) used empty_cache.

Lemma without_id p l : p ∉ l -> without p l = l.
Proof.
  intros Hp. unfold without. induction l as [|x l IH]; [done|]. rewrite not_elem_of_cons in Hp. destruct Hp as [Hx Hl].
  rewrite filter_cons_True by congruence. by rewrite IH.
Qed.
Lemma elem_of_without q p l : q ∈ without p l <-> q ∈ l /\ q <> p.
Proof. unfold without. rewrite list_elem_of_filter. tauto. Qed.
Lemma without_app p l k : without p (l ++ k) = without p l ++ without p k.
Proof. apply filter_app. Qed.
Lemma remove_first_without p l : NoDup l -> p ∈ l -> remove_first p l = Some (without p l) /\ S (length (without p l)) = length l.
Proof.
  induction l as [|x l IH]; [set_solver|]. rewrite NoDup_cons. intros [Hx Hl] Hp. cbn [remove_first]. unfold without.
  destruct (String.eqb_spec x p) as [->|Hne].
  - rewrite filter_cons_False by tauto. change (filter _ l) with (without p l). by rewrite without_id.
  - rewrite filter_cons_True by done. change (filter _ l) with (without p l).
    destruct IH as [-> IH]; [done|set_solver|]. cbn. by rewrite <- IH.
Qed.
Lemma NoDup_recent_step p l : NoDup l -> NoDup (without p l ++ [p]).
Proof.
  intros Hl. apply NoDup_app. split; [by apply NoDup_filter|]. split; [|apply NoDup_singleton].
  intros x Hx%elem_of_without. rewrite list_elem_of_singleton. tauto.
Qed.

Record cache_holds (c : regex_cache) (uses : list string) : Prop := {
  ch_order : rx_order c = lastn maxRegexCacheEntries uses;
  ch_nodup : NoDup uses;
  ch_valid : forall p, p ∈ uses -> is_Some (Compile p);
  ch_cache : forall p, rx_cache c !! p = if decide (p ∈ rx_order c) then Compile p else None
}.

Lemma holds_size c uses : cache_holds c uses -> size (rx_cache c) = length (rx_order c).
Proof.
  intros [Ho Hd Hv Hc].
  assert (NoDup (rx_order c)) as Hnd by (rewrite Ho; by apply lastn_NoDup).
  assert (dom (rx_cache c) = (list_to_set (rx_order c) : gset string)) as Hdom.
  { apply set_eq. intros p. rewrite elem_of_dom, elem_of_list_to_set, Hc. case_decide as Hp; [|by split; [intros []|]].
    split; [done|]. intros _. apply Hv. rewrite Ho in Hp. destruct (lastn_split maxRegexCacheEntries uses) as (older & -> & _).
    apply elem_of_app. by right. }
  by rewrite <- size_dom, Hdom, size_list_to_set.
Qed.

Lemma hit_order p uses :
  NoDup uses -> p ∈ lastn maxRegexCacheEntries uses ->
  without p (lastn maxRegexCacheEntries uses) ++ [p] = lastn maxRegexCacheEntries (without p uses ++ [p]).
Proof.
  intros Hd Hp. destruct (lastn_split maxRegexCacheEntries uses) as (older & E & Hor).
  set (recentest := lastn maxRegexCacheEntries uses) in *. rewrite E in Hd |- *.
  apply NoDup_app in Hd as (_ & Hdis & Hd). rewrite without_app, (without_id p older) by (intros Hin; by apply (Hdis p)).
  destruct (remove_first_without p recentest Hd Hp) as [_ Hlen].
  destruct Hor as [->|Hfull].
  - cbn [app]. symmetry. apply lastn_all. rewrite length_app. cbn. pose proof (lastn_length maxRegexCacheEntries uses).
    change (length recentest <= maxRegexCacheEntries)%nat in H. lia.
  - rewrite <- app_assoc. symmetry. apply lastn_app. rewrite length_app. cbn. lia.
Qed.

Lemma evict_none n c : (size (rx_cache c) <= maxRegexCacheEntries)%nat -> evict n c = c.
Proof. intros H. destruct n; cbn [evict]; by rewrite (proj2 (Nat.leb_le _ _) H). Qed.

Lemma getCompiledRegex_holds p c uses :
  cache_holds c uses ->
  (getCompiledRegex p c).1 = Compile p /\
  cache_holds (getCompiledRegex p c).2 (match Compile p with Some _ => without p uses ++ [p] | None => uses end).
Proof.
  intros HC. pose proof (holds_size _ _ HC) as Hsize. destruct HC as [Ho Hd Hv Hc]. unfold getCompiledRegex. rewrite Hc.
  destruct (decide (p ∈ rx_order c)) as [Hp|Hp].
  - assert (is_Some (Compile p)) as [re Hre].
    { apply Hv. rewrite Ho in Hp. destruct (lastn_split maxRegexCacheEntries uses) as (older & -> & _). apply elem_of_app. by right. }
    rewrite Hre. split; [done|]. assert (NoDup (rx_order c)) as Hnd by (rewrite Ho; by apply lastn_NoDup).
    destruct (remove_first_without p _ Hnd Hp) as [-> _]. cbn. split; cbn.
    + rewrite Ho. apply hit_order; [done|by rewrite <- Ho].
    + by apply NoDup_recent_step.
    + intros q [Hq%elem_of_without|Hq%list_elem_of_singleton]%elem_of_app; [by apply Hv, Hq|subst q; by eexists].
    + intros q. rewrite Hc. destruct (decide (q = p)) as [->|Hne].
      * rewrite !decide_True; [done|set_solver|done].
      * apply decide_ext. rewrite elem_of_app, elem_of_without, list_elem_of_singleton. naive_solver.
  - destruct (Compile p) as [re|] eqn:Hre; [|by split; [|split]]. cbn [fst snd].
    set (c1 := mkCache _ _). split; [done|].
    assert (rx_cache c !! p = None) as Hnone by (rewrite Hc; by rewrite decide_False).
    assert (size (<[p := re]> (rx_cache c)) = S (length (rx_order c))) as Hs1 by (rewrite map_size_insert_None by done; by rewrite Hsize).
    destruct (lastn_split maxRegexCacheEntries uses) as (older & E & Hor). rewrite <- Ho in E, Hor.
    assert (without p (rx_order c) = rx_order c) as Hwo by (by apply without_id).
    assert (forall q, q ∈ without p uses ++ [p] -> is_Some (Compile q)) as Hv'.
    { intros q [Hq%elem_of_without|Hq%list_elem_of_singleton]%elem_of_app; [by apply Hv, Hq|subst q; by eexists]. }
    destruct (decide (S (length (rx_order c)) <= maxRegexCacheEntries)%nat) as [Hle|Hgt].
    + rewrite evict_none by (cbn; lia). destruct Hor as [->|Hfull]; [|lia]. cbn [app] in E.
      split; [|by apply NoDup_recent_step|done|]; cbn.
      * rewrite E, Hwo. symmetry. apply lastn_all. rewrite length_app. cbn. lia.
      * intros q. destruct (decide (q = p)) as [->|Hne].
        -- rewrite lookup_insert_eq, decide_True by set_solver. done.
        -- rewrite lookup_insert_ne, Hc by done. apply decide_ext. rewrite elem_of_app, list_elem_of_singleton. naive_solver.
    + assert (length (rx_order c) = maxRegexCacheEntries) as Hfull.
      { pose proof (lastn_length maxRegexCacheEntries uses). rewrite Ho in Hgt |- *. lia. }
      destruct (rx_order c) as [|oldest order] eqn:Eo; [done|].
      assert (NoDup (oldest :: order)) as Hnd by (rewrite Ho; by apply lastn_NoDup).
      apply NoDup_cons in Hnd as [Hold Hnd]. rewrite not_elem_of_cons in Hp. destruct Hp as [Hpo Hp].
      subst c1. cbn [length app evict rx_order rx_cache]. rewrite (proj2 (Nat.leb_gt _ _)) by (rewrite Hs1; lia).
      cbn [rx_order rx_cache]. rewrite evict_none.
      2: { cbn. rewrite map_size_delete_Some; [rewrite Hs1; cbn in Hfull |- *; lia|].
           rewrite lookup_insert_ne by done. rewrite Hc, decide_True by set_solver. apply Hv. rewrite E. set_solver. }
      split; [|by apply NoDup_recent_step|done|]; cbn.
      * rewrite E, without_app, Hwo, <- app_assoc. cbn [app].
        change (oldest :: order ++ [p]) with ([oldest] ++ (order ++ [p])). rewrite app_assoc. symmetry.
        apply lastn_app. rewrite length_app. cbn in Hfull |- *. lia.
      * intros q. destruct (decide (q = oldest)) as [->|Hqo].
        { rewrite lookup_delete_eq, decide_False; [done|]. rewrite elem_of_app, list_elem_of_singleton. naive_solver. }
        rewrite lookup_delete_ne by done. destruct (decide (q = p)) as [->|Hne].
        -- rewrite lookup_insert_eq, decide_True by set_solver. done.
        -- rewrite lookup_insert_ne, Hc by done. apply decide_ext. rewrite elem_of_cons, elem_of_app, list_elem_of_singleton. naive_solver.
Qed.

Lemma lookups_hold used : cache_holds (lookups used) (recent used).
Proof.
  unfold lookups, recent.
  assert (forall c uses, cache_holds c uses -> cache_holds (fold_left (fun c p => (getCompiledRegex p c).2) used c)
    (fold_left (fun acc p => match Compile p with Some _ => without p acc ++ [p] | None => acc end) used uses)) as Hfold.
  { induction used as [|p used IH]; intros c uses Hc; [done|]. cbn [fold_left]. apply IH. by apply getCompiledRegex_holds. }
  apply Hfold. split; try done; [apply NoDup_nil_2|set_solver].
Qed.

(** The cache of compiled patterns is invisible and bounded: whatever patterns
    were used before, a lookup answers what compiling the pattern answers, and the
    cache holds exactly the compiled forms of the last 128 distinct patterns that
    compile, in the order of their last use. *)
Theorem regex_cache_is_transparent used p :
  (getCompiledRegex p (lookups used)).1 = Compile p /\
  rx_order (lookups used) = lastn maxRegexCacheEntries (recent used) /\
  (size (rx_cache (lookups used)) <= 128)%nat /\
  forall q, rx_cache (lookups used) !! q = if decide (q ∈ rx_order (lookups used)) then Compile q else None.
Proof.
  pose proof (lookups_hold used) as HC. split; [by eapply getCompiledRegex_holds|]. split; [apply HC|]. split; [|apply HC].
  rewrite (holds_size _ _ HC), (ch_order _ _ HC). apply lastn_length.
Qed.
End cache.

(** ** Outcomes of the registered checks *)

Section outcomes.
Context {Num : NumberText} {Rx : Regexp} {Lower : LowerCase} {Quo : Quoting}.

Lemma boolOutcome_builtin b : boolOutcome b ∈ automatedBuiltinOutcomes.
Proof. destruct b; cbn; set_solver. Qed.

(** The outcomes the compiler expects of a check. *)
Definition expected (name : string) : list string := default automatedBuiltinOutcomes (automatedCheckOutcomes !! name).

Definition answers_within (outcomes : list string) (check : CheckFunc) : Prop :=
  forall inputs params c o, (check inputs params c).1 = Ok o -> o ∈ outcomes.

Lemma numeric_within name cmp : answers_within automatedBuiltinOutcomes (numericOutputCheck name cmp).
Proof.
  intros inputs params c o. cbn. repeat case_match; try done; intros [= <-]; apply boolOutcome_builtin.
Qed.

Ltac within := intros inputs params c o; cbn; repeat case_match; try done; intros [= <-];
  first [apply boolOutcome_builtin | set_solver].

Lemma DefaultChecks_within name check : DefaultChecks !! name = Some check -> answers_within (expected name) check.
Proof.
  unfold DefaultChecks. rewrite !lookup_insert_Some, lookup_singleton_Some.
  intros Hl. repeat match goal with H : _ \/ _ |- _ => destruct H | H : _ /\ _ |- _ => destruct H end; subst; unfold expected.
  all: match goal with |- context [automatedCheckOutcomes !! ?n] => let v := eval vm_compute in (automatedCheckOutcomes !! n) in
         change (automatedCheckOutcomes !! n) with v; cbn [default from_option id] end.
  - within.
  - intros inputs params c o. cbn. repeat case_match; intros [= <-]; set_solver.
  - within.
  - apply numeric_within.
  - apply numeric_within.
  - apply numeric_within.
  - within.
  - intros inputs params c o. unfold output_matches. repeat case_match; cbn; try done; intros [= <-]; apply boolOutcome_builtin.
  - intros inputs params c o. cbn. unfold ciStatusOutcome, boolOutcome. repeat case_match; intros [= <-]; set_solver.
  - intros inputs params c o. cbn. case_match eqn:E; intros [= <-]; [|set_solver].
    apply orb_true_iff in E as [->%String.eqb_eq| ->%String.eqb_eq]; set_solver.
  - intros inputs params c o. cbn. case_match eqn:E; intros [= <-]; [|set_solver].
    apply orb_true_iff in E as [[->%String.eqb_eq| ->%String.eqb_eq]%orb_true_iff| ->%String.eqb_eq]; set_solver.
Qed.
End outcomes.

(** ** Accepted gates *)

Section accepted.
Context {V J : Type} `{GateJournal J} {Num : NumberText} {Rx : Regexp} {Lower : LowerCase} {Text : FindingText} {Quo : Quoting}.
Abbreviation W := (regex_cache * V)%type.

(** The registered checks as the runner wires them beside the rest of the world. *)
Definition wired_checks (w : W) (conf : AutomatedGate) (env : InvocationEnvelope) : W * result call_error string :=
  let '(c, answer) := automated_seam NewAutomatedEvaluator w.1 conf env in ((c, w.2), answer).

Lemma wired_checks_expected w conf env w' o : wired_checks w conf env = (w', Ok o) -> o ∈ expected (Check conf).
Proof.
  unfold wired_checks, automated_seam, run_check. cbn [NewAutomatedEvaluator ae_Checks ae_ArtifactChecks from_option].
  rewrite lookup_empty. unfold id. destruct (DefaultChecks !! Check conf) as [check|] eqn:E; [|done].
  pose proof (DefaultChecks_within _ _ E (inv_Inputs env) (Api.Params conf) w.1) as Hw.
  destruct (check (inv_Inputs env) (Api.Params conf) w.1) as [[o'|e] c]; [|done]. intros [= _ <-]. by apply Hw.
Qed.

(** The computation never fails for want of a branch. *)
Definition branch_safe {A} (m : M W J A) : Prop := forall s o s', m s <> (Error (ErrNoBranch o), s').

Lemma safe_ret {A} (a : A) : branch_safe (ret a).
Proof. done. Qed.
Lemma safe_bind {A B} (m : M W J A) (f : A -> M W J B) :
  branch_safe m -> (forall s a s', m s = (Ok a, s') -> branch_safe (f a)) -> branch_safe (bind m f).
Proof.
  intros Hm Hf s o s'. unfold bind. destruct (m s) as [[a|e] s1] eqn:E; [by eapply Hf|]. intros [= -> ->]. by eapply Hm.
Qed.
Lemma safe_call {A} (f : W -> W * A) : branch_safe (call f).
Proof. intros s o s'. unfold call. by destruct (f (gs_world s)) as [w a]. Qed.
Lemma safe_event e : branch_safe (journal_event e).
Proof. intros s o s'. unfold journal_event. destruct (gs_journal s) as [j|]; [|done]. destruct (j_Append j e) as [j' []]; discriminate. Qed.
Lemma safe_record r d : branch_safe (recordVerdict r d).
Proof.
  intros s o s'. unfold recordVerdict. destruct (gs_journal s) as [j|]; [|done]. cbn zeta.
  destruct (match _ with Some _ => _ | None => _ end) as [j1 [a|]]; [|discriminate]. destruct (j_Append j1 _) as [j2 []]; discriminate.
Qed.
Lemma safe_get : branch_safe get_eval.
Proof. done. Qed.

(** Steps of the computation, until what is left needs its own argument. *)
Ltac branch_safe :=
  repeat first
    [ done | apply safe_call | apply safe_event | apply safe_record
    | apply safe_bind; [|intros ? ? ? _]
    | match goal with |- branch_safe (match ?x with _ => _ end) => destruct x end
    | match goal with |- branch_safe (if ?x then _ else _) => destruct x end ].

Variable wire : Wiring W.

Lemma safe_resolve g o v d dup forced hit reason res :
  is_Some (BranchTarget g o) -> branch_safe (resolveOutcome wire g o v d dup forced hit reason res).
Proof.
  intros [t Ht]. unfold resolveOutcome. apply safe_bind.
  { intros s o' s'. by rewrite note_digest_run. }
  intros ? ? ? _. rewrite Ht. apply safe_bind; [|intros; destruct (BudgetEscalationVerdict _ _ _); branch_safe].
  unfold trackRepass. apply safe_bind; [done|]. intros ? ? ? _. by destruct (Charge _ _ _ _ _ _).
Qed.
Lemma safe_interrupted g d : branch_safe (RecoverInterrupted wire g d).
Proof. unfold RecoverInterrupted, setInterruptedVerdict, recovered_review. branch_safe. Qed.
Lemma safe_retry_automated name mx backoff f left : forall attempt,
  branch_safe (retry_automated wire name mx backoff attempt left f).
Proof. induction left as [|left IH]; intros attempt; cbn [retry_automated]; unfold recordEvaluatorRetry; branch_safe. Qed.
Lemma safe_retry_reviewer goober g mx backoff previous stage artifacts left : forall class attempt env,
  branch_safe (retry_reviewer wire goober g mx backoff previous class stage artifacts attempt left env).
Proof.
  induction left as [|left IH]; intros class attempt env; cbn [retry_reviewer];
    unfold recordReviewerStart, recordReviewerFinish, recordEvaluatorRetry, recordVerdictValidationRetry; branch_safe.
Qed.
Lemma safe_agentic g env stage artifacts d empty : branch_safe (answer_of_agentic wire g env stage artifacts d empty).
Proof.
  unfold answer_of_agentic, evaluateReviewerWithRetry. destruct (RetryBounds _). branch_safe. apply safe_retry_reviewer.
Qed.
Lemma safe_automated g env : branch_safe (answer_of_automated wire g env).
Proof.
  unfold answer_of_automated, evaluateWithRetry. destruct (RetryBounds _). branch_safe. apply safe_retry_automated.
Qed.

Lemma disproof_outcome g env j :
  jd_Outcome (apply_disproof wire g env j) = jd_Outcome j \/
  exists v, jd_Verdict j = Some v /\ jd_Outcome (apply_disproof wire g env j) ∈ [VerdictPass; vd_Decision v].
Proof.
  unfold apply_disproof. destruct (jd_Verdict j) as [v|]; [|by left]. destruct (jd_Outcome j =? VerdictNeedsChanges); [|by left].
  destruct (disproveReviewerFindings _ _ _ _) as [v' all] eqn:E. right. exists v. split; [done|]. cbn.
  apply disprove_decision in E as [->|[-> _]]; set_solver.
Qed.
Lemma reconcile_outcome g env d empty dup j :
  apply_reconcile wire g env d empty dup j = j \/
  exists v v', jd_Verdict j = Some v /\ jd_Verdict (apply_reconcile wire g env d empty dup j) = Some v' /\
    jd_Outcome (apply_reconcile wire g env d empty dup j) = vd_Decision v' /\ vd_Decision v' ∈ [VerdictPass; vd_Decision v].
Proof.
  unfold apply_reconcile. destruct (jd_Verdict j) as [v|]; [|by left]. destruct (negb dup && negb empty); [|by left].
  destruct (reconcileLearningFindings _ _ _ _ _) as [v' res] eqn:E. right. exists v, v'. cbn. split_and!; try done.
  apply reconcile_decision in E as [_ [->|[-> _]]]; set_solver.
Qed.

(** What the finding rules make of an answer. *)
Lemma judge_outcome g env d empty a :
  jd_Outcome (judge wire g env d empty a) = an_Outcome a \/
  exists v, an_Verdict a = Some v /\ jd_Outcome (judge wire g env d empty a) ∈ [VerdictPass; vd_Decision v].
Proof.
  unfold judge. rewrite arbitration_outcome. set (j := mkJudged _ _ _ _ _).
  destruct (reconcile_outcome g env d empty (an_Duplicate a) j) as [->|(v & v' & Hv & Hv' & Ho & Hd)].
  - destruct (disproof_outcome g env j) as [->|(v & Hv & Ho)]; [by left|]. right. by exists v.
  - right. exists v. split; [done|].
    destruct (disproof_outcome g env (apply_reconcile wire g env d empty (an_Duplicate a) j)) as [->|(w & Hw & Hwo)]; [by rewrite Ho|].
    rewrite Hv' in Hw. injection Hw as <-. rewrite !elem_of_cons in Hwo. destruct Hwo as [->|[->|[]%not_elem_of_nil]]; [by left|done].
Qed.

(** A reviewer keeps to the vocabulary of the gate; a cached verdict names one of
    its branches. *)
Definition keeps_vocabulary (g : Gate) : Prop := forall goober w env w' v,
  wi_Reviewer wire = Some goober -> goober w env = (w', Ok v) ->
  vd_Decision v ∈ agenticOutcomes \/ vd_Decision v = VerdictDefer /\ is_Some (BranchTarget g VerdictDefer).
Definition cached_has_branch (g : Gate) : Prop := forall v,
  wi_CachedVerdict wire = Some v -> is_Some (BranchTarget g (vd_Decision v)).

Definition covered (g : Gate) : Prop := forall o, o ∈ default [] (producible g) -> is_Some (BranchTarget g o).

Lemma mechanical_branch g v reason :
  is_Some (BranchTarget g (vd_Decision v)) ->
  is_Some (BranchTarget g (vd_Decision (MechanicalVerdict v reason (StructuredMechanicalEscalation g)))).
Proof.
  unfold MechanicalVerdict, StructuredMechanicalEscalation. destruct (_ && _) eqn:E; [|done].
  apply andb_true_iff in E as [_ E%bool_decide_eq_true]. done.
Qed.

Lemma agentic_branch g env stage artifacts d empty s a s' :
  Evaluator g = EvaluatorAgentic -> covered g -> keeps_vocabulary g -> cached_has_branch g ->
  answer_of_agentic wire g env stage artifacts d empty s = (Ok a, s') ->
  exists v, an_Verdict a = Some v /\ an_Outcome a = vd_Decision v /\ is_Some (BranchTarget g (vd_Decision v)).
Proof.
  intros Hk Hc Hr Hcv HA.
  assert (forall o, o ∈ agenticOutcomes -> is_Some (BranchTarget g o)) as Hb.
  { intros o Ho. apply Hc. unfold producible. rewrite Hk. cbn. case_bool_decide; [change (o ∈ agenticOutcomes ++ ["defer"]); apply elem_of_app; by left|done]. }
  unfold answer_of_agentic in HA. apply bind_ok in HA as (e & s1 & [= <- <-] & HA).
  destruct (wi_CachedVerdict wire) as [v|] eqn:Ev.
  { injection HA as <- _. exists v. cbn. split_and!; [done|done|]. by apply Hcv. }
  destruct empty.
  { injection HA as <- _. eexists. cbn. split_and!; [done|done|]. apply mechanical_branch, Hb. set_solver. }
  destruct (_ && _).
  { injection HA as <- _. eexists. cbn. split_and!; [done|done|]. apply mechanical_branch, Hb. set_solver. }
  destruct (wi_Reviewer wire) as [goober|] eqn:Er; [|done]. apply bind_ok in HA as ([v i] & s2 & HR & [= <- _]).
  exists v. cbn. split_and!; [done|done|]. unfold evaluateReviewerWithRetry in HR.
  destruct (RetryBounds _). apply bind_ok in HR as (previous & s3 & _ & HR).
  apply retry_reviewer_ok in HR as (w & env' & w' & Hf).
  destruct (Hr goober w env' w' v Er Hf) as [?|[-> ?]]; auto.
Qed.

(** C7: A gate the compiler accepted never fails for want of a branch.  With the
    registered checks, a reviewer that keeps to the gate's vocabulary and a cached
    verdict, if there is one, that names a declared branch, whatever the stage
    produced and whatever the finding rules, the empty-diff and unchanged-diff
    rules make of the verdict, the outcome has a declared branch. *)
Theorem accepted_gates_never_stick def known g env stage artifacts d empty (s : gate_state W J) o s' :
  gateOutcomeProblems def known = [] -> g ∈ Gates_ (Spec def) ->
  wi_Automated wire = Some wired_checks -> keeps_vocabulary g -> cached_has_branch g ->
  Evaluate wire g env stage artifacts d empty s <> (Error (ErrNoBranch o), s').
Proof.
  intros Hp Hg Hw Hr Hcv. revert s o s'. change (branch_safe (Evaluate wire g env stage artifacts d empty)).
  assert (covered g) as Hc.
  { intros o Ho. destruct (producible g) as [outcomes|] eqn:Ep; cbn in Ho; [|by apply not_elem_of_nil in Ho].
    destruct (proj1 (accepted_gates_cover_outcomes _ _ _ _ Hp Hg Ep) o Ho) as [t Ht]. by exists t. }
  unfold Evaluate. apply safe_bind; [apply safe_interrupted|intros _ [r|] _ _; [done|]].
  destruct (configured wire g) as [e|] eqn:Ec; [intros s o s'; unfold configured in Ec; unfold fail; repeat case_match; simplify_eq; discriminate|].
  apply safe_bind; [done|intros _ e _ _]. apply safe_bind; [apply safe_event|intros _ [] _ _].
  destruct (Evaluator g) eqn:Ek; try by (unfold configured in Ec; rewrite Ek in Ec).
  - apply safe_bind; [apply safe_automated|intros s a s' HA].
    assert (an_Verdict a = None /\ is_Some (BranchTarget g (an_Outcome a))) as [Hv Hb].
    { unfold answer_of_automated in HA. rewrite Hw in HA. apply bind_ok in HA as (out & s1 & HA & [= <- _]). cbn.
      split; [done|]. unfold evaluateWithRetry in HA. destruct (RetryBounds _). apply retry_automated_ok in HA as (w & w' & Hf).
      apply wired_checks_expected in Hf. apply Hc. unfold producible. rewrite Ek. cbn. by destruct (Automated g). }
    destruct (an_Invalid a); apply safe_resolve; [done|].
    destruct (judge_outcome g env d empty a) as [->|(v & Hv' & _)]; [done|congruence].
  - apply safe_bind; [apply safe_agentic|intros s a s' HA].
    destruct (agentic_branch _ _ _ _ _ _ _ _ _ Ek Hc Hr Hcv HA) as (v & Hv & Ho & Hb).
    destruct (an_Invalid a); apply safe_resolve; [by rewrite Ho|].
    destruct (judge_outcome g env d empty a) as [->|(v' & Hv' & Hj)]; [by rewrite Ho|].
    rewrite Hv in Hv'. injection Hv' as <-. rewrite elem_of_cons, list_elem_of_singleton in Hj. destruct Hj as [->| ->]; [|done].
    apply Hc. unfold producible. rewrite Ek. cbn. case_bool_decide; set_solver.
Qed.
End accepted.

(** ** What a stage can say about itself *)

Section forged.
Context {Num : NumberText} {Rx : Regexp} {Lower : LowerCase} {Quo : Quoting}.

Lemma inputs_reserved subject :
  let i := (AutomatedInputs subject).1 in
  i !! InputKeyStatus = Some (AnyString (re_Status subject)) /\
  i !! InputKeyErrorCode = Some (AnyString (match re_Error subject with Some e => ei_Code e | None => "" end)) /\
  i !! InputKeyErrorMessage = Some (AnyString (match re_Error subject with Some e => ei_Message e | None => "" end)) /\
  i !! InputKeyErrorRetryable = Some (AnyBool (match re_Error subject with Some e => ei_Retryable e | None => false end)).
Proof.
  unfold AutomatedInputs. destruct (re_Error subject) as [e|]; cbn;
    repeat split; repeat first [by rewrite lookup_insert_eq | rewrite lookup_insert_ne by discriminate].
Qed.

(** A stage's failure as the failure-class check judges it. *)
Definition infrastructure_failure (e : ErrorInfo) : bool :=
  ei_Retryable e
  || isRecognizedInfrastructureFailure {[ InputKeyErrorCode := AnyString (ei_Code e); InputKeyErrorMessage := AnyString (ei_Message e) ]}.

Lemma recognized_inputs i i' :
  i !! InputKeyErrorCode = i' !! InputKeyErrorCode -> i !! InputKeyErrorMessage = i' !! InputKeyErrorMessage ->
  isRecognizedInfrastructureFailure i = isRecognizedInfrastructureFailure i'.
Proof. intros Hc Hm. unfold isRecognizedInfrastructureFailure, stringField. by rewrite Hc, Hm. Qed.

(** A stage cannot forge the classification of its result through its outputs:
    the inputs of a gate carry the envelope's status and error under the reserved
    keys whatever the outputs hold, a collision is reported exactly when there is
    one, and the failure-class check passes exactly on success, calls a failure
    infrastructure exactly when it is not a base conflict and is retryable or of a
    recognized class, and otherwise fails. *)
Theorem failure_class_is_exact subject inputs collisions params c :
  AutomatedInputs subject = (inputs, collisions) ->
  (forall k, k ∈ collisions <-> k ∈ reserved_keys /\ is_Some (re_Outputs subject !! k)) /\
  (failureClassCheck inputs params c).1 = Ok
    (let e := default (mkErrorInfo "" "" false) (re_Error subject) in
     if re_Status subject =? ResultSuccess then OutcomePass
     else if (re_Status subject =? ResultFailure) && negb (ei_Code e =? "base_sync_conflict") && infrastructure_failure e
     then OutcomeInfra else OutcomeFail).
Proof.
  intros HA. split.
  - intros k. unfold AutomatedInputs in HA. destruct (match re_Error subject with Some _ => _ | None => _ end) as [[? ?] ?].
    assert (collisions = List.filter (fun k => bool_decide (is_Some (re_Outputs subject !! k))) reserved_keys) as -> by congruence.
    by rewrite !list_elem_of_In, filter_In, bool_decide_eq_true.
  - pose proof (inputs_reserved subject) as (Hs & Hc & Hm & Hr). rewrite HA in Hs, Hc, Hm, Hr. cbn in Hs, Hc, Hm, Hr.
    set (e := default _ _). cbn. unfold stringField. rewrite Hs, Hc, Hr.
    assert (isRecognizedInfrastructureFailure inputs =
      isRecognizedInfrastructureFailure {[ InputKeyErrorCode := AnyString (ei_Code e); InputKeyErrorMessage := AnyString (ei_Message e) ]}) as ->.
    { apply recognized_inputs; [rewrite Hc, lookup_insert_eq|rewrite Hm, lookup_insert_ne, lookup_singleton_eq by discriminate];
        subst e; by destruct (re_Error subject). }
    unfold infrastructure_failure. subst e. destruct (re_Error subject) as [e|]; cbn;
      destruct (re_Status subject =? ResultSuccess); try done; destruct (re_Status subject =? ResultFailure); try done; cbn.
    + by destruct (ei_Code e =? "base_sync_conflict"); cbn; [|destruct (_ || _)].
Qed.
End forged.
