(* ===== verification/GateExample.v ===== *)
(** * Gates on concrete runs

    The interfaces of the gate evaluator instantiated (a journal that is a list of
    events, checks that answer from a script), the witnesses of the theorems on
    gates, and the runs in which a restart does not continue what was. *)

From S2P Require Export GateResumeProps GateProps GateChecksProps.
Local Open Scope Z_scope.
Local Open Scope string_scope.
Local Open Scope list_scope.

#[local] Instance ascii_lower : LowerCase := fun s => s.
#[local] Instance no_text : FindingText := {| Sum256Hex s := s; json_Valid _ := true; unmarshal_episode _ := None |}.
#[local] Instance plain_quote : Quoting := fun s => s.

(** A journal that is the list of its events. *)
#[export] Instance list_journal : GateJournal (list Event) := {|
  j_Append j e := (j ++ [e], true);
  j_RecordArtifact j name v := (j ++ [zero_event EventArtifactRecorded], Some (mkArtifact name "" ""))
|}.
#[export] Instance list_journal_laws : GateJournalLaws (list Event).
Proof.
  refine {| j_events j := j |}.
  - intros j e j' [= <-]. by exists e.
  - intros j name v j' a [= <- _]. exists [zero_event EventArtifactRecorded]. split; [done|]. by repeat constructor.
Defined.

(** Checks that answer from a script. *)
Definition scripted (w : list string) : list string * result call_error string :=
  match w with o :: w' => (w', Ok o) | [] => ([], Ok OutcomePass) end.
Definition visited (t : string) : bool := mem_string t ["implement"; "poll"].
Definition wired : Wiring (list string) :=
  mkWiring (Some (fun w _ _ => scripted w)) None (fun w _ => (w, false)) None None None 1 (Some visited) None None None.

Definition ci : Gate :=
  mkGate "ci" EvaluatorAutomated (Some (mkAutomated "ci-status" ∅ None 0 0 0)) None None
    {[ "pass" := "merge"; "fail" := "implement"; "timeout" := "poll"; "escalate" := "@escalate" ]} 1 None.
Definition approval : Gate :=
  mkGate "approval" EvaluatorHuman None None (Some (mkHuman ["ana"])) {[ "approve" := "merge" ]} 0 None.
Definition ci_gates : gmap string Gate := {[ "ci" := ci; "approval" := approval ]}.
Definition no_env : InvocationEnvelope := mkInvocation ∅ [] "" 0 false false.

Definition check_ci : M (list string) (list Event) GateResult := Evaluate wired ci no_env "implement" [] "" false.
Definition at_start (script : list string) : gate_state (list string) (list Event) := mkState new_evaluator script (Some []).

(** The first fail is a repass; the check then polls. *)
Definition polled : gate_state (list string) (list Event) := (check_ci (check_ci (at_start ["fail"; "timeout"])).2).2.

Definition answered (x : result gate_error GateResult * gate_state (list string) (list Event)) : GateResult :=
  match x.1 with Ok r => r | Error _ => gateResultFromEvent (zero_event EventError) end.
(** Where the gate routed, and whether it escalated as interrupted. *)
Definition routed (x : result gate_error GateResult * gate_state (list string) (list Event)) : option (string * bool * bool) :=
  match x.1 with Ok r => Some (gr_Target r, gr_Escalated r, gr_Interrupted r) | Error _ => None end.
(** The process killed and started again. *)
Definition restarted (s : gate_state (list string) (list Event)) : gate_state (list string) (list Event) :=
  mkState (seedGateBudgets ci_gates None (fst (currentRunSegment (default [] (gs_journal s))))) (gs_world s) (gs_journal s).

(** ** A restart that restores *)

Definition approved : gate_state (list string) (list Event) :=
  (EvaluateHuman (W := list string) (J := list Event) approval "approve" "ana" polled).2.
Definition run_again : gate_state (list string) (list Event) := restarted approved.

Lemma ci_names : real_names ci_gates.
Proof. intros consumer. unfold ci_gates. by rewrite !lookup_insert_ne. Qed.
Lemma ci_checks n g : ci_gates !! n = Some g -> Evaluator g <> EvaluatorAutomated -> verdict_gate g.
Proof.
  unfold ci_gates. rewrite lookup_insert_Some. intros [[<- <-]|[_ [<- <-]%lookup_singleton_Some]]; [done|].
  by intros _; split; vm_compute.
Qed.
Lemma wired_bound : bound_by_runner wired.
Proof. by exists visited. Qed.

Lemma resume_restores_budgets_witness :
  exists j : list Event, gs_journal run_again = Some j /\ rerun_requested (j_events j) = false /\
    restores ci_gates (seedGateBudgets ci_gates None (fst (currentRunSegment (j_events j)))) (gs_eval run_again) (owed (drop 5 (j_events j))).
Proof.
  apply (resume_restores_budgets ci_gates ["fail"; "timeout"] [] (mkProcess run_again 5)).
  - exact ci_names.
  - exact ci_checks.
  - constructor.
  - eapply rtc_l; [|eapply rtc_l; [|eapply rtc_l; [|eapply rtc_l; [|apply rtc_refl]]]].
    + apply (turn_evaluate ci_gates wired ci no_env "implement" [] "" false (at_start ["fail"; "timeout"])
        (answered (check_ci (at_start ["fail"; "timeout"]))) (check_ci (at_start ["fail"; "timeout"])).2);
        [done|exact wired_bound|by vm_compute|by vm_compute].
    + apply (turn_evaluate ci_gates wired ci no_env "implement" [] "" false (check_ci (at_start ["fail"; "timeout"])).2
        (answered (check_ci (check_ci (at_start ["fail"; "timeout"])).2)) polled);
        [done|exact wired_bound|by vm_compute|by vm_compute].
    + apply (turn_human ci_gates approval "approve" "ana" polled
        (answered (EvaluateHuman (W := list string) (J := list Event) approval "approve" "ana" polled)) approved); [done|by vm_compute].
    + exact (turn_restart ci_gates (gs_eval approved) (gs_world approved) (gs_world approved)
        (default [] (gs_journal approved)) 0 eq_refl).
Defined.

(** ** Restarts that do not *)

(** The run up to the first fail, and the poll after it. *)
Lemma restart_charges_a_poll_witness :
  exists j : list Event, gs_journal polled = Some j /\
    counter (Attempts (ge_Budget (gs_eval polled))) "ci"
      = counter (Attempts (ge_Budget (gs_eval (check_ci (at_start ["fail"; "timeout"])).2))) "ci" /\
    counter (Attempts (ge_Budget (seedGateBudgets ci_gates None (fst (currentRunSegment (j_events j)))))) "ci"
      = counter (Attempts (ge_Budget (gs_eval polled))) "ci" + 1.
Proof.
  apply (restart_charges_a_poll ci_gates ["fail"; "timeout"] [] (mkProcess (check_ci (at_start ["fail"; "timeout"])).2 0)
           wired ci no_env "implement" [] "" false (answered (check_ci (check_ci (at_start ["fail"; "timeout"])).2)) polled).
  - exact ci_names.
  - exact ci_checks.
  - constructor.
  - apply rtc_once. apply (turn_evaluate ci_gates wired ci no_env "implement" [] "" false (at_start ["fail"; "timeout"])
        (answered (check_ci (at_start ["fail"; "timeout"]))) (check_ci (at_start ["fail"; "timeout"])).2);
        [done|exact wired_bound|by vm_compute|by vm_compute].
  - done.
  - exact wired_bound.
  - by vm_compute.
  - by vm_compute.
  - by vm_compute.
Defined.

(** With one repass allowed and taken, the uninterrupted run checks again and goes
    on to merge, and the restarted one escalates without a check. *)
Example charged_poll_escalates :
  routed (check_ci polled) = Some ("merge", false, false) /\
  routed (check_ci (restarted polled)) = Some ("@escalate", true, true).
Proof. by vm_compute. Qed.

(** Two gates that send infrastructure failures to one stage. *)
Definition infra_gate (name : string) : Gate :=
  mkGate name EvaluatorAutomated (Some (mkAutomated name ∅ None 0 0 0)) None None
    {[ "pass" := "merge"; "infra" := "implement"; "escalate" := "@escalate" ]} 1 None.
Definition check_infra (name : string) : M (list string) (list Event) GateResult :=
  Evaluate wired (infra_gate name) no_env "implement" [] "" false.
Definition two_gates : gate_state (list string) (list Event) :=
  (check_infra "lint" (check_infra "build" (check_infra "build" (at_start ["infra"; "infra"; "pass"])).2).2).2.

(** When two gates send infrastructure failures to the same stage, a restart
    does not continue their budget: the pass of a gate that has not itself failed
    clears the live counter of the shared stage, and not the restored one. *)
Theorem restart_keeps_a_cleared_budget :
  counter (InfrastructureRepassAttempts (ge_Budget (gs_eval two_gates))) "implement" = 0 /\
  counter (InfrastructureRepassAttempts (ge_Budget (gs_eval (restarted two_gates)))) "implement" = 2.
Proof. by vm_compute. Qed.

(** A gate that sends its failures to two stages. *)
Definition split_gate : Gate :=
  mkGate "triage" EvaluatorAutomated (Some (mkAutomated "triage" ∅ None 0 0 0)) None None
    {[ "pass" := "merge"; "fail" := "implement"; "conflict" := "poll"; "escalate" := "@escalate" ]} 1 None.
Definition check_split : M (list string) (list Event) GateResult :=
  Evaluate wired split_gate no_env "implement" [] "" false.
Definition split_twice : gate_state (list string) (list Event) :=
  (check_split (check_split (at_start ["fail"; "conflict"; "pass"])).2).2.

(** A gate is escalated as interrupted though no evaluation was: a gate that
    sends its failures to two stages counts them together, so that with one repass
    of each, both within their limit, the next evaluation is not run and its pass
    is lost. *)
Theorem escalated_without_interruption :
  counter (RepassAttempts (ge_Budget (gs_eval split_twice))) "implement" = 1 /\
  counter (RepassAttempts (ge_Budget (gs_eval split_twice))) "poll" = 1 /\
  maxRepasses wired split_gate = 1 /\
  routed (check_split split_twice) = Some ("@escalate", true, true).
Proof. by vm_compute. Qed.

(** ** A review whose only finding the patch disproves *)

Definition nl : string := String "010" "".
Definition reviewed_patch : string := "+++ b/a.go" +:+ nl +:+ "@@ -1 +1 @@" +:+ nl +:+ "+x := `{}`".
Definition json_finding : Finding := mkFinding "" "" "" "" "high" "invalid json: bad escape" "a.go:1" "substantive".
Definition json_verdict : Verdict := mkVerdict VerdictNeedsChanges "" "the literal does not parse" [json_finding] false "" false.
Definition review_env : InvocationEnvelope :=
  mkInvocation ∅ [mkPointer "review.diff" (Some (mkArtifact "d" "sha" "text/x-diff"))] "" 0 false false.
Definition reviewing : Wiring nat :=
  mkWiring None (Some (fun w _ => (S w, Ok json_verdict))) (fun w _ => (w, false)) (Some (fun _ => Some reviewed_patch))
    None None 1 (Some visited) None None None.
Definition review : Gate :=
  mkGate "review" EvaluatorAgentic None (Some (mkAgentic "reviewer" (Some (mkRetry 3 0)) WorkspaceUnset 0)) None
    {[ "pass" := "merge"; "needs-changes" := "implement"; "fail" := "@abort" ]} 1 None.
Definition run_review : result gate_error GateResult * gate_state nat (list Event) :=
  Evaluate reviewing review review_env "implement" [] "sha256:1" false (mkState new_evaluator 0%nat (Some [])).
Definition review_result : GateResult :=
  match run_review.1 with Ok r => r | Error _ => gateResultFromEvent (zero_event EventError) end.

Lemma pass_is_earned_witness :
  gr_Outcome review_result = VerdictPass /\ gr_Target review_result = "merge" /\
  routes review review_result /\
  exists v, verdict_given reviewing v /\ (vd_Decision v = VerdictPass \/ all_refuted reviewing review review_env "sha256:1" v).
Proof.
  assert (run_review = (Ok review_result, run_review.2)) as Hrun by (by vm_compute).
  destruct (pass_is_earned reviewing review review_env "implement" [] "sha256:1" false _ _ _ Hrun) as [Hr Hp].
  split; [by vm_compute|]. split; [by vm_compute|]. split; [exact Hr|].
  destruct (Hp ltac:(by vm_compute)) as [[Hk _]|[_ Hv]]; [discriminate Hk|exact Hv].
Defined.

Lemma evaluator_calls_are_bounded_witness :
  (gs_world run_review.2 <= 0 + 3)%nat.
Proof.
  apply (evaluator_calls_are_bounded reviewing (fun n => n) review review_env "implement" [] "sha256:1" false
           (mkState new_evaluator 0%nat (Some []))).
  - intros check w c e Hc. discriminate Hc.
  - intros goober w e [= <-]. cbn. lia.
  - intros w t. cbn. lia.
Defined.

(** ** The registered checks on concrete gates

    A definition with an automated gate per kind of vocabulary and a reviewer that
    never answers the same way twice; a failed stage that claims to have
    succeeded; and what [EvaluateVerdict] makes of a landed change. *)

Module ChecksExample.

#[local] Instance id_lower : LowerCase := fun s => s.
#[local] Instance no_text : FindingText := {| Sum256Hex s := s; json_Valid _ := true; unmarshal_episode _ := None |}.
#[local] Instance plain_quote : Quoting := fun s => s.
#[local] Instance whole_numbers : NumberText :=
  {| Float := Z; ParseFloat _ := None; float_of_int z := z; Float64frombits z := z; float_le := Z.leb; float_lt := Z.ltb; Sprint _ := "" |}.
(** Patterns that match what they are. *)
#[local] Instance literal : Regexp := fun p => if p =? "(" then None else Some (String.eqb p).

Definition gate (name : string) (ev : EvaluatorKind) (check : string) (branches : gmap string string) : Gate :=
  mkGate name ev (Some (mkAutomated check ∅ None 0 0 0)) (Some (mkAgentic "reviewer" None WorkspaceUnset 0)) None branches 1 None.
Definition ci : Gate :=
  gate "ci" EvaluatorAutomated "ci-status" {[ "pass" := "land"; "fail" := "implement"; "timeout" := "@escalate" ]}.
Definition land : Gate :=
  gate "land" EvaluatorAutomated "land-outcome" {[ "merged" := "@complete"; "enqueued" := "@complete"; "fail" := "@abort" ]}.
Definition look : Gate :=
  gate "look" EvaluatorAgentic "" {[ "pass" := "ci"; "fail" := "@abort"; "needs-changes" := "implement" ]}.
Definition landing : Definition_ :=
  mkDefinition "landing" 1 "3.0"
    (mkSpec "implement" None
       [mkTask "implement" TaskAgentic "goober" false None ∅ "" [] 0 "" [] ∅ WorkspaceUnset "look" None [] false None false [] None] [look; ci; land] [] [] false).

(** A reviewer that asks for changes twice and then passes. *)
Definition reviewer (w : regex_cache * nat) (_ : InvocationEnvelope) : (regex_cache * nat) * result call_error Verdict :=
  ((w.1, S w.2), Ok (mkVerdict (if (w.2 <? 2)%nat then VerdictNeedsChanges else VerdictPass) "" "" [] false "" false)).
Definition wired_gates : Wiring (regex_cache * nat) :=
  mkWiring (Some wired_checks) (Some reviewer) (fun w _ => (w, false)) None None None 1 (Some (String.eqb "implement")) None None None.

Lemma reviewer_vocabulary g : keeps_vocabulary wired_gates g.
Proof.
  intros goober w env w' v [= <-] [= _ <-]. left. cbn [vd_Decision].
  destruct (w.2 <? 2)%nat; [right; right; left|left].
Qed.

Definition queued : InvocationEnvelope := mkInvocation {[ "landOutcome" := AnyString "queued" ]} [] "" 0 false false.
Definition start : gate_state (regex_cache * nat) (list Event) := mkState new_evaluator (empty_cache, 0%nat) (Some []).

(** A landing stage reports a state no branch names; the gate still has a branch. *)
Lemma accepted_gates_never_stick_witness :
  (exists r s, Evaluate wired_gates land queued "implement" [] "" false start = (Ok r, s) /\ gr_Target r = "@abort") /\
  Evaluate wired_gates land queued "implement" [] "" false start
    <> (Error (ErrNoBranch "queued"), start).
Proof.
  split; [eexists _, _; split; [by vm_compute|done]|].
  apply (accepted_gates_never_stick wired_gates landing None land queued "implement" [] "" false start "queued" start).
  - vm_compute. reflexivity.
  - right. right. left.
  - reflexivity.
  - apply reviewer_vocabulary.
  - discriminate.
Defined.

(** A failed stage whose outputs claim success and that the failure is final. *)
Definition forged : ResultEnvelope :=
  mkEnvelope ResultFailure {[ InputKeyStatus := AnyString "success"; InputKeyErrorRetryable := AnyBool false ]}
    (Some (mkErrorInfo "nonzero_exit" "go: downloading x: connection refused" false)).

Lemma failure_class_is_exact_witness :
  (AutomatedInputs forged).2 = [InputKeyStatus; InputKeyErrorRetryable] /\
  (failureClassCheck (AutomatedInputs forged).1 ∅ empty_cache).1 = Ok OutcomeInfra.
Proof.
  split; [by vm_compute|].
  destruct (failure_class_is_exact forged (AutomatedInputs forged).1 (AutomatedInputs forged).2 ∅ empty_cache
              ltac:(by destruct (AutomatedInputs forged))) as [_ ->].
  by vm_compute.
Defined.

(** A change that landed is a failed verdict: [EvaluateVerdict] knows one outcome
    that passes, and the landing check never gives it. *)
Lemma landed_reads_as_fail params c :
  match (EvaluateVerdict NewAutomatedEvaluator (mkAutomated "land-outcome" params None 0 0 0)
           (mkInvocation {[ "landOutcome" := AnyString OutcomeMerged ]} [] "" 0 false false) c).1 with
  | Ok v => vd_Decision v = VerdictFail
  | Error _ => False
  end.
Proof. by vm_compute. Qed.

End ChecksExample.
