(* ===== verification/FindingLedger.v ===== *)
(** * The ledger of review findings: [internal/findingledger]

    Which findings of a merge review still stand on the head of a pull request,
    when several verdicts exist for it.  [Outstanding] replays the records of a
    head; [Fold] makes a verdict carry the ledger of the earlier ones; [Commit]
    stamps the instances a verdict raises and folds it.  The digest of a finding's
    content is the class [ContentDigest]. *)

From S2P Require Export GoText.
Local Open Scope string_scope.
Local Open Scope list_scope.

(** ** Data *)

Definition VerdictPass : string := "pass".
Definition VerdictNeedsChanges : string := "needs-changes".
Definition VerdictEscalate : string := "escalate".
Definition FindingResolved : string := "resolved".
Definition FindingRejected : string := "rejected".

Record Finding := mkFinding {
  f_ID : string;
  f_LedgerGeneration : N;
  f_LearningSignature : string;
  f_LearningClassification : string;
  f_EvidenceDigest : string;
  f_Severity : string;
  f_Message : string;
  f_Location : string;
  f_Class : string;
  f_BlockingPRs : option (list Z)
}.
#[export] Instance Finding_eq_dec : EqDecision Finding.
Proof. solve_decision. Defined.

Record FindingDisposition := mkDisposition {
  d_FindingID : string;
  d_FindingGeneration : N;
  d_Outcome : string;
  d_Evidence : string;
  d_Reason : string
}.
#[export] Instance FindingDisposition_eq_dec : EqDecision FindingDisposition.
Proof. solve_decision. Defined.

(** The fields of [Verdict] that a publication reads or writes. *)
Record Verdict := mkVerdict {
  Decision : string;
  ReasonCode : string;
  Rationale : string;
  Findings : list Finding;
  Synthesized : bool;
  HeadSHA : string;
  BaseSHA : string;
  Elected : bool;
  Dispositions : list FindingDisposition;
  LedgerGeneration : N;
  StandingFindings : list Finding
}.
Definition zero_verdict : Verdict := mkVerdict "" "" "" [] false "" "" false [] 0 [].

Definition set_id (id : string) (f : Finding) : Finding :=
  mkFinding id (f_LedgerGeneration f) (f_LearningSignature f) (f_LearningClassification f) (f_EvidenceDigest f)
    (f_Severity f) (f_Message f) (f_Location f) (f_Class f) (f_BlockingPRs f).
Definition set_generation (g : N) (f : Finding) : Finding :=
  mkFinding (f_ID f) g (f_LearningSignature f) (f_LearningClassification f) (f_EvidenceDigest f)
    (f_Severity f) (f_Message f) (f_Location f) (f_Class f) (f_BlockingPRs f).
Definition set_target (id : string) (d : FindingDisposition) : FindingDisposition :=
  mkDisposition id (d_FindingGeneration d) (d_Outcome d) (d_Evidence d) (d_Reason d).

(** [FindingDisposition.Answers]. *)
Definition Answers (d : FindingDisposition) : bool :=
  if TrimSpace (d_FindingID d) =? "" then false
  else if d_Outcome d =? FindingResolved then negb (TrimSpace (d_Evidence d) =? "")
  else if d_Outcome d =? FindingRejected then negb (TrimSpace (d_Reason d) =? "")
  else false.

(** The digest of severity, class, message and location; hexadecimal, so that an
    identity made of it has no white space around it. *)
Class ContentDigest := {
  content_digest : string -> string -> string -> string -> string;
  content_id_trimmed sev class message location :
    TrimSpace ("finding:content:" +:+ content_digest sev class message location)
    = "finding:content:" +:+ content_digest sev class message location
}.

(** [None] is nil, a policy that allows every finding. *)
Definition Substantive : Type := option (Finding -> bool).
Definition allows (substantive : Substantive) (f : Finding) : bool :=
  match substantive with None => true | Some p => p f end.

Section ledger.
Context {Digest : ContentDigest}.
Variable substantive : Substantive.

Definition FindingID (f : Finding) : string :=
  let id := TrimSpace (f_ID f) in
  if negb (id =? "") then id
  else "finding:content:" +:+ content_digest (f_Severity f) (f_Class f) (TrimSpace (f_Message f)) (TrimSpace (f_Location f)).

(** ** The replay *)

Record ledger := mkLedger { order : list string; open : gmap string Finding }.
Definition empty_ledger : ledger := mkLedger [] ∅.

(** One disposition of a record. *)
Definition answer (l : ledger) (d : FindingDisposition) : ledger :=
  match open l !! TrimSpace (d_FindingID d) with
  | Some f => if Answers d && (d_FindingGeneration d =? f_LedgerGeneration f)%N
              then mkLedger (order l) (delete (f_ID f) (open l)) else l
  | None => l
  end.

Definition raise_one (l : ledger) (f : Finding) : ledger :=
  if negb (allows substantive f) then l
  else
    let id := FindingID f in
    mkLedger (match open l !! id with Some _ => order l | None => order l ++ [id] end) (<[id := set_id id f]> (open l)).
Definition raise (findings : list Finding) (l : ledger) : ledger := fold_left raise_one findings l.

Definition apply (record : Verdict) (l : ledger) : ledger :=
  let l := fold_left answer (Dispositions record) l in
  let l := raise (StandingFindings record) l in
  if negb (Decision record =? VerdictPass) then raise (Findings record) l else l.

(** [ledger.findings]: the open findings by first raise. *)
Fixpoint listed (open : gmap string Finding) (seen ids : list string) : list Finding :=
  match ids with
  | [] => []
  | id :: ids =>
      match open !! id with
      | None => listed open seen ids
      | Some f => if mem_string id seen then listed open seen ids else f :: listed open (id :: seen) ids
      end
  end.
Definition findings (l : ledger) : list Finding := listed (open l) [] (order l).

Definition latest_step (head : string) (latest record : Verdict) : Verdict :=
  if negb (head =? "") && (HeadSHA record =? head)
     && (0 <? LedgerGeneration record)%N && (LedgerGeneration latest <=? LedgerGeneration record)%N
  then record else latest.
Definition LatestSnapshot (records : list Verdict) (head : string) : option Verdict :=
  let latest := fold_left (latest_step head) records zero_verdict in
  if (0 <? LedgerGeneration latest)%N then Some latest else None.

Definition replay (records : list Verdict) (head : string) : ledger :=
  if (head =? "") then empty_ledger
  else match LatestSnapshot records head with
  | Some snapshot => apply snapshot empty_ledger
  | None => fold_left (fun l r => if (HeadSHA r =? head) then apply r l else l) records empty_ledger
  end.

Definition Outstanding (records : list Verdict) (head : string) : list Finding := findings (replay records head).

(** ** Dispositions *)

(** The generation each complete answer names; the last one of an id counts. *)
Definition answeredIDs (ds : list FindingDisposition) : gmap string N :=
  fold_left (fun m d => if Answers d then <[TrimSpace (d_FindingID d) := d_FindingGeneration d]> m else m) ds ∅.

(** [out] with the first entry for the finding of [d] replaced, if there is one. *)
Fixpoint replace_answer (d : FindingDisposition) (out : list FindingDisposition) : option (list FindingDisposition) :=
  match out with
  | [] => None
  | d' :: out' =>
      if (d_FindingID d' =? d_FindingID d)
      then Some ((if (d_FindingGeneration d' <=? d_FindingGeneration d)%N then d else d') :: out')
      else cons d' <$> replace_answer d out'
  end.
Definition merge_one (out : list FindingDisposition) (d : FindingDisposition) : list FindingDisposition :=
  if negb (Answers d) then out
  else
    let d := set_target (TrimSpace (d_FindingID d)) d in
    match replace_answer d out with Some out' => out' | None => out ++ [d] end.
Definition mergeDispositions (base next : list FindingDisposition) : list FindingDisposition := fold_left merge_one next base.

Definition dispositionsOn (records : list Verdict) (head : string) : list FindingDisposition :=
  fold_left (fun out r => if (HeadSHA r =? head) then mergeDispositions out (Dispositions r) else out) records [].

(** ** Folding *)

(** [appendMissing]: the index of the first entry of each id, and the list. *)
Definition first_index (fs : list Finding) : gmap string nat :=
  fold_left (fun at_ p => match at_ !! FindingID p.2 with Some _ => at_ | None => <[FindingID p.2 := p.1]> at_ end)
    (zip (seq 0 (length fs)) fs) ∅.
Definition append_one (s : gmap string nat * list Finding) (f : Finding) : gmap string nat * list Finding :=
  let '(at_, out) := s in
  match at_ !! FindingID f with
  | None => (<[FindingID f := length out]> at_, out ++ [f])
  | Some i =>
      match out !! i with
      | Some g => if negb (allows substantive g) && allows substantive f then (at_, <[i := f]> out) else s
      | None => s
      end
  end.
Definition appendMissing (fs extra : list Finding) : list Finding := (fold_left append_one extra (first_index fs, fs)).2.
Definition AppendMissing := appendMissing.

Record FoldResult := mkFoldResult { Standing : list string; Answered : list string; Downgraded : bool }.

(** The ids of the findings [next] raises itself. *)
Definition ownRaised (next : Verdict) : gset string :=
  if negb (Decision next =? VerdictPass)
  then list_to_set (map FindingID (List.filter (allows substantive) (Findings next))) else ∅.

Inductive fate := FateAnswered | FateRaised | FateStanding.
(** What [next] does to an earlier finding. *)
Definition fate_of (answered : gmap string N) (own already : gset string) (f : Finding) : fate :=
  if bool_decide (answered !! f_ID f = Some (f_LedgerGeneration f)) then FateAnswered
  else if bool_decide (f_ID f ∈ own) && negb (bool_decide (f_ID f ∈ already)) then FateRaised
  else FateStanding.
Definition stands (x : fate) : bool := match x with FateStanding => true | _ => false end.
Definition is_answered (x : fate) : bool := match x with FateAnswered => true | _ => false end.

Definition Fold (prior : list Verdict) (next : Verdict) : Verdict * FoldResult :=
  let head := HeadSHA next in
  if (head =? "") then (next, mkFoldResult [] [] false)
  else
    let own := ownRaised next in
    let fate := fate_of (answeredIDs (Dispositions next)) own (list_to_set (map FindingID (StandingFindings next))) in
    let earlier := Outstanding prior head in
    let standing := List.filter (fun f => stands (fate f)) earlier in
    let ids := map f_ID standing in
    let stillOpen : gset string := own ∪ list_to_set ids in
    let dispositions :=
      List.filter (fun d => negb (bool_decide (d_FindingID d ∈ stillOpen)))
        (mergeDispositions (dispositionsOn prior head) (Dispositions next)) in
    let lists := (0 <? length standing)%nat && negb (Synthesized next)
                 && ((Decision next =? VerdictPass) || (Decision next =? VerdictNeedsChanges)) in
    let downgraded := lists && (Decision next =? VerdictPass) in
    let kept := if downgraded then List.filter (fun f => negb (bool_decide (FindingID f ∈ stillOpen))) (Findings next)
                else Findings next in
    (mkVerdict (if downgraded then VerdictNeedsChanges else Decision next) (ReasonCode next) (Rationale next)
       (if lists then appendMissing kept standing else Findings next) (Synthesized next) (HeadSHA next) (BaseSHA next)
       (if downgraded then false else Elected next) dispositions (LedgerGeneration next) standing,
     mkFoldResult ids (map f_ID (List.filter (fun f => is_answered (fate f)) earlier)) downgraded).

(** ** Committing *)

Definition sameFinding (a b : Finding) : bool := bool_decide (set_generation 0 a = set_generation 0 b).

Definition open_of (fs : list Finding) : gmap string Finding := fold_left (fun m f => <[f_ID f := f]> m) fs ∅.
(** The instance a finding of the candidate becomes. *)
Definition stamp_finding (pass : bool) (opened : gmap string Finding) (generation : N) (f : Finding) : Finding :=
  let f := set_generation 0 f in
  if pass || negb (allows substantive f) then f
  else
    let f := set_generation generation (set_id (FindingID f) f) in
    match opened !! f_ID f with
    | Some previous => if sameFinding previous f then set_generation (f_LedgerGeneration previous) f else f
    | None => f
    end.

Definition stamped (prior : list Verdict) (candidate : Verdict) (generation : N) : Verdict :=
  let opened := open_of (Outstanding prior (HeadSHA candidate)) in
  mkVerdict (Decision candidate) (ReasonCode candidate) (Rationale candidate)
    (map (stamp_finding (Decision candidate =? VerdictPass) opened generation) (Findings candidate))
    (Synthesized candidate) (HeadSHA candidate) (BaseSHA candidate) (Elected candidate) (Dispositions candidate) generation [].
Definition Commit (prior : list Verdict) (candidate : Verdict) (generation : N) : Verdict * FoldResult :=
  Fold prior (stamped prior candidate generation).
End ledger.
