(* ===== verification/FindingLedgerProps.v ===== *)
(** * What stands, and until when

    The replay of a ledger as a map of open findings, and what a commit does to
    it. *)

From S2P Require Export FindingLedger.
Local Open Scope string_scope.
Local Open Scope list_scope.

(** ** Trimming *)

Lemma trim_left_idem sp2 sp3 l : trim_left sp2 sp3 (trim_left sp2 sp3 l) = trim_left sp2 sp3 l.
Proof.
  revert l. fix IH 1. intros [|b0 l]; [done|]. cbn [trim_left]. destruct (ascii_space b0) eqn:E0; [apply IH|].
  destruct l as [|b1 l]; [cbn; by rewrite E0|]. destruct (sp2 b0 b1) eqn:E1; [apply IH|].
  destruct l as [|b2 l]; [cbn; by rewrite E0, E1|]. destruct (sp3 b0 b1 b2) eqn:E2; [apply IH|]. cbn. by rewrite E0, E1, E2.
Qed.
Lemma trim_left_suffix sp2 sp3 l : exists p, l = p ++ trim_left sp2 sp3 l.
Proof.
  revert l. fix IH 1. intros [|b0 l]; [by exists []|]. cbn [trim_left].
  destruct (ascii_space b0); [destruct (IH l) as [p Hp]; exists (b0 :: p); cbn; by rewrite <- Hp|].
  destruct l as [|b1 l]; [by exists []|].
  destruct (sp2 b0 b1); [destruct (IH l) as [p Hp]; exists (b0 :: b1 :: p); cbn; by rewrite <- Hp|].
  destruct l as [|b2 l]; [by exists []|].
  destruct (sp3 b0 b1 b2); [destruct (IH l) as [p Hp]; exists (b0 :: b1 :: b2 :: p); cbn; by rewrite <- Hp|by exists []].
Qed.
Lemma trim_left_prefix sp2 sp3 l k : trim_left sp2 sp3 (l ++ k) = l ++ k -> trim_left sp2 sp3 l = l.
Proof.
  assert (forall x, length (trim_left sp2 sp3 x) <= length x)%nat as Hlen.
  { intros x. destruct (trim_left_suffix sp2 sp3 x) as [p Hp]. apply (f_equal length) in Hp. rewrite length_app in Hp. lia. }
  intros H. destruct l as [|b0 l]; [done|]. cbn [app trim_left] in *.
  destruct (ascii_space b0). { pose proof (Hlen (l ++ k)) as Hl. rewrite H in Hl. cbn in Hl. lia. }
  destruct l as [|b1 l]; [done|]. cbn [app] in *.
  destruct (sp2 b0 b1). { pose proof (Hlen (l ++ k)) as Hl. rewrite H in Hl. cbn in Hl. lia. }
  destruct l as [|b2 l]; [done|]. cbn [app] in *.
  destruct (sp3 b0 b1 b2); [|done]. pose proof (Hlen (l ++ k)) as Hl. rewrite H in Hl. cbn in Hl. lia.
Qed.
Lemma TrimSpaceBytes_idem l : TrimSpaceBytes (TrimSpaceBytes l) = TrimSpaceBytes l.
Proof.
  unfold TrimSpaceBytes. set (R := trim_left (fun b1 b0 => space2 b0 b1) _). set (L := trim_left space2 space3).
  assert (L (rev (R (rev (L l)))) = rev (R (rev (L l)))) as ->.
  { destruct (trim_left_suffix (fun b1 b0 => space2 b0 b1) (fun b2 b1 b0 => space3 b0 b1 b2) (rev (L l))) as [p Hp].
    apply (trim_left_prefix space2 space3 _ (rev p)). rewrite <- rev_app_distr. fold (R (rev (L l))) in Hp. rewrite <- Hp, rev_involutive.
    apply trim_left_idem. }
  rewrite rev_involutive. f_equal. apply trim_left_idem.
Qed.
Lemma TrimSpace_idem s : TrimSpace (TrimSpace s) = TrimSpace s.
Proof.
  unfold TrimSpace. rewrite bytes_of_bytes; [by rewrite TrimSpaceBytes_idem|].
  apply Forall_forall. intros b Hb. unfold TrimSpaceBytes in Hb.
  assert (forall sp2 sp3 x, b ∈ trim_left sp2 sp3 x -> b ∈ x) as Hsub.
  { intros sp2 sp3 x. destruct (trim_left_suffix sp2 sp3 x) as [p Hp]. rewrite Hp at 2. set_solver. }
  apply list_elem_of_In, in_rev, list_elem_of_In, Hsub, list_elem_of_In, in_rev, list_elem_of_In, Hsub in Hb.
  clear Hsub. induction s as [|c s IH]; [by apply not_elem_of_nil in Hb|]. cbn in Hb. apply elem_of_cons in Hb as [->|Hb]; [|by apply IH].
  apply N_ascii_bounded.
Qed.

Section identity.
Context {Digest : ContentDigest}.

Lemma FindingID_trimmed f : TrimSpace (FindingID f) = FindingID f /\ FindingID f <> "".
Proof.
  unfold FindingID. destruct (String.eqb_spec (TrimSpace (f_ID f)) "") as [_|Hne]; cbn [negb].
  - split; [apply content_id_trimmed|discriminate].
  - split; [apply TrimSpace_idem|done].
Qed.
Lemma FindingID_named f : TrimSpace (f_ID f) = f_ID f -> f_ID f <> "" -> FindingID f = f_ID f.
Proof. intros Ht Hne. unfold FindingID. rewrite Ht. by destruct (String.eqb_spec (f_ID f) ""). Qed.
Lemma FindingID_set_id f g : FindingID (set_id (FindingID f) g) = FindingID f.
Proof. apply FindingID_named; apply FindingID_trimmed. Qed.
Lemma FindingID_generation g f : FindingID (set_generation g f) = FindingID f.
Proof. done. Qed.
End identity.

(** ** The ledger as a map *)

(** The policy judges what a finding says, not which instance it is. *)
Definition ignores_identity (substantive : Substantive) : Prop :=
  forall f, (forall id, allows substantive (set_id id f) = allows substantive f) /\
            (forall g, allows substantive (set_generation g f) = allows substantive f).

Section replay.
Context {Digest : ContentDigest}.
Variable substantive : Substantive.

(** The substantive findings of a list under one identity. *)
Definition under (id : string) (fs : list Finding) : list Finding :=
  List.filter (fun f => allows substantive f && (FindingID f =? id)) fs.

Lemma elem_of_under id fs f : f ∈ under id fs <-> f ∈ fs /\ allows substantive f = true /\ FindingID f = id.
Proof. unfold under. rewrite !list_elem_of_In, filter_In, andb_true_iff, String.eqb_eq. tauto. Qed.
Lemma under_app id fs gs : under id (fs ++ gs) = under id fs ++ under id gs.
Proof. apply List.filter_app. Qed.

Lemma raise_app fs gs l : raise substantive (fs ++ gs) l = raise substantive gs (raise substantive fs l).
Proof. apply fold_left_app. Qed.
Lemma raise_one_lookup l f id :
  open (raise_one substantive l f) !! id = if decide (f ∈ under id [f]) then Some (set_id id f) else open l !! id.
Proof.
  unfold raise_one. destruct (allows substantive f) eqn:E; cbn [negb].
  - cbn [open]. destruct (decide (FindingID f = id)) as [<-|Hne].
    + rewrite lookup_insert_eq, decide_True; [done|]. apply elem_of_under. by rewrite list_elem_of_singleton.
    + rewrite lookup_insert_ne, decide_False; [done| |done]. rewrite elem_of_under. tauto.
  - rewrite decide_False; [done|]. rewrite elem_of_under, E. intros (_ & [=] & _).
Qed.
Lemma raise_lookup fs l id :
  open (raise substantive fs l) !! id = match last (under id fs) with Some f => Some (set_id id f) | None => open l !! id end.
Proof.
  induction fs as [|f fs IH] using rev_ind; [done|]. rewrite raise_app, under_app. cbn [raise fold_left].
  rewrite raise_one_lookup. case_decide as Hf.
  - unfold under in Hf |- *. cbn [List.filter] in *. destruct (_ && _); [|by apply not_elem_of_nil in Hf]. by rewrite last_snoc.
  - assert (under id [f] = []) as ->.
    { unfold under in *. cbn [List.filter] in *. destruct (_ && _); [exfalso; apply Hf; left|done]. }
    by rewrite app_nil_r.
Qed.

Record wf (l : ledger) : Prop := {
  wf_named id f : open l !! id = Some f -> f_ID f = id /\ FindingID f = id /\ allows substantive f = true;
  wf_order id : is_Some (open l !! id) -> id ∈ order l
}.

Section policy.
Hypothesis Hpolicy : ignores_identity substantive.

Lemma wf_empty : wf empty_ledger.
Proof. split; cbn; intros id; rewrite lookup_empty; [done|by intros []]. Qed.
Lemma wf_answer l d : wf l -> wf (answer l d).
Proof.
  intros [Hn Ho]. unfold answer. destruct (open l !! TrimSpace (d_FindingID d)) as [f|]; [|done]. destruct (_ && _); [|done].
  split; cbn; intros id.
  - intros g [_ Hg]%lookup_delete_Some. by apply Hn.
  - intros [g [_ Hg]%lookup_delete_Some]. apply Ho. by exists g.
Qed.
Lemma wf_raise_one l f : wf l -> wf (raise_one substantive l f).
Proof.
  intros [Hn Ho]. unfold raise_one. destruct (allows substantive f) eqn:E; [|done]. cbn [negb]. split; cbn [open order]; intros id.
  - intros g [[<- <-]|[_ Hg]]%lookup_insert_Some; [|by apply Hn]. split_and!; [done|apply FindingID_set_id|].
    by rewrite (proj1 (Hpolicy f)).
  - intros [g [[<- _]|[_ Hg]]%lookup_insert_Some].
    + destruct (open l !! FindingID f) eqn:El; [apply Ho; by rewrite El|set_solver].
    + destruct (open l !! FindingID f) eqn:El; [apply Ho; by exists g|]. apply elem_of_app. left. apply Ho. by exists g.
Qed.
Lemma wf_raise fs l : wf l -> wf (raise substantive fs l).
Proof. revert l. induction fs as [|f fs IH]; intros l Hl; [done|]. cbn. by apply IH, wf_raise_one. Qed.
Lemma wf_apply r l : wf l -> wf (apply substantive r l).
Proof.
  intros Hl. unfold apply. assert (wf (fold_left answer (Dispositions r) l)) as Hd.
  { revert l Hl. induction (Dispositions r) as [|d ds IH]; intros l Hl; [done|]. cbn. by apply IH, wf_answer. }
  destruct (negb _); repeat apply wf_raise; done.
Qed.
Lemma wf_replay records head : wf (replay substantive records head).
Proof.
  unfold replay. destruct (head =? ""); [apply wf_empty|]. destruct (LatestSnapshot records head); [apply wf_apply, wf_empty|].
  assert (forall l, wf l -> wf (fold_left (fun l r => if HeadSHA r =? head then apply substantive r l else l) records l)) as Hf.
  { induction records as [|r rs IH]; intros l Hl; [done|]. cbn. apply IH. destruct (_ =? _); [by apply wf_apply|done]. }
  apply Hf, wf_empty.
Qed.
End policy.

Lemma elem_of_listed opened ids f : forall seen,
  f ∈ listed opened seen ids <-> exists id, id ∈ ids /\ id ∉ seen /\ opened !! id = Some f.
Proof.
  induction ids as [|x ids IH]; intros seen; cbn [listed]; [set_solver|].
  assert (forall P, (exists id, id ∈ x :: ids /\ P id) <-> P x \/ (exists id, id ∈ ids /\ P id)) as Hcons by set_solver.
  rewrite Hcons. destruct (opened !! x) as [g|] eqn:E; [|rewrite IH; naive_solver].
  destruct (mem_string x seen) eqn:Em.
  - apply mem_string_true in Em. rewrite IH. naive_solver.
  - apply mem_string_false in Em. rewrite elem_of_cons, IH. split.
    + intros [->|(id & ? & ? & ?)]; [by left|right; exists id; set_solver].
    + intros [[_ [= ->]]|(id & Hi & Hs & Ho)]; [by left|]. destruct (decide (id = x)) as [->|]; [left; congruence|].
      right. exists id. set_solver.
Qed.
Lemma elem_of_findings l f : wf l -> f ∈ findings l <-> open l !! f_ID f = Some f.
Proof.
  intros [Hn Ho]. unfold findings. rewrite elem_of_listed. split.
  - intros (id & _ & _ & Hf). by destruct (Hn _ _ Hf) as [-> _].
  - intros Hf. exists (f_ID f). split_and!; [apply Ho; by exists f|set_solver|done].
Qed.
Lemma NoDup_findings l : wf l -> NoDup (map f_ID (findings l)).
Proof.
  intros [Hn _]. unfold findings. generalize (@nil string) as seen. induction (order l) as [|x ids IH]; intros seen; cbn [listed]; [constructor|].
  destruct (open l !! x) as [g|] eqn:E; [|apply IH]. destruct (mem_string x seen); [apply IH|]. cbn. apply NoDup_cons. split; [|apply IH].
  rewrite list_elem_of_In, in_map_iff. intros (f & Hid & Hf%list_elem_of_In). apply elem_of_listed in Hf as (id & _ & Hs & Hf).
  destruct (Hn _ _ Hf) as [Hfid _]. destruct (Hn _ _ E) as [Hgid _]. set_solver.
Qed.

(** A list of open findings: named after their identity, one per identity. *)
Record distinct (fs : list Finding) : Prop := {
  ds_nodup : NoDup (map f_ID fs);
  ds_named f : f ∈ fs -> FindingID f = f_ID f /\ allows substantive f = true
}.

Lemma distinct_findings l : wf l -> distinct (findings l).
Proof.
  intros Hl. split; [by apply NoDup_findings|]. intros f Hf. apply elem_of_findings in Hf; [|done].
  by destruct (wf_named _ Hl _ _ Hf) as (_ & -> & ->).
Qed.
Lemma distinct_filter p fs : distinct fs -> distinct (List.filter p fs).
Proof.
  intros [Hd Hn]. split; [|intros f Hf; apply Hn; rewrite list_elem_of_In in Hf |- *; apply filter_In in Hf; tauto].
  induction fs as [|f fs IH]; [done|]. cbn in Hd. apply NoDup_cons in Hd as [Hf Hd]. cbn [List.filter].
  assert (NoDup (map f_ID (List.filter p fs))) as Hr by (apply IH; [done|]; intros g Hg; apply Hn; by right).
  destruct (p f); [|done]. cbn. apply NoDup_cons. split; [|done]. intros Hin. apply Hf. rewrite list_elem_of_In, in_map_iff in Hin |- *.
  destruct Hin as (g & <- & Hg). exists g. by apply filter_In in Hg as [].
Qed.
Lemma distinct_inj fs f g : distinct fs -> f ∈ fs -> g ∈ fs -> f_ID f = f_ID g -> f = g.
Proof.
  intros [Hd _] Hf Hg E. induction fs as [|x fs IH]; [by apply not_elem_of_nil in Hf|]. cbn in Hd. apply NoDup_cons in Hd as [Hx Hd].
  assert (forall h, h ∈ fs -> f_ID h <> f_ID x) as Hne.
  { intros h Hh Heq. apply Hx. rewrite <- Heq, list_elem_of_In. by apply in_map, list_elem_of_In. }
  apply elem_of_cons in Hf as [->|Hf], Hg as [->|Hg]; auto; [by destruct (Hne g)|by destruct (Hne f)].
Qed.
Lemma set_id_same f : set_id (f_ID f) f = f.
Proof. by destruct f. Qed.
Lemma distinct_last fs id f : distinct fs -> last (under id fs) = Some f <-> f ∈ fs /\ f_ID f = id.
Proof.
  intros Hd. split.
  - intros Hl%last_Some_elem_of. apply elem_of_under in Hl as (Hf & _ & <-). split; [done|]. by destruct (ds_named _ Hd _ Hf) as [-> _].
  - intros [Hf <-]. destruct (ds_named _ Hd _ Hf) as [Hid Ha].
    assert (f ∈ under (f_ID f) fs) as Hu by (by apply elem_of_under).
    destruct (last (under (f_ID f) fs)) as [g|] eqn:El; [|apply last_None in El; rewrite El in Hu; by apply not_elem_of_nil in Hu].
    apply last_Some_elem_of, elem_of_under in El as (Hg & _ & Hgid). destruct (ds_named _ Hd _ Hg) as [Hgn _].
    f_equal. eapply distinct_inj; eauto. congruence.
Qed.

(** [open_of] recovers the map. *)
Lemma open_of_lookup fs id f : distinct fs -> open_of fs !! id = Some f <-> f ∈ fs /\ f_ID f = id.
Proof.
  unfold open_of. induction fs as [|x fs IH] using rev_ind; intros Hd.
  { cbn. rewrite lookup_empty. split; [done|intros [[]%not_elem_of_nil _]]. }
  assert (distinct fs) as Hd'.
  { destruct Hd as [Hnd Hn]. rewrite map_app in Hnd. apply NoDup_app in Hnd as (? & _ & _). split; [done|]. intros g Hg. apply Hn, elem_of_app. by left. }
  rewrite fold_left_app. cbn. rewrite lookup_insert_Some, (IH Hd'), elem_of_app, list_elem_of_singleton. split.
  - intros [[<- <-]|[_ [? ?]]]; auto.
  - intros [[Hf| ->] <-]; [|by left]. right. split; [|done]. intros E.
    assert (x = f) as -> by (apply (distinct_inj (fs ++ [x])); [done|apply elem_of_app; right; left|apply elem_of_app; by left|done]).
    destruct Hd as [Hnd _]. rewrite map_app in Hnd. apply NoDup_app in Hnd as (_ & Hdis & _). apply (Hdis (f_ID f)).
    + rewrite list_elem_of_In. by apply in_map, list_elem_of_In.
    + left.
Qed.
Lemma open_of_findings l : wf l -> open_of (findings l) = open l.
Proof.
  intros Hl. apply map_eq. intros id. apply option_eq. intros f. rewrite open_of_lookup by (by apply distinct_findings).
  rewrite elem_of_findings by done. split; [by intros [? <-]|]. intros Hf. by destruct (wf_named _ Hl _ _ Hf) as [<- _].
Qed.

(** ** Listing the standing findings *)

(** The index points at the entry of each identity, and no entry is left out. *)
Record indexed (s : gmap string nat * list Finding) : Prop := {
  ix_some id i : s.1 !! id = Some i -> exists g, s.2 !! i = Some g /\ FindingID g = id;
  ix_none id g : s.1 !! id = None -> g ∈ s.2 -> FindingID g <> id
}.
Lemma indexed_first fs : indexed (first_index fs, fs).
Proof.
  unfold first_index. induction fs as [|f fs IH] using rev_ind; [split; cbn; [intros id i; by rewrite lookup_empty|set_solver]|].
  rewrite length_app, Nat.add_comm, seq_S, zip_with_app by (by rewrite length_seq). rewrite fold_left_app. cbn [zip zip_with fold_left fst snd].
  set (m := fold_left _ _ _) in *. destruct IH as [Hs Hn]. cbn in Hs, Hn.
  destruct (m !! FindingID f) as [i|] eqn:E; split; cbn [fst snd]; intros id.
  - intros j Hj. destruct (Hs _ _ Hj) as (g & Hg & <-). exists g. split; [by apply lookup_app_l_Some|done].
  - intros g Hm [Hg|Hg%list_elem_of_singleton]%elem_of_app; [by eapply Hn|]. subst g. congruence.
  - intros j [[<- <-]|[_ Hj]]%lookup_insert_Some.
    + exists f. split; [|done]. rewrite lookup_app_r, Nat.sub_diag by lia. done.
    + destruct (Hs _ _ Hj) as (g & Hg & <-). exists g. split; [by apply lookup_app_l_Some|done].
  - intros g [Hm Hne]%lookup_insert_None [Hg|Hg%list_elem_of_singleton]%elem_of_app; [by eapply Hn|]. by subst g.
Qed.

Lemma under_nil id fs : under id fs = [] <-> forall f, f ∈ fs -> allows substantive f = true -> FindingID f <> id.
Proof.
  split.
  - intros Hu f Hf Ha Hid. assert (f ∈ under id fs) as Hin by (by apply elem_of_under). rewrite Hu in Hin. by apply not_elem_of_nil in Hin.
  - intros Hn. destruct (under id fs) as [|f us] eqn:E; [done|]. assert (f ∈ under id fs) as Hf by (rewrite E; left).
    apply elem_of_under in Hf as (Hf & Ha & Hid). by destruct (Hn f).
Qed.
Lemma under_one id f : allows substantive f = true -> under id [f] = if decide (FindingID f = id) then [f] else [].
Proof. intros Ha. unfold under. cbn. rewrite Ha. cbn. by destruct (String.eqb_spec (FindingID f) id); case_decide. Qed.

Lemma append_one_spec s f :
  indexed s -> allows substantive f = true -> under (FindingID f) s.2 = [] ->
  indexed (append_one substantive s f) /\
  forall id, under id (append_one substantive s f).2 = under id s.2 ++ under id [f] \/ FindingID f = id /\ under id (append_one substantive s f).2 = [f].
Proof.
  destruct s as [at_ out]. intros [Hs Hn] Ha Hu. cbn in Hs, Hn, Hu. unfold append_one. destruct (at_ !! FindingID f) as [i|] eqn:Ei.
  - destruct (Hs _ _ Ei) as (g & Hg & Hgid). rewrite Hg.
    assert (allows substantive g = false) as Hga.
    { destruct (allows substantive g) eqn:Hga; [|done]. exfalso. eapply (proj1 (under_nil _ _) Hu g); eauto. by eapply list_elem_of_lookup_2. }
    rewrite Hga, Ha. cbn [negb andb]. pose proof (lookup_lt_Some _ _ _ Hg) as Hlt. split.
    + split; cbn [fst snd]; intros id.
      * intros j Hj. destruct (decide (j = i)) as [->|Hne].
        { exists f. rewrite list_lookup_insert_eq by done. split; [done|]. destruct (Hs _ _ Hj) as (g' & Hg' & <-). congruence. }
        destruct (Hs _ _ Hj) as (g' & Hg' & <-). exists g'. by rewrite list_lookup_insert_ne.
      * intros h Hm Hh. apply list_elem_of_lookup_1 in Hh as [j Hj]. destruct (decide (j = i)) as [->|Hne].
        { rewrite list_lookup_insert_eq in Hj by done. injection Hj as <-. congruence. }
        rewrite list_lookup_insert_ne in Hj by done. apply (Hn id h Hm). by eapply list_elem_of_lookup_2.
    + intros id. cbn [snd]. rewrite insert_take_drop by done. rewrite <- (take_drop_middle _ _ _ Hg) at 3. change (f :: drop (S i) out) with ([f] ++ drop (S i) out).
      change (g :: drop (S i) out) with ([g] ++ drop (S i) out). rewrite !under_app.
      assert (under id [g] = []) as -> by (apply under_nil; intros h ->%list_elem_of_singleton; congruence). cbn [app].
      rewrite (under_one id f Ha). case_decide as Hid; [|left; by rewrite app_nil_r]. right. split; [done|]. subst id.
      assert (forall k, (forall h, h ∈ k -> h ∈ out) -> under (FindingID f) k = []) as Hsub.
      { intros k Hk. apply under_nil. intros h Hh. apply (proj1 (under_nil _ _) Hu), Hk, Hh. }
      rewrite !Hsub; [done| |]; intros h Hh.
      * rewrite <- (take_drop (S i) out). apply elem_of_app. by right.
      * rewrite <- (take_drop i out). apply elem_of_app. by left.
  - split; [split; cbn [fst snd]; intros id|intros id; left; apply under_app].
    + intros j [[<- <-]|[_ Hj]]%lookup_insert_Some.
      * exists f. split; [|done]. by rewrite lookup_app_r, Nat.sub_diag by lia.
      * destruct (Hs _ _ Hj) as (g & Hg & <-). exists g. split; [by apply lookup_app_l_Some|done].
    + intros g [Hm Hne]%lookup_insert_None [Hg|Hg%list_elem_of_singleton]%elem_of_app; [by eapply Hn|]. by subst g.
Qed.

Lemma append_all_last extra id : forall s,
  indexed s -> distinct extra -> (forall f, f ∈ extra -> under (f_ID f) s.2 = []) ->
  last (under id (fold_left (append_one substantive) extra s).2) = match last (under id s.2) with Some f => Some f | None => last (under id extra) end.
Proof.
  induction extra as [|f extra IH]; intros s Hix Hd Hu; cbn [fold_left]; [by destruct (last (under id s.2))|].
  destruct (ds_named _ Hd f) as [Hid Ha]; [left|]. destruct (append_one_spec s f) as [Hix' Happ]; [done|done|rewrite Hid; apply Hu; left|].
  assert (distinct extra) as Hd'.
  { destruct Hd as [Hnd Hn]. cbn in Hnd. apply NoDup_cons in Hnd as [_ Hnd]. split; [done|]. intros g Hg. apply Hn. by right. }
  assert (forall g, g ∈ extra -> f_ID g <> f_ID f) as Hne.
  { intros g Hg E. destruct Hd as [Hnd _]. cbn in Hnd. apply NoDup_cons in Hnd as [Hf _]. apply Hf. rewrite <- E, list_elem_of_In. by apply in_map, list_elem_of_In. }
  change (f :: extra) with ([f] ++ extra). rewrite under_app, IH; [|done|done|].
  - rewrite (under_one id f Ha). destruct (Happ id) as [->|[<- ->]].
    + rewrite (under_one id f Ha). case_decide as Hdec; [|by rewrite app_nil_r].
      subst id. rewrite Hid, (Hu f) by left. cbn.
      assert (under (f_ID f) extra = []) as ->; [|done]. apply under_nil. intros g Hg _. destruct (ds_named _ Hd' _ Hg) as [-> _]. by apply Hne.
    + rewrite decide_True by done. rewrite Hid, (Hu f) by left. cbn.
      assert (under (f_ID f) extra = []) as ->; [|done]. apply under_nil. intros g Hg _. destruct (ds_named _ Hd' _ Hg) as [-> _]. by apply Hne.
  - intros g Hg. destruct (Happ (f_ID g)) as [->|[E _]]; [|rewrite Hid in E; by destruct (Hne g Hg)].
    rewrite Hu by (by right). rewrite under_one by done. rewrite decide_False; [done|]. rewrite Hid. intros E. by apply (Hne g Hg).
Qed.
Lemma appendMissing_last fs extra id :
  distinct extra -> (forall f, f ∈ extra -> under (f_ID f) fs = []) ->
  last (under id (appendMissing substantive fs extra)) = match last (under id fs) with Some f => Some f | None => last (under id extra) end.
Proof. intros Hd Hu. apply (append_all_last extra id (first_index fs, fs)); auto using indexed_first. Qed.
End replay.
