(* ===== verification/FindingCommit.v ===== *)
(** * What a commit does to the ledger

    A committed verdict is a complete snapshot: what stands after it is what stood
    before and was not answered, and what it raises. *)

From S2P Require Export FindingLedgerProps.
Local Open Scope string_scope.
Local Open Scope list_scope.

Section commit.
Context {Digest : ContentDigest}.
Variable substantive : Substantive.
Hypothesis Hpolicy : ignores_identity substantive.

Abbreviation allowed := (allows substantive).
Abbreviation under := (under substantive).

(** The findings that stand on a head, by identity. *)
Definition standing_on (records : list Verdict) (head : string) : gmap string Finding := open_of (Outstanding substantive records head).
Lemma standing_on_open records head : standing_on records head = open (replay substantive records head).
Proof. unfold standing_on, Outstanding. apply open_of_findings with substantive. by apply wf_replay. Qed.

(** The finding a candidate raises under an identity, if it is not a pass. *)
Definition raises (candidate : Verdict) (id : string) : option Finding :=
  if Decision candidate =? VerdictPass then None else last (under id (Findings candidate)).
(** The instance it becomes: the one that stands, if the finding is unchanged. *)
Definition instance_of (before : gmap string Finding) (generation : N) (id : string) (f : Finding) : Finding :=
  set_generation
    (match before !! id with
     | Some p => if sameFinding p (set_id id f) then f_LedgerGeneration p else generation
     | None => generation
     end) (set_id id f).
(** The verdict answers the very instance that stands. *)
Definition answers (candidate : Verdict) (f : Finding) : Prop :=
  answeredIDs (Dispositions candidate) !! f_ID f = Some (f_LedgerGeneration f).
#[export] Instance answers_dec candidate f : base.Decision (answers candidate f).
Proof. unfold answers. apply _. Defined.
(** A pass has no substantive finding of its own. *)
Definition no_notes (candidate : Verdict) : Prop :=
  Decision candidate = VerdictPass -> forall f, f ∈ Findings candidate -> allowed f = false.

(** ** Stamping *)

Lemma stamp_allowed pass opened g f : allowed (stamp_finding substantive pass opened g f) = allowed f.
Proof.
  unfold stamp_finding. rewrite (proj2 (Hpolicy f)). destruct (pass || _); [by rewrite (proj2 (Hpolicy f))|].
  repeat case_match; rewrite ?(proj2 (Hpolicy _)), ?(proj1 (Hpolicy _)), ?(proj2 (Hpolicy _)); done.
Qed.
Lemma stamp_id pass opened g f : FindingID (stamp_finding substantive pass opened g f) = FindingID f.
Proof.
  unfold stamp_finding. destruct (pass || _); [done|].
  change (FindingID (set_generation 0 f)) with (FindingID f).
  repeat case_match; rewrite ?FindingID_generation; apply FindingID_set_id.
Qed.
Lemma under_stamped pass opened g id fs :
  under id (map (stamp_finding substantive pass opened g) fs) = map (stamp_finding substantive pass opened g) (under id fs).
Proof.
  unfold FindingLedgerProps.under. induction fs as [|f fs IH]; [done|]. cbn [map List.filter]. rewrite stamp_allowed, stamp_id, IH.
  by destruct (_ && _).
Qed.
Lemma stamp_instance opened g f :
  allowed f = true -> set_id (FindingID f) (stamp_finding substantive false opened g f) = instance_of opened g (FindingID f) f.
Proof.
  intros Ha. unfold stamp_finding, instance_of. rewrite (proj2 (Hpolicy f)), Ha. cbn [orb negb set_generation set_id f_ID].
  change (FindingID (set_generation 0 f)) with (FindingID f). destruct (opened !! FindingID f) as [p|]; [|done].
  unfold sameFinding. by destruct (bool_decide _) eqn:E1, (bool_decide (set_generation 0 p = set_generation 0 (set_id (FindingID f) f))) eqn:E2.
Qed.

(** ** Snapshots *)

Lemma apply_empty r id :
  open (apply substantive r empty_ledger) !! id =
  match (if Decision r =? VerdictPass then None else last (under id (Findings r))) with
  | Some f => Some (set_id id f)
  | None => match last (under id (StandingFindings r)) with Some f => Some (set_id id f) | None => None end
  end.
Proof.
  unfold apply. assert (fold_left answer (Dispositions r) empty_ledger = empty_ledger) as ->.
  { induction (Dispositions r) as [|d ds IH]; [done|]. cbn [fold_left]. unfold answer at 2. cbn [open empty_ledger]. by rewrite lookup_empty. }
  destruct (Decision r =? VerdictPass); cbn [negb]; rewrite !raise_lookup; cbn [open empty_ledger]; by rewrite lookup_empty.
Qed.
Lemma snapshot_of_one r : HeadSHA r <> "" -> (0 < LedgerGeneration r)%N -> replay substantive [r] (HeadSHA r) = apply substantive r empty_ledger.
Proof.
  intros Hh Hg. unfold replay, LatestSnapshot, latest_step. cbn [fold_left]. destruct (String.eqb_spec (HeadSHA r) ""); [done|].
  rewrite String.eqb_refl. cbn [negb andb zero_verdict LedgerGeneration]. rewrite (proj2 (N.ltb_lt _ _) Hg), (proj2 (N.leb_le 0 _)) by lia.
  cbn [andb]. by rewrite (proj2 (N.ltb_lt _ _) Hg).
Qed.

(** ** Folding *)

Variables (prior : list Verdict) (candidate : Verdict) (generation : N).
Hypothesis Hhead : HeadSHA candidate <> "".
Hypothesis Hgen : (0 < generation)%N.

Let before := standing_on prior (HeadSHA candidate).
Let next := stamped substantive prior candidate generation.
Let committed := (Commit substantive prior candidate generation).1.
Let S := StandingFindings committed.

Lemma committed_fields : HeadSHA committed = HeadSHA candidate /\ LedgerGeneration committed = generation.
Proof.
  unfold committed, Commit, Fold. change (HeadSHA (stamped _ _ _ _)) with (HeadSHA candidate).
  by destruct (String.eqb_spec (HeadSHA candidate) "").
Qed.

Lemma elem_of_own id : id ∈ ownRaised substantive next <-> is_Some (raises candidate id).
Proof.
  unfold ownRaised, raises. change (Decision next) with (Decision candidate).
  destruct (_ =? VerdictPass); cbn [negb]; [split; [set_solver|by intros []]|].
  assert (id ∈ (list_to_set (map FindingID (List.filter allowed (Findings next))) : gset string) <-> under id (Findings next) <> []) as ->.
  { rewrite elem_of_list_to_set, list_elem_of_In, in_map_iff. split.
    - intros (f & Hid & [Hf Ha]%filter_In) Hu. apply (proj1 (under_nil _ _ _) Hu f); auto. by apply list_elem_of_In.
    - intros Hu. destruct (under id (Findings next)) as [|f us] eqn:E; [done|]. assert (f ∈ under id (Findings next)) as Hf by (rewrite E; left).
      apply elem_of_under in Hf as (Hf & Ha & Hid). exists f. split; [done|]. apply filter_In. by rewrite <- list_elem_of_In. }
  unfold next, stamped. cbn [Findings]. rewrite under_stamped. rewrite <- not_eq_None_Some, last_None.
  split; intros H E; apply H; [by rewrite E|by apply map_eq_nil in E].
Qed.

Lemma elem_of_standing f :
  f ∈ S <-> before !! f_ID f = Some f /\ ~ answers candidate f /\ raises candidate (f_ID f) = None.
Proof.
  unfold S, committed, Commit, Fold. change (HeadSHA (stamped _ _ _ _)) with (HeadSHA candidate).
  destruct (String.eqb_spec (HeadSHA candidate) "") as [|_]; [done|]. cbn [fst StandingFindings].
  rewrite list_elem_of_In, filter_In, <- list_elem_of_In. unfold Outstanding. rewrite elem_of_findings by (by apply wf_replay).
  unfold before. rewrite standing_on_open. fold next.
  assert (stands (fate_of (answeredIDs (Dispositions next)) (ownRaised substantive next)
            (list_to_set (map FindingID (StandingFindings next))) f) = true
          <-> ~ answers candidate f /\ raises candidate (f_ID f) = None) as ->; [|done].
  unfold fate_of. change (StandingFindings next) with (@nil Finding). change (Dispositions next) with (Dispositions candidate).
  fold (answers candidate f). destruct (bool_decide (answers candidate f)) eqn:Ea.
  { apply bool_decide_eq_true in Ea. cbn. split; [done|tauto]. }
  apply bool_decide_eq_false in Ea. rewrite (bool_decide_eq_false_2 (f_ID f ∈ (list_to_set (map FindingID []) : gset string))) by set_solver.
  cbn [negb]. rewrite andb_true_r. rewrite (bool_decide_ext _ _ (elem_of_own (f_ID f))), eq_None_not_Some.
  case_bool_decide; cbn; naive_solver.
Qed.
Lemma distinct_standing : distinct substantive S.
Proof.
  unfold S, committed, Commit, Fold. change (HeadSHA (stamped _ _ _ _)) with (HeadSHA candidate).
  destruct (String.eqb_spec (HeadSHA candidate) "") as [|_]; [done|]. apply distinct_filter, distinct_findings. by apply wf_replay.
Qed.
Lemma standing_last id :
  last (under id S) = match before !! id with Some f => if decide (answers candidate f \/ is_Some (raises candidate id)) then None else Some f | None => None end.
Proof.
  apply option_eq. intros f. rewrite (distinct_last _ S id f distinct_standing), elem_of_standing.
  assert (forall g, before !! id = Some g -> f_ID g = id) as Hnamed.
  { intros g Hg. unfold before in Hg. rewrite standing_on_open in Hg. by destruct (wf_named _ _ (wf_replay _ Hpolicy _ _) _ _ Hg) as [-> _]. }
  split.
  - intros ((Hb & Ha & Hr) & <-). rewrite Hb, decide_False; [done|]. rewrite Hr. intros [?|[? ?]]; done.
  - destruct (before !! id) as [g|] eqn:E; [|done]. case_decide as Hd; [done|]. intros [= <-]. pose proof (Hnamed g eq_refl) as <-.
    split; [|done]. split_and!; [done|tauto|]. apply eq_None_not_Some. tauto.
Qed.

(** The decision of a committed verdict, and what it lists. *)
Lemma committed_shape :
  (Decision candidate <> VerdictPass -> Decision committed = Decision candidate /\
     (Findings committed = Findings next \/ Findings committed = appendMissing substantive (Findings next) S)) /\
  (Decision candidate = VerdictPass ->
     Decision committed = VerdictPass /\ (S = [] \/ Synthesized candidate = true) \/
     Decision committed = VerdictNeedsChanges /\ exists p, Findings committed = appendMissing substantive (List.filter p (Findings next)) S /\
       forall f g, f ∈ S -> FindingID g = f_ID f -> p g = false).
Proof.
  unfold S, committed, Commit, Fold. change (HeadSHA (stamped _ _ _ _)) with (HeadSHA candidate).
  destruct (String.eqb_spec (HeadSHA candidate) "") as [|_]; [done|]. fold next. cbn [fst Decision Findings StandingFindings].
  set (st := List.filter _ (Outstanding _ _ _)). change (Decision next) with (Decision candidate). change (Synthesized next) with (Synthesized candidate).
  split.
  - intros Hne. destruct (String.eqb_spec (Decision candidate) VerdictPass) as [|_]; [done|]. rewrite andb_false_r. split; [done|].
    destruct (_ && _); auto.
  - intros ->. rewrite String.eqb_refl. cbn [orb]. rewrite !andb_true_r.
    destruct st as [|f st'] eqn:Est; [left; cbn; auto|]. cbn [length Nat.ltb Nat.leb andb].
    destruct (Synthesized candidate); cbn [negb]; [by left; auto|]. right. split; [done|]. eexists. split; [done|].
    intros g h Hg Hid. apply negb_false_iff, bool_decide_eq_true, elem_of_union. right. apply elem_of_list_to_set.
    rewrite Hid, list_elem_of_In. by apply in_map, list_elem_of_In.
Qed.

Lemma under_none_allowed id fs : (forall f, f ∈ fs -> allowed f = false) -> under id fs = [].
Proof. intros H. apply under_nil. intros f Hf Ha. by rewrite H in Ha. Qed.

Lemma notes_hidden p id : no_notes candidate -> Decision candidate = VerdictPass -> under id (List.filter p (Findings next)) = [].
Proof.
  intros Hn Hp. apply under_none_allowed. intros f Hf. rewrite list_elem_of_In, filter_In in Hf. destruct Hf as [Hf _].
  apply in_map_iff in Hf as (f0 & <- & Hf0). rewrite stamp_allowed. apply Hn; [done|]. by apply list_elem_of_In.
Qed.
(** What no finding of the candidate replaces. *)
Lemma standing_rest id :
  raises candidate id = None ->
  match last (under id S) with Some f => Some (set_id id f) | None => None end
  = match before !! id with Some f => if decide (answers candidate f) then None else Some f | None => None end.
Proof.
  intros Hr. rewrite standing_last. destruct (before !! id) as [g|] eqn:E; [|done]. rewrite Hr.
  destruct (decide (answers candidate g)) as [Ha|Ha]; [by rewrite decide_True by auto|].
  rewrite decide_False by (intros [?|[? ?]]; done). f_equal. unfold before in E. rewrite standing_on_open in E.
  destruct (wf_named _ _ (wf_replay _ Hpolicy _ _) _ _ E) as [<- _]. apply set_id_same.
Qed.
(** What a candidate that is no pass raises comes first. *)
Lemma listed_own id :
  Decision candidate <> VerdictPass ->
  last (under id (Findings committed)) = match last (under id (Findings next)) with
    | Some f => Some f
    | None => if decide (Findings committed = Findings next) then None else last (under id S)
    end.
Proof.
  intros Hp. destruct (decide (Findings committed = Findings next)) as [->|Hne]; [by destruct (last (under id (Findings next)))|].
  destruct (proj1 committed_shape Hp) as [_ [?| ->]]; [done|]. apply appendMissing_last; [apply distinct_standing|].
  intros f (_ & _ & Hr)%elem_of_standing. unfold raises in Hr. rewrite (proj2 (String.eqb_neq _ _) Hp) in Hr. apply last_None in Hr.
  unfold next, stamped. cbn [Findings]. by rewrite under_stamped, Hr.
Qed.

Lemma commit_lookup id :
  no_notes candidate ->
  standing_on [committed] (HeadSHA committed) !! id =
  match raises candidate id with
  | Some f => Some (instance_of before generation id f)
  | None => match before !! id with Some f => if decide (answers candidate f) then None else Some f | None => None end
  end.
Proof.
  intros Hn. destruct committed_fields as [Hh Hg]. rewrite standing_on_open, snapshot_of_one, apply_empty by congruence. fold S.
  destruct (decide (Decision candidate = VerdictPass)) as [Hp|Hp].
  - assert (raises candidate id = None) as Hr by (unfold raises; by rewrite Hp). rewrite Hr, <- standing_rest by done.
    destruct (proj2 committed_shape Hp) as [[-> _]|[-> (p & -> & _)]]; [done|]. rewrite (proj2 (String.eqb_neq _ _)) by discriminate.
    rewrite (appendMissing_last substantive _ S id distinct_standing) by (intros; by apply notes_hidden). rewrite notes_hidden by done.
    cbn [last]. by destruct (last (under id S)).
  - destruct (proj1 committed_shape Hp) as [-> _]. rewrite (proj2 (String.eqb_neq _ _) Hp), listed_own by done.
    unfold next at 1, stamped at 1. cbn [Findings]. rewrite under_stamped.
    assert (raises candidate id = last (under id (Findings candidate))) as Hr by (unfold raises; by rewrite (proj2 (String.eqb_neq _ _) Hp)).
    rewrite (proj2 (String.eqb_neq _ _) Hp). change (@map Finding Finding) with (@fmap list _ Finding Finding). rewrite fmap_last, <- Hr.
    destruct (raises candidate id) as [f|] eqn:Er; cbn [fmap option_fmap option_map].
    + symmetry in Hr. apply last_Some_elem_of, elem_of_under in Hr as (_ & Ha & <-). f_equal. by apply stamp_instance.
    + rewrite <- standing_rest by done. case_decide; [done|]. by destruct (last (under id S)).
Qed.

(** A committed pass leaves nothing standing. *)
Lemma committed_pass_clean :
  Decision committed = VerdictPass -> Synthesized candidate = false ->
  Decision candidate = VerdictPass /\ standing_on [committed] (HeadSHA committed) = ∅ /\
  forall id f, before !! id = Some f -> answers candidate f.
Proof.
  intros Hc Hs. destruct (decide (Decision candidate = VerdictPass)) as [Hp|Hp]; [|by destruct (proj1 committed_shape Hp) as [E _]; rewrite E in Hc].
  destruct (proj2 committed_shape Hp) as [[_ [HS|?]]|[E _]]; [|congruence|rewrite E in Hc; discriminate]. split_and!; [done| |].
  - destruct committed_fields as [Hh Hg]. apply map_eq. intros id. rewrite standing_on_open, snapshot_of_one, apply_empty by congruence.
    fold S. by rewrite Hc, HS, lookup_empty.
  - intros id f Hb. destruct (decide (answers candidate f)) as [|Ha]; [done|]. exfalso.
    assert (f ∈ S) as Hf; [|rewrite HS in Hf; by apply not_elem_of_nil in Hf]. apply elem_of_standing.
    assert (f_ID f = id) as ->.
    { unfold before in Hb. rewrite standing_on_open in Hb. by destruct (wf_named _ _ (wf_replay _ Hpolicy _ _) _ _ Hb). }
    split_and!; [done|done|]. unfold raises. by rewrite Hp.
Qed.
(** What stood and was not answered still stands, whatever the candidate lists: as
    the instance it was, or as the one the candidate raises. *)
Lemma unanswered_stands id f :
  before !! id = Some f -> ~ answers candidate f ->
  standing_on [committed] (HeadSHA committed) !! id
  = Some (match raises candidate id with Some g => instance_of before generation id g | None => f end).
Proof.
  intros Hb Ha. destruct (decide (Decision candidate = VerdictPass)) as [Hp|Hp].
  2: { rewrite commit_lookup by (by intros ?). rewrite Hb, decide_False by done. by destruct (raises candidate id). }
  assert (raises candidate id = None) as Hr by (unfold raises; by rewrite Hp). rewrite Hr.
  pose proof (standing_rest id Hr) as HS. rewrite Hb, decide_False in HS by done.
  destruct committed_fields as [Hh Hg]. rewrite standing_on_open, snapshot_of_one, apply_empty by congruence. fold S.
  destruct (proj2 committed_shape Hp) as [[-> _]|[-> (p & -> & Hhide)]]; [done|]. rewrite (proj2 (String.eqb_neq _ _)) by discriminate.
  assert (forall g, g ∈ S -> under (f_ID g) (List.filter p (Findings next)) = []) as Hkept.
  { intros g HgS. apply under_nil. intros h [_ Hh']%list_elem_of_In%filter_In _ Hid. by rewrite (Hhide g h HgS Hid) in Hh'. }
  rewrite (appendMissing_last substantive _ S id distinct_standing Hkept).
  destruct (last (under id S)) as [g|] eqn:El; [|done].
  apply (distinct_last _ S id g distinct_standing) in El as [HgS Hgid]. rewrite <- Hgid, (Hkept g HgS) in *. done.
Qed.
End commit.

(** C9: A commit does to the ledger exactly what the verdict says, unless it is a
    pass with findings of its own: what it raises stands, as the same instance if
    it stood unchanged and as a new one otherwise; what stood before stands on as
    it was, unless the verdict answers that very instance; nothing else stands. *)
Theorem commit_is_exact {Digest : ContentDigest} substantive prior candidate generation id :
  ignores_identity substantive -> HeadSHA candidate <> "" -> (0 < generation)%N -> no_notes substantive candidate ->
  standing_on substantive [(Commit substantive prior candidate generation).1] (HeadSHA candidate) !! id =
  let before := standing_on substantive prior (HeadSHA candidate) in
  match raises substantive candidate id with
  | Some f => Some (instance_of before generation id f)
  | None => match before !! id with Some f => if decide (answers candidate f) then None else Some f | None => None end
  end.
Proof.
  intros Hpolicy Hhead Hgen Hn. rewrite <- (commit_lookup substantive Hpolicy prior candidate generation Hhead Hgen id Hn).
  by rewrite (proj1 (committed_fields substantive prior candidate generation Hhead)).
Qed.
