(* ===== verification/VerdictPublication.v ===== *)
(** * Publication of review verdicts: [cmd/goobers/verdictcommit.go]

    The transaction that folds a candidate verdict into the one record a pull
    request has, with its generation, the finding policy of a pull request
    ([internal/remediationselect]), the finding-set history that turns an
    oscillation into an escalation ([applyverdict.go]), and the records a merge
    reads ([verdictstate.go]).  The regular expressions over texts and the digest
    of encoded findings are the class [ReviewText]. *)

From S2P Require Export FindingLedger.
Local Open Scope string_scope.
Local Open Scope list_scope.

Class ReviewText := {
  (** The numbers [PrReferencePattern] and [HashReferencePattern] capture. *)
  pr_references : string -> list string;
  hash_references : string -> list string;
  (** [scopeGateEchoPattern]. *)
  echoes_scope_gate : string -> bool;
  (** A location without its references to pull requests. *)
  without_references : string -> string;
  (** [json.Marshal] of a [canonicalFinding]: severity, class, message, location
      and blocking pull requests. *)
  canonical_finding : string -> string -> string -> string -> list Z -> option string;
  (** The digest of the encoded set. *)
  digest_of_set : list string -> string;
  (** The ETag of the stored bytes of a record. *)
  ETagFor : Verdict -> string
}.

(** ** The findings that concern a pull request *)

Definition SeverityInfo : string := "info".
Definition Rank (s : string) : Z :=
  if s =? SeverityInfo then 1 else if s =? "warning" then 2 else if s =? "error" then 3 else if s =? "critical" then 4 else 0.
Definition FindingRebaseNeeded : string := "rebase-needed".
Definition FindingCrossPRBlocked : string := "cross-pr-blocked".
Definition RequiresCodeChange (class : string) : bool :=
  mem_string class ["conflict"; "substantive"; "missing-tests"; "scope-creep"; "contract-change"].

Section publication.
Context {Digest : ContentDigest} {Text : ReviewText}.

Definition SubstantiveFindingAppliesToPR (f : Finding) (target minSeverity : string) : bool :=
  if negb (f_Class f =? "") && negb (RequiresCodeChange (f_Class f)) then false
  else if negb (f_Severity f =? "") && (Rank (f_Severity f) <? Rank minSeverity)%Z then false
  else
    let refs := pr_references (f_Location f) in
    if (length refs =? 0)%nat || mem_string target refs then true
    else mem_string target (hash_references (f_Message f)).
Definition prFindingPolicy (number : string) : Substantive :=
  Some (fun f => SubstantiveFindingAppliesToPR f number SeverityInfo).

(** ** Oscillation *)

Definition separators : list ascii := [","; ":"; ";"; "("; ")"; " "; "009"; "010"]%char.
Definition locationNamesFile (location : string) : bool :=
  existsb (fun c => negb (bool_decide (c ∈ separators))) (String.list_ascii_of_string (without_references location)).
Definition findingIsRealDefect (f : Finding) : bool :=
  if f_Class f =? FindingCrossPRBlocked then false
  else if f_Class f =? FindingRebaseNeeded then false
  else if mem_string (f_Class f) ["substantive"; "scope-creep"] && echoes_scope_gate (f_Message f) && negb (locationNamesFile (f_Location f))
  then false
  else negb (f_Severity f =? SeverityInfo).
Definition sequencingOnly (fs : list Finding) : bool :=
  negb (existsb findingIsRealDefect fs) && existsb (fun f => f_Class f =? FindingCrossPRBlocked) fs.

Definition blockedOnSiblingLabel : string := "goobers:blocked-on-sibling".
Definition needsRemediationLabel : string := "goobers:needs-remediation".
Definition remediationEscalatedLabel : string := "goobers:merge-escalated".
Definition verdictLabel (decision : string) (fs : list Finding) : string :=
  if decision =? VerdictPass then "goobers:merge-ready"
  else if (decision =? "fail") || (decision =? VerdictEscalate) then remediationEscalatedLabel
  else if sequencingOnly fs then blockedOnSiblingLabel else needsRemediationLabel.

(** [slices.Compact]. *)
Fixpoint slices_Compact {A} `{EqDecision A} (l : list A) : list A :=
  match l with
  | x :: (y :: _) as l' => if decide (x = y) then slices_Compact l' else x :: slices_Compact l'
  | _ => l
  end.
Definition encode_finding (f : Finding) : option string :=
  canonical_finding (f_Severity f) (f_Class f) (f_Message f) (f_Location f)
    (slices_Compact (sort_by Z.leb (default [] (f_BlockingPRs f)))).
Definition findingSetDigest (fs : list Finding) : option string :=
  encoded ← mapM encode_finding fs;
  Some ("sha256:" +:+ digest_of_set (slices_Compact (sort_strings encoded))).

Definition findingSetHistoryLimit : nat := 10.
(** The history with the digest of the findings, and whether it was there before. *)
Definition advanceFindingSetHistory (prior : list string) (fs : list Finding) : option (list string * string * bool) :=
  match findingSetDigest fs with
  | None => None
  | Some digest =>
      match last prior with
      | Some l =>
          if l =? digest then Some (prior, digest, mem_string digest (removelast prior))
          else let hashes := prior ++ [digest] in
               Some (drop (length hashes - findingSetHistoryLimit) hashes, digest, mem_string digest prior)
      | None => Some ([digest], digest, false)
      end
  end.

Definition newlines : string := String "010" (String "010" "").
Definition preserveReviewerRationale (disposition original : string) : string :=
  if original =? "" then disposition
  else disposition +:+ newlines +:+ "Original reviewer rationale:" +:+ newlines +:+ original.

Definition finalizeFindingHistory (prior : list string) (v : Verdict) : option (Verdict * list string) :=
  match advanceFindingSetHistory prior (Findings v) with
  | None => None
  | Some (history, digest, revisited) =>
      Some
        (if revisited && (Decision v =? VerdictNeedsChanges) && (verdictLabel (Decision v) (Findings v) =? needsRemediationLabel)
         then mkVerdict VerdictEscalate "finding-set-oscillation"
                (preserveReviewerRationale
                   ("Finding-set oscillation detected: `" +:+ digest +:+ "` matches an earlier merge-review state. Remediation returned to a prior unresolved finding set, so this PR is escalated instead of spending the remaining repass budget.")
                   (Rationale v))
                (Findings v) (Synthesized v) (HeadSHA v) (BaseSHA v) false (Dispositions v) (LedgerGeneration v) (StandingFindings v)
         else v, history)
  end.

(** ** The transaction *)

Inductive publish_error :=
| ErrPredecessor (head : string) (generation : N)
| ErrExhausted
| ErrFinalize
| ErrInvalid.
Definition MaxUint64 : N := 18446744073709551615.

Definition etag (value : option Verdict) : string := match value with Some v => ETagFor v | None => "" end.
Definition standing_note (ids : list string) : string :=
  "Standing from an earlier review of this head, never resolved or rejected: " +:+ String.concat ", " ids +:+ ".".
Definition set_rationale (r : string) (v : Verdict) : Verdict :=
  mkVerdict (Decision v) (ReasonCode v) r (Findings v) (Synthesized v) (HeadSHA v) (BaseSHA v) (Elected v) (Dispositions v)
    (LedgerGeneration v) (StandingFindings v).
Definition with_note (r : FoldResult) (v : Verdict) : Verdict :=
  if (0 <? length (Standing r))%nat && negb (Contains (Rationale v) (standing_note (Standing r)))
  then set_rationale (TrimSpace (Rationale v +:+ newlines +:+ standing_note (Standing r))) v else v.
Definition max_generation (records : list Verdict) (g : N) : N := fold_left (fun g r => N.max g (LedgerGeneration r)) records g.

(** [commitHeld]: what [Update] writes for the value it found.  [history] is the
    finding-set history of a publication that tracks it; [publishable] is the check
    of the schema and of the encoding. *)
Definition commitHeld (policy : Substantive) (observed : string) (candidate : Verdict) (legacy : list Verdict)
    (history : option (list string)) (publishable : Verdict -> bool) (value : option Verdict)
    : result publish_error (Verdict * FoldResult) :=
  let current := default zero_verdict value in
  if negb (HeadSHA current =? HeadSHA candidate) && negb (etag value =? observed)
  then Error (ErrPredecessor (HeadSHA current) (LedgerGeneration current))
  else
    let prior := legacy ++ option_list value in
    let generation := max_generation prior (LedgerGeneration current) in
    if (generation =? MaxUint64)%N then Error ErrExhausted
    else
      let '(next, folded) := Commit policy prior candidate (generation + 1) in
      let next := with_note folded next in
      match (match history with
             | None => Some next
             | Some h => fst <$> finalizeFindingHistory h next
             end) with
      | None => Error ErrFinalize
      | Some next => if publishable next then Ok (next, folded) else Error ErrInvalid
      end.

(** ** Reading *)

(** [carryOutstandingFindings]. *)
Definition set_findings (fs : list Finding) (v : Verdict) : Verdict :=
  mkVerdict (Decision v) (ReasonCode v) (Rationale v) fs (Synthesized v) (HeadSHA v) (BaseSHA v) (Elected v) (Dispositions v)
    (LedgerGeneration v) (StandingFindings v).
Definition carryOutstandingFindings (policy : Substantive) (records : list Verdict) (latest : Verdict) (forRead : bool)
    : Verdict * list string :=
  let latest := match LatestSnapshot records (HeadSHA latest) with
                | Some snapshot => if (LedgerGeneration latest <=? LedgerGeneration snapshot)%N then snapshot else latest
                | None => latest
                end in
  let '(folded, r) := Fold policy records latest in
  if (length (Standing r) =? 0)%nat then (folded, [])
  else
    let folded := if forRead then set_findings (AppendMissing policy (Findings folded) (StandingFindings folded)) folded else folded in
    let note := standing_note (Standing r) in
    (if Rationale folded =? "" then set_rationale note folded
     else if Contains (Rationale folded) note then folded
     else set_rationale (Rationale folded +:+ newlines +:+ note) folded, Standing r).

(** [verdictRecordsForPR] on the marked comments of the trusted author, parsed:
    where comments are edited in place the oldest one is read last, and the stored
    record after all of them. *)
Definition canonical_last (ado : bool) (comments : list (option Verdict)) : list Verdict :=
  let parsed := omap id comments in
  if ado then parsed else match parsed with [] => [] | canonical :: others => others ++ [canonical] end.
Definition verdictRecordsForPR (ado : bool) (comments : list (option Verdict)) (state : result unit (option Verdict))
    : result unit (list Verdict) :=
  match state with
  | Error e => Error e
  | Ok stored => Ok (canonical_last ado comments ++ option_list stored)
  end.

Inductive refusal := RefuseUnreadable | RefuseStanding (ids : list string).
(** [outstandingFindingMergeRefusals] on the live head. *)
Definition outstandingFindingMergeRefusals (policy : Substantive) (records : result unit (list Verdict)) (head : string) : option refusal :=
  match records with
  | Error _ => Some RefuseUnreadable
  | Ok records =>
      let outstanding := Outstanding policy records head in
      if (length outstanding =? 0)%nat then None else Some (RefuseStanding (map f_ID outstanding))
  end.
End publication.
