(* ===== verification/VerdictPublicationProps.v ===== *)
(** * Published verdicts over time

    The records of a pull request as publications make them, one stored record and
    any number of comments that project earlier ones, and what a merge concludes
    from what it reads. *)

From S2P Require Export FindingCommit VerdictPublication.
Local Open Scope string_scope.
Local Open Scope list_scope.

(** ** Generations *)

Section generations.
Context {Digest : ContentDigest}.
Variable substantive : Substantive.

(** No finding of the record is an instance later than [m]. *)
Definition instances_upto (m : N) (r : Verdict) : Prop :=
  forall f, f ∈ Findings r ++ StandingFindings r -> (f_LedgerGeneration f <= m)%N.

Lemma raise_upto m fs l :
  (forall f, f ∈ fs -> (f_LedgerGeneration f <= m)%N) -> (forall id f, open l !! id = Some f -> (f_LedgerGeneration f <= m)%N) ->
  forall id f, open (raise substantive fs l) !! id = Some f -> (f_LedgerGeneration f <= m)%N.
Proof.
  intros Hfs Hl id f. rewrite raise_lookup. destruct (last (under substantive id fs)) as [g|] eqn:E; [|apply Hl].
  intros [= <-]. apply last_Some_elem_of, elem_of_under in E as [Hg _]. exact (Hfs g Hg).
Qed.
Lemma apply_upto m r l :
  instances_upto m r -> (forall id f, open l !! id = Some f -> (f_LedgerGeneration f <= m)%N) ->
  forall id f, open (apply substantive r l) !! id = Some f -> (f_LedgerGeneration f <= m)%N.
Proof.
  intros Hr Hl. assert (forall id f, open (fold_left answer (Dispositions r) l) !! id = Some f -> (f_LedgerGeneration f <= m)%N) as Hd.
  { revert l Hl. induction (Dispositions r) as [|d ds IH]; intros l Hl; [done|]. cbn [fold_left]. apply IH. intros id f. unfold answer.
    destruct (open l !! TrimSpace (d_FindingID d)) as [g|]; [|apply Hl]. destruct (_ && _); [|apply Hl]. cbn.
    intros [_ Hf]%lookup_delete_Some. by eapply Hl. }
  assert (forall f, f ∈ Findings r -> (f_LedgerGeneration f <= m)%N) by (intros f Hf; apply Hr, elem_of_app; by left).
  assert (forall f, f ∈ StandingFindings r -> (f_LedgerGeneration f <= m)%N) by (intros f Hf; apply Hr, elem_of_app; by right).
  unfold apply. destruct (negb _); repeat (apply raise_upto; [done|]); done.
Qed.
Lemma replay_upto m records head :
  (forall r, r ∈ records -> instances_upto m r) ->
  forall id f, open (replay substantive records head) !! id = Some f -> (f_LedgerGeneration f <= m)%N.
Proof.
  intros Hr. unfold replay. destruct (head =? ""); [cbn; intros id f; by rewrite lookup_empty|].
  assert (forall id f, open empty_ledger !! id = Some f -> (f_LedgerGeneration f <= m)%N) as Hempty by (cbn; intros id f; by rewrite lookup_empty).
  destruct (LatestSnapshot records head) as [s|] eqn:E.
  - apply apply_upto; [|done]. unfold LatestSnapshot in E. destruct (0 <? _)%N eqn:Hp; [|done]. injection E as <-.
    assert (forall z, (z ∈ records \/ z = zero_verdict) -> instances_upto m z) as Hz by (intros z [Hz| ->]; [exact (Hr z Hz)|intros f Hf; by apply not_elem_of_nil in Hf]).
    apply Hz. clear. generalize zero_verdict as z. induction records as [|r rs IH]; intros z; cbn [fold_left]; [by right|].
    destruct (IH (latest_step head z r)) as [Hi|Hi]; [left; by right|]. rewrite Hi. unfold latest_step. destruct (_ && _); [left; left|by right].
  - clear E. revert Hempty. generalize empty_ledger as l. induction records as [|r rs IH]; intros l Hl; [done|]. cbn [fold_left].
    apply IH; [intros s Hs; exact (Hr s (list_elem_of_further _ _ _ Hs))|]. destruct (_ =? _); [|done]. apply apply_upto; [apply Hr; left|done].
Qed.

Lemma append_one_sub s f g : g ∈ (append_one substantive s f).2 -> g ∈ s.2 \/ g = f.
Proof.
  destruct s as [at_ out]. unfold append_one. cbn [snd]. destruct (at_ !! FindingID f) as [i|].
  - destruct (out !! i) as [h|]; [|by left]. destruct (_ && _); [|by left]. cbn. intros [j Hj]%list_elem_of_lookup_1.
    apply list_lookup_insert_Some in Hj as [(_ & -> & _)|[_ Hj]]; [by right|left]. by eapply list_elem_of_lookup_2.
  - cbn. intros [?| ->%list_elem_of_singleton]%elem_of_app; auto.
Qed.
Lemma appendMissing_sub fs extra g : g ∈ appendMissing substantive fs extra -> g ∈ fs \/ g ∈ extra.
Proof.
  unfold appendMissing. change (g ∈ fs) with (g ∈ (first_index fs, fs).2). generalize (first_index fs, fs) as s.
  induction extra as [|f extra IH]; intros s; cbn [fold_left]; [by left|]. intros [Hg|Hg]%IH; [|right; by right].
  apply append_one_sub in Hg as [| ->]; [by left|right; left].
Qed.

(** Every instance of a committed verdict is at most as late as the verdict. *)
Lemma commit_upto m prior candidate g :
  ignores_identity substantive -> (forall r, r ∈ prior -> instances_upto m r) -> (m <= g)%N ->
  instances_upto g (Commit substantive prior candidate g).1.
Proof.
  intros Hpolicy Hr Hm.
  assert (forall head f, f ∈ Outstanding substantive prior head -> (f_LedgerGeneration f <= g)%N) as Hout.
  { intros head f Hf. unfold Outstanding in Hf. apply elem_of_findings with (substantive := substantive) in Hf; [|by apply wf_replay].
    pose proof (replay_upto m prior head Hr _ _ Hf). lia. }
  assert (forall f, f ∈ Findings (stamped substantive prior candidate g) -> (f_LedgerGeneration f <= g)%N) as Hst.
  { intros f Hf. unfold stamped in Hf. cbn [Findings] in Hf. rewrite list_elem_of_In, in_map_iff in Hf. destruct Hf as (f0 & <- & _).
    unfold stamp_finding. destruct (_ || _); [cbn; lia|]. cbn zeta. destruct (_ !! _) as [p|] eqn:Ep; [|cbn; lia].
    destruct (sameFinding _ _); [|cbn; lia]. cbn. fold (standing_on substantive prior (HeadSHA candidate)) in Ep.
    rewrite standing_on_open in Ep by done. pose proof (replay_upto m prior _ Hr _ _ Ep). lia. }
  intros f Hf. unfold Commit, Fold in Hf. destruct (_ =? "").
  { cbn [fst] in Hf. apply elem_of_app in Hf as [Hf|Hf]; [exact (Hst f Hf)|by apply not_elem_of_nil in Hf]. }
  cbn [fst Findings StandingFindings] in Hf. apply elem_of_app in Hf as [Hf|[Hf _]%list_elem_of_In%filter_In]; [|eapply Hout; by apply list_elem_of_In].
  destruct (_ && _); [|by apply Hst]. apply appendMissing_sub in Hf as [Hf|[Hf _]%list_elem_of_In%filter_In]; [|eapply Hout; by apply list_elem_of_In].
  destruct (_ && _); [|by apply Hst]. rewrite list_elem_of_In, filter_In in Hf. destruct Hf as [Hf _]. by apply Hst, list_elem_of_In.
Qed.
Lemma commit_stamps prior candidate g :
  HeadSHA (Commit substantive prior candidate g).1 = HeadSHA candidate /\ LedgerGeneration (Commit substantive prior candidate g).1 = g.
Proof. unfold Commit, Fold. by destruct (_ =? ""). Qed.

(** The stored record speaks for its head, whatever else is read beside it. *)
Lemma latest_is records v :
  HeadSHA v <> "" -> (0 < LedgerGeneration v)%N -> v ∈ records ->
  (forall r, r ∈ records -> r = v \/ (LedgerGeneration r < LedgerGeneration v)%N) ->
  LatestSnapshot records (HeadSHA v) = Some v.
Proof.
  intros Hh Hg Hin Hall. unfold LatestSnapshot.
  assert (forall z, (z = v \/ (LedgerGeneration z < LedgerGeneration v)%N) -> (v ∈ records \/ z = v) ->
    fold_left (latest_step (HeadSHA v)) records z = v) as Hfold.
  { clear Hin. induction records as [|r rs IH]; intros z Hz Hv; cbn [fold_left]; [by destruct Hv as [[]%not_elem_of_nil|]|].
    assert (forall r, r ∈ rs -> r = v \/ (LedgerGeneration r < LedgerGeneration v)%N) as Hall' by (intros s Hs; apply Hall; by right).
    unfold latest_step. destruct (_ && _) eqn:E.
    - apply andb_true_iff in E as [_ Hle%N.leb_le]. apply IH; [done|apply Hall; left|].
      destruct Hv as [[<-|Hv]%elem_of_cons|Hv]; [by right|by left|]. subst z. destruct (Hall r) as [->|Hlt]; [left|by right|lia].
    - apply IH; [done|done|]. destruct Hv as [[<-|Hv]%elem_of_cons|Hv]; [|by left|by right]. exfalso.
      apply not_true_iff_false in E. apply E. rewrite String.eqb_refl, (proj2 (String.eqb_neq _ _) Hh), (proj2 (N.ltb_lt _ _) Hg). cbn.
      apply N.leb_le. destruct Hz as [->|]; lia. }
  rewrite Hfold; [by rewrite (proj2 (N.ltb_lt _ _) Hg)|right; cbn; lia|by left].
Qed.
Lemma replay_latest records v :
  HeadSHA v <> "" -> (0 < LedgerGeneration v)%N -> v ∈ records ->
  (forall r, r ∈ records -> r = v \/ (LedgerGeneration r < LedgerGeneration v)%N) ->
  replay substantive records (HeadSHA v) = replay substantive [v] (HeadSHA v).
Proof.
  intros Hh Hg Hin Hall. rewrite snapshot_of_one by done. unfold replay. rewrite (proj2 (String.eqb_neq _ _) Hh).
  by rewrite latest_is.
Qed.
End generations.

(** ** One publication *)

Section publications.
Context {Digest : ContentDigest} {Text : ReviewText}.
Variable number : string.
Abbreviation policy := (prFindingPolicy number).

Lemma policy_ignores_identity : ignores_identity policy.
Proof. intros []. split; done. Qed.

(** The same ledger under another rationale, or escalated. *)
Record carries (v c : Verdict) : Prop := {
  ca_head : HeadSHA v = HeadSHA c;
  ca_generation : LedgerGeneration v = LedgerGeneration c;
  ca_findings : Findings v = Findings c;
  ca_standing : StandingFindings v = StandingFindings c;
  ca_synthesized : Synthesized v = Synthesized c;
  ca_decision : Decision v = Decision c \/ Decision c = VerdictNeedsChanges /\ Decision v = VerdictEscalate
}.
Lemma carries_pass v c : carries v c -> (Decision v =? VerdictPass) = (Decision c =? VerdictPass).
Proof. intros H. destruct (ca_decision _ _ H) as [->|[-> ->]]; done. Qed.
Lemma carries_standing v c :
  carries v c -> HeadSHA c <> "" -> (0 < LedgerGeneration c)%N -> standing_on policy [v] (HeadSHA c) = standing_on policy [c] (HeadSHA c).
Proof.
  intros Hc Hh Hg. apply map_eq. intros id. rewrite !standing_on_open by apply policy_ignores_identity.
  rewrite <- (ca_head _ _ Hc) at 1. rewrite !snapshot_of_one, !apply_empty by (rewrite ?(ca_head _ _ Hc), ?(ca_generation _ _ Hc); done).
  by rewrite (carries_pass _ _ Hc), (ca_findings _ _ Hc), (ca_standing _ _ Hc).
Qed.

Lemma with_note_carries r c : carries (with_note r c) c.
Proof. unfold with_note. destruct (_ && _); split; auto. Qed.
Lemma finalize_carries h c v history : finalizeFindingHistory h c = Some (v, history) -> carries v c.
Proof.
  unfold finalizeFindingHistory. destruct (advanceFindingSetHistory h (Findings c)) as [[[hs d] revisited]|]; [|done].
  intros [= <- _]. destruct (_ && _) eqn:E; [|split; auto].
  apply andb_true_iff in E as [[_ E%String.eqb_eq]%andb_true_iff _]. split; cbn; auto.
Qed.
Lemma carries_trans a b c : carries a b -> carries b c -> carries a c.
Proof. 
  intros Ha Hb. destruct (ca_decision _ _ Ha) as [Ea|[Ea Ea']], (ca_decision _ _ Hb) as [Eb|[Eb Eb']];
    destruct Ha, Hb; split; first [congruence | left; congruence | right; split; congruence].
Qed.

Lemma max_generation_mono records : forall g, (g <= max_generation records g)%N.
Proof. unfold max_generation. induction records as [|r rs IH]; intros g; cbn [fold_left]; [lia|]. specialize (IH (N.max g (LedgerGeneration r))). lia. Qed.
Lemma max_generation_bound records r : forall g, r ∈ records -> (LedgerGeneration r <= max_generation records g)%N.
Proof.
  unfold max_generation. induction records as [|s rs IH]; intros g Hr; [by apply not_elem_of_nil in Hr|]. cbn [fold_left].
  apply elem_of_cons in Hr as [->|Hr]; [|by apply IH]. pose proof (max_generation_mono rs (N.max g (LedgerGeneration s))) as H.
  unfold max_generation in H. lia.
Qed.

(** What a publication that succeeds stores. *)
Lemma commitHeld_ok observed candidate legacy history publishable value v r :
  commitHeld policy observed candidate legacy history publishable value = Ok (v, r) ->
  let prior := legacy ++ option_list value in
  let generation := (max_generation prior (LedgerGeneration (default zero_verdict value)) + 1)%N in
  carries v (Commit policy prior candidate generation).1.
Proof.
  unfold commitHeld. destruct (_ && _); [done|]. destruct (_ =? MaxUint64)%N; [done|]. cbn zeta.
  destruct (Commit policy _ candidate _) as [c folded]. cbn [fst].
  destruct history as [h|].
  - destruct (finalizeFindingHistory h (with_note folded c)) as [[v' hs]|] eqn:E; cbn; [|done]. destruct (publishable v'); [|done].
    intros [= <- _]. eapply carries_trans; [by eapply finalize_carries|apply with_note_carries].
  - cbn. destruct (publishable _); [|done]. intros [= <- _]. apply with_note_carries.
Qed.

(** ** Histories *)

(** The stored record, and all that was ever published: the stored records and the
    records of earlier versions, which know no generations. *)
Record world := mkWorld { w_slot : option Verdict; w_published : list Verdict }.

Inductive publication : world -> list Verdict -> world -> Prop :=
| publish_verdict w observed candidate legacy history publishable v r :
    (forall x, x ∈ legacy -> x ∈ w_published w) ->
    commitHeld policy observed candidate legacy history publishable (w_slot w) = Ok (v, r) ->
    publication w [candidate] (mkWorld (Some v) (v :: w_published w))
| publish_legacy w v :
    LedgerGeneration v = 0%N -> instances_upto 0 v ->
    publication w [] (mkWorld (w_slot w) (v :: w_published w)).
(** Publications one after the other, with the candidates they published. *)
Inductive publications : world -> list Verdict -> world -> Prop :=
| publications_nil w : publications w [] w
| publications_cons w cs w' cs' w'' : publication w cs w' -> publications w' cs' w'' -> publications w (cs ++ cs') w''.

Definition initial : world := mkWorld None [].

Definition stored_generation (w : world) : N := LedgerGeneration (default zero_verdict (w_slot w)).
Record consistent (w : world) : Prop := {
  co_upto r : r ∈ w_published w -> instances_upto (stored_generation w) r;
  co_none r : w_slot w = None -> r ∈ w_published w -> LedgerGeneration r = 0%N;
  co_slot v : w_slot w = Some v -> (0 < LedgerGeneration v)%N /\ v ∈ w_published w;
  co_latest v r : w_slot w = Some v -> r ∈ w_published w -> r = v \/ (LedgerGeneration r < LedgerGeneration v)%N
}.
Lemma consistent_initial : consistent initial.
Proof. split; cbn; try done; intros r; [|intros _]; by intros ?%not_elem_of_nil. Qed.

Lemma consistent_bound w : consistent w -> forall x, x ∈ w_published w -> (LedgerGeneration x <= stored_generation w)%N.
Proof.
  intros [_ Hn _ Hl] x Hx. unfold stored_generation. destruct (w_slot w) as [v|] eqn:E; cbn.
  - destruct (Hl v x eq_refl Hx) as [->|]; lia.
  - rewrite (Hn x eq_refl Hx). lia.
Qed.
Lemma consistent_publication w cs w' : consistent w -> publication w cs w' -> consistent w'.
Proof.
  intros Hw Hp. revert Hw. destruct Hp as [w0 observed candidate legacy history publishable v r Hlegacy Hc|w0 v Hg Hv]; intros [Hu Hn Hs Hl].
  - apply commitHeld_ok in Hc. set (prior := legacy ++ option_list (w_slot w0)) in Hc.
    set (m := max_generation prior (LedgerGeneration (default zero_verdict (w_slot w0)))) in Hc.
    assert (LedgerGeneration v = (m + 1)%N) as Hgen by (rewrite (ca_generation _ _ Hc); apply commit_stamps).
    assert (stored_generation w0 <= m)%N as Hm by apply max_generation_mono.
    assert (forall x, x ∈ w_published w0 -> (LedgerGeneration x <= m)%N) as Hbound.
    { intros x Hx. pose proof (consistent_bound w0 (Build_consistent _ Hu Hn Hs Hl) x Hx). lia. }
    assert (forall x, x ∈ prior -> x ∈ w_published w0) as Hprior.
    { intros x [Hx|Hx]%elem_of_app; [by apply Hlegacy|]. destruct (w_slot w0) as [v0|] eqn:E; [|by apply not_elem_of_nil in Hx].
      cbn in Hx. apply list_elem_of_singleton in Hx as ->. by apply Hs. }
    split; unfold stored_generation; cbn [w_slot w_published default from_option id].
    + intros x [->|Hx]%elem_of_cons f Hf.
      * rewrite Hgen. rewrite (ca_findings _ _ Hc), (ca_standing _ _ Hc) in Hf.
        apply (commit_upto policy m prior candidate (m + 1) policy_ignores_identity); [|lia|done].
        intros y Hy g Hg. specialize (Hu y (Hprior y Hy) g Hg). lia.
      * specialize (Hu x Hx f Hf). rewrite Hgen. lia.
    + done.
    + intros x [= <-]. rewrite Hgen. split; [lia|left].
    + intros x y [= <-] [->|Hy]%elem_of_cons; [by left|right]. rewrite Hgen. specialize (Hbound y Hy). lia.
  - split; unfold stored_generation in *; cbn [w_slot w_published] in *.
    + intros x [->|Hx]%elem_of_cons; [|by apply Hu]. intros f Hf. specialize (Hv f Hf). lia.
    + intros x Hnone [->|Hx]%elem_of_cons; auto.
    + intros x Hx. destruct (Hs x Hx). split; [done|by right].
    + intros x y Hx [->|Hy]%elem_of_cons; [right; rewrite Hg; by apply Hs|by apply Hl].
Qed.
Lemma consistent_publications w cs w' : publications w cs w' -> consistent w -> consistent w'.
Proof. induction 1; eauto using consistent_publication. Qed.

(** ** What a merge reads *)

Lemma standing_reads w v records :
  consistent w -> w_slot w = Some v -> HeadSHA v <> "" -> v ∈ records -> (forall r, r ∈ records -> r ∈ w_published w) ->
  replay policy records (HeadSHA v) = replay policy [v] (HeadSHA v).
Proof.
  intros Hw Hv Hh Hin Hsub. destruct (co_slot _ Hw v Hv) as [Hg _]. apply replay_latest; auto.
  intros r Hr. by apply (co_latest _ Hw v r Hv), Hsub.
Qed.

Definition clean (v : Verdict) : Prop :=
  HeadSHA v <> "" -> Decision v = VerdictPass -> Synthesized v = false -> standing_on policy [v] (HeadSHA v) = ∅.
Lemma committed_clean v prior candidate g :
  (0 < g)%N -> carries v (Commit policy prior candidate g).1 -> clean v.
Proof.
  intros Hg Hc Hh Hd Hs. destruct (commit_stamps policy prior candidate g) as [Ech Ecg].
  assert (HeadSHA candidate <> "") as Hh' by (rewrite <- Ech, <- (ca_head _ _ Hc); done).
  rewrite (ca_head _ _ Hc), (carries_standing _ _ Hc) by (rewrite ?Ech, ?Ecg; done).
  pose proof (carries_pass _ _ Hc) as Hp. rewrite Hd in Hp. symmetry in Hp. apply String.eqb_eq in Hp.
  assert (Synthesized candidate = false) as Hs'.
  { rewrite <- Hs, (ca_synthesized _ _ Hc). unfold Commit, Fold. by destruct (_ =? ""). }
  apply (committed_pass_clean policy policy_ignores_identity prior candidate g Hh' Hg Hp Hs').
Qed.
Lemma clean_publications w cs w' :
  publications w cs w' -> (forall v, w_slot w = Some v -> clean v) -> forall v, w_slot w' = Some v -> clean v.
Proof.
  induction 1 as [w|w cs w' cs' w'' Hp _ IH]; [done|]. intros Hw. apply IH. clear IH. revert Hw.
  destruct Hp as [w observed candidate legacy history publishable x r _ Hc|w x _ _]; intros Hw v; [|apply Hw].
  intros [= <-]. apply commitHeld_ok in Hc. eapply committed_clean; [|exact Hc]. lia.
Qed.

Lemma outstanding_nil records head : Outstanding policy records head = [] <-> standing_on policy records head = ∅.
Proof.
  pose proof (wf_replay policy policy_ignores_identity records head) as Hwf. rewrite standing_on_open by apply policy_ignores_identity.
  unfold Outstanding. split.
  - intros E. apply map_empty. intros id. destruct (open (replay policy records head) !! id) as [f|] eqn:Ef; [|done].
    destruct (wf_named _ _ Hwf _ _ Ef) as [<- _]. apply (elem_of_findings policy) in Ef; [|done]. rewrite E in Ef. by apply not_elem_of_nil in Ef.
  - intros E. destruct (findings (replay policy records head)) as [|f fs] eqn:Ef; [done|].
    assert (f ∈ findings (replay policy records head)) as Hf by (rewrite Ef; left). apply (elem_of_findings policy) in Hf; [|done].
    by rewrite E, lookup_empty in Hf.
Qed.

Lemma canonical_sub ado comments (r : Verdict) : r ∈ canonical_last ado comments -> Some r ∈ comments.
Proof.
  assert (forall x : Verdict, x ∈ omap id comments -> Some x ∈ comments) as Hom.
  { intros x Hx. apply list_elem_of_omap in Hx as (o & Ho & E). cbn in E. by subst o. }
  unfold canonical_last. destruct ado; [apply Hom|]. destruct (omap id comments) as [|c others]; [by intros ?%not_elem_of_nil|].
  intros Hr. apply Hom. apply elem_of_app in Hr as [Hr|Hr%list_elem_of_singleton]; [by right|subst; left].
Qed.

(** C33: A merge concludes from the comments and the stored record exactly what the
    stored record says: whatever earlier verdicts the comments still show, in
    whatever order, the merge is refused with exactly the findings that stand in
    the stored record; and a stored pass that a reviewer gave never has one. *)
Theorem merge_follows_the_ledger w cs v ado comments :
  publications initial cs w -> w_slot w = Some v -> HeadSHA v <> "" -> (forall r, Some r ∈ comments -> r ∈ w_published w) ->
  outstandingFindingMergeRefusals policy (verdictRecordsForPR ado comments (Ok (w_slot w))) (HeadSHA v)
  = match map f_ID (Outstanding policy [v] (HeadSHA v)) with [] => None | ids => Some (RefuseStanding ids) end /\
  (Decision v = VerdictPass -> Synthesized v = false -> Outstanding policy [v] (HeadSHA v) = []).
Proof.
  intros Hrun Hv Hh Hcomments. pose proof (consistent_publications _ _ _ Hrun consistent_initial) as Hw. split.
  - rewrite Hv. cbn [verdictRecordsForPR outstandingFindingMergeRefusals option_list]. unfold Outstanding.
    rewrite (standing_reads w v); [by destruct (findings (replay policy [v] (HeadSHA v)))|done|done|done|apply elem_of_app; right; left|].
    intros r [Hr|Hr%list_elem_of_singleton]%elem_of_app; [by apply Hcomments, (canonical_sub ado)|subst r; by apply (co_slot _ Hw)].
  - intros Hd Hs. apply outstanding_nil. eapply clean_publications; [exact Hrun|done|done|done|done|done].
Qed.

(** ** How long a finding stands *)

Lemma answered_by ds id g : answeredIDs ds !! id = Some g ->
  exists d, d ∈ ds /\ Answers d = true /\ TrimSpace (d_FindingID d) = id /\ d_FindingGeneration d = g.
Proof.
  unfold answeredIDs. induction ds as [|d ds IH] using rev_ind; [done|]. rewrite fold_left_app. cbn [fold_left].
  destruct (Answers d) eqn:Ha.
  - intros [[<- <-]|[_ Hi]]%lookup_insert_Some; [exists d; split_and!; try done; apply elem_of_app; right; left|].
    destruct (IH Hi) as (d' & Hd & ?). exists d'. split; [apply elem_of_app; by left|done].
  - intros Hi. destruct (IH Hi) as (d' & Hd & ?). exists d'. split; [apply elem_of_app; by left|done].
Qed.

Lemma stands_over_publication w cs w' v id f :
  consistent w -> publication w cs w' -> w_slot w = Some v -> HeadSHA v <> "" -> (forall c, c ∈ cs -> HeadSHA c = HeadSHA v) ->
  standing_on policy [v] (HeadSHA v) !! id = Some f ->
  (exists v' f', w_slot w' = Some v' /\ HeadSHA v' = HeadSHA v /\ standing_on policy [v'] (HeadSHA v) !! id = Some f' /\
     (f_LedgerGeneration f <= f_LedgerGeneration f')%N) \/
  (exists c d, c ∈ cs /\ d ∈ Dispositions c /\ Answers d = true /\ TrimSpace (d_FindingID d) = id /\
     d_FindingGeneration d = f_LedgerGeneration f).
Proof.
  intros Hw Hp Hv Hh Hcs Hf. revert Hw Hv Hcs. destruct Hp as [w observed candidate legacy history publishable x r Hlegacy Hc|w x _ _]; intros Hw Hv Hcs.
  2: { left. exists v, f. by split_and!. }
  apply commitHeld_ok in Hc. rewrite Hv in Hc. change (carries x (Commit policy (legacy ++ [v]) candidate (max_generation (legacy ++ [v]) (LedgerGeneration v) + 1)%N).1) in Hc. pose proof (Hcs candidate ltac:(left)) as Ech.
  set (prior := legacy ++ [v]) in *. set (g := (max_generation prior (LedgerGeneration v) + 1)%N) in *.
  assert (forall y, y ∈ prior -> y ∈ w_published w) as Hprior.
  { intros y [Hy|Hy%list_elem_of_singleton]%elem_of_app; [by apply Hlegacy|subst y; by apply (co_slot _ Hw)]. }
  assert (standing_on policy prior (HeadSHA candidate) !! id = Some f) as Hb.
  { rewrite Ech, standing_on_open by apply policy_ignores_identity. rewrite (standing_reads w v) by (try done; apply elem_of_app; right; left).
    by rewrite <- standing_on_open by apply policy_ignores_identity. }
  assert (f_ID f = id /\ (f_LedgerGeneration f <= LedgerGeneration v)%N) as [Hid Hfg].
  { rewrite standing_on_open in Hf by apply policy_ignores_identity.
    split; [by destruct (wf_named _ _ (wf_replay _ policy_ignores_identity _ _) _ _ Hf)|].
    eapply (replay_upto policy _ [v]); [|exact Hf]. intros y ->%list_elem_of_singleton. pose proof (co_upto _ Hw v) as Hu.
    unfold stored_generation in Hu. rewrite Hv in Hu. apply Hu. by apply (co_slot _ Hw). }
  destruct (decide (answers candidate f)) as [Ha|Ha].
  { right. unfold answers in Ha. rewrite Hid in Ha. destruct (answered_by _ _ _ Ha) as (d & Hd & Hans & Htrim & Hgen).
    exists candidate, d. split_and!; [left|done..]. }
  left. assert (LedgerGeneration v <= g)%N as Hvg by (pose proof (max_generation_mono prior (LedgerGeneration v)); unfold g; lia).
  assert (HeadSHA candidate <> "") as Hch by (by rewrite Ech). assert (0 < g)%N as Hg by (unfold g; lia).
  pose proof (unanswered_stands policy policy_ignores_identity prior candidate g Hch Hg id f Hb Ha) as Hst.
  destruct (commit_stamps policy prior candidate g) as [Eh Eg]. rewrite <- (carries_standing _ _ Hc), Eh, Ech in Hst by (rewrite ?Eh, ?Eg; done).
  eexists x, _. split_and!; [done|by rewrite (ca_head _ _ Hc), Eh|exact Hst|].
  destruct (raises policy candidate id) as [h|]; [|lia]. unfold instance_of. rewrite Ech in Hb. rewrite Hb. cbn. destruct (sameFinding _ _); lia.
Qed.

(** C8: Nothing but an answer clears a finding.  Through any publications on the
    head of the stored record, by any reviewers, racing or stale, with any of the
    earlier verdicts before them, a finding that stands goes on standing, unless
    one of the verdicts published since resolves or rejects it in a complete
    answer to this instance of it or to a later one. *)
Theorem findings_stand_until_answered w cs v w' cs' id f :
  publications initial cs w -> w_slot w = Some v -> HeadSHA v <> "" -> standing_on policy [v] (HeadSHA v) !! id = Some f ->
  publications w cs' w' -> (forall c, c ∈ cs' -> HeadSHA c = HeadSHA v) ->
  (exists v', w_slot w' = Some v' /\ HeadSHA v' = HeadSHA v /\ is_Some (standing_on policy [v'] (HeadSHA v) !! id)) \/
  (exists c d, c ∈ cs' /\ d ∈ Dispositions c /\ Answers d = true /\ TrimSpace (d_FindingID d) = id /\
     (f_LedgerGeneration f <= d_FindingGeneration d)%N).
Proof.
  intros Hrun Hv Hh Hf Hrun' Hcs. pose proof (consistent_publications _ _ _ Hrun consistent_initial) as Hw. clear Hrun.
  revert v f Hw Hv Hh Hf Hcs. induction Hrun' as [w|w c1 w1 c2 w2 Hp Hrest IH]; intros v f Hw Hv Hh Hf Hcs.
  { left. exists v. split_and!; [done|done|by exists f]. }
  destruct (stands_over_publication w c1 w1 v id f) as [(v' & f' & Hv' & Hh' & Hf' & Hle)|(c & d & Hc & Hd & Ha & Ht & Hg)]; try done.
  { intros c Hc. apply Hcs, elem_of_app. by left. }
  - rewrite <- Hh' in Hf', Hh. destruct (IH v' f') as [(v2 & Hv2 & Hh2 & Hst)|(c & d & Hc & ? & ? & ? & ?)]; try done.
    + by eapply consistent_publication.
    + intros c Hc. rewrite Hh'. apply Hcs, elem_of_app. by right.
    + left. exists v2. rewrite <- Hh'. done.
    + right. exists c, d. split_and!; [apply elem_of_app; by right|done..|lia].
  - right. exists c, d. split_and!; [apply elem_of_app; by left|done..|lia].
Qed.
End publications.

(** ** A review, a silent pass and an answer

    Verdicts on one head, published one after the other: the witnesses of the
    theorems on the ledger, and a pass whose notes end up blocking the merge. *)

Module VerdictExample.

#[local] Instance fixed_digest : ContentDigest.
Proof. refine {| content_digest _ _ _ _ := "0" |}. intros. vm_compute. reflexivity. Defined.
#[local] Instance plain_text : ReviewText := {|
  pr_references _ := []; hash_references _ := []; echoes_scope_gate _ := false; without_references s := s;
  canonical_finding _ _ message _ _ := Some message; digest_of_set := String.concat ","; ETagFor v := HeadSHA v |}.

Definition finding (id severity : string) : Finding := mkFinding id 0 "" "" "" severity (id +:+ " is wrong") "" "" None.
Definition verdict (decision : string) (fs : list Finding) (ds : list FindingDisposition) : Verdict :=
  mkVerdict decision "" "" fs false "h1" "b1" false ds 0 [].
Definition resolve (id : string) (g : N) : FindingDisposition := mkDisposition id g FindingResolved "a.go:7" "".

Definition review : Verdict := verdict VerdictNeedsChanges [finding "x" "error"] [].
Definition silent : Verdict := verdict VerdictPass [] [].
Definition resolved : Verdict := verdict VerdictPass [] [resolve " x " 1].
(** A pass that remarks on something else. *)
Definition remark : Verdict := verdict VerdictPass [finding "n" "info"] [].

Definition commit (candidate : Verdict) (value : option Verdict) : result publish_error (Verdict * FoldResult) :=
  commitHeld (prFindingPolicy "7") "" candidate [] None (fun _ => true) value.
Definition stored (candidate : Verdict) (value : option Verdict) : Verdict :=
  match commit candidate value with Ok (v, _) => v | Error _ => zero_verdict end.

Definition reviewed : Verdict := stored review None.
Definition passed : Verdict := stored silent (Some reviewed).
Definition answered : Verdict := stored resolved (Some reviewed).

Definition w1 : world := mkWorld (Some reviewed) [reviewed].
Lemma run_of_review : publications "7" initial [review] w1.
Proof.
  apply (publications_cons "7" initial [review] w1 [] w1); [|constructor].
  by eapply (publish_verdict "7" initial "" review [] None (fun _ => true)); [set_solver|vm_compute].
Qed.
Definition w2 (candidate : Verdict) : world := mkWorld (Some (stored candidate (Some reviewed))) [stored candidate (Some reviewed); reviewed].
Lemma run_of_silent : publications "7" w1 [silent] (w2 silent).
Proof.
  apply (publications_cons "7" w1 [silent] (w2 silent) [] (w2 silent)); [|constructor].
  by eapply (publish_verdict "7" w1 "" silent [] None (fun _ => true)); [set_solver|vm_compute].
Qed.
Lemma run_of_resolved : publications "7" initial [review; resolved] (w2 resolved).
Proof.
  apply (publications_cons "7" initial [review] w1 [resolved] (w2 resolved)).
  - by eapply (publish_verdict "7" initial "" review [] None (fun _ => true)); [set_solver|vm_compute].
  - apply (publications_cons "7" w1 [resolved] (w2 resolved) [] (w2 resolved)); [|constructor].
    by eapply (publish_verdict "7" w1 "" resolved [] None (fun _ => true)); [set_solver|vm_compute].
Qed.

Lemma commit_is_exact_witness :
  standing_on (prFindingPolicy "7") [reviewed] "h1" !! "x" = Some (set_generation 1 (finding "x" "error")) /\
  standing_on (prFindingPolicy "7") [(Commit (prFindingPolicy "7") [reviewed] resolved 2).1] "h1" !! "x" = None.
Proof.
  split; [by vm_compute|].
  change "h1" with (HeadSHA resolved). rewrite (commit_is_exact (prFindingPolicy "7") [reviewed] resolved 2 "x").
  - by vm_compute.
  - intros []. split; done.
  - discriminate.
  - lia.
  - intros _ f Hf. by apply not_elem_of_nil in Hf.
Defined.

Lemma findings_stand_until_answered_witness :
  Decision passed = VerdictNeedsChanges /\
  ((exists v', w_slot (w2 silent) = Some v' /\ HeadSHA v' = HeadSHA reviewed /\
      is_Some (standing_on (prFindingPolicy "7") [v'] (HeadSHA reviewed) !! "x")) \/
   (exists c d, c ∈ [silent] /\ d ∈ Dispositions c /\ Answers d = true /\ TrimSpace (d_FindingID d) = "x" /\
     (f_LedgerGeneration (set_generation 1 (finding "x" "error")) <= d_FindingGeneration d)%N)).
Proof.
  split; [by vm_compute|].
  apply (findings_stand_until_answered "7" w1 [review] reviewed (w2 silent) [silent] "x" (set_generation 1 (finding "x" "error"))).
  - exact run_of_review.
  - reflexivity.
  - discriminate.
  - by vm_compute.
  - exact run_of_silent.
  - intros c ->%list_elem_of_singleton. reflexivity.
Defined.

Lemma merge_follows_the_ledger_witness :
  outstandingFindingMergeRefusals (prFindingPolicy "7") (verdictRecordsForPR false [Some reviewed; None] (Ok (w_slot (w2 resolved)))) "h1" = None.
Proof.
  destruct (merge_follows_the_ledger "7" (w2 resolved) [review; resolved] answered false [Some reviewed; None]) as [Hm _].
  - exact run_of_resolved.
  - reflexivity.
  - discriminate.
  - intros r [[= ->]|[[=]|Hr%not_elem_of_nil]%elem_of_cons]%elem_of_cons; [|done]. right. left.
  - change "h1" with (HeadSHA answered). rewrite Hm. by vm_compute.
Defined.

(** The remark of a pass can block the merge.  A pass raises nothing, the
    ledger says, and no verdict but a pass ever mentioned [n]; but a pass that
    leaves an earlier finding standing is stored as a verdict that asks for changes
    and keeps its remark, which therefore stands: when the next pass answers the
    earlier finding completely, it is downgraded again and the merge is refused
    for the remark alone. *)
Theorem remark_of_a_pass_blocks_the_merge :
  let remarked := stored remark (Some reviewed) in
  let last := stored resolved (Some remarked) in
  map f_ID (Outstanding (prFindingPolicy "7") [remark] "h1") = [] /\
  map f_ID (Outstanding (prFindingPolicy "7") [remarked] "h1") = ["x"; "n"] /\
  Decision last = VerdictNeedsChanges /\
  outstandingFindingMergeRefusals (prFindingPolicy "7") (verdictRecordsForPR false [] (Ok (Some last))) "h1" = Some (RefuseStanding ["n"]).
Proof. by vm_compute. Qed.

End VerdictExample.
