(* ===== verification/CanonicalJSON.v ===== *)
(** * Canonical JSON: [internal/jcs]

    The canonical serialization of RFC 8785.  Texts are lists of code points and
    bytes are [N].  The decoder of [encoding/json] is the class [JSONDecode]: the
    value of a document, its strings decoded and its numbers as written.  Doubles
    are the class [Doubles]: [strconv.ParseFloat] on finite doubles, and the
    shortest digits [strconv.FormatFloat] gives. *)

From S2P Require Export GoStrings.
Local Open Scope list_scope.
Local Open Scope N_scope.

Unset Elimination Schemes.
Inductive json :=
| JNull
| JBool (b : bool)
| JNumber (text : list N)
| JString (s : list N)
| JArray (l : list json)
| JObject (ms : list (list N * json)).
Set Elimination Schemes.

Class Doubles := {
  Double : Type;
  (** [None] is an error, an infinity or not a number. *)
  parse_double : list N -> option Double;
  is_zero : Double -> bool;
  is_negative : Double -> bool;
  (** The digits of [FormatFloat(|v|, 'e', -1, 64)], without the point, and its
      exponent. *)
  shortest : Double -> list N * Z
}.
Class JSONDecode := decode_json : list N -> option json.

(** ** Numbers *)

(** [strconv.Itoa] of a number that is not negative. *)
Fixpoint decimal (fuel : nat) (n : N) : list N :=
  match fuel with
  | O => []
  | S f => if n <? 10 then [48 + n] else decimal f (n / 10) ++ [48 + n mod 10]
  end.
Definition Itoa (n : N) : list N := decimal (S (N.size_nat n)) n.

Section jcs.
Context {D : Doubles} {Decode : JSONDecode}.

Definition format_digits (digits : list N) (e : Z) : list N :=
  let k := Z.of_nat (length digits) in
  let n := (e + 1)%Z in
  if ((k <=? n) && (n <=? 21))%Z then digits ++ replicate (Z.to_nat (n - k)) 48
  else if ((0 <? n) && (n <=? 21))%Z then take (Z.to_nat n) digits ++ [46] ++ drop (Z.to_nat n) digits
  else if ((-6 <? n) && (n <=? 0))%Z then [48; 46] ++ replicate (Z.to_nat (- n)) 48 ++ digits
  else
    let expSign := if (n - 1 <? 0)%Z then 45 else 43 in
    let exp := Itoa (Z.to_N (Z.abs (n - 1))) in
    if (k =? 1)%Z then digits ++ [101; expSign] ++ exp
    else take 1 digits ++ [46] ++ drop 1 digits ++ [101; expSign] ++ exp.

Definition formatNumber (number : list N) : option (list N) :=
  match parse_double number with
  | None => None
  | Some v =>
      if is_zero v then Some [48]
      else
        let '(digits, e) := shortest v in
        Some ((if is_negative v then [45] else []) ++ format_digits digits e)
  end.

(** ** Strings *)

Definition hex (d : N) : N := if d <? 10 then 48 + d else 87 + d.
Definition escape (r : N) : list N :=
  if r =? 34 then [92; 34]
  else if r =? 92 then [92; 92]
  else if r =? 8 then [92; 98]
  else if r =? 12 then [92; 102]
  else if r =? 10 then [92; 110]
  else if r =? 13 then [92; 114]
  else if r =? 9 then [92; 116]
  else if r <? 32 then [92; 117; 48; 48; hex (r / 16); hex (r mod 16)]
  else [r].
Definition writeString (s : list N) : list N := [34] ++ concat (map escape s) ++ [34].

(** ** Members *)

(** [utf16.Encode] of one rune. *)
Definition utf16_units (r : N) : list N :=
  if between 65536 1114111 r then [55296 + (r - 65536) / 1024; 56320 + (r - 65536) mod 1024]
  else if (r <? 55296) || between 57344 65535 r then [r]
  else [65533].
Definition units (key : list N) : list N := concat (map utf16_units key).

Fixpoint lessUTF16 (a b : list N) : bool :=
  match a, b with
  | x :: a', y :: b' => if negb (x =? y) then x <? y else lessUTF16 a' b'
  | [], _ :: _ => true
  | _, [] => false
  end.
Definition member : Type := list N * list N.
Definition member_le (a b : member) : bool := negb (lessUTF16 (units b.1) (units a.1)).
Definition member_text (m : member) : list N := writeString m.1 ++ [58] ++ m.2.

Fixpoint joined (ts : list (list N)) : list N :=
  match ts with
  | [] => []
  | [t] => t
  | t :: ts => t ++ [44] ++ joined ts
  end.

(** ** Values *)

Definition maxDepth : nat := 64.
Definition null_text : list N := [110; 117; 108; 108].
Definition bool_text (b : bool) : list N := if b then [116; 114; 117; 101] else [102; 97; 108; 115; 101].

Fixpoint writeValue (depth : nat) (v : json) : option (list N) :=
  if (maxDepth <? depth)%nat then None
  else match v with
  | JNull => Some null_text
  | JBool b => Some (bool_text b)
  | JNumber text => formatNumber text
  | JString s => Some (writeString s)
  | JArray l =>
      let fix items (l : list json) : option (list (list N)) :=
        match l with
        | [] => Some []
        | x :: l =>
            match writeValue (S depth) x with
            | None => None
            | Some t => match items l with Some ts => Some (t :: ts) | None => None end
            end
        end in
      match items l with Some ts => Some ([91] ++ joined ts ++ [93]) | None => None end
  | JObject ms =>
      let fix members (seen : list (list N)) (ms : list (list N * json)) : option (list member) :=
        match ms with
        | [] => Some []
        | (key, x) :: ms =>
            if bool_decide (key ∈ seen) then None
            else match writeValue (S depth) x with
            | None => None
            | Some t => match members (key :: seen) ms with Some rest => Some ((key, t) :: rest) | None => None end
            end
        end in
      match members [] ms with
      | Some found => Some ([123] ++ joined (map member_text (sort_by member_le found)) ++ [125])
      | None => None
      end
  end.

(** ** Documents *)

(** [utf8.AppendRune]. *)
Definition utf8_rune (r : N) : list N :=
  if r <? 128 then [r]
  else if r <? 2048 then [192 + r / 64; 128 + r mod 64]
  else if r <? 65536 then [224 + r / 4096; 128 + (r / 64) mod 64; 128 + r mod 64]
  else [240 + r / 262144; 128 + (r / 4096) mod 64; 128 + (r / 64) mod 64; 128 + r mod 64].
Definition utf8 (text : list N) : list N := concat (map utf8_rune text).

Definition hex_value (c : N) : option N :=
  if between 48 57 c then Some (c - 48)
  else if between 97 102 c then Some (c - 87)
  else if between 65 70 c then Some (c - 55)
  else None.
Definition hexUnit (data : list N) : option N :=
  match data with
  | a :: b :: c :: d :: _ =>
      match hex_value a, hex_value b, hex_value c, hex_value d with
      | Some a, Some b, Some c, Some d => Some (((a * 16 + b) * 16 + c) * 16 + d)
      | _, _, _, _ => None
      end
  | _ => None
  end.
(** [rejectLoneSurrogates] finds an escape that is no half of a pair. *)
Fixpoint lone_surrogate (fuel : nat) (inString : bool) (data : list N) : bool :=
  match fuel, data with
  | O, _ | _, [] => false
  | S f, c :: rest =>
      if negb inString then lone_surrogate f (c =? 34) rest
      else if c =? 34 then lone_surrogate f false rest
      else if negb (c =? 92) then lone_surrogate f true rest
      else match rest with
      | [] => false
      | c1 :: rest1 =>
          if negb (c1 =? 117) then lone_surrogate f true rest1
          else match hexUnit rest1 with
          | None => false
          | Some unit =>
              let next := drop 4 rest1 in
              if between 55296 56319 unit then
                match next with
                | b :: u :: tail =>
                    if (length next <? 6)%nat || negb (b =? 92) || negb (u =? 117) then true
                    else match hexUnit tail with
                    | Some low => if between 56320 57343 low then lone_surrogate f true (drop 4 tail) else true
                    | None => true
                    end
                | _ => true
                end
              else if between 56320 57343 unit then true
              else lone_surrogate f true next
          end
      end
  end.
Definition rejectLoneSurrogates (data : list N) : bool := lone_surrogate (length data) false data.

Definition valid_utf8 (data : list N) : bool := forallb (fun r => match r with Some _ => true | None => false end) (runes data).

Definition Canonicalize (data : list N) : option (list N) :=
  if negb (valid_utf8 data) then None
  else if rejectLoneSurrogates data then None
  else match decode_json data with
  | None => None
  | Some v => utf8 <$> writeValue 0 v
  end.
End jcs.
