(* ===== verification/CanonicalNumber.v ===== *)
(** * Canonical numbers denote what they were

    The four layouts of a canonical number denote the digits they were made from,
    so that a canonical number parses to the double it was written for. *)

From S2P Require Export CanonicalJSON.
From Stdlib Require Import Sorting.Permutation Sorting.Sorted.
Local Open Scope list_scope.
Local Open Scope Z_scope.

(** ** Decimal texts *)

Definition is_digit (c : N) : Prop := (48 <= c <= 57)%N.
Definition digit_value (c : N) : Z := Z.of_N c - 48.
Definition digits_value (m : Z) (ds : list N) : Z := fold_left (fun m c => m * 10 + digit_value c) ds m.

(** The digits a text starts with: the number they make after [m], how many they
    are, and the rest. *)
Fixpoint read_digits (s : list N) (m : Z) (n : nat) : Z * nat * list N :=
  match s with
  | c :: s' => if between 48 57 c then read_digits s' (m * 10 + digit_value c) (S n) else (m, n, s)
  | [] => (m, n, [])
  end.
Definition read_fraction (s : list N) (m : Z) : Z * nat * list N :=
  match s with
  | c :: s' => if (c =? 46)%N then read_digits s' m 0 else (m, 0%nat, s)
  | [] => (m, 0%nat, [])
  end.
(** A signed exponent of one to four digits. *)
Definition read_exponent (s : list N) : option Z :=
  match s with
  | [] => Some 0
  | c :: g :: s' =>
      if (c =? 101)%N then
        match read_digits s' 0 0 with
        | (x, n, []) =>
            if (n =? 0)%nat || (4 <? n)%nat then None
            else if (g =? 45)%N then Some (- x) else if (g =? 43)%N then Some x else None
        | _ => None
        end
      else None
  | _ => None
  end.
(** A decimal text, with a digit before the point, as a mantissa and a power of
    ten. *)
Definition read_unsigned (s : list N) : option (Z * Z) :=
  let '(m, n, s) := read_digits s 0 0 in
  if (n =? 0)%nat then None
  else
    let '(m, f, s) := read_fraction s m in
    match read_exponent s with Some e => Some (m, e - Z.of_nat f) | None => None end.
Definition read_decimal (s : list N) : option (Z * Z) :=
  match s with
  | c :: s' => if (c =? 45)%N then (match read_unsigned s' with Some (m, e) => Some (- m, e) | None => None end) else read_unsigned s
  | [] => None
  end.
(** [m1 * 10^e1 = m2 * 10^e2]. *)
Definition same_decimal (a b : Z * Z) : Prop :=
  a.1 * 10 ^ (a.2 - Z.min a.2 b.2) = b.1 * 10 ^ (b.2 - Z.min a.2 b.2).

Lemma read_digits_app ds rest m n :
  Forall is_digit ds -> read_digits (ds ++ rest) m n = read_digits rest (digits_value m ds) (n + length ds).
Proof.
  intros Hd. revert m n. induction Hd as [|c ds Hc Hd IH]; intros m n; [cbn; by rewrite Nat.add_0_r|]. cbn [app read_digits length].
  unfold between. rewrite (proj2 (N.leb_le 48 c)), (proj2 (N.leb_le c 57)) by (unfold is_digit in Hc; lia). cbn [andb]. rewrite IH.
  f_equal. lia.
Qed.
Lemma read_digits_stop rest m n : (forall c s, rest = c :: s -> ~ is_digit c) -> read_digits rest m n = (m, n, rest).
Proof.
  intros H. destruct rest as [|c s]; [done|]. cbn. destruct (between 48 57 c) eqn:E; [|done]. exfalso. apply (H c s eq_refl).
  unfold between in E. apply andb_true_iff in E as [?%N.leb_le ?%N.leb_le]. unfold is_digit. lia.
Qed.
Lemma digits_value_app m ds ds' : digits_value m (ds ++ ds') = digits_value (digits_value m ds) ds'.
Proof. apply fold_left_app. Qed.
Lemma digits_value_zeros m n : digits_value m (replicate n 48%N) = m * 10 ^ Z.of_nat n.
Proof.
  revert m. induction n as [|n IH]; intros m; [cbn; lia|]. cbn [replicate]. unfold digits_value. cbn [fold_left]. fold (digits_value (m * 10 + digit_value 48) (replicate n 48%N)).
  rewrite IH, Nat2Z.inj_succ, Z.pow_succ_r by lia. unfold digit_value. cbn. lia.
Qed.
Lemma digits_value_acc m ds : Forall is_digit ds -> digits_value m ds = m * 10 ^ Z.of_nat (length ds) + digits_value 0 ds.
Proof.
  intros Hd. revert m. induction Hd as [|c ds Hc Hd IH]; intros m; [cbn; lia|]. unfold digits_value. cbn [fold_left length].
  fold (digits_value (m * 10 + digit_value c) ds) (digits_value (0 * 10 + digit_value c) ds). rewrite IH, (IH (0 * 10 + digit_value c)).
  rewrite Nat2Z.inj_succ, Z.pow_succ_r by lia. nia.
Qed.
Lemma digits_value_nonneg ds : Forall is_digit ds -> 0 <= digits_value 0 ds.
Proof.
  intros Hd. assert (forall m, 0 <= m -> 0 <= digits_value m ds) as H; [|by apply H].
  induction Hd as [|c ds Hc Hd IH]; intros m Hm; [done|]. unfold digits_value. cbn [fold_left]. apply IH. unfold digit_value, is_digit in *. lia.
Qed.
Lemma digits_value_pos c ds : is_digit c -> c <> 48%N -> Forall is_digit ds -> 0 < digits_value 0 (c :: ds).
Proof.
  intros Hc Hne Hd. unfold digits_value. cbn [fold_left]. fold (digits_value (0 * 10 + digit_value c) ds). rewrite digits_value_acc by done.
  pose proof (digits_value_nonneg ds Hd). assert (0 < 10 ^ Z.of_nat (length ds)) by (apply Z.pow_pos_nonneg; lia).
  unfold digit_value, is_digit in *. nia.
Qed.

(** ** [Itoa] *)

Lemma decimal_digits fuel : forall n, (n < 10 ^ N.of_nat fuel)%N -> Forall is_digit (decimal fuel n).
Proof.
  induction fuel as [|f IH]; intros n Hn; [done|]. cbn [decimal]. destruct (N.ltb_spec n 10) as [Hlt|Hge].
  - apply Forall_singleton. unfold is_digit. lia.
  - apply Forall_app. split.
    + apply IH. rewrite Nnat.Nat2N.inj_succ, N.pow_succ_r' in Hn. apply N.Div0.div_lt_upper_bound; lia.
    + apply Forall_singleton. pose proof (N.mod_lt n 10 ltac:(done)). unfold is_digit. revert H. clear. generalize (n mod 10)%N. lia.
Qed.
Lemma decimal_value fuel : forall n, (n < 10 ^ N.of_nat fuel)%N -> digits_value 0 (decimal fuel n) = Z.of_N n.
Proof.
  induction fuel as [|f IH]; intros n Hn; [cbn in *; lia|]. cbn [decimal]. destruct (N.ltb_spec n 10) as [Hlt|Hge].
  - unfold digits_value, digit_value. cbn [fold_left]. lia.
  - rewrite digits_value_app, IH by (rewrite Nnat.Nat2N.inj_succ, N.pow_succ_r' in Hn; apply N.Div0.div_lt_upper_bound; lia).
    unfold digits_value, digit_value. cbn [fold_left]. pose proof (N.div_mod n 10 ltac:(done)). lia.
Qed.
Lemma Itoa_fuel n : (n < 10 ^ N.of_nat (S (N.size_nat n)))%N.
Proof.
  assert (n < 2 ^ N.of_nat (N.size_nat n))%N as H2.
  { destruct n as [|p]; [cbn; lia|]. cbn [N.size_nat]. pose proof (N.size_gt (N.pos p)) as H. cbn [N.size] in H.
    assert (N.of_nat (Pos.size_nat p) = N.pos (Pos.size p)) as ->; [|done]. clear. induction p; cbn [Pos.size_nat Pos.size]; lia. }
  rewrite Nnat.Nat2N.inj_succ, N.pow_succ_r'. pose proof (N.pow_le_mono_l 2 10 (N.of_nat (N.size_nat n))). lia.
Qed.
Lemma Itoa_digits n : Forall is_digit (Itoa n).
Proof. apply decimal_digits, Itoa_fuel. Qed.
Lemma Itoa_value n : digits_value 0 (Itoa n) = Z.of_N n.
Proof. apply decimal_value, Itoa_fuel. Qed.

Lemma decimal_length fuel : forall n k, (n < 10 ^ N.of_nat (S k))%N -> (length (decimal fuel n) <= S k)%nat.
Proof.
  induction fuel as [|f IH]; intros n k Hn; cbn [decimal]; [cbn; lia|]. destruct (N.ltb_spec n 10) as [|Hge]; [cbn; lia|].
  rewrite length_app. cbn [length]. destruct k as [|k]; [cbn in Hn; lia|].
  rewrite Nnat.Nat2N.inj_succ, N.pow_succ_r' in Hn. specialize (IH (n / 10)%N k).
  assert (n / 10 < 10 ^ N.of_nat (S k))%N by (apply N.Div0.div_lt_upper_bound; lia). specialize (IH ltac:(done)). lia.
Qed.
Lemma Itoa_length n : (n < 10000)%N -> (1 <= length (Itoa n) <= 4)%nat.
Proof.
  intros Hn. split; [|by apply (decimal_length _ n 3)]. unfold Itoa. cbn [decimal].
  destruct (_ <? _)%N; rewrite ?length_app; cbn; lia.
Qed.

(** ** Canonical layouts *)

Lemma no_digit_next c s rest : rest = c :: s -> ~ is_digit c -> forall d t, rest = d :: t -> ~ is_digit d.
Proof. intros -> H d t [= <- _]. done. Qed.

Lemma same_decimal_shift m a b : 0 <= a -> same_decimal (m * 10 ^ a, b) (m, b + a).
Proof.
  intros Ha. unfold same_decimal. cbn [fst snd]. replace (Z.min b (b + a)) with b by lia. replace (b - b) with 0 by lia.
  replace (b + a - b) with a by lia. lia.
Qed.
Lemma same_decimal_refl d : same_decimal d d.
Proof. done. Qed.
Lemma same_decimal_opp m a n b : same_decimal (m, a) (n, b) -> same_decimal (- m, a) (- n, b).
Proof. unfold same_decimal. cbn [fst snd]. lia. Qed.

Lemma read_exponent_written x :
  -10000 < x < 10000 -> read_exponent ([101%N; if x <? 0 then 45%N else 43%N] ++ Itoa (Z.to_N (Z.abs x))) = Some x.
Proof.
  intros Hx. pose proof (Itoa_length (Z.to_N (Z.abs x)) ltac:(lia)) as Hl.
  cbn [app read_exponent]. rewrite N.eqb_refl. rewrite <- (app_nil_r (Itoa _)), read_digits_app by apply Itoa_digits. cbn [read_digits].
  rewrite Itoa_value, Z2N.id by lia. cbn [plus]. rewrite (proj2 (Nat.eqb_neq _ _)), (proj2 (Nat.ltb_ge _ _)) by lia.
  destruct (Z.ltb_spec x 0); cbn; f_equal; lia.
Qed.

(** Digits, with or without a point, and then an exponent or nothing. *)
Definition ends (tail : list N) : Prop := forall c s, tail = c :: s -> ~ is_digit c /\ c <> 46%N.
Lemma some_digits (ds : list N) : ds <> [] -> (0 + length ds =? 0)%nat = false.
Proof. intros H. destruct ds; [done|]. by apply Nat.eqb_neq. Qed.
Lemma read_whole ds x tail :
  Forall is_digit ds -> ds <> [] -> ends tail -> read_exponent tail = Some x -> read_unsigned (ds ++ tail) = Some (digits_value 0 ds, x).
Proof.
  intros Hd Hne Ht Hx. unfold read_unsigned. rewrite read_digits_app by done. rewrite read_digits_stop by (intros c s E; by apply (Ht c s)).
  rewrite some_digits by done.
  assert (forall m, read_fraction tail m = (m, 0%nat, tail)) as ->.
  { intros m. destruct tail as [|c s]; [done|]. cbn. by rewrite (proj2 (N.eqb_neq c 46)) by (by apply (Ht c s)). }
  rewrite Hx. do 2 f_equal. lia.
Qed.
Lemma read_point ds fs x tail :
  Forall is_digit ds -> ds <> [] -> Forall is_digit fs -> ends tail -> read_exponent tail = Some x ->
  read_unsigned (ds ++ [46%N] ++ fs ++ tail) = Some (digits_value 0 (ds ++ fs), x - Z.of_nat (length fs)).
Proof.
  intros Hd Hne Hf Ht Hx. unfold read_unsigned. rewrite read_digits_app by done.
  rewrite read_digits_stop by (intros c s [= <- _]; unfold is_digit; lia). rewrite some_digits by done.
  cbn [app read_fraction]. rewrite N.eqb_refl, read_digits_app by done.
  rewrite read_digits_stop by (intros c s E; by apply (Ht c s)). by rewrite Hx, digits_value_app.
Qed.
Lemma ends_nil : ends [].
Proof. done. Qed.
Lemma ends_exponent g s : ends (101%N :: g :: s).
Proof. intros c t [= <- _]. unfold is_digit. split; lia. Qed.

(** The digits and the exponent a layout denotes. *)
Lemma format_digits_denotes ds e :
  Forall is_digit ds -> ds <> [] -> -10000 < e < 10000 ->
  exists d, read_unsigned (format_digits ds e) = Some d /\ same_decimal d (digits_value 0 ds, e + 1 - Z.of_nat (length ds)).
Proof.
  intros Hd Hne He. unfold format_digits. set (k := Z.of_nat (length ds)). set (n := e + 1).
  assert (1 <= k) as Hk by (subst k; destruct ds; [done|cbn; lia]).
  assert (forall i, Forall is_digit (take i ds) /\ Forall is_digit (drop i ds)) as Hsplit.
  { intros i. rewrite <- (take_drop i ds) in Hd. by apply Forall_app in Hd. }
  assert (forall m, Forall is_digit (replicate m 48%N)) as Hzeros by (intros m; apply Forall_replicate; unfold is_digit; lia).
  pose proof (read_exponent_written (n - 1) ltac:(lia)) as Hexp.
  assert (Htake : forall i, (0 < i)%nat -> take i ds <> []) by (intros [|i] Hi; [lia|by destruct ds]).
  destruct ((k <=? n) && (n <=? 21)) eqn:E1.
  { apply andb_true_iff in E1 as [E1%Z.leb_le _]. exists (digits_value 0 ds * 10 ^ (n - k), 0). split.
    - rewrite <- (app_nil_r (ds ++ _)), (read_whole _ 0) by (try done; first [by apply Forall_app|by destruct ds]).
      by rewrite digits_value_app, digits_value_zeros, Z2Nat.id by lia.
    - replace (n - k) with (0 + (n - k)) at 2 by lia. apply same_decimal_shift. lia. }
  destruct ((0 <? n) && (n <=? 21)) eqn:E2.
  { apply andb_true_iff in E2 as [E2%Z.ltb_lt E2']. assert (n < k) as Hnk by (rewrite E2', andb_true_r in E1; apply Z.leb_gt in E1; lia).
    exists (digits_value 0 ds, n - k). split; [|apply same_decimal_refl]. destruct (Hsplit (Z.to_nat n)) as [Ht Hr].
    rewrite <- (app_nil_r (drop _ ds)), (read_point _ _ 0) by first [done|apply Htake; lia]. rewrite take_drop, length_drop. do 2 f_equal. lia. }
  destruct ((-6 <? n) && (n <=? 0)) eqn:E3.
  { apply andb_true_iff in E3 as [_ E3%Z.leb_le]. exists (digits_value 0 ds, n - k). split; [|apply same_decimal_refl].
    change ([48%N; 46%N] ++ ?x) with ([48%N] ++ [46%N] ++ x).
    rewrite <- (app_nil_r (replicate _ _ ++ ds)), (read_point [48%N] _ 0) by first [done|apply (Hzeros 1%nat)|by apply Forall_app].
    rewrite length_app, length_replicate. change ([48%N] ++ ?x) with (replicate 1 48%N ++ x).
    rewrite !digits_value_app, !digits_value_zeros. do 2 f_equal; lia. }
  destruct (k =? 1) eqn:E4; exists (digits_value 0 ds, n - k); (split; [|apply same_decimal_refl]).
  - apply Z.eqb_eq in E4. rewrite (read_whole _ (n - 1)) by (try done; apply ends_exponent). do 2 f_equal. lia.
  - destruct (Hsplit 1%nat) as [Ht Hr]. rewrite (read_point _ _ (n - 1)) by first [done|apply ends_exponent|apply Htake; lia].
    rewrite take_drop, length_drop. do 2 f_equal. lia.
Qed.

(** ** Doubles *)

(** What is known of doubles: the shortest digits of a double that is not zero are
    digits without a leading zero, their exponent is that of a finite double, and
    every decimal text that denotes them parses to the double: [strconv.ParseFloat]
    rounds correctly. *)
Class DoubleLaws `{Doubles} := {
  shortest_digits v : is_zero v = false ->
    exists c ds, (shortest v).1 = c :: ds /\ is_digit c /\ c <> 48%N /\ Forall is_digit ds;
  shortest_exponent v : is_zero v = false -> -400 < (shortest v).2 < 400;
  parse_shortest v s d : is_zero v = false -> read_decimal s = Some d ->
    same_decimal d ((if is_negative v then - digits_value 0 (shortest v).1 else digits_value 0 (shortest v).1),
                    (shortest v).2 + 1 - Z.of_nat (length (shortest v).1)) ->
    parse_double s = Some v
}.

Section numbers.
Context {D : Doubles} {Laws : DoubleLaws}.

Definition same_number (s t : list N) : Prop :=
  exists v w, parse_double s = Some v /\ parse_double t = Some w /\ (v = w \/ is_zero v = true /\ is_zero w = true).

Definition number_char (c : N) : Prop := is_digit c \/ c ∈ [43; 45; 46; 101]%N.

Lemma read_decimal_unsigned s : (forall c t, s = c :: t -> is_digit c) -> s <> [] -> read_decimal s = read_unsigned s.
Proof.
  intros Hd Hne. destruct s as [|c t]; [done|]. unfold read_decimal. rewrite (proj2 (N.eqb_neq c 45)); [done|].
  pose proof (Hd c t eq_refl) as Hc. unfold is_digit in Hc. lia.
Qed.

(** A layout is made of number characters and starts with a digit. *)
Lemma format_digits_chars c ds e :
  is_digit c -> Forall is_digit ds ->
  Forall number_char (format_digits (c :: ds) e) /\ exists c' t, format_digits (c :: ds) e = c' :: t /\ is_digit c'.
Proof.
  intros Hc Hd. assert (Forall number_char (c :: ds)) as Hall by (constructor; [by left|eapply Forall_impl; [exact Hd|by left]]).
  assert (forall i, Forall number_char (take i (c :: ds)) /\ Forall number_char (drop i (c :: ds))) as Hsplit.
  { intros i. rewrite <- (take_drop i (c :: ds)) in Hall. by apply Forall_app in Hall. }
  assert (number_char 48%N) as H0 by (left; unfold is_digit; lia).
  assert (forall m, Forall number_char (replicate m 48%N)) as Hz by (intros m; by apply Forall_replicate).
  assert (forall x, Forall number_char (Itoa x)) as Hi by (intros x; eapply Forall_impl; [apply Itoa_digits|by left]).
  assert (forall c, c ∈ [43; 45; 46; 101]%N -> number_char c) as Hp by (by right).
  unfold format_digits. repeat case_match; cbn [app]; (split; [repeat first [apply Forall_cons; split | apply Forall_app; split];
    first [done | apply Hsplit | apply Hz | apply Hi | by left | eapply Forall_impl; [exact Hd|by left] | apply Hp; set_solver]|]).
  - by eexists _, _.
  - match goal with E : _ && _ = true |- _ => apply andb_true_iff in E as [E%Z.ltb_lt _] end.
    destruct (Z.to_nat (e + 1)) as [|i] eqn:Ei; [lia|]. by eexists _, _.
  - eexists _, _. split; [done|]. unfold is_digit. lia.
  - by eexists _, _.
  - by eexists _, _.
  - by eexists _, _.
  - by eexists _, _.
Qed.

Lemma formatNumber_chars s t : formatNumber s = Some t -> Forall number_char t /\ exists c t', t = c :: t' /\ (is_digit c \/ c = 45%N).
Proof.
  unfold formatNumber. destruct (parse_double s) as [v|]; [|done]. destruct (is_zero v) eqn:Ez.
  { intros [= <-]. split; [apply Forall_singleton; left; unfold is_digit; lia|]. exists 48%N, []. split; [done|]. left. unfold is_digit. lia. }
  destruct (shortest_digits v Ez) as (c & ds & E & Hc & _ & Hd). destruct (shortest v) as [digits e]. cbn in E. subst digits. intros [= <-].
  destruct (format_digits_chars c ds e Hc Hd) as [Hall (c' & t & Et & Hc')]. destruct (is_negative v); cbn [app].
  - split; [constructor; [right; set_solver|done]|]. exists 45%N, (format_digits (c :: ds) e). auto.
  - split; [done|]. rewrite Et. exists c', t. auto.
Qed.

(** A canonical number denotes the shortest digits of the double. *)
Lemma formatNumber_denotes s t v :
  parse_double s = Some v -> is_zero v = false -> formatNumber s = Some t ->
  exists d, read_decimal t = Some d /\
    same_decimal d ((if is_negative v then - digits_value 0 (shortest v).1 else digits_value 0 (shortest v).1),
                    (shortest v).2 + 1 - Z.of_nat (length (shortest v).1)).
Proof.
  intros Hp Hz. unfold formatNumber. rewrite Hp, Hz. destruct (shortest_digits v Hz) as (c & ds & E & Hc & _ & Hd).
  pose proof (shortest_exponent v Hz) as He.
  destruct (shortest v) as [digits e]. cbn [fst snd] in E, He |- *. subst digits. intros [= <-].
  destruct (format_digits_denotes (c :: ds) e) as ([m x] & Hr & Hs); [by constructor|done|lia|].
  destruct (format_digits_chars c ds e Hc Hd) as [_ (c' & t & Et & Hc')]. destruct (is_negative v); cbn [app].
  - exists (- m, x). split; [cbn [read_decimal]; by rewrite N.eqb_refl, Hr|by apply same_decimal_opp].
  - exists (m, x). split; [|done]. rewrite read_decimal_unsigned; [done| |by rewrite Et]. intros c0 t0. rewrite Et. by intros [= <- _].
Qed.
Lemma formatNumber_parses s t v :
  parse_double s = Some v -> is_zero v = false -> formatNumber s = Some t -> parse_double t = Some v.
Proof. intros Hp Hz Ht. destruct (formatNumber_denotes s t v Hp Hz Ht) as (d & Hd & Hs). by eapply parse_shortest. Qed.

Lemma formatNumber_zero s v : parse_double s = Some v -> is_zero v = false -> formatNumber s <> Some [48%N].
Proof.
  intros Hp Hz Ht. destruct (formatNumber_denotes s _ v Hp Hz Ht) as (d & [= <-] & Hs).
  destruct (shortest_digits v Hz) as (c & ds & E & Hc & Hne & Hd). pose proof (digits_value_pos c ds Hc Hne Hd) as Hpos. rewrite <- E in Hpos.
  unfold same_decimal in Hs. cbn [fst snd] in Hs.
  assert (forall x, 0 < 10 ^ x \/ x < 0) as Hpow by (intros x; destruct (Z.lt_ge_cases x 0); [by right|left; apply Z.pow_pos_nonneg; lia]).
  match type of Hs with _ = _ * 10 ^ ?x => destruct (Hpow x) as [Hx|Hx]; [|lia] end.
  rewrite Z.mul_0_l in Hs. symmetry in Hs. apply Z.mul_eq_0 in Hs as [Hs|Hs]; [destruct (is_negative v); lia|lia].
Qed.

(** Two numbers have the same canonical form exactly if they are the same number. *)
Lemma formatNumber_same s t a b : formatNumber s = Some a -> formatNumber t = Some b -> a = b <-> same_number s t.
Proof.
  intros Ha Hb. destruct (parse_double s) as [v|] eqn:Ev; [|unfold formatNumber in Ha; by rewrite Ev in Ha].
  destruct (parse_double t) as [w|] eqn:Ew; [|unfold formatNumber in Hb; by rewrite Ew in Hb].
  assert (forall u x y, parse_double u = Some x -> is_zero x = true -> formatNumber u = Some y -> y = [48%N]) as Hzero.
  { intros u x y Hu Hx. unfold formatNumber. rewrite Hu, Hx. by intros [= <-]. }
  split.
  - intros <-. exists v, w. split_and!; [done|done|]. destruct (is_zero v) eqn:Ezv, (is_zero w) eqn:Ezw; auto.
    + rewrite (Hzero _ _ _ Ev Ezv Ha) in Hb. by destruct (formatNumber_zero _ _ Ew Ezw).
    + rewrite (Hzero _ _ _ Ew Ezw Hb) in Ha. by destruct (formatNumber_zero _ _ Ev Ezv).
    + left. apply (formatNumber_parses _ _ _ Ev Ezv) in Ha. apply (formatNumber_parses _ _ _ Ew Ezw) in Hb. congruence.
  - intros (v' & w' & Hv & Hw & Hor). simplify_eq. destruct Hor as [<-|[Hzv Hzw]].
    + unfold formatNumber in Ha, Hb. rewrite Ev in Ha. rewrite Ew in Hb. congruence.
    + by rewrite (Hzero _ _ _ Ev Hzv Ha), (Hzero _ _ _ Ew Hzw Hb).
Qed.
End numbers.

(** ** Canonical documents are equal exactly if their values are

    The written strings, members and values can be told apart from what follows
    them, members are put in one order, and so the canonical form determines the
    value up to the order of members and the spelling of numbers, and conversely. *)

Local Open Scope N_scope.

(** ** Code points *)

(** A Unicode scalar value. *)
Definition scalar (r : N) : Prop := r < 55296 \/ 57344 <= r <= 1114111.

Ltac eqb_cases :=
  repeat match goal with
  | |- context [N.eqb ?a ?b] => destruct (N.eqb_spec a b); subst
  | |- context [N.ltb ?a ?b] => destruct (N.ltb_spec a b)
  end.

Lemma hex_inj a b : a < 16 -> b < 16 -> hex a = hex b -> a = b.
Proof. unfold hex. intros Ha Hb. eqb_cases; lia. Qed.
Lemma hex_digits a b : a < 32 -> b < 32 -> hex (a / 16) = hex (b / 16) -> hex (a mod 16) = hex (b mod 16) -> a = b.
Proof.
  intros Ha Hb H1 H2. assert (a / 16 < 16 /\ b / 16 < 16) as [Ha' Hb'] by (split; apply N.Div0.div_lt_upper_bound; lia).
  apply hex_inj in H1; [|done|done]. apply hex_inj in H2; [|apply N.mod_lt; lia|apply N.mod_lt; lia].
  rewrite (N.div_mod a 16), (N.div_mod b 16) by lia. by rewrite H1, H2.
Qed.
Lemma escape_prefix a b x y : escape a ++ x = escape b ++ y -> a = b /\ x = y.
Proof.
  unfold escape. eqb_cases; cbn [app]; intros [=]; subst; try done; try lia.
  match goal with H : hex (?a / 16) = _ |- _ => split; [by apply hex_digits|done] end.
Qed.
Lemma escape_head a : exists c t, escape a = c :: t /\ c <> 34.
Proof. unfold escape. eqb_cases; eexists _, _; (split; [reflexivity|lia || done]). Qed.
Lemma string_prefix s s' x y : concat (map escape s) ++ 34 :: x = concat (map escape s') ++ 34 :: y -> s = s' /\ x = y.
Proof.
  revert s'. induction s as [|a s IH]; intros [|b s']; cbn [map concat app].
  - by intros [= ->].
  - destruct (escape_head b) as (c & t & -> & Hc). by intros [= <-].
  - destruct (escape_head a) as (c & t & -> & Hc). by intros [= ->].
  - rewrite <- !app_assoc. intros [-> H]%escape_prefix. by apply IH in H as [-> ->].
Qed.
Lemma writeString_prefix s s' x y : writeString s ++ x = writeString s' ++ y -> s = s' /\ x = y.
Proof. unfold writeString. rewrite <- !app_assoc. cbn [app]. intros [= H]. by apply string_prefix in H. Qed.
Lemma escape_scalar a : scalar a -> Forall scalar (escape a).
Proof.
  intros Ha. assert (forall d, d < 16 -> scalar (hex d)) as Hh by (intros d Hd; unfold hex, scalar; eqb_cases; lia).
  unfold escape. eqb_cases; repeat (apply Forall_cons; split); try done; try (unfold scalar; lia).
  - apply Hh. apply N.Div0.div_lt_upper_bound; lia.
  - apply Hh. apply N.mod_lt. lia.
Qed.
Lemma writeString_scalar s : Forall scalar s -> Forall scalar (writeString s).
Proof.
  intros Hs. unfold writeString. assert (scalar 34) by (unfold scalar; lia). repeat (apply Forall_app; split); try by apply Forall_singleton.
  induction Hs as [|a s Ha Hs IH]; [constructor|]. cbn. apply Forall_app. auto using escape_scalar.
Qed.

(** ** The order of members *)

Lemma utf16_prefix a b x y : scalar a -> scalar b -> utf16_units a ++ x = utf16_units b ++ y -> a = b /\ x = y.
Proof.
  assert (forall r, scalar r -> (65536 <= r <= 1114111 /\ utf16_units r = [55296 + (r - 65536) / 1024; 56320 + (r - 65536) mod 1024])
                             \/ (r < 65536 /\ utf16_units r = [r])) as Hcase.
  { intros r Hr. unfold utf16_units, between. unfold scalar in Hr.
    destruct (N.leb_spec 65536 r), (N.leb_spec r 1114111); cbn [andb]; [left; split; [lia|done]| | |]; right; (split; [lia|]).
    all: destruct (N.ltb_spec r 55296), (N.leb_spec 57344 r), (N.leb_spec r 65535); cbn; done || lia. }
  assert (forall r, 65536 <= r <= 1114111 -> 55296 <= 55296 + (r - 65536) / 1024 < 56320) as Hhigh.
  { intros r Hr. assert ((r - 65536) / 1024 < 1024) as Hq by (apply N.Div0.div_lt_upper_bound; lia). revert Hq. generalize ((r - 65536) / 1024). lia. }
  intros Ha Hb. destruct (Hcase a Ha) as [[Ra ->]|[Ra ->]], (Hcase b Hb) as [[Rb ->]|[Rb ->]]; cbn [app]; intros [= H].
  - split; [|done]. assert ((a - 65536) / 1024 = (b - 65536) / 1024) as Hq by lia. assert ((a - 65536) mod 1024 = (b - 65536) mod 1024) as Hm by lia.
    pose proof (N.div_mod (a - 65536) 1024 ltac:(lia)) as Ea. pose proof (N.div_mod (b - 65536) 1024 ltac:(lia)) as Eb. rewrite Hq, Hm in Ea. lia.
  - pose proof (Hhigh a Ra). unfold scalar in Hb. lia.
  - pose proof (Hhigh b Rb). unfold scalar in Ha. lia.
  - done.
Qed.
Lemma units_inj s s' : Forall scalar s -> Forall scalar s' -> units s = units s' -> s = s'.
Proof.
  unfold units. assert (forall r, utf16_units r <> []) as Hne by (intros r; unfold utf16_units; repeat case_match; done).
  intros Hs. revert s'. induction Hs as [|a s Ha Hs IH]; intros s' [|b s'' Hb Hs']; cbn [map concat]; try done.
  - intros H. symmetry in H. apply app_eq_nil in H as [H _]. by destruct (Hne b).
  - intros H. apply app_eq_nil in H as [H _]. by destruct (Hne a).
  - intros [-> H]%utf16_prefix; [|done|done]. by rewrite (IH s'' Hs' H).
Qed.

Lemma less_asym a : forall b, lessUTF16 a b = true -> lessUTF16 b a = false.
Proof. induction a as [|x a IH]; intros [|y b]; cbn; try done. eqb_cases; cbn; eqb_cases; try done; try lia. apply IH. Qed.
Lemma less_connected a : forall b, lessUTF16 a b = false -> lessUTF16 b a = false -> a = b.
Proof. induction a as [|x a IH]; intros [|y b]; cbn; try done. eqb_cases; cbn; eqb_cases; try done; try lia. intros. f_equal. auto. Qed.
Lemma not_less_trans a : forall b c, lessUTF16 b a = false -> lessUTF16 c b = false -> lessUTF16 c a = false.
Proof.
  induction a as [|x a IH]; intros [|y b] [|z c]; cbn; try done. eqb_cases; cbn; eqb_cases; try done; try lia. apply IH.
Qed.

Lemma member_le_total a b : member_le a b = true \/ member_le b a = true.
Proof. unfold member_le. destruct (lessUTF16 (units b.1) (units a.1)) eqn:E; [right; by rewrite (less_asym _ _ E)|by left]. Qed.
Lemma member_le_trans a b c : member_le a b = true -> member_le b c = true -> member_le a c = true.
Proof. unfold member_le. rewrite !negb_true_iff. intros. by eapply not_less_trans. Qed.
Lemma member_le_antisym a b : Forall scalar a.1 -> Forall scalar b.1 -> member_le a b = true -> member_le b a = true -> a.1 = b.1.
Proof. unfold member_le. rewrite !negb_true_iff. intros Ha Hb H1 H2. apply units_inj; auto. by apply less_connected. Qed.
