(* ===== verification/CanonicalValues.v ===== *)
(** * Canonical values

    A written value can be told apart from what follows it, so that its text
    determines the value; and the order of members and the spelling of numbers
    leave no trace in it. *)

From S2P Require Export CanonicalNumber.
From Stdlib Require Import Sorting.Permutation Sorting.Sorted.
From stdpp Require Import sorting.
Local Open Scope list_scope.
Local Open Scope N_scope.

Section json_ind.
Variable P : json -> Prop.
Hypothesis Hnull : P JNull.
Hypothesis Hbool : forall b, P (JBool b).
Hypothesis Hnumber : forall s, P (JNumber s).
Hypothesis Hstring : forall s, P (JString s).
Hypothesis Harray : forall l, Forall P l -> P (JArray l).
Hypothesis Hobject : forall ms, Forall (fun m => P m.2) ms -> P (JObject ms).

Fixpoint json_ind (v : json) : P v :=
  match v with
  | JNull => Hnull
  | JBool b => Hbool b
  | JNumber s => Hnumber s
  | JString s => Hstring s
  | JArray l =>
      Harray l ((fix all l : Forall P l :=
        match l with [] => Forall_nil_2 P | x :: l => Forall_cons_2 P x l (json_ind x) (all l) end) l)
  | JObject ms =>
      Hobject ms ((fix all ms : Forall (fun m => P m.2) ms :=
        match ms with [] => Forall_nil_2 _ | m :: ms => Forall_cons_2 _ m ms (json_ind m.2) (all ms) end) ms)
  end.
End json_ind.

(** Every string and member name is a text of scalar values. *)
Fixpoint scalar_json (v : json) : Prop :=
  match v with
  | JString s => Forall scalar s
  | JArray l => foldr (fun x p => scalar_json x /\ p) True l
  | JObject ms => foldr (fun m p => (Forall scalar m.1 /\ scalar_json m.2) /\ p) True ms
  | _ => True
  end.
Lemma foldr_and {A} (Q : A -> Prop) l : foldr (fun x p => Q x /\ p) True l <-> Forall Q l.
Proof. induction l as [|x l IH]; cbn; [done|]. by rewrite Forall_cons, IH. Qed.
Lemma scalar_array l : scalar_json (JArray l) <-> Forall scalar_json l.
Proof. apply foldr_and. Qed.
Lemma scalar_object ms : scalar_json (JObject ms) <-> Forall (fun m => Forall scalar m.1 /\ scalar_json m.2) ms.
Proof. apply (foldr_and (fun m : list N * json => Forall scalar m.1 /\ scalar_json m.2)). Qed.

(** Lists with the same elements are sorted alike, if the order tells them apart. *)
Lemma sort_by_unique {A} (le : A -> A -> bool) l l' :
  (forall x y, le x y = true \/ le y x = true) -> (forall x y z, le x y = true -> le y z = true -> le x z = true) ->
  Permutation l l' -> (forall x y, x ∈ l -> y ∈ l -> le x y = true -> le y x = true -> x = y) -> sort_by le l = sort_by le l'.
Proof.
  intros Htot Htr Hp Hanti. assert (Relations_1.Transitive (fun a b => le a b = true)) as Htrans by (intros a b c; apply Htr).
  assert (forall k, StronglySorted (fun a b => le a b = true) (sort_by le k)) as Hss.
  { intros k. apply Sorted_StronglySorted; [done|]. by apply Sorted_LocallySorted_iff, sort_by_sorted. }
  apply (StronglySorted_unique_strong (fun a b => le a b = true)); [|done|done|by rewrite <- !sort_by_perm].
  intros x y Hx%sort_by_elem Hy%sort_by_elem. rewrite <- Hp in Hy. auto.
Qed.

Section values.
Context {D : Doubles} {Laws : DoubleLaws}.

(** ** The value a document stands for *)

(** The same value but for the order of members and the spelling of numbers. *)
Unset Elimination Schemes.
Inductive same_json : json -> json -> Prop :=
| same_null : same_json JNull JNull
| same_bool b : same_json (JBool b) (JBool b)
| same_num s t : same_number s t -> same_json (JNumber s) (JNumber t)
| same_string s : same_json (JString s) (JString s)
| same_array l l' : Forall2 same_json l l' -> same_json (JArray l) (JArray l')
| same_object ms ms' ns ns' :
    Permutation ms ns -> Permutation ms' ns' ->
    Forall2 (fun m n => m.1 = n.1 /\ same_json m.2 n.2) ns ns' ->
    same_json (JObject ms) (JObject ms').
Set Elimination Schemes.

(** ** What [writeValue] writes *)

Lemma writeValue_depth d v t : writeValue d v = Some t -> (d <= maxDepth)%nat.
Proof. destruct v; cbn [writeValue]; destruct (Nat.ltb_spec maxDepth d); done || lia. Qed.
Lemma writeValue_array d l t :
  writeValue d (JArray l) = Some t ->
  exists ts, Forall2 (fun x t => writeValue (S d) x = Some t) l ts /\ t = [91] ++ joined ts ++ [93].
Proof.
  cbn [writeValue]. destruct (maxDepth <? d)%nat; [done|]. match goal with |- match ?f l with _ => _ end = _ -> _ => set (items := f) end.
  assert (forall l ts, items l = Some ts -> Forall2 (fun x t => writeValue (S d) x = Some t) l ts) as Hi.
  { intros l0. induction l0 as [|x l0 IH]; intros ts; cbn [items]; [intros [= <-]; constructor|].
    destruct (writeValue (S d) x) eqn:Ex; [|done]. destruct (items l0); [|done]. intros [= <-]. constructor; auto. }
  destruct (items l) as [ts|] eqn:E; [|done]. intros [= <-]. eauto.
Qed.
Definition writes (d : nat) (m : list N * json) (f : member) : Prop := f.1 = m.1 /\ writeValue d m.2 = Some f.2.
Lemma writeValue_object d ms t :
  writeValue d (JObject ms) = Some t ->
  exists found, Forall2 (writes (S d)) ms found /\ NoDup (map fst ms) /\
    t = [123] ++ joined (map member_text (sort_by member_le found)) ++ [125].
Proof.
  cbn [writeValue]. destruct (maxDepth <? d)%nat; [done|]. match goal with |- match ?f [] ms with _ => _ end = _ -> _ => set (members := f) end.
  assert (forall ms seen fs, members seen ms = Some fs ->
    Forall2 (writes (S d)) ms fs /\ NoDup (map fst ms) /\ forall k, k ∈ map fst ms -> k ∉ seen) as Hm.
  { intros ms0. induction ms0 as [|[k x] ms0 IH]; intros seen fs; cbn [members].
    { intros [= <-]. split_and!; [constructor|constructor|]. intros k Hk. by apply not_elem_of_nil in Hk. }
    destruct (bool_decide (k ∈ seen)) eqn:Ek; [done|]. apply bool_decide_eq_false in Ek.
    destruct (writeValue (S d) x) eqn:Ex; [|done]. destruct (members (k :: seen) ms0) as [rest|] eqn:Er; [|done]. intros [= <-].
    destruct (IH _ _ Er) as (H1 & H2 & H3). cbn [map fst]. split_and!.
    - constructor; [by split|done].
    - constructor; [intros Hin; apply (H3 k Hin); set_solver|done].
    - intros k' [->|Hk']%elem_of_cons; [done|]. specialize (H3 k' Hk'). set_solver. }
  destruct (members [] ms) as [fs|] eqn:E; [|done]. intros [= <-]. destruct (Hm _ _ _ E) as (H1 & H2 & _). eauto.
Qed.

Definition head_of (v : json) (c : N) : Prop :=
  match v with
  | JNull => c = 110
  | JBool b => c = if b then 116 else 102
  | JNumber _ => is_digit c \/ c = 45
  | JString _ => c = 34
  | JArray _ => c = 91
  | JObject _ => c = 123
  end.
Lemma writeValue_head d v t : writeValue d v = Some t -> exists c t', t = c :: t' /\ head_of v c.
Proof.
  intros H. destruct v as [|b|s|s|l|ms].
  - cbn [writeValue] in H. destruct (maxDepth <? d)%nat; [done|]. injection H as <-. by eexists _, _.
  - cbn [writeValue] in H. destruct (maxDepth <? d)%nat; [done|]. injection H as <-. destruct b; by eexists _, _.
  - cbn [writeValue] in H. destruct (maxDepth <? d)%nat; [done|]. by apply formatNumber_chars in H as [_ H].
  - cbn [writeValue] in H. destruct (maxDepth <? d)%nat; [done|]. injection H as <-. by eexists _, _.
  - apply writeValue_array in H as (ts & _ & ->). by eexists _, _.
  - apply writeValue_object in H as (fs & _ & _ & ->). by eexists _, _.
Qed.
Lemma head_not_close v c : head_of v c -> c <> 93 /\ c <> 125.
Proof. destruct v as [|[]|s|s|l|ms]; cbn; unfold is_digit; lia. Qed.

(** ** Texts end where they end *)

(** The end, a comma or a closing bracket. *)
Definition stops (r : list N) : Prop := match r with [] => True | c :: _ => c ∈ [44; 93; 125] end.

Lemma number_prefix s t x y : Forall number_char s -> Forall number_char t -> stops x -> stops y -> s ++ x = t ++ y -> s = t /\ x = y.
Proof.
  assert (forall c s y, stops y -> number_char c -> y <> c :: s) as Hno.
  { intros c s0 [|c' y0] Hy Hc; [done|]. intros [= -> _]. unfold number_char, is_digit in Hc. cbn in Hy. destruct Hc as [Hc|Hc]; set_unfold; lia. }
  intros Hs. revert t. induction Hs as [|c s Hc Hs IH]; intros t Ht Hx Hy; destruct Ht as [|c' t Hc' Ht]; cbn [app]; try done.
  - intros E. by destruct (Hno c' (t ++ y) x).
  - intros E. symmetry in E. by destruct (Hno c (s ++ x) y).
  - intros [= <- E]. by destruct (IH t Ht Hx Hy E) as [-> ->].
Qed.

Lemma joined_cons t ts : joined (t :: ts) = t ++ concat (map (cons 44) ts).
Proof. revert t. induction ts as [|u ts IH]; intros t; [symmetry; apply app_nil_r|]. cbn [map concat]. rewrite <- app_comm_cons, <- IH. done. Qed.

Section joined_prefix.
Context {A B : Type} (R : A -> B -> Prop) (f : A -> list N) (g : B -> list N) (close : N).
Hypothesis close_stops : close = 93 \/ close = 125.
Definition opens (t : list N) : Prop := exists c t', t = c :: t' /\ c <> close.
Definition apart (x : A) (y : B) : Prop := forall r r', stops r -> stops r' -> f x ++ r = g y ++ r' -> R x y /\ r = r'.

Lemma tail_stops ts r : stops (concat (map (cons 44) ts) ++ close :: r).
Proof. destruct ts; cbn; [destruct close_stops as [-> | ->]; set_solver|set_solver]. Qed.
Lemma tail_prefix l : forall l' r r',
  (forall x y, x ∈ l -> y ∈ l' -> apart x y) ->
  concat (map (cons 44) (map f l)) ++ close :: r = concat (map (cons 44) (map g l')) ++ close :: r' -> Forall2 R l l' /\ r = r'.
Proof.
  induction l as [|x l IH]; intros [|y l'] r r' Hap; cbn [map concat app].
  - by intros [= ->].
  - intros [= E _]. destruct close_stops; lia.
  - intros [= E _]. destruct close_stops; lia.
  - rewrite <- !app_assoc. intros [= E]. destruct (Hap x y ltac:(set_solver) ltac:(set_solver) _ _ (tail_stops _ r) (tail_stops _ r') E) as [HR E'].
    apply IH in E' as [HF ->]; [auto|set_solver].
Qed.
Lemma joined_prefix l l' r r' :
  (forall x y, x ∈ l -> y ∈ l' -> apart x y) -> (forall x, x ∈ l -> opens (f x)) -> (forall y, y ∈ l' -> opens (g y)) ->
  joined (map f l) ++ close :: r = joined (map g l') ++ close :: r' -> Forall2 R l l' /\ r = r'.
Proof.
  intros Hap Hf Hg. destruct l as [|x l], l' as [|y l']; cbn [map].
  - by intros [= ->].
  - destruct (Hg y) as (c & t & E & Hc); [set_solver|]. rewrite joined_cons, E. by intros [= <-].
  - destruct (Hf x) as (c & t & E & Hc); [set_solver|]. rewrite joined_cons, E. by intros [= ->].
  - rewrite !joined_cons, <- !app_assoc. intros E.
    destruct (Hap x y ltac:(set_solver) ltac:(set_solver) _ _ (tail_stops _ r) (tail_stops _ r') E) as [HR E'].
    apply tail_prefix in E' as [HF ->]; [auto|set_solver].
Qed.
End joined_prefix.

(** ** The text determines the value *)

Definition determined (a : json) : Prop := forall d d' b ta tb r r',
  writeValue d a = Some ta -> writeValue d' b = Some tb -> stops r -> stops r' -> ta ++ r = tb ++ r' -> same_json a b /\ r = r'.

Ltac written H := cbn [writeValue] in H; match type of H with (if ?c then _ else _) = _ => destruct c; [done|] end.
Ltac other_kind :=
  match goal with Ha : writeValue _ _ = Some ?ta, Hb : writeValue _ _ = Some ?tb, E : ?ta ++ _ = ?tb ++ _ |- _ =>
    exfalso; apply writeValue_head in Ha as (? & ? & -> & Ha); apply writeValue_head in Hb as (? & ? & -> & Hb);
    cbn in Ha, Hb; injection E as -> _; unfold is_digit in *; repeat case_match; lia
  end.

Lemma Forall2_through {A B C E} (P : A -> B -> Prop) (Q : C -> E -> Prop) (R : B -> E -> Prop) (T : A -> C -> Prop) l ts l' ts' :
  Forall2 P l ts -> Forall2 Q l' ts' -> Forall2 R ts ts' ->
  (forall x t y t', x ∈ l -> P x t -> Q y t' -> R t t' -> T x y) -> Forall2 T l l'.
Proof.
  intros HP. revert l' ts'. induction HP as [|x t l ts Hx HP IH]; intros l' ts' HQ HR H.
  - inversion HR; subst. inversion HQ; subst. constructor.
  - inversion HR; subst. inversion HQ; subst. constructor; [eapply H; eauto; set_solver|]. eapply IH; eauto. intros. eapply H; eauto. set_solver.
Qed.

Lemma Forall2_elem_of_r {A B} (P : A -> B -> Prop) l ts t : Forall2 P l ts -> t ∈ ts -> exists x, x ∈ l /\ P x t.
Proof. intros HF Ht. apply list_elem_of_lookup in Ht as [i Hi]. destruct (Forall2_lookup_r _ _ _ _ _ HF Hi) as (x & Hx & Hp). exists x. split; [|done]. by eapply list_elem_of_lookup_2. Qed.

(** The values of two texts that start alike are the same. *)
Definition alike (d d' : nat) (t t' : list N) : Prop := forall x y,
  determined x -> writeValue d x = Some t -> writeValue d' y = Some t' -> same_json x y.

Lemma determined_array l : Forall determined l -> determined (JArray l).
Proof.
  rewrite Forall_forall. intros IH d d' b ta tb r r' Ha Hb Hr Hr' E. destruct b as [| | | |l'|]; try other_kind.
  apply writeValue_array in Ha as (ts & Fa & ->). apply writeValue_array in Hb as (ts' & Fb & ->).
  rewrite <- !app_assoc in E. cbn [app] in E. injection E as E. rewrite <- (map_id ts), <- (map_id ts') in E.
  apply (joined_prefix (alike (S d) (S d'))) in E as [HF ->]; [split; [|done]| | | |].
  - constructor. eapply (Forall2_through _ _ _ _ _ _ _ _ Fa Fb HF). cbn. intros x t y t' Hx Hw Hw' Hal.
    apply Hal; [|done|done]. by apply IH.
  - by left.
  - intros t t' Ht Ht' s s' Hs Hs' E'. destruct (Forall2_elem_of_r _ _ _ _ Fa Ht) as (x & Hx & Hw).
    destruct (Forall2_elem_of_r _ _ _ _ Fb Ht') as (y & Hy & Hw'). specialize (IH _ Hx). split.
    + intros x1 y1 Hd H1 H2. by apply (Hd _ _ _ _ _ _ _ H1 H2 Hs Hs' E').
    + by apply (IH _ _ _ _ _ _ _ Hw Hw' Hs Hs' E').
  - intros t Ht. destruct (Forall2_elem_of_r _ _ _ _ Fa Ht) as (x & Hx & Hw).
    apply writeValue_head in Hw as (c & t' & E' & Hc). exists c, t'. split; [done|]. by destruct (head_not_close _ _ Hc).
  - intros t Ht. destruct (Forall2_elem_of_r _ _ _ _ Fb Ht) as (x & Hx & Hw).
    apply writeValue_head in Hw as (c & t' & E' & Hc). exists c, t'. split; [done|]. by destruct (head_not_close _ _ Hc).
Qed.

(** The members in the order they are written. *)
Lemma written_members d ms found :
  Forall2 (writes d) ms found -> exists ns, Permutation ms ns /\ Forall2 (writes d) ns (sort_by member_le found).
Proof.
  intros HF. apply Forall2_flip in HF. destruct (Permutation_Forall2 (sort_by_perm member_le found) HF) as (ns & Hp & HF').
  exists ns. split; [done|]. by apply Forall2_flip.
Qed.

Lemma determined_object ms : Forall (fun m => determined m.2) ms -> determined (JObject ms).
Proof.
  rewrite Forall_forall. intros IH d d' b ta tb r r' Ha Hb Hr Hr' E. destruct b as [| | | | |ms']; try other_kind.
  apply writeValue_object in Ha as (fs & Fa & _ & ->). apply writeValue_object in Hb as (fs' & Fb & _ & ->).
  rewrite <- !app_assoc in E. cbn [app] in E. injection E as E.
  apply written_members in Fa as (ns & Hp & Fa). apply written_members in Fb as (ns' & Hp' & Fb). setoid_rewrite Hp in IH.
  apply (joined_prefix (fun f f' : member => f.1 = f'.1 /\ alike (S d) (S d') f.2 f'.2)) in E as [HF ->]; [split; [|done]| | | |].
  - apply (same_object _ _ ns ns' Hp Hp'). eapply (Forall2_through _ _ _ _ _ _ _ _ Fa Fb HF). cbn. intros m f m' f' Hm [Hk Hw] [Hk' Hw'] [Hkk Hal].
    split; [congruence|]. apply Hal; [|done|done]. by apply IH.
  - by right.
  - intros f f' Hf Hf' s s' Hs Hs' E'. destruct (Forall2_elem_of_r _ _ _ _ Fa Hf) as (x & Hx & Hk & Hw).
    destruct (Forall2_elem_of_r _ _ _ _ Fb Hf') as (y & Hy & Hk' & Hw'). specialize (IH _ Hx).
    unfold member_text in E'. rewrite <- !app_assoc in E'. apply writeString_prefix in E' as [Ek E']. cbn [app] in E'. injection E' as E'. split.
    + split; [done|]. intros x1 y1 Hd H1 H2. by apply (Hd _ _ _ _ _ _ _ H1 H2 Hs Hs' E').
    + by apply (IH _ _ _ _ _ _ _ Hw Hw' Hs Hs' E').
  - intros f _. eexists _, _. by split.
  - intros f _. eexists _, _. by split.
Qed.

Lemma writeValue_determined a : determined a.
Proof.
  induction a as [|c|s|s|l IH|ms IH] using json_ind; [| | | |by apply determined_array|by apply determined_object].
  - intros d d' b ta tb r r' Ha Hb Hr Hr' E. destruct b; try other_kind. written Ha. written Hb. injection Ha as <-. injection Hb as <-. cbn in E. injection E as ->. split; [constructor|done].
  - intros d d' b ta tb r r' Ha Hb Hr Hr' E. destruct b as [|c'| | | |]; try other_kind. written Ha. written Hb. injection Ha as <-. injection Hb as <-.
    destruct c, c'; cbn in E; [injection E as ->|discriminate E|discriminate E|injection E as ->]; split; try done; apply same_bool.
  - intros d d' b ta tb r r' Ha Hb Hr Hr' E. destruct b as [| |s'| | |]; try other_kind. written Ha. written Hb.
    destruct (formatNumber_chars _ _ Ha) as [Ca _]. destruct (formatNumber_chars _ _ Hb) as [Cb _].
    destruct (number_prefix _ _ _ _ Ca Cb Hr Hr' E) as [-> ->]. split; [|done]. constructor. by eapply formatNumber_same.
  - intros d d' b ta tb r r' Ha Hb Hr Hr' E. destruct b as [| | |s'| |]; try other_kind. written Ha. written Hb. injection Ha as <-. injection Hb as <-.
    apply writeString_prefix in E as [-> ->]. split; [constructor|done].
Qed.

(** ** The value determines the text *)

Lemma sort_members d ms found : NoDup (map fst ms) -> Forall2 (writes d) ms found -> NoDup (map fst found).
Proof.
  intros Hnd HF. assert (map fst found = map fst ms) as ->; [|done]. clear Hnd. induction HF as [|m f ms found [Hk _] HF IH]; [done|]. cbn. by rewrite Hk, IH.
Qed.
Lemma keys_determine (l : list member) f f' : NoDup (map fst l) -> f ∈ l -> f' ∈ l -> f.1 = f'.1 -> f = f'.
Proof.
  induction l as [|g l IH]; [by intros _ ?%not_elem_of_nil|]. cbn [map]. intros [Hg Hnd]%NoDup_cons. intros [->|Hf]%elem_of_cons [->|Hf']%elem_of_cons Hk; auto.
  - destruct Hg. rewrite Hk. by apply list_elem_of_fmap_2.
  - destruct Hg. rewrite <- Hk. by apply list_elem_of_fmap_2.
Qed.
(** Members have one order. *)
Lemma sort_members_unique (l l' : list member) :
  Permutation l l' -> NoDup (map fst l) -> Forall (fun f => Forall scalar f.1) l -> sort_by member_le l = sort_by member_le l'.
Proof.
  intros Hp Hnd Hsc. rewrite Forall_forall in Hsc. apply sort_by_unique; [apply member_le_total|apply member_le_trans|done|].
  intros f f' Hf Hf' H1 H2. apply (keys_determine l); auto. apply member_le_antisym; auto.
Qed.

Lemma found_same d d' ns ns' found found' :
  Forall (fun m => forall d d' b ta tb, same_json m.2 b -> scalar_json m.2 -> writeValue d m.2 = Some ta -> writeValue d' b = Some tb -> ta = tb) ns ->
  Forall (fun m => Forall scalar m.1 /\ scalar_json m.2) ns ->
  Forall2 (fun m n => m.1 = n.1 /\ same_json m.2 n.2) ns ns' ->
  Forall2 (writes d) ns found -> Forall2 (writes d') ns' found' -> found = found'.
Proof.
  intros IH Hsc HF. revert found found'. induction HF as [|m n ns ns' [Hk Hs] HF IHl]; intros found found' Fa Fb.
  - inversion Fa; subst. by inversion Fb.
  - inversion Fa as [|? f ? fs [Hf1 Hf2] Fa']; subst. inversion Fb as [|? f' ? fs' [Hf1' Hf2'] Fb']; subst.
    apply Forall_cons in IH as [IHm IH]. apply Forall_cons in Hsc as [[_ Hm] Hsc]. f_equal; [|by apply IHl].
    destruct f as [k t], f' as [k' t']. cbn in *. f_equal; [congruence|]. by eapply IHm.
Qed.

Lemma same_text a : forall d d' b ta tb,
  same_json a b -> scalar_json a -> writeValue d a = Some ta -> writeValue d' b = Some tb -> ta = tb.
Proof.
  induction a as [|c|s|s|l IH|ms IH] using json_ind; intros d d' b ta tb Hs Hsc Ha Hb; inversion Hs; subst.
  - written Ha. written Hb. congruence.
  - written Ha. written Hb. congruence.
  - written Ha. written Hb. by eapply formatNumber_same.
  - written Ha. written Hb. congruence.
  - apply writeValue_array in Ha as (ts & Fa & ->). apply writeValue_array in Hb as (ts' & Fb & ->). do 3 f_equal.
    apply scalar_array in Hsc. match goal with H : Forall2 same_json _ _ |- _ => rename H into HF end. clear Hs. revert ts ts' Fa Fb.
    induction HF as [|x y l l' Hxy HF IHl]; intros ts ts' Fa Fb; inversion Fa; subst; inversion Fb; subst; [done|].
    apply Forall_cons in IH as [IHx IH]. apply Forall_cons in Hsc as [Hx Hsc]. f_equal; [by eapply IHx|by apply IHl].
  - apply writeValue_object in Ha as (fs & Fa & Hnd & ->). apply writeValue_object in Hb as (fs' & Fb & _ & ->). do 4 f_equal.
    apply scalar_object in Hsc. match goal with H : Forall2 _ ns ns', Hp : Permutation ms ns, Hp' : Permutation _ ns' |- _ => rename H into HF, Hp into Hp0, Hp' into Hp1 end.
    destruct (Permutation_Forall2 Hp0 Fa) as (gs & Hg & Ga). destruct (Permutation_Forall2 Hp1 Fb) as (gs' & Hg' & Gb).
    apply sort_members_unique; [|by eapply sort_members|].
    + rewrite Hg, Hg'. rewrite Hp0 in IH, Hsc. by rewrite (found_same _ _ _ _ _ _ IH Hsc HF Ga Gb).
    + clear -Fa Hsc. induction Fa as [|m f ms fs [Hk _] Fa IHf]; [constructor|]. apply Forall_cons in Hsc as [[Hm _] Hsc].
      constructor; [by rewrite Hk|auto].
Qed.

(** ** Texts are scalar *)

Lemma joined_scalar ts : Forall (Forall scalar) ts -> Forall scalar (joined ts).
Proof.
  destruct ts as [|t ts]; [constructor|]. rewrite joined_cons, Forall_cons. intros [Ht Hts]. apply Forall_app. split; [done|].
  induction Hts as [|u ts Hu Hts IH]; [constructor|]. cbn. constructor; [unfold scalar; lia|]. apply Forall_app. auto.
Qed.
Lemma number_scalar t : Forall number_char t -> Forall scalar t.
Proof. intros H. eapply Forall_impl; [exact H|]. intros c [Hc|Hc]; unfold is_digit, scalar in *; [lia|]. set_unfold. lia. Qed.
Ltac wrapped := unfold scalar; repeat (apply Forall_cons; split; [lia|]); try apply Forall_nil_2.
Lemma writeValue_scalar a : forall d t, scalar_json a -> writeValue d a = Some t -> Forall scalar t.
Proof.
  induction a as [|c|s|s|l IH|ms IH] using json_ind; intros d t Hsc Ha.
  - written Ha. injection Ha as <-. wrapped.
  - written Ha. injection Ha as <-. destruct c; wrapped.
  - written Ha. apply formatNumber_chars in Ha as [Ha _]. by apply number_scalar.
  - written Ha. injection Ha as <-. by apply writeString_scalar.
  - apply writeValue_array in Ha as (ts & Fa & ->). apply scalar_array in Hsc. repeat (apply Forall_app; split); [wrapped| |wrapped].
    apply joined_scalar. clear -IH Hsc Fa. induction Fa as [|x u l ts Hx Fa IHl]; [constructor|].
    apply Forall_cons in IH as [IHx IH]. apply Forall_cons in Hsc as [Hx' Hsc]. constructor; [by eapply IHx|auto].
  - apply writeValue_object in Ha as (fs & Fa & _ & ->). apply scalar_object in Hsc. repeat (apply Forall_app; split); [wrapped| |wrapped].
    apply joined_scalar, Forall_fmap. rewrite <- sort_by_perm. clear -IH Hsc Fa. induction Fa as [|m f ms fs [Hk Hx] Fa IHl]; [constructor|].
    apply Forall_cons in IH as [IHx IH]. apply Forall_cons in Hsc as [[Hm Hx'] Hsc]. constructor; [|auto]. unfold compose, member_text. rewrite Hk.
    apply Forall_app. split; [by apply writeString_scalar|]. apply Forall_app. split; [wrapped|]. by eapply IHx.
Qed.
End values.
