(* ===== verification/CanonicalForm.v ===== *)
(** * Canonical documents

    Which documents have a canonical form, that it is UTF-8, and that two documents
    have the same one exactly if they stand for the same value. *)

From S2P Require Export CanonicalValues.
Local Open Scope list_scope.
Local Open Scope N_scope.

(** What is known of the decoder: its strings are texts of scalar values, as a
    sequence that is not valid is read as U+FFFD. *)
Class DecodeLaws `{JSONDecode} := decoded_scalar data v : decode_json data = Some v -> scalar_json v.

(** ** UTF-8 *)

Lemma between_true lo hi b : lo <= b <= hi -> between lo hi b = true.
Proof. intros [??]. unfold between. by rewrite (proj2 (N.leb_le lo b)), (proj2 (N.leb_le b hi)). Qed.
Lemma between_false lo hi b : b < lo \/ hi < b -> between lo hi b = false.
Proof. intros [H|H]; unfold between; apply andb_false_iff; [left|right]; by apply N.leb_gt. Qed.

Lemma runes_one b rest : b < 128 -> runes (b :: rest) = Some b :: runes rest.
Proof. intros H. cbn [runes]. by rewrite (proj2 (N.ltb_lt b 128)). Qed.
Lemma runes_two b0 b1 rest : two_byte b0 b1 = true -> runes (b0 :: b1 :: rest) = Some ((b0 - 192) * 64 + (b1 - 128)) :: runes rest.
Proof.
  intros H. cbn [runes]. rewrite H. unfold two_byte, between in H. apply andb_true_iff in H as [[H%N.leb_le _]%andb_true_iff _].
  by rewrite (proj2 (N.ltb_ge b0 128)) by lia.
Qed.
Lemma runes_three b0 b1 b2 rest :
  224 <= b0 -> three_byte b0 b1 b2 = true -> runes (b0 :: b1 :: b2 :: rest) = Some ((b0 - 224) * 4096 + (b1 - 128) * 64 + (b2 - 128)) :: runes rest.
Proof.
  intros Hb H. cbn [runes]. rewrite H. rewrite (proj2 (N.ltb_ge b0 128)) by lia. unfold two_byte. by rewrite (between_false 194 223 b0) by lia.
Qed.
Lemma runes_four b0 b1 b2 b3 rest :
  240 <= b0 -> four_byte b0 b1 b2 b3 = true ->
  runes (b0 :: b1 :: b2 :: b3 :: rest) = Some ((b0 - 240) * 262144 + (b1 - 128) * 4096 + (b2 - 128) * 64 + (b3 - 128)) :: runes rest.
Proof.
  intros Hb H. cbn [runes]. rewrite H. rewrite (proj2 (N.ltb_ge b0 128)) by lia. unfold two_byte, three_byte.
  rewrite (between_false 194 223 b0), (between_false 225 236 b0), (between_false 238 239 b0) by lia.
  rewrite (proj2 (N.eqb_neq b0 224)), (proj2 (N.eqb_neq b0 237)) by lia. by rewrite andb_false_r.
Qed.

(** A number by its digits of six bits. *)
Lemma sextets r : exists a b c d, r = a * 262144 + b * 4096 + c * 64 + d /\ b < 64 /\ c < 64 /\ d < 64 /\
  r / 262144 = a /\ (r / 4096) mod 64 = b /\ (r / 64) mod 64 = c /\ r mod 64 = d /\ r / 4096 = a * 64 + b /\ r / 64 = a * 4096 + b * 64 + c.
Proof.
  exists (r / 64 / 64 / 64), ((r / 64 / 64) mod 64), ((r / 64) mod 64), (r mod 64).
  pose proof (N.div_mod r 64 ltac:(done)) as E1. pose proof (N.div_mod (r / 64) 64 ltac:(done)) as E2. pose proof (N.div_mod (r / 64 / 64) 64 ltac:(done)) as E3.
  pose proof (N.mod_lt r 64 ltac:(done)). pose proof (N.mod_lt (r / 64) 64 ltac:(done)). pose proof (N.mod_lt (r / 64 / 64) 64 ltac:(done)).
  assert (r / 4096 = r / 64 / 64) as Ea by (rewrite N.Div0.div_div; done). assert (r / 262144 = r / 64 / 64 / 64) as Eb by (rewrite !N.Div0.div_div; done).
  rewrite Ea, Eb. split_and!; try done; lia.
Qed.
Lemma runes_utf8_rune r rest : scalar r -> runes (utf8_rune r ++ rest) = Some r :: runes rest.
Proof.
  intros Hr. destruct (sextets r) as (a & b & c & d & Er & Hb & Hc & Hd & E1 & E2 & E3 & E4 & E5 & E6).
  unfold utf8_rune. rewrite E1, E2, E3, E4, E5, E6. unfold scalar in Hr.
  destruct (N.ltb_spec r 128); [cbn [app]; by apply runes_one|].
  destruct (N.ltb_spec r 2048).
  { assert (a = 0 /\ b = 0) as [-> ->] by lia. cbn [app]. rewrite runes_two; [do 2 f_equal; lia|]. unfold two_byte, continuation. by rewrite !between_true by lia. }
  destruct (N.ltb_spec r 65536).
  { assert (a = 0) as -> by lia. cbn [app]. rewrite runes_three; [do 2 f_equal; lia|lia|]. unfold three_byte, continuation.
    rewrite (between_true 128 191 (128 + d)), (between_true 128 191 (128 + c)), !andb_true_r by lia. cbn [andb].
    assert (b = 0 \/ 1 <= b <= 12 \/ b = 13 \/ 14 <= b <= 15) as [-> |[Hb'|[-> |Hb']]] by lia.
    - rewrite (between_true 160 191) by lia. done.
    - rewrite (between_true 225 236) by lia. by rewrite orb_true_r.
    - rewrite (between_true 128 159) by lia. done.
    - rewrite (between_true 238 239) by lia. by rewrite !orb_true_r. }
  cbn [app]. rewrite runes_four; [do 2 f_equal; lia|lia|]. unfold four_byte, continuation.
  rewrite (between_true 128 191 (128 + d)), (between_true 128 191 (128 + c)), (between_true 128 191 (128 + b)), !andb_true_r by lia. cbn [andb].
  assert (a = 0 \/ 1 <= a <= 3 \/ a = 4) as [-> |[Ha| ->]] by lia.
  - rewrite (between_true 144 191) by lia. done.
  - rewrite (between_true 241 243) by lia. by rewrite orb_true_r.
  - rewrite (between_true 128 143) by lia. by rewrite !orb_true_r.
Qed.
Lemma runes_utf8 t : Forall scalar t -> runes (utf8 t) = map Some t.
Proof. induction 1 as [|r t Hr Ht IH]; [done|]. cbn. rewrite runes_utf8_rune by done. by rewrite <- IH. Qed.
Lemma utf8_inj t t' : Forall scalar t -> Forall scalar t' -> utf8 t = utf8 t' -> t = t'.
Proof.
  intros Ht Ht' E. apply (f_equal runes) in E. rewrite !runes_utf8 in E by done. revert t' Ht' E. clear Ht.
  induction t as [|a t IH]; intros [|b t'] Ht' E; try done. apply Forall_cons in Ht' as [_ Ht']. cbn in E. injection E as -> E. f_equal. auto.
Qed.
Lemma utf8_valid t : Forall scalar t -> valid_utf8 (utf8 t) = true.
Proof. intros Ht. unfold valid_utf8. rewrite runes_utf8 by done. clear. by induction t. Qed.

(** ** Documents with a canonical form *)

Section forms.
Context {D : Doubles} {Decode : JSONDecode} {Laws : DoubleLaws} {DLaws : DecodeLaws}.

(** Nested no deeper than the bound, with finite numbers and distinct names. *)
Fixpoint i_json (depth : nat) (v : json) : Prop :=
  (depth <= maxDepth)%nat /\
  match v with
  | JNumber s => is_Some (parse_double s)
  | JArray l => foldr (fun x p => i_json (S depth) x /\ p) True l
  | JObject ms => NoDup (map fst ms) /\ foldr (fun m p => i_json (S depth) m.2 /\ p) True ms
  | _ => True
  end.

Lemma formatNumber_total s : is_Some (formatNumber s) <-> is_Some (parse_double s).
Proof. unfold formatNumber. destruct (parse_double s) as [v|]; [|split; by intros [??]]. destruct (is_zero v), (shortest v); split; eauto. Qed.

Lemma writeValue_total v : forall d, is_Some (writeValue d v) <-> i_json d v.
Proof.
  induction v as [|c|s|s|l IH|ms IH] using json_ind; intros d; cbn [writeValue i_json]; destruct (Nat.ltb_spec maxDepth d) as [Hd|Hd];
    try (split; [by intros [??]|intros [? _]; lia]).
  - split; [split; [done|done]|eauto].
  - split; [split; [done|done]|eauto].
  - rewrite formatNumber_total. tauto.
  - split; [split; [done|done]|eauto].
  - rewrite (foldr_and (i_json (S d))). match goal with |- context [match ?f l with _ => _ end] => set (items := f) end.
    assert (is_Some (items l) <-> Forall (i_json (S d)) l) as Hi.
    { clear Hd. induction IH as [|x l Hx IH IHl]; cbn [items]; [split; [constructor|eauto]|]. rewrite Forall_cons, <- IHl, <- Hx.
      destruct (writeValue (S d) x); [|split; [by intros [??]|by intros [[??] _]]]. destruct (items l); split; try (by intros [? [??]]); try (by intros [??]); eauto. }
    destruct (items l); rewrite <- Hi; split; try (by intros [??]); try (by intros [? [??]]); eauto.
  - rewrite (foldr_and (fun m : list N * json => i_json (S d) m.2)). match goal with |- context [match ?f [] ms with _ => _ end] => set (members := f) end.
    assert (forall seen, is_Some (members seen ms) <-> NoDup (map fst ms) /\ (forall k, k ∈ map fst ms -> k ∉ seen) /\ Forall (fun m => i_json (S d) m.2) ms) as Hm.
    { clear Hd. induction IH as [|[k x] ms Hx IH IHl]; intros seen; cbn [members map fst].
      { split; [intros _; split_and!; try constructor; by intros k ?%not_elem_of_nil|eauto]. }
      rewrite Forall_cons, NoDup_cons. cbn [snd]. rewrite <- Hx. cbn [snd]. destruct (bool_decide (k ∈ seen)) eqn:Ek.
      { apply bool_decide_eq_true in Ek. split; [by intros [??]|]. intros (_ & H & _). destruct (H k); [set_solver|done]. }
      apply bool_decide_eq_false in Ek. specialize (IHl (k :: seen)).
      destruct (writeValue (S d) x); [|split; [by intros [??]|by intros (_ & _ & [??] & _)]].
      transitivity (is_Some (members (k :: seen) ms)); [destruct (members (k :: seen) ms); split; try (by intros [??]); eauto|]. rewrite IHl. split.
      - intros (Hn & Hs & HF). split_and!; [intros Hk; apply (Hs k Hk); set_solver|done| |eauto|done].
        intros k' [->|Hk']%elem_of_cons; [done|]. specialize (Hs k' Hk'). set_solver.
      - intros ((Hk & Hn) & Hs & _ & HF). split_and!; [done| |done]. intros k' Hk'. specialize (Hs k' ltac:(set_solver)). set_unfold. intros [-> |?]; auto. }
    specialize (Hm []). assert (forall k : list N, k ∈ map fst ms -> k ∉ []) as Hnil by (intros ? _; apply not_elem_of_nil).
    destruct (members [] ms); (split; [intros [? Hx]|intros (_ & Hn & HF)]); try done; [destruct (proj1 Hm ltac:(eauto)) as (? & _ & ?); auto|]. by destruct (proj2 Hm (conj Hn (conj Hnil HF))).
Qed.

Lemma Canonicalize_value data c :
  Canonicalize data = Some c -> exists v t, decode_json data = Some v /\ writeValue 0 v = Some t /\ c = utf8 t /\ Forall scalar t /\ scalar_json v.
Proof.
  unfold Canonicalize. destruct (valid_utf8 data); [|done]. destruct (rejectLoneSurrogates data); [done|]. cbn [negb].
  destruct (decode_json data) as [v|] eqn:Ev; [|done]. destruct (writeValue 0 v) as [t|] eqn:Et; [|done]. cbn. intros [= <-].
  pose proof (decoded_scalar _ _ Ev) as Hs. exists v, t. split_and!; auto. by eapply writeValue_scalar.
Qed.

Lemma Canonicalize_total data :
  is_Some (Canonicalize data) <->
  valid_utf8 data = true /\ rejectLoneSurrogates data = false /\ exists v, decode_json data = Some v /\ i_json 0 v.
Proof.
  unfold Canonicalize. destruct (valid_utf8 data); cbn [negb]; [|split; [by intros [??]|by intros [? _]]].
  destruct (rejectLoneSurrogates data); [split; [by intros [??]|by intros (_ & ? & _)]|].
  destruct (decode_json data) as [v|]; [|split; [by intros [??]|by intros (_ & _ & ? & ? & _)]].
  rewrite fmap_is_Some, writeValue_total. split; [eauto|]. by intros (_ & _ & ? & [= <-] & ?).
Qed.

Lemma canonical_same data data' c c' v v' :
  Canonicalize data = Some c -> Canonicalize data' = Some c' -> decode_json data = Some v -> decode_json data' = Some v' ->
  valid_utf8 c = true /\ (c = c' <-> same_json v v').
Proof.
  intros Hc Hc' Hv Hv'. apply Canonicalize_value in Hc as (? & t & E & Hw & -> & Ht & Hs). rewrite E in Hv. injection Hv as ->.
  apply Canonicalize_value in Hc' as (? & t' & E' & Hw' & -> & Ht' & Hs'). rewrite E' in Hv'. injection Hv' as ->.
  split; [by apply utf8_valid|]. split.
  - intros Heq%utf8_inj; [|done|done]. subst t'. by apply (writeValue_determined v _ _ v' t t [] [] Hw Hw').
  - intros Hsame. by rewrite (same_text v _ _ _ _ _ Hsame Hs Hw Hw').
Qed.

(** C10: A JSON document has a canonical form exactly if it is UTF-8 without a lone
    surrogate escape, decodes, nests no deeper than 64, and has finite numbers and
    distinct member names in every object; and the canonical forms of two documents
    are the same bytes exactly if the documents stand for the same value: equal
    strings, booleans and nulls, numbers of the same double, arrays item by item,
    and objects with the same members in any order.  Canonical bytes are UTF-8.
    Doubles are read and printed by [strconv], of which [DoubleLaws] is assumed:
    the shortest digits of a double make a decimal, and every decimal text that
    denotes it reads back as the double. *)
Theorem canonical_form_is_faithful data data' :
  (is_Some (Canonicalize data) <->
     valid_utf8 data = true /\ rejectLoneSurrogates data = false /\ exists v, decode_json data = Some v /\ i_json 0 v) /\
  forall c c' v v',
    Canonicalize data = Some c -> Canonicalize data' = Some c' -> decode_json data = Some v -> decode_json data' = Some v' ->
    valid_utf8 c = true /\ (c = c' <-> same_json v v').
Proof.
  split; [apply Canonicalize_total|]. intros c c' v v'. apply canonical_same.
Qed.
End forms.

(** ** An example *)

Section example_doubles.
Local Open Scope Z_scope.
(** Some doubles, the shortest digits of each with their exponent, and the signs. *)
Inductive sample := Zero | One | MinusHalf | Large.
Definition sample_shortest (v : sample) : list N * Z :=
  match v with Zero => ([48%N], 0) | One => ([49%N], 0) | MinusHalf => ([53%N], -1) | Large => ([49%N; 53%N], 21) end.
Definition sample_decimal (v : sample) : Z * Z :=
  match v with Zero => (0, 0) | One => (1, 0) | MinusHalf => (-5, -1) | Large => (15, 20) end.
Definition same_decimalb (a b : Z * Z) : bool := a.1 * 10 ^ (a.2 - Z.min a.2 b.2) =? b.1 * 10 ^ (b.2 - Z.min a.2 b.2).
Definition sample_parse (s : list N) : option sample :=
  match read_decimal s with
  | None => None
  | Some d => find (fun v => same_decimalb d (sample_decimal v)) [Zero; One; MinusHalf; Large]
  end.
End example_doubles.
#[local] Instance sample_doubles : Doubles := {
  Double := sample;
  parse_double := sample_parse;
  is_zero v := match v with Zero => true | _ => false end;
  is_negative v := match v with MinusHalf => true | _ => false end;
  shortest := sample_shortest
}.

Lemma same_decimal_at k a b : (k <= a.2)%Z -> (k <= b.2)%Z -> same_decimal a b <-> (a.1 * 10 ^ (a.2 - k) = b.1 * 10 ^ (b.2 - k))%Z.
Proof.
  intros Ha Hb. unfold same_decimal. set (m := Z.min a.2 b.2). assert (k <= m)%Z by (subst m; lia).
  replace (a.2 - k)%Z with (a.2 - m + (m - k))%Z by lia. replace (b.2 - k)%Z with (b.2 - m + (m - k))%Z by lia.
  rewrite !Z.pow_add_r, !Z.mul_assoc by (subst m; lia). symmetry. apply Z.mul_cancel_r. apply Z.pow_nonzero; lia.
Qed.
Lemma same_decimal_join a b c : same_decimal a b -> same_decimal a c -> same_decimal b c.
Proof.
  set (k := Z.min a.2 (Z.min b.2 c.2)). rewrite !(same_decimal_at k) by (subst k; lia). congruence.
Qed.
#[local] Instance sample_laws : DoubleLaws.
Proof.
  split.
  - intros [] Hz; try done; eexists _, _; split_and!; try reflexivity; try lia; repeat (apply Forall_cons; split); try apply Forall_nil_2; unfold is_digit; lia.
  - intros [] Hz; cbn; lia.
  - intros v s d Hz Hd Hs. assert (same_decimal d (sample_decimal v)) as Hv by (by destruct v). clear Hs.
    cbn. unfold sample_parse. rewrite Hd. assert (forall w, same_decimalb d (sample_decimal w) = true -> w = v) as Huniq.
    { intros w Hw%Z.eqb_eq. pose proof (same_decimal_join _ _ _ Hw Hv) as H. by destruct w, v. }
    assert (same_decimalb d (sample_decimal v) = true) as Hself by (by apply Z.eqb_eq).
    cbn [find]. repeat (case_match; [f_equal; by apply Huniq|]). destruct v; congruence.
Qed.

(** A text with single quotes for double ones. *)
Definition quoted (s : string) : list N := map (fun c => if c =? 39 then 34 else c) (bytes s).
Definition document_a : list N := quoted "{'b': 1.0, 'a': [-5e-1, 'x\ud83d\ude00'], 'c': 15e20}".
Definition document_b : list N := quoted "{'a':[-0.5,'x😀'],'c':1500000000000000000000,'b':1}".
Definition value_a : json := JObject [(bytes "b", JNumber (bytes "1.0")); (bytes "a", JArray [JNumber (bytes "-5e-1"); JString [120; 128512]]);
  (bytes "c", JNumber (bytes "15e+20"))].
Definition value_b : json := JObject [(bytes "a", JArray [JNumber (bytes "-0.5"); JString [120; 128512]]);
  (bytes "c", JNumber (bytes "1500000000000000000000")); (bytes "b", JNumber (bytes "1"))].
#[local] Instance sample_decode : JSONDecode := fun data =>
  if bool_decide (data = document_a) then Some value_a else if bool_decide (data = document_b) then Some value_b else None.
#[local] Instance sample_decode_laws : DecodeLaws.
Proof.
  intros data v. unfold decode_json, sample_decode. assert (forall l, forallb (fun r => (r <? 55296) || between 57344 1114111 r) l = true -> Forall scalar l) as Hsc.
  { intros l Hl. apply Forall_forall. intros x Hx. rewrite forallb_forall in Hl. apply list_elem_of_In in Hx. specialize (Hl x Hx).
    apply orb_true_iff in Hl as [?%N.ltb_lt|[?%N.leb_le ?%N.leb_le]%andb_true_iff]; [left|right]; lia. }
  repeat case_bool_decide; try done; intros [= <-]; cbn; split_and!; try done; apply Hsc; reflexivity.
Qed.

Lemma canonical_form_is_faithful_witness :
  exists c, Canonicalize document_a = Some c /\ Canonicalize document_b = Some c /\ same_json value_a value_b /\
    c = quoted "{'a':[-0.5,'x😀'],'b':1,'c':1.5e+21}".
Proof.
  destruct (Canonicalize document_a) as [c|] eqn:Ea; [|by vm_compute in Ea]. exists c. split; [done|].
  assert (Canonicalize document_b = Some c) as Eb by (rewrite <- Ea; vm_compute; reflexivity). split; [done|].
  split; [|vm_compute in Ea; injection Ea as <-; vm_compute; reflexivity].
  by apply (proj2 (canonical_form_is_faithful document_a document_b) c c value_a value_b Ea Eb).
Defined.
