(* ===== verification/Fanout.v ===== *)
(** * Data-driven fan-out: [internal/fanout]

    Freezing a roster or a selection document, and verifying a journaled map visit
    against its frozen roster.  SHA-256, the JSON encoder and decoder of the
    documents and the compiled schemas are classes; texts of errors are left out. *)

From S2P Require Export CanonicalForm JournalEvent Api WorkflowMachine.
Local Open Scope string_scope.
Local Open Scope list_scope.
Local Open Scope Z_scope.

(** ** Errors ([errors.go]) *)

Inductive SourceReason :=
| ReasonProducer | ReasonMediaType | ReasonTooLarge | ReasonEnvelope | ReasonIdentity | ReasonDuplicateIdentity
| ReasonMalformedDigest | ReasonDigestMismatch | ReasonItem.
Inductive IntegrityKind := KindMissing | KindExtra | KindDuplicate | KindConflicting.
Record IntegrityError := mkIntegrity { ie_Kind : IntegrityKind; ie_FanOut : string; ie_Branch : Z; ie_Seq : N }.
(** [Plain] is an error of neither type. *)
Inductive fanout_error :=
| SourceError (reason : SourceReason) (identity : string)
| Integrity (e : IntegrityError)
| Plain.

(** ** Data ([journal/mapfanout.go], [journal/event.go]) *)

Record MapItem := mkItem { mi_Identity : string; mi_Digest : string; mi_Item : list N }.
#[export] Instance MapItem_eq_dec : EqDecision MapItem.
Proof. solve_decision. Defined.
Record FanOutSourceRef := mkSource {
  fs_Task : string;
  fs_Slot : string;
  fs_Visit : N;
  fs_Attempt : Z;
  fs_Digest : string;
  fs_Integrity : string;
  fs_Path : string;
  fs_Size : Z;
  fs_MediaType : string
}.
#[export] Instance FanOutSourceRef_eq_dec : EqDecision FanOutSourceRef.
Proof. solve_decision. Defined.
Record MapRoster := mkRoster {
  mr_Source : FanOutSourceRef;
  mr_FailurePolicy : BranchFailurePolicy;
  mr_ItemTimeoutSeconds : Z;
  mr_MaxConcurrent : Z;
  mr_RosterDigest : string;
  mr_Items : list MapItem
}.
Record FrozenRosterBlob := mkBlob { fb_SchemaVersion : string; fb_Roster : MapRoster }.
Record BranchOutcome := mkOutcome {
  bo_Branch : Z;
  bo_Name : string;
  bo_Status : string;
  bo_MapItemIdentity : string;
  bo_MapItemDigest : string
}.

(** [apiv1.Map]: what a visit is pinned to. *)
Record Map := mkMapDef {
  md_Name : string;
  md_SourceTask : string;
  md_SourceSlot : string;
  md_Task : string;
  md_FailurePolicy : BranchFailurePolicy;
  md_ItemTimeoutSeconds : Z;
  md_MaxConcurrent : Z
}.

Record rosterEntry := mkEntry { re_Identity : string; re_Item : list N; re_Digest : option string }.

Class SHA256 := sha256 : list N -> list N.
Class FanoutDocuments := {
  (** [handoffcheck.Schema.Check] with the embedded roster schema; [None] if it does
      not compile. *)
  rosterEnvelopeSchema : option (list N -> bool);
  decode_roster : list N -> option (list rosterEntry);
  (** [json.Marshal] of an identity and an item. *)
  marshal_item : string -> list N -> option (list N);
  encode_blob : FrozenRosterBlob -> option (list N);
  (** The first value of a document, and whether nothing follows it. *)
  decode_blob : list N -> option (FrozenRosterBlob * bool)
}.

(** ** Identities and digests ([roster.go]) *)

Definition MaxFrozenItemBytes : Z := Z.shiftl 768 10.
Definition MaxSourceBytes : Z := Z.shiftl 1 20.
Definition MaxRosterItems : Z := 32.
Definition SourceMediaType : string := "application/json".
Definition FrozenRosterOverheadBytes : Z := Z.shiftl 64 10.
Definition MaxFrozenRosterBytes : Z := MaxSourceBytes + FrozenRosterOverheadBytes.
Definition FrozenRosterSchemaVersion : string := "goobers.dev/frozen-map-roster/v1".

Definition alnum (b : N) : bool := between 65 90 b || between 97 122 b || between 48 57 b.
Definition identity_rest (b : N) : bool := alnum b || existsb (N.eqb b) [46; 95; 45]%N.
Definition ValidIdentity (s : string) : bool :=
  match bytes s with
  | [] => false
  | b :: bs => alnum b && forallb identity_rest bs && (length bs <=? 127)%nat
  end.
Definition digest_prefix : list N := bytes "sha256:".
Definition ValidDigest (s : string) : bool :=
  bool_decide (take 7 (bytes s) = digest_prefix) && (length (bytes s) =? 71)%nat
  && forallb (fun b => between 48 57 b || between 97 102 b) (drop 7 (bytes s)).

Definition isJSONObject (data : list N) : bool :=
  let trimmed := TrimSpaceBytes data in
  (2 <=? length trimmed)%nat && bool_decide (head trimmed = Some 123%N) && bool_decide (last trimmed = Some 125%N).

Section fanout.
Context {D : Doubles} {Decode : JSONDecode} {Hash : SHA256} {Docs : FanoutDocuments}.

Definition hex_string (bs : list N) : list N := concat (map (fun b => [hex (b / 16); hex (b mod 16)]%N) bs).
(** [journal.Digest]. *)
Definition Digest (b : list N) : string := of_bytes (digest_prefix ++ hex_string (sha256 b)).

(** The canonical bytes of [{identity, item}], which the digest commits to. *)
Definition item_preimage (identity : string) (item : list N) : option (list N) :=
  if negb (isJSONObject item) then None
  else match marshal_item identity item with
  | None => None
  | Some data => Canonicalize data
  end.
Definition ItemDigest (identity : string) (item : list N) : option string := Digest <$> item_preimage identity item.

(** ** Freezing a roster *)

Definition freezeEntry (entry : rosterEntry) (seen : list string) : result fanout_error MapItem :=
  let fail reason := Error (SourceError reason (re_Identity entry)) in
  if negb (ValidIdentity (re_Identity entry)) then fail ReasonIdentity
  else if mem_string (re_Identity entry) seen then fail ReasonDuplicateIdentity
  else match Canonicalize (re_Item entry) with
  | None => fail ReasonItem
  | Some canonical =>
      if negb (isJSONObject canonical) then fail ReasonItem
      else if MaxFrozenItemBytes <? Z.of_nat (length canonical) then fail ReasonTooLarge
      else match ItemDigest (re_Identity entry) canonical with
      | None => fail ReasonItem
      | Some digest =>
          let item := mkItem (re_Identity entry) digest canonical in
          match re_Digest entry with
          | Some supplied =>
              if negb (ValidDigest supplied) then fail ReasonMalformedDigest
              else if negb (supplied =? digest)%string then fail ReasonDigestMismatch
              else Ok item
          | None => Ok item
          end
      end
  end.
Fixpoint freezeEntries (entries : list rosterEntry) (seen : list string) : result fanout_error (list MapItem) :=
  match entries with
  | [] => Ok []
  | entry :: entries =>
      match freezeEntry entry seen with
      | Error e => Error e
      | Ok item =>
          match freezeEntries entries (re_Identity entry :: seen) with
          | Error e => Error e
          | Ok items => Ok (item :: items)
          end
      end
  end.

Definition item_le (a b : MapItem) : bool := String.leb (mi_Identity a) (mi_Identity b).

Definition FreezeRoster (data : list N) (mediaType : string) : result fanout_error (list MapItem) :=
  if negb (mediaType =? SourceMediaType)%string then Error (SourceError ReasonMediaType "")
  else if MaxSourceBytes <? Z.of_nat (length data) then Error (SourceError ReasonTooLarge "")
  else match rosterEnvelopeSchema with
  | None => Error Plain
  | Some check =>
      if negb (check data) then Error (SourceError ReasonEnvelope "")
      else match decode_roster data with
      | None => Error (SourceError ReasonEnvelope "")
      | Some entries =>
          if MaxRosterItems <? Z.of_nat (length entries) then Error (SourceError ReasonEnvelope "")
          else match freezeEntries entries [] with
          | Error e => Error e
          | Ok items => Ok (sort_by item_le items)
          end
      end
  end.

(** ** Map visits ([verify.go]) *)

Definition EffectiveMaxConcurrent (m : Map) : Z := if md_MaxConcurrent m <=? 0 then 1 else md_MaxConcurrent m.

Record MapVisit := mkVisit {
  v_name : string;
  v_task : string;
  v_items : list MapItem;
  v_started : list bool;
  v_finished : list bool
}.

(** [prev] is the item before. *)
Definition verifyRosterItem (start : Event) (roster : MapRoster) (prev : option MapItem) (i : nat) (item : MapItem)
  : option IntegrityError :=
  let fail kind := Some (mkIntegrity kind (ev_Parallel start) (Z.of_nat i + 1) (ev_Seq start)) in
  if negb (ValidIdentity (mi_Identity item)) || negb (ValidDigest (mi_Digest item)) then fail KindConflicting
  else if match prev with Some p => (mi_Identity p =? mi_Identity item)%string | None => false end then fail KindDuplicate
  else if match prev with Some p => String.ltb (mi_Identity item) (mi_Identity p) | None => false end then fail KindConflicting
  else match mi_Item item with
  | [] => if (mr_RosterDigest roster =? "")%string then fail KindMissing else None
  | _ =>
      match ItemDigest (mi_Identity item) (mi_Item item) with
      | Some digest => if (digest =? mi_Digest item)%string then None else fail KindConflicting
      | None => fail KindConflicting
      end
  end.
Fixpoint verifyItems (start : Event) (roster : MapRoster) (prev : option MapItem) (i : nat) (items : list MapItem)
  : option IntegrityError :=
  match items with
  | [] => None
  | item :: items =>
      match verifyRosterItem start roster prev i item with
      | Some e => Some e
      | None => verifyItems start roster (Some item) (S i) items
      end
  end.

(** [start.MapRoster] is given beside [start]. *)
Definition NewMapVisit (start : Event) (mapRoster : option MapRoster) (def : Map) : result IntegrityError MapVisit :=
  let fail kind := Error (mkIntegrity kind (ev_Parallel start) 0 (ev_Seq start)) in
  if negb (bool_decide (ev_Type start = EventMapStarted)) then fail KindConflicting
  else match mapRoster with
  | None => fail KindMissing
  | Some roster =>
      if negb (ev_Parallel start =? md_Name def)%string then fail KindConflicting
      else if negb (fs_Task (mr_Source roster) =? md_SourceTask def)%string
           || negb (fs_Slot (mr_Source roster) =? md_SourceSlot def)%string then fail KindConflicting
      else if negb (bool_decide (mr_FailurePolicy roster = md_FailurePolicy def))
           || negb (mr_ItemTimeoutSeconds roster =? md_ItemTimeoutSeconds def)
           || negb (mr_MaxConcurrent roster =? EffectiveMaxConcurrent def) then fail KindConflicting
      else if MaxRosterItems <? Z.of_nat (length (mr_Items roster)) then fail KindExtra
      else if negb (mr_RosterDigest roster =? "")%string && negb (ValidDigest (mr_RosterDigest roster)) then fail KindConflicting
      else match verifyItems start roster None 0 (mr_Items roster) with
      | Some e => Error e
      | None =>
          let none := replicate (length (mr_Items roster)) false in
          Ok (mkVisit (md_Name def) (md_Task def) (mr_Items roster) none none)
      end
  end.
End fanout.
