(* ===== verification/FanoutVisit.v ===== *)
(** * Map visits: [internal/fanout/verify.go], [internal/runner/fanout_resume.go]

    What a visit makes of the events recorded after its [map.started], and the scan
    of a journal for the fan-out that has not finished. *)

From S2P Require Export Fanout.
Local Open Scope string_scope.
Local Open Scope list_scope.
Local Open Scope Z_scope.

Definition BranchCancelled : string := "cancelled".

Definition refuse (v : MapVisit) (kind : IntegrityKind) (e : Event) : IntegrityError :=
  mkIntegrity kind (v_name v) (ev_Branch e) (ev_Seq e).

Definition flag (l : list bool) (i : nat) : bool := default false (l !! i).
Definition set_started (i : nat) (v : MapVisit) : MapVisit :=
  mkVisit (v_name v) (v_task v) (v_items v) (<[i := true]> (v_started v)) (v_finished v).
Definition set_finished (i : nat) (b : bool) (v : MapVisit) : MapVisit :=
  mkVisit (v_name v) (v_task v) (v_items v) (v_started v) (<[i := b]> (v_finished v)).

(** The index is that of a roster item: [Observe] has checked it. *)
Definition matches_item (v : MapVisit) (index : nat) (e : Event) : bool :=
  match v_items v !! index with
  | Some item =>
      (ev_MapItemIdentity e =? mi_Identity item)%string && (ev_MapItemDigest e =? mi_Digest item)%string
      && ((ev_BranchName e =? "")%string || (ev_BranchName e =? mi_Identity item)%string)
  | None => false
  end.
Definition matchItem (v : MapVisit) (index : nat) (e : Event) : option IntegrityError :=
  if matches_item v index e then None else Some (refuse v KindConflicting e).

Definition observeStarted (v : MapVisit) (index : nat) (e : Event) : result IntegrityError MapVisit :=
  if negb (ev_Parallel e =? v_name v)%string then Error (refuse v KindConflicting e)
  else if flag (v_started v) index then Error (refuse v KindDuplicate e)
  else match matchItem v index e with
  | Some err => Error err
  | None =>
      if negb (ev_Stage e =? v_task v)%string then Error (refuse v KindConflicting e)
      else Ok (set_started index v)
  end.
Definition observeFinished (v : MapVisit) (index : nat) (e : Event) : result IntegrityError MapVisit :=
  if negb (ev_Parallel e =? v_name v)%string then Error (refuse v KindConflicting e)
  else if negb (flag (v_started v) index) && negb (ev_BranchStatus e =? BranchCancelled)%string then Error (refuse v KindMissing e)
  else if flag (v_finished v) index then Error (refuse v KindDuplicate e)
  else match matchItem v index e with
  | Some err => Error err
  | None => Ok (set_finished index true v)
  end.
Definition requireOpen (v : MapVisit) (index : nat) (e : Event) : result IntegrityError MapVisit :=
  if negb (flag (v_started v) index) then Error (refuse v KindMissing e)
  else if flag (v_finished v) index then Error (refuse v KindConflicting e)
  else Ok v.

Definition Observe (v : MapVisit) (e : Event) : result IntegrityError MapVisit :=
  if ev_Branch e =? 0 then
    match ev_Type e with
    | EventBranchStarted | EventBranchFinished => Error (refuse v KindConflicting e)
    | _ => Ok v
    end
  else if (ev_Branch e <? 0) || (Z.of_nat (length (v_items v)) <? ev_Branch e) then Error (refuse v KindExtra e)
  else
    let index := Z.to_nat (ev_Branch e - 1) in
    match ev_Type e with
    | EventBranchStarted => observeStarted v index e
    | EventBranchFinished => observeFinished v index e
    | EventRunResumed => Ok (if (ev_Target e =? TargetJoin)%string then set_finished index false v else v)
    | EventStageStarted | EventStageFinished =>
        if negb (ev_Stage e =? v_task v)%string then Error (refuse v KindConflicting e) else requireOpen v index e
    | EventGateStarted | EventGatePaused | EventGateEvaluated => requireOpen v index e
    | _ => Ok v
    end.

(** The loop over [e.Completeness]: [i] is the position, [seen] the branches so far. *)
Fixpoint verifyCompleteness (v : MapVisit) (e : Event) (i : nat) (seen : list Z) (outcomes : list BranchOutcome) : option IntegrityError :=
  match outcomes with
  | [] => None
  | outcome :: outcomes =>
      if existsb (Z.eqb (bo_Branch outcome)) seen then Some (refuse v KindDuplicate e)
      else match v_items v !! i with
      | None => Some (refuse v KindExtra e)
      | Some item =>
          if (bo_Branch outcome <? 1) || (Z.of_nat (length (v_items v)) <? bo_Branch outcome) then Some (refuse v KindExtra e)
          else if negb (bo_Branch outcome =? Z.of_nat i + 1) || negb (bo_Name outcome =? mi_Identity item)%string
               || negb (bo_MapItemIdentity outcome =? mi_Identity item)%string || negb (bo_MapItemDigest outcome =? mi_Digest item)%string
          then Some (refuse v KindConflicting e)
          else verifyCompleteness v e (S i) (bo_Branch outcome :: seen) outcomes
      end
  end.
(** [e.Completeness] is given beside [e]. *)
Definition VerifyFinished (v : MapVisit) (e : Event) (completeness : list BranchOutcome) : option IntegrityError :=
  if negb (bool_decide (ev_Type e = EventMapFinished)) || negb (ev_Parallel e =? v_name v)%string then Some (refuse v KindConflicting e)
  else match verifyCompleteness v e 0 [] completeness with
  | Some err => Some err
  | None => if (length completeness <? length (v_items v))%nat then Some (refuse v KindMissing e) else None
  end.

(** ** The pending fan-out *)

(** A journaled event with the payloads the fan-out code reads. *)
Record FanEvent := mkFanEvent { fe_event : Event; fe_MapRoster : option MapRoster; fe_Completeness : list BranchOutcome }.

(** [workflowgraph.BranchContainsState]. *)
Fixpoint contains_state (m : Machine) (target : string) (fuel : nat) (stack seen : list string) : option bool :=
  match fuel with
  | O => None
  | S n =>
      match stack with
      | [] => Some false
      | state :: stack =>
          if (state =? target)%string then Some true
          else if (state =? "")%string || IsReservedAnyTarget state || mem_string state seen || negb (Has m state)
          then contains_state m target n stack seen
          else contains_state m target n (push_stack (Outgoing m state) stack) (state :: seen)
      end
  end.
Definition BranchContainsState (m : Machine) (start target : string) : bool :=
  default false (contains_state m target (walk_fuel (Outgoing m) (stateNames (Def m)) [start]) [start] []).

(** [journal.LastIndex]. *)
Fixpoint LastIndex {A} (pred : A -> bool) (l : list A) : option nat :=
  match l with
  | [] => None
  | x :: l =>
      match LastIndex pred l with
      | Some i => Some (S i)
      | None => if pred x then Some 0%nat else None
      end
  end.

Section pending.
Context {D : Doubles} {Decode : JSONDecode} {Hash : SHA256} {Docs : FanoutDocuments}.
(** The pinned machine; [maps] is [Machine.Map]. *)
Context (m : Machine) (maps : string -> option Map).

Definition is_type (t : EventType) (e : FanEvent) : bool := bool_decide (ev_Type (fe_event e) = t).

(** The declaration of the parallel whose branch [branch] holds the gate. *)
Definition holds_gate (branch : Z) (gate : string) (e : FanEvent) : bool :=
  is_type EventParallelStarted e &&
  match m_parallels m !! ev_Parallel (fe_event e) with
  | Some spec =>
      match par_Branches spec !! Z.to_nat (branch - 1) with
      | Some b => BranchContainsState m (branch_Start b) gate
      | None => false
      end
  | None => false
  end.
Definition interventionParallelContext (events : list FanEvent) (gate : string) : option (string * Z) :=
  match LastIndex (fun e => is_type EventGateEvaluated e && (ev_Gate (fe_event e) =? gate)%string && (0 <? ev_Branch (fe_event e))) events with
  | None => None
  | Some gateIndex =>
      match events !! gateIndex with
      | None => None
      | Some g =>
          let branch := ev_Branch (fe_event g) in
          let before := take gateIndex events in
          match LastIndex (holds_gate branch gate) before with
          | None => None
          | Some i =>
              match before !! i with
              | Some e => (fun spec => (par_Name spec, branch)) <$> m_parallels m !! ev_Parallel (fe_event e)
              | None => None
              end
          end
      end
  end.

(** [start] is [-1] when no visit is pending. *)
Record pendingFanOut := mkPending { pf_start : option nat; pf_mapVisit : option MapVisit }.
Definition no_pending : pendingFanOut := mkPending None None.

Definition openMap (p : pendingFanOut) (e : FanEvent) (i : nat) : result IntegrityError pendingFanOut :=
  let fail kind := Error (mkIntegrity kind (ev_Parallel (fe_event e)) 0 (ev_Seq (fe_event e))) in
  match pf_mapVisit p with
  | Some _ => fail KindDuplicate
  | None =>
      match maps (ev_Parallel (fe_event e)) with
      | None => fail KindConflicting
      | Some def =>
          match NewMapVisit (fe_event e) (fe_MapRoster e) def with
          | Error err => Error err
          | Ok visit => Ok (mkPending (Some i) (Some visit))
          end
      end
  end.
Definition resume (p : pendingFanOut) (before : list FanEvent) (e : FanEvent) : pendingFanOut :=
  if negb (ev_Target (fe_event e) =? TargetJoin)%string then no_pending
  else match interventionParallelContext before (ev_Gate (fe_event e)) with
  | None => p
  | Some (parallel, _) =>
      match LastIndex (fun e => is_type EventParallelStarted e && (ev_Parallel (fe_event e) =? parallel)%string) before with
      | Some candidate => mkPending (Some candidate) None
      | None => p
      end
  end.
Definition advance (p : pendingFanOut) (before : list FanEvent) (e : FanEvent) : result IntegrityError pendingFanOut :=
  match ev_Type (fe_event e) with
  | EventParallelStarted => Ok (mkPending (Some (length before)) None)
  | EventMapStarted => openMap p e (length before)
  | EventParallelFinished =>
      Ok (match pf_start p, pf_mapVisit p with
          | Some s, None =>
              match before !! s with
              | Some started => if (ev_Parallel (fe_event e) =? ev_Parallel (fe_event started))%string then no_pending else p
              | None => p
              end
          | _, _ => p
          end)
  | EventMapFinished =>
      match pf_mapVisit p with
      | None => Error (mkIntegrity KindMissing (ev_Parallel (fe_event e)) 0 (ev_Seq (fe_event e)))
      | Some visit =>
          if negb (ev_Parallel (fe_event e) =? v_name visit)%string
          then Error (mkIntegrity KindMissing (ev_Parallel (fe_event e)) 0 (ev_Seq (fe_event e)))
          else match VerifyFinished visit (fe_event e) (fe_Completeness e) with
          | Some err => Error err
          | None => Ok no_pending
          end
      end
  | EventRunResumed => Ok (resume p before e)
  | _ => Ok p
  end.

(** What the pending map visit makes of the event. *)
Definition observe_pending (p : pendingFanOut) (e : FanEvent) : result IntegrityError pendingFanOut :=
  match pf_mapVisit p with
  | Some visit =>
      if negb (is_type EventMapStarted e) && negb (is_type EventMapFinished e) then
        match Observe visit (fe_event e) with
        | Error err => Error err
        | Ok visit => Ok (mkPending (pf_start p) (Some visit))
        end
      else Ok p
  | None => Ok p
  end.
Definition scan_step (p : pendingFanOut) (before : list FanEvent) (e : FanEvent) : result IntegrityError pendingFanOut :=
  match observe_pending p e with
  | Error err => Error err
  | Ok p => advance p before e
  end.
Fixpoint scan (p : pendingFanOut) (before : list FanEvent) (events : list FanEvent) : result IntegrityError pendingFanOut :=
  match events with
  | [] => Ok p
  | e :: events =>
      match scan_step p before e with
      | Error err => Error err
      | Ok p => scan p (before ++ [e]) events
      end
  end.
Definition findPendingFanOut (events : list FanEvent) : result IntegrityError pendingFanOut := scan no_pending [] events.
End pending.

(** ** Frozen fan-out sources: [internal/fanout/frozen_roster.go], [selection.go],
    [source.go], [internal/runner/fanout_source.go]

    The content-addressed roster of a map visit, and the frozen selection of a
    selective parallel. *)

Section freeze.
Context {D : Doubles} {Decode : JSONDecode} {Hash : SHA256} {Docs : FanoutDocuments}.

(** ** Rosters *)

Definition validateFrozenSource (def : Map) (source : FanOutSourceRef) (data : list N) : option fanout_error :=
  if (md_Name def =? "")%string then Some Plain
  else if negb (fs_Task source =? md_SourceTask def)%string || negb (fs_Slot source =? md_SourceSlot def)%string then Some Plain
  else if (fs_Visit source =? 0)%N || (fs_Attempt source <? 1) then Some Plain
  else if negb (ValidDigest (fs_Digest source)) then Some Plain
  else if negb (fs_MediaType source =? SourceMediaType)%string then Some (SourceError ReasonMediaType "")
  else if (fs_Size source <? 0) || (MaxSourceBytes <? fs_Size source) then Some (SourceError ReasonTooLarge "")
  else if negb (fs_Size source =? Z.of_nat (length data)) then Some Plain
  else if negb (Digest data =? fs_Digest source)%string then Some Plain
  else if negb (valid_integrity (fs_Integrity source)) then Some Plain
  else None.

(** The visit the frozen roster is checked with. *)
Definition probe_event (def : Map) : Event :=
  mkEvent "" 1 EventMapStarted 0 0 "" "" "" "" "" "" "" None "" None ∅ false (md_Name def) "" "" "" "" "" "" "" "" "" false 0.

Definition frozen_source (source : FanOutSourceRef) : FanOutSourceRef :=
  mkSource (fs_Task source) (fs_Slot source) 0 (fs_Attempt source) (fs_Digest source) (fs_Integrity source) "" (fs_Size source) (fs_MediaType source).
Definition frozen_blob (def : Map) (source : FanOutSourceRef) (items : list MapItem) : FrozenRosterBlob :=
  mkBlob FrozenRosterSchemaVersion
    (mkRoster (frozen_source source) (md_FailurePolicy def) (md_ItemTimeoutSeconds def) (EffectiveMaxConcurrent def) "" items).

Definition FreezeRosterBlob (def : Map) (source : FanOutSourceRef) (sourceData : list N)
  : result fanout_error (FrozenRosterBlob * list N * string) :=
  match validateFrozenSource def source sourceData with
  | Some e => Error e
  | None =>
      match FreezeRoster sourceData (fs_MediaType source) with
      | Error e => Error e
      | Ok items =>
          let blob := frozen_blob def source items in
          match NewMapVisit (probe_event def) (Some (fb_Roster blob)) def with
          | Error e => Error (Integrity e)
          | Ok _ =>
              match encode_blob blob with
              | None => Error Plain
              | Some data =>
                  if MaxFrozenRosterBytes <? Z.of_nat (length data) then Error (SourceError ReasonTooLarge "")
                  else Ok (blob, data, Digest data)
              end
          end
      end
  end.

Definition DecodeRosterBlob (data : list N) (digest : string) (def : Map) : result fanout_error FrozenRosterBlob :=
  if negb (ValidDigest digest) || negb (Digest data =? digest)%string then Error Plain
  else if MaxFrozenRosterBytes <? Z.of_nat (length data) then Error (SourceError ReasonTooLarge "")
  else match decode_blob data with
  | None => Error Plain
  | Some (blob, atEnd) =>
      if negb atEnd then Error Plain
      else if negb (fb_SchemaVersion blob =? FrozenRosterSchemaVersion)%string then Error Plain
      else match NewMapVisit (probe_event def) (Some (fb_Roster blob)) def with
      | Error e => Error (Integrity e)
      | Ok _ =>
          match encode_blob blob with
          | None => Error Plain
          | Some canonical => if bool_decide (data = canonical) then Ok blob else Error Plain
          end
      end
  end.

(** [freezeMapRoster] once the source is resolved: the [map.started] to append. *)
Definition map_started (def : Map) (source : FanOutSourceRef) (data : list N) : result fanout_error (Event * MapRoster) :=
  match FreezeRosterBlob def source data with
  | Error e => Error e
  | Ok (blob, _, digest) =>
      let roster := fb_Roster blob in
      Ok (mkEvent "" 0 EventMapStarted 0 0 "" "" "" "" "" "" "" None "" None ∅ false (md_Name def) "" "" "" "" "" "" "" "" "" false 0,
          mkRoster source (mr_FailurePolicy roster) (mr_ItemTimeoutSeconds roster) (mr_MaxConcurrent roster) digest (mr_Items roster))
  end.

(** ** Selections *)

Definition ValidateSourceBlobRef (source : FanOutSourceRef) (maxBytes : Z) : option fanout_error :=
  if (fs_Visit source =? 0)%N || (fs_Attempt source <? 1) then Some (SourceError ReasonProducer "")
  else if negb (ValidDigest (fs_Digest source)) then Some (SourceError ReasonMalformedDigest "")
  else if negb (fs_MediaType source =? SourceMediaType)%string then Some (SourceError ReasonMediaType "")
  else if (maxBytes <=? 0) || (MaxSourceBytes <? maxBytes) then Some Plain
  else if (fs_Size source <? 0) || (maxBytes <? fs_Size source) then Some (SourceError ReasonTooLarge "")
  else None.

Record SelBranch := mkSelBranch { sb_Name : string; sb_Optional : bool }.
(** [apiv1.Parallel]; [sel_Source] is the task and the slot of its selection. *)
Record SelParallel := mkSelParallel { sel_Name : string; sel_Branches : list SelBranch; sel_Source : option (string * string) }.
Record SelectionSource := mkSelSource { ss_Task : string; ss_Slot : string; ss_Visit : N; ss_Attempt : Z }.
Record ParallelSelection := mkSelection {
  ps_Source : SelectionSource;
  ps_SourceDigest : string;
  ps_Integrity : string;
  ps_Selected : list string;
  ps_Reasons : gmap string string
}.

Definition MaxSelectionReasonBytes : Z := 512.

Class SelectionDocuments := {
  selectionSchema : option (list N -> bool);
  (** The names with their reasons, and whether nothing follows the document. *)
  decode_selection : list N -> option (list (string * string) * bool)
}.
Context {Sels : SelectionDocuments}.

Definition envelope_error : fanout_error := SourceError ReasonEnvelope "".

Definition validateSelectionSource (def : SelParallel) (source : FanOutSourceRef) (data : list N) (maxSourceBytes : Z) : option fanout_error :=
  match sel_Source def with
  | None => Some envelope_error
  | Some (task, slot) =>
      if (sel_Name def =? "")%string then Some envelope_error
      else if negb (fs_Task source =? task)%string || negb (fs_Slot source =? slot)%string then Some envelope_error
      else if 2 ^ 31 - 1 <? fs_Attempt source then Some envelope_error
      else if negb (fs_Size source =? Z.of_nat (length data)) then Some envelope_error
      else if negb (Digest data =? fs_Digest source)%string then Some (SourceError ReasonDigestMismatch "")
      else ValidateSourceBlobRef source maxSourceBytes
  end.

(** The loop over [document.Branches]: [chosen] maps names to reasons. *)
Fixpoint choose_branches (declared : list string) (entries : list (string * string)) (chosen : gmap string string) : result fanout_error (gmap string string) :=
  match entries with
  | [] => Ok chosen
  | (name, reason) :: entries =>
      if negb (mem_string name declared) then Error envelope_error
      else if bool_decide (is_Some (chosen !! name)) then Error envelope_error
      else if MaxSelectionReasonBytes <? Z.of_nat (String.length reason) then Error envelope_error
      else choose_branches declared entries (<[name := reason]> chosen)
  end.

Definition select_branch (chosen : gmap string string) (acc : list string * gmap string string) (b : SelBranch) : list string * gmap string string :=
  match chosen !! sb_Name b with
  | Some reason =>
      if negb (sb_Optional b) then acc
      else (acc.1 ++ [sb_Name b], if (reason =? "")%string then acc.2 else <[sb_Name b := reason]> acc.2)
  | None => acc
  end.

Definition FreezeSelection (def : SelParallel) (source : FanOutSourceRef) (sourceData : list N) (maxSourceBytes : Z)
  : result fanout_error ParallelSelection :=
  match validateSelectionSource def source sourceData maxSourceBytes with
  | Some e => Error e
  | None =>
      match selectionSchema with
      | None => Error Plain
      | Some check =>
          if negb (check sourceData) then Error envelope_error
          else match decode_selection sourceData with
          | None => Error envelope_error
          | Some (entries, atEnd) =>
              if negb atEnd then Error envelope_error
              else match choose_branches (map sb_Name (sel_Branches def)) entries ∅ with
              | Error e => Error e
              | Ok chosen =>
                  let integrity := if valid_integrity (fs_Integrity source) then fs_Integrity source else "derived" in
                  let '(selected, reasons) := fold_left (select_branch chosen) (sel_Branches def) ([], ∅) in
                  Ok (mkSelection (mkSelSource (fs_Task source) (fs_Slot source) (fs_Visit source) (fs_Attempt source))
                        (fs_Digest source) integrity selected reasons)
              end
          end
      end
  end.
End freeze.
