(* ===== verification/FanoutVisitProps.v ===== *)
(** * What a map visit accepts

    A visit accepts a journal exactly if every record is allowed by the records of
    its own branch before it, and then knows which items started and which are
    settled; a [map.finished] closes a visit exactly if it lists the roster. *)

From S2P Require Export FanoutVisit.
Local Open Scope string_scope.
Local Open Scope list_scope.
Local Open Scope Z_scope.

(** ** What is allowed *)

Definition is_started (e : Event) : Prop := ev_Type e = EventBranchStarted.
Definition is_finished (e : Event) : Prop := ev_Type e = EventBranchFinished.
Definition reopens (e : Event) : Prop := ev_Type e = EventRunResumed /\ ev_Target e = TargetJoin.

(** In the records [h] of one branch: a start is among them, and the branch finished
    and was not reopened since. *)
Definition has_started (h : list Event) : Prop := Exists is_started h.
Definition settled (h : list Event) : Prop :=
  exists h1 e h2, h = h1 ++ e :: h2 /\ is_finished e /\ Forall (fun e => ~ reopens e) h2.

(** The records of a branch. *)
Definition records (b : Z) (es : list Event) : list Event := filter (fun e => ev_Branch e = b) es.

(** A record [e] is allowed after the records [h] of its branch. *)
Definition allowed (v : MapVisit) (h : list Event) (e : Event) : Prop :=
  if decide (ev_Branch e = 0) then ~ is_started e /\ ~ is_finished e
  else (1 <= ev_Branch e <= Z.of_nat (length (v_items v))) /\
    let carries := matches_item v (Z.to_nat (ev_Branch e - 1)) e = true in
    match ev_Type e with
    | EventBranchStarted => ev_Parallel e = v_name v /\ ~ has_started h /\ carries /\ ev_Stage e = v_task v
    | EventBranchFinished =>
        ev_Parallel e = v_name v /\ (has_started h \/ ev_BranchStatus e = BranchCancelled) /\ ~ settled h /\ carries
    | EventStageStarted | EventStageFinished => ev_Stage e = v_task v /\ has_started h /\ ~ settled h
    | EventGateStarted | EventGatePaused | EventGateEvaluated => has_started h /\ ~ settled h
    | _ => True
    end.
Definition all_allowed (v : MapVisit) (es : list Event) : Prop :=
  forall p e q, es = p ++ e :: q -> allowed v (records (ev_Branch e) p) e.

(** What the comment of [Observe] promises of a branch record (a lifecycle record, or
    work of a stage or gate): it starts its branch, once, or it comes after the start
    and before the branch is settled.  The code makes one exception, the cancelled
    finish of an item that was never started. *)
Definition branch_record (e : Event) : bool :=
  match ev_Type e with
  | EventBranchStarted | EventBranchFinished | EventStageStarted | EventStageFinished
  | EventGateStarted | EventGatePaused | EventGateEvaluated => true
  | _ => false
  end.
Definition in_its_branch (es : list Event) : Prop :=
  forall p e q, es = p ++ e :: q -> ev_Branch e <> 0 -> branch_record e = true ->
    let h := records (ev_Branch e) p in
    is_started e /\ ~ has_started h \/ has_started h /\ ~ settled h \/
    is_finished e /\ ev_BranchStatus e = BranchCancelled /\ ~ settled h.
Lemma allowed_in_its_branch v es : all_allowed v es -> in_its_branch es.
Proof.
  intros Ha p e q E Hb Hr. specialize (Ha p e q E). unfold allowed in Ha. destruct (decide (ev_Branch e = 0)) as [|_]; [done|].
  destruct Ha as [_ Ha]. unfold branch_record in Hr. unfold is_started, is_finished. destruct (ev_Type e); naive_solver.
Qed.

Fixpoint observe_all (v : MapVisit) (es : list Event) : result IntegrityError MapVisit :=
  match es with
  | [] => Ok v
  | e :: es => match Observe v e with Error err => Error err | Ok v => observe_all v es end
  end.

(** What a visit knows after the events [p]. *)
Record knows (v0 : MapVisit) (p : list Event) (v : MapVisit) : Prop := {
  knows_name : v_name v = v_name v0;
  knows_task : v_task v = v_task v0;
  knows_items : v_items v = v_items v0;
  knows_lengths : length (v_started v) = length (v_items v0) /\ length (v_finished v) = length (v_items v0);
  knows_started i : (i < length (v_items v0))%nat -> flag (v_started v) i = true <-> has_started (records (Z.of_nat i + 1) p);
  knows_finished i : (i < length (v_items v0))%nat -> flag (v_finished v) i = true <-> settled (records (Z.of_nat i + 1) p)
}.

(** ** Records *)

Lemma records_snoc b p e : records b (p ++ [e]) = records b p ++ (if decide (ev_Branch e = b) then [e] else []).
Proof. unfold records. rewrite filter_app, filter_cons, filter_nil. by destruct (decide (ev_Branch e = b)). Qed.
Lemma has_started_snoc h e : has_started (h ++ [e]) <-> has_started h \/ is_started e.
Proof. unfold has_started. rewrite Exists_app, Exists_cons, Exists_nil. tauto. Qed.
Lemma settled_nil : ~ settled [].
Proof. intros (h1 & e & h2 & E & _). by destruct h1. Qed.
Lemma settled_snoc h e : settled (h ++ [e]) <-> is_finished e \/ settled h /\ ~ reopens e.
Proof.
  split.
  - intros (h1 & x & h2 & E & Hx & Hf). destruct h2 as [|y h2 _] using rev_ind.
    + apply app_inj_tail in E as [_ ->]. by left.
    + rewrite app_comm_cons, app_assoc in E. apply app_inj_tail in E as [-> ->]. apply Forall_app in Hf as [Hf Hy]. rewrite Forall_singleton in Hy.
      right. split; [|exact Hy]. by exists h1, x, h2.
  - intros [He|[(h1 & x & h2 & -> & Hx & Hf) Hr]].
    + by exists h, e, [].
    + exists h1, x, (h2 ++ [e]). split; [by rewrite <- app_assoc|]. split; [done|]. apply Forall_app. split; [done|]. by apply Forall_singleton.
Qed.

Lemma flag_insert (l : list bool) i j b : (i < length l)%nat -> flag (<[i := b]> l) j = if decide (i = j) then b else flag l j.
Proof. intros Hi. unfold flag. destruct (decide (i = j)) as [<-|Hne]; [by rewrite list_lookup_insert_eq|by rewrite list_lookup_insert_ne]. Qed.

Lemma knows_fresh v n : n = length (v_items v) -> v_started v = replicate n false -> v_finished v = replicate n false -> knows v [] v.
Proof.
  intros Hn Hs Hf. assert (forall i, flag (replicate n false) i = false) as Hflag.
  { intros i. unfold flag. destruct (replicate n false !! i) eqn:E; [|done]. by apply lookup_replicate in E as [-> _]. }
  split; try done.
  - by rewrite Hs, Hf, !length_replicate.
  - intros i _. rewrite Hs, Hflag. split; [done|]. intros H. by apply Exists_nil in H.
  - intros i _. rewrite Hf, Hflag. split; [done|]. intros H. by apply settled_nil in H.
Qed.

(** ** One event *)

(** An event that is no start, no finish and no reopening changes nothing. *)
Lemma knows_same v0 p v e :
  knows v0 p v -> (ev_Branch e = 0 \/ ~ is_started e /\ ~ is_finished e /\ ~ reopens e) -> knows v0 (p ++ [e]) v.
Proof.
  intros K He. destruct K as [K1 K2 K3 K4 K5 K6]. split; try done; intros i Hi; rewrite records_snoc; destruct (decide (ev_Branch e = Z.of_nat i + 1)); try rewrite app_nil_r; auto.
  - rewrite has_started_snoc, K5 by done. destruct He as [|[? _]]; [lia|tauto].
  - rewrite settled_snoc, K6 by done. destruct He as [|(? & ? & ?)]; [lia|tauto].
Qed.
Lemma knows_start v0 p v e i :
  knows v0 p v -> (i < length (v_items v0))%nat -> ev_Branch e = Z.of_nat i + 1 -> is_started e -> knows v0 (p ++ [e]) (set_started i v).
Proof.
  intros [K1 K2 K3 K4 K5 K6] Hi Hb He. assert (~ is_finished e /\ ~ reopens e) as [Hnf Hnr] by (unfold is_finished, reopens, is_started in *; split; [|intros [? _]]; congruence).
  split; try done; cbn [v_started v_finished set_started].
  - rewrite length_insert. done.
  - intros j Hj. rewrite flag_insert by lia. rewrite records_snoc. destruct (decide (i = j)) as [<-|Hne].
    + rewrite decide_True by done. rewrite has_started_snoc. tauto.
    + rewrite decide_False by lia. rewrite app_nil_r. auto.
  - intros j Hj. rewrite K6, records_snoc by done. destruct (decide _); [rewrite settled_snoc; tauto|by rewrite app_nil_r].
Qed.
Lemma knows_finish v0 p v e i b :
  knows v0 p v -> (i < length (v_items v0))%nat -> ev_Branch e = Z.of_nat i + 1 -> ~ is_started e ->
  (b = true /\ is_finished e \/ b = false /\ ~ is_finished e /\ reopens e) -> knows v0 (p ++ [e]) (set_finished i b v).
Proof.
  intros [K1 K2 K3 K4 K5 K6] Hi Hbr Hs Hb. split; try done; cbn [v_started v_finished set_finished].
  - rewrite length_insert. done.
  - intros j Hj. rewrite K5, records_snoc by done. destruct (decide _); [rewrite has_started_snoc; tauto|by rewrite app_nil_r].
  - intros j Hj. rewrite flag_insert by lia. rewrite records_snoc. destruct (decide (i = j)) as [<-|Hne].
    + rewrite decide_True by done. rewrite settled_snoc. destruct Hb as [[-> ?]|[-> [? ?]]]; [tauto|]. split; [done|tauto].
    + rewrite decide_False by lia. rewrite app_nil_r. auto.
Qed.

Lemma requireOpen_spec v i e : requireOpen v i e = Ok v /\ flag (v_started v) i = true /\ flag (v_finished v) i = false \/
  (exists err, requireOpen v i e = Error err) /\ ~ (flag (v_started v) i = true /\ flag (v_finished v) i = false).
Proof. unfold requireOpen. destruct (flag (v_started v) i), (flag (v_finished v) i); cbn; eauto; right; (split; [eauto|]); by intros [? ?]. Qed.

Definition accepts_as (v0 : MapVisit) (p : list Event) (v : MapVisit) (e : Event) : Prop :=
  (exists v', Observe v e = Ok v' /\ knows v0 (p ++ [e]) v') /\ allowed v0 (records (ev_Branch e) p) e \/
  (exists err, Observe v e = Error err) /\ ~ allowed v0 (records (ev_Branch e) p) e.

Section one_event.
Context (v0 v : MapVisit) (p : list Event) (e : Event) (i : nat).
Hypothesis K : knows v0 p v.
Hypothesis Hi : (i < length (v_items v0))%nat.
Hypothesis Hb : ev_Branch e = Z.of_nat i + 1.
Let h := records (ev_Branch e) p.

Lemma known_started : flag (v_started v) i = true <-> has_started h.
Proof. unfold h. rewrite Hb. by apply K. Qed.
Lemma known_finished : flag (v_finished v) i = true <-> settled h.
Proof. unfold h. rewrite Hb. by apply K. Qed.
Lemma known_item : matches_item v i e = matches_item v0 i e.
Proof. unfold matches_item. by rewrite (knows_items _ _ _ K). Qed.

Lemma started_spec :
  is_started e ->
  (exists v', observeStarted v i e = Ok v' /\ knows v0 (p ++ [e]) v') /\
    (ev_Parallel e = v_name v0 /\ ~ has_started h /\ matches_item v0 i e = true /\ ev_Stage e = v_task v0) \/
  (exists err, observeStarted v i e = Error err) /\
    ~ (ev_Parallel e = v_name v0 /\ ~ has_started h /\ matches_item v0 i e = true /\ ev_Stage e = v_task v0).
Proof.
  intros He. unfold observeStarted, matchItem. rewrite known_item, <- known_started, (knows_name _ _ _ K), (knows_task _ _ _ K).
  destruct (String.eqb_spec (ev_Parallel e) (v_name v0)); cbn [negb]; [|right; naive_solver].
  destruct (flag (v_started v) i); [right; naive_solver|]. destruct (matches_item v0 i e); [|right; naive_solver].
  destruct (String.eqb_spec (ev_Stage e) (v_task v0)); cbn [negb]; [|right; naive_solver].
  left. split; [|naive_solver]. eexists. split; [done|]. by apply knows_start.
Qed.
Lemma finished_spec :
  is_finished e ->
  (exists v', observeFinished v i e = Ok v' /\ knows v0 (p ++ [e]) v') /\
    (ev_Parallel e = v_name v0 /\ (has_started h \/ ev_BranchStatus e = BranchCancelled) /\ ~ settled h /\ matches_item v0 i e = true) \/
  (exists err, observeFinished v i e = Error err) /\
    ~ (ev_Parallel e = v_name v0 /\ (has_started h \/ ev_BranchStatus e = BranchCancelled) /\ ~ settled h /\ matches_item v0 i e = true).
Proof.
  intros He. unfold observeFinished, matchItem. rewrite known_item, <- known_started, <- known_finished, (knows_name _ _ _ K).
  destruct (String.eqb_spec (ev_Parallel e) (v_name v0)); cbn [negb]; [|right; naive_solver].
  destruct (flag (v_started v) i) eqn:Es; cbn [negb andb].
  all: destruct (String.eqb_spec (ev_BranchStatus e) BranchCancelled); cbn [negb]; try (right; naive_solver).
  all: destruct (flag (v_finished v) i); [right; naive_solver|]; destruct (matches_item v0 i e); [|right; naive_solver].
  all: left; split; [|naive_solver]; eexists; split; [done|]; apply knows_finish; auto; unfold is_started, is_finished in *; congruence.
Qed.
Lemma open_spec :
  ~ is_started e -> ~ is_finished e -> ~ reopens e ->
  (exists v', requireOpen v i e = Ok v' /\ knows v0 (p ++ [e]) v') /\ (has_started h /\ ~ settled h) \/
  (exists err, requireOpen v i e = Error err) /\ ~ (has_started h /\ ~ settled h).
Proof.
  intros H1 H2 H3. rewrite <- known_started, <- known_finished. unfold requireOpen.
  destruct (flag (v_started v) i); cbn [negb]; [|right; naive_solver]. destruct (flag (v_finished v) i); [right; naive_solver|].
  left. split; [|naive_solver]. eexists. split; [done|]. apply knows_same; auto.
Qed.
End one_event.

Lemma Observe_spec v0 p v e : knows v0 p v -> accepts_as v0 p v e.
Proof.
  intros K. unfold accepts_as, Observe, allowed. destruct (Z.eqb_spec (ev_Branch e) 0) as [E0|E0].
  - rewrite decide_True by done. assert (knows v0 (p ++ [e]) v) as K' by (apply knows_same; auto). unfold is_started, is_finished.
    destruct (ev_Type e); try (left; split; [by eauto|by split]); right; naive_solver.
  - rewrite decide_False by done. rewrite (knows_items _ _ _ K).
    destruct ((ev_Branch e <? 0) || (Z.of_nat (length (v_items v0)) <? ev_Branch e)) eqn:Er.
    { right. split; [eauto|]. intros [Hr _]. apply orb_true_iff in Er as [?%Z.ltb_lt|?%Z.ltb_lt]; lia. }
    apply orb_false_iff in Er as [?%Z.ltb_ge ?%Z.ltb_ge]. set (i := Z.to_nat (ev_Branch e - 1)).
    assert ((i < length (v_items v0))%nat /\ ev_Branch e = Z.of_nat i + 1) as [Hi Hb] by (subst i; lia).
    assert (1 <= ev_Branch e <= Z.of_nat (length (v_items v0))) as Hr by lia.
    destruct (ev_Type e) eqn:Et;
      try (left; split; [eexists; split; [reflexivity|apply knows_same; [done|right; unfold is_started, is_finished, reopens; rewrite Et; naive_solver]]|done]).
    all: try (destruct (open_spec v0 v p e i K Hi Hb) as [[HO HA]|[HO HA]];
      [unfold is_started; congruence|unfold is_finished; congruence|intros [? _]; congruence|left|right]; split; tauto).
    + (* run.resumed *) left. split; [|done]. eexists. split; [reflexivity|]. destruct (String.eqb_spec (ev_Target e) TargetJoin).
      * apply knows_finish; auto; unfold is_started, is_finished, reopens; [congruence|right; split_and!; congruence].
      * apply knows_same; [done|right]. unfold is_started, is_finished, reopens. split_and!; [congruence|congruence|by intros [_ ?]].
    + (* stage.started *) rewrite (knows_task _ _ _ K). destruct (String.eqb_spec (ev_Stage e) (v_task v0)); cbn [negb]; [|right; split; [eauto|]; by intros [_ [? _]]].
      destruct (open_spec v0 v p e i K Hi Hb) as [[HO HA]|[HO HA]];
        [unfold is_started; congruence|unfold is_finished; congruence|intros [? _]; congruence|left|right]; split; tauto.
    + (* stage.finished *) rewrite (knows_task _ _ _ K). destruct (String.eqb_spec (ev_Stage e) (v_task v0)); cbn [negb]; [|right; split; [eauto|]; by intros [_ [? _]]].
      destruct (open_spec v0 v p e i K Hi Hb) as [[HO HA]|[HO HA]];
        [unfold is_started; congruence|unfold is_finished; congruence|intros [? _]; congruence|left|right]; split; tauto.
    + destruct (started_spec v0 v p e i K Hi Hb Et) as [[HO HA]|[HO HA]]; [left|right]; split; tauto.
    + destruct (finished_spec v0 v p e i K Hi Hb Et) as [[HO HA]|[HO HA]]; [left|right]; split; tauto.
Qed.

(** ** Journals *)

Lemma all_allowed_cons v p e es :
  (forall p' e' q, es = p' ++ e' :: q -> allowed v (records (ev_Branch e') ((p ++ [e]) ++ p')) e') /\ allowed v (records (ev_Branch e) p) e <->
  (forall p' e' q, e :: es = p' ++ e' :: q -> allowed v (records (ev_Branch e') (p ++ p')) e').
Proof.
  split.
  - intros [H1 H2] [|x p'] e' q; cbn; intros [= -> E]; [by rewrite app_nil_r|]. subst. specialize (H1 p' e' q eq_refl). by rewrite <- app_assoc in H1.
  - intros H. split; [|specialize (H [] e es eq_refl); by rewrite app_nil_r in H]. intros p' e' q ->. rewrite <- app_assoc. by apply (H (e :: p') e' q).
Qed.
Lemma observe_all_spec v0 es : forall p v, knows v0 p v ->
  (exists v', observe_all v es = Ok v' /\ knows v0 (p ++ es) v') /\
    (forall p' e q, es = p' ++ e :: q -> allowed v0 (records (ev_Branch e) (p ++ p')) e) \/
  (exists err, observe_all v es = Error err) /\
    ~ (forall p' e q, es = p' ++ e :: q -> allowed v0 (records (ev_Branch e) (p ++ p')) e).
Proof.
  induction es as [|e es IH]; intros p v K; cbn [observe_all].
  - left. split; [exists v; by rewrite app_nil_r|]. intros [|? p1] e1 q1; done.
  - rewrite <- all_allowed_cons. destruct (Observe_spec v0 p v e K) as [[(v' & -> & K') HA]|[(err & ->) HA]]; [|right; naive_solver].
    destruct (IH _ _ K') as [[(v'' & E & K'') HB]|[(err & E) HB]]; rewrite E; [left|right].
    + split; [|tauto]. exists v''. split; [done|]. by rewrite <- app_assoc in K''.
    + split; [eauto|tauto].
Qed.

Lemma records_app b p q : records b (p ++ q) = records b p ++ records b q.
Proof. apply filter_app. Qed.
(** A record of a branch in one journal is at the same place among the records of
    that branch in another. *)
Lemma records_split b es a e c :
  records b es = a ++ e :: c -> exists p q, es = p ++ e :: q /\ records b p = a /\ ev_Branch e = b.
Proof.
  unfold records. revert a. induction es as [|x es IH]; intros a; [by destruct a|]. rewrite filter_cons. destruct (decide (ev_Branch x = b)) as [Hx|Hx].
  - destruct a as [|y a]; cbn; intros [= -> E].
    + exists [], es. auto.
    + destruct (IH a E) as (p & q & -> & Hp & Hb). exists (y :: p), q. split; [done|]. split; [|done]. by rewrite filter_cons, decide_True, Hp.
  - intros E. destruct (IH a E) as (p & q & -> & Hp & Hb). exists (x :: p), q. split; [done|]. split; [|done]. by rewrite filter_cons, decide_False, Hp.
Qed.
Lemma all_allowed_interleaving v es es' :
  (forall b, records b es = records b es') -> all_allowed v es' -> all_allowed v es.
Proof.
  intros Hr H p e q E. specialize (Hr (ev_Branch e)). subst es. rewrite records_app in Hr. unfold records in Hr at 2. rewrite filter_cons, decide_True in Hr by done.
  symmetry in Hr. apply records_split in Hr as (p' & q' & E' & Hp & _). rewrite <- Hp. by eapply H.
Qed.

Definition unstarted (v : MapVisit) : Prop :=
  v_started v = replicate (length (v_items v)) false /\ v_finished v = replicate (length (v_items v)) false.

Lemma observe_fresh v es :
  unstarted v ->
  (exists v', observe_all v es = Ok v' /\ knows v es v') /\ all_allowed v es \/ (exists err, observe_all v es = Error err) /\ ~ all_allowed v es.
Proof. intros [Hs Hf]. by apply (observe_all_spec v es [] v), (knows_fresh _ (length (v_items v))). Qed.

(** ** Closing a visit *)

Definition outcome_key (o : BranchOutcome) : Z * string * string * string := (bo_Branch o, bo_Name o, bo_MapItemIdentity o, bo_MapItemDigest o).
(** The completeness a roster calls for. *)
Definition roster_keys (v : MapVisit) : list (Z * string * string * string) :=
  imap (fun i item => (Z.of_nat i + 1, mi_Identity item, mi_Identity item, mi_Digest item)) (v_items v).

Lemma roster_keys_lookup v i : roster_keys v !! i = (fun item => (Z.of_nat i + 1, mi_Identity item, mi_Identity item, mi_Digest item)) <$> v_items v !! i.
Proof. apply list_lookup_imap. Qed.
Lemma verifyCompleteness_spec v e outs : forall i seen,
  (forall b, b ∈ seen <-> 1 <= b <= Z.of_nat i) ->
  verifyCompleteness v e i seen outs = None <-> map outcome_key outs `prefix_of` drop i (roster_keys v).
Proof.
  induction outs as [|o outs IH]; intros i seen Hseen; cbn [verifyCompleteness map].
  { split; [intros _; apply prefix_nil|done]. }
  assert (existsb (Z.eqb (bo_Branch o)) seen = true <-> 1 <= bo_Branch o <= Z.of_nat i) as Hin.
  { rewrite <- Hseen, existsb_exists, list_elem_of_In. split; [intros (x & Hx & ->%Z.eqb_eq); done|]. intros H. exists (bo_Branch o). by rewrite Z.eqb_refl. }
  destruct (v_items v !! i) as [item|] eqn:Ei.
  - assert (roster_keys v !! i = Some (Z.of_nat i + 1, mi_Identity item, mi_Identity item, mi_Digest item)) as Ek by (by rewrite roster_keys_lookup, Ei).
    rewrite (drop_S _ _ _ Ek). apply lookup_lt_Some in Ei. destruct (existsb (Z.eqb (bo_Branch o)) seen) eqn:Es.
    { split; [done|]. intros H%prefix_cons_inv_1. unfold outcome_key in H. injection H as H. apply proj1 in Hin. specialize (Hin eq_refl). lia. }
    assert (~ 1 <= bo_Branch o <= Z.of_nat i) as Hout by (intros H; by apply Hin in H).
    destruct ((bo_Branch o <? 1) || (Z.of_nat (length (v_items v)) <? bo_Branch o)) eqn:Er.
    { split; [done|]. intros H%prefix_cons_inv_1. unfold outcome_key in H. injection H as H. apply orb_true_iff in Er as [?%Z.ltb_lt|?%Z.ltb_lt]; lia. }
    destruct (Z.eqb_spec (bo_Branch o) (Z.of_nat i + 1)); cbn [negb orb]; [|split; [done|]; intros H%prefix_cons_inv_1; unfold outcome_key in H; congruence].
    destruct (String.eqb_spec (bo_Name o) (mi_Identity item)); cbn [negb orb]; [|split; [done|]; intros H%prefix_cons_inv_1; unfold outcome_key in H; congruence].
    destruct (String.eqb_spec (bo_MapItemIdentity o) (mi_Identity item)); cbn [negb orb]; [|split; [done|]; intros H%prefix_cons_inv_1; unfold outcome_key in H; congruence].
    destruct (String.eqb_spec (bo_MapItemDigest o) (mi_Digest item)); cbn [negb orb]; [|split; [done|]; intros H%prefix_cons_inv_1; unfold outcome_key in H; congruence].
    rewrite IH by (intros b; rewrite elem_of_cons, Hseen; lia). unfold outcome_key at 2. split; [intros H; apply prefix_cons_alt; [congruence|done]|by apply prefix_cons_inv_2].
  - rewrite drop_ge by (unfold roster_keys; rewrite length_imap; by apply lookup_ge_None). split.
    + destruct (existsb _ seen); done.
    + intros H. by apply prefix_nil_not in H.
Qed.
(** A [map.finished] closes a visit exactly if it lists the roster. *)
Lemma VerifyFinished_spec v e completeness :
  VerifyFinished v e completeness = None <->
  ev_Type e = EventMapFinished /\ ev_Parallel e = v_name v /\ map outcome_key completeness = roster_keys v.
Proof.
  unfold VerifyFinished. case_bool_decide; cbn [negb orb]; [|naive_solver]. destruct (String.eqb_spec (ev_Parallel e) (v_name v)); cbn [negb]; [|naive_solver].
  destruct (verifyCompleteness v e 0 [] completeness) eqn:Ev.
  - split; [done|]. intros (_ & _ & E). assert (verifyCompleteness v e 0 [] completeness = None) as En; [|congruence].
    apply verifyCompleteness_spec; [intros b; rewrite elem_of_nil; lia|]. by rewrite drop_0, E.
  - apply verifyCompleteness_spec in Ev; [|intros b; rewrite elem_of_nil; lia]. rewrite drop_0 in Ev.
    pose proof (prefix_length _ _ Ev) as Hl. assert (length (roster_keys v) = length (v_items v)) as Hk by apply length_imap.
    rewrite length_map in Hl. destruct (Nat.ltb_spec (length completeness) (length (v_items v))).
    + split; [done|]. intros (_ & _ & E). apply (f_equal length) in E. rewrite length_map in E. lia.
    + split; [|done]. intros _. split_and!; try done. apply prefix_length_eq; [done|]. rewrite length_map. lia.
Qed.

(** ** The pending fan-out of a journal

    What [findPendingFanOut] has verified when it succeeds: every map visit the
    journal opened, the closed ones and the one it answers. *)

Section pending.
Context {D : Doubles} {Decode : JSONDecode} {Hash : SHA256} {Docs : FanoutDocuments}.
Context (m : Machine) (maps : string -> option Map).

(** The event at [k] is a [map.started] of a declared map that opens the visit [v]. *)
Definition opens_at (es : list FanEvent) (k : nat) (v : MapVisit) : Prop :=
  exists s def, es !! k = Some s /\ maps (ev_Parallel (fe_event s)) = Some def /\ NewMapVisit (fe_event s) (fe_MapRoster s) def = Ok v.

(** The events after the one at [k] and before the one at [j]. *)
Definition segment (es : list FanEvent) (k j : nat) : list Event := map fe_event (take (j - S k) (drop (S k) es)).

(** ** Segments *)

Lemma opens_app es es' k v : opens_at es k v -> opens_at (es ++ es') k v.
Proof. intros (s & def & H & ?). exists s, def. split; [by apply lookup_app_l_Some|done]. Qed.
Lemma segment_app es es' k j : (j <= length es)%nat -> segment (es ++ es') k j = segment es k j.
Proof.
  intros Hj. unfold segment. f_equal. destruct (Nat.le_gt_cases (S k) (length es)).
  - rewrite drop_app_le by done. rewrite take_app_le; [done|]. rewrite length_drop. lia.
  - replace (j - S k)%nat with 0%nat by lia. by rewrite !take_0.
Qed.
Lemma visit_segment_snoc es e k : (k < length es)%nat -> segment (es ++ [e]) k (length (es ++ [e])) = segment es k (length es) ++ [fe_event e].
Proof.
  intros Hk. unfold segment. rewrite length_app. cbn [length]. rewrite drop_app_le by lia. rewrite !take_ge by (rewrite ?length_app, length_drop; cbn; lia).
  by rewrite map_app.
Qed.
Lemma segment_empty es e : segment (es ++ [e]) (length es) (length (es ++ [e])) = [].
Proof. unfold segment. rewrite drop_ge by (rewrite length_app; cbn; lia). by rewrite take_nil. Qed.

Lemma observe_all_snoc v es e : observe_all v (es ++ [e]) = match observe_all v es with Ok v' => Observe v' e | Error err => Error err end.
Proof. revert v. induction es as [|x es IH]; intros v; cbn [observe_all app]; [by destruct (Observe v e)|]. destruct (Observe v x); [apply IH|done]. Qed.
Lemma NewMapVisit_fresh s r def v : NewMapVisit s r def = Ok v -> unstarted v /\ ev_Type s = EventMapStarted.
Proof.
  unfold NewMapVisit. case_bool_decide as Ht; cbn [negb]; [|done]. destruct r as [r|]; [|done].
  repeat (case_match; [done|]). by intros [= <-].
Qed.

(** ** The scan *)

Definition boundary (e : Event) : Prop := ev_Type e = EventMapStarted \/ ev_Type e = EventMapFinished.

(** A visit open at the end of the events read so far. *)
Definition pending_ok (before : list FanEvent) (p : pendingFanOut) : Prop :=
  match pf_mapVisit p with
  | None => forall k, pf_start p = Some k -> exists s, before !! k = Some s /\ ev_Type (fe_event s) = EventParallelStarted
  | Some v => exists k v0, pf_start p = Some k /\ opens_at before k v0 /\ (k < length before)%nat /\
      observe_all v0 (segment before k (length before)) = Ok v /\ Forall (fun e => ~ boundary e) (segment before k (length before))
  end.
(** A visit the event [f] at [j] closed. *)
Definition closed_ok (before : list FanEvent) (j : nat) (f : FanEvent) : Prop :=
  exists k v0 v, (k < j)%nat /\ opens_at before k v0 /\ observe_all v0 (segment before k j) = Ok v /\
    Forall (fun e => ~ boundary e) (segment before k j) /\ VerifyFinished v (fe_event f) (fe_Completeness f) = None.
Definition started_ok (before : list FanEvent) : Prop :=
  forall j s, before !! j = Some s -> ev_Type (fe_event s) = EventMapStarted -> exists v, opens_at before j v.
Definition finished_ok (before : list FanEvent) : Prop :=
  forall j f, before !! j = Some f -> ev_Type (fe_event f) = EventMapFinished -> closed_ok before j f.

Lemma pending_static before e p : pf_mapVisit p = None -> pending_ok before p -> pending_ok (before ++ [e]) p.
Proof. unfold pending_ok. intros -> H k Hk. destruct (H k Hk) as (s & Hs & Ht). exists s. split; [by apply lookup_app_l_Some|done]. Qed.

Lemma LastIndex_Some {A} (pred : A -> bool) l i : LastIndex pred l = Some i -> exists x, l !! i = Some x /\ pred x = true.
Proof.
  revert i. induction l as [|x l IH]; intros i; cbn [LastIndex]; [done|]. destruct (LastIndex pred l) as [j|]; [intros [= <-]; by apply IH|].
  destruct (pred x) eqn:E; [|done]. intros [= <-]. by exists x.
Qed.

Lemma resume_ok before e p : pending_ok (before ++ [e]) p -> pending_ok (before ++ [e]) (resume m p before e).
Proof.
  intros H. unfold resume. destruct (negb _); [done|]. destruct (interventionParallelContext m before _) as [[name b]|]; [|done].
  destruct (LastIndex _ before) as [c|] eqn:E; [|done]. apply LastIndex_Some in E as (x & Hx & Hp). intros k [= <-].
  exists x. split; [by apply lookup_app_l_Some|]. unfold is_type in Hp. apply andb_true_iff in Hp as [Hp _]. by apply bool_decide_eq_true in Hp.
Qed.
Lemma parallel_finished_ok before e p :
  pending_ok (before ++ [e]) p ->
  pending_ok (before ++ [e])
    (match pf_start p, pf_mapVisit p with
     | Some s, None =>
         match before !! s with
         | Some started => if (ev_Parallel (fe_event e) =? ev_Parallel (fe_event started))%string then no_pending else p
         | None => p
         end
     | _, _ => p
     end).
Proof. intros H. repeat case_match; done. Qed.
Lemma parallel_started_ok before e : ev_Type (fe_event e) = EventParallelStarted -> pending_ok (before ++ [e]) (mkPending (Some (length before)) None).
Proof. intros He k [= <-]. exists e. split; [by apply list_lookup_middle|done]. Qed.

(** An event that opens and closes no map, once it has been observed. *)
Lemma advance_inner before p e p' :
  ~ boundary (fe_event e) -> pending_ok (before ++ [e]) p -> advance m maps p before e = Ok p' -> pending_ok (before ++ [e]) p'.
Proof.
  intros Hb H. unfold advance, boundary in *. destruct (ev_Type (fe_event e)) eqn:Et; try (by intros [= <-]); try tauto.
  - intros [= <-]. by apply resume_ok.
  - intros [= <-]. by apply parallel_started_ok.
  - intros [= <-]. by apply parallel_finished_ok.
Qed.

Lemma snoc_lookup (before : list FanEvent) e j x : (before ++ [e]) !! j = Some x -> before !! j = Some x \/ j = length before /\ x = e.
Proof. intros H. apply lookup_app_Some in H as [H|[Hj H]]; [by left|right]. destruct (j - length before)%nat eqn:E; cbn in H; [|done]. injection H as ->. split; [lia|done]. Qed.
Lemma closed_app before e j f : (j <= length before)%nat -> closed_ok before j f -> closed_ok (before ++ [e]) j f.
Proof.
  intros Hj (k & v0 & v & Hk & Ho & Hobs & Hb & Hv). exists k, v0, v. rewrite segment_app by done. split_and!; try done. by apply opens_app.
Qed.
Lemma started_snoc before e : started_ok before -> (ev_Type (fe_event e) = EventMapStarted -> exists v, opens_at (before ++ [e]) (length before) v) -> started_ok (before ++ [e]).
Proof. intros H He j s [Hj|[-> ->]]%snoc_lookup Ht; [|auto]. destruct (H j s Hj Ht) as (v & Hv). exists v. by apply opens_app. Qed.
Lemma finished_snoc before e :
  finished_ok before -> (ev_Type (fe_event e) = EventMapFinished -> closed_ok (before ++ [e]) (length before) e) -> finished_ok (before ++ [e]).
Proof.
  intros H He j f [Hj|[-> ->]]%snoc_lookup Ht; [|auto]. apply closed_app; [|by apply H]. apply lookup_lt_Some in Hj. lia.
Qed.

Definition scan_ok (before : list FanEvent) (p : pendingFanOut) : Prop := pending_ok before p /\ started_ok before /\ finished_ok before.

Lemma scan_step_ok before p e p' : scan_ok before p -> scan_step m maps p before e = Ok p' -> scan_ok (before ++ [e]) p'.
Proof.
  intros (Hp & Hs & Hf). unfold scan_step, observe_pending, is_type.
  assert (~ boundary (fe_event e) -> started_ok (before ++ [e]) /\ finished_ok (before ++ [e])) as Hinner.
  { unfold boundary. intros Hb. split; [apply started_snoc|apply finished_snoc]; auto; tauto. }
  destruct (pf_mapVisit p) as [v|] eqn:Ev.
  - case_bool_decide as Hms; cbn [negb andb].
    { unfold advance. rewrite Hms. unfold openMap. by rewrite Ev. }
    case_bool_decide as Hmf; cbn [negb].
    + unfold advance. rewrite Hmf, Ev. destruct (negb _); [done|]. destruct (VerifyFinished v (fe_event e) (fe_Completeness e)) eqn:Evf; [done|]. intros [= <-].
      unfold pending_ok in Hp. rewrite Ev in Hp. destruct Hp as (k & v0 & Hk & Ho & Hlt & Hobs & Hb). split; [by intros k'|]. split.
      * apply started_snoc; [done|congruence].
      * apply finished_snoc; [done|]. intros _. exists k, v0, v. rewrite segment_app by done. split_and!; try done. by apply opens_app.
    + assert (~ boundary (fe_event e)) as Hb by (unfold boundary; tauto). destruct (Observe v (fe_event e)) as [v'|] eqn:Eo; [|done]. intros Ha.
      destruct (Hinner Hb) as [? ?]. split; [|done]. eapply advance_inner; [done| |exact Ha]. unfold pending_ok in Hp |- *. rewrite Ev in Hp. cbn.
      destruct Hp as (k & v0 & Hk & Ho & Hlt & Hobs & Hbs). exists k, v0. rewrite visit_segment_snoc, length_app by done. cbn [length]. split_and!; [done|by apply opens_app|lia| |].
      * by rewrite observe_all_snoc, Hobs.
      * apply Forall_app. split; [done|]. by apply Forall_singleton.
  - pose proof (pending_static before e p Ev Hp) as Hp'. destruct (decide (ev_Type (fe_event e) = EventMapStarted)) as [Hms|Hms].
    { unfold advance. rewrite Hms. unfold openMap. rewrite Ev. destruct (maps _) as [def|] eqn:Em; [|done].
      destruct (NewMapVisit (fe_event e) (fe_MapRoster e) def) as [v|] eqn:En; [|done]. intros [= <-].
      assert (opens_at (before ++ [e]) (length before) v) as Ho by (exists e, def; split; [by apply list_lookup_middle|done]). split; [|split].
      - exists (length before), v. rewrite segment_empty, length_app. cbn. split_and!; try done. lia.
      - apply started_snoc; [done|eauto].
      - apply finished_snoc; [done|congruence]. }
    destruct (decide (ev_Type (fe_event e) = EventMapFinished)) as [Hmf|Hmf].
    { unfold advance. rewrite Hmf. by rewrite Ev. }
    intros Ha. assert (~ boundary (fe_event e)) as Hb by (unfold boundary; tauto). destruct (Hinner Hb) as [? ?]. split; [|done]. by eapply advance_inner.
Qed.
Lemma scan_all_ok es : forall before p p', scan_ok before p -> scan m maps p before es = Ok p' -> scan_ok (before ++ es) p'.
Proof.
  induction es as [|e es IH]; intros before p p' H; cbn [scan]; [intros [= <-]; by rewrite app_nil_r|].
  destruct (scan_step m maps p before e) as [p1|] eqn:E; [|done]. intros Hs. apply IH in Hs; [by rewrite <- app_assoc in Hs|]. by eapply scan_step_ok.
Qed.
Lemma find_ok es p : findPendingFanOut m maps es = Ok p -> scan_ok es p.
Proof. intros H. apply (scan_all_ok es [] no_pending); [|done]. split; [by intros k|]. split; by intros j ?. Qed.
End pending.

(** ** Branches and their states *)

Section contains.
Context (m : Machine) (start target : string).
Hypothesis covered : forall s, Outgoing m s <> [] -> s ∈ stateNames (Def m).

Definition enters (s : string) : bool := negb ((s =? "")%string || IsReservedAnyTarget s || negb (Has m s)).
(** A name a walk from [start] comes to, whether it may be entered or not. *)
Definition known (t : string) : Prop := t = start \/ exists s, reaches enters (Outgoing m) [start] s /\ t ∈ Outgoing m s.

Lemma known_reaches t : known t -> enters t = true -> reaches enters (Outgoing m) [start] t.
Proof. intros [->|(s & Hs & Ht)] He; [apply reaches_root; [by left|done]|by eapply reaches_step]. Qed.

Lemma contains_state_spec : forall fuel stack seen,
  (length stack + pending_out (Outgoing m) (stateNames (Def m)) seen < fuel)%nat ->
  (forall s, s ∈ seen -> reaches enters (Outgoing m) [start] s) -> (forall t, t ∈ stack -> known t) ->
  (forall t, t = start \/ (exists s, s ∈ seen /\ t ∈ Outgoing m s) -> t ∈ stack \/ t <> target /\ (enters t = true -> t ∈ seen)) ->
  exists b, contains_state m target fuel stack seen = Some b /\ (b = true <-> known target).
Proof.
  induction fuel as [|n IH]; intros stack seen Hf Hseen Hstack Hclosed; [lia|]. cbn [contains_state]. destruct stack as [|s stack].
  - exists false. split; [done|]. split; [done|]. intros Hk.
    assert (forall s, reaches enters (Outgoing m) [start] s -> s ∈ seen) as Hall.
    { induction 1 as [s ->%list_elem_of_singleton He|s t _ IHr Ht He]; [destruct (Hclosed start) as [?%not_elem_of_nil|[_ H]]; auto; done|].
      destruct (Hclosed t) as [?%not_elem_of_nil|[_ H]]; eauto. done. }
    destruct (Hclosed target) as [?%not_elem_of_nil|[? _]]; [destruct Hk as [->|(s & Hs & Ht)]; eauto|done|done].
  - destruct (String.eqb_spec s target) as [->|Hne]; [exists true; split; [done|]; split; [intros _; apply Hstack; by left|done]|].
    destruct ((s =? "")%string || IsReservedAnyTarget s || mem_string s seen || negb (Has m s)) eqn:E.
    + apply IH; auto; [cbn in Hf; lia|intros t Ht; apply Hstack; by right|]. intros t Ht.
      destruct (Hclosed t Ht) as [[->|?]%elem_of_cons|?]; auto. right. split; [done|]. intros He. unfold enters in He. apply negb_true_iff, orb_false_iff in He as [He1 He2].
      rewrite He1, He2, orb_false_r in E. cbn in E. by apply mem_string_true.
    + apply orb_false_iff in E as [[E Em]%orb_false_iff Eh]. apply mem_string_false in Em.
      assert (reaches enters (Outgoing m) [start] s) as Hr by (apply known_reaches; [apply Hstack; by left|unfold enters; by rewrite E, Eh]). apply IH.
      * rewrite push_stack_length. pose proof (pending_visit (Outgoing m) (stateNames (Def m)) covered seen s Em). cbn in Hf. lia.
      * intros t [->|Ht]%elem_of_cons; auto.
      * intros t [Ht|Ht]%push_stack_elem; [right; eauto|]. apply Hstack. by right.
      * intros t [->|(u & [->|Hu]%elem_of_cons & Ht)]; rewrite push_stack_elem; [|auto|].
        -- destruct (Hclosed start) as [[->|?]%elem_of_cons|[? Hin]]; auto; right; (split; [done|]); intros; [by left|right; auto].
        -- destruct (Hclosed t) as [[->|?]%elem_of_cons|[? Hin]]; eauto; right; (split; [done|]); intros; [by left|right; auto].
Qed.
(** The walk ends, and finds the states of the branch. *)
Lemma BranchContainsState_spec : BranchContainsState m start target = true <-> known target.
Proof.
  unfold BranchContainsState. destruct (contains_state_spec (walk_fuel (Outgoing m) (stateNames (Def m)) [start]) [start] []) as (b & -> & Hb); [| | | |done].
  - unfold walk_fuel. cbn. lia.
  - intros s ?%not_elem_of_nil. done.
  - intros t ->%list_elem_of_singleton. by left.
  - intros t [->|(s & ?%not_elem_of_nil & _)]; [left; by left|done].
Qed.
End contains.
