(* ===== verification/FanoutFreezeProps.v ===== *)
(** * Frozen rosters

    What a roster source freezes to, that a frozen roster is accepted wherever it is
    read again, and what its digests commit to. *)

From S2P Require Export FanoutVisit FanoutVisitProps.
From Stdlib Require Import Sorting.Permutation Sorting.Sorted.
Local Open Scope string_scope.
Local Open Scope list_scope.
Local Open Scope Z_scope.

(** What is known of SHA-256 and of the JSON encoder: a sum has 32 bytes; an item is
    marshalled as the object of its identity and itself. *)
Definition item_object (identity : string) (v : json) : json :=
  JObject [(bytes "identity", JString (bytes identity)); (bytes "item", v)].
Class HashLaws `{SHA256} := sha256_bytes b : length (sha256 b) = 32%nat /\ Forall (fun x => (x < 256)%N) (sha256 b).
Class ItemLaws `{JSONDecode} `{FanoutDocuments} :=
  marshal_item_value identity item data v :
    ValidIdentity identity = true -> marshal_item identity item = Some data -> decode_json item = Some v ->
    decode_json data = Some (item_object identity v).

Section frozen.
Context {D : Doubles} {Decode : JSONDecode} {Hash : SHA256} {Docs : FanoutDocuments}.

(** ** Digests *)

Lemma hex_range d : (d < 16)%N -> (between 48 57 (hex d) || between 97 102 (hex d))%N = true /\ (hex d < 256)%N.
Proof. intros Hd. unfold hex, between. destruct (N.ltb_spec d 10); (split; [|lia]); apply orb_true_iff; [left|right]; apply andb_true_iff; split; apply N.leb_le; lia. Qed.
Lemma hex_string_ok bs :
  Forall (fun x => (x < 256)%N) bs ->
  length (hex_string bs) = (2 * length bs)%nat /\ forallb (fun b => between 48 57 b || between 97 102 b) (hex_string bs) = true
  /\ Forall (fun x => (x < 256)%N) (hex_string bs).
Proof.
  induction 1 as [|b bs Hb Hbs (IH1 & IH2 & IH3)]; [done|]. unfold hex_string in *. cbn [map concat app length forallb].
  destruct (hex_range (b / 16)) as [E1 L1]; [apply N.Div0.div_lt_upper_bound; lia|]. destruct (hex_range (b mod 16)) as [E2 L2]; [by apply N.mod_lt|].
  rewrite E1, E2, IH2. split_and!; [lia|done|]. by repeat constructor.
Qed.
Lemma Digest_bytes `{!HashLaws} b : bytes (Digest b) = digest_prefix ++ hex_string (sha256 b).
Proof.
  unfold Digest. apply bytes_of_bytes. apply Forall_app. split; [repeat constructor; vm_compute; reflexivity|]. apply hex_string_ok, sha256_bytes.
Qed.
Lemma Digest_valid `{!HashLaws} b : ValidDigest (Digest b) = true.
Proof.
  unfold ValidDigest. rewrite Digest_bytes. destruct (sha256_bytes b) as [Hl Hb]. destruct (hex_string_ok _ Hb) as (Hh & Hf & _).
  rewrite bool_decide_true by done. rewrite length_app, Hh, Hl. cbn [length digest_prefix andb]. by change (drop 7 (digest_prefix ++ ?x)) with x.
Qed.
Lemma ItemDigest_valid `{!HashLaws} id item d : ItemDigest id item = Some d -> ValidDigest d = true.
Proof. unfold ItemDigest. destruct (item_preimage id item); [|done]. intros [= <-]. apply Digest_valid. Qed.

(** ** Entries *)

Record entry_frozen (e : rosterEntry) (it : MapItem) : Prop := {
  ef_valid : ValidIdentity (re_Identity e) = true;
  ef_identity : mi_Identity it = re_Identity e;
  ef_item : Canonicalize (re_Item e) = Some (mi_Item it);
  ef_object : isJSONObject (mi_Item it) = true;
  ef_size : Z.of_nat (length (mi_Item it)) <= MaxFrozenItemBytes;
  ef_digest : ItemDigest (re_Identity e) (mi_Item it) = Some (mi_Digest it);
  ef_supplied d : re_Digest e = Some d -> ValidDigest d = true /\ d = mi_Digest it
}.

Lemma freezeEntry_spec e seen it : freezeEntry e seen = Ok it <-> re_Identity e ∉ seen /\ entry_frozen e it.
Proof.
  unfold freezeEntry. destruct (ValidIdentity (re_Identity e)) eqn:Ev; cbn [negb]; [|split; [done|intros [_ []]; congruence]].
  destruct (mem_string (re_Identity e) seen) eqn:Es.
  { apply mem_string_true in Es. split; [done|]. by intros [? _]. }
  apply mem_string_false in Es. destruct (Canonicalize (re_Item e)) as [c|] eqn:Ec; [|split; [done|intros [_ []]; congruence]].
  destruct (isJSONObject c) eqn:Eo; cbn [negb]; [|split; [done|intros [_ []]; congruence]].
  destruct (Z.ltb_spec MaxFrozenItemBytes (Z.of_nat (length c))).
  { split; [done|]. intros [_ [_ _ E _ ? _ _]]. rewrite Ec in E. injection E as ->. lia. }
  destruct (ItemDigest (re_Identity e) c) as [d|] eqn:Ed; [|split; [done|intros [_ []]; congruence]].
  assert (forall it, entry_frozen e it -> it = mkItem (re_Identity e) d c) as Huniq.
  { intros [i d' c'] [_ E1 E2 _ _ E3 _]. cbn in *. congruence. }
  assert ((forall s, re_Digest e = Some s -> ValidDigest s = true /\ s = d) -> entry_frozen e (mkItem (re_Identity e) d c)) as Hbuild by (by intros Hs; split).
  destruct (re_Digest e) as [s|] eqn:Er.
  - destruct (ValidDigest s) eqn:Evs; cbn [negb]; [|split; [done|]; intros [_ Hf]; destruct (ef_supplied _ _ Hf s Er); congruence].
    destruct (String.eqb_spec s d) as [->|Hne]; cbn [negb].
    + split; [intros [= <-]; split; [done|]; apply Hbuild; by intros ? [= <-]|]. intros [_ Hf]. by rewrite (Huniq _ Hf).
    + split; [done|]. intros [_ Hf]. destruct (ef_supplied _ _ Hf s Er) as [_ E]. rewrite (Huniq _ Hf) in E. by cbn in E.
  - split; [intros [= <-]; split; [done|]; by apply Hbuild|]. intros [_ Hf]. by rewrite (Huniq _ Hf).
Qed.

Lemma freezeEntries_spec es : forall seen items,
  freezeEntries es seen = Ok items <->
  Forall2 entry_frozen es items /\ NoDup (map re_Identity es) /\ forall i, i ∈ map re_Identity es -> i ∉ seen.
Proof.
  induction es as [|e es IH]; intros seen items; cbn [freezeEntries map].
  { split; [intros [= <-]; split_and!; [done|constructor|by intros i ?%not_elem_of_nil]|]. intros [H _]. by inversion H. }
  destruct (freezeEntry e seen) as [it|err] eqn:Ee.
  - apply freezeEntry_spec in Ee as [Hs Hf]. specialize (IH (re_Identity e :: seen)). destruct (freezeEntries es (re_Identity e :: seen)) as [its|err] eqn:Er.
    + destruct (proj1 (IH its) eq_refl) as (H1 & H2 & H3). split.
      * intros [= <-]. split_and!; [by constructor|constructor; [|done]|]; [intros Hin; apply (H3 _ Hin); set_solver|].
        intros i [->|Hi]%elem_of_cons; [done|]. specialize (H3 i Hi). set_solver.
      * intros (HF & Hnd & Hd). inversion HF as [|? it' ? its' Hf' HF']; subst. apply NoDup_cons in Hnd as [Hnin Hnd].
        assert (@Ok fanout_error _ its = Ok its') as [= ->].
        { apply IH. split_and!; [done|done|]. intros i Hi. specialize (Hd i ltac:(set_solver)). intros [->|?]%elem_of_cons; done. }
        do 2 f_equal. assert (freezeEntry e seen = Ok it) as E1 by (by apply freezeEntry_spec). assert (freezeEntry e seen = Ok it') as E2 by (by apply freezeEntry_spec). congruence.
    + split; [done|]. intros (HF & Hnd & Hd). inversion HF as [|? it' ? its' Hf' HF']; subst. apply NoDup_cons in Hnd as [Hnin Hnd].
      assert (Error err = Ok its') as ?; [|done]. apply IH. split_and!; [done|done|]. intros i Hi. specialize (Hd i ltac:(set_solver)). intros [->|?]%elem_of_cons; done.
  - split; [done|]. intros (HF & Hnd & Hd). inversion HF as [|? it' ? its' Hf' HF']; subst.
    assert (freezeEntry e seen = Ok it') as E; [|congruence]. apply freezeEntry_spec. split; [apply Hd; set_solver|done].
Qed.

(** ** Rosters *)

Record admitted (data : list N) (mediaType : string) (es : list rosterEntry) : Prop := {
  ad_media : mediaType = SourceMediaType;
  ad_size : Z.of_nat (length data) <= MaxSourceBytes;
  ad_schema : exists check, rosterEnvelopeSchema = Some check /\ check data = true;
  ad_decoded : decode_roster data = Some es;
  ad_items : Z.of_nat (length es) <= MaxRosterItems;
  ad_distinct : NoDup (map re_Identity es)
}.
Lemma FreezeRoster_spec data mt items :
  FreezeRoster data mt = Ok items <-> exists es found, admitted data mt es /\ Forall2 entry_frozen es found /\ items = sort_by item_le found.
Proof.
  unfold FreezeRoster. destruct (String.eqb_spec mt SourceMediaType); cbn [negb]; [|split; [done|]; by intros (es & found & [] & _)].
  destruct (Z.ltb_spec MaxSourceBytes (Z.of_nat (length data))); [split; [done|]; intros (es & found & [] & _); lia|].
  destruct rosterEnvelopeSchema as [check|] eqn:Es; [|split; [done|]; intros (es & found & [_ _ (c & Hc & _) _ _ _] & _); congruence].
  destruct (check data) eqn:Ec; cbn [negb]; [|split; [done|]; intros (es & found & [_ _ (c & Hc & ?) _ _ _] & _); congruence].
  destruct (decode_roster data) as [es|] eqn:Ed; [|split; [done|]; intros (es & found & [] & _); congruence].
  destruct (Z.ltb_spec MaxRosterItems (Z.of_nat (length es))).
  { split; [done|]. intros (es' & found & [_ _ _ E ? _] & _). rewrite Ed in E. injection E as ->. lia. }
  destruct (freezeEntries es []) as [found|] eqn:Ef.
  - apply freezeEntries_spec in Ef as (HF & Hnd & _). split.
    + intros [= <-]. exists es, found. split_and!; [split; eauto|done|done].
    + intros (es' & found' & [_ _ _ E _ _] & HF' & ->). rewrite Ed in E. injection E as <-. do 2 f_equal.
      assert (forall k, Forall2 entry_frozen es k -> freezeEntries es [] = Ok k) as Hk.
      { intros k Hk. apply freezeEntries_spec. split_and!; [done|done|]. intros ? _. apply not_elem_of_nil. }
      pose proof (Hk found HF). pose proof (Hk found' HF'). congruence.
  - split; [done|]. intros (es' & found' & [_ _ _ E _ Hnd] & HF' & ->). rewrite Ed in E. injection E as <-.
    assert (freezeEntries es [] = Ok found') as E'; [|congruence]. apply freezeEntries_spec. split_and!; [done|done|]. intros ? _. apply not_elem_of_nil.
Qed.

Lemma item_le_trans a b c : item_le a b = true -> item_le b c = true -> item_le a c = true.
Proof.
  unfold item_le, String.leb. destruct (String.compare (mi_Identity a) (mi_Identity b)) eqn:E1; [|intros _|done];
  destruct (String.compare (mi_Identity b) (mi_Identity c)) eqn:E2; try done; intros.
  - apply String.compare_eq_iff in E1 as ->. by rewrite E2.
  - apply String.compare_eq_iff in E1 as ->. by rewrite E2.
  - apply String.compare_eq_iff in E2. rewrite <- E2. by rewrite E1.
  - by rewrite (string_compare_trans _ _ _ E1 E2).
Qed.
Lemma found_identities es found : Forall2 entry_frozen es found -> map mi_Identity found = map re_Identity es.
Proof. induction 1 as [|e it es found He HF IH]; [done|]. cbn. by rewrite (ef_identity _ _ He), IH. Qed.
Lemma identities_determine (l : list MapItem) a b : NoDup (map mi_Identity l) -> a ∈ l -> b ∈ l -> mi_Identity a = mi_Identity b -> a = b.
Proof.
  induction l as [|g l IH]; [by intros _ ?%not_elem_of_nil|]. cbn [map]. intros [Hg Hnd]%NoDup_cons [->|Ha]%elem_of_cons [->|Hb]%elem_of_cons Hk; auto.
  - destruct Hg. rewrite Hk. by apply list_elem_of_fmap_2.
  - destruct Hg. rewrite <- Hk. by apply list_elem_of_fmap_2.
Qed.
Lemma sort_items_unique l l' : Permutation l l' -> NoDup (map mi_Identity l) -> sort_by item_le l = sort_by item_le l'.
Proof.
  intros Hp Hnd. apply sort_by_unique; [intros; apply String.leb_total|apply item_le_trans|done|].
  intros x y Hx Hy H1 H2. apply (identities_determine l); auto. by apply String.leb_antisym.
Qed.
(** A frozen roster is in strict bytewise order. *)
Definition item_lt (a b : MapItem) : Prop := String.ltb (mi_Identity a) (mi_Identity b) = true.
Lemma sort_items_strict l : NoDup (map mi_Identity l) -> StronglySorted item_lt (sort_by item_le l).
Proof.
  intros Hnd. assert (NoDup (map mi_Identity (sort_by item_le l))) as Hnd' by (by rewrite <- sort_by_perm).
  assert (StronglySorted (fun a b => item_le a b = true) (sort_by item_le l)) as Hs.
  { apply Sorted.Sorted_StronglySorted; [intros a b c; apply item_le_trans|]. apply Sorted_LocallySorted_iff, sort_by_sorted. intros; apply String.leb_total. }
  induction Hs as [|a k Hs IH Ha]; [constructor|]. cbn in Hnd'. apply NoDup_cons in Hnd' as [Hn Hnd']. constructor; [auto|].
  rewrite Forall_forall in Ha |- *. intros b Hb. specialize (Ha b Hb). unfold item_lt, item_le, String.leb, String.ltb in *.
  destruct (String.compare (mi_Identity a) (mi_Identity b)) eqn:E; try done. apply String.compare_eq_iff in E. destruct Hn. rewrite E. by apply list_elem_of_fmap_2.
Qed.
End frozen.

(** ** Frozen rosters hold what their source named

    A frozen roster is determined by the identities and values of its entries, and is
    accepted again wherever it is read: from its content-addressed blob and from the
    [map.started] that records it, with its items or with their descriptors only. *)

Section frozen.
Context {D : Doubles} {Decode : JSONDecode} {Hash : SHA256} {Docs : FanoutDocuments}.

(** ** What [NewMapVisit] accepts *)

Definition item_ok (roster : MapRoster) (item : MapItem) : Prop :=
  ValidIdentity (mi_Identity item) = true /\ ValidDigest (mi_Digest item) = true /\
  (mi_Item item = [] /\ mr_RosterDigest roster <> "" \/ mi_Item item <> [] /\ ItemDigest (mi_Identity item) (mi_Item item) = Some (mi_Digest item)).

Lemma verifyRosterItem_spec start roster prev i item :
  verifyRosterItem start roster prev i item = None <-> item_ok roster item /\ forall p, prev = Some p -> item_lt p item.
Proof.
  unfold verifyRosterItem, item_ok. destruct (ValidIdentity (mi_Identity item)); cbn [negb orb]; [|naive_solver]. destruct (ValidDigest (mi_Digest item)); cbn [negb orb]; [|naive_solver].
  assert (match prev with Some p => (mi_Identity p =? mi_Identity item)%string | None => false end = false /\
          match prev with Some p => String.ltb (mi_Identity item) (mi_Identity p) | None => false end = false <-> forall p, prev = Some p -> item_lt p item) as Hprev.
  { destruct prev as [p|]; [|naive_solver]. unfold item_lt. split.
    - intros [He Hl] ? [= <-]. apply String.eqb_neq in He. destruct (String.ltb (mi_Identity p) (mi_Identity item)) eqn:E; [done|]. by destruct He; apply string_ltb_trichotomy.
    - intros H. specialize (H p eq_refl). split.
      + apply String.eqb_neq. intros E. rewrite E in H. unfold String.ltb in H. by rewrite string_compare_refl in H.
      + unfold String.ltb in *. rewrite String.compare_antisym. destruct (String.compare (mi_Identity p) (mi_Identity item)); done. }
  rewrite <- Hprev. destruct (match prev with Some p => (mi_Identity p =? mi_Identity item)%string | None => false end); [naive_solver|].
  destruct (match prev with Some p => String.ltb (mi_Identity item) (mi_Identity p) | None => false end); [naive_solver|].
  destruct (mi_Item item) as [|b bs].
  - destruct (String.eqb_spec (mr_RosterDigest roster) ""); naive_solver.
  - destruct (ItemDigest (mi_Identity item) (b :: bs)) as [d|]; [|naive_solver]. destruct (String.eqb_spec d (mi_Digest item)) as [->|]; naive_solver.
Qed.
Lemma item_lt_trans a b c : item_lt a b -> item_lt b c -> item_lt a c.
Proof. unfold item_lt. rewrite !string_ltb_iff. apply string_compare_trans. Qed.
Lemma verifyItems_spec start roster items : forall prev i,
  verifyItems start roster prev i items = None <->
  Forall (item_ok roster) items /\ StronglySorted item_lt items /\ forall p, prev = Some p -> Forall (item_lt p) items.
Proof.
  induction items as [|item items IH]; intros prev i; cbn [verifyItems]; [split; [intros _; split_and!; constructor|done]|].
  destruct (verifyRosterItem start roster prev i item) eqn:Ev.
  - split; [done|]. intros (H1 & _ & H3). apply Forall_cons in H1 as [H1 _].
    assert (verifyRosterItem start roster prev i item = None) as E; [|congruence]. apply verifyRosterItem_spec. split; [done|]. intros p Hp. specialize (H3 p Hp). by apply Forall_cons in H3 as [? _].
  - apply verifyRosterItem_spec in Ev as [Hok Hp]. rewrite IH. split.
    + intros (H1 & H2 & H3). specialize (H3 item eq_refl). split_and!; [by constructor|by constructor|]. intros p Ep. constructor; [by apply Hp|].
      eapply Forall_impl; [exact H3|]. intros x. apply item_lt_trans. by apply Hp.
    + intros (H1 & H2 & H3). apply Forall_cons in H1 as [_ H1]. inversion H2; subst. split_and!; [done|done|]. by intros ? [= <-].
Qed.

(** The bounds and the source a roster records are those of the definition. *)
Record pinned (roster : MapRoster) (def : Map) : Prop := {
  pin_task : fs_Task (mr_Source roster) = md_SourceTask def;
  pin_slot : fs_Slot (mr_Source roster) = md_SourceSlot def;
  pin_policy : mr_FailurePolicy roster = md_FailurePolicy def;
  pin_timeout : mr_ItemTimeoutSeconds roster = md_ItemTimeoutSeconds def;
  pin_workers : mr_MaxConcurrent roster = EffectiveMaxConcurrent def;
  pin_items : Z.of_nat (length (mr_Items roster)) <= MaxRosterItems;
  pin_digest : mr_RosterDigest roster = "" \/ ValidDigest (mr_RosterDigest roster) = true
}.
Definition visit_of (roster : MapRoster) (def : Map) : MapVisit :=
  mkVisit (md_Name def) (md_Task def) (mr_Items roster) (replicate (length (mr_Items roster)) false) (replicate (length (mr_Items roster)) false).
Lemma NewMapVisit_accepts start roster def :
  ev_Type start = EventMapStarted -> ev_Parallel start = md_Name def -> pinned roster def ->
  Forall (item_ok roster) (mr_Items roster) -> StronglySorted item_lt (mr_Items roster) ->
  NewMapVisit start (Some roster) def = Ok (visit_of roster def).
Proof.
  intros Ht Hn [P1 P2 P3 P4 P5 P6 P7] Hok Hs. unfold NewMapVisit. rewrite bool_decide_true by done. cbn [negb].
  rewrite Hn, P1, P2, P4, P5, !String.eqb_refl, !Z.eqb_refl. cbn [negb orb]. rewrite bool_decide_true by done. cbn [negb orb].
  rewrite (proj2 (Z.ltb_ge _ _)) by done.
  assert (negb (mr_RosterDigest roster =? "")%string && negb (ValidDigest (mr_RosterDigest roster)) = false) as ->.
  { destruct P7 as [-> | ->]; [done|apply andb_false_r]. }
  assert (verifyItems start roster None 0 (mr_Items roster) = None) as ->; [|done]. by apply verifyItems_spec.
Qed.

(** ** Frozen rosters *)

Section hashed.
Context {HLaws : HashLaws}.

Lemma object_not_empty item : isJSONObject item = true -> item <> [].
Proof. intros H ->. by vm_compute in H. Qed.
Lemma entry_item_ok e it roster : entry_frozen e it -> item_ok roster it.
Proof.
  intros [H1 H2 H3 H4 H5 H6 H7]. split_and!; [by rewrite H2|by eapply ItemDigest_valid|]. right. split; [by apply object_not_empty|by rewrite H2].
Qed.
Lemma frozen_items data mt items :
  FreezeRoster data mt = Ok items ->
  StronglySorted item_lt items /\ Z.of_nat (length items) <= MaxRosterItems /\ Forall (fun it => exists e, entry_frozen e it) items.
Proof.
  intros (es & found & [_ _ _ _ Hn Hnd] & HF & ->)%FreezeRoster_spec. split_and!.
  - apply sort_items_strict. by rewrite (found_identities _ _ HF).
  - rewrite <- sort_by_perm. by rewrite <- (Forall2_length _ _ _ HF).
  - rewrite <- sort_by_perm. clear -HF. induction HF; constructor; eauto.
Qed.

(** ** The blob and the event *)

(** What is known of the JSON encoding of blobs: a blob whose texts are UTF-8 and
    whose items are canonical JSON is read back as it was, to the end. *)
Definition readable (blob : FrozenRosterBlob) : Prop :=
  let source := mr_Source (fb_Roster blob) in
  Forall (fun s => ValidString s = true)
    [fb_SchemaVersion blob; fs_Task source; fs_Slot source; fs_Digest source; fs_Integrity source; fs_Path source; fs_MediaType source;
     mr_RosterDigest (fb_Roster blob)] /\
  Forall (fun it => ValidIdentity (mi_Identity it) = true /\ ValidDigest (mi_Digest it) = true /\ exists data, Canonicalize data = Some (mi_Item it))
    (mr_Items (fb_Roster blob)).
Class BlobLaws := decode_encoded blob data : readable blob -> encode_blob blob = Some data -> decode_blob data = Some (blob, true).

Lemma ascii_valid s : Forall (fun b => (b < 128)%N) (bytes s) -> ValidString s = true.
Proof.
  unfold ValidString. induction (bytes s) as [|b bs IH]; [done|]. intros [Hb Hbs]%Forall_cons. rewrite runes_one by done. cbn. auto.
Qed.
Lemma digest_ascii s : ValidDigest s = true -> ValidString s = true.
Proof.
  intros H. apply ascii_valid. unfold ValidDigest in H. apply andb_true_iff in H as [[Hp _]%andb_true_iff Hf]. apply bool_decide_eq_true in Hp.
  rewrite <- (take_drop 7 (bytes s)), Hp. apply Forall_app. split; [by repeat constructor|]. rewrite forallb_forall in Hf. apply Forall_forall.
  intros x Hx%list_elem_of_In. specialize (Hf x Hx). unfold between in Hf.
  apply orb_true_iff in Hf as [[?%N.leb_le ?%N.leb_le]%andb_true_iff|[?%N.leb_le ?%N.leb_le]%andb_true_iff]; lia.
Qed.
Lemma integrity_ascii s : valid_integrity s = true -> ValidString s = true.
Proof. unfold valid_integrity. rewrite mem_string_true. intros H. repeat (apply elem_of_cons in H as [->|H]; [reflexivity|]). by apply not_elem_of_nil in H. Qed.

Lemma validateFrozenSource_ok def source data :
  validateFrozenSource def source data = None ->
  fs_Task source = md_SourceTask def /\ fs_Slot source = md_SourceSlot def /\ ValidDigest (fs_Digest source) = true /\
  fs_MediaType source = SourceMediaType /\ valid_integrity (fs_Integrity source) = true /\ Digest data = fs_Digest source.
Proof.
  unfold validateFrozenSource. repeat (case_match; [done|]). intros _.
  repeat match goal with
  | H : negb _ = false |- _ => apply negb_false_iff in H
  | H : _ || _ = false |- _ => apply orb_false_iff in H as [? ?]
  | H : (_ =? _)%string = true |- _ => apply String.eqb_eq in H
  end. split_and!; done.
Qed.

Section blobs.
Context {BLaws : BlobLaws}.
Context (def : Map) (source : FanOutSourceRef) (data : list N) (items : list MapItem).
Hypothesis Hsource : validateFrozenSource def source data = None.
Hypothesis Hitems : FreezeRoster data (fs_MediaType source) = Ok items.
Let blob := frozen_blob def source items.

Lemma blob_pinned : pinned (fb_Roster blob) def.
Proof.
  destruct (validateFrozenSource_ok _ _ _ Hsource) as (H1 & H2 & _). destruct (frozen_items _ _ _ Hitems) as (_ & Hn & _). split; try done. by left.
Qed.
Lemma probe_accepts : NewMapVisit (probe_event def) (Some (fb_Roster blob)) def = Ok (visit_of (fb_Roster blob) def).
Proof.
  destruct (frozen_items _ _ _ Hitems) as (Hs & _ & Hf). apply NewMapVisit_accepts; [done|done|apply blob_pinned| |done].
  eapply Forall_impl; [exact Hf|]. intros it (e & He). by eapply entry_item_ok.
Qed.
Lemma blob_readable : ValidString (md_SourceTask def) = true -> ValidString (md_SourceSlot def) = true -> readable blob.
Proof.
  intros Ht Hl. destruct (validateFrozenSource_ok _ _ _ Hsource) as (H1 & H2 & H3 & H4 & H5 & _). destruct (frozen_items _ _ _ Hitems) as (_ & _ & Hf). split.
  - cbn. rewrite H1, H2, H4. repeat (apply Forall_cons; split); try reflexivity; try done; [by apply digest_ascii|by apply integrity_ascii].
  - eapply Forall_impl; [exact Hf|]. intros it (e & He). destruct (entry_item_ok e it (fb_Roster blob) He) as (? & ? & _). split_and!; try done. exists (re_Item e). apply He.
Qed.
End blobs.

(** C26: A frozen roster is accepted wherever it is read again.  Once a source has
    frozen, decoding the encoded blob under its digest gives the same blob; and the
    [map.started] that records it opens a visit of all its items in order, none of
    them started, also when the event carries only the identities and digests. *)
Theorem frozen_roster_reloads `{!BlobLaws} def source data blob encoded digest :
  ValidString (md_SourceTask def) = true -> ValidString (md_SourceSlot def) = true ->
  FreezeRosterBlob def source data = Ok (blob, encoded, digest) ->
  DecodeRosterBlob encoded digest def = Ok blob /\
  exists e roster, map_started def source data = Ok (e, roster) /\ mr_Items roster = mr_Items (fb_Roster blob) /\ mr_RosterDigest roster = digest /\
    NewMapVisit e (Some roster) def = Ok (visit_of roster def) /\
    let descriptors := map (fun it => mkItem (mi_Identity it) (mi_Digest it) []) (mr_Items roster) in
    let compact := mkRoster (mr_Source roster) (mr_FailurePolicy roster) (mr_ItemTimeoutSeconds roster) (mr_MaxConcurrent roster) digest descriptors in
    NewMapVisit e (Some compact) def = Ok (visit_of compact def).
Proof.
  intros Ht Hl Hfreeze. unfold map_started. rewrite Hfreeze. revert Hfreeze. unfold FreezeRosterBlob.
  destruct (validateFrozenSource def source data) eqn:Ev; [done|]. destruct (FreezeRoster data (fs_MediaType source)) as [items|] eqn:Ef; [|done].
  rewrite (probe_accepts def source data items Ev Ef). destruct (encode_blob (frozen_blob def source items)) as [enc|] eqn:Ee; [|done].
  destruct (Z.ltb_spec MaxFrozenRosterBytes (Z.of_nat (length enc))) as [|Hsize]; [done|]. intros [= <- <- <-]. split.
  - unfold DecodeRosterBlob. rewrite Digest_valid, String.eqb_refl. cbn [negb orb]. rewrite (proj2 (Z.ltb_ge _ _)) by done.
    rewrite (decode_encoded _ _ (blob_readable def source data items Ev Ef Ht Hl) Ee). cbn [negb]. rewrite String.eqb_refl. cbn [negb].
    rewrite (probe_accepts def source data items Ev Ef), Ee. by rewrite bool_decide_true.
  - destruct (frozen_items _ _ _ Ef) as (Hs & Hn & Hf). destruct (validateFrozenSource_ok _ _ _ Ev) as (H1 & H2 & _).
    eexists _, _. split_and!; [reflexivity|done|done| |]; cbn [mr_Items mr_Source mr_FailurePolicy mr_ItemTimeoutSeconds mr_MaxConcurrent fb_Roster frozen_blob].
    + apply NewMapVisit_accepts; [done|done| | |done].
      * split; cbn; try done. right. apply Digest_valid.
      * eapply Forall_impl; [exact Hf|]. intros it (e & He). by eapply entry_item_ok.
    + apply NewMapVisit_accepts; [done|done| | |]; cbn [mr_Items].
      * split; cbn; try done; [by rewrite length_map|]. right. apply Digest_valid.
      * apply Forall_fmap. eapply Forall_impl; [exact Hf|]. intros it (e & He). destruct (entry_item_ok e it (fb_Roster (frozen_blob def source items)) He) as (? & ? & _).
        split_and!; [done|done|]. left. split; [done|]. intros E. change (Digest enc = "") in E. apply (f_equal bytes) in E. rewrite Digest_bytes in E. by apply app_nil in E as [? _].
      * clear -Hs. induction Hs as [|a l Hs IH Ha]; [constructor|]. cbn. constructor; [done|]. by apply Forall_fmap.
Qed.
End hashed.
End frozen.
