(* ===== verification/FanoutProps.v ===== *)
(** * Data-driven fan-out

    What a frozen roster is determined by, what its digests commit to, what a visit
    accepts, and what a journal with a pending visit holds. *)

From S2P Require Export FanoutFreezeProps FanoutVisitProps.
From Stdlib Require Import Sorting.Permutation Sorting.Sorted.
From stdpp Require Import sorting.
Local Open Scope string_scope.
Local Open Scope list_scope.
Local Open Scope Z_scope.

Section props.
Context {D : Doubles} {Decode : JSONDecode} {Hash : SHA256} {Docs : FanoutDocuments}.

(** ** Rosters *)

Section values.
Context {Laws : DoubleLaws} {DLaws : DecodeLaws}.

(** The same identity and the same value, however it is written. *)
Definition same_entry (e e' : rosterEntry) : Prop :=
  re_Identity e = re_Identity e' /\
  exists v v', decode_json (re_Item e) = Some v /\ decode_json (re_Item e') = Some v' /\ same_json v v'.

Lemma Canonicalize_decodes data c : Canonicalize data = Some c -> exists v, decode_json data = Some v.
Proof. intros (v & t & H & _)%Canonicalize_value. eauto. Qed.
Lemma same_entry_item e e' it it' : entry_frozen e it -> entry_frozen e' it' -> it = it' <-> same_entry e e'.
Proof.
  intros [_ I1 C1 _ _ G1 _] [_ I2 C2 _ _ G2 _]. destruct (Canonicalize_decodes _ _ C1) as (v & Hv). destruct (Canonicalize_decodes _ _ C2) as (v' & Hv').
  destruct (canonical_same _ _ _ _ _ _ C1 C2 Hv Hv') as [_ Hsame]. split.
  - intros <-. split; [congruence|]. exists v, v'. split_and!; [done|done|]. by apply Hsame.
  - intros (Hid & w & w' & Hw & Hw' & Hs). assert (mi_Item it = mi_Item it') as Hi by (apply Hsame; congruence).
    destruct it as [i d c], it' as [i' d' c']. cbn in *. subst. rewrite Hid in G1. f_equal; congruence.
Qed.

Lemma same_rosters es es' found found' :
  NoDup (map re_Identity es) -> Forall2 entry_frozen es found -> Forall2 entry_frozen es' found' ->
  sort_by item_le found = sort_by item_le found' <-> exists es'', Permutation es' es'' /\ Forall2 same_entry es es''.
Proof.
  intros Hnd HF HF'. split.
  - intros E. assert (Permutation found' found) as Hp by (rewrite (sort_by_perm item_le found), (sort_by_perm item_le found'), E; done).
    apply Forall2_flip in HF'. destruct (Permutation_Forall2 Hp HF') as (es'' & Hp' & HF''). exists es''. split; [done|]. apply Forall2_flip in HF''.
    clear -HF HF'' Laws DLaws. revert es'' HF''. induction HF as [|e it es found He HF IH]; intros es'' HF''; inversion HF''; subst; constructor; [|auto].
    by eapply same_entry_item.
  - intros (es'' & Hp & Hs). destruct (Permutation_Forall2 Hp HF') as (found'' & Hp' & HF'').
    assert (found = found'') as <-.
    { clear -HF HF'' Hs Laws DLaws. revert found found'' HF HF''. induction Hs as [|e e' es es'' He Hs IH]; intros found found'' HF HF''; inversion HF; subst; inversion HF''; subst; [done|].
      f_equal; [by eapply same_entry_item|auto]. }
    apply sort_items_unique; [done|]. by rewrite (found_identities _ _ HF).
Qed.

(** C12: A roster source freezes exactly if its media type and size are admitted, the
    envelope accepts it, its identities are valid and distinct, and every item is a
    canonicalizable object within the bound whose supplied digest, if any, is that of
    the item; the frozen items are then those entries in strict bytewise order of
    their identities.  Two sources freeze to the same roster exactly if they have the
    same entries in any order: the same identities with the same JSON values, however
    they are spelled. *)
Theorem roster_is_its_entries data mediaType :
  (forall items, FreezeRoster data mediaType = Ok items <->
     exists es, admitted data mediaType es /\ StronglySorted item_lt items /\ exists found, Permutation found items /\ Forall2 entry_frozen es found) /\
  forall data' mediaType' items items' es es',
    FreezeRoster data mediaType = Ok items -> FreezeRoster data' mediaType' = Ok items' ->
    decode_roster data = Some es -> decode_roster data' = Some es' ->
    items = items' <-> exists es'', Permutation es' es'' /\ Forall2 same_entry es es''.
Proof.
  split.
  - intros items. rewrite FreezeRoster_spec. split.
    + intros (es & found & Ha & HF & ->). exists es. split_and!; [done|apply sort_items_strict; rewrite (found_identities _ _ HF); apply Ha|]. exists found. split; [apply sort_by_perm|done].
    + intros (es & Ha & Hs & found & Hp & HF). exists es, found. split_and!; [done|done|]. assert (NoDup (map mi_Identity found)) as Hnd by (rewrite (found_identities _ _ HF); apply Ha).
      apply (StronglySorted_unique_strong item_lt); [|done|by apply sort_items_strict|by rewrite <- sort_by_perm].
      intros x y Hx Hy Hxy Hyx. pose proof (item_lt_trans _ _ _ Hxy Hyx) as H. unfold item_lt, String.ltb in H. by rewrite string_compare_refl in H.
  - intros data' mt' items items' es es' (es0 & found & Ha & HF & ->)%FreezeRoster_spec (es1 & found' & Ha' & HF' & ->)%FreezeRoster_spec Hd Hd'.
    assert (es0 = es) as -> by (pose proof (ad_decoded _ _ _ Ha); congruence). assert (es1 = es') as -> by (pose proof (ad_decoded _ _ _ Ha'); congruence).
    apply same_rosters; [apply Ha|done|done].
Qed.

(** ** Digests *)

Lemma same_object_member ms ms' k x :
  same_json (JObject ms) (JObject ms') -> (k, x) ∈ ms -> exists y, (k, y) ∈ ms' /\ same_json x y.
Proof.
  intros H. inversion H as [| | | | |? ? ns ns' Hp Hp' HF]; subst. intros Hin. rewrite Hp in Hin. apply list_elem_of_lookup in Hin as [i Hi].
  destruct (Forall2_lookup_l _ _ _ _ _ HF Hi) as ([k' y] & Hy & [Hk Hs]). cbn in Hk, Hs. subst k'. exists y. split; [|done]. rewrite Hp'. by eapply list_elem_of_lookup_2.
Qed.
Lemma same_item_object id id' v v' : same_json (item_object id v) (item_object id' v') <-> id = id' /\ same_json v v'.
Proof.
  unfold item_object. split.
  - intros H. assert (bytes "identity" <> bytes "item") as Hne by done. split.
    + destruct (same_object_member _ _ (bytes "identity") (JString (bytes id)) H) as (y & Hy & Hs); [left|].
      apply elem_of_cons in Hy as [[= ->]|Hy%list_elem_of_singleton]; [|injection Hy; congruence]. inversion Hs as [| | |? E| |]. by apply bytes_inj.
    + destruct (same_object_member _ _ (bytes "item") v H) as (y & Hy & Hs); [right; left|].
      apply elem_of_cons in Hy as [Hy|[= ->]%list_elem_of_singleton]; [injection Hy; congruence|done].
  - intros [-> Hs]. eapply (same_object _ _ _ _ (reflexivity _) (reflexivity _)). repeat constructor; done.
Qed.

(** The digest of an item is SHA-256 of bytes that are the same for two items
    exactly if the items have the same identity and the same JSON value. *)
Theorem digest_commits_to_the_item `{!ItemLaws} id id' item item' d d' v v' :
  ValidIdentity id = true -> ValidIdentity id' = true ->
  ItemDigest id item = Some d -> ItemDigest id' item' = Some d' -> decode_json item = Some v -> decode_json item' = Some v' ->
  exists c c', d = Digest c /\ d' = Digest c' /\ (c = c' <-> id = id' /\ same_json v v').
Proof.
  intros Hi Hi' Hd Hd' Hv Hv'. unfold ItemDigest, item_preimage in Hd, Hd'.
  destruct (isJSONObject item); [|done]. destruct (isJSONObject item'); [|done]. cbn [negb] in Hd, Hd'.
  destruct (marshal_item id item) as [m|] eqn:Em; [|done]. destruct (marshal_item id' item') as [m'|] eqn:Em'; [|done].
  destruct (Canonicalize m) as [c|] eqn:Ec; [|done]. destruct (Canonicalize m') as [c'|] eqn:Ec'; [|done]. injection Hd as <-. injection Hd' as <-.
  exists c, c'. split_and!; [done|done|]. rewrite <- same_item_object.
  by apply (canonical_same m m' c c'); [..|eapply marshal_item_value|eapply marshal_item_value].
Qed.
End values.

(** ** Visits *)

(** C27: A visit accepts the events recorded after its [map.started] exactly if each
    record is allowed by the records of its own branch before it: lifecycle records
    name the map, carry the roster's identity and digest, and start once; work
    happens after a start and not after a finish that no intervention reopened;
    nothing names a branch outside the roster.  How the branches interleave makes no
    difference.  So every branch record is the one start of its branch, or follows it
    while the branch is not settled, as the comment of [Observe] says, with the
    exception the code makes on purpose: an item that was never started may finish as
    cancelled.  (The code, unlike that comment, then still takes a start of the
    cancelled item, and so does [allowed]: [FanoutExample.cancelled_item_may_start].)
    The visit knows exactly which items have started and which are settled, and a
    [map.finished] closes it exactly if it lists the roster, item by item. *)
Theorem visit_is_verified_exactly v es :
  unstarted v ->
  ((exists v', observe_all v es = Ok v') <-> all_allowed v es) /\
  (forall es', (forall b, records b es = records b es') -> (exists v', observe_all v es' = Ok v') <-> (exists v', observe_all v es = Ok v')) /\
  (forall v', observe_all v es = Ok v' -> in_its_branch es /\ knows v es v' /\
     forall e completeness, VerifyFinished v' e completeness = None <->
       ev_Type e = EventMapFinished /\ ev_Parallel e = v_name v /\ map outcome_key completeness = roster_keys v).
Proof.
  intros Hf. assert (forall es, (exists v', observe_all v es = Ok v') <-> all_allowed v es) as Hiff.
  { intros l. destruct (observe_fresh v l Hf) as [[(v' & E & _) HA]|[(err & E) HA]]; [split; eauto|]. rewrite E. split; [by intros [??]|done]. }
  split; [apply Hiff|]. split.
  - intros es' Hr. rewrite !Hiff. split; apply all_allowed_interleaving; [done|]. intros b. by rewrite Hr.
  - intros v' E. destruct (observe_fresh v es Hf) as [[(v'' & E' & K) _]|[(err & E') _]]; rewrite E in E'; [|done]. injection E' as <-.
    split; [eapply allowed_in_its_branch, Hiff; eauto|]. split; [done|].
    intros e completeness. rewrite VerifyFinished_spec, (knows_name _ _ _ K). unfold roster_keys. by rewrite (knows_items _ _ _ K).
Qed.

(** A visit has at most 32 items, with valid identities in strict bytewise order and
    valid digests, and one flag of each kind for each. *)
Record well_formed (v : MapVisit) : Prop := {
  wf_bound : Z.of_nat (length (v_items v)) <= MaxRosterItems;
  wf_order : StronglySorted item_lt (v_items v);
  wf_items : Forall (fun it => ValidIdentity (mi_Identity it) = true /\ ValidDigest (mi_Digest it) = true) (v_items v);
  wf_started : length (v_started v) = length (v_items v);
  wf_finished : length (v_finished v) = length (v_items v)
}.
Lemma NewMapVisit_well_formed start roster def v : NewMapVisit start roster def = Ok v -> well_formed v.
Proof.
  unfold NewMapVisit. destruct (negb _); [done|]. destruct roster as [roster|]; [|done]. do 3 (case_match; [done|]).
  destruct (Z.ltb_spec MaxRosterItems (Z.of_nat (length (mr_Items roster)))); [done|]. case_match; [done|].
  destruct (verifyItems start roster None 0 (mr_Items roster)) eqn:Ev; [done|]. intros [= <-]. apply verifyItems_spec in Ev as (Hok & Hs & _).
  split; cbn; try done; [|by rewrite length_replicate|by rewrite length_replicate]. eapply Forall_impl; [exact Hok|]. intros it (? & ? & _). done.
Qed.
(** C37: A visit is well formed from the [map.started] that opens it on, whatever events
    it has accepted since: at most 32 items with valid digests and valid identities,
    which are distinct and in strict bytewise order, and one started and one finished
    flag per item. *)
Theorem visits_stay_well_formed start roster def v0 es v :
  NewMapVisit start roster def = Ok v0 -> observe_all v0 es = Ok v -> well_formed v.
Proof.
  intros Hn Ho. pose proof (NewMapVisit_well_formed _ _ _ _ Hn) as [W1 W2 W3 W4 W5]. apply NewMapVisit_fresh in Hn as [Hf _].
  destruct (observe_fresh v0 es Hf) as [[(v' & E & K) _]|[(err & E) _]]; rewrite Ho in E; [|done]. injection E as <-.
  destruct (knows_lengths _ _ _ K). pose proof (knows_items _ _ _ K) as Hi. split; rewrite ?Hi; auto.
Qed.

(** ** Journals *)

Lemma opens_fresh maps es k v : opens_at maps es k v -> unstarted v.
Proof. intros (s & def & _ & _ & H). by apply NewMapVisit_fresh in H as [? _]. Qed.

(** C11: When the scan of a journal finds a pending map visit, or none, every map visit
    of the journal has been verified.  Each [map.started] opens a visit of its frozen
    roster under the pinned definition.  The pending visit is that of the last one,
    no map was opened or closed since, every record after it is allowed, and the
    visit knows which items have started and are settled.  Each [map.finished]
    closes the visit opened before it, whose records in between are all allowed, with
    the outcome of every roster item in order. *)
Theorem pending_visits_are_verified m maps es p :
  findPendingFanOut m maps es = Ok p ->
  (forall j s, es !! j = Some s -> ev_Type (fe_event s) = EventMapStarted -> exists v, opens_at maps es j v) /\
  (forall v, pf_mapVisit p = Some v -> exists k v0, pf_start p = Some k /\ opens_at maps es k v0 /\
     let later := segment es k (length es) in
     Forall (fun e => ~ boundary e) later /\ all_allowed v0 later /\ knows v0 later v) /\
  (forall j f, es !! j = Some f -> ev_Type (fe_event f) = EventMapFinished -> exists k v0, (k < j)%nat /\ opens_at maps es k v0 /\
     let between := segment es k j in
     Forall (fun e => ~ boundary e) between /\ all_allowed v0 between /\ ev_Parallel (fe_event f) = v_name v0 /\
     map outcome_key (fe_Completeness f) = roster_keys v0).
Proof.
  intros (Hp & Hs & Hf)%find_ok. split; [exact Hs|]. split.
  - intros v Ev. unfold pending_ok in Hp. rewrite Ev in Hp. destruct Hp as (k & v0 & Hk & Ho & _ & Hobs & Hb). exists k, v0.
    destruct (observe_fresh v0 (segment es k (length es)) (opens_fresh _ _ _ _ Ho)) as [[(v' & E & K) HA]|[(err & E) _]]; rewrite Hobs in E; [|done].
    injection E as <-. split_and!; done.
  - intros j f Hj Ht. destruct (Hf j f Hj Ht) as (k & v0 & v & Hlt & Ho & Hobs & Hb & Hv). exists k, v0.
    destruct (observe_fresh v0 (segment es k j) (opens_fresh _ _ _ _ Ho)) as [[(v' & E & K) HA]|[(err & E) _]]; rewrite Hobs in E; [|done].
    injection E as <-. apply VerifyFinished_spec in Hv as (_ & Hn & Hc). rewrite (knows_name _ _ _ K) in Hn. unfold roster_keys in Hc. rewrite (knows_items _ _ _ K) in Hc.
    split_and!; done.
Qed.

(** ** Selections *)

Section selection.
Context {Sels : SelectionDocuments}.

Lemma choose_spec declared entries : forall chosen r,
  choose_branches declared entries chosen = Ok r ->
  NoDup (map fst entries) /\ (forall k, k ∈ map fst entries -> k ∈ declared /\ chosen !! k = None) /\ Forall (fun e => Z.of_nat (String.length e.2) <= MaxSelectionReasonBytes) entries /\
  forall k x, r !! k = Some x <-> (k, x) ∈ entries \/ chosen !! k = Some x.
Proof.
  induction entries as [|[k x] entries IH]; intros chosen r; cbn [choose_branches map fst].
  { intros [= <-]. split_and!; [constructor|by intros k ?%not_elem_of_nil|constructor|]. intros k x. rewrite elem_of_nil. tauto. }
  destruct (mem_string k declared) eqn:Em; cbn [negb]; [|done]. apply mem_string_true in Em. case_bool_decide as Hc; [done|]. apply eq_None_not_Some in Hc.
  destruct (Z.ltb_spec MaxSelectionReasonBytes (Z.of_nat (String.length x))); [done|]. intros (H1 & H2 & H3 & H4)%IH.
  assert (k ∉ map fst entries) as Hk by (intros Hin; destruct (H2 k Hin) as [_ E]; by rewrite lookup_insert_eq in E). split_and!.
  - by constructor.
  - intros k' [->|Hk']%elem_of_cons; [done|]. destruct (H2 k' Hk') as [? E]. split; [done|]. rewrite lookup_insert_ne in E; [done|]. by intros ->.
  - by constructor.
  - intros k' y. rewrite H4, elem_of_cons. destruct (decide (k' = k)) as [->|Hne].
    + rewrite lookup_insert_eq, Hc. split; [intros [Hin|[= ->]]; [destruct Hk; by apply (list_elem_of_fmap_2 fst) in Hin|auto]|]. intros [[[= ->]|?]|?]; auto. done.
    + rewrite lookup_insert_ne by done. split; [tauto|]. intros [[[= -> ->]|?]|?]; auto. done.
Qed.
Lemma select_spec chosen branches : forall acc,
  NoDup (map sb_Name branches) ->
  let r := fold_left (select_branch chosen) branches acc in
  r.1 = acc.1 ++ map sb_Name (filter (fun b => sb_Optional b = true /\ is_Some (chosen !! sb_Name b)) branches) /\
  forall k, r.2 !! k = if decide (k ∈ map sb_Name (filter (fun b => sb_Optional b = true /\ is_Some (chosen !! sb_Name b)) branches) /\ chosen !! k <> Some "") then chosen !! k else acc.2 !! k.
Proof.
  induction branches as [|b branches IH]; intros acc Hnd; cbn [fold_left map].
  { split; [by rewrite app_nil_r|]. intros k. destruct (decide _) as [[H _]|]; [by apply not_elem_of_nil in H|done]. }
  cbn in Hnd. apply NoDup_cons in Hnd as [Hb Hnd]. destruct (IH (select_branch chosen acc b) Hnd) as [IH1 IH2]. rewrite filter_cons.
  assert (forall k, k ∈ map sb_Name (filter (fun b => sb_Optional b = true /\ is_Some (chosen !! sb_Name b)) branches) -> k <> sb_Name b) as Hne.
  { intros k Hk ->. destruct Hb. apply list_elem_of_fmap in Hk as (b' & -> & [_ Hb']%list_elem_of_filter). by apply list_elem_of_fmap_2. }
  destruct (decide (sb_Optional b = true /\ is_Some (chosen !! sb_Name b))) as [[Ho [x Hx]]|Hn].
  - assert (select_branch chosen acc b = (acc.1 ++ [sb_Name b], if (x =? "")%string then acc.2 else <[sb_Name b := x]> acc.2)) as Es by (unfold select_branch; by rewrite Hx, Ho).
    rewrite Es in IH1, IH2. cbn [fst snd] in IH1, IH2. split; [rewrite Es, IH1; cbn; by rewrite <- app_assoc|]. intros k. rewrite Es, IH2. cbn [map].
    destruct (decide (k = sb_Name b)) as [->|Hk].
    + rewrite decide_False by (intros [H _]; by apply Hne in H). destruct (String.eqb_spec x "") as [Hx'|Hx'].
      * destruct (decide _) as [[_ H]|]; [|done]. by rewrite Hx, Hx' in H.
      * rewrite lookup_insert_eq, decide_True, Hx; [done|]. split; [left|rewrite Hx; congruence].
    + assert ((if (x =? "")%string then acc.2 else <[sb_Name b := x]> acc.2) !! k = acc.2 !! k) as -> by (destruct (x =? "")%string; [done|by rewrite lookup_insert_ne by congruence]).
      apply decide_ext. rewrite elem_of_cons. tauto.
  - assert (select_branch chosen acc b = acc) as Es by (unfold select_branch; destruct (chosen !! sb_Name b) eqn:E; [|done]; destruct (sb_Optional b); [destruct Hn; eauto|done]). rewrite Es in IH1, IH2 |- *. by split.
Qed.

Lemma validateSelectionSource_ok def source data limit :
  validateSelectionSource def source data limit = None -> 1 <= fs_Attempt source < 2 ^ 31 /\ Digest data = fs_Digest source.
Proof.
  unfold validateSelectionSource, ValidateSourceBlobRef. destruct (sel_Source def) as [[task slot]|]; [|done]. repeat (case_match; [done|]). intros _.
  repeat match goal with
  | H : _ || _ = false |- _ => apply orb_false_iff in H as [? ?]
  | H : (_ <? _) = false |- _ => apply Z.ltb_ge in H
  | H : negb _ = false |- _ => apply negb_false_iff in H
  | H : (_ =? _)%string = true |- _ => apply String.eqb_eq in H
  end. split; [lia|done].
Qed.

(** A frozen selection lists exactly the optional branches its document names, in
    the order they are declared and whatever the order of the document, with exactly
    the reasons the document gives that are not empty; the document names declared
    branches only, each once, with reasons of at most 512 bytes. *)
Theorem selection_is_exact def source data limit sel entries :
  NoDup (map sb_Name (sel_Branches def)) ->
  FreezeSelection def source data limit = Ok sel -> decode_selection data = Some (entries, true) ->
  NoDup (map fst entries) /\ Forall (fun e => e.1 ∈ map sb_Name (sel_Branches def) /\ Z.of_nat (String.length e.2) <= MaxSelectionReasonBytes) entries /\
  ps_Selected sel = map sb_Name (filter (fun b => sb_Optional b = true /\ sb_Name b ∈ map fst entries) (sel_Branches def)) /\
  (forall k r, ps_Reasons sel !! k = Some r <-> k ∈ ps_Selected sel /\ (k, r) ∈ entries /\ r <> "") /\
  ss_Attempt (ps_Source sel) = fs_Attempt source /\ 1 <= fs_Attempt source < 2 ^ 31 /\ Digest data = ps_SourceDigest sel.
Proof.
  intros Hnd. unfold FreezeSelection. destruct (validateSelectionSource def source data limit) eqn:Ev; [done|].
  destruct selectionSchema as [check|]; [|done]. destruct (check data); [|done]. cbn [negb]. intros H Hd. rewrite Hd in H. cbn [negb] in H.
  destruct (choose_branches (map sb_Name (sel_Branches def)) entries ∅) as [chosen|] eqn:Ec; [|done]. apply choose_spec in Ec as (H1 & H2 & H3 & H4).
  destruct (select_spec chosen (sel_Branches def) ([], ∅) Hnd) as [S1 S2]. destruct (fold_left (select_branch chosen) (sel_Branches def) ([], ∅)) as [selected reasons]. cbn [fst snd app] in S1, S2.
  injection H as <-. cbn [ps_Selected ps_Reasons ps_Source ps_SourceDigest ss_Attempt].
  assert (forall k x, chosen !! k = Some x <-> (k, x) ∈ entries) as Hch by (intros k x; rewrite H4, lookup_empty; naive_solver).
  assert (forall k, is_Some (chosen !! k) <-> k ∈ map fst entries) as Hin.
  { intros k. rewrite list_elem_of_fmap. split; [intros [x Hx%Hch]; by exists (k, x)|]. intros ([k' x] & -> & Hx%Hch). eauto. }
  assert (selected = map sb_Name (filter (fun b => sb_Optional b = true /\ sb_Name b ∈ map fst entries) (sel_Branches def))) as Hsel.
  { rewrite S1. f_equal. apply list_filter_iff. intros b. by rewrite Hin. }
  destruct (validateSelectionSource_ok _ _ _ _ Ev) as [Hatt Hdig]. split_and!; try done; try apply Hatt.
  - apply Forall_forall. intros [k x] He. split; [|by eapply Forall_forall in H3]. apply H2. by apply (list_elem_of_fmap_2 fst) in He.
  - intros k r. rewrite S2, <- S1, lookup_empty. destruct (decide _) as [[Hk Hne]|Hn].
    + rewrite Hch. split; [intros Hr; split_and!; [done|done|]; intros ->; by apply Hne, Hch|tauto].
    + split; [done|]. intros (Hk & Hr & Hne). destruct Hn. split; [done|]. apply Hch in Hr. rewrite Hr. congruence.
Qed.
End selection.
End props.

(** ** A map visit, as an example

    Two items frozen from two spellings of a roster, the journal of a visit that is
    pending, and the theorems on fan-out applied to them.  The hash is a checksum and
    the decoder knows the documents of the example. *)

Local Close Scope Z_scope.
Module FanoutExample.
#[local] Existing Instances sample_doubles sample_laws.

(** ** Documents *)

Definition item_1 : list N := quoted "{'n':1}".
Definition item_1' : list N := quoted "{ 'n': 1.0 }".
Definition item_half : list N := quoted "{'n':-0.5}".
Definition number_item (s : string) : json := JObject [(bytes "n", JNumber (bytes s))].
Definition base (data : list N) : option json :=
  if bool_decide (data = item_1) then Some (number_item "1")
  else if bool_decide (data = item_1') then Some (number_item "1.0")
  else if bool_decide (data = item_half) then Some (number_item "-0.5")
  else None.

Definition wrap_prefix : list N := quoted "{'identity':'".
Definition wrap_middle : list N := quoted "','item':".
Definition wrap (identity : string) (item : list N) : list N := wrap_prefix ++ bytes identity ++ wrap_middle ++ item ++ [125%N].
Fixpoint until_quote (l : list N) : list N := match l with [] => [] | c :: l => if (c =? 34)%N then [] else c :: until_quote l end.
Definition unwrap (data : list N) : option (string * list N) :=
  let rest := drop 13 data in
  let id := until_quote rest in
  let tail := drop (length id + 9) rest in
  let item := take (length tail - 1) tail in
  if bool_decide (data = wrap (of_bytes id) item) && ValidIdentity (of_bytes id) then Some (of_bytes id, item) else None.

#[local] Instance decode_instance : JSONDecode := fun data =>
  match base data with
  | Some v => Some v
  | None => match unwrap data with Some (id, item) => item_object id <$> base item | None => None end
  end.

Lemma identity_bytes id : ValidIdentity id = true -> Forall (fun b => (b < 128)%N /\ b <> 34%N) (bytes id).
Proof.
  unfold ValidIdentity. destruct (bytes id) as [|b bs]; [done|]. intros [[Hb Hbs]%andb_true_iff _]%andb_true_iff.
  assert (forall x, identity_rest x = true -> (x < 128)%N /\ x <> 34%N) as Hrest.
  { intros x. unfold identity_rest, alnum, GoStrings.between. rewrite !orb_true_iff, !andb_true_iff, !N.leb_le. cbn [existsb]. rewrite !orb_true_iff, !N.eqb_eq. lia. }
  constructor; [apply Hrest; unfold identity_rest; by rewrite Hb|]. rewrite forallb_forall in Hbs. apply Forall_forall. intros x Hx%list_elem_of_In. auto.
Qed.
Lemma until_quote_spec l r : Forall (fun b => (b < 128)%N /\ b <> 34%N) l -> until_quote (l ++ 34%N :: r) = l.
Proof. induction 1 as [|c l [_ Hc] Hl IH]; [done|]. cbn [app until_quote]. by rewrite (proj2 (N.eqb_neq c 34) Hc), IH. Qed.
Lemma bytes_read_back s : of_bytes (bytes s) = s.
Proof. apply bytes_inj, bytes_of_bytes. induction s as [|c s IH]; constructor; [apply N_ascii_bounded|done]. Qed.
Lemma unwrap_wrap id item : ValidIdentity id = true -> unwrap (wrap id item) = Some (id, item).
Proof.
  intros Hid. unfold unwrap. change (drop 13 (wrap id item)) with (bytes id ++ 34%N :: quoted ",'item':" ++ item ++ [125%N]).
  rewrite until_quote_spec by (by apply identity_bytes). rewrite <- drop_drop, drop_app_length. change (drop 9 (34%N :: quoted ",'item':" ++ ?x)) with x.
  rewrite length_app. cbn [length]. rewrite Nat.add_sub, take_app_length, bytes_read_back. rewrite bool_decide_true by done. by rewrite Hid.
Qed.
Lemma base_wrap id item : base (wrap id item) = None.
Proof. unfold base. repeat (rewrite bool_decide_false by done). done. Qed.

#[local] Instance decode_laws : DecodeLaws.
Proof.
  assert (forall data v, base data = Some v -> scalar_json v) as Hbase.
  { intros data v. unfold base. repeat case_bool_decide; try done; intros [= <-]; cbn; split_and!; try done; apply Forall_singleton; unfold scalar; lia. }
  intros data v. unfold decode_json, decode_instance. destruct (base data) as [w|] eqn:E; [intros [= <-]; eauto|].
  destruct (unwrap data) as [[id item]|] eqn:Eu; [|done]. destruct (base item) as [w|] eqn:Ew; [|done]. cbn. intros [= <-].
  assert (ValidIdentity id = true) as Hid by (unfold unwrap in Eu; destruct (bool_decide _); [|done]; cbn [andb] in Eu; destruct (ValidIdentity _) eqn:Ev; [|done]; congruence).
  assert (forall s, Forall (fun b => (b < 128)%N) (bytes s) -> Forall scalar (bytes s)) as Hascii by (intros s Hs; eapply Forall_impl; [exact Hs|]; unfold scalar; cbn; lia).
  apply scalar_object. apply Forall_cons. split; [|apply Forall_singleton]; (split; [apply (Hascii "identity") || apply (Hascii "item"); by repeat constructor|]).
  - apply Hascii. eapply Forall_impl; [by apply identity_bytes|]. cbn. tauto.
  - eauto.
Qed.

#[local] Instance checksum : SHA256 := fun data => replicate 31 0%N ++ [(fold_left (fun a b => a * 31 + b) data 7 mod 256)%N].
#[local] Instance checksum_laws : HashLaws.
Proof. intros b. split; [done|]. apply Forall_app. split; [apply Forall_replicate; lia|]. apply Forall_singleton. by apply N.mod_lt. Qed.

Definition roster_a : list N := quoted "roster a".
Definition roster_b : list N := quoted "roster b".
Definition entries_a : list rosterEntry := [mkEntry "two" item_half None; mkEntry "one" item_1' None].
Definition entries_b : list rosterEntry := [mkEntry "one" item_1 None; mkEntry "two" item_half None].
Definition decode_rosters (data : list N) : option (list rosterEntry) :=
  if bool_decide (data = roster_a) then Some entries_a else if bool_decide (data = roster_b) then Some entries_b else None.
Definition marshal (id : string) (item : list N) : option (list N) := if base item then Some (wrap id item) else None.

Definition sample_map : Map := mkMapDef "fan" "plan" "roster" "work" BranchContinueOnError 0 0.
Definition documents (encode : FrozenRosterBlob -> option (list N)) (decode : list N -> option (FrozenRosterBlob * bool)) : FanoutDocuments := {|
  rosterEnvelopeSchema := Some (fun _ => true);
  decode_roster := decode_rosters;
  marshal_item := marshal;
  encode_blob := encode;
  decode_blob := decode
|}.
Definition frozen_a : list MapItem :=
  match FreezeRoster (Docs := documents (fun _ => None) (fun _ => None)) roster_a SourceMediaType with Ok items => items | Error _ => [] end.
Definition sample_source : FanOutSourceRef := mkSource "plan" "roster" 4 1 (Digest roster_a) "derived" "artifacts/roster" 8 SourceMediaType.
Definition sample_blob : FrozenRosterBlob := frozen_blob sample_map sample_source frozen_a.
Definition sample_bytes : list N := quoted "frozen".
#[local] Instance MapRoster_eq_dec : EqDecision MapRoster.
Proof. solve_decision. Defined.
#[local] Instance FrozenRosterBlob_eq_dec : EqDecision FrozenRosterBlob.
Proof. solve_decision. Defined.
#[local] Instance sample_documents : FanoutDocuments :=
  documents (fun blob => if bool_decide (blob = sample_blob) then Some sample_bytes else None)
    (fun data => if bool_decide (data = sample_bytes) then Some (sample_blob, true) else None).
#[local] Instance sample_blob_laws : BlobLaws.
Proof. intros blob data _. cbn. case_bool_decide as E; [|done]. intros [= <-]. by rewrite bool_decide_true, E. Qed.
#[local] Instance sample_item_laws : ItemLaws.
Proof.
  intros id item data v Hid Hm Hv. cbn in Hm. unfold marshal in Hm. destruct (base item) as [w|] eqn:Ew; [|done]. injection Hm as <-.
  unfold decode_json, decode_instance in *. rewrite Ew in Hv. injection Hv as ->. by rewrite base_wrap, unwrap_wrap, Ew.
Qed.

(** ** The theorems *)

Lemma roster_is_its_entries_witness :
  exists items, FreezeRoster roster_a SourceMediaType = Ok items /\ FreezeRoster roster_b SourceMediaType = Ok items /\
    map mi_Identity items = ["one"; "two"] /\ exists es'', Permutation entries_b es'' /\ Forall2 same_entry entries_a es''.
Proof.
  destruct (FreezeRoster roster_a SourceMediaType) as [items|] eqn:Ea; [|by vm_compute in Ea]. exists items. split; [done|].
  assert (FreezeRoster roster_b SourceMediaType = Ok items) as Eb by (rewrite <- Ea; vm_compute; reflexivity). split; [done|].
  split; [vm_compute in Ea; by injection Ea as <-|].
  by apply (proj2 (roster_is_its_entries roster_a SourceMediaType) roster_b SourceMediaType items items entries_a entries_b Ea Eb).
Defined.

Lemma digest_commits_to_the_item_witness :
  ItemDigest "one" item_1 = ItemDigest "one" item_1' /\
  exists c c', ItemDigest "one" item_1 = Some (Digest c) /\ ItemDigest "one" item_half = Some (Digest c') /\ c <> c'.
Proof.
  split; [vm_compute; reflexivity|].
  destruct (ItemDigest "one" item_1) as [d|] eqn:E1; [|by vm_compute in E1]. destruct (ItemDigest "one" item_half) as [d'|] eqn:E2; [|by vm_compute in E2].
  destruct (digest_commits_to_the_item "one" "one" item_1 item_half d d' (number_item "1") (number_item "-0.5")) as (c & c' & -> & -> & Hc); try done.
  exists c, c'. split; [done|]. split; [done|]. intros [_ H]%Hc. inversion H as [| | | | |? ? ns ns' Hp Hp' HF]; subst.
  apply Permutation_singleton_l in Hp. apply Permutation_singleton_l in Hp'. subst. inversion HF as [|? ? ? ? [_ Hs] _]; subst.
  inversion Hs as [| |? ? (v & w & Hv & Hw & Hor)| | |]; subst. vm_compute in Hv, Hw. injection Hv as <-. injection Hw as <-. by destruct Hor as [?|[? _]].
Defined.

Lemma frozen_roster_reloads_witness :
  exists blob encoded digest, FreezeRosterBlob sample_map sample_source roster_a = Ok (blob, encoded, digest) /\
    DecodeRosterBlob encoded digest sample_map = Ok blob /\ map mi_Identity (mr_Items (fb_Roster blob)) = ["one"; "two"].
Proof.
  destruct (FreezeRosterBlob sample_map sample_source roster_a) as [[[blob encoded] digest]|] eqn:E; [|by vm_compute in E].
  exists blob, encoded, digest. split; [done|]. split; [|vm_compute in E; by injection E as <- _ _].
  by apply (frozen_roster_reloads sample_map sample_source roster_a blob encoded digest).
Defined.

(** ** A pending visit *)

Definition item_event (t : EventType) (branch : Z) (stage status identity digest : string) : Event :=
  mkEvent EventSchema 0 t branch 0 stage "" "" "" "" "" "" None "" None ∅ false "fan" "" identity digest status "" "" "" "" "" false 0.
Definition digest_of (i : nat) : string := match frozen_a !! i with Some it => mi_Digest it | None => "" end.
Definition records_so_far : list Event :=
  [item_event EventBranchStarted 1 "work" "" "one" (digest_of 0); item_event EventStageStarted 1 "work" "" "" "";
   item_event EventBranchFinished 2 "" "cancelled" "two" (digest_of 1); item_event EventRunnerAnnotation 0 "" "" "" ""].
Definition sample_roster : MapRoster := mkRoster sample_source BranchContinueOnError 0 1 (Digest sample_bytes) frozen_a.
Definition started : FanEvent := mkFanEvent (item_event EventMapStarted 0 "" "" "" "") (Some sample_roster) [].
Definition visit_journal : list FanEvent := started :: map (fun e => mkFanEvent e None []) records_so_far.
Definition machine : Machine := mkMachine (mkDefinition "sample" 1 "3.1" (mkSpec "plan" None [] [] [] [] false)) ∅ ∅ ∅ ∅.
Definition maps (name : string) : option Map := if (name =? "fan")%string then Some sample_map else None.
Definition sample_visit : MapVisit := visit_of sample_roster sample_map.

Lemma visit_is_verified_exactly_witness :
  all_allowed sample_visit records_so_far /\ ~ all_allowed sample_visit (records_so_far ++ [item_event EventStageStarted 2 "work" "" "" ""]).
Proof.
  split.
  - apply (visit_is_verified_exactly sample_visit records_so_far); [by split|]. eexists. vm_compute. reflexivity.
  - intros H. apply (visit_is_verified_exactly sample_visit) in H as [v H]; [|by split]. by vm_compute in H.
Defined.
Lemma pending_visits_are_verified_witness :
  exists p v v0, findPendingFanOut machine maps visit_journal = Ok p /\ pf_mapVisit p = Some v /\ v_started v = [true; false] /\ v_finished v = [false; true] /\
    opens_at maps visit_journal 0 v0 /\ all_allowed v0 records_so_far.
Proof.
  destruct (findPendingFanOut machine maps visit_journal) as [p|] eqn:E; [|by vm_compute in E].
  destruct (pending_visits_are_verified machine maps visit_journal p E) as (_ & Hpending & _).
  assert (pf_start p = Some 0 /\ exists v, pf_mapVisit p = Some v /\ v_started v = [true; false] /\ v_finished v = [false; true]) as (Hk & v & Hv & Hs & Hf).
  { vm_compute in E. injection E as <-. split; [done|]. eexists. split; [done|]. by split. }
  destruct (Hpending v Hv) as (k & v0 & Hk' & Ho & _ & HA & _). rewrite Hk in Hk'. injection Hk' as <-. exists p, v, v0. split_and!; done.
Defined.

Lemma visits_stay_well_formed_witness :
  exists v, observe_all sample_visit records_so_far = Ok v /\ well_formed v /\ v_started v = [true; false].
Proof.
  destruct (observe_all sample_visit records_so_far) as [v|] eqn:E; [|by vm_compute in E]. exists v. split; [done|].
  split; [|vm_compute in E; by injection E as <-].
  by apply (visits_stay_well_formed (fe_event started) (Some sample_roster) sample_map sample_visit records_so_far v); [vm_compute; reflexivity|].
Defined.

(** A selection that names branches out of order. *)
Definition selection_bytes : list N := quoted "select".
#[local] Instance sample_selections : SelectionDocuments := {|
  selectionSchema := Some (fun _ => true);
  decode_selection data := if bool_decide (data = selection_bytes) then Some ([("docs", ""); ("lint", "touched"); ("build", "always")], true) else None
|}.
Definition selective : SelParallel :=
  mkSelParallel "checks" [mkSelBranch "build" false; mkSelBranch "lint" true; mkSelBranch "test" true; mkSelBranch "docs" true] (Some ("plan", "choice")).
Definition selection_source : FanOutSourceRef := mkSource "plan" "choice" 4 2 (Digest selection_bytes) "" "" 6 SourceMediaType.
Lemma selection_is_exact_witness :
  exists sel, FreezeSelection selective selection_source selection_bytes MaxSourceBytes = Ok sel /\
    ps_Selected sel = ["lint"; "docs"] /\ ps_Reasons sel !! "lint" = Some "touched" /\ ps_Reasons sel !! "docs" = None /\ ps_Integrity sel = "derived".
Proof.
  destruct (FreezeSelection selective selection_source selection_bytes MaxSourceBytes) as [sel|] eqn:E; [|by vm_compute in E]. exists sel. split; [done|].
  destruct (selection_is_exact selective selection_source selection_bytes MaxSourceBytes sel [("docs", ""); ("lint", "touched"); ("build", "always")])
    as (_ & _ & Hs & Hr & _); [by apply (bool_decide_unpack _)|done|vm_compute; reflexivity|].
  rewrite Hs. split; [vm_compute; reflexivity|]. split; [apply Hr; rewrite Hs; split_and!; [by apply (bool_decide_unpack _)|by apply (bool_decide_unpack _)|done]|].
  vm_compute in E. injection E as <-. by split.
Defined.

(** An item cancelled before it started may still start, against the comment of
    [Observe]: no record after the finish is allowed to be work, but the start is. *)
Example cancelled_item_may_start :
  let es := [item_event EventBranchFinished 2 "" "cancelled" "two" (digest_of 1); item_event EventBranchStarted 2 "work" "" "two" (digest_of 1)] in
  exists v, observe_all sample_visit es = Ok v /\ v_started v = [false; true] /\ v_finished v = [false; true].
Proof. eexists. vm_compute. split_and!; reflexivity. Qed.
End FanoutExample.
