(* ===== verification/StageContract.v ===== *)
(** * Inputs and outputs of stages: [internal/workflow/v_3_0/stagecontract.go],
    [pathsimulation.go], [requiredinputs.go], the branch references of
    [parallel.go], and their resolution at run time in
    [internal/runsemantics/inputsfrom.go], [branchinputs.go], [expectedoutputs.go]

    A task reads outputs of earlier tasks through [InputsFrom]: a bare key of the
    task before it, a key qualified by a stage, or at a join a key qualified by a
    branch.  The compiler checks the references, the runner resolves them. *)

From S2P Require Export WorkflowParallelProps GateChecks.
Local Open Scope string_scope.
Local Open Scope list_scope.

(** ** References *)

(** [strings.Cut] at one byte and [strings.SplitN]. *)
Fixpoint Cut (c : ascii) (s : string) : option (string * string) :=
  match s with
  | EmptyString => None
  | String b s' =>
      if (b =? c)%char then Some ("", s')
      else match Cut c s' with Some (l, r) => Some (String b l, r) | None => None end
  end.
Fixpoint SplitN (c : ascii) (n : nat) (s : string) : list string :=
  match n with
  | O => []
  | S O => [s]
  | S n => match Cut c s with Some (l, r) => l :: SplitN c n r | None => [s] end
  end.

Definition splitQualifiedRef (value : string) : option (string * string) :=
  match Cut "." value with
  | Some (stage, key) => if (stage =? "") || (key =? "") then None else Some (stage, key)
  | None => None
  end.

(** [ref_shorthand]: the reference names no stage. *)
Record branchInputReference := mkBranchRef {
  ref_parallel : string; ref_branch : string; ref_stage : string; ref_key : string; ref_shorthand : bool
}.
Definition splitBranchInputReference (value : string) : option branchInputReference :=
  match SplitN "." 4 value with
  | [p; b; k] => if (p =? "") || (b =? "") || (k =? "") then None else Some (mkBranchRef p b "" k true)
  | [p; b; s; k] => if (p =? "") || (b =? "") || (s =? "") || (k =? "") then None else Some (mkBranchRef p b s k false)
  | _ => None
  end.

Definition is_task (m : Machine) (s : string) : bool := bool_decide (is_Some (m_tasks m !! s)).
Definition is_parallel (m : Machine) (s : string) : bool := bool_decide (is_Some (m_parallels m !! s)).

Definition isQualifiedInputReference (m : Machine) (value : string) : bool :=
  match splitBranchInputReference value with Some ref => is_parallel m (ref_parallel ref) | None => false end
  || match splitQualifiedRef value with Some (stage, _) => is_task m stage | None => false end.

Definition isShellStage (task : Task) : bool :=
  match task_Type task, task_Run task with
  | TaskDeterministic, Some _ =>
      let kind := TrimSpace (default "" (Inputs task !! "kind")) in (kind =? "") || (kind =? "shell")
  | _, _ => false
  end.
Definition IsShellStage (task : Task) : bool := negb (bool_decide (is_Some (InputsFrom task !! "kind"))) && isShellStage task.

(** ** Problems *)

Inductive stage_problem :=
| NoResultFile (task : string) (outputs read : list string)
| OutputMissing (task input output predecessor : string)
| ReadsItself (task input stage : string)
| NotOnEveryPath (task input stage key : string)
| StageOutputMissing (task input stage key : string)
| DottedName (name : string)
| RequiredInputs (task subcommand : string) (missing : list string)
| BranchMalformed (task input value : string)
| BranchUnknownParallel (task input parallel : string)
| BranchNotJoin (task input value : string)
| BranchOtherParallel (task join input parallel : string)
| BranchUnknown (task input branch parallel : string)
| BranchTerminals (task input branch : string) (count : nat)
| BranchUnknownStage (task input stage branch : string)
| BranchNotTask (task input stage branch : string)
| BranchNotEveryPath (task input stage branch : string)
| BranchOutputMissing (task input key stage branch : string).

(** ** Stage contracts *)

Definition consumed_by (tasks parallels : list string) (outputKey : string) : list string :=
  outputKey ::
  match splitBranchInputReference outputKey with
  | Some ref =>
      if mem_string (ref_parallel ref) parallels then [ref_key ref]
      else match splitQualifiedRef outputKey with
           | Some (stage, key) => if mem_string stage tasks then [key] else []
           | None => []
           end
  | None =>
      match splitQualifiedRef outputKey with
      | Some (stage, key) => if mem_string stage tasks then [key] else []
      | None => []
      end
  end.
Definition consumedOutputKeys (def : Definition_) : gset string :=
  list_to_set (concat (map (fun t =>
    concat (map (fun kv => consumed_by (map task_Name (Tasks (Spec def))) (map par_Name (Parallels (Spec def))) kv.2)
      (map_to_list (InputsFrom t)))) (Tasks (Spec def)))).

Definition result_file (task : Task) : string := TrimSpace (default "" (Inputs task !! "resultFile")).
Definition undeclared_problem (consumed : gset string) (wantConsumed : bool) (task : Task) : list stage_problem :=
  if negb (isShellStage task) then []
  else if (length (ExpectedOutputs task) =? 0)%nat then []
  else if negb (result_file task =? "") then []
  else
    let read := List.filter (fun k => bool_decide (k ∈ consumed)) (ExpectedOutputs task) in
    if negb (Bool.eqb (0 <? length read)%nat wantConsumed) then []
    else [NoResultFile (task_Name task) (ExpectedOutputs task) read].
Definition undeclaredResultFileProblems (def : Definition_) (consumed : gset string) (wantConsumed : bool) : list stage_problem :=
  concat (map (undeclared_problem consumed wantConsumed) (Tasks (Spec def))).

Definition sortedTaskNames (m : Machine) : list string := sort_strings (map task_Name (Tasks (Spec (Def m)))).
Definition allStateNames (m : Machine) : list string :=
  sort_strings (map task_Name (Tasks (Spec (Def m))) ++ map gate_Name (Gates_ (Spec (Def m)))).

(** The tasks and gates with a transition to a state, once per transition. *)
Definition incoming (m : Machine) (state : string) : list string :=
  concat (map (fun s => map (fun _ => s) (List.filter (String.eqb state) (Outgoing m s))) (allStateNames m)).
(** The walk goes back through gates and stops at tasks; its result is sorted, so
    that the order of the walk does not show. *)
Definition precedingTasks (m : Machine) (target : string) : list string :=
  sort_strings (List.filter (is_task m)
    (walk_all (fun _ => true) (fun s => if is_task m s then [] else incoming m s) push_stack (stateNames (Def m)) (incoming m target))).

Definition precedes_enter (m : Machine) (producer s : string) : bool :=
  negb ((s =? producer) || (s =? "") || isTerminal s) && Has m s.
Definition precedesOnEveryPath (m : Machine) (producer consumer : string) : bool :=
  if Start (Spec (Def m)) =? producer then true
  else negb (mem_string consumer
         (walk_all (precedes_enter m producer) (Outgoing m) push_stack (stateNames (Def m)) [Start (Spec (Def m))])).

Definition declares_other (task : Task) (key : string) : bool :=
  (0 <? length (ExpectedOutputs task))%nat && negb (mem_string key (ExpectedOutputs task)).

Definition qualifiedRefProblems (m : Machine) (consumer inputKey stageName key : string) : list stage_problem :=
  if stageName =? consumer then [ReadsItself consumer inputKey stageName]
  else
    (if negb (precedesOnEveryPath m stageName consumer) then [NotOnEveryPath consumer inputKey stageName key] else [])
    ++ match m_tasks m !! stageName with
       | Some producer => if declares_other producer key then [StageOutputMissing consumer inputKey stageName key] else []
       | None => []
       end.

Definition bare_problems (m : Machine) (name inputKey outputKey : string) : list stage_problem :=
  concat (map (fun predName =>
    match m_tasks m !! predName with
    | Some pred => if declares_other pred outputKey then [OutputMissing name inputKey outputKey predName] else []
    | None => []
    end) (precedingTasks m name)).
Definition reference_problems (m : Machine) (name inputKey outputKey : string) : list stage_problem :=
  if match splitBranchInputReference outputKey with Some ref => is_parallel m (ref_parallel ref) | None => false end then []
  else match splitQualifiedRef outputKey with
  | Some (stage, key) => if is_task m stage then qualifiedRefProblems m name inputKey stage key else bare_problems m name inputKey outputKey
  | None => bare_problems m name inputKey outputKey
  end.
Definition task_reference_problems (m : Machine) (name : string) : list stage_problem :=
  match m_tasks m !! name with
  | None => []
  | Some task =>
      concat (map (fun inputKey => reference_problems m name inputKey (default "" (InputsFrom task !! inputKey)))
        (sortedKeys (InputsFrom task)))
  end.
Definition unsatisfiableInputsFromProblems (m : Machine) : list stage_problem :=
  concat (map (task_reference_problems m) (sortedTaskNames m)).

Definition CheckStageContracts (def : Definition_) : list stage_problem :=
  let m := newMachine def in
  match structuralProblems m with
  | _ :: _ => []
  | [] => undeclaredResultFileProblems def (consumedOutputKeys def) true ++ unsatisfiableInputsFromProblems m
  end.
Definition CheckStageContractWarnings (def : Definition_) : list stage_problem :=
  match structuralProblems (newMachine def) with
  | _ :: _ => []
  | [] => undeclaredResultFileProblems def (consumedOutputKeys def) false
  end.

Definition dotted (name : string) : list stage_problem := if Contains name "." then [DottedName name] else [].
Definition dottedStateNameProblems (def : Definition_) : list stage_problem :=
  concat (map dotted (map task_Name (Tasks (Spec def)))) ++ concat (map dotted (map gate_Name (Gates_ (Spec def))))
  ++ concat (map (fun p => dotted (par_Name p) ++ concat (map dotted (map branch_Name (par_Branches p)))) (Parallels (Spec def))).

(** ** Required inputs *)

Definition stageRequiredInputs : gmap string (list string) :=
  {["advisory-pr-select" := ["reviewType"];
    "advisory-pr-publish" := ["reviewType"; "expectedAuthor"];
    "apply-verdict" := ["selectedNumber"; "selectedHeadSha"; "selectedBaseSha"];
    "elect-lander" := ["selectedNumber"];
    "merge-pr" := ["pullNumber"; "verdict"; "headSha"; "baseSha"];
    "post-merge" := ["pullNumber"];
    "merge-queue-poll" := ["pullNumber"]]}.
Definition goobersSubcommand (task : Task) : option string :=
  if negb (isShellStage task) then None
  else match task_Run task with
  | Some r => match Command r with c :: sub :: _ => if c =? "goobers" then Some sub else None | _ => None end
  | None => None
  end.
Definition required_problem (task : Task) : list stage_problem :=
  match goobersSubcommand task with
  | None => []
  | Some sub =>
      match stageRequiredInputs !! sub with
      | None => []
      | Some required =>
          let missing := List.filter (fun key =>
            negb (bool_decide (is_Some (Inputs task !! key))) && negb (bool_decide (is_Some (InputsFrom task !! key)))) required in
          match missing with [] => [] | _ => [RequiredInputs (task_Name task) sub (sort_strings missing)] end
      end
  end.
Definition CheckStageRequiredInputs (def : Definition_) : list stage_problem :=
  match structuralProblems (newMachine def) with
  | _ :: _ => []
  | [] => concat (map required_problem (Tasks (Spec def)))
  end.

(** ** Branch references *)

Definition join_enter (m : Machine) (producer s : string) : bool :=
  negb (s =? producer) && ((s =? TargetJoin) || (negb ((s =? TerminalComplete) || IsReservedAnyTarget s) && Has m s)).
(** The walk answers as soon as it pops [@join]. *)
Definition precedesBranchJoinOnEveryPath (m : Machine) (start producer : string) : bool :=
  if start =? producer then true
  else negb (mem_string TargetJoin (walk_all (join_enter m producer) (Outgoing m) push_stack (stateNames (Def m)) [start])).

(** The last parallel that joins at a state. *)
Definition join_of (m : Machine) : gmap string Parallel :=
  foldl (fun j p => <[par_Join p := p]> j) ∅ (Parallels (Spec (Def m))).
Definition branch_stage_problems (m : Machine) (task inputKey : string) (b : Branch) (stage key : string) : list stage_problem :=
  if negb (mem_string stage (branchBody m (branch_Start b))) then [BranchUnknownStage task inputKey stage (branch_Name b)]
  else match m_tasks m !! stage with
  | None => [BranchNotTask task inputKey stage (branch_Name b)]
  | Some producer =>
      (if negb (precedesBranchJoinOnEveryPath m (branch_Start b) stage) then [BranchNotEveryPath task inputKey stage (branch_Name b)] else [])
      ++ (if declares_other producer key then [BranchOutputMissing task inputKey key stage (branch_Name b)] else [])
  end.
Definition branch_ref_problems (m : Machine) (task inputKey : string) (join : Parallel) (ref : branchInputReference) : list stage_problem :=
  if negb (ref_parallel ref =? par_Name join) then [BranchOtherParallel task (par_Name join) inputKey (ref_parallel ref)]
  else match find (fun b => branch_Name b =? ref_branch ref) (par_Branches join) with
  | None => [BranchUnknown task inputKey (ref_branch ref) (ref_parallel ref)]
  | Some b =>
      if ref_shorthand ref then
        match joinTerminalStates m (branch_Start b) with
        | [terminal] => branch_stage_problems m task inputKey b terminal (ref_key ref)
        | terminals => [BranchTerminals task inputKey (branch_Name b) (length terminals)]
        end
      else branch_stage_problems m task inputKey b (ref_stage ref) (ref_key ref)
  end.
Definition branch_input_problems (m : Machine) (task : Task) (inputKey : string) : list stage_problem :=
  let join := join_of m !! task_Name task in
  let value := default "" (InputsFrom task !! inputKey) in
  match splitBranchInputReference value with
  | Some ref =>
      if is_task m (ref_parallel ref) then []
      else match join with
      | None => if is_parallel m (ref_parallel ref) then [BranchNotJoin (task_Name task) inputKey value] else []
      | Some p =>
          if is_parallel m (ref_parallel ref) then branch_ref_problems m (task_Name task) inputKey p ref
          else [BranchUnknownParallel (task_Name task) inputKey (ref_parallel ref)]
      end
  | None =>
      match join with
      | Some _ => if (2 <=? CountByte "." value)%nat then [BranchMalformed (task_Name task) inputKey value] else []
      | None => []
      end
  end.
Definition branchInputsFromProblems (m : Machine) : list stage_problem :=
  concat (map (fun t => concat (map (branch_input_problems m t) (sortedKeys (InputsFrom t)))) (Tasks (Spec (Def m)))).

(** ** Path simulation *)

(** The nul byte between the parts of a key. *)
Definition nul : string := String "000" "".

(** What a task emits, if it is known. *)
Definition taskProducedOutputs (task : Task) : option (gset string) :=
  if (length (ExpectedOutputs task) =? 0)%nat then None
  else if isShellStage task && (result_file task =? "") then Some ∅
  else Some (list_to_set (ExpectedOutputs task)).
Definition sortedOutputKeys (live : gset string) : list string := sort_strings (elements live).
Definition liveOutputsSignature (live : option (gset string)) : string :=
  match live with None => "?" | Some keys => String.concat "," (sortedOutputKeys keys) end.

Record pathSimulationFrame := mkFrame {
  pf_state : string; pf_live : option (gset string); pf_lastTask : string; pf_path : list string
}.
Inductive path_problem :=
| Unresolvable (task input output : string) (path : list string) (lastTask : string) (live : gset string)
| PathsBounded (limit : N).
#[export] Instance path_problem_eq_dec : EqDecision path_problem.
Proof. solve_decision. Defined.
Record simulation := mkSimulation {
  ps_visited : gset string; ps_reported : gset string; ps_problems : list path_problem; ps_expansions : N; ps_bounded : bool
}.

Section simulation.
Context (m : Machine) (limit : N).

Definition frame_key (f : pathSimulationFrame) : string := pf_state f +:+ nul +:+ liveOutputsSignature (pf_live f).
Definition report_key (state inputKey : string) : string := state +:+ nul +:+ inputKey.

(** One input of the task at the state. *)
Definition simulate_input (f : pathSimulationFrame) (path : list string) (task : Task) (st : simulation) (inputKey : string) : simulation :=
  let outputKey := default "" (InputsFrom task !! inputKey) in
  if isQualifiedInputReference m outputKey then st
  else match pf_live f with
  | None => st
  | Some live =>
      if bool_decide (outputKey ∈ live) then st
      else if bool_decide (report_key (pf_state f) inputKey ∈ ps_reported st) then st
      else mkSimulation (ps_visited st) ({[report_key (pf_state f) inputKey]} ∪ ps_reported st)
             (ps_problems st ++ [Unresolvable (pf_state f) inputKey outputKey path (pf_lastTask f) live]) (ps_expansions st) (ps_bounded st)
  end.

(** The frames a frame leads to, in order. *)
Definition hop (state step : string) : string := state +:+ ":" +:+ step.
Definition gate_frames (f : pathSimulationFrame) (g : Gate) : list pathSimulationFrame :=
  map (fun outcome => mkFrame (default "" (gate_Branches g !! outcome)) (pf_live f) (pf_lastTask f) (pf_path f ++ [hop (pf_state f) outcome]))
    (sortedKeys (gate_Branches g)).
Definition parallel_frames (f : pathSimulationFrame) (p : Parallel) : list pathSimulationFrame :=
  map (fun b => mkFrame (branch_Start b) (pf_live f) (pf_lastTask f) (pf_path f ++ [hop (pf_state f) (branch_Name b)])) (par_Branches p)
  ++ [mkFrame (par_Join p) None (pf_state f) (pf_path f ++ [hop (pf_state f) "@join"])]
  ++ (if OnFailure p =? "" then [] else [mkFrame (OnFailure p) None (pf_state f) (pf_path f ++ [hop (pf_state f) "@onFailure"])]).
Definition next_frames (f : pathSimulationFrame) : list pathSimulationFrame :=
  match m_tasks m !! pf_state f with
  | Some task => [mkFrame (Next task) (taskProducedOutputs task) (pf_state f) (pf_path f ++ [pf_state f])]
  | None =>
      match m_gates m !! pf_state f with
      | Some g => gate_frames f g
      | None => match m_parallels m !! pf_state f with Some p => parallel_frames f p | None => [] end
      end
  end.
(** What is reported at a frame. *)
Definition simulate_task (f : pathSimulationFrame) (st : simulation) : simulation :=
  match m_tasks m !! pf_state f with
  | Some task => foldl (simulate_input f (pf_path f ++ [pf_state f]) task) st (sortedKeys (InputsFrom task))
  | None => st
  end.

(** [walk] of [pathSimulationProblems]. *)
Fixpoint simulate (fuel : nat) (f : pathSimulationFrame) (st : simulation) : simulation :=
  match fuel with
  | O => st
  | S fuel =>
      if isTerminal (pf_state f) then st
      else if bool_decide (frame_key f ∈ ps_visited st) then st
      else
        let st := mkSimulation ({[frame_key f]} ∪ ps_visited st) (ps_reported st) (ps_problems st) (ps_expansions st + 1) (ps_bounded st) in
        if (limit <? ps_expansions st)%N then mkSimulation (ps_visited st) (ps_reported st) (ps_problems st) (ps_expansions st) true
        else foldl (fun st f => simulate fuel f st) (simulate_task f st) (next_frames f)
  end.

Definition start_frame : pathSimulationFrame := mkFrame (Start (Spec (Def m))) None "" [].
Definition simulate_all : simulation :=
  simulate (S (S (N.to_nat limit))) start_frame (mkSimulation ∅ ∅ [] 0 false).
(** The problems, which the code sorts by their text. *)
Definition pathSimulationProblems_with : list path_problem :=
  let st := simulate_all in ps_problems st ++ (if ps_bounded st then [PathsBounded limit] else []).
End simulation.

Definition maxPathSimulationExpansions : N := 20000.
Definition pathSimulationProblems (m : Machine) : list path_problem := pathSimulationProblems_with m maxPathSimulationExpansions.
Definition CheckPathSimulation (def : Definition_) : list path_problem :=
  let m := newMachine def in
  match structuralProblems m with _ :: _ => [] | [] => pathSimulationProblems m end.

(** ** Resolution at run time *)

Record stageOutput := mkStageOutput { so_Outputs : gmap string Any; so_Integrity : string }.
Definition stageOutputs : Type := gmap string stageOutput.

Definition RecordOutputs (s : stageOutputs) (stage : string) (outputs : gmap string Any) (grade : string) : stageOutputs :=
  if stage =? "" then s else <[stage := mkStageOutput outputs grade]> s.
Definition IntegrityOf (s : stageOutputs) (stage : string) : string :=
  match s !! stage with Some o => so_Integrity o | None => "" end.
Definition ClearOutputs (s : stageOutputs) (stage : string) : stageOutputs := delete stage s.
(** The grade is a field of the result, passed beside it. *)
Definition RecordCompleted (s : stageOutputs) (t : Task) (result : ResultEnvelope) (grade : string) : stageOutputs :=
  if (re_Status result =? ResultFailure) && ContinueOnError t then ClearOutputs s (task_Name t)
  else RecordOutputs s (task_Name t) (re_Outputs result) grade.

Definition splitQualified (value : string) : option (string * string) :=
  match Cut "." value with
  | Some (stage, key) => if (stage =? "") || (key =? "") then None else Some (stage, key)
  | None => None
  end.
(** The stage a value is resolved against, if it is not the preceding one. *)
Definition qualified_stage (value : string) (completed : stageOutputs) (qualified : bool) : option (stageOutput * string) :=
  if qualified then
    match splitQualified value with
    | Some (stage, key) => match completed !! stage with Some produced => Some (produced, key) | None => None end
    | None => None
    end
  else None.
Definition resolveInputsFrom (value : string) (upstream : ResultEnvelope) (completed : stageOutputs) (qualified : bool) : option Any :=
  match qualified_stage value completed qualified with
  | Some (produced, key) => so_Outputs produced !! key
  | None => re_Outputs upstream !! value
  end.
Definition inputsFromIntegrity (value : string) (upstream : string) (completed : stageOutputs) (qualified : bool) : string :=
  match qualified_stage value completed qualified with
  | Some (produced, _) => so_Integrity produced
  | None => upstream
  end.

(** The statuses of a branch whose outputs are left out. *)
Definition without_outputs : list string := ["failed"; "timed-out"; "cancelled"; "no-output"; "skipped"].
Record BranchInputSource := mkBranchSource { bs_Start : string; bs_Status : string; bs_Completed : stageOutputs }.
Record BranchInputResolution := mkResolution {
  br_Value : option Any; br_Integrity : string; br_Recognized : bool; br_Absent : bool
}.
Definition splitBranchInput (value : string) : option branchInputReference := splitBranchInputReference value.
(** The second terminal task ends the walk; none and several answer the same. *)
Definition singleJoinTerminalTask (m : Machine) (start : string) : string :=
  match List.filter (fun s => match m_tasks m !! s with Some t => Next t =? TargetJoin | None => false end)
          (walk_all (in_body m) (Outgoing m) push_stack (stateNames (Def m)) [start]) with
  | [terminal] => terminal
  | _ => ""
  end.
Definition unrecognized : BranchInputResolution := mkResolution None "" false false.
Definition ResolveBranchInput (value : string) (m : Machine) (parallel : string) (branches : gmap string BranchInputSource) : BranchInputResolution :=
  match splitBranchInput value with
  | None => unrecognized
  | Some ref =>
      if (parallel =? "") || negb (ref_parallel ref =? parallel) then unrecognized
      else match branches !! ref_branch ref with
      | None => mkResolution None "" true false
      | Some branch =>
          if mem_string (bs_Status branch) without_outputs then mkResolution None "" true true
          else
            let stage := if ref_stage ref =? "" then singleJoinTerminalTask m (bs_Start branch) else ref_stage ref in
            match bs_Completed branch !! stage with
            | Some produced => mkResolution (so_Outputs produced !! ref_key ref) (so_Integrity produced) true false
            | None => mkResolution None "" true false
            end
      end
  end.

(** ** Enforced outputs *)

Definition parseDSLVersion (version : string) : option (Z * Z) :=
  match Cut "." version with
  | None => None
  | Some (majorText, minorText) =>
      if (majorText =? "") || (minorText =? "") || Contains minorText "." then None
      else match Atoi majorText, Atoi minorText with
      | Some major, Some minor => if ((major <? 0) || (minor <? 0))%Z then None else Some (major, minor)
      | _, _ => None
      end
  end.
Definition CompareDSLVersions (left right : string) : option Z :=
  match parseDSLVersion left, parseDSLVersion right with
  | Some (lM, lm), Some (rM, rm) =>
      Some (if negb (lM =? rM) then if lM <? rM then -1 else 1
            else if negb (lm =? rm) then if lm <? rm then -1 else 1
            else 0)%Z
  | _, _ => None
  end.
Definition V31DSLVersion : string := "3.1".
Definition EnforcesExpectedOutputs (dslVersion : string) (task : Task) : bool :=
  if (length (ExpectedOutputs task) =? 0)%nat then false
  else match CompareDSLVersions dslVersion V31DSLVersion with Some order => (0 <=? order)%Z | None => false end.

Definition SalvagedOnTimeoutOutput : string := "salvagedOnTimeout".
Definition preservedCommittedWorkOutput : string := "preservedCommittedWork".
Definition runnerSynthesizedSuccess (result : ResultEnvelope) : bool :=
  bool_decide (re_Outputs result !! SalvagedOnTimeoutOutput = Some (AnyBool true))
  || bool_decide (re_Outputs result !! preservedCommittedWorkOutput = Some (AnyBool true)).
Definition MissingExpectedOutputsCode : string := "missing_expected_outputs".
Section enforce.
Context {Quo : Quoting}.
(** [%q] of a list. *)
Definition quoted_list (l : list string) : string := "[" +:+ String.concat " " (map Quote l) +:+ "]".
Definition nonShellOutputChannel (task : Task) : string :=
  if bool_decide (task_Type task = TaskAgentic) then "its agent result"
  else if IsShellStage task then ""
  else if bool_decide (is_Some (InputsFrom task !! "kind")) then "its runtime-bound kind (inputsFrom.kind)"
  else "its built-in kind " +:+ Quote (TrimSpace (default "" (Inputs task !! "kind"))).
Definition missingExpectedOutputsMessage (task : Task) (missing : list string) : string :=
  let channel := nonShellOutputChannel task in
  let declares := "stage " +:+ Quote (task_Name task) +:+ " declares expectedOutputs " +:+ quoted_list (ExpectedOutputs task) in
  if negb (channel =? "") then declares +:+ " but " +:+ channel +:+ " did not emit " +:+ quoted_list missing
  else
    let resultFile := result_file task in
    let resultFile := if (resultFile =? "") && bool_decide (is_Some (InputsFrom task !! "resultFile")) then "inputsFrom.resultFile" else resultFile in
    if resultFile =? "" then
      declares +:+ " but did not emit " +:+ quoted_list missing
      +:+ ": it declares no inputs.resultFile, the only channel a shell stage emits outputs through"
    else
      declares +:+ " but its result file " +:+ Quote resultFile +:+ " did not provide " +:+ quoted_list missing
      +:+ "; the file must be a flat JSON object (UTF-8, optional byte-order mark) with a string, number, or boolean value for each declared key".
(** The summary of the result is left out. *)
Definition EnforceExpectedOutputs (dslVersion : string) (task : Task) (result : ResultEnvelope) : ResultEnvelope :=
  if negb (re_Status result =? ResultSuccess) || negb (EnforcesExpectedOutputs dslVersion task) || runnerSynthesizedSuccess result then result
  else match List.filter (fun key => negb (bool_decide (is_Some (re_Outputs result !! key)))) (ExpectedOutputs task) with
  | [] => result
  | missing => mkEnvelope ResultFailure (re_Outputs result) (Some (mkErrorInfo MissingExpectedOutputsCode (missingExpectedOutputsMessage task missing) false))
  end.
End enforce.
