(* ===== verification/PathSimulationProps.v ===== *)
(** * What the path simulation finds

    The memoized walk reports an input exactly if some path through the workflow
    leads to the task with an emitting task before it that does not emit the key. *)

From S2P Require Export StageContract.
Local Open Scope string_scope.
Local Open Scope list_scope.

(** ** Keys *)

Fixpoint has_char (c : ascii) (s : string) : bool :=
  match s with EmptyString => false | String b s => (b =? c)%char || has_char c s end.

Lemma append_char_inj c s s' r r' :
  has_char c s = false -> has_char c s' = false -> s +:+ String c r = s' +:+ String c r' -> s = s' /\ r = r'.
Proof.
  revert s'. induction s as [|b s IH]; intros [|b' s']; cbn; intros H1 H2 H3.
  - by injection H3.
  - injection H3 as -> _. by rewrite Ascii.eqb_refl in H2.
  - injection H3 as -> _. by rewrite Ascii.eqb_refl in H1.
  - apply orb_false_iff in H1 as [_ H1], H2 as [_ H2]. injection H3 as -> H3. by destruct (IH s' H1 H2 H3) as [-> ->].
Qed.

Definition plain_key (k : string) : Prop := k <> "" /\ k <> "?" /\ has_char "," k = false.

Lemma concat_inj l : forall l', Forall plain_key l -> Forall plain_key l' -> String.concat "," l = String.concat "," l' -> l = l'.
Proof.
  assert (forall x y r, has_char "," x = false -> x = y +:+ String "," r -> False) as Hno.
  { intros x y r Hx ->. clear -Hx. induction y as [|b y IH]; cbn in Hx; [done|]. apply orb_false_iff in Hx as [_ Hx]. auto. }
  induction l as [|x l IH]; intros [|y l'] Hl Hl'; cbn [String.concat]; [done| | |].
  - intros H. apply Forall_cons in Hl' as [(Hy & _) _]. destruct l'; [done|]. by destruct y.
  - intros H. apply Forall_cons in Hl as [(Hx & _) _]. destruct l; [done|]. by destruct x.
  - apply Forall_cons in Hl as [Hx Hl], Hl' as [Hy Hl']. destruct l as [|x2 l], l' as [|y2 l'].
    + by intros ->.
    + intros H. destruct (Hno x y (String.concat "," (y2 :: l'))); [apply Hx|done].
    + intros H. symmetry in H. destruct (Hno y x (String.concat "," (x2 :: l))); [apply Hy|done].
    + intros H. apply append_char_inj in H as [-> H]; [|apply Hx|apply Hy]. by rewrite (IH (y2 :: l')).
Qed.
Lemma concat_question l : Forall plain_key l -> String.concat "," l <> "?".
Proof.
  intros Hl H. assert (Forall plain_key ["?"] -> False) as Hq by (by intros [(_ & ? & _) _]%Forall_cons).
  destruct l as [|x [|y l]]; [done| |].
  - apply Forall_cons in Hl as [(_ & Hx & _) _]. done.
  - apply Forall_cons in Hl as [(Hx & _) _]. cbn in H. destruct x as [|b x]; [done|]. injection H as _ H. by destruct x.
Qed.

Definition plain_live (live : option (gset string)) : Prop := forall keys, live = Some keys -> forall k, k ∈ keys -> plain_key k.
Lemma sortedOutputKeys_elem keys k : k ∈ sortedOutputKeys keys <-> k ∈ keys.
Proof. unfold sortedOutputKeys, sort_strings. by rewrite sort_by_elem, elem_of_elements. Qed.
Lemma signature_inj live live' : plain_live live -> plain_live live' -> liveOutputsSignature live = liveOutputsSignature live' -> live = live'.
Proof.
  intros P P'. assert (forall keys, plain_live (Some keys) -> Forall plain_key (sortedOutputKeys keys)) as HF.
  { intros keys Hk. apply Forall_forall. intros k Hin%sortedOutputKeys_elem. by apply (Hk keys). }
  destruct live as [keys|], live' as [keys'|]; cbn; intros H; [|by destruct (concat_question _ (HF _ P))|by destruct (concat_question _ (HF _ P'))|done].
  apply concat_inj in H; [|by apply HF|by apply HF]. f_equal. apply set_eq. intros k. by rewrite <- !sortedOutputKeys_elem, H.
Qed.

(** ** Nodes *)

Definition node : Type := string * option (gset string).
Definition node_of (f : pathSimulationFrame) : node := (pf_state f, pf_live f).
Definition at_node (n : node) : pathSimulationFrame := mkFrame n.1 n.2 "" [].
Definition node_key (n : node) : string := n.1 +:+ nul +:+ liveOutputsSignature n.2.
Definition plain_node (n : node) : Prop := has_char "000" n.1 = false /\ plain_live n.2.

Lemma node_key_inj n n' : plain_node n -> plain_node n' -> node_key n = node_key n' -> n = n'.
Proof.
  intros [H1 H2] [H1' H2'] H. apply append_char_inj in H as [E1 E2]; [|done|done]. apply signature_inj in E2; [|done|done]. destruct n, n'. cbn in *. congruence.
Qed.
Lemma report_key_inj s s' i i' : has_char "000" s = false -> has_char "000" s' = false -> report_key s i = report_key s' i' -> s = s' /\ i = i'.
Proof. intros. by apply (append_char_inj "000"). Qed.

Section simulation.
Context (m : Machine) (limit : N).

Definition next_nodes (n : node) : list node := map node_of (next_frames m (at_node n)).
Lemma next_frames_nodes f : map node_of (next_frames m f) = next_nodes (node_of f).
Proof.
  unfold next_nodes, next_frames, at_node. cbn. destruct (m_tasks m !! pf_state f); [done|]. destruct (m_gates m !! pf_state f).
  - unfold gate_frames. rewrite !map_map. done.
  - destruct (m_parallels m !! pf_state f); [|done]. unfold parallel_frames. rewrite !map_app, !map_map. cbn. by destruct (OnFailure p =? "").
Qed.
Lemma next_nodes_elem f g : g ∈ next_frames m f -> node_of g ∈ next_nodes (node_of f).
Proof. intros H. rewrite <- next_frames_nodes. by apply list_elem_of_fmap_2. Qed.
Lemma next_nodes_out n n' : n' ∈ next_nodes n -> n'.1 ∈ Outgoing m n.1 /\ (n'.2 = n.2 \/ n'.2 = None \/ exists t, m_tasks m !! n.1 = Some t /\ n'.2 = taskProducedOutputs t).
Proof.
  unfold next_nodes, next_frames, Outgoing. cbn. destruct (m_tasks m !! n.1) as [t|]; [intros ->%list_elem_of_singleton; split; [by left|eauto]|].
  destruct (m_gates m !! n.1) as [g|].
  - unfold gate_frames, gate_targets. rewrite map_map. intros (o & -> & Ho)%list_elem_of_fmap. cbn. split; [|auto]. apply list_elem_of_fmap. eauto.
  - destruct (m_parallels m !! n.1) as [p|]; [|by intros ?%not_elem_of_nil]. unfold parallel_frames, parallel_targets. rewrite !map_app, map_map.
    rewrite !elem_of_app. intros [(b & -> & Hb)%list_elem_of_fmap|[->%list_elem_of_singleton|H]]; cbn.
    + split; [|auto]. left. apply list_elem_of_fmap. eauto.
    + split; [|auto]. right; left. by left.
    + destruct (OnFailure p =? ""); [by apply not_elem_of_nil in H|]. apply list_elem_of_singleton in H as ->. cbn. split; [|auto]. right; right. by left.
Qed.

(** A path through the workflow, as the simulation and a run take it. *)
Definition path_step (f g : pathSimulationFrame) : Prop := isTerminal (pf_state f) = false /\ g ∈ next_frames m f.
Definition path_to (f : pathSimulationFrame) : Prop := rtc path_step (start_frame m) f.

(** An input of the task at a node that the outputs it is known to be given lack. *)
Definition unresolved (n : node) (input output : string) (live : gset string) : Prop :=
  isTerminal n.1 = false /\ exists task, m_tasks m !! n.1 = Some task /\ InputsFrom task !! input = Some output /\
  isQualifiedInputReference m output = false /\ n.2 = Some live /\ output ∉ live.

(** ** What the walk keeps *)

Lemma foldl_keeps {A B} (I : B -> Prop) (g : B -> A -> B) l b : (forall x b, x ∈ l -> I b -> I (g b x)) -> I b -> I (foldl g b l).
Proof. revert b. induction l as [|x l IH]; intros b Hg Hb; [done|]. cbn. apply IH; [intros; apply Hg; [by right|done]|]. apply Hg; [by left|done]. Qed.

Record grows (st st' : simulation) : Prop := {
  grows_visited : ps_visited st ⊆ ps_visited st';
  grows_reported : ps_reported st ⊆ ps_reported st';
  grows_expansions : (ps_expansions st <= ps_expansions st')%N;
  grows_bounded : ps_bounded st = true -> ps_bounded st' = true
}.
#[local] Instance grows_preorder : PreOrder grows.
Proof.
  split; [by intros st; split|]. intros a b c [A1 A2 A3 A4] [B1 B2 B3 B4]. split; [set_solver|set_solver|lia|auto].
Qed.

Lemma simulate_input_grows f path task st input : grows st (simulate_input m f path task st input) /\
  ps_visited (simulate_input m f path task st input) = ps_visited st /\ ps_expansions (simulate_input m f path task st input) = ps_expansions st /\
  ps_bounded (simulate_input m f path task st input) = ps_bounded st.
Proof. unfold simulate_input. repeat case_match; (split_and!; [split; cbn; try done; try lia; set_solver|done..]). Qed.
Lemma simulate_task_grows f st : grows st (simulate_task m f st) /\ ps_visited (simulate_task m f st) = ps_visited st /\
  ps_expansions (simulate_task m f st) = ps_expansions st /\ ps_bounded (simulate_task m f st) = ps_bounded st.
Proof.
  unfold simulate_task. destruct (m_tasks m !! pf_state f) as [task|]; [|done].
  apply (foldl_keeps (fun st' => grows st st' /\ ps_visited st' = ps_visited st /\ ps_expansions st' = ps_expansions st /\ ps_bounded st' = ps_bounded st)); [|done].
  intros i st' _ (G & V & E & B). destruct (simulate_input_grows f (pf_path f ++ [pf_state f]) task st' i) as (G' & V' & E' & B').
  split_and!; [by etrans|congruence..].
Qed.
Lemma simulate_task_reports f st input output live : unresolved (node_of f) input output live -> report_key (pf_state f) input ∈ ps_reported (simulate_task m f st).
Proof.
  intros (_ & task & Ht & Hi & Hq & Hl & Ho). unfold simulate_task. cbn in Ht, Hl. rewrite Ht. assert (input ∈ sortedKeys (InputsFrom task)) as Hin by (apply sortedKeys_elem; eauto).
  revert st. induction (sortedKeys (InputsFrom task)) as [|j l IH]; intros st; [by apply not_elem_of_nil in Hin|]. apply elem_of_cons in Hin as [<-|Hin]; [|by apply IH]. cbn.
  apply (foldl_keeps (fun st => report_key (pf_state f) input ∈ ps_reported st)).
  - intros k st' _ H. by apply (grows_reported _ _ (proj1 (simulate_input_grows f (pf_path f ++ [pf_state f]) task st' k))).
  - unfold simulate_input. rewrite Hi. cbn. rewrite Hq, Hl, bool_decide_eq_false_2 by done. case_bool_decide; [done|]. cbn. set_solver.
Qed.

(** ** Soundness *)

Definition reports (f : pathSimulationFrame) (input output : string) (live : gset string) : path_problem :=
  Unresolvable (pf_state f) input output (pf_path f ++ [pf_state f]) (pf_lastTask f) live.
Definition sound (st : simulation) : Prop :=
  (forall p, p ∈ ps_problems st -> exists f i o live, path_to f /\ unresolved (node_of f) i o live /\ p = reports f i o live) /\
  (forall k, k ∈ ps_reported st -> exists f i o live, path_to f /\ k = report_key (pf_state f) i /\ reports f i o live ∈ ps_problems st).

Lemma simulate_task_sound f st : path_to f -> isTerminal (pf_state f) = false -> sound st -> sound (simulate_task m f st).
Proof.
  intros Hf Hterm. unfold simulate_task. destruct (m_tasks m !! pf_state f) as [task|] eqn:Ht; [|done]. apply foldl_keeps. intros i st' Hi [S1 S2]. unfold simulate_input.
  destruct (isQualifiedInputReference m _) eqn:Hq; [done|]. destruct (pf_live f) as [live|] eqn:Hl; [|done]. case_bool_decide as Ho; [done|]. case_bool_decide as Hr; [done|].
  apply sortedKeys_elem in Hi as [o Hi]. rewrite Hi in *. cbn in *. split; cbn.
  - intros p [Hp| ->%list_elem_of_singleton]%elem_of_app; [auto|]. exists f, i, o, live. split_and!; [done| |done]. split; [done|]. exists task. done.
  - intros k [->%elem_of_singleton|Hk]%elem_of_union; [exists f, i, o, live; split_and!; [done|done|]; apply elem_of_app; right; by left|].
    destruct (S2 k Hk) as (f' & i' & o' & live' & H1 & H2 & H3). exists f', i', o', live'. split_and!; [done|done|]. apply elem_of_app; by left.
Qed.
Lemma simulate_sound fuel : forall f st, path_to f -> sound st -> sound (simulate m limit fuel f st).
Proof.
  induction fuel as [|n IH]; intros f st Hf Hs; [done|]. cbn [simulate]. destruct (isTerminal (pf_state f)) eqn:Et; [done|]. case_bool_decide; [done|]. cbn [ps_expansions].
  destruct (limit <? _)%N; [done|]. apply foldl_keeps; [|by apply simulate_task_sound]. intros g st' Hg. apply IH. eapply rtc_r; [exact Hf|]. by split.
Qed.

(** ** Completeness *)

(** Everything at a node is reported and every node after it has been visited. *)
Definition done_at (st : simulation) (n : node) : Prop :=
  (forall input output live, unresolved n input output live -> report_key n.1 input ∈ ps_reported st) /\
  (forall n', n' ∈ next_nodes n -> isTerminal n'.1 = true \/ node_key n' ∈ ps_visited st).
Lemma done_grows st st' n : grows st st' -> done_at st n -> done_at st' n.
Proof. intros [G1 G2 _ _] [D1 D2]. split; [eauto|]. intros n' Hn. destruct (D2 n' Hn); auto. Qed.

(** Names without the separators of the keys that the walk remembers nodes by. *)
Definition plain_machine : Prop :=
  has_char "000" (Start (Spec (Def m))) = false /\ (forall s t, t ∈ Outgoing m s -> has_char "000" t = false) /\
  (forall s t, m_tasks m !! s = Some t -> Forall plain_key (ExpectedOutputs t)).
Lemma produced_plain t : Forall plain_key (ExpectedOutputs t) -> plain_live (taskProducedOutputs t).
Proof.
  intros HF. unfold taskProducedOutputs. rewrite Forall_forall in HF. repeat case_match; [by intros ? [=]| |]; intros keys [= <-] k Hk; [set_solver|]. apply HF. by apply elem_of_list_to_set in Hk.
Qed.
Lemma next_plain n n' : plain_machine -> plain_node n -> n' ∈ next_nodes n -> plain_node n'.
Proof.
  intros (_ & Ho & He) [Hn Hl] (H1 & H2)%next_nodes_out. split; [eauto|]. destruct H2 as [->|[->|(t & Ht & ->)]]; [done|by intros ? [=]|]. apply produced_plain. eauto.
Qed.

(** The walk, unless it stopped at its bound, is done with every node it adds. *)
Record walked (st st' : simulation) : Prop := {
  walked_grows : grows st st';
  walked_bound : (limit < ps_expansions st' -> ps_bounded st' = true)%N;
  walked_done : ps_bounded st' = false -> forall n, plain_node n -> node_key n ∈ ps_visited st' -> node_key n ∈ ps_visited st \/ done_at st' n
}.
Lemma walked_refl st : (limit < ps_expansions st -> ps_bounded st = true)%N -> walked st st.
Proof. intros H. split; [done|done|auto]. Qed.
Lemma walked_trans a b c : walked a b -> walked b c -> walked a c.
Proof.
  intros [A1 A2 A3] [B1 B2 B3]. split; [by etrans|done|]. intros Hb n Hn Hv. destruct (B3 Hb n Hn Hv) as [Hv'|]; [|auto].
  assert (ps_bounded b = false) as Hb' by (destruct (ps_bounded b) eqn:E; [by rewrite (grows_bounded _ _ B1 E) in Hb|done]).
  destruct (A3 Hb' n Hn Hv') as [|D]; [auto|]. right. by eapply done_grows.
Qed.

Lemma simulate_walked fuel : forall f st,
  plain_machine -> plain_node (node_of f) -> (limit < ps_expansions st -> ps_bounded st = true)%N -> (limit + 1 < N.of_nat fuel + ps_expansions st)%N ->
  walked st (simulate m limit fuel f st) /\
  (ps_bounded (simulate m limit fuel f st) = false -> isTerminal (pf_state f) = true \/ frame_key f ∈ ps_visited (simulate m limit fuel f st)).
Proof.
  induction fuel as [|k IH]; intros f st Hm Hf Hb Hfuel.
  { cbn. split; [by apply walked_refl|]. intros H. rewrite Hb in H; [done|lia]. }
  cbn [simulate]. destruct (isTerminal (pf_state f)) eqn:Et; [split; [by apply walked_refl|auto]|]. case_bool_decide as Hv; [split; [by apply walked_refl|auto]|]. cbn [ps_expansions].
  set (st1 := mkSimulation ({[frame_key f]} ∪ ps_visited st) (ps_reported st) (ps_problems st) (ps_expansions st + 1) (ps_bounded st)).
  assert (grows st st1) as G1 by (split; cbn; [set_solver|done|lia|done]).
  destruct (N.ltb_spec limit (ps_expansions st + 1)) as [Hl|Hl].
  { split; [|done]. split; [split; cbn; [set_solver|done|lia|done]|done|done]. }
  destruct (simulate_task_grows f st1) as (G2 & V2 & E2 & B2). set (st2 := simulate_task m f st1) in *.
  assert (forall fs st', grows st2 st' -> (forall g, g ∈ fs -> plain_node (node_of g)) -> (limit < ps_expansions st' -> ps_bounded st' = true)%N ->
    walked st' (foldl (fun st f => simulate m limit k f st) st' fs) /\ (ps_bounded (foldl (fun st f => simulate m limit k f st) st' fs) = false ->
      forall g, g ∈ fs -> isTerminal (pf_state g) = true \/ frame_key g ∈ ps_visited (foldl (fun st f => simulate m limit k f st) st' fs))) as Hfs.
  { induction fs as [|g fs IHfs]; intros st' G Hp Hb'; [split; [by apply walked_refl|by intros _ g ?%not_elem_of_nil]|]. cbn.
    destruct (IH g st') as [W1 C1]; [done|apply Hp; by left|done|pose proof (grows_expansions _ _ G); cbn in E2; lia|].
    destruct (IHfs (simulate m limit k g st')) as [W2 C2]; [etrans; [exact G|apply W1]|intros; apply Hp; by right|apply W1|].
    split; [by eapply walked_trans|]. intros Hbf h [->|Hh]%elem_of_cons; [|auto].
    assert (ps_bounded (simulate m limit k g st') = false) as Hbg by (destruct (ps_bounded (simulate m limit k g st')) eqn:E; [by rewrite (grows_bounded _ _ (walked_grows _ _ W2) E) in Hbf|done]).
    destruct (C1 Hbg) as [|Hk]; [auto|]. right. by apply (grows_visited _ _ (walked_grows _ _ W2)). }
  destruct (Hfs (next_frames m f) st2) as [W C]; [done|intros g Hg; eapply next_plain; [done|exact Hf|by apply next_nodes_elem]|rewrite E2, B2; cbn; lia|].
  set (st3 := foldl (fun st f => simulate m limit k f st) st2 (next_frames m f)) in *.
  assert (frame_key f ∈ ps_visited st3) as Hk3 by (apply (grows_visited _ _ (walked_grows _ _ W)); rewrite V2; cbn; set_solver).
  split; [|auto]. split; [etrans; [exact G1|etrans; [exact G2|apply W]]|apply W|]. intros Hbf n Hn Hvn.
  destruct (walked_done _ _ W Hbf n Hn Hvn) as [H|]; [|auto]. rewrite V2 in H. cbn in H. apply elem_of_union in H as [H%elem_of_singleton|]; [|auto]. right.
  apply (node_key_inj n (node_of f)) in H as ->; [|done|done]. split.
  - intros i o live Hu. apply (grows_reported _ _ (walked_grows _ _ W)). by eapply (simulate_task_reports f).
  - intros n' Hn'. rewrite <- next_frames_nodes in Hn'. apply list_elem_of_fmap in Hn' as (g & -> & Hg). by apply C.
Qed.

Lemma reached_plain f : plain_machine -> path_to f -> plain_node (node_of f).
Proof.
  intros Hm. unfold path_to. intros Hp. pattern f. eapply rtc_ind_r; [|..|exact Hp]; [split; [apply Hm|by intros ? [=]]|].
  intros g h _ [_ Hh] Hg. eapply next_plain; [done|exact Hg|by apply next_nodes_elem].
Qed.
Lemma simulate_all_complete f : plain_machine -> ps_bounded (simulate_all m limit) = false -> path_to f -> isTerminal (pf_state f) = false ->
  done_at (simulate_all m limit) (node_of f).
Proof.
  intros Hm Hb Hp. destruct (simulate_walked (S (S (N.to_nat limit))) (start_frame m) (mkSimulation ∅ ∅ [] 0 false)) as [[_ _ W] C]; [done|by apply reached_plain; [|constructor]|cbn; lia|cbn [ps_expansions]; lia|].
  fold (simulate_all m limit) in *. specialize (W Hb). specialize (C Hb).
  assert (forall g, path_to g -> isTerminal (pf_state g) = false -> frame_key g ∈ ps_visited (simulate_all m limit) -> done_at (simulate_all m limit) (node_of g)) as HD.
  { intros g Hg Ht Hv. destruct (W (node_of g)) as [H|]; [by apply reached_plain|done| |done]. set_solver. }
  intros Ht. apply HD; [done|done|]. revert Ht. pattern f. eapply rtc_ind_r; [|..|exact Hp]; [intros Ht; destruct C; [congruence|done]|].
  intros g h Hg [Htg Hh] IH Hth. destruct (proj2 (HD g Hg Htg (IH Htg)) (node_of h)) as [H|H]; [by apply next_nodes_elem|cbn in H; congruence|done].
Qed.
End simulation.

(** ** Exactness *)

Lemma path_simulation_sound m limit task input output path last live : Unresolvable task input output path last live ∈ pathSimulationProblems_with m limit ->
  exists f, path_to m f /\ pf_state f = task /\ unresolved m (node_of f) input output live /\ path = pf_path f ++ [task] /\ last = pf_lastTask f.
Proof.
  unfold pathSimulationProblems_with. set (st := simulate_all m limit). assert (sound m st) as [S1 _] by (apply simulate_sound; [constructor|split; set_solver]).
  intros [H|H]%elem_of_app; [|destruct (ps_bounded st); [by apply list_elem_of_singleton in H|by apply not_elem_of_nil in H]].
  destruct (S1 _ H) as (f & i & o & l & Hp & Hu & [= -> -> -> -> -> ->]). by exists f.
Qed.
Lemma path_simulation_complete m limit f input output live :
  plain_machine m -> PathsBounded limit ∉ pathSimulationProblems_with m limit -> path_to m f -> unresolved m (node_of f) input output live ->
  exists path last live', Unresolvable (pf_state f) input output path last live' ∈ pathSimulationProblems_with m limit.
Proof.
  intros Hm Hb Hp Hu. unfold pathSimulationProblems_with in *. set (st := simulate_all m limit) in *. assert (sound m st) as [S1 S2] by (apply simulate_sound; [constructor|split; set_solver]).
  assert (ps_bounded st = false) as Hb' by (destruct (ps_bounded st); [destruct Hb; apply elem_of_app; right; by left|done]).
  destruct (simulate_all_complete m limit f Hm Hb' Hp (proj1 Hu)) as [D _]. destruct (S2 _ (D _ _ _ Hu)) as (f' & i' & o' & l' & Hp' & Hk & Hin).
  apply report_key_inj in Hk as [E <-]; [|by apply (reached_plain m f Hm)|by apply (reached_plain m f' Hm)]. destruct (S1 _ Hin) as (f2 & i2 & o2 & l2 & _ & Hu2 & [= E2 <- <- _ _ <-]).
  assert (o' = output) as ->.
  { destruct Hu as (_ & t & Ht & Hi & _), Hu2 as (_ & t2 & Ht2 & Hi2 & _). cbn in Ht, Ht2, E. rewrite <- E2, <- E, Ht in Ht2. congruence. }
  do 3 eexists. apply elem_of_app. left. unfold reports in Hin. rewrite <- E in Hin. exact Hin.
Qed.

(** C23: In a machine whose state names contain no NUL and whose declared output keys
    are not empty, not a lone question mark and contain no comma ([plain_machine]), the
    simulation, unless it reports that it stopped at its bound, reports an input of a
    task exactly if some path through the workflow (gate outcome by gate outcome,
    through tasks and into branches, loops included) leads to the task with a task
    before it whose outputs are known and lack the key.  Every report, bound or not,
    carries such a path and the name of that task.  The condition is needed: the keys
    under which visited states are remembered join names with these characters, and
    an output key with a comma hides a path
    ([StageContractProps.StageExample.comma_hides_a_path]). *)
Theorem path_simulation_is_exact m limit :
  plain_machine m ->
  (PathsBounded limit ∉ pathSimulationProblems_with m limit -> forall task input output,
     (exists path last live, Unresolvable task input output path last live ∈ pathSimulationProblems_with m limit) <->
     (exists f live, path_to m f /\ pf_state f = task /\ unresolved m (node_of f) input output live)) /\
  (forall task input output path last live, Unresolvable task input output path last live ∈ pathSimulationProblems_with m limit ->
     exists f, path_to m f /\ pf_state f = task /\ unresolved m (node_of f) input output live /\ path = pf_path f ++ [task] /\ last = pf_lastTask f).
Proof.
  intros Hm. split; [|apply path_simulation_sound]. intros Hb task input output. split.
  - intros (path & last & live & (f & ? & ? & ? & _)%path_simulation_sound). eauto.
  - intros (f & live & Hp & <- & Hu). by eapply path_simulation_complete.
Qed.

(** ** The bound *)

Section bound.
Context (def : Definition_) (limit : N).
Let m := newMachine def.

(** Every transition ends the run or the branch or leads to a declared state. *)
Definition transitions_resolve : Prop :=
  forall t, t = Start (Spec def) \/ (exists s, t ∈ Outgoing m s) -> isTerminal t = true \/ t ∈ TargetJoin :: stateNames def.
Definition all_nodes : list node := list_prod (TargetJoin :: stateNames def) (None :: map taskProducedOutputs (Tasks (Spec def))).

Lemma reached_within f : transitions_resolve -> path_to m f -> isTerminal (pf_state f) = false -> node_of f ∈ all_nodes.
Proof.
  intros Hr Hp. assert (pf_live f ∈ None :: map taskProducedOutputs (Tasks (Spec def)) /\ (pf_state f = Start (Spec def) \/ exists s, pf_state f ∈ Outgoing m s)) as [Hl Hs].
  { pattern f. eapply rtc_ind_r; [|..|exact Hp]; [split; [by left|by left]|]. intros g h _ [_ Hh] [Hl _]. apply next_nodes_elem, next_nodes_out in Hh as [Ho H]. split; [|right; by exists (pf_state g)]. cbn in H.
    destruct H as [->|[->|(t & Ht & ->)]]; [done|by left|]. right. apply list_elem_of_fmap. exists t. split; [done|]. by apply index_Some in Ht as [? _]. }
  intros Ht. unfold all_nodes, node_of. apply list_elem_of_In, in_prod_iff. rewrite <- !list_elem_of_In. split; [|done]. destruct (Hr _ Hs); [congruence|done].
Qed.

Definition counted (st : simulation) : Prop :=
  ps_expansions st = N.of_nat (size (ps_visited st)) /\ ps_visited st ⊆ list_to_set (map node_key all_nodes) /\ ps_bounded st = false.
Lemma simulate_counted fuel : forall f st, transitions_resolve -> (N.of_nat (length all_nodes) <= limit)%N -> path_to m f -> counted st -> counted (simulate m limit fuel f st).
Proof.
  induction fuel as [|k IH]; intros f st Hr Hsmall Hp (C1 & C2 & C3); [done|]. cbn [simulate]. destruct (isTerminal (pf_state f)) eqn:Et; [done|]. case_bool_decide as Hv; [done|]. cbn [ps_expansions].
  set (st1 := mkSimulation ({[frame_key f]} ∪ ps_visited st) (ps_reported st) (ps_problems st) (ps_expansions st + 1) (ps_bounded st)). assert (counted st1) as (E1 & V1 & B1).
  { split; [cbn; rewrite size_union, size_singleton by set_solver; lia|]. split; [|exact C3]. cbn [st1 ps_visited]. apply union_subseteq. split; [|done]. apply singleton_subseteq_l, elem_of_list_to_set.
    apply (list_elem_of_fmap_2 node_key _ (node_of f)). by apply reached_within. }
  assert (ps_expansions st + 1 <= limit)%N.
  { change (ps_expansions st1 <= limit)%N. rewrite E1. apply subseteq_size in V1. pose proof (size_list_to_set_le (map node_key all_nodes)) as Hs. rewrite length_map in Hs. lia. }
  destruct (N.ltb_spec limit (ps_expansions st + 1)); [lia|]. apply (foldl_keeps counted).
  - intros g st' Hg. apply IH; [done|done|]. eapply rtc_r; [exact Hp|]. by split.
  - destruct (simulate_task_grows m f st1) as (_ & V & E & B). unfold counted. by rewrite V, E, B.
Qed.

(** The simulation is total and covers every workflow whose states times tasks
    stay below its bound: with every transition resolved it then never reports that
    it stopped, however gates loop back. *)
Theorem simulation_covers_small_workflows :
  transitions_resolve -> (N.of_nat (S (length (stateNames def)) * S (length (Tasks (Spec def)))) <= limit)%N ->
  PathsBounded limit ∉ pathSimulationProblems_with m limit.
Proof.
  intros Hr Hs. assert (counted (simulate_all m limit)) as (_ & _ & B).
  { apply simulate_counted; [done| |constructor|split_and!; [done|set_solver|done]]. assert (length all_nodes = S (length (stateNames def)) * S (length (map taskProducedOutputs (Tasks (Spec def)))))%nat as -> by apply length_prod. by rewrite length_map. }
  unfold pathSimulationProblems_with. rewrite B, app_nil_r. intros H. destruct (simulate_sound m limit (S (S (N.to_nat limit))) (start_frame m) (mkSimulation ∅ ∅ [] 0 false)) as [S1 _]; [constructor|split; set_solver|].
  destruct (S1 _ H) as (f & i & o & l & _ & _ & [=]).
Qed.
End bound.

(** ** Checking the side conditions *)

Definition plain_keyb (k : string) : bool := negb (k =? "") && negb (k =? "?") && negb (has_char "," k).
Definition plain_definition (def : Definition_) : bool :=
  let m := newMachine def in
  negb (has_char "000" (Start (Spec def))) && forallb (fun s => forallb (fun t => negb (has_char "000" t)) (Outgoing m s)) (stateNames def)
  && forallb (fun t => forallb plain_keyb (ExpectedOutputs t)) (Tasks (Spec def)).
Lemma outgoing_check def (P : string -> bool) s t : forallb (fun s => forallb P (Outgoing (newMachine def) s)) (stateNames def) = true -> t ∈ Outgoing (newMachine def) s -> P t = true.
Proof.
  rewrite forallb_forall. intros H Ht. assert (s ∈ stateNames def) as Hs. { apply Outgoing_declared. intros E. rewrite E in Ht. by apply not_elem_of_nil in Ht. }
  apply list_elem_of_In in Hs, Ht. specialize (H s Hs). rewrite forallb_forall in H. auto.
Qed.
Lemma plain_definition_plain def : plain_definition def = true -> plain_machine (newMachine def).
Proof.
  unfold plain_definition. rewrite !andb_true_iff, negb_true_iff. intros [[H1 H2] H3]. split_and!; [done| |].
  - intros s t Ht. apply negb_true_iff. by eapply (outgoing_check def (fun t => negb (has_char "000" t))).
  - intros s t [Ht _]%index_Some. rewrite forallb_forall in H3. specialize (H3 t ltac:(by apply list_elem_of_In)). rewrite forallb_forall in H3. apply Forall_forall. intros k Hk%list_elem_of_In.
    specialize (H3 k Hk). unfold plain_keyb in H3. rewrite !andb_true_iff, !negb_true_iff, !String.eqb_neq in H3. unfold plain_key. tauto.
Qed.
Definition resolved_target (def : Definition_) (t : string) : bool := isTerminal t || mem_string t (TargetJoin :: stateNames def).
Lemma resolved_transitions def : resolved_target def (Start (Spec def)) && forallb (fun s => forallb (resolved_target def) (Outgoing (newMachine def) s)) (stateNames def) = true ->
  transitions_resolve def.
Proof.
  intros [H1 H2]%andb_true_iff t Ht. assert (resolved_target def t = true) as H; [|unfold resolved_target in H; apply orb_true_iff in H; by rewrite mem_string_true in H].
  destruct Ht as [->|[s Hs]]; [done|]. by eapply outgoing_check.
Qed.
