(* ===== verification/StageContractProps.v ===== *)
(** * Inputs of accepted workflows resolve

    The compiler's checks of references composed with their resolution at run time:
    on every run whose stages succeed, what a task reads from a stage that declares
    its outputs is there. *)

From S2P Require Export PathSimulationProps.
Local Open Scope string_scope.
Local Open Scope list_scope.

(** ** Paths *)

Lemma precedes_spec def producer consumer : precedesOnEveryPath (newMachine def) producer consumer = true <->
  ~ reaches (precedes_enter (newMachine def) producer) (Outgoing (newMachine def)) [Start (Spec def)] consumer.
Proof.
  unfold precedesOnEveryPath. cbn [Def newMachine]. destruct (String.eqb_spec (Start (Spec def)) producer) as [<-|Hne].
  - split; [|done]. intros _ H. induction H as [s ->%list_elem_of_singleton He|s t _ IH _ _]; [|done]. unfold precedes_enter in He. by rewrite String.eqb_refl in He.
  - rewrite negb_true_iff, mem_string_false. apply not_iff_compat.
    apply walk_all_spec; [intros s; apply Outgoing_declared|apply push_stack_elem|apply push_stack_length].
Qed.

Section runs.
Context {Quo : Quoting} (def : Definition_).
Let m := newMachine def.

(** A run at a state: the task before it, if that is known, its result, and what the
    completed stages recorded. *)
Record config := mkConfig {
  c_state : string; c_upstream : option Task; c_result : ResultEnvelope; c_completed : stageOutputs
}.
Definition emits (t : Task) (outputs : gmap string Any) : Prop := forall k, k ∈ ExpectedOutputs t -> is_Some (outputs !! k).
(** What a fan-in may hand on: outputs of declared tasks that emitted what they declare. *)
Definition honest (completed : stageOutputs) : Prop :=
  forall s o, completed !! s = Some o -> exists t, m_tasks m !! s = Some t /\ emits t (so_Outputs o).

(** One step of a run whose stages succeed on their own.  A gate takes any of its
    branches; a branch starts with what its parallel was given; the join and the
    failure target run after other tasks, whose outputs they may add. *)
Inductive advances (c : config) : config -> Prop :=
| advance_task t raw grade :
    m_tasks m !! c_state c = Some t -> re_Status (EnforceExpectedOutputs (DSLVersion def) t raw) = ResultSuccess -> runnerSynthesizedSuccess raw = false ->
    advances c (mkConfig (Next t) (Some t) (EnforceExpectedOutputs (DSLVersion def) t raw)
                  (RecordCompleted (c_completed c) t (EnforceExpectedOutputs (DSLVersion def) t raw) grade))
| advance_gate g outcome target :
    m_tasks m !! c_state c = None -> m_gates m !! c_state c = Some g -> gate_Branches g !! outcome = Some target ->
    advances c (mkConfig target (c_upstream c) (c_result c) (c_completed c))
| advance_branch p b :
    m_tasks m !! c_state c = None -> m_gates m !! c_state c = None -> m_parallels m !! c_state c = Some p -> b ∈ par_Branches p ->
    advances c (mkConfig (branch_Start b) (c_upstream c) (c_result c) (c_completed c))
| advance_join p target result completed :
    m_tasks m !! c_state c = None -> m_gates m !! c_state c = None -> m_parallels m !! c_state c = Some p ->
    target = par_Join p \/ target = OnFailure p /\ OnFailure p <> "" ->
    honest completed -> dom (c_completed c) ⊆ dom completed ->
    advances c (mkConfig target None result completed).
Definition goes (c c' : config) : Prop := isTerminal (c_state c) = false /\ advances c c'.
Definition runs_to (c : config) : Prop := exists result, rtc goes (mkConfig (Start (Spec def)) None result ∅) c.

(** ** What a run keeps *)

Definition live_of (upstream : option Task) : option (gset string) := match upstream with Some t => taskProducedOutputs t | None => None end.

(** A run takes a path of the simulation. *)
Lemma advance_path c c' last path : goes c c' ->
  exists g, path_step m (mkFrame (c_state c) (live_of (c_upstream c)) last path) g /\ node_of g = (c_state c', live_of (c_upstream c')).
Proof.
  intros [Ht Ha]. assert (forall g, g ∈ next_frames m (mkFrame (c_state c) (live_of (c_upstream c)) last path) -> path_step m (mkFrame (c_state c) (live_of (c_upstream c)) last path) g) as Hs by done.
  destruct Ha as [t raw grade H1 H2 _|g outcome target H1 H2 H3|p b H1 H2 H3 H4|p target result completed H1 H2 H3 H4 _ _].
  - eexists; split; [apply Hs; unfold next_frames; cbn [pf_state]; rewrite H1; by left|]. done.
  - eexists; split; [apply Hs; unfold next_frames; cbn [pf_state]; rewrite H1, H2; unfold gate_frames; cbn; apply list_elem_of_fmap; exists outcome; split; [reflexivity|]; apply sortedKeys_elem; eauto|].
    cbn. by rewrite H3.
  - eexists; split; [apply Hs; unfold next_frames; cbn [pf_state]; rewrite H1, H2, H3; unfold parallel_frames; cbn; apply elem_of_app; left; apply list_elem_of_fmap; exists b; split; [reflexivity|done]|]. done.
  - destruct H4 as [->|[-> Ho]].
    + eexists; split; [apply Hs; unfold next_frames; cbn [pf_state]; rewrite H1, H2, H3; unfold parallel_frames; cbn; apply elem_of_app; right; by left|]. done.
    + eexists; split; [apply Hs; unfold next_frames; cbn [pf_state]; rewrite H1, H2, H3; unfold parallel_frames; cbn; apply elem_of_app; right; right; rewrite (proj2 (String.eqb_neq _ _) Ho); by left|]. done.
Qed.

Definition enforced : Prop := exists order, CompareDSLVersions (DSLVersion def) V31DSLVersion = Some order /\ (0 <= order)%Z.
Lemma enforced_emits t raw : enforced -> re_Status (EnforceExpectedOutputs (DSLVersion def) t raw) = ResultSuccess -> runnerSynthesizedSuccess raw = false ->
  emits t (re_Outputs (EnforceExpectedOutputs (DSLVersion def) t raw)).
Proof.
  intros (order & Hv & Ho) Hs Hr k Hk. revert Hs. unfold EnforceExpectedOutputs, EnforcesExpectedOutputs. rewrite Hr, Hv.
  destruct (ExpectedOutputs t) as [|x l] eqn:El; [by apply not_elem_of_nil in Hk|]. cbn [length Nat.eqb]. destruct (Z.leb_spec 0 order); [|lia]. cbn [negb orb]. rewrite !orb_false_r.
  destruct (String.eqb_spec (re_Status raw) ResultSuccess) as [Es|Es]; cbn [negb].
  - destruct (List.filter _ _) as [|y ys] eqn:Ef; [|by intros [=]]. intros _. destruct (re_Outputs raw !! k) as [v|] eqn:E; [eauto|].
    assert (k ∈ List.filter (fun key => negb (bool_decide (is_Some (re_Outputs raw !! key)))) (x :: l)) as Hin; [|rewrite Ef in Hin; by apply not_elem_of_nil in Hin].
    apply list_elem_of_In, filter_In. split; [by apply list_elem_of_In|]. rewrite E. done.
  - done.
Qed.

(** A state that is reached before a task has run is reached without it. *)
Definition before (p s : string) : Prop :=
  s = Start (Spec def) \/ exists u, reaches (precedes_enter m p) (Outgoing m) [Start (Spec def)] u /\ s ∈ Outgoing m u.
Lemma before_enters p s : before p s -> precedes_enter m p s = true -> reaches (precedes_enter m p) (Outgoing m) [Start (Spec def)] s.
Proof. intros [->|(u & Hu & Hs)] He; [apply reaches_root; [by left|done]|by eapply reaches_step]. Qed.

Record kept (c : config) : Prop := {
  kept_honest : honest (c_completed c);
  kept_upstream u : c_upstream c = Some u -> emits u (re_Outputs (c_result c));
  kept_path : exists f, path_to m f /\ node_of f = (c_state c, live_of (c_upstream c));
  kept_before p : is_Some (m_tasks m !! p) -> p ∈ dom (c_completed c) \/ before p (c_state c)
}.

Lemma advance_has c c' : goes c c' -> Has m (c_state c) = true /\ c_state c' ∈ Outgoing m (c_state c).
Proof.
  intros [_ Ha]. unfold Has, Outgoing.
  destruct Ha as [t raw grade H1 _ _|g outcome target H1 H2 H3|p b H1 H2 H3 H4|p target result completed H1 H2 H3 H4 _ _]; cbn [c_state].
  - rewrite H1. split; [by rewrite bool_decide_eq_true_2 by eauto|by left].
  - rewrite H1, H2. split; [by rewrite (bool_decide_eq_true_2 (is_Some (Some g))) by eauto; rewrite orb_true_r|]. unfold gate_targets.
    apply list_elem_of_fmap. exists outcome. rewrite H3. split; [done|]. apply sortedKeys_elem; eauto.
  - rewrite H1, H2, H3. split; [by rewrite (bool_decide_eq_true_2 (is_Some (Some p))) by eauto; rewrite orb_true_r|]. unfold parallel_targets. rewrite !elem_of_app. left. by apply list_elem_of_fmap_2.
  - rewrite H1, H2, H3. split; [by rewrite (bool_decide_eq_true_2 (is_Some (Some p))) by eauto; rewrite orb_true_r|]. unfold parallel_targets. rewrite !elem_of_app. right. destruct H4 as [->|[-> Ho]]; [left; by left|].
    right. rewrite (proj2 (String.eqb_neq _ _) Ho). by left.
Qed.
Lemma advance_completed c c' : enforced -> honest (c_completed c) -> goes c c' ->
  honest (c_completed c') /\ dom (c_completed c) ⊆ dom (c_completed c') /\ (is_Some (m_tasks m !! c_state c) -> c_state c ∈ dom (c_completed c')).
Proof.
  intros Hv Hh [Ht Ha]. destruct Ha as [t raw grade H1 H2 H3|g outcome target H1 H2 H3|p b H1 H2 H3 H4|p target result completed H1 H2 H3 H4 H5 H6]; cbn [c_completed c_state];
    [|rewrite H1; split_and!; [done|done|by intros []]|rewrite H1; split_and!; [done|done|by intros []]|rewrite H1; split_and!; [done|done|by intros []]].
  pose proof H1 as [_ Hname]%index_Some. unfold RecordCompleted, RecordOutputs. rewrite H2. change (ResultSuccess =? ResultFailure) with false. cbn [andb]. rewrite Hname.
  assert (c_state c <> "") as Hne by (intros E; rewrite E in Ht; done). rewrite (proj2 (String.eqb_neq _ _) Hne). split_and!; [|apply (dom_insert_subseteq (M := gmap string))|intros _; eapply elem_of_dom_2; by apply (lookup_insert_eq (M := gmap string))].
  intros s o [[<- <-]|[Hs Ho]]%lookup_insert_Some; [exists t; split; [done|]; by apply enforced_emits|by apply Hh].
Qed.
Lemma run_kept c : enforced -> runs_to c -> kept c.
Proof.
  intros Hv [result Hr]. pattern c. eapply rtc_ind_r; [|..|exact Hr].
  { split; cbn; [by intros s o ?%lookup_empty_Some| done|exists (start_frame m); split; [constructor|done]|intros p _; right; by left]. }
  intros a b _ Hg [K1 K2 (f & K3 & Kf) K4]. destruct (advance_completed a b Hv K1 Hg) as (H1 & H2 & H3). destruct (advance_has a b Hg) as [Hhas Hout]. split; [done| | |].
  - destruct Hg as [_ Ha]. intros u. destruct Ha as [t raw grade E1 E2 E3| | |]; cbn; [intros [= <-]; by apply enforced_emits|auto|auto|done].
  - destruct f as [fs fl last path]. injection Kf as -> ->. destruct (advance_path a b last path Hg) as (g & Hs & Hn). exists g. split; [|done]. by eapply rtc_r.
  - intros p Hp. destruct (K4 p Hp) as [|Hb]; [left; set_solver|]. destruct (decide (c_state a = p)) as [<-|Hne]; [left; auto|]. right. right. exists (c_state a). split; [|done].
    apply before_enters; [done|]. destruct Hg as [Ht _]. unfold precedes_enter. rewrite Hhas, (proj2 (String.eqb_neq _ _) Hne), Ht. destruct (String.eqb_spec (c_state a) "") as [E|]; [by rewrite E in Ht|done].
Qed.

(** ** Accepted references *)

(** The stage a reference that names no branch reads from. *)
Definition source (c : config) (value : string) : option Task :=
  match splitQualifiedRef value with
  | Some (stage, _) => if is_task m stage then m_tasks m !! stage else c_upstream c
  | None => c_upstream c
  end.
Definition branch_reference (value : string) : bool :=
  match splitBranchInputReference value with Some ref => is_parallel m (ref_parallel ref) | None => false end.

Lemma accepted_reference t input value : structuralProblems m = [] -> CheckStageContracts def = [] ->
  m_tasks m !! task_Name t = Some t -> InputsFrom t !! input = Some value -> reference_problems m (task_Name t) input value = [].
Proof.
  intros Hs Hc Ht Hi. unfold CheckStageContracts in Hc. fold m in Hc. rewrite Hs in Hc. apply app_nil in Hc as [_ Hc]. unfold unsatisfiableInputsFromProblems in Hc. rewrite WorkflowProps.concat_nil in Hc.
  assert (task_Name t ∈ sortedTaskNames m) as Hin by (unfold sortedTaskNames, sort_strings; rewrite sort_by_elem; apply index_dom; eauto).
  specialize (Hc _ Hin). unfold task_reference_problems in Hc. rewrite Ht, WorkflowProps.concat_nil in Hc. specialize (Hc input). rewrite Hi in Hc. apply Hc, sortedKeys_elem. eauto.
Qed.
Lemma declares_other_false t key : declares_other t key = false -> ExpectedOutputs t = [] \/ key ∈ ExpectedOutputs t.
Proof.
  unfold declares_other. destruct (ExpectedOutputs t) as [|x l]; [auto|]. cbn [length Nat.ltb Nat.leb andb]. rewrite negb_false_iff, mem_string_true. auto.
Qed.
Lemma produced_declared t live key : taskProducedOutputs t = Some live -> key ∈ live -> key ∈ ExpectedOutputs t.
Proof. unfold taskProducedOutputs. repeat case_match; intros [= <-]; [set_solver|]. by rewrite elem_of_list_to_set. Qed.

(** C13: In a workflow of DSL 3.1 or later that the compiler accepts, what a task reads
    is there.  On every run without maps whose stages succeed, wherever gates and
    branches lead it and however often it loops, each reference of the task it is at
    resolves, unless the stage it reads from declares no outputs or the task comes
    first or right after a fan-in: bare keys by the simulation of paths, keys of named
    stages because those stages lie on every path.  From 3.1 on a stage that succeeds
    has produced what it declares ([enforced]; before, [expectedOutputs] is advisory);
    a success that the runner itself synthesized is exempt from that, and no such
    result is among those of the run.  State names contain no NUL, and declared output
    keys are not empty, not a lone question mark and contain no comma
    ([plain_machine]), for which the compiler does not ask:
    [StageExample.comma_hides_a_path]. *)
Theorem accepted_inputs_resolve c t input value :
  structuralProblems m = [] -> CheckStageContracts def = [] -> CheckPathSimulation def = [] -> plain_machine m -> enforced ->
  runs_to c -> isTerminal (c_state c) = false -> m_tasks m !! c_state c = Some t -> InputsFrom t !! input = Some value -> branch_reference value = false ->
  is_Some (resolveInputsFrom value (c_result c) (c_completed c) true) \/ match source c value with Some u => ExpectedOutputs u = [] | None => True end.
Proof.
  intros Hs Hc Hp Hm Hv Hr Hterm Ht Hi Hb. destruct (run_kept c Hv Hr) as [K1 K2 (f & K3 & Kf) K4]. pose proof Ht as [_ Hname]%index_Some.
  unfold source, resolveInputsFrom, qualified_stage, splitQualified. fold (splitQualifiedRef value).
  assert (forall stage key, splitQualifiedRef value = Some (stage, key) -> is_task m stage = true -> exists producer o, m_tasks m !! stage = Some producer /\
    c_completed c !! stage = Some o /\ (is_Some (so_Outputs o !! key) \/ ExpectedOutputs producer = [])) as Hqual.
  { intros stage key Hq Hstage. pose proof (accepted_reference t input value Hs Hc) as Ha. rewrite Hname in Ha. specialize (Ha Ht Hi). unfold reference_problems in Ha.
    unfold branch_reference in Hb. rewrite Hb, Hq, Hstage in Ha. unfold qualifiedRefProblems in Ha. destruct (String.eqb_spec stage (c_state c)) as [|Hne]; [done|]. apply app_nil in Ha as [Ha1 Ha2].
    destruct (precedesOnEveryPath m stage (c_state c)) eqn:Hpre; [|done]. apply bool_decide_eq_true in Hstage as Hsome. destruct Hsome as [producer Hprod]. rewrite Hprod in Ha2.
    destruct (declares_other producer key) eqn:Hd; [done|]. destruct (K4 stage) as [[o Ho]%elem_of_dom|Hbefore]; [eauto| |].
    - exists producer, o. split_and!; [done|done|]. destruct (declares_other_false _ _ Hd) as [|Hk]; [auto|]. left. destruct (K1 _ _ Ho) as (t' & Ht' & He). rewrite Hprod in Ht'. injection Ht' as <-. auto.
    - apply precedes_spec in Hpre. destruct Hpre. apply (before_enters stage); [done|]. unfold precedes_enter. rewrite Hterm, (proj2 (String.eqb_neq _ _)) by done.
      destruct (String.eqb_spec (c_state c) "") as [E|_]; [by rewrite E in Hterm|]. unfold Has. fold m. by rewrite Ht. }
  assert (match splitQualifiedRef value with Some (stage, _) => is_task m stage | None => false end = false ->
    is_Some (re_Outputs (c_result c) !! value) \/ match c_upstream c with Some u => ExpectedOutputs u = [] | None => True end) as Hbare.
  { intros Hq. destruct (c_upstream c) as [u|] eqn:Eu; [|auto]. cbn [live_of] in Kf. destruct (taskProducedOutputs u) as [live|] eqn:El.
    - left. apply (K2 u eq_refl). apply (produced_declared _ _ _ El). destruct (decide (value ∈ live)) as [|Hnot]; [done|]. exfalso.
      unfold CheckPathSimulation in Hp. fold m in Hp. rewrite Hs in Hp. unfold pathSimulationProblems in Hp.
      destruct (path_simulation_complete m maxPathSimulationExpansions f input value live Hm) as (path & last & live' & Hin); [by rewrite Hp; apply not_elem_of_nil|done| |by rewrite Hp in Hin; apply not_elem_of_nil in Hin].
      rewrite Kf. split; [done|]. exists t. split_and!; [done|done| |done|done]. unfold isQualifiedInputReference. unfold branch_reference in Hb. by rewrite Hb, Hq.
    - right. unfold taskProducedOutputs in El. destruct (ExpectedOutputs u); [done|]. cbn in El. by destruct (_ && _). }
  destruct (splitQualifiedRef value) as [[stage key]|] eqn:Hq; [|by apply Hbare]. destruct (is_task m stage) eqn:Hstage.
  - destruct (Hqual stage key eq_refl Hstage) as (producer & o & H1 & H2 & H3). rewrite H2, H1. done.
  - destruct (c_completed c !! stage) as [o|] eqn:Eo; [|by apply Hbare]. destruct (K1 _ _ Eo) as (t' & Ht' & _). unfold is_task in Hstage. apply bool_decide_eq_false in Hstage. destruct Hstage. eauto.
Qed.
End runs.

(** ** Branch references *)

Section branches.
Context (def : Definition_).
Let m := newMachine def.

(** A run of a branch from its start, with the states it has left behind. *)
Inductive branch_run (start : string) : string -> list string -> Prop :=
| branch_start : branch_run start start []
| branch_step s t vs : branch_run start s vs -> in_body m s = true -> t ∈ Outgoing m s -> branch_run start t (s :: vs).

Lemma branch_run_avoids start producer s vs : branch_run start s vs -> producer ∉ vs -> join_enter m producer s = true ->
  reaches (join_enter m producer) (Outgoing m) [start] s.
Proof.
  induction 1 as [|s t vs Hr IH Hs Ht]; intros Hp He; [apply reaches_root; [by left|done]|]. apply not_elem_of_cons in Hp as [Hne Hp].
  eapply reaches_step; [|exact Ht|done]. apply IH; [done|]. unfold join_enter. rewrite (proj2 (String.eqb_neq _ _)) by done. unfold in_body in Hs. cbn in *. rewrite Hs. apply orb_true_r.
Qed.
Lemma branch_run_start start s vs : branch_run start s vs -> s <> start -> start ∈ vs.
Proof. induction 1 as [|s t vs Hr IH Hs Ht]; intros Hne; [done|]. destruct (decide (s = start)) as [->|]; [by left|]. right. auto. Qed.
Lemma in_body_join s : in_body m s = true -> s <> TargetJoin.
Proof. intros H ->. done. Qed.

Lemma precedes_branch_join start producer vs : in_body m producer = true -> precedesBranchJoinOnEveryPath m start producer = true ->
  branch_run start TargetJoin vs -> producer ∈ vs.
Proof.
  intros Hb Hp Hr. pose proof (in_body_join _ Hb) as Hne. unfold precedesBranchJoinOnEveryPath in Hp. destruct (String.eqb_spec start producer) as [->|Hsp]; [by eapply branch_run_start|].
  apply negb_true_iff, mem_string_false in Hp. destruct (decide (producer ∈ vs)) as [|Hno]; [done|]. destruct Hp.
  apply walk_all_spec; [intros s; apply Outgoing_declared|apply push_stack_elem|apply push_stack_length|]. eapply branch_run_avoids; [exact Hr|done|].
  unfold join_enter. by rewrite (proj2 (String.eqb_neq TargetJoin producer)) by done.
Qed.

Lemma single_terminal start terminal t : joinTerminalStates m start = [terminal] -> m_tasks m !! terminal = Some t -> singleJoinTerminalTask m start = terminal.
Proof.
  intros Hj Ht. unfold singleJoinTerminalTask.
  destruct (walk_all_spec (in_body m) (Outgoing m) push_stack (stateNames (Def m)) ltac:(intros s; apply Outgoing_declared) push_stack_elem push_stack_length [start]) as [Hnd Hw].
  assert (forall s, s ∈ joinTerminalStates m start <-> s ∈ walk_all (in_body m) (Outgoing m) push_stack (stateNames (Def m)) [start] /\ TargetJoin ∈ Outgoing m s) as Hjt.
  { intros s. unfold joinTerminalStates, branchBody, sort_strings. rewrite sort_by_elem, list_elem_of_In, filter_In, <- list_elem_of_In, sort_by_elem, mem_string_true. done. }
  set (l := walk_all (in_body m) (Outgoing m) push_stack (stateNames (Def m)) [start]) in *. set (P := fun s => match m_tasks m !! s with Some t => Next t =? TargetJoin | None => false end).
  assert (forall s, s ∈ List.filter P l <-> s = terminal) as Hf.
  { intros s. rewrite list_elem_of_In, filter_In, <- list_elem_of_In. rewrite Hj in Hjt. unfold P. split.
    - intros [Hs Hp]. apply list_elem_of_singleton, Hjt. split; [done|]. unfold Outgoing. destruct (m_tasks m !! s) as [t'|]; [|done]. apply String.eqb_eq in Hp as ->. by left.
    - intros ->. destruct (proj1 (Hjt terminal)) as [Hl Ho]; [by left|]. split; [done|]. rewrite Ht. unfold Outgoing in Ho. rewrite Ht in Ho. apply list_elem_of_singleton in Ho as <-. by apply String.eqb_refl. }
  assert (NoDup (List.filter P l)) as Hnf by (apply NoDup_ListNoDup, List.NoDup_filter, NoDup_ListNoDup, Hnd).
  destruct (List.filter P l) as [|x [|y r]]; [exfalso; by apply (not_elem_of_nil terminal), Hf|by apply Hf; left|].
  assert (x = y) as -> by (etrans; [|symmetry]; apply Hf; [by left|by right; left]). apply NoDup_cons in Hnf as [Hn _]. destruct Hn. by left.
Qed.

Lemma split_branch_parts value ref : splitBranchInputReference value = Some ref ->
  ref_parallel ref <> "" /\ (if ref_shorthand ref then ref_stage ref = "" else ref_stage ref <> "").
Proof.
  unfold splitBranchInputReference. destruct (SplitN "." 4 value) as [|a [|b [|c [|d [|]]]]]; try done.
  - destruct (_ || _) eqn:E; [done|]. intros [= <-]. cbn. rewrite !orb_false_iff, !String.eqb_neq in E. tauto.
  - destruct (_ || _) eqn:E; [done|]. intros [= <-]. cbn. rewrite !orb_false_iff, !String.eqb_neq in E. tauto.
Qed.

(** C29: A reference to a branch that the compiler accepts resolves at the join: if
    the branch ran from its start to [@join] and every task it ran recorded what it
    declares, then the stage the reference names, or the only task before the join if
    it names none, has run, and the key is found there unless it declares no outputs. *)
Theorem accepted_branch_inputs_resolve t input value ref p src b vs :
  branchInputsFromProblems m = [] -> t ∈ Tasks (Spec def) -> InputsFrom t !! input = Some value ->
  splitBranchInputReference value = Some ref -> is_task m (ref_parallel ref) = false -> is_parallel m (ref_parallel ref) = true ->
  join_of m !! task_Name t = Some p ->
  forall branches, branches !! ref_branch ref = Some src -> mem_string (bs_Status src) without_outputs = false ->
  find (fun b => branch_Name b =? ref_branch ref) (par_Branches p) = Some b -> bs_Start src = branch_Start b ->
  branch_run (branch_Start b) TargetJoin vs ->
  (forall s u, s ∈ vs -> m_tasks m !! s = Some u -> exists o, bs_Completed src !! s = Some o /\ emits u (so_Outputs o)) ->
  let r := ResolveBranchInput value m (par_Name p) branches in
  let stage := if ref_shorthand ref then singleJoinTerminalTask m (branch_Start b) else ref_stage ref in
  br_Recognized r = true /\ br_Absent r = false /\ stage ∈ vs /\
  exists u, m_tasks m !! stage = Some u /\ (is_Some (br_Value r) \/ ExpectedOutputs u = []).
Proof.
  intros Ha Ht Hi Hs Hnt Hpar Hj branches Hb Hst Hfind Hstart Hrun Hrec. unfold branchInputsFromProblems in Ha. rewrite WorkflowProps.concat_nil in Ha. specialize (Ha t Ht). rewrite WorkflowProps.concat_nil in Ha.
  specialize (Ha input ltac:(apply sortedKeys_elem; eauto)). unfold branch_input_problems in Ha. rewrite Hi in Ha. cbn [from_option id] in Ha. rewrite Hs, Hnt, Hj, Hpar in Ha. unfold branch_ref_problems in Ha.
  destruct (split_branch_parts _ _ Hs) as [Hpne Hshort]. destruct (String.eqb_spec (ref_parallel ref) (par_Name p)) as [Epar|]; [|done]. cbn [negb] in Ha. rewrite Hfind in Ha.
  unfold ResolveBranchInput, splitBranchInput. rewrite Hs, Epar, String.eqb_refl, Hb, Hst, Hstart. rewrite (proj2 (String.eqb_neq (par_Name p) "")) by (by rewrite <- Epar). cbn [negb orb].
  assert (exists stage, (if ref_stage ref =? "" then singleJoinTerminalTask m (branch_Start b) else ref_stage ref) = stage /\
    (if ref_shorthand ref then singleJoinTerminalTask m (branch_Start b) else ref_stage ref) = stage /\ branch_stage_problems m (task_Name t) input b stage (ref_key ref) = []) as (stage & -> & -> & Hok).
  { destruct (ref_shorthand ref); [rewrite Hshort|exists (ref_stage ref); by rewrite (proj2 (String.eqb_neq _ _) Hshort)]. change ("" =? "") with true. cbn [negb].
    destruct (joinTerminalStates m (branch_Start b)) as [|terminal [|]] eqn:Ej; [done| |done]. exists terminal. enough (singleJoinTerminalTask m (branch_Start b) = terminal) by done. unfold branch_stage_problems in Ha.
    destruct (negb _); [done|]. destruct (m_tasks m !! terminal) as [u|] eqn:Eu; [|done]. by eapply single_terminal. }
  unfold branch_stage_problems in Hok. destruct (mem_string stage (branchBody m (branch_Start b))) eqn:Ebody; [|done]. cbn [negb] in Hok. destruct (m_tasks m !! stage) as [u|] eqn:Eu; [|done]. apply app_nil in Hok as [Ho1 Ho2].
  destruct (precedesBranchJoinOnEveryPath m (branch_Start b) stage) eqn:Epre; [|done]. destruct (declares_other u (ref_key ref)) eqn:Ed; [done|].
  assert (stage ∈ vs) as Hin. { eapply precedes_branch_join; [|exact Epre|exact Hrun]. apply mem_string_true, branchBody_spec in Ebody. by destruct Ebody. }
  destruct (Hrec stage u Hin Eu) as (o & -> & He). cbn. split_and!; [done|done|done|]. exists u. split; [done|]. destruct (declares_other_false _ _ Ed) as [|Hk]; [by right|left; by apply He].
Qed.
End branches.

(** ** A workflow, as an example *)

Module StageExample.
#[local] Instance quoting : Quoting := fun s => s.

Definition task (name : string) (inputs : gmap string string) (outputs : list string) (next : string) : Task :=
  mkTask name TaskAgentic "goober" false None ∅ "" [] 0 "" outputs inputs WorkspaceUnset next None [] false None false [] None.
Definition plan : Task := task "plan" ∅ ["title"] "review".
Definition lint : Task := task "lint" {["t" := "title"]} ["score"] TargetJoin.
Definition test : Task := task "test" ∅ ["passed"] TargetJoin.
Definition publish : Task := task "publish" {["t" := "plan.title"; "s" := "checks.lint.score"]} [] "".
Definition review : Gate :=
  mkGate "review" EvaluatorAgentic None (Some (mkAgentic "reviewer" None WorkspaceUnset 0)) None
    {["pass" := "checks"; "needs-changes" := "plan"; "fail" := TargetAbort]} 1 None.
Definition checks : Parallel :=
  mkParallel "checks" BranchFailFast [mkBranch "lint" "lint"; mkBranch "test" "test"] "publish" "" 0 0.
Definition flow (lint : Task) : Definition_ :=
  mkDefinition "flow" 1 "3.1" (mkSpec "plan" None [plan; lint; test; publish] [review] [checks] [] false).

Definition ok (outputs : gmap string Any) : ResultEnvelope := mkEnvelope ResultSuccess outputs None.
Definition planned : ResultEnvelope := ok {["title" := AnyString "Fix the log"]}.
Definition at_lint : config := mkConfig "lint" (Some plan) planned {["plan" := mkStageOutput (re_Outputs planned) "trusted"]}.
Definition goodflow : Definition_ := flow lint.

Lemma at_lint_runs : runs_to goodflow at_lint.
Proof.
  exists (ok ∅). eapply rtc_l; [split; [done|]; by apply (advance_task goodflow _ plan planned "trusted")|].
  eapply rtc_l; [split; [done|]; by apply (advance_gate goodflow _ review "pass" "checks")|].
  eapply rtc_l; [split; [done|]; by apply (advance_branch goodflow _ checks (mkBranch "lint" "lint")); [..|by left]|]. apply rtc_refl.
Qed.

Lemma accepted_inputs_resolve_witness :
  CheckStageContracts goodflow = [] /\ CheckPathSimulation goodflow = [] /\ runs_to goodflow at_lint /\
  (is_Some (resolveInputsFrom "title" planned (c_completed at_lint) true) \/ ExpectedOutputs plan = []).
Proof.
  assert (CheckStageContracts goodflow = []) as H1 by (by vm_compute). assert (CheckPathSimulation goodflow = []) as H2 by (by vm_compute).
  split; [done|]. split; [done|]. split; [apply at_lint_runs|].
  apply (accepted_inputs_resolve goodflow at_lint lint "t" "title"); [by vm_compute|done|done|by apply plain_definition_plain; vm_compute|by exists 0%Z; split; [vm_compute|]|apply at_lint_runs|by vm_compute..].
Defined.

(** With a task that reads what the plan does not emit, the simulation finds it. *)
Definition badflow : Definition_ := flow (task "lint" {["t" := "summary"]} ["score"] TargetJoin).
Definition at_bad : pathSimulationFrame := mkFrame "lint" (Some {["title"]}) "plan" ["plan"; "review:pass"; "checks:lint"].
Lemma path_simulation_is_exact_witness :
  exists path last live, Unresolvable "lint" "t" "summary" path last live ∈ pathSimulationProblems_with (newMachine badflow) 100.
Proof.
  apply (proj1 (path_simulation_is_exact (newMachine badflow) 100 ltac:(by apply plain_definition_plain; vm_compute))); [by apply (bool_decide_unpack _); vm_compute|].
  exists at_bad, {["title"]}. split; [|split; [done|]].
  - eapply rtc_l; [split; [done|]; by left|]. eapply rtc_l; [split; [done|]; by do 2 right; left|]. eapply rtc_l; [split; [done|]; by left|]. apply rtc_refl.
  - split; [done|]. eexists. split_and!; [by vm_compute..|]. by apply (bool_decide_unpack _); vm_compute.
Defined.
Lemma simulation_covers_small_workflows_witness : PathsBounded 100 ∉ pathSimulationProblems_with (newMachine badflow) 100.
Proof. apply (simulation_covers_small_workflows badflow 100); [by apply resolved_transitions; vm_compute|by vm_compute]. Defined.

Definition linted : BranchInputSource :=
  mkBranchSource "lint" "succeeded" {["lint" := mkStageOutput {["score" := AnyInt 3]} "trusted"]}.
Lemma accepted_branch_inputs_resolve_witness :
  branchInputsFromProblems (newMachine goodflow) = [] /\
  br_Recognized (ResolveBranchInput "checks.lint.score" (newMachine goodflow) "checks" {["lint" := linted]}) = true /\
  is_Some (br_Value (ResolveBranchInput "checks.lint.score" (newMachine goodflow) "checks" {["lint" := linted]})).
Proof.
  split; [by vm_compute|].
  destruct (accepted_branch_inputs_resolve goodflow publish "s" "checks.lint.score" (mkBranchRef "checks" "lint" "" "score" true) checks linted (mkBranch "lint" "lint") ["lint"])
    with (branches := {["lint" := linted]} : gmap string BranchInputSource) as (H1 & _ & _ & u & Hu & H2); try by vm_compute.
  - by do 3 right; left.
  - eapply branch_step; [constructor|by vm_compute|by left].
  - intros s u ->%list_elem_of_singleton [= <-]. eexists. split; [by vm_compute|]. intros k ->%list_elem_of_singleton. by vm_compute; eauto.
  - split; [done|]. injection Hu as <-. by destruct H2.
Defined.

(** Output keys that contain the separator of a signature make two different sets
    look the same: the path through [joined] goes unreported. *)
Definition commas : Definition_ :=
  mkDefinition "commas" 1 "3.1" (mkSpec "choose" None
    [task "both" ∅ ["a"; "b"] "read"; task "joined" ∅ ["a,b"] "read"; task "read" {["x" := "a"]} [] ""]
    [mkGate "choose" EvaluatorAgentic None (Some (mkAgentic "reviewer" None WorkspaceUnset 0)) None
      {["fail" := TargetAbort; "needs-changes" := "both"; "pass" := "joined"]} 1 None] [] [] false).
Lemma comma_hides_a_path :
  structuralProblems (newMachine commas) = [] /\ CheckPathSimulation commas = [] /\
  exists f, path_to (newMachine commas) f /\ unresolved (newMachine commas) (node_of f) "x" "a" {["a,b"]}.
Proof.
  split; [by vm_compute|]. split; [by vm_compute|].
  exists (mkFrame "read" (Some {["a,b"]}) "joined" ["choose:pass"; "joined"]). split.
  - eapply rtc_l; [split; [done|]; by do 2 right; left|]. eapply rtc_l; [split; [done|]; by left|]. apply rtc_refl.
  - split; [done|]. eexists. split_and!; [by vm_compute..|]. by apply (bool_decide_unpack _); vm_compute.
Qed.
End StageExample.
