(* ===== verification/StagePlacement.v ===== *)
(** * Where stages run: [internal/workflow/v_3_0/runson.go], [derive.go],
    [placement.go], [internal/workflow/placement.go], [compile.go], [fanout.go],
    [isolationplacements.go],
    [internal/instance/runners.go], [isolation.go], [selfexecution.go],
    [placement.go], [internal/dispatcher/selection.go], [queue.go], [placement.go],
    [internal/bootstrap/placement.go], [placementinventory.go]

    What a stage requires of a runner by its own declaration, by construction and
    by its gaggle; which runners an instance declares; and the placement of every
    stage that is pinned when a run starts.  Kubernetes quantities are the class
    [Quantities]. *)

From S2P Require Export StageContract RunnerSolveProps.
Local Open Scope string_scope.
Local Open Scope list_scope.
Local Open Scope goobers_scope.

(** ** Declarations *)

Record GaggleRunsOn := mkFloor { floor_OS : string; floor_Capabilities : list string; floor_Restrictions : list string }.
Record GooberSpec := mkGoober { Harness : string }.
(** The fields of a gaggle that placement reads; [gaggle_Sandbox] is set or not. *)
Record GaggleSpec := mkGaggle {
  gaggle_Sandbox : bool; gaggle_RequiredCapabilities : option (list string); gaggle_RunsOn : option GaggleRunsOn;
  project_Provider : string; backlog_Provider : string
}.
Record PlacementStage := mkPlaced { place_Kind : string; place_Name : string; place_RunsOn : option RunsOn; Derived : list string }.

Definition stageKindTask : string := "task".
Definition stageKindGate : string := "gate".
Definition HarnessCopilot : string := "copilot".

(** ** Derived requirements *)

Definition harnessFor (goober : string) (goobers : gmap string GooberSpec) : string :=
  match goobers !! goober with
  | Some spec => if Harness spec =? "" then HarnessCopilot else Harness spec
  | None => HarnessCopilot
  end.
Definition DerivedCapabilities (task : Task) (goobers : gmap string GooberSpec) : list string :=
  match task_Type task with
  | TaskAgentic => [DerivedHarnessTagPrefix +:+ harnessFor (task_Goober task) goobers]
  | TaskDeterministic =>
      match task_Run task with
      | None => []
      | Some run =>
          if match Command run with c :: _ => c =? "goobers" | [] => false end then []
          else if isShellStage task then [DerivedShellTag] else []
      end
  | TaskTypeOther _ => []
  end.
Definition DerivedGateCapabilities (gate : Gate) (goobers : gmap string GooberSpec) : list string :=
  match Evaluator gate, Agentic gate with
  | EvaluatorAgentic, Some a => [DerivedHarnessTagPrefix +:+ harnessFor (agentic_Goober a) goobers]
  | _, _ => []
  end.
Definition taskPlacementStage (goobers : gmap string GooberSpec) (task : Task) : PlacementStage :=
  mkPlaced stageKindTask (task_Name task) (task_RunsOn task) (DerivedCapabilities task goobers).
Definition gatePlacementStage (goobers : gmap string GooberSpec) (gate : Gate) : PlacementStage :=
  mkPlaced stageKindGate (gate_Name gate) (gate_RunsOn gate) (DerivedGateCapabilities gate goobers).

Definition EffectiveCapabilities (stage : PlacementStage) (floor : option GaggleRunsOn) : list string :=
  sortedDistinct (Derived stage
    ++ match place_RunsOn stage with Some on => on_Capabilities on | None => [] end
    ++ match floor with Some f => floor_Capabilities f | None => [] end).
(** A stage without a declaration has the zero value. *)
Definition no_runs_on : RunsOn := mkRunsOn "" "" "" "" [] [].
Definition EffectiveRunsOn (stage : PlacementStage) (floor : option GaggleRunsOn) : RunsOn :=
  let own := default no_runs_on (place_RunsOn stage) in
  match floor with
  | Some f =>
      mkRunsOn (if OS own =? "" then floor_OS f else OS own) (CPU own) (Memory own) (Disk own)
        (sortedDistinct (on_Capabilities own ++ floor_Capabilities f)) (sortedDistinct (on_Restrictions own ++ floor_Restrictions f))
  | None =>
      mkRunsOn (OS own) (CPU own) (Memory own) (Disk own) (sortedDistinct (on_Capabilities own)) (sortedDistinct (on_Restrictions own))
  end.

Definition placed_gate (gate : Gate) : bool :=
  bool_decide (Evaluator gate = EvaluatorAgentic) && bool_decide (is_Some (Agentic gate)) && bool_decide (is_Some (gate_RunsOn gate)).
Definition placeableStages (def : Definition_) (goobers : gmap string GooberSpec) : list PlacementStage :=
  map (taskPlacementStage goobers) (Tasks (Spec def)) ++ map (gatePlacementStage goobers) (List.filter placed_gate (Gates_ (Spec def))).
Definition stage_requirement (floor : option GaggleRunsOn) (stage : PlacementStage) : StageRequirement :=
  let effective := EffectiveRunsOn stage floor in
  mkStage (place_Name stage) "" false (place_Kind stage =? stageKindGate) (OS effective) (CPU effective) (Memory effective) (Disk effective)
    (EffectiveCapabilities stage floor) (on_Restrictions effective).
Definition StagePlacements (def : Definition_) (floor : option GaggleRunsOn) (goobers : gmap string GooberSpec) : list StageRequirement :=
  map (stage_requirement floor) (placeableStages def goobers).

(** The gaggle fields that DSL 3.0 refuses. *)
Inductive gaggle_error := GaggleSandbox | GaggleRequiredCapabilities.
Definition gaggleFeatures (gaggle : GaggleSpec) : option gaggle_error :=
  if gaggle_Sandbox gaggle then Some GaggleSandbox
  else match gaggle_RequiredCapabilities gaggle with Some _ => Some GaggleRequiredCapabilities | None => None end.
Definition v30StagePlacements (def : Definition_) (gaggle : GaggleSpec) (goobers : gmap string GooberSpec)
    : result gaggle_error (list StageRequirement) :=
  match gaggleFeatures gaggle with
  | Some err => Error err
  | None => Ok (StagePlacements def (gaggle_RunsOn gaggle) goobers)
  end.

(** ** The router: [internal/workflow/placement.go], [compile.go], [fanout.go] *)

(** [interpreterForVersion]: the versions that the support matrix carries and the
    build interprets; a definition without one is taken for 2.0. *)
Inductive versionedInterpreter := v20Interpreter | v21Interpreter | v30Interpreter | v31Interpreter.
Definition V2DSLVersion : string := "2.0".
Definition V21DSLVersion : string := "2.1".
Definition V3DSLVersion : string := "3.0".
Definition interpreterForVersion (version : string) : option versionedInterpreter :=
  let version := if version =? "" then V2DSLVersion else version in
  if version =? V2DSLVersion then Some v20Interpreter
  else if version =? V21DSLVersion then Some v21Interpreter
  else if version =? V3DSLVersion then Some v30Interpreter
  else if version =? V31DSLVersion then Some v31Interpreter
  else None.

(** What a workflow before 3.0 must not declare. *)
Inductive surface_problem :=
| SurfaceExtensions | SurfaceMap (map_ : string) | SurfaceRunsOn (task : string) | SurfaceRepoFrom (task : string) | SurfaceCommitsRepo (task : string)
| SurfaceGateRunsOn (gate : string) | SurfaceGaggleRunsOn | SurfaceAdmin (task : string) | SurfaceGaggleAdmin.
Definition required_tokens (caps : option (list string)) : list string := default [] caps.
Definition preV30WindowsAdminProblems (tasks : list Task) (gaggleRequiredCapabilities : list string) : list surface_problem :=
  concat (map (fun t => if HasWindowsAdmin (required_tokens (RequiredCapabilities t)) then [SurfaceAdmin (task_Name t)] else []) tasks)
  ++ (if HasWindowsAdmin gaggleRequiredCapabilities then [SurfaceGaggleAdmin] else []).
Definition preV30SurfaceProblems (def : Definition_) (gaggleRunsOn : option GaggleRunsOn) : list surface_problem :=
  (if Extensions (Spec def) then [SurfaceExtensions] else [])
  ++ map (fun m => SurfaceMap (map_Name m)) (Maps (Spec def))
  ++ concat (map (fun t =>
       (if bool_decide (is_Some (task_RunsOn t)) then [SurfaceRunsOn (task_Name t)] else [])
       ++ (if (0 <? length (RepoFrom t))%nat then [SurfaceRepoFrom (task_Name t)] else [])
       ++ (if CommitsRepo t then [SurfaceCommitsRepo (task_Name t)] else [])) (Tasks (Spec def)))
  ++ concat (map (fun g => if bool_decide (is_Some (gate_RunsOn g)) then [SurfaceGateRunsOn (gate_Name g)] else []) (Gates_ (Spec def)))
  ++ match gaggleRunsOn with Some _ => [SurfaceGaggleRunsOn] | None => [] end
  ++ preV30WindowsAdminProblems (Tasks (Spec def)) [].
Definition refusePreV30Surface (def : Definition_) (gaggle : GaggleSpec) : list surface_problem :=
  preV30SurfaceProblems def (gaggle_RunsOn gaggle) ++ preV30WindowsAdminProblems [] (required_tokens (gaggle_RequiredCapabilities gaggle)).

Inductive placement_error := VersionUnsupported (version : string) | SurfaceRefused (problems : list surface_problem) | GaggleRefused (err : gaggle_error).
(** The declared capabilities of the task and of its gaggle, without repeats of the
    latter. *)
Definition preV30Capabilities (gaggle : GaggleSpec) (task : Task) : list string :=
  foldl (fun capabilities token => if mem_string token capabilities then capabilities else capabilities ++ [token])
    (required_tokens (RequiredCapabilities task)) (required_tokens (gaggle_RequiredCapabilities gaggle)).
Definition preV30_requirement (gaggle : GaggleSpec) (task : Task) : StageRequirement :=
  mkStage (task_Name task) "" false false "" "" "" "" (preV30Capabilities gaggle task) [].
Definition preV30StagePlacements (def : Definition_) (gaggle : GaggleSpec) : result placement_error (list StageRequirement) :=
  match refusePreV30Surface def gaggle with
  | [] => Ok (map (preV30_requirement gaggle) (Tasks (Spec def)))
  | problems => Error (SurfaceRefused problems)
  end.
(** [workflow.StagePlacements]. *)
Definition workflowStagePlacements (def : Definition_) (gaggle : GaggleSpec) (goobers : gmap string GooberSpec) : result placement_error (list StageRequirement) :=
  match interpreterForVersion (DSLVersion def) with
  | None => Error (VersionUnsupported (DSLVersion def))
  | Some (v20Interpreter | v21Interpreter) => preV30StagePlacements def gaggle
  | Some (v30Interpreter | v31Interpreter) =>
      match v30StagePlacements def gaggle goobers with Error err => Error (GaggleRefused err) | Ok rows => Ok rows end
  end.

(** ** Stage classes *)

Definition task_class (t : TaskType) : string :=
  match t with TaskAgentic => "agentic" | TaskDeterministic => "deterministic" | TaskTypeOther s => s end.
Definition gate_class (gate : Gate) : string :=
  if bool_decide (Evaluator gate = EvaluatorAgentic) then "agentic" else "deterministic".
Definition stage_classes (def : Definition_) : gmap string string :=
  foldl (fun m g => <[gate_Name g := gate_class g]> m)
    (foldl (fun m t => <[task_Name t := task_class (task_Type t)]> m) ∅ (Tasks (Spec def))) (Gates_ (Spec def)).
Definition set_class (classes : gmap string string) (r : StageRequirement) : StageRequirement :=
  mkStage (Stage r) (default "" (classes !! Stage r)) (ControlPlane r) (RequireResourceMinimums r) (stage_OS r)
    (stage_CPU r) (stage_Memory r) (stage_Disk r) (stage_Capabilities r) (stage_Restrictions r).
(** The row of a gate that stays in the control plane. *)
Definition control_row (gate class : string) : StageRequirement := mkStage gate class true false "" "" "" "" [] [].
Definition control_rows (classes : gmap string string) (placed : list string) (mandates : gmap string (list string)) (deny : bool) (gate : Gate)
    : list StageRequirement :=
  let class := default "" (classes !! gate_Name gate) in
  if negb (mem_string (gate_Name gate) placed)
     && ((0 <? length (default [] (mandates !! class)))%nat || deny && bool_decide (Evaluator gate = EvaluatorAgentic))
  then [control_row (gate_Name gate) class] else [].
Definition IsolationStagePlacements (def : Definition_) (gaggle : GaggleSpec) (goobers : gmap string GooberSpec)
    (mandates : gmap string (list string)) (deny : bool) : result placement_error (list StageRequirement) :=
  match workflowStagePlacements def gaggle goobers with
  | Error err => Error err
  | Ok rows =>
      if bool_decide (mandates = ∅) && negb deny then Ok rows
      else
        let classes := stage_classes def in
        Ok (map (set_class classes) rows
            ++ concat (map (control_rows classes (map Stage rows) mandates deny) (Gates_ (Spec def))))
  end.

(** ** The rules of [runsOn] *)

Definition runsOnOSValues : list string := ["linux"; "windows"; "macOS"].
Definition validRunsOnOS (os : string) : bool := mem_string os runsOnOSValues.

Inductive runs_on_problem :=
| RemovedCapabilities (task : string) | RemovedNetwork (task : string)
| GateNotAgentic (gate : string) (evaluator : EvaluatorKind) | GateNoReviewer (gate : string)
| FloorOS (os : string) | FloorToken (index : nat) (err : token_error)
| StageOS (kind name os : string) | OSConflict (kind name os floor : string)
| QuantityMalformed (kind name field value : string) | QuantityNotPositive (kind name field value : string)
| StageToken (kind name : string) (index : nat) (err : token_error)
| FloorAdmin (os : string) | StageAdmin (kind name os : string)
| FloorOSToken (token hint : string) | StageOSToken (kind name token hint : string)
| FloorUnknown (token : string) (suggestion : option string) | StageUnknown (kind name token : string) (suggestion : option string)
| FloorWindows (token : string) | StageWindows (kind name token : string).

Definition removedSurfaceProblems (def : Definition_) : list runs_on_problem :=
  concat (map (fun t =>
    match RequiredCapabilities t with Some _ => [RemovedCapabilities (task_Name t)] | None => [] end
    ++ match task_Run t with Some run => if Network run =? "" then [] else [RemovedNetwork (task_Name t)] | None => [] end) (Tasks (Spec def))).

Definition runsOnStages (def : Definition_) : list PlacementStage :=
  map (fun t => mkPlaced stageKindTask (task_Name t) (task_RunsOn t) []) (Tasks (Spec def))
  ++ map (fun g => mkPlaced stageKindGate (gate_Name g) (gate_RunsOn g) [])
       (List.filter (fun g => bool_decide (is_Some (gate_RunsOn g))) (Gates_ (Spec def))).

Definition gate_runs_on_problem (gate : Gate) : list runs_on_problem :=
  match gate_RunsOn gate with
  | None => []
  | Some _ =>
      if negb (bool_decide (Evaluator gate = EvaluatorAgentic)) then [GateNotAgentic (gate_Name gate) (Evaluator gate)]
      else match Agentic gate with None => [GateNoReviewer (gate_Name gate)] | Some _ => [] end
  end.
Definition gateRunsOnProblems (def : Definition_) : list runs_on_problem := concat (map gate_runs_on_problem (Gates_ (Spec def))).

Section quantities.
Context {Q : Quantities}.

Definition quantity_problem (stage : PlacementStage) (field value : string) : list runs_on_problem :=
  if value =? "" then []
  else match ParseQuantity value with
  | None => [QuantityMalformed (place_Kind stage) (place_Name stage) field value]
  | Some q => if (Sign q <=? 0)%Z then [QuantityNotPositive (place_Kind stage) (place_Name stage) field value] else []
  end.
Definition token_problems (problem : nat -> token_error -> runs_on_problem) (tokens : list string) : list runs_on_problem :=
  concat (imap (fun i token => match ValidateToken token with Some err => [problem i err] | None => [] end) tokens).
Definition stage_runs_on_problems (floorOS : string) (stage : PlacementStage) : list runs_on_problem :=
  match place_RunsOn stage with
  | None => []
  | Some on =>
      (if negb (OS on =? "") && negb (validRunsOnOS (OS on)) then [StageOS (place_Kind stage) (place_Name stage) (OS on)] else [])
      ++ (if negb (OS on =? "") && negb (floorOS =? "") && negb (OS on =? floorOS) && validRunsOnOS (OS on) && validRunsOnOS floorOS
          then [OSConflict (place_Kind stage) (place_Name stage) (OS on) floorOS] else [])
      ++ quantity_problem stage "cpu" (CPU on) ++ quantity_problem stage "memory" (Memory on) ++ quantity_problem stage "disk" (Disk on)
      ++ token_problems (StageToken (place_Kind stage) (place_Name stage)) (on_Capabilities on)
  end.
Definition floor_problems (f : GaggleRunsOn) : list runs_on_problem :=
  (if negb (floor_OS f =? "") && negb (validRunsOnOS (floor_OS f)) then [FloorOS (floor_OS f)] else [])
  ++ token_problems FloorToken (floor_Capabilities f).

Definition stage_admin_problem (floor : option GaggleRunsOn) (stage : PlacementStage) : list runs_on_problem :=
  let effective := EffectiveRunsOn stage floor in
  if negb (HasWindowsAdmin (on_Capabilities effective)) || (OS effective =? OSWindows) then []
  else [StageAdmin (place_Kind stage) (place_Name stage) (OS effective)].
Definition floor_admin (floor : option GaggleRunsOn) : bool :=
  match floor with
  | Some f => HasWindowsAdmin (floor_Capabilities f) && negb (floor_OS f =? "") && negb (floor_OS f =? OSWindows)
  | None => false
  end.
Definition floorOS (floor : option GaggleRunsOn) : string := match floor with Some f => floor_OS f | None => "" end.
Definition windowsAdminProblems (def : Definition_) (floor : option GaggleRunsOn) : list runs_on_problem :=
  if floor_admin floor then [FloorAdmin (floorOS floor)]
  else concat (map (stage_admin_problem floor) (runsOnStages def)).
Definition runsOnProblems (def : Definition_) (floor : option GaggleRunsOn) : list runs_on_problem :=
  match floor with Some f => floor_problems f | None => [] end
  ++ concat (map (stage_runs_on_problems (floorOS floor)) (runsOnStages def))
  ++ windowsAdminProblems def floor.
End quantities.

Definition canonicalOSName (goos : string) : string :=
  if goos =? "darwin" then "macOS"
  else if (goos =? "linux") || (goos =? "windows") then goos
  else "<one of " +:+ String.concat "|" runsOnOSValues +:+ ">".
Definition os_token (problem : string -> string -> runs_on_problem) (token : string) : list runs_on_problem :=
  match CutPrefix "os=" token with Some goos => [problem token (canonicalOSName goos)] | None => [] end.
Definition osTokenProblems (def : Definition_) (floor : option GaggleRunsOn) : list runs_on_problem :=
  match floor with Some f => concat (map (os_token FloorOSToken) (floor_Capabilities f)) | None => [] end
  ++ concat (map (fun stage =>
       match place_RunsOn stage with
       | Some on => concat (map (os_token (StageOSToken (place_Kind stage) (place_Name stage))) (on_Capabilities on))
       | None => []
       end) (runsOnStages def)).

Definition unknown_problem (problem : string -> option string -> runs_on_problem) (token : string) : list runs_on_problem :=
  if KnownRestriction token then [] else [problem token (SuggestRestriction token)].
(** A known effect that Windows cannot bind. *)
Definition undeclarable (token : string) : bool := KnownRestriction token && negb (DeclarableOnWindows token).
Definition reported_at_floor (floor : option GaggleRunsOn) : list string :=
  match floor with Some f => if floor_OS f =? OSWindows then List.filter undeclarable (floor_Restrictions f) else [] | None => [] end.
Definition stage_windows_problems (floor : option GaggleRunsOn) (stage : PlacementStage) : list runs_on_problem :=
  let effective := EffectiveRunsOn stage floor in
  if negb (OS effective =? OSWindows) then []
  else map (StageWindows (place_Kind stage) (place_Name stage))
         (List.filter (fun t => negb (mem_string t (reported_at_floor floor)) && undeclarable t) (on_Restrictions effective)).
Definition windowsRestrictionProblems (def : Definition_) (floor : option GaggleRunsOn) : list runs_on_problem :=
  map FloorWindows (reported_at_floor floor) ++ concat (map (stage_windows_problems floor) (runsOnStages def)).
Definition restrictionProblems (def : Definition_) (floor : option GaggleRunsOn) : list runs_on_problem :=
  match floor with Some f => concat (map (unknown_problem FloorUnknown) (floor_Restrictions f)) | None => [] end
  ++ concat (map (fun stage =>
       match place_RunsOn stage with
       | Some on => concat (map (unknown_problem (StageUnknown (place_Kind stage) (place_Name stage))) (on_Restrictions on))
       | None => []
       end) (runsOnStages def))
  ++ windowsRestrictionProblems def floor.

(** ** Patterns

    Regular expressions over bytes, matched by derivatives. *)

Inductive pattern :=
| PNone | PEmpty | PClass (c : N -> bool) | PThen (p q : pattern) | POr (p q : pattern) | PStar (p : pattern).
Fixpoint nullable (p : pattern) : bool :=
  match p with
  | PNone | PClass _ => false
  | PEmpty | PStar _ => true
  | PThen p q => nullable p && nullable q
  | POr p q => nullable p || nullable q
  end.
(** Constructors that drop dead branches, which keeps derivatives small. *)
Definition p_then (p q : pattern) : pattern :=
  match p, q with PNone, _ | _, PNone => PNone | PEmpty, _ => q | _, _ => PThen p q end.
Definition p_or (p q : pattern) : pattern :=
  match p, q with PNone, _ => q | _, PNone => p | _, _ => POr p q end.
Fixpoint derive (b : N) (p : pattern) : pattern :=
  match p with
  | PNone | PEmpty => PNone
  | PClass c => if c b then PEmpty else PNone
  | PThen p q => if nullable p then p_or (p_then (derive b p) q) (derive b q) else p_then (derive b p) q
  | POr p q => p_or (derive b p) (derive b q)
  | PStar p' => p_then (derive b p') p
  end.
Definition MatchBytes (p : pattern) (bs : list N) : bool := nullable (fold_left (fun p b => derive b p) bs p).
Definition MatchString (p : pattern) (s : string) : bool := MatchBytes p (bytes s).

Definition p_char (c : ascii) : pattern := PClass (N.eqb (N_of_ascii c)).
Definition p_one_of (cs : string) : pattern := PClass (fun b => existsb (N.eqb b) (bytes cs)).
Definition p_opt (p : pattern) : pattern := POr PEmpty p.
Definition p_plus (p : pattern) : pattern := PThen p (PStar p).
(** Up to and at least [n] times. *)
Fixpoint p_upto (n : nat) (p : pattern) : pattern := match n with O => PEmpty | S n => p_opt (PThen p (p_upto n p)) end.
Fixpoint p_atleast (n : nat) (p : pattern) : pattern := match n with O => PStar p | S n => PThen p (p_atleast n p) end.
Fixpoint p_seq (ps : list pattern) : pattern := match ps with [] => PEmpty | [p] => p | p :: ps => PThen p (p_seq ps) end.

Definition is_lower (b : N) : bool := between 97 122 b.
Definition is_digit (b : N) : bool := between 48 57 b.
Definition is_letter (b : N) : bool := between 65 90 b || between 97 122 b.
Definition is_alnum (b : N) : bool := is_letter b || is_digit b.
Definition is_loweralnum (b : N) : bool := is_lower b || is_digit b.
Definition or_byte (c : N -> bool) (cs : string) (b : N) : bool := c b || existsb (N.eqb b) (bytes cs).

Definition imageDomainComponent : pattern :=
  POr (PClass is_alnum) (p_seq [PClass is_alnum; PStar (PClass (or_byte is_alnum "-")); PClass is_alnum]).
Definition imageDomain : pattern :=
  p_seq [imageDomainComponent; PStar (PThen (p_char ".") imageDomainComponent); p_opt (PThen (p_char ":") (p_plus (PClass is_digit)))].
Definition imagePathComponent : pattern :=
  PThen (p_plus (PClass is_loweralnum))
    (PStar (PThen (POr (p_one_of "._") (POr (PThen (p_char "_") (p_char "_")) (p_plus (p_char "-")))) (p_plus (PClass is_loweralnum)))).
Definition imageTag : pattern := PThen (PClass (or_byte is_alnum "_")) (p_upto 127 (PClass (or_byte is_alnum "._-"))).
Definition imageDigest : pattern :=
  p_seq [PClass is_letter; PStar (PClass is_alnum);
         PStar (p_seq [p_one_of "-_+."; PClass is_letter; PStar (PClass is_alnum)]);
         p_char ":"; p_atleast 32 (PClass (fun b => is_digit b || between 97 102 b || between 65 70 b))].
Definition imageReferencePattern : pattern :=
  p_seq [p_opt (PThen imageDomain (p_char "/")); imagePathComponent; PStar (PThen (p_char "/") imagePathComponent);
         p_opt (PThen (p_char ":") imageTag); p_opt (PThen (p_char "@") imageDigest)].
Definition dns_label : pattern :=
  PThen (PClass is_loweralnum) (p_opt (PThen (PStar (PClass (or_byte is_loweralnum "-"))) (PClass is_loweralnum))).
Definition dns1123SubdomainPattern : pattern := PThen dns_label (PStar (PThen (p_char ".") dns_label)).

(** ** The runners of an instance *)

Inductive RunnerHostKind := RunnerHostSelf | RunnerHostImage | RunnerHostDeployment.
#[export] Instance RunnerHostKind_eq_dec : EqDecision RunnerHostKind.
Proof. solve_decision. Defined.
Definition RunnerHostSelfName : string := "self".
Inductive host_error := HostRequired | HostNotImage (host : string) | HostNotDeployment (host : string).
Definition ClassifyRunnerHost (host : string) : result host_error RunnerHostKind :=
  if host =? "" then Error HostRequired
  else if host =? RunnerHostSelfName then Ok RunnerHostSelf
  else if existsb (fun b => existsb (N.eqb b) (bytes "/:@")) (bytes host) then
    if MatchString imageReferencePattern host then Ok RunnerHostImage else Error (HostNotImage host)
  else if (253 <? String.length host)%nat || negb (MatchString dns1123SubdomainPattern host) then Error (HostNotDeployment host)
  else Ok RunnerHostDeployment.

(** [prov_Windows] is the claim on antivirus exclusions. *)
Record RunnerProvides := mkProvides {
  prov_OS : string; prov_CPU : string; prov_Memory : string; prov_Disk : string; prov_Capabilities : list string;
  prov_Shell : bool; prov_Harnesses : list string; prov_Windows : option bool
}.
Record RunnerEntry := mkEntry { entry_Name : string; entry_Host : string; Provides : RunnerProvides; entry_Restrictions : list string }.
Record IsolationMandate := mkMandate { mandate_StageClass : string; mandate_Restrictions : list string }.
(** [SelfExecution] is empty when there is no placement block;
    [EngineProjectionEnabled] is what the method of that name answers. *)
Record Config := mkInstance {
  SchemaVersion : option Z; cfg_Runners : list RunnerEntry; legacy_Capabilities : list string;
  SelfExecution : string; Isolation : option (list IsolationMandate); EngineProjectionEnabled : bool
}.

Definition EffectiveSchemaVersion (c : Config) : Z := default 1%Z (SchemaVersion c).
Definition ResolvedRunners (c : Config) : list RunnerEntry :=
  match cfg_Runners c with
  | [] => [mkEntry RunnerHostSelfName RunnerHostSelfName (mkProvides "" "" "" "" (legacy_Capabilities c) false [] None) []]
  | l => l
  end.
Definition is_self (e : RunnerEntry) : bool := entry_Host e =? RunnerHostSelfName.
Definition SelfRunnerCapabilities (c : Config) : list string :=
  match cfg_Runners c with
  | [] => legacy_Capabilities c
  | l => match find is_self l with Some e => prov_Capabilities (Provides e) | None => [] end
  end.
Definition SelfRunnerRestrictions (c : Config) : list string :=
  match find is_self (cfg_Runners c) with Some e => entry_Restrictions e | None => [] end.
Definition SelfRunnerEnforces (c : Config) (r : string) : bool := mem_string r (SelfRunnerRestrictions c).
Definition SelfExecutionPolicy (c : Config) : string := if SelfExecution c =? "" then "allow" else SelfExecution c.
Definition cfg_SelfExecutionDenied (c : Config) : bool := SelfExecutionPolicy c =? "deny".
Definition cfg_Mandates (c : Config) : list IsolationMandate := default [] (Isolation c).
Definition HasIsolationMandates (c : Config) : bool := (0 <? length (cfg_Mandates c))%nat.

(** ** The inventory of the solver *)

Section inventory.
Context {Q : Quantities}.

Definition parsedCeiling (value : string) : option quantity := if value =? "" then None else ParseQuantity value.
Definition placement_runner (selfOS : string) (e : RunnerEntry) : Runner :=
  mkRunner (entry_Name e) (is_self e) (if is_self e && (prov_OS (Provides e) =? "") then selfOS else prov_OS (Provides e)) (entry_Host e)
    (parsedCeiling (prov_CPU (Provides e))) (parsedCeiling (prov_Memory (Provides e))) (parsedCeiling (prov_Disk (Provides e)))
    (prov_Capabilities (Provides e)) (prov_Shell (Provides e)) (prov_Harnesses (Provides e)) (entry_Restrictions e).
Definition PlacementRunners (c : Config) (selfOS : string) : list Runner := map (placement_runner selfOS) (ResolvedRunners c).
Definition add_mandate (class : string) (m : gmap string (list string)) (restriction : string) : gmap string (list string) :=
  let have := default [] (m !! class) in
  if mem_string restriction have then m else <[class := have ++ [restriction]]> m.
Definition class_mandates (mandates : list IsolationMandate) : gmap string (list string) :=
  foldl (fun m mandate => foldl (add_mandate (mandate_StageClass mandate)) m (mandate_Restrictions mandate)) ∅ mandates.
Definition PlacementInventory (c : Config) (selfOS : string) : Inventory :=
  mkInventory (cfg_SelfExecutionDenied c) (PlacementRunners c selfOS) [] (class_mandates (cfg_Mandates c)).

(** ** Validation of an instance *)

Inductive config_error :=
| BadSchemaVersion (version : Z) | RunnersNeedSchema (version : Z) | LegacyCapabilities
| NameRequired (i : nat) | NameMalformed (i : nat) (name : string) | NameRepeated (i : nat) (name : string)
| BadHost (i : nat) (name : string) (err : host_error) | EngineMissing (i : nat) (name host : string)
| BadOS (i : nat) (name os : string) | BadQuantity (i : nat) (name field value : string) | NotPositive (i : nat) (name field value : string)
| BadToken (i : nat) (name : string) (j : nat) (err : token_error)
| BadHarness (i : nat) (name : string) (j : nat) (harness : string) | HarnessRepeated (i : nat) (name : string) (j : nat) (harness : string)
| WindowsClaims (i : nat) (name os : string)
| UnknownEffect (i : nat) (name : string) (j : nat) (effect : string) | EffectRepeated (i : nat) (name : string) (j : nat) (effect : string)
| NoWindowsBinding (i : nat) (name : string) (j : nat) (effect : string) | AdminElsewhere (i : nat) (name os : string)
| BadSelfExecution (policy : string)
| NoMandates | MandateClass (i : nat) | MandateEmpty (i : nat) | MandateEffect (i : nat) (effect : string)
| MandateUnsatisfiable (class : string) (effects : list string).

(** The first error of a list of checks. *)
Fixpoint first_error {A} (checks : list (option A)) : option A :=
  match checks with [] => None | Some e :: _ => Some e | None :: checks => first_error checks end.
(** Each element with its index and those before it. *)
Fixpoint with_seen {A B} (f : nat -> list A -> A -> B) (i : nat) (seen : list A) (l : list A) : list B :=
  match l with [] => [] | x :: l => f i seen x :: with_seen f (S i) (x :: seen) l end.

Definition validSecretStoreName (name : string) : bool :=
  (String.length name <=? 63)%nat && forallb (or_byte is_loweralnum "-") (bytes name)
  && negb (existsb (fun b => (b =? 45)%N) (firstn 1 (bytes name))) && negb (existsb (fun b => (b =? 45)%N) (firstn 1 (rev (bytes name))))
  && (0 <? String.length name)%nat.

Definition provides_quantity (i : nat) (name field value : string) : option config_error :=
  if value =? "" then None
  else match ParseQuantity value with
  | None => Some (BadQuantity i name field value)
  | Some q => if (Sign q <=? 0)%Z then Some (NotPositive i name field value) else None
  end.
Definition validate_harness (i : nat) (name : string) (j : nat) (seen : list string) (harness : string) : option config_error :=
  if negb (MatchString dns1123SubdomainPattern harness) then Some (BadHarness i name j harness)
  else if mem_string harness seen then Some (HarnessRepeated i name j harness) else None.
Definition validate_provides (i : nat) (name : string) (p : RunnerProvides) : option config_error :=
  first_error
    ([if mem_string (prov_OS p) ["" ; OSLinux; OSWindows; OSMacOS] then None else Some (BadOS i name (prov_OS p));
      provides_quantity i name "cpu" (prov_CPU p); provides_quantity i name "memory" (prov_Memory p); provides_quantity i name "disk" (prov_Disk p)]
     ++ imap (fun j token => option_map (BadToken i name j) (ValidateToken token)) (prov_Capabilities p)
     ++ with_seen (validate_harness i name) 0 [] (prov_Harnesses p)
     ++ [match prov_Windows p with Some _ => if prov_OS p =? OSWindows then None else Some (WindowsClaims i name (prov_OS p)) | None => None end]).
Definition validate_restriction (i : nat) (name : string) (j : nat) (seen : list string) (r : string) : option config_error :=
  if negb (KnownRestriction r) then Some (UnknownEffect i name j r)
  else if mem_string r seen then Some (EffectRepeated i name j r) else None.
Definition validateRestrictions (i : nat) (e : RunnerEntry) : option config_error :=
  first_error (with_seen (validate_restriction i (entry_Name e)) 0 [] (entry_Restrictions e)).
Definition validateWindowsBindings (i : nat) (e : RunnerEntry) : option config_error :=
  let windows := prov_OS (Provides e) =? OSWindows in
  first_error
    ((if windows then imap (fun j r => if DeclarableOnWindows r then None else Some (NoWindowsBinding i (entry_Name e) j r)) (entry_Restrictions e) else [])
     ++ [if HasWindowsAdmin (prov_Capabilities (Provides e)) && negb windows then Some (AdminElsewhere i (entry_Name e) (prov_OS (Provides e))) else None]).
Definition validate_entry (engine : bool) (i : nat) (seen : list RunnerEntry) (e : RunnerEntry) : option config_error :=
  if entry_Name e =? "" then Some (NameRequired i)
  else if negb (validSecretStoreName (entry_Name e)) then Some (NameMalformed i (entry_Name e))
  else if mem_string (entry_Name e) (map entry_Name seen) then Some (NameRepeated i (entry_Name e))
  else match ClassifyRunnerHost (entry_Host e) with
  | Error err => Some (BadHost i (entry_Name e) err)
  | Ok kind =>
      if negb (bool_decide (kind = RunnerHostSelf)) && negb engine then Some (EngineMissing i (entry_Name e) (entry_Host e))
      else first_error [validate_provides i (entry_Name e) (Provides e); validateRestrictions i e; validateWindowsBindings i e]
  end.
Definition validateSchemaVersion (c : Config) : option config_error :=
  match SchemaVersion c with Some v => if (v =? 1)%Z || (v =? 2)%Z then None else Some (BadSchemaVersion v) | None => None end.
Definition validateRunners (c : Config) : option config_error :=
  match cfg_Runners c with
  | [] => None
  | l =>
      if (EffectiveSchemaVersion c <? 2)%Z then Some (RunnersNeedSchema (EffectiveSchemaVersion c))
      else if (0 <? length (legacy_Capabilities c))%nat then Some LegacyCapabilities
      else first_error (with_seen (validate_entry (EngineProjectionEnabled c)) 0 [] l)
  end.
Definition validatePlacement (c : Config) : option config_error :=
  if mem_string (SelfExecutionPolicy c) ["allow"; "deny"] then None else Some (BadSelfExecution (SelfExecution c)).

Definition mandate_effect (i : nat) (_ : nat) (seen : list string) (r : string) : option config_error :=
  if negb (KnownRestriction r) || mem_string r seen then Some (MandateEffect i r) else None.
Definition validate_mandate (i : nat) (m : IsolationMandate) : option config_error :=
  if negb (mandate_StageClass m =? "agentic") && negb (mandate_StageClass m =? "deterministic") then Some (MandateClass i)
  else match mandate_Restrictions m with
  | [] => Some (MandateEmpty i)
  | l => first_error (with_seen (mandate_effect i) 0 [] l)
  end.
Definition class_unsatisfiable (inv : Inventory) (class : string) : option config_error :=
  match default [] (ClassMandates inv !! class) with
  | [] => None
  | effects =>
      match Unsatisfiable (Solve inv [mkStage ("isolation.mandates[" +:+ class +:+ "]") class false false "" "" "" "" [] []]) with
      | [] => None
      | _ => Some (MandateUnsatisfiable class effects)
      end
  end.
Definition validateIsolation (c : Config) : option config_error :=
  match Isolation c with
  | None => None
  | Some [] => Some NoMandates
  | Some l =>
      first_error (imap validate_mandate l ++ map (class_unsatisfiable (PlacementInventory c "")) ["agentic"; "deterministic"])
  end.
End inventory.

(** ** Selection *)

Record RunnerSpec := mkRunnerSpec {
  spec_Name : string; spec_OS : string; HostKind : RunnerHostKind; spec_Host : string; spec_CPU : string; spec_Memory : string; spec_Disk : string;
  spec_Restrictions : list string; spec_Capabilities : list string
}.
Definition SpecFromEntry (e : RunnerEntry) : result host_error RunnerSpec :=
  match ClassifyRunnerHost (entry_Host e) with
  | Error err => Error err
  | Ok kind =>
      Ok (mkRunnerSpec (entry_Name e) (prov_OS (Provides e)) kind (entry_Host e) (prov_CPU (Provides e)) (prov_Memory (Provides e)) (prov_Disk (Provides e))
            (entry_Restrictions e) (prov_Capabilities (Provides e)))
  end.

Inductive selection_error := NoneEligible | OnlyWindows (excluded : list string).
Definition SelectRunner (ledgerTouching : bool) (eligible : list RunnerSpec) : result selection_error RunnerSpec :=
  match eligible with
  | [] => Error NoneEligible
  | _ =>
      let candidates := if ledgerTouching then List.filter (fun r => negb (spec_OS r =? OSWindows)) eligible else eligible in
      match candidates with
      | [] => Error (OnlyWindows (map spec_Name (List.filter (fun r => spec_OS r =? OSWindows) eligible)))
      | first :: _ => Ok (default first (find (fun r => spec_OS r =? OSLinux) candidates))
      end
  end.
Definition CrossProviderBacklog (project backlog : string) : bool :=
  (project =? "ado") && ((backlog =? "github") || (backlog =? "gitea")).
Definition runs_on_self (r : RunnerSpec) : bool := bool_decide (HostKind r = RunnerHostSelf).
Definition SelectStageRunner (gaggle : GaggleSpec) (ledgerTouching : bool) (eligible : list RunnerSpec) : result selection_error RunnerSpec :=
  if CrossProviderBacklog (project_Provider gaggle) (backlog_Provider gaggle) then
    match SelectRunner ledgerTouching (List.filter runs_on_self eligible) with
    | Ok selected => Ok selected
    | Error _ => SelectRunner ledgerTouching eligible
    end
  else SelectRunner ledgerTouching eligible.

Definition QueuePrefix : string := "goobers-dispatch".
Definition QueueName (gaggle runnerName : string) : string := QueuePrefix +:+ "." +:+ gaggle +:+ "." +:+ runnerName.
Definition Queues (gaggles : list string) (runners : list RunnerSpec) : list string :=
  sort_strings (concat (map (fun gaggle => map (fun r => QueueName gaggle (spec_Name r)) (List.filter (fun r => negb (runs_on_self r)) runners)) gaggles)).

(** ** Pins *)

Record PinnedPlacement := mkPin {
  pin_Stage : string; pin_Self : bool; Queue : string; pin_Eligible : list RunnerSpec; LedgerTouching : bool;
  pin_CPU : string; pin_Memory : string; pin_Disk : string; pin_Restrictions : list string; pin_Capabilities : list string
}.

Definition ledgerTouchingActions : list string := ["claim-backlog-items"; "release-backlog-claim"; "release-pr-claim"].
Definition taskLedgerTouching (task : Task) : bool := existsb (fun a => mem_string a ledgerTouchingActions) (PolicyActions task).

Definition stageKindsWithPodExecution : list string := ["shell"; "ci-poll"; "external-telemetry"].
Definition stageCommandsRequiringInstanceRoot : list string := ["reconcile-branches"].
Definition StageInvokesGoobersCLI (command : list string) : bool := match command with c :: _ => c =? "goobers" | [] => false end.
Definition StageRequiresInstanceRoot (cmd : list string) (kind : string) : bool :=
  if negb (kind =? "") && negb (mem_string kind stageKindsWithPodExecution) then true
  else if negb (StageInvokesGoobersCLI cmd) then false
  else match cmd with _ :: sub :: _ => mem_string sub stageCommandsRequiringInstanceRoot | _ => false end.
Definition selfDeniedInstanceRootTask (c : Config) (task : Task) : bool :=
  cfg_SelfExecutionDenied c
  && match task_Run task with Some run => StageRequiresInstanceRoot (Command run) (TrimSpace (default "" (Inputs task !! "kind"))) | None => false end.

Section pins.
Context {Q : Quantities}.

Inductive pin_error :=
| PinPlacement (err : placement_error) | PinHost (runner : string) (err : host_error)
| RequirementRepeated (stage : string) | InstanceRootTask (stage : string) | TaskRepeated (stage : string) | GateRepeated (stage : string)
| CannotPlace (stage : string) (why : diagnostic) | RequirementUnknown (stage : string) | StageUnknownPin (stage : string)
| RunnerUnknown (stage runner : string) | CannotSelect (stage : string) (err : selection_error).

Definition placementPinInventory (hostOS : string) (cfg : option Config) : option Inventory :=
  match cfg with
  | None => None
  | Some c =>
      if (length (cfg_Runners c) =? 0)%nat && negb (HasIsolationMandates c) && negb (cfg_SelfExecutionDenied c) then None
      else
        let inv := PlacementInventory c hostOS in
        if negb (LocalMode inv) || HasIsolationMandates c || cfg_SelfExecutionDenied c then Some inv else None
  end.
Definition childPlacementPinInventory (hostOS : string) (cfg : option Config) (requireLocalPins : bool) : option Inventory :=
  match cfg with
  | Some c => if requireLocalPins then Some (PlacementInventory c hostOS) else placementPinInventory hostOS cfg
  | None => placementPinInventory hostOS cfg
  end.

(** The runner specs by name; the first entry that has none is the error. *)
Fixpoint runner_specs (entries : list RunnerEntry) (specs : gmap string RunnerSpec) : result pin_error (gmap string RunnerSpec) :=
  match entries with
  | [] => Ok specs
  | e :: entries =>
      match SpecFromEntry e with
      | Error err => Error (PinHost (entry_Name e) err)
      | Ok spec => runner_specs entries (<[spec_Name spec := spec]> specs)
      end
  end.
(** A table by name; the first element that fails its check or repeats a name is the error. *)
Fixpoint named_table {A V} (check : A -> option pin_error) (repeated : string -> pin_error) (name : A -> string) (value : A -> V) (l : list A) (m : gmap string V)
    : result pin_error (gmap string V) :=
  match l with
  | [] => Ok m
  | x :: l =>
      match check x with
      | Some err => Error err
      | None =>
          if bool_decide (is_Some (m !! name x)) then Error (repeated (name x))
          else named_table check repeated name value l (<[name x := value x]> m)
      end
  end.
Definition requirement_names : list StageRequirement -> gmap string StageRequirement -> result pin_error (gmap string StageRequirement) :=
  named_table (fun _ => None) RequirementRepeated Stage (fun r => r).
Definition ledger_tasks (c : Config) : list Task -> gmap string bool -> result pin_error (gmap string bool) :=
  named_table (fun t => if selfDeniedInstanceRootTask c t then Some (InstanceRootTask (task_Name t)) else None) TaskRepeated task_Name taskLedgerTouching.
Definition ledger_gates : list Gate -> gmap string bool -> result pin_error (gmap string bool) :=
  named_table (fun _ => None) GateRepeated gate_Name (fun _ => false).
Fixpoint eligible_specs (stage : string) (specs : gmap string RunnerSpec) (names : list string) : result pin_error (list RunnerSpec) :=
  match names with
  | [] => Ok []
  | n :: names =>
      match specs !! n with
      | None => Error (RunnerUnknown stage n)
      | Some spec => try rest <- eligible_specs stage specs names; Ok (spec :: rest)
      end
  end.

Definition pin_for (gaggle : string) (req : StageRequirement) (ledger : bool) (eligible : list RunnerSpec) (selected : RunnerSpec) : PinnedPlacement :=
  if runs_on_self selected then mkPin (Stage req) true "" [] ledger "" "" "" [] []
  else mkPin (Stage req) false (QueueName gaggle (spec_Name selected)) eligible ledger
         (stage_CPU req) (stage_Memory req) (stage_Disk req) (stage_Restrictions req) (stage_Capabilities req).
(** One stage of the solution; [None] is a stage of the control plane. *)
Definition pin_stage (gaggle : string) (gaggleSpec : GaggleSpec) (specs : gmap string RunnerSpec) (requirementFor : gmap string StageRequirement)
    (ledgerFor : gmap string bool) (stage : StagePlacement) : result pin_error (option PinnedPlacement) :=
  match pl_Unsat stage with
  | Some unsat => Error (CannotPlace (pl_Stage stage) (Diagnostic unsat))
  | None =>
      match requirementFor !! pl_Stage stage with
      | None => Error (RequirementUnknown (pl_Stage stage))
      | Some req =>
          if ControlPlane req then Ok None
          else match ledgerFor !! pl_Stage stage with
          | None => Error (StageUnknownPin (pl_Stage stage))
          | Some ledger =>
              try eligible <- eligible_specs (pl_Stage stage) specs (Eligible stage);
              match SelectStageRunner gaggleSpec ledger eligible with
              | Error err => Error (CannotSelect (pl_Stage stage) err)
              | Ok selected => Ok (Some (pin_for gaggle req ledger eligible selected))
              end
          end
      end
  end.
Fixpoint pin_stages (pin : StagePlacement -> result pin_error (option PinnedPlacement)) (stages : list StagePlacement)
    : result pin_error (list PinnedPlacement) :=
  match stages with
  | [] => Ok []
  | s :: stages =>
      try placed <- pin s;
      try rest <- pin_stages pin stages;
      Ok (match placed with Some p => p :: rest | None => rest end)
  end.

Definition no_gaggle : GaggleSpec := mkGaggle false None None "" "".
Definition pinStagePlacements (hostOS : string) (cfg : option Config) (gaggles : list (string * GaggleSpec)) (gooberSpecs : list (string * GooberSpec))
    (gaggle : string) (def : Definition_) (requireLocalPins : bool) : result pin_error (list PinnedPlacement) :=
  match childPlacementPinInventory hostOS cfg requireLocalPins, cfg with
  | Some inventory, Some c =>
      let gaggleSpec := match find (fun g => fst g =? gaggle) gaggles with Some g => snd g | None => no_gaggle end in
      let goobers : gmap string GooberSpec := foldl (fun m g => <[fst g := snd g]> m) ∅ gooberSpecs in
      match IsolationStagePlacements def gaggleSpec goobers (ClassMandates inventory) (SelfExecutionDenied inventory) with
      | Error err => Error (PinPlacement err)
      | Ok requirements =>
          try specs <- runner_specs (ResolvedRunners c) ∅;
          try requirementFor <- requirement_names requirements ∅;
          try tasks <- ledger_tasks c (Tasks (Spec def)) ∅;
          try ledgerFor <- ledger_gates (Gates_ (Spec def)) tasks;
          pin_stages (pin_stage gaggle gaggleSpec specs requirementFor ledgerFor) (Solve inventory requirements)
      end
  | _, _ => Ok []
  end.
Definition PinStagePlacements (hostOS : string) (cfg : option Config) (gaggles : list (string * GaggleSpec)) (gooberSpecs : list (string * GooberSpec))
    (gaggle : string) (def : Definition_) : result pin_error (list PinnedPlacement) :=
  pinStagePlacements hostOS cfg gaggles gooberSpecs gaggle def false.
Definition PinChildStagePlacements (hostOS : string) (cfg : option Config) (gaggles : list (string * GaggleSpec)) (gooberSpecs : list (string * GooberSpec))
    (gaggle : string) (def : Definition_) : result pin_error (list PinnedPlacement) :=
  pinStagePlacements hostOS cfg gaggles gooberSpecs gaggle def true.
End pins.

(** The placement a run dispatches a stage by; [None] is the local path. *)
Definition remotePlacementFor (placements : list PinnedPlacement) (stage : string) : option PinnedPlacement :=
  match find (fun p => pin_Stage p =? stage) placements with
  | Some p => if pin_Self p then None else Some p
  | None => None
  end.
