(* ===== verification/StagePlacementProps.v ===== *)
(** * What pinned placements guarantee

    The requirements of stages composed with the solver and the selection: a run
    starts exactly when every stage has a runner, and each stage is pinned to one
    that meets its declaration, what it needs by construction, the floor of its
    gaggle and the mandates of the instance. *)

From S2P Require Export StagePlacement.
Local Open Scope string_scope.
Local Open Scope list_scope.
Local Open Scope goobers_scope.

(** ** Patterns *)

Inductive denotes : pattern -> list N -> Prop :=
| denotes_empty : denotes PEmpty []
| denotes_class c b : c b = true -> denotes (PClass c) [b]
| denotes_then p q l r : denotes p l -> denotes q r -> denotes (PThen p q) (l ++ r)
| denotes_left p q l : denotes p l -> denotes (POr p q) l
| denotes_right p q l : denotes q l -> denotes (POr p q) l
| denotes_nil p : denotes (PStar p) []
| denotes_cons p l r : denotes p l -> denotes (PStar p) r -> denotes (PStar p) (l ++ r).

Lemma nullable_spec p : nullable p = true <-> denotes p [].
Proof.
  split.
  - induction p; cbn; rewrite ?andb_true_iff, ?orb_true_iff; try done; try by constructor.
    + intros [? ?]. apply (denotes_then _ _ [] []); auto.
    + intros [?|?]; [apply denotes_left|apply denotes_right]; auto.
  - intros H. remember [] as l eqn:E. induction H; cbn; rewrite ?andb_true_iff, ?orb_true_iff; try done; auto.
    apply app_nil in E as [-> ->]. auto.
Qed.
Lemma p_then_spec p q l : denotes (p_then p q) l <-> denotes (PThen p q) l.
Proof.
  assert (forall q l, denotes (PThen PNone q) l -> False) as H1 by (intros ? ? H; inversion H as [| |? ? ? ? Hn| | | |]; inversion Hn).
  assert (forall p l, denotes (PThen p PNone) l -> False) as H2 by (intros ? ? H; inversion H as [| |? ? ? ? _ Hn| | | |]; inversion Hn).
  assert (forall l, denotes PNone l -> False) as H3 by (intros ? H; inversion H).
  assert (denotes (PThen PEmpty q) l <-> denotes q l) as H4.
  { split; [intros H; inversion H as [| |? ? ? ? He Hq| | | |]; inversion He; by subst|]. intros H. by apply (denotes_then PEmpty q [] l); [constructor|]. }
  destruct p, q; cbn; try done; try (by rewrite H4); split; intros H; exfalso; eauto.
Qed.
Lemma p_or_spec p q l : denotes (p_or p q) l <-> denotes p l \/ denotes q l.
Proof.
  assert (forall l, denotes PNone l -> False) as H1 by (intros ? H; inversion H).
  assert (denotes (POr p q) l <-> denotes p l \/ denotes q l) as H2.
  { split; [intros H; inversion H; auto|]. intros [H|H]; [by apply denotes_left|by apply denotes_right]. }
  destruct p, q; cbn; try exact H2; naive_solver.
Qed.
Lemma star_cons p b l : denotes (PStar p) (b :: l) -> exists l1 l2, l = l1 ++ l2 /\ denotes p (b :: l1) /\ denotes (PStar p) l2.
Proof.
  intros H. remember (PStar p) as q eqn:Eq. remember (b :: l) as k eqn:Ek. revert l Ek. induction H as [| | | | | |p' l1 l2 H1 _ H2 IH]; try done. injection Eq as ->. intros l Ek.
  destruct l1 as [|c l1]; [by apply IH|]. injection Ek as -> <-. eauto.
Qed.
Lemma derive_spec b p : forall l, denotes (derive b p) l <-> denotes p (b :: l).
Proof.
  assert (forall q l, denotes PNone l -> denotes q l) as Hnone by (intros ? ? H; inversion H).
  induction p as [| |c|p IHp q IHq|p IHp q IHq|p IHp]; intros l; cbn.
  - split; intros H; inversion H.
  - split; intros H; inversion H.
  - destruct (c b) eqn:E; split; intros H; inversion H; subst; [by constructor|by constructor|congruence].
  - assert (denotes (PThen (derive b p) q) l \/ nullable p = true /\ denotes (derive b q) l <-> denotes (PThen p q) (b :: l)) as Hthen.
    { rewrite IHq, nullable_spec. split.
      - intros [H|[Hn H]]; [|by apply (denotes_then p q [] (b :: l))]. inversion H as [| |? ? l1 l2 H1 H2| | | |]; subst. apply IHp in H1. by apply (denotes_then p q (b :: l1) l2).
      - intros H. inversion H as [| |? ? l1 l2 H1 H2 | | | |]; subst. destruct l1 as [|c l1]; cbn in *; [subst; auto|]. simplify_eq. left. constructor; [by apply IHp|done]. }
    rewrite <- Hthen. destruct (nullable p); [rewrite p_or_spec|]; rewrite p_then_spec; naive_solver.
  - rewrite p_or_spec, IHp, IHq. split; [intros [H|H]; [by apply denotes_left|by apply denotes_right]|intros H; inversion H; auto].
  - rewrite p_then_spec. split.
    + intros H. inversion H as [| |? ? l1 l2 H1 H2| | | |]; subst. apply IHp in H1. by apply (denotes_cons p (b :: l1) l2).
    + intros (l1 & l2 & -> & H1 & H2)%star_cons. constructor; [by apply IHp|done].
Qed.
(** The matcher decides the language of a pattern. *)
Lemma MatchBytes_spec p bs : MatchBytes p bs = true <-> denotes p bs.
Proof.
  unfold MatchBytes. revert p. induction bs as [|b bs IH]; intros p; cbn; [apply nullable_spec|]. by rewrite IH, derive_spec.
Qed.

(** ** Lists *)

Lemma drop_repeats_elem x l y : y = x \/ y ∈ drop_repeats x l <-> y = x \/ y ∈ l.
Proof.
  revert x. induction l as [|z l IH]; intros x; cbn; [done|]. destruct (String.eqb_spec z x) as [->|]; [rewrite IH; set_solver|].
  rewrite !elem_of_cons. rewrite (IH z). done.
Qed.
Lemma sortedDistinct_elem l y : y ∈ sortedDistinct l <-> y ∈ l.
Proof.
  unfold sortedDistinct. transitivity (y ∈ sort_strings l); [|unfold sort_strings; apply sort_by_elem].
  destruct (sort_strings l) as [|x k]; [done|]. rewrite !elem_of_cons. apply drop_repeats_elem.
Qed.
Lemma no_first_error {A} (l : list (option A)) : first_error l = None <-> forall x, x ∈ l -> x = None.
Proof. induction l as [|[a|] l IH]; cbn; [set_solver| |rewrite IH]; set_solver. Qed.
Lemma with_seen_elem {A B} (f : nat -> list A -> A -> B) pre : forall i seen x post, f (i + length pre)%nat (rev pre ++ seen) x ∈ with_seen f i seen (pre ++ x :: post).
Proof.
  induction pre as [|y pre IH]; intros i seen x post; cbn; [rewrite Nat.add_0_r; by left|]. right. rewrite <- app_assoc, Nat.add_succ_r. apply (IH (S i) (y :: seen)).
Qed.
Lemma NoDup_prefixes {A} (g : A -> string) l : (forall pre x post, l = pre ++ x :: post -> g x ∉ map g pre) -> NoDup (map g l).
Proof.
  induction l as [|x l IH] using rev_ind; intros H; [constructor|]. rewrite map_app. apply NoDup_app. split_and!.
  - apply IH. intros pre y post ->. apply (H pre y (post ++ [x])). by rewrite <- app_assoc.
  - intros y Hy ->%list_elem_of_singleton. by apply (H l x []).
  - apply NoDup_singleton.
Qed.
Lemma concat_all_nil {A} (l : list (list A)) : concat l = [] <-> forall x, x ∈ l -> x = [].
Proof. induction l as [|x l IH]; cbn; [set_solver|]. rewrite app_nil, IH. set_solver. Qed.
Lemma token_problems_nil problem tokens : token_problems problem tokens = [] <-> forall t, t ∈ tokens -> ValidToken t = true.
Proof.
  unfold token_problems. rewrite concat_all_nil. split.
  - intros H t (i & Hi)%list_elem_of_lookup. specialize (H _ ltac:(apply elem_of_lookup_imap; eexists i, t; split; [reflexivity|exact Hi])). cbn in H.
    destruct (ValidateToken t) eqn:E; [done|]. unfold ValidateToken in E. destruct (t =? ""); [done|]. by destruct (ValidToken t).
  - intros H x (i & t & -> & Hi)%elem_of_lookup_imap. specialize (H t ltac:(by eapply list_elem_of_lookup_2)). unfold ValidateToken.
    destruct (String.eqb_spec t "") as [->|]; [done|]. by rewrite H.
Qed.

(** ** Accepted requirements *)

Definition declared_tokens (stage : PlacementStage) : list string := match place_RunsOn stage with Some on => on_Capabilities on | None => [] end.
Definition declared_effects (stage : PlacementStage) : list string := match place_RunsOn stage with Some on => on_Restrictions on | None => [] end.
Definition floor_tokens (floor : option GaggleRunsOn) : list string := match floor with Some f => floor_Capabilities f | None => [] end.
Definition floor_effects (floor : option GaggleRunsOn) : list string := match floor with Some f => floor_Restrictions f | None => [] end.

Lemma effective_tokens stage floor t : t ∈ EffectiveCapabilities stage floor <-> t ∈ Derived stage \/ t ∈ declared_tokens stage \/ t ∈ floor_tokens floor.
Proof. unfold EffectiveCapabilities. rewrite sortedDistinct_elem, !elem_of_app. done. Qed.
Lemma effective_declared stage floor t : t ∈ on_Capabilities (EffectiveRunsOn stage floor) <-> t ∈ declared_tokens stage \/ t ∈ floor_tokens floor.
Proof.
  unfold EffectiveRunsOn, declared_tokens, floor_tokens. destruct floor; cbn; rewrite sortedDistinct_elem, ?elem_of_app; destruct (place_RunsOn stage); cbn; set_solver.
Qed.
Lemma effective_effects stage floor e : e ∈ on_Restrictions (EffectiveRunsOn stage floor) <-> e ∈ declared_effects stage \/ e ∈ floor_effects floor.
Proof.
  unfold EffectiveRunsOn, declared_effects, floor_effects. destruct floor; cbn; rewrite sortedDistinct_elem, ?elem_of_app; destruct (place_RunsOn stage); cbn; set_solver.
Qed.
Lemma derived_is_derived def goobers stage t : stage ∈ placeableStages def goobers -> t ∈ Derived stage -> DerivedTag t = true.
Proof.
  unfold placeableStages. intros [(x & -> & _)%list_elem_of_fmap|(x & -> & _)%list_elem_of_fmap]%elem_of_app; cbn.
  - unfold DerivedCapabilities. repeat case_match; try (by intros ?%not_elem_of_nil); by intros ->%list_elem_of_singleton.
  - unfold DerivedGateCapabilities. repeat case_match; try (by intros ?%not_elem_of_nil); by intros ->%list_elem_of_singleton.
Qed.
(** The rules see every stage that is placed, without what it derives. *)
Definition underived (stage : PlacementStage) : PlacementStage := mkPlaced (place_Kind stage) (place_Name stage) (place_RunsOn stage) [].
Lemma placeable_runs_on def goobers stage : stage ∈ placeableStages def goobers -> underived stage ∈ runsOnStages def.
Proof.
  unfold placeableStages, runsOnStages. rewrite !elem_of_app. intros [(t & -> & Ht)%list_elem_of_fmap|(g & -> & Hg)%list_elem_of_fmap]; [left|right]; apply list_elem_of_fmap; eexists; (split; [reflexivity|]); [done|].
  rewrite list_elem_of_In, filter_In, <- list_elem_of_In in *. destruct Hg as [Hg Hp]. split; [done|]. unfold placed_gate in Hp. by apply andb_true_iff in Hp as [_ ?].
Qed.

Section coherent.
Context {Q : Quantities} (def : Definition_) (floor : option GaggleRunsOn) (goobers : gmap string GooberSpec).

Definition placement_accepted : Prop :=
  runsOnProblems def floor = [] /\ osTokenProblems def floor = [] /\ restrictionProblems def floor = [] /\ gateRunsOnProblems def = [].

(** A requirement that says what the stage and its gaggle declare, in terms the
    instance can be asked about. *)
Record coherent (stage : PlacementStage) (r : StageRequirement) : Prop := {
  coherent_name : Stage r = place_Name stage;
  coherent_os : stage_OS r = "" \/ stage_OS r ∈ runsOnOSValues;
  coherent_own_os on : place_RunsOn stage = Some on -> OS on <> "" -> stage_OS r = OS on;
  coherent_floor_os f : floor = Some f -> floor_OS f <> "" -> stage_OS r = floor_OS f;
  coherent_tokens t : t ∈ stage_Capabilities r <-> t ∈ Derived stage \/ t ∈ declared_tokens stage \/ t ∈ floor_tokens floor;
  coherent_spelling t : t ∈ stage_Capabilities r -> DerivedTag t = true /\ t ∈ Derived stage \/ ValidToken t = true /\ CutPrefix "os=" t = None;
  coherent_effects e : e ∈ stage_Restrictions r <-> e ∈ declared_effects stage \/ e ∈ floor_effects floor;
  coherent_known e : e ∈ stage_Restrictions r -> KnownRestriction e = true /\ (stage_OS r = OSWindows -> DeclarableOnWindows e = true);
  coherent_admin : CapabilityWindowsAdmin ∈ stage_Capabilities r -> stage_OS r = OSWindows;
  coherent_quantity v : v ∈ [stage_CPU r; stage_Memory r; stage_Disk r] -> v = "" \/ exists q, ParseQuantity v = Some q /\ (0 < Sign q)%Z
}.

Lemma valid_os_elem os : validRunsOnOS os = true <-> os ∈ runsOnOSValues.
Proof. apply mem_string_true. Qed.
Lemma quantity_problem_nil stage field v : quantity_problem stage field v = [] -> v = "" \/ exists q, ParseQuantity v = Some q /\ (0 < Sign q)%Z.
Proof.
  unfold quantity_problem. destruct (String.eqb_spec v ""); [auto|]. destruct (ParseQuantity v) as [q|]; [|done]. destruct (Z.leb_spec (Sign q) 0); [done|]. eauto.
Qed.
Lemma floor_accepted f : placement_accepted -> floor = Some f ->
  (floor_OS f = "" \/ floor_OS f ∈ runsOnOSValues) /\
  (forall t, t ∈ floor_Capabilities f -> ValidToken t = true /\ CutPrefix "os=" t = None) /\
  (forall e, e ∈ floor_Restrictions f -> KnownRestriction e = true /\ (floor_OS f = OSWindows -> DeclarableOnWindows e = true)).
Proof.
  intros (H1 & H2 & H3 & _) Ef. rewrite Ef in *. unfold runsOnProblems in H1. apply app_nil in H1 as [[Hos Htok]%app_nil _].
  unfold osTokenProblems in H2. apply app_nil in H2 as [H2 _]. unfold restrictionProblems in H3. apply app_nil in H3 as [H3 H4]. apply app_nil in H4 as [_ [H4 _]%app_nil].
  rewrite WorkflowProps.concat_nil in H2, H3. split_and!.
  - destruct (String.eqb_spec (floor_OS f) ""); [auto|]. right. apply valid_os_elem. by destruct (validRunsOnOS (floor_OS f)).
  - intros t Ht. split; [by eapply token_problems_nil in Htok|]. specialize (H2 t Ht). unfold os_token in H2. by destruct (CutPrefix "os=" t).
  - intros e He. specialize (H3 e He). unfold unknown_problem in H3. destruct (KnownRestriction e) eqn:Ek; [|done]. split; [done|]. intros Ew.
    unfold reported_at_floor in H4. rewrite Ew, String.eqb_refl in H4. destruct (DeclarableOnWindows e) eqn:Ed; [done|].
    assert (e ∈ List.filter undeclarable (floor_Restrictions f)) as Hin; [|destruct (List.filter _ _); [by apply not_elem_of_nil in Hin|done]].
    rewrite list_elem_of_In, filter_In, <- list_elem_of_In. split; [done|]. unfold undeclarable. by rewrite Ek, Ed.
Qed.
Lemma stage_accepted stage on : placement_accepted -> underived stage ∈ runsOnStages def -> place_RunsOn stage = Some on ->
  (OS on = "" \/ OS on ∈ runsOnOSValues) /\ (forall f, floor = Some f -> OS on <> "" -> floor_OS f <> "" -> OS on = floor_OS f) /\
  (forall t, t ∈ on_Capabilities on -> ValidToken t = true /\ CutPrefix "os=" t = None) /\
  (forall e, e ∈ on_Restrictions on -> KnownRestriction e = true) /\
  (forall v, v ∈ [CPU on; Memory on; Disk on] -> v = "" \/ exists q, ParseQuantity v = Some q /\ (0 < Sign q)%Z).
Proof.
  intros Hacc Hs Hon. pose proof (floor_accepted) as Hfl. specialize (fun f => Hfl f Hacc). destruct Hacc as (H1 & H2 & H3 & _).
  unfold runsOnProblems in H1. apply app_nil in H1 as [_ [H1 _]%app_nil]. rewrite WorkflowProps.concat_nil in H1. specialize (H1 _ Hs). unfold stage_runs_on_problems in H1. cbn [underived place_RunsOn] in H1. rewrite Hon in H1.
  apply app_nil in H1 as [Hos H1]. apply app_nil in H1 as [Hconf H1]. apply app_nil in H1 as [Hcpu H1]. apply app_nil in H1 as [Hmem H1]. apply app_nil in H1 as [Hdisk Htok].
  unfold osTokenProblems in H2. apply app_nil in H2 as [_ H2]. rewrite WorkflowProps.concat_nil in H2. specialize (H2 _ Hs). cbn [underived place_RunsOn] in H2. rewrite Hon, WorkflowProps.concat_nil in H2.
  unfold restrictionProblems in H3. apply app_nil in H3 as [_ [H3 _]%app_nil]. rewrite WorkflowProps.concat_nil in H3. specialize (H3 _ Hs). cbn [underived place_RunsOn] in H3. rewrite Hon, WorkflowProps.concat_nil in H3.
  assert (OS on = "" \/ validRunsOnOS (OS on) = true) as Hv by (destruct (String.eqb_spec (OS on) ""); [auto|]; destruct (validRunsOnOS (OS on)); auto; done).
  split_and!.
  - rewrite <- valid_os_elem. done.
  - intros f Ef Ho Hf. destruct (Hfl f Ef) as ([?|Hvf%valid_os_elem] & _); [done|]. destruct Hv as [|Hv]; [done|]. rewrite Ef in Hconf. cbn [floorOS] in Hconf.
    rewrite (proj2 (String.eqb_neq _ _) Ho), (proj2 (String.eqb_neq _ _) Hf), Hv, Hvf in Hconf. destruct (String.eqb_spec (OS on) (floor_OS f)); [done|done].
  - intros t Ht. split; [by eapply token_problems_nil in Htok|]. specialize (H2 t Ht). unfold os_token in H2. by destruct (CutPrefix "os=" t).
  - intros e He. specialize (H3 e He). unfold unknown_problem in H3. by destruct (KnownRestriction e).
  - intros v Hv'. rewrite !elem_of_cons in Hv'. destruct Hv' as [->|[->|[->|?%not_elem_of_nil]]]; [..|done]; by eapply quantity_problem_nil.
Qed.
Lemma effective_os stage : OS (EffectiveRunsOn stage floor) = let own := default no_runs_on (place_RunsOn stage) in if OS own =? "" then floorOS floor else OS own.
Proof. unfold EffectiveRunsOn. destruct floor; cbn; [done|]. destruct (String.eqb_spec (OS (default no_runs_on (place_RunsOn stage))) "") as [->|]; done. Qed.
Lemma effective_quantities stage v : v ∈ [CPU (EffectiveRunsOn stage floor); Memory (EffectiveRunsOn stage floor); Disk (EffectiveRunsOn stage floor)] ->
  v = "" \/ exists on, place_RunsOn stage = Some on /\ v ∈ [CPU on; Memory on; Disk on].
Proof. unfold EffectiveRunsOn. destruct floor, (place_RunsOn stage) as [on|]; cbn; intros H; [right; eauto|left; set_solver|right; eauto|left; set_solver]. Qed.

(** What the rules on Windows leave. *)
Lemma windows_accepted stage : placement_accepted -> underived stage ∈ runsOnStages def -> OS (EffectiveRunsOn stage floor) = OSWindows ->
  forall e, e ∈ on_Restrictions (EffectiveRunsOn stage floor) -> KnownRestriction e = true -> DeclarableOnWindows e = true.
Proof.
  intros Hacc Hs Hw e He Hk. pose proof (floor_accepted) as Hfl. specialize (fun f => Hfl f Hacc). destruct Hacc as (_ & _ & H3 & _). unfold restrictionProblems in H3. apply app_nil in H3 as [_ H3]. apply app_nil in H3 as [_ H3].
  unfold windowsRestrictionProblems in H3. apply app_nil in H3 as [Hr H3]. rewrite WorkflowProps.concat_nil in H3. specialize (H3 _ Hs). unfold stage_windows_problems in H3.
  change (EffectiveRunsOn (underived stage) floor) with (EffectiveRunsOn stage floor) in H3. rewrite Hw, String.eqb_refl in H3. cbn [negb] in H3.
  destruct (DeclarableOnWindows e) eqn:Ed; [done|]. set (P := fun t => negb (mem_string t (reported_at_floor floor)) && undeclarable t) in H3.
  assert (e ∈ List.filter P (on_Restrictions (EffectiveRunsOn stage floor))) as Hin; [|destruct (List.filter P _); [by apply not_elem_of_nil in Hin|done]].
  rewrite list_elem_of_In, filter_In, <- list_elem_of_In. split; [done|]. unfold P, undeclarable. rewrite Hk, Ed. destruct (reported_at_floor floor) as [|x l] eqn:Er; [done|]. done.
Qed.
Lemma admin_accepted stage : placement_accepted -> underived stage ∈ runsOnStages def -> CapabilityWindowsAdmin ∈ on_Capabilities (EffectiveRunsOn stage floor) ->
  OS (EffectiveRunsOn stage floor) = OSWindows.
Proof.
  intros (H1 & _) Hs Ha. unfold runsOnProblems in H1. apply app_nil in H1 as [_ [_ H1]%app_nil]. unfold windowsAdminProblems in H1. destruct (floor_admin floor); [done|].
  rewrite WorkflowProps.concat_nil in H1. specialize (H1 _ Hs). unfold stage_admin_problem in H1. change (EffectiveRunsOn (underived stage) floor) with (EffectiveRunsOn stage floor) in H1.
  apply mem_string_true in Ha. unfold HasWindowsAdmin in H1. rewrite Ha in H1. cbn [negb orb] in H1. by destruct (String.eqb_spec (OS (EffectiveRunsOn stage floor)) OSWindows).
Qed.

Lemma requirement_coherent stage : placement_accepted -> stage ∈ placeableStages def goobers -> coherent stage (stage_requirement floor stage).
Proof.
  intros Hacc Hs. pose proof (placeable_runs_on _ _ _ Hs) as Hrun. pose proof (stage_accepted stage) as Hst. specialize (fun on => Hst on Hacc Hrun). pose proof floor_accepted as Hfl. specialize (fun f => Hfl f Hacc).
  unfold stage_requirement. split; cbn.
  - done.
  - rewrite effective_os. cbn. destruct (place_RunsOn stage) as [on|]; cbn; [destruct (Hst on eq_refl) as ([->|?] & _); cbn|].
    + destruct floor as [f|]; cbn; [apply (Hfl f eq_refl)|auto].
    + destruct (String.eqb_spec (OS on) ""); [|auto]. destruct floor as [f|]; cbn; [apply (Hfl f eq_refl)|auto].
    + destruct floor as [f|]; cbn; [apply (Hfl f eq_refl)|auto].
  - intros on Hon Ho. rewrite effective_os. cbn. rewrite Hon. cbn. by rewrite (proj2 (String.eqb_neq _ _) Ho).
  - intros f Ef Hf. rewrite effective_os. cbn. rewrite Ef. cbn. destruct (place_RunsOn stage) as [on|]; cbn; [|done]. destruct (String.eqb_spec (OS on) ""); [done|]. destruct (Hst on eq_refl) as (_ & H & _). auto.
  - apply effective_tokens.
  - intros t [Hd|Ht]%effective_tokens; [left; split; [by eapply derived_is_derived|done]|]. right. destruct Ht as [Ht|Ht]; [unfold declared_tokens in Ht|unfold floor_tokens in Ht].
    + destruct (place_RunsOn stage) as [on|]; [|by apply not_elem_of_nil in Ht]. destruct (Hst on eq_refl) as (_ & _ & H & _). auto.
    + destruct floor as [f|]; [|by apply not_elem_of_nil in Ht]. destruct (Hfl f eq_refl) as (_ & H & _). auto.
  - apply effective_effects.
  - intros e He. assert (KnownRestriction e = true) as Hk; [|split; [done|]; intros Hw; by apply (windows_accepted stage)].
    apply effective_effects in He as [He|He]; [unfold declared_effects in He|unfold floor_effects in He].
    + destruct (place_RunsOn stage) as [on|]; [|by apply not_elem_of_nil in He]. destruct (Hst on eq_refl) as (_ & _ & _ & H & _). auto.
    + destruct floor as [f|]; [|by apply not_elem_of_nil in He]. destruct (Hfl f eq_refl) as (_ & _ & H). by apply H.
  - intros [Hd|Ha]%effective_tokens; [by apply (derived_is_derived _ _ _ _ Hs) in Hd|]. apply (admin_accepted stage); [done|done|]. by apply effective_declared.
  - intros v Hv. apply effective_quantities in Hv as [->|(on & Hon & Hv)]; [auto|]. destruct (Hst on Hon) as (_ & _ & _ & _ & H). auto.
Qed.

(** C36: In an accepted workflow every requirement handed to the solver is coherent:
    it names a known operating system or none, and keeps the one the stage declares
    and the one its gaggle declares; its capabilities are exactly those derived,
    declared and in the floor, authors never spell a derived tag or an operating
    system; its effects are exactly those declared and in the floor, all known, and
    on Windows all bindable; administrator rights are asked only of Windows; and
    quantities are positive. *)
Theorem accepted_placement_is_coherent :
  placement_accepted -> Forall2 coherent (placeableStages def goobers) (StagePlacements def floor goobers).
Proof.
  intros Hacc. unfold StagePlacements. assert (forall stage, stage ∈ placeableStages def goobers -> coherent stage (stage_requirement floor stage)) as H by (intros; by apply requirement_coherent).
  induction (placeableStages def goobers) as [|s l IH]; [constructor|]. constructor; [apply H; by left|]. apply IH. intros; apply H; by right.
Qed.
End coherent.

Lemma Forall2_impl_elem {A B} (R S : A -> B -> Prop) l k : Forall2 R l k -> (forall x y, x ∈ l -> R x y -> S x y) -> Forall2 S l k.
Proof. induction 1 as [|x y l k H _ IH]; intros HS; constructor; [apply HS; [by left|done]|]. apply IH. intros. apply HS; [by right|done]. Qed.

(** ** Selection *)

Lemma default_find_elem {A} (P : A -> bool) x l : default x (find P (x :: l)) ∈ x :: l.
Proof. destruct (find P (x :: l)) as [y|] eqn:E; [apply find_some in E as [E _]; by apply list_elem_of_In|by left]. Qed.
Lemma SelectRunner_ok ledger eligible selected : SelectRunner ledger eligible = Ok selected -> selected ∈ eligible /\ (ledger = true -> spec_OS selected <> OSWindows).
Proof.
  unfold SelectRunner. destruct eligible as [|e0 l0] eqn:El; [done|]. rewrite <- El. clear El e0 l0. set (candidates := if ledger then _ else _).
  assert (forall r, r ∈ candidates -> r ∈ eligible /\ (ledger = true -> spec_OS r <> OSWindows)) as Hc.
  { intros r. unfold candidates. destruct ledger; [|done]. rewrite list_elem_of_In, filter_In, <- list_elem_of_In. intros [? H%negb_true_iff%String.eqb_neq]. auto. }
  destruct candidates as [|first l]; [done|]. intros [= <-]. apply Hc. apply (default_find_elem (fun r => spec_OS r =? OSLinux)).
Qed.
Lemma SelectStageRunner_ok gaggle ledger eligible selected : SelectStageRunner gaggle ledger eligible = Ok selected ->
  selected ∈ eligible /\ (ledger = true -> spec_OS selected <> OSWindows).
Proof.
  unfold SelectStageRunner. destruct (CrossProviderBacklog _ _); [|apply SelectRunner_ok]. destruct (SelectRunner ledger (List.filter runs_on_self eligible)) as [s|] eqn:E; [|apply SelectRunner_ok].
  intros [= <-]. apply SelectRunner_ok in E as [H ?]. split; [|done]. apply list_elem_of_In, filter_In in H as [? _]. by apply list_elem_of_In.
Qed.

(** ** The tables of a pinning *)

Section tables.
Context {Q : Quantities}.

Lemma SpecFromEntry_ok e spec : SpecFromEntry e = Ok spec ->
  spec_Name spec = entry_Name e /\ spec_OS spec = prov_OS (Provides e) /\ runs_on_self spec = is_self e.
Proof.
  unfold SpecFromEntry, ClassifyRunnerHost, is_self, runs_on_self. destruct (String.eqb_spec (entry_Host e) ""); [done|]. destruct (String.eqb_spec (entry_Host e) RunnerHostSelfName) as [E|E].
  - intros [= <-]. done.
  - destruct (existsb _ _); [destruct (MatchString _ _)|destruct (_ || _)]; try done; by intros [= <-].
Qed.
Lemma runner_specs_ok entries : forall specs0 specs, NoDup (map entry_Name entries) -> runner_specs entries specs0 = Ok specs ->
  (forall e, e ∈ entries -> exists spec, SpecFromEntry e = Ok spec /\ specs !! entry_Name e = Some spec) /\
  (forall n, n ∉ map entry_Name entries -> specs !! n = specs0 !! n).
Proof.
  induction entries as [|e entries IH]; intros specs0 specs Hnd; cbn; [intros [= <-]; split; [by intros ? ?%not_elem_of_nil|done]|].
  apply NoDup_cons in Hnd as [Hn Hnd]. destruct (SpecFromEntry e) as [spec|] eqn:Es; [|done]. pose proof (SpecFromEntry_ok _ _ Es) as (Hname & _). rewrite Hname. intros H.
  destruct (IH _ _ Hnd H) as [H1 H2]. split.
  - intros x [->|Hx]%elem_of_cons; [|auto]. exists spec. split; [done|]. rewrite H2 by done. by apply (lookup_insert_eq (M := gmap string)).
  - intros n [Hne Hn']%not_elem_of_cons. rewrite H2 by done. by apply (lookup_insert_ne (M := gmap string)).
Qed.
Lemma named_table_ok {A V} check repeated (name : A -> string) (value : A -> V) l : forall m0 m, named_table check repeated name value l m0 = Ok m ->
  NoDup (map name l) /\ (forall x, x ∈ l -> check x = None /\ m0 !! name x = None /\ m !! name x = Some (value x)) /\ (forall n, n ∉ map name l -> m !! n = m0 !! n).
Proof.
  induction l as [|x l IH]; intros m0 m; cbn; [intros [= <-]; split_and!; [constructor|by intros ? ?%not_elem_of_nil|done]|].
  destruct (check x) eqn:Ed; [done|]. case_bool_decide as Hb; [done|]. intros H. destruct (IH _ _ H) as (H1 & H2 & H3). assert (name x ∉ map name l) as Hn.
  { intros (y & Ey & Hy)%list_elem_of_fmap. destruct (H2 y Hy) as (_ & H2' & _). rewrite <- Ey, (lookup_insert_eq (M := gmap string)) in H2'. done. }
  split_and!; [by constructor| |].
  - intros y [->|Hy]%elem_of_cons.
    + split_and!; [done|by apply eq_None_not_Some|]. rewrite H3 by done. by apply (lookup_insert_eq (M := gmap string)).
    + destruct (H2 y Hy) as (? & H2' & ?). split_and!; [done| |done]. apply (lookup_insert_None (M := gmap string)) in H2' as [? _]. done.
  - intros n [Hne Hn']%not_elem_of_cons. rewrite H3 by done. by apply (lookup_insert_ne (M := gmap string)).
Qed.
End tables.

(** ** Pinning *)

Lemma valid_runners {Q : Quantities} c : validateRunners c = None ->
  NoDup (map entry_Name (ResolvedRunners c)) /\ forall e, e ∈ ResolvedRunners c -> result_is_ok (ClassifyRunnerHost (entry_Host e)) = true.
Proof.
  unfold validateRunners, ResolvedRunners. destruct (cfg_Runners c) as [|e0 l0] eqn:El; [intros _; split; [apply NoDup_singleton|by intros e ->%list_elem_of_singleton]|]. rewrite <- El. clear El e0 l0.
  destruct (_ <? _)%Z; [done|]. destruct (0 <? _)%nat; [done|]. rewrite no_first_error. intros H.
  assert (forall pre e post, cfg_Runners c = pre ++ e :: post -> entry_Name e ∉ map entry_Name pre /\ result_is_ok (ClassifyRunnerHost (entry_Host e)) = true) as Hall.
  { intros pre e post E. rewrite E in H. specialize (H _ (with_seen_elem _ pre 0 [] e post)). unfold validate_entry in H. destruct (entry_Name e =? ""); [done|]. destruct (negb (validSecretStoreName _)); [done|].
    destruct (mem_string (entry_Name e) _) eqn:Em; [done|]. apply mem_string_false in Em. rewrite app_nil_r, map_rev in Em. split; [|by destruct (ClassifyRunnerHost (entry_Host e))].
    intros Hin. apply Em. apply list_elem_of_In, in_rev. rewrite rev_involutive. by apply list_elem_of_In. }
  split; [apply NoDup_prefixes; intros; by eapply Hall|]. intros e (pre & post & E)%list_elem_of_split. by eapply Hall.
Qed.

Lemma solveStage_name {Q : Quantities} inv row lm : pl_Stage (solveStage inv row lm) = Stage row.
Proof. unfold solveStage. destruct (missing_minimums row), lm; cbn zeta; try done; by destruct (map (fun m => run_Name (runner m)) _). Qed.
Lemma pin_stages_ok {Q : Quantities} pin stages pins : pin_stages pin stages = Ok pins -> exists rs, Forall2 (fun s r => pin s = Ok r) stages rs /\ pins = omap id rs.
Proof.
  revert pins. induction stages as [|s stages IH]; intros pins; cbn; [intros [= <-]; by exists []|]. destruct (pin s) as [r|] eqn:Er; cbn; [|done].
  destruct (pin_stages pin stages) as [rest|] eqn:Es; cbn; [|done]. intros [= <-]. destruct (IH rest eq_refl) as (rs & H & ->). exists (r :: rs). split; [by constructor|]. by destruct r.
Qed.
Lemma eligible_specs_ok {Q : Quantities} stage specs names l : eligible_specs stage specs names = Ok l -> forall s, s ∈ l -> exists n, n ∈ names /\ specs !! n = Some s.
Proof.
  revert l. induction names as [|n names IH]; intros l; cbn; [intros [= <-]; by intros s ?%not_elem_of_nil|]. destruct (specs !! n) as [spec|] eqn:Es; [|done].
  destruct (eligible_specs stage specs names) as [rest|]; cbn; [|done]. intros [= <-] s [->|Hs]%elem_of_cons; [exists n; split; [by left|done]|]. destruct (IH rest eq_refl s Hs) as (n' & ? & ?). exists n'. split; [by right|done].
Qed.

(** ** The stages a version places *)

(** A task of a workflow before DSL 3.0: only the capabilities it and its gaggle
    require, no operating system, no effects, nothing derived. *)
Definition legacy_stage (gaggle : GaggleSpec) (task : Task) : PlacementStage :=
  mkPlaced stageKindTask (task_Name task) (Some (mkRunsOn "" "" "" "" (preV30Capabilities gaggle task) [])) [].
(** The version places stages by [runsOn]. *)
Definition distributed (def : Definition_) : bool :=
  match interpreterForVersion (DSLVersion def) with Some (v30Interpreter | v31Interpreter) => true | _ => false end.
Definition placedStages (def : Definition_) (gaggle : GaggleSpec) (goobers : gmap string GooberSpec) : list PlacementStage :=
  if distributed def then placeableStages def goobers else map (legacy_stage gaggle) (Tasks (Spec def)).
Definition placement_row (def : Definition_) (floor : option GaggleRunsOn) (stage : PlacementStage) : StageRequirement :=
  if distributed def then stage_requirement floor stage
  else mkStage (place_Name stage) "" false false "" "" "" "" (declared_tokens stage) [].
(** The version is supported, and the workflow and its gaggle declare only what it
    has. *)
Definition surface_accepted (def : Definition_) (gaggle : GaggleSpec) : Prop :=
  match interpreterForVersion (DSLVersion def) with
  | None => False
  | Some (v20Interpreter | v21Interpreter) => refusePreV30Surface def gaggle = []
  | Some (v30Interpreter | v31Interpreter) => gaggleFeatures gaggle = None
  end.

(** The tokens of a task before 3.0 are those it and its gaggle require. *)
Lemma legacy_tokens gaggle task t :
  t ∈ declared_tokens (legacy_stage gaggle task) <-> t ∈ required_tokens (RequiredCapabilities task) \/ t ∈ required_tokens (gaggle_RequiredCapabilities gaggle).
Proof.
  unfold legacy_stage, declared_tokens, preV30Capabilities. cbn. generalize (required_tokens (RequiredCapabilities task)).
  induction (required_tokens (gaggle_RequiredCapabilities gaggle)) as [|x l IH]; intros own; cbn; [set_solver|]. rewrite IH.
  destruct (mem_string x own) eqn:E; [apply mem_string_true in E|]; set_solver.
Qed.

Section pinning.
Context {Q : Quantities} (hostOS : string) (c : Config) (gaggles : list (string * GaggleSpec)) (gooberSpecs : list (string * GooberSpec)) (gaggle : string)
  (def : Definition_) (requireLocalPins : bool).
Let inv : Inventory := PlacementInventory c hostOS.
Let gaggleSpec : GaggleSpec := match find (fun g => fst g =? gaggle) gaggles with Some g => snd g | None => no_gaggle end.
Let goobers : gmap string GooberSpec := foldl (fun m g => <[fst g := snd g]> m) ∅ gooberSpecs.
(** A gaggle has a floor for workflows of DSL 3.0 on; before, one is refused. *)
Let floor : option GaggleRunsOn := if distributed def then gaggle_RunsOn gaggleSpec else None.
Let row_of : PlacementStage -> StageRequirement := placement_row def floor.
Let placed : list PlacementStage := placedStages def gaggleSpec goobers.
Definition placed_rows : list StageRequirement := map row_of placed.
Let pinned : result pin_error (list PinnedPlacement) := pinStagePlacements hostOS (Some c) gaggles gooberSpecs gaggle def requireLocalPins.

(** Operator policy adds classes to the rows, and rows for gates it covers. *)
Definition policy : bool := negb (bool_decide (ClassMandates inv = ∅) && negb (SelfExecutionDenied inv)).
Definition reclass (r : StageRequirement) : StageRequirement := if policy then set_class (stage_classes def) r else r.
Definition control : list StageRequirement :=
  if policy then concat (map (control_rows (stage_classes def) (map Stage placed_rows) (ClassMandates inv) (SelfExecutionDenied inv)) (Gates_ (Spec def))) else [].
Definition requirement_rows : list StageRequirement := map reclass placed_rows ++ control.

Lemma workflow_rows :
  (surface_accepted def gaggleSpec -> workflowStagePlacements def gaggleSpec goobers = Ok placed_rows) /\
  (forall l, workflowStagePlacements def gaggleSpec goobers = Ok l -> surface_accepted def gaggleSpec).
Proof.
  unfold workflowStagePlacements, surface_accepted, placed_rows, placed, row_of, placement_row, placedStages, floor, distributed.
  destruct (interpreterForVersion (DSLVersion def)) as [[]|]; cbn; [| | | |split; [by intros []|done]].
  1, 2: unfold preV30StagePlacements; split; [intros ->; by rewrite map_map|intros l; by destruct (refusePreV30Surface def gaggleSpec)].
  all: unfold v30StagePlacements; split; [by intros ->|intros l; by destruct (gaggleFeatures gaggleSpec)].
Qed.
Lemma isolation_rows : surface_accepted def gaggleSpec ->
  IsolationStagePlacements def gaggleSpec goobers (ClassMandates inv) (SelfExecutionDenied inv) = Ok requirement_rows.
Proof.
  intros Hs. unfold IsolationStagePlacements. rewrite (proj1 workflow_rows Hs). unfold requirement_rows, control, reclass, policy.
  destruct (_ && _); cbn [negb]; [by rewrite map_id, app_nil_r|done].
Qed.
Lemma isolation_accepted l :
  IsolationStagePlacements def gaggleSpec goobers (ClassMandates inv) (SelfExecutionDenied inv) = Ok l -> surface_accepted def gaggleSpec /\ l = requirement_rows.
Proof.
  intros H. assert (surface_accepted def gaggleSpec) as Hs; [|split; [done|]; rewrite isolation_rows in H by done; congruence].
  unfold IsolationStagePlacements in H. destruct (workflowStagePlacements def gaggleSpec goobers) as [l'|] eqn:E; [|done]. by apply (proj2 workflow_rows l').
Qed.
(** A row asks what the stage, with its floor, declares. *)
Lemma row_asks stage : stage ∈ placed -> Stage (row_of stage) = place_Name stage /\ ControlPlane (row_of stage) = false /\
  stage_OS (row_of stage) = OS (EffectiveRunsOn stage floor) /\
  (forall t, t ∈ stage_Capabilities (row_of stage) <-> t ∈ Derived stage \/ t ∈ declared_tokens stage \/ t ∈ floor_tokens floor) /\
  (forall x, x ∈ stage_Restrictions (row_of stage) <-> x ∈ declared_effects stage \/ x ∈ floor_effects floor) /\
  (forall r, covers (row_of stage) r <-> covers (stage_requirement floor stage) r).
Proof.
  unfold placed, placedStages, row_of, placement_row, floor. destruct (distributed def); intros Hs.
  - split_and!; try done; [intros t; apply effective_tokens|intros x; apply effective_effects].
  - apply list_elem_of_fmap in Hs as (t & -> & _). split_and!; try done; cbn; set_solver.
Qed.
Lemma reclass_same r : Stage (reclass r) = Stage r /\ ControlPlane (reclass r) = ControlPlane r /\ stage_OS (reclass r) = stage_OS r /\ stage_Capabilities (reclass r) = stage_Capabilities r /\
  stage_Restrictions (reclass r) = stage_Restrictions r /\ (forall x, covers (reclass r) x <-> covers r x).
Proof. unfold reclass. by destruct policy. Qed.
Lemma control_elem r : r ∈ control -> exists g, g ∈ Gates_ (Spec def) /\ r = control_row (gate_Name g) (default "" (stage_classes def !! gate_Name g)).
Proof.
  unfold control. destruct policy; [|by intros ?%not_elem_of_nil]. intros (g & Hg & H)%concat_map_elem. exists g. split; [done|]. unfold control_rows in H.
  destruct (_ && _); [by apply list_elem_of_singleton in H|by apply not_elem_of_nil in H].
Qed.

(** The tables of a pinning that succeeds. *)
Record tables (specs : gmap string RunnerSpec) (ledgerFor : gmap string bool) : Prop := {
  tables_specs e : e ∈ ResolvedRunners c -> exists spec, SpecFromEntry e = Ok spec /\ specs !! entry_Name e = Some spec;
  tables_names : NoDup (map task_Name (Tasks (Spec def)) ++ map gate_Name (Gates_ (Spec def)));
  tables_rows : NoDup (map Stage requirement_rows);
  tables_root t : t ∈ Tasks (Spec def) -> selfDeniedInstanceRootTask c t = false;
  tables_tasks t : t ∈ Tasks (Spec def) -> ledgerFor !! task_Name t = Some (taskLedgerTouching t);
  tables_gates g : g ∈ Gates_ (Spec def) -> ledgerFor !! gate_Name g = Some false
}.
Definition requires (reqs : gmap string StageRequirement) : Prop := forall r, r ∈ requirement_rows -> reqs !! Stage r = Some r.
Lemma pinned_inventory i : childPlacementPinInventory hostOS (Some c) requireLocalPins = Some i -> i = inv.
Proof. unfold childPlacementPinInventory, placementPinInventory. repeat case_match; by intros [= <-]. Qed.
Lemma pinned_ok pins : validateRunners c = None -> childPlacementPinInventory hostOS (Some c) requireLocalPins <> None -> pinned = Ok pins ->
  exists specs ledgerFor reqs, surface_accepted def gaggleSpec /\ tables specs ledgerFor /\ requires reqs /\
    pin_stages (pin_stage gaggle gaggleSpec specs reqs ledgerFor) (Solve inv requirement_rows) = Ok pins.
Proof.
  intros Hv Hi. unfold pinned, pinStagePlacements. destruct (childPlacementPinInventory hostOS (Some c) requireLocalPins) as [i|] eqn:Ei; [|done]. apply pinned_inventory in Ei as ->. fold gaggleSpec goobers.
  destruct (IsolationStagePlacements _ _ _ _ _) as [l|] eqn:Eiso; [|done]. apply isolation_accepted in Eiso as [Hacc ->]. destruct (runner_specs (ResolvedRunners c) ∅) as [specs|] eqn:Es; cbn [result_bind]; [|done].
  destruct (requirement_names requirement_rows ∅) as [reqs|] eqn:Er; cbn [result_bind]; [|done]. destruct (ledger_tasks c (Tasks (Spec def)) ∅) as [tasks|] eqn:Et; cbn [result_bind]; [|done].
  destruct (ledger_gates (Gates_ (Spec def)) tasks) as [ledgerFor|] eqn:Eg; cbn [result_bind]; [|done]. intros Hp. exists specs, ledgerFor, reqs.
  destruct (valid_runners c Hv) as [Hnd _]. apply runner_specs_ok in Es as [Hs _]; [|done]. apply named_table_ok in Er as (Hr1 & Hr2 & _), Et as (Ht1 & Ht2 & Ht3), Eg as (Hg1 & Hg2 & Hg3).
  assert (forall t g, t ∈ Tasks (Spec def) -> g ∈ Gates_ (Spec def) -> task_Name t <> gate_Name g) as Hne.
  { intros t g Ht Hg E. destruct (Hg2 g Hg) as (_ & Hn & _), (Ht2 t Ht) as (_ & _ & Hl). rewrite E in Hl. congruence. }
  split_and!; [done| |intros r Hr; by apply Hr2|done]. split; [done| |done| | |].
  - apply NoDup_app. split_and!; [done| |done]. intros n (t & -> & Ht)%list_elem_of_fmap (g & E & Hg)%list_elem_of_fmap. by eapply Hne.
  - intros t Ht. destruct (Ht2 t Ht) as (H & _). by destruct (selfDeniedInstanceRootTask c t).
  - intros t Ht. rewrite Hg3; [by apply Ht2|]. intros (g & E & Hg)%list_elem_of_fmap. by eapply Hne.
  - intros g Hg. by apply Hg2.
Qed.

(** The runner a pin leads to. *)
Definition routes (pin : PinnedPlacement) (e : RunnerEntry) : Prop := pin_Self pin = is_self e /\ (is_self e = false -> Queue pin = QueueName gaggle (entry_Name e)).
Lemma takes_entry row r : takes inv (LocalMode inv) row r -> exists e, e ∈ ResolvedRunners c /\ r = placement_runner hostOS e.
Proof. intros [Hr _]. cbn in Hr. apply list_elem_of_fmap in Hr as (e & -> & He). eauto. Qed.
Lemma pin_stage_ok specs ledgerFor reqs row res : tables specs ledgerFor -> requires reqs -> NoDup (map entry_Name (ResolvedRunners c)) -> row ∈ requirement_rows ->
  pin_stage gaggle gaggleSpec specs reqs ledgerFor (solveStage inv row (LocalMode inv)) = Ok res ->
  (exists r, takes inv (LocalMode inv) row r) /\
  (ControlPlane row = true /\ res = None \/
   ControlPlane row = false /\ exists pin e ledger, res = Some pin /\ e ∈ ResolvedRunners c /\ takes inv (LocalMode inv) row (placement_runner hostOS e) /\
     pin_Stage pin = Stage row /\ routes pin e /\ ledgerFor !! Stage row = Some ledger /\ LedgerTouching pin = ledger /\ (ledger = true -> prov_OS (Provides e) <> OSWindows)).
Proof.
  intros T Hreq Hnd Hrow. unfold pin_stage. rewrite solveStage_name. destruct (pl_Unsat _) eqn:Eu; [done|]. apply unsat_spec in Eu. rewrite (Hreq row Hrow).
  assert (exists r, takes inv (LocalMode inv) row r) as Htakes.
  { destruct (Eligible (solveStage inv row (LocalMode inv))) as [|n l] eqn:El; [done|]. destruct (proj1 (eligible_spec inv row (LocalMode inv) n)) as (r & _ & Hr); [rewrite El; by left|]. eauto. }
  split; [done|]. destruct (ControlPlane row); [left; by simplify_eq|]. right. split; [done|]. destruct (ledgerFor !! Stage row) as [ledger|] eqn:El; [|done].
  destruct (eligible_specs _ _ _) as [eligible|] eqn:Ee; cbn [result_bind] in *; [|done]. destruct (SelectStageRunner gaggleSpec ledger eligible) as [selected|] eqn:Es; [|done]. simplify_eq.
  apply SelectStageRunner_ok in Es as [Hin Hw]. destruct (eligible_specs_ok _ _ _ _ Ee selected Hin) as (n & Hn & Hspec). apply eligible_spec in Hn as (r & Hname & Hr). destruct (takes_entry _ _ Hr) as (e & He & ->).
  cbn in Hname. destruct (tables_specs _ _ T e He) as (spec & Hse & Hle). rewrite Hname, Hspec in Hle. injection Hle as <-. destruct (SpecFromEntry_ok _ _ Hse) as (Hsn & Hso & Hss).
  exists (pin_for gaggle row ledger eligible selected), e, ledger. unfold pin_for, routes. rewrite Hss, Hsn, <- Hso. split_and!; try done; by destruct (is_self e).
Qed.
Lemma omap_some {A} (R : StageRequirement -> option A -> Prop) l rs : Forall2 R l rs -> (forall x r, x ∈ l -> R x r -> exists y, r = Some y) ->
  Forall2 (fun x y => R x (Some y)) l (omap id rs).
Proof.
  induction 1 as [|x r l rs Hx Hl IH]; intros H; [constructor|]. destruct (H x r) as [y ->]; [by left|done|]. cbn. constructor; [done|]. apply IH. intros z w Hz. apply H. by right.
Qed.
Lemma omap_none {A} (R : StageRequirement -> option A -> Prop) l rs : Forall2 R l rs -> (forall x r, x ∈ l -> R x r -> r = None) -> omap id rs = [].
Proof. induction 1 as [|x r l rs Hx Hl IH]; intros H; [done|]. rewrite (H x r) by (done || by left). cbn. apply IH. intros z w Hz. apply H. by right. Qed.

(** Every placed stage has its pin, in order; the rest stays in the control plane. *)
Lemma pinned_rows pins specs ledgerFor reqs : tables specs ledgerFor -> requires reqs -> NoDup (map entry_Name (ResolvedRunners c)) ->
  pin_stages (pin_stage gaggle gaggleSpec specs reqs ledgerFor) (Solve inv requirement_rows) = Ok pins ->
  Forall2 (fun row pin => pin_stage gaggle gaggleSpec specs reqs ledgerFor (solveStage inv row (LocalMode inv)) = Ok (Some pin)) (map reclass placed_rows) pins /\
  (forall row, row ∈ requirement_rows -> exists r, takes inv (LocalMode inv) row r).
Proof.
  intros T Hreq Hnd (rs & Hrs & ->)%pin_stages_ok. unfold Solve in Hrs. apply Forall2_fmap_l in Hrs.
  set (R := fun row r => pin_stage gaggle gaggleSpec specs reqs ledgerFor (solveStage inv row (LocalMode inv)) = Ok r). change (Forall2 R requirement_rows rs) in Hrs.
  assert (forall row r, row ∈ requirement_rows -> R row r -> (exists x, takes inv (LocalMode inv) row x) /\ (ControlPlane row = true /\ r = None \/ ControlPlane row = false /\ exists y, r = Some y)) as Hall.
  { intros row r Hrow HR. destruct (pin_stage_ok _ _ _ _ _ T Hreq Hnd Hrow HR) as (? & [?|(? & pin & e & ledger & -> & _)]); eauto. }
  split.
  - unfold requirement_rows in Hrs, Hall. apply Forall2_app_inv_l in Hrs as (rs1 & rs2 & H1 & H2 & ->). rewrite omap_app. rewrite (omap_none _ _ _ H2); [|].
    + rewrite app_nil_r. apply (omap_some R); [done|]. intros row r Hrow Hr. destruct (Hall row r) as (_ & [[Hc _]|[_ ?]]); [apply elem_of_app; by left|done| |done].
      exfalso. apply list_elem_of_fmap in Hrow as (x & -> & Hx). destruct (reclass_same x) as (_ & E & _). rewrite E in Hc. unfold placed_rows in Hx. apply list_elem_of_fmap in Hx as (stage & -> & Hs). destruct (row_asks stage Hs) as (_ & Hcp & _). congruence.
    + intros row r Hrow Hr. destruct (Hall row r) as (_ & [[_ ->]|[Hc _]]); [apply elem_of_app; by right|done|done|]. apply control_elem in Hrow as (g & _ & ->). done.
  - intros row Hrow. apply list_elem_of_lookup in Hrow as [i Hi]. destruct (Forall2_lookup_l _ _ _ _ _ Hrs Hi) as (r & _ & Hr). apply (Hall row r); [by eapply list_elem_of_lookup_2|done].
Qed.

(** The runner of a pin meets what a placed stage asks. *)
Record suited (stage : PlacementStage) (pin : PinnedPlacement) (e : RunnerEntry) : Prop := {
  suited_stage : pin_Stage pin = place_Name stage;
  suited_route : routes pin e;
  suited_os : OS (EffectiveRunsOn stage floor) = "" \/ run_OS (placement_runner hostOS e) = OS (EffectiveRunsOn stage floor);
  suited_tokens t : t ∈ Derived stage \/ t ∈ declared_tokens stage \/ t ∈ floor_tokens floor -> provides (placement_runner hostOS e) t;
  suited_effects x : x ∈ declared_effects stage \/ x ∈ floor_effects floor -> x ∈ entry_Restrictions e;
  suited_resources : LocalMode inv = true \/ covers (stage_requirement floor stage) (placement_runner hostOS e);
  suited_host : cfg_SelfExecutionDenied c = true -> is_self e = false;
  suited_ledger t : t ∈ Tasks (Spec def) -> task_Name t = place_Name stage -> LedgerTouching pin = taskLedgerTouching t /\ (taskLedgerTouching t = true -> prov_OS (Provides e) <> OSWindows)
}.

Lemma pinned_stages pins :
  validateRunners c = None -> childPlacementPinInventory hostOS (Some c) requireLocalPins <> None -> pinned = Ok pins ->
  Forall2 (fun stage pin => exists e, e ∈ ResolvedRunners c /\ suited stage pin e) placed pins.
Proof.
  intros Hv Hi (specs & ledgerFor & reqs & Hg & T & Hreq & Hp)%pinned_ok; [|done|done]. destruct (valid_runners c Hv) as [Hnd _]. destruct (pinned_rows _ _ _ _ T Hreq Hnd Hp) as [HF _].
  unfold placed_rows in HF. rewrite map_map in HF. apply Forall2_fmap_l in HF. eapply Forall2_impl_elem; [exact HF|]. cbn. intros stage pin Hs Hpin.
  set (row := reclass (row_of stage)) in *. assert (row ∈ requirement_rows) as Hrow. { unfold requirement_rows, placed_rows. apply elem_of_app. left. rewrite map_map. by apply (list_elem_of_fmap_2 (fun s => reclass (row_of s))). }
  destruct (reclass_same (row_of stage)) as (E1 & E2 & E3 & E4 & E5 & E6). fold row in E1, E2, E3, E4, E5, E6.
  destruct (row_asks stage Hs) as (A1 & A2 & A3 & A4 & A5 & A6).
  destruct (pin_stage_ok _ _ _ _ _ T Hreq Hnd Hrow Hpin) as (_ & [[Hc _]|(_ & pin' & e & ledger & [= <-] & He & (_ & Hx & Hm & Hq) & Hn & Hro & Hl & Hlp & Hw)]); [congruence|].
  destruct Hm as (Hos & Hcap & Heff). exists e. split; [done|]. split; [congruence|done| | | | | |].
  - rewrite <- A3, <- E3. exact Hos.
  - intros t Ht. apply Hcap. rewrite E4. by apply A4.
  - intros x Hx'. apply (Heff x). left. rewrite E5. by apply A5.
  - destruct Hq as [?|[_ Hcov]]; [auto|]. right. by apply A6, E6.
  - intros Hd. destruct (is_self e) eqn:Es; [|done]. destruct Hx as [_ Hx]. destruct (Hx Hd Es) as [Hcp _]. congruence.
  - intros t Ht Etn. pose proof (tables_tasks _ _ T t Ht) as Hlt. rewrite Etn in Hlt. rewrite E1, A1 in Hl. rewrite Hlt in Hl. injection Hl as <-. done.
Qed.

(** ** When a run starts *)


Lemma reclass_names : map Stage (map reclass placed_rows) = map task_Name (Tasks (Spec def)) ++ map gate_Name (List.filter (fun g => distributed def && placed_gate g) (Gates_ (Spec def))).
Proof.
  unfold placed_rows, placed, placedStages, row_of, placement_row, floor. rewrite !map_map. destruct (distributed def); cbn [andb].
  - unfold placeableStages. rewrite map_app, !map_map. unfold reclass. f_equal; apply map_ext; intros x; by destruct policy.
  - rewrite map_map. assert (forall l : list Gate, List.filter (fun _ => false) l = []) as -> by (intros l; by induction l). rewrite app_nil_r.
    apply map_ext. intros x. unfold reclass. by destruct policy.
Qed.


(** ** Mandates *)

Lemma add_mandate_elem class m r class' x : x ∈ default [] (m !! class') \/ x = r /\ class' = class -> x ∈ default [] (add_mandate class m r !! class').
Proof.
  unfold add_mandate. destruct (mem_string r (default [] (m !! class))) eqn:E; [intros [?|[-> ->]]; [done|by apply mem_string_true]|].
  destruct (decide (class' = class)) as [->|Hne]; [rewrite (lookup_insert_eq (M := gmap string)); cbn; rewrite elem_of_app; set_solver|]. rewrite (lookup_insert_ne (M := gmap string)) by done. naive_solver.
Qed.
Lemma add_mandates_elem class rs : forall m class' x, x ∈ default [] (m !! class') \/ x ∈ rs /\ class' = class -> x ∈ default [] (foldl (add_mandate class) m rs !! class').
Proof. induction rs as [|r rs IH]; intros m class' x; cbn; [set_solver|]. intros H. apply IH. destruct H as [H|[[->|H]%elem_of_cons ->]]; [left; apply add_mandate_elem; auto|left; apply add_mandate_elem; auto|auto]. Qed.
Lemma class_mandates_elem ms mandate x : mandate ∈ ms -> x ∈ mandate_Restrictions mandate -> x ∈ default [] (class_mandates ms !! mandate_StageClass mandate).
Proof.
  unfold class_mandates. intros Hm Hx. assert (forall ms m0, mandate ∈ ms \/ x ∈ default [] (m0 !! mandate_StageClass mandate) ->
    x ∈ default [] (foldl (fun m mandate => foldl (add_mandate (mandate_StageClass mandate)) m (mandate_Restrictions mandate)) m0 ms !! mandate_StageClass mandate)) as H; [|by apply H; left].
  clear Hm. induction ms0 as [|a ms0 IH]; intros m0 H; cbn; [destruct H as [?%not_elem_of_nil|]; done|]. apply IH. destruct H as [[<-|?]%elem_of_cons|?]; [right; apply add_mandates_elem; auto|by left|right; apply add_mandates_elem; auto].
Qed.
Lemma foldl_insert_lookup {A V} (k : A -> string) (v : A -> V) l : forall m : gmap string V, NoDup (map k l) ->
  (forall x, x ∈ l -> foldl (fun m x => <[k x := v x]> m) m l !! k x = Some (v x)) /\ (forall n, n ∉ map k l -> foldl (fun m x => <[k x := v x]> m) m l !! n = m !! n).
Proof.
  induction l as [|y l IH]; intros m; cbn; [intros _; split; [by intros ? ?%not_elem_of_nil|done]|]. intros [Hn Hnd]%NoDup_cons. destruct (IH (<[k y := v y]> m) Hnd) as [H1 H2]. split.
  - intros x [->|Hx]%elem_of_cons; [|auto]. rewrite H2 by done. by apply (lookup_insert_eq (M := gmap string)).
  - intros n [Hne Hn']%not_elem_of_cons. rewrite H2 by done. by apply (lookup_insert_ne (M := gmap string)).
Qed.
(** The class of a task or gate. *)
Definition has_class (name class : string) : Prop :=
  (exists t, t ∈ Tasks (Spec def) /\ task_Name t = name /\ task_class (task_Type t) = class) \/ (exists g, g ∈ Gates_ (Spec def) /\ gate_Name g = name /\ gate_class g = class).
Lemma stage_classes_lookup name class : NoDup (map task_Name (Tasks (Spec def)) ++ map gate_Name (Gates_ (Spec def))) -> has_class name class -> stage_classes def !! name = Some class.
Proof.
  intros (Ht & Htg & Hg)%NoDup_app. unfold stage_classes. set (m := foldl _ ∅ (Tasks (Spec def))). destruct (foldl_insert_lookup gate_Name gate_class (Gates_ (Spec def)) m Hg) as [G1 G2].
  intros [(t & Hin & <- & <-)|(g & Hin & <- & <-)]; [|auto]. rewrite G2 by (apply Htg; by apply list_elem_of_fmap_2). by apply (foldl_insert_lookup task_Name (fun t => task_class (task_Type t)) (Tasks (Spec def)) ∅ Ht).
Qed.
Lemma mandated_inventory m : m ∈ cfg_Mandates c -> childPlacementPinInventory hostOS (Some c) requireLocalPins <> None.
Proof.
  intros Hm. assert (HasIsolationMandates c = true) as Hh by (unfold HasIsolationMandates; destruct (cfg_Mandates c); [by apply not_elem_of_nil in Hm|done]).
  unfold childPlacementPinInventory, placementPinInventory. rewrite Hh. destruct requireLocalPins; [done|]. rewrite andb_false_r. cbn [andb]. rewrite orb_true_r. done.
Qed.
Lemma row_enforces row r class x : StageClass row = class -> x ∈ default [] (ClassMandates inv !! class) -> takes inv (LocalMode inv) row r -> x ∈ run_Restrictions r.
Proof. intros <- Hx (_ & _ & (_ & _ & He) & _). apply He. right. by right. Qed.

(** Some entry that takes the stage enforces the mandate. *)
Lemma mandates_reach_entries pins name class m x :
  validateRunners c = None -> pinned = Ok pins -> has_class name class -> m ∈ cfg_Mandates c -> mandate_StageClass m = class -> x ∈ mandate_Restrictions m ->
  (exists pin e, pin ∈ pins /\ pin_Stage pin = name /\ e ∈ ResolvedRunners c /\ routes pin e /\ x ∈ entry_Restrictions e) \/
  ((forall pin, pin ∈ pins -> pin_Stage pin <> name) /\ exists e, e ∈ ResolvedRunners c /\ is_self e = true /\ x ∈ entry_Restrictions e).
Proof.
  intros Hv Hpin Hclass Hm <- Hx. pose proof (mandated_inventory m Hm) as Hi. destruct (pinned_ok pins Hv Hi Hpin) as (specs & ledgerFor & reqs & Hg & T & Hreq & Hp). destruct (valid_runners c Hv) as [Hnd _].
  destruct (pinned_rows _ _ _ _ T Hreq Hnd Hp) as [HF Htakes]. pose proof (class_mandates_elem _ _ _ Hm Hx) as Hcm. change (class_mandates (cfg_Mandates c)) with (ClassMandates inv) in Hcm.
  pose proof (stage_classes_lookup _ _ (tables_names _ _ T) Hclass) as Hcl.
  assert (policy = true) as Hpol. { unfold policy. case_bool_decide as E; [|done]. rewrite E, lookup_empty in Hcm. by apply not_elem_of_nil in Hcm. }
  assert (forall row, row ∈ map reclass placed_rows -> Stage row = name ->
    exists pin e, pin ∈ pins /\ pin_Stage pin = name /\ e ∈ ResolvedRunners c /\ routes pin e /\ x ∈ entry_Restrictions e) as Hplaced.
  { intros row Hrow <-. assert (row ∈ requirement_rows) as Hr by (unfold requirement_rows; apply elem_of_app; by left). pose proof Hrow as (r0 & Er & _)%list_elem_of_fmap. apply list_elem_of_lookup in Hrow as [i Hrow]. destruct (Forall2_lookup_l _ _ _ _ _ HF Hrow) as (pin & Hpl & Hps).
    destruct (pin_stage_ok _ _ _ _ _ T Hreq Hnd Hr Hps) as (_ & [[_ ?]|(_ & pin' & e & ledger & [= <-] & He & Htk & Hn & Hro & _)]); [done|]. exists pin, e. split_and!; [by eapply list_elem_of_lookup_2|done|done|done|].
    eapply (row_enforces row (placement_runner hostOS e)); [|exact Hcm|done]. rewrite Er in Hcl |- *. unfold reclass in *. rewrite Hpol in *. cbn [set_class Stage StageClass] in *. by rewrite Hcl. }
  destruct (decide (name ∈ map Stage (map reclass placed_rows))) as [(row & -> & Hrow)%list_elem_of_fmap|Hno]; [left; by eapply Hplaced|].
  assert (exists g, g ∈ Gates_ (Spec def) /\ gate_Name g = name) as (g & Hgin & Hgn).
  { destruct Hclass as [(t & Ht & <- & _)|(g & Hgin & Hgn & _)]; [|eauto]. exfalso. apply Hno. rewrite reclass_names. apply elem_of_app. left. by apply list_elem_of_fmap_2. }
  right. split.
  - intros pin [i Hi']%list_elem_of_lookup E. destruct (Forall2_lookup_r _ _ _ _ _ HF Hi') as (row & Hrow & Hps). apply list_elem_of_lookup_2 in Hrow. assert (row ∈ requirement_rows) as Hr by (unfold requirement_rows; apply elem_of_app; by left).
    destruct (pin_stage_ok _ _ _ _ _ T Hreq Hnd Hr Hps) as (_ & [[_ ?]|(_ & pin' & e & ledger & [= <-] & _ & _ & Hn & _)]); [done|]. apply Hno. rewrite <- E, Hn. by apply list_elem_of_fmap_2.
  - assert (control_row name (mandate_StageClass m) ∈ requirement_rows) as Hcr.
    { unfold requirement_rows, control. rewrite Hpol. apply elem_of_app. right. apply concat_map_elem. exists g. split; [done|]. unfold control_rows. rewrite Hgn, Hcl. cbn [default from_option id].
      rewrite map_map in Hno. rewrite (proj2 (mem_string_false _ _)); [|intros H; apply Hno; erewrite map_ext; [exact H|]; intros r; apply reclass_same]. cbn [negb andb].
      destruct (default [] (ClassMandates inv !! mandate_StageClass m)); [by apply not_elem_of_nil in Hcm|]. by left. }
    destruct (Htakes _ Hcr) as [r Hr]. destruct (takes_entry _ _ Hr) as (e & He & ->). exists e. split_and!; [done|by apply Hr|]. by apply (row_enforces (control_row name (mandate_StageClass m)) (placement_runner hostOS e) (mandate_StageClass m) x eq_refl Hcm).
Qed.

(** ** The daemon host *)

(** At most one entry stands for the daemon host. *)
Definition one_self_entry : Prop :=
  forall e e', e ∈ ResolvedRunners c -> e' ∈ ResolvedRunners c -> is_self e = true -> is_self e' = true -> e = e'.
(** The daemon binds the effects of its entry. *)
Lemma self_enforces e x : one_self_entry -> e ∈ ResolvedRunners c -> is_self e = true -> x ∈ entry_Restrictions e -> SelfRunnerEnforces c x = true.
Proof.
  unfold one_self_entry, ResolvedRunners, SelfRunnerEnforces, SelfRunnerRestrictions. intros Hone He Hself Hx. apply mem_string_true.
  destruct (cfg_Runners c) as [|e0 l0] eqn:El; [apply list_elem_of_singleton in He as ->; by apply not_elem_of_nil in Hx|].
  destruct (find is_self (e0 :: l0)) as [e'|] eqn:Ef; [|by eapply find_none in Ef; [|by apply list_elem_of_In]; rewrite Ef in Hself].
  apply find_some in Ef as [Hin Hs']. apply list_elem_of_In in Hin. by rewrite (Hone e' e).
Qed.

(** C21: Operator mandates reach every stage.  When a run starts on an instance with at
    most one entry for the daemon host, each effect that a mandate demands of a class
    is enforced for every task and gate of that class: by the runner off the host that
    it is pinned to, or, for a stage that is pinned to the daemon host or a gate that
    stays in the control plane and has no pin, by what the daemon binds on itself. *)
Theorem mandates_reach_every_stage pins name class m x :
  validateRunners c = None -> one_self_entry -> pinned = Ok pins -> has_class name class ->
  m ∈ cfg_Mandates c -> mandate_StageClass m = class -> x ∈ mandate_Restrictions m ->
  (exists pin e, pin ∈ pins /\ pin_Stage pin = name /\ e ∈ ResolvedRunners c /\ is_self e = false /\ routes pin e /\ x ∈ entry_Restrictions e) \/
  ((exists pin, pin ∈ pins /\ pin_Stage pin = name /\ pin_Self pin = true) \/ (forall pin, pin ∈ pins -> pin_Stage pin <> name)) /\
  SelfRunnerEnforces c x = true.
Proof.
  intros Hv Hone Hpin Hclass Hm Hc Hx.
  destruct (mandates_reach_entries pins name class m x Hv Hpin Hclass Hm Hc Hx) as [(pin & e & Hp & Hn & He & Hr & Hxe)|(Hno & e & He & Hs & Hxe)].
  - destruct (is_self e) eqn:Es; [|left; by exists pin, e]. right. split; [left; exists pin; split_and!; [done|done|]; destruct Hr as [-> _]; done|by eapply self_enforces].
  - right. split; [by right|by eapply self_enforces].
Qed.

(** What a stage pinned to the daemon host asks is what the daemon binds. *)
Lemma self_pins_are_bound pins : validateRunners c = None -> childPlacementPinInventory hostOS (Some c) requireLocalPins <> None -> pinned = Ok pins -> one_self_entry ->
  Forall2 (fun stage pin => pin_Self pin = true -> forall x, x ∈ declared_effects stage \/ x ∈ floor_effects floor -> SelfRunnerEnforces c x = true) placed pins.
Proof.
  intros Hv Hi Hp Hone. eapply Forall2_impl; [by apply pinned_stages|]. cbn. intros stage pin (e & He & Hs) Hself x Hx.
  eapply self_enforces; [done|exact He| |by apply (suited_effects _ _ _ Hs)]. destruct (suited_route _ _ _ Hs) as [<- _]. done.
Qed.
End pinning.

(** ** A run on two runners *)

Module PinExample.
(** Whole numbers of one digit. *)
#[local] Instance digits : Quantities := {
  quantity := Z; ParseQuantity s := match bytes s with [b] => Some (Z.of_N b - 48)%Z | _ => None end; Cmp a b := (a - b)%Z; Sign := Z.sgn
}.
Definition task (name : string) (ty : TaskType) (run : option DeterministicRun) (on : option RunsOn) (actions : list string) : Task :=
  mkTask name ty "coder" false run ∅ "" [] 0 "" [] ∅ WorkspaceUnset "" on [] false None false actions None.
Definition claim_task : Task := task "claim" TaskDeterministic (Some (mkRun ["make"; "claim"] true "" WorkspaceUnset ∅ "")) None ["claim-backlog-items"].
Definition build : Task := task "build" TaskAgentic None (Some (mkRunsOn "windows" "2" "" "" ["dotnet@8"; "privilege=windows-admin"] ["tmp:ephemeral"])) [].
Definition look : Gate :=
  mkGate "look" EvaluatorAgentic None (Some (mkAgentic "critic" None WorkspaceUnset 0)) None {["pass" := ""]} 1 None.
Definition flow : Definition_ := mkDefinition "flow" 1 "3.0" (mkSpec "claim" None [claim_task; build] [look] [] [] false).
Definition the_floor : GaggleRunsOn := mkFloor "" ["git@2"] ["env:default-deny"].
Definition team : GaggleSpec := mkGaggle false None (Some the_floor) "github" "github".
Definition goobers_of : list (string * GooberSpec) := [("coder", mkGoober "codex"); ("critic", mkGoober "")].
Definition daemon : RunnerEntry := mkEntry "daemon" "self" (mkProvides "" "" "" "" ["git@2"] false [] None) ["env:default-deny"; "tmp:ephemeral"].
Definition win : RunnerEntry :=
  mkEntry "win" "ghcr.io/acme/win:1" (mkProvides "windows" "4" "" "" ["git@2"; "dotnet@8"; "privilege=windows-admin"] true ["codex"] (Some true)) ["env:default-deny"; "tmp:ephemeral"].
Definition instance (runners : list RunnerEntry) : Config :=
  mkInstance (Some 2%Z) runners [] "" (Some [mkMandate "agentic" ["tmp:ephemeral"]]) true.
Definition two : Config := instance [daemon; win].
Definition flow_pins : list PinnedPlacement :=
  match pinStagePlacements "linux" (Some two) [("team", team)] goobers_of "team" flow false with Ok pins => pins | Error _ => [] end.

Lemma accepted_placement_is_coherent_witness :
  Forall2 (coherent (Some the_floor)) (placeableStages flow ∅) (StagePlacements flow (Some the_floor) ∅).
Proof. apply accepted_placement_is_coherent. by vm_compute. Defined.



Lemma two_one_self : one_self_entry two.
Proof.
  intros e e' He He' Hs Hs'. assert (forall e, e ∈ [daemon; win] -> is_self e = true -> e = daemon) as H; [|by rewrite (H e), (H e')].
  intros x [->|[->|[]%not_elem_of_nil]%elem_of_cons]%elem_of_cons Hx; [done|by vm_compute in Hx].
Qed.

Lemma mandates_reach_every_stage_witness :
  (exists pin e, pin ∈ flow_pins /\ pin_Stage pin = "look" /\ e ∈ [daemon; win] /\ is_self e = false /\ routes "team" pin e /\ "tmp:ephemeral" ∈ entry_Restrictions e) \/
  ((exists pin, pin ∈ flow_pins /\ pin_Stage pin = "look" /\ pin_Self pin = true) \/ (forall pin, pin ∈ flow_pins -> pin_Stage pin <> "look")) /\
  SelfRunnerEnforces two "tmp:ephemeral" = true.
Proof.
  apply (mandates_reach_every_stage "linux" two [("team", team)] goobers_of "team" flow false flow_pins "look" "agentic" (mkMandate "agentic" ["tmp:ephemeral"]));
    [by vm_compute|apply two_one_self|by vm_compute| |by left|done|by left].
  right. exists look. split_and!; [by left|done|done].
Defined.

(** The loader accepts a second entry for the daemon host.  A stage is then pinned to
    the host by the effects of the second entry, while the daemon binds those of the
    first. *)
Definition bare : RunnerEntry := mkEntry "bare" "self" (mkProvides "" "" "" "" ["git@2"] false [] None) [].
Definition only_claim : Definition_ :=
  mkDefinition "flow" 1 "3.0" (mkSpec "claim" None [task "claim" TaskDeterministic (Some (mkRun ["make"] true "" WorkspaceUnset ∅ "")) (Some (mkRunsOn "" "" "" "" [] ["tmp:ephemeral"])) []] [] [] [] false).
Definition second_self : Config := instance [bare; daemon; win].
Lemma second_self_entry_is_not_bound :
  validateRunners second_self = None /\ validateIsolation second_self = None /\
  (exists pins, pinStagePlacements "linux" (Some second_self) [] [] "team" only_claim false = Ok pins /\ map (fun p => (pin_Stage p, pin_Self p)) pins = [("claim", true)]) /\
  SelfRunnerEnforces second_self "tmp:ephemeral" = false.
Proof. split; [by vm_compute|]. split; [by vm_compute|]. split; [|by vm_compute]. eexists. split; [by vm_compute|by vm_compute]. Qed.

(** A workflow of DSL 2.0: its task goes by the capabilities it and its gaggle
    require, derives nothing and is refused with a floor; a version that the build
    does not carry does not start. *)
Definition old_task : Task :=
  mkTask "old" TaskAgentic "coder" false None ∅ "" [] 0 "" [] ∅ WorkspaceUnset "" None [] false None false [] (Some ["git@2"]).
Definition old_flow (version : string) : Definition_ := mkDefinition "flow" 1 version (mkSpec "old" None [old_task] [] [] [] false).
Definition old_team (floor : option GaggleRunsOn) : GaggleSpec := mkGaggle false (Some ["dotnet@8"; "git@2"]) floor "github" "github".
Definition plain_win : Config := mkInstance (Some 2%Z) [daemon; win] [] "" None false.
Definition old_pins (version : string) (floor : option GaggleRunsOn) : result pin_error (list PinnedPlacement) :=
  pinStagePlacements "linux" (Some plain_win) [("team", old_team floor)] goobers_of "team" (old_flow version) false.
Example legacy_stages_are_placed :
  (exists pins, old_pins "2.0" None = Ok pins /\
    map (fun p => (pin_Stage p, Queue p, pin_Capabilities p)) pins = [("old", "goobers-dispatch.team.win", ["git@2"; "dotnet@8"])]) /\
  old_pins "2.1" (Some the_floor) = Error (PinPlacement (SurfaceRefused [SurfaceGaggleRunsOn])) /\
  old_pins "1.4" None = Error (PinPlacement (VersionUnsupported "1.4")).
Proof. split; [eexists; split; by vm_compute|]. split; by vm_compute. Qed.
End PinExample.
