(* ===== verification/LabelPredicate.v ===== *)
(** * Label predicates: [internal/labelpredicate]

    CEL is a class: parsing and type checking, whose result is the checked
    expression, and evaluation.  The first section holds what is shared with
    [FieldPredicate]: the checked expressions and what an evaluation answers.
    Doubles are the class [Floats]. *)

From S2P Require Export GoText.
Local Open Scope string_scope.
Local Open Scope list_scope.

Class Floats := {
  Float : Type;
  (** [float64] of an integer. *)
  of_Z : Z -> Float;
  finite : Float -> bool;
  flt : Float -> Float -> bool
}.

Section predicates.
Context {F : Floats}.

(** ** Checked expressions *)

Inductive constant :=
| CString (s : string) | CBool (b : bool) | CInt (z : Z) | CUint (z : Z) | CDouble (f : Float) | COther.
Unset Elimination Schemes.
Inductive expr :=
| EConst (c : constant)
| EIdent (name : string)
| ECall (target : option expr) (function : string) (args : list expr)
| EOther.
Set Elimination Schemes.

Definition LogicalAnd : string := "_&&_".
Definition LogicalOr : string := "_||_".
Definition LogicalNot : string := "!_".
Definition In_ : string := "@in".
Definition OldIn : string := "_in_".
Definition Equals : string := "_==_".
Definition NotEquals : string := "_!=_".
Definition Less : string := "_<_".
Definition LessEquals : string := "_<=_".
Definition Greater : string := "_>_".
Definition GreaterEquals : string := "_>=_".
Definition Index : string := "_[_]".

(** [GetIdentExpr().GetName()] and the string of [GetConstExpr()]. *)
Definition ident_name (e : expr) : string := match e with EIdent n => n | _ => "" end.
Definition string_constant (e : expr) : option string := match e with EConst (CString s) => Some s | _ => None end.

(** What an evaluation answers. *)
Inductive cel_result := CelBool (b : bool) | CelValue | CelError.
Definition cel_and (a b : cel_result) : cel_result :=
  match a, b with
  | CelBool false, _ | _, CelBool false => CelBool false
  | CelBool true, CelBool true => CelBool true
  | _, _ => CelError
  end.
Definition cel_not (a : cel_result) : cel_result := match a with CelBool b => CelBool (negb b) | _ => CelError end.
Definition cel_or (a b : cel_result) : cel_result := cel_not (cel_and (cel_not a) (cel_not b)).

Inductive predicate_error :=
| Blank | CompileFailed | Unsupported | ProgramFailed | EvaluationFailed | NotBool
| Unavailable (field : string) | FieldKind (field : string) | TitleOnly (field : string).

End predicates.

(** ** Labels *)

Class LabelCEL `{Floats} := {
  (** The checked expression, if it compiles to a bool. *)
  compile_labels : string -> option expr;
  program_labels : expr -> bool;
  eval_labels : expr -> gset string -> cel_result
}.

Module Label.
Section label.
Context {F : Floats} {C : LabelCEL}.
Record Predicate := mkPredicate {
  required : list string;
  excluded : list string;
  referenced : gset string;
  program : option expr
}.

Fixpoint validateExpression (e : expr) (referenced : gset string) : option (gset string) :=
  match e with
  | ECall None f args =>
      if (f =? LogicalAnd) || (f =? LogicalOr) then
        match args with
        | [a; b] => match validateExpression a referenced with Some referenced => validateExpression b referenced | None => None end
        | _ => None
        end
      else if f =? LogicalNot then match args with [a] => validateExpression a referenced | _ => None end
      else if (f =? In_) || (f =? OldIn) then
        match args with
        | [a; b] =>
            if negb (ident_name b =? "labels") then None
            else match string_constant a with Some s => Some ({[s]} ∪ referenced) | None => None end
        | _ => None
        end
      else None
  | _ => None
  end.

Definition Compile (expression : string) (required excluded : list string) : result predicate_error Predicate :=
  let p referenced program := mkPredicate required excluded referenced program in
  if expression =? "" then Ok (p (list_to_set required) None)
  else
    let expression := TrimSpace expression in
    if expression =? "" then Error Blank
    else match compile_labels expression with
    | None => Error CompileFailed
    | Some e =>
        match validateExpression e (list_to_set required) with
        | None => Error Unsupported
        | Some referenced => if program_labels e then Ok (p referenced (Some e)) else Error ProgramFailed
        end
    end.

Definition ReferencesLabel (p : Predicate) (label : string) : bool := bool_decide (label ∈ referenced p).
Definition Labels (p : Predicate) : list string := sort_strings (elements (referenced p ∪ list_to_set (excluded p))).
Definition IsZero (p : Predicate) : bool :=
  match program p with Some _ => false | None => (length (required p) =? 0)%nat && (length (excluded p) =? 0)%nat end.

Definition Matches (p : Predicate) (labels : list string) : result predicate_error bool :=
  let set : gset string := list_to_set labels in
  if negb (forallb (fun l => bool_decide (l ∈ set)) (required p)) then Ok false
  else if existsb (fun l => bool_decide (l ∈ set)) (excluded p) then Ok false
  else match program p with
  | None => Ok true
  | Some e =>
      match eval_labels e set with
      | CelBool b => Ok b
      | CelValue => Error NotBool
      | CelError => Error EvaluationFailed
      end
  end.
End label.
End Label.
