(* ===== verification/FieldPredicate.v ===== *)
(** * Field predicates: [internal/fieldpredicate]

    The scalar values of provider-native fields, and the predicates compiled from
    CEL expressions over them. *)

From S2P Require Export LabelPredicate.
Local Open Scope string_scope.
Local Open Scope list_scope.

(** ** Values *)

Section values.
Context {F : Floats}.

(** A value of [map[string]any]: [VInt] is a number of an integer type. *)
Inductive value := VString (s : string) | VBool (b : bool) | VInt (z : Z) | VFloat (f : Float) | VNil | VOther.
Definition Fields : Type := gmap string value.

Inductive kind := KString | KBool | KNumber.
#[export] Instance kind_eq_dec : EqDecision kind.
Proof. solve_decision. Defined.

Definition number (v : value) : option Float :=
  match v with
  | VInt z => if finite (of_Z z) then Some (of_Z z) else None
  | VFloat f => if finite f then Some f else None
  | _ => None
  end.
Definition scalarKind (v : value) : option kind :=
  match v with
  | VString _ => Some KString
  | VBool _ => Some KBool
  | VInt _ | VFloat _ => match number v with Some _ => Some KNumber | None => None end
  | VNil | VOther => None
  end.

End values.

Class FieldCEL `{Floats} := {
  compile_fields : string -> option expr;
  program_fields : expr -> bool;
  eval_fields : expr -> Fields -> cel_result
}.

Module Field.
Section field.
Context {F : Floats} {C : FieldCEL}.

Record FieldEquality := mkEquality { fe_Field : string; fe_Value : string }.
Record Predicate := mkPredicate {
  referenced : gset string;
  stringOperands : gset string;
  required : list FieldEquality;
  programs : list expr
}.
Definition newPredicate : Predicate := mkPredicate ∅ ∅ [] [].

Definition stringOperations : list string :=
  ["contains"; "startsWith"; "endsWith"; "containsIgnoreCase"; "startsWithIgnoreCase"; "endsWithIgnoreCase"].

Definition fieldAccess (e : expr) : option string :=
  match e with
  | ECall None f [a; b] =>
      if negb (f =? Index) then None
      else if negb (ident_name a =? "fields") then None
      else match string_constant b with
      | Some name => if name =? "" then None else Some name
      | None => None
      end
  | _ => None
  end.
Definition scalarConstant (e : expr) : bool :=
  match e with EConst COther => false | EConst _ => true | _ => false end.
(** The field and whether it is on the left. *)
Definition fieldComparison (left right : expr) : option (string * bool) :=
  match fieldAccess left with
  | Some name => if scalarConstant right then Some (name, true) else
      match fieldAccess right with Some name => if scalarConstant left then Some (name, false) else None | None => None end
  | None => match fieldAccess right with Some name => if scalarConstant left then Some (name, false) else None | None => None end
  end.

(** The fields an expression refers to, and those used by string operations. *)
Definition reads : Type := gset string * gset string.
Definition validateStringOperation (target : expr) (f : string) (args : list expr) (r : reads) : option reads :=
  if negb (mem_string f stringOperations) then None
  else match args with
  | [a] =>
      match fieldAccess target with
      | None => None
      | Some name =>
          match string_constant a with
          | Some _ => Some ({[name]} ∪ r.1, {[name]} ∪ r.2)
          | None => None
          end
      end
  | _ => None
  end.
Definition comparisons : list string := [Equals; NotEquals; Less; LessEquals; Greater; GreaterEquals].
Fixpoint validateExpression (e : expr) (r : reads) : option reads :=
  match e with
  | ECall (Some target) f args => validateStringOperation target f args r
  | ECall None f args =>
      if (f =? LogicalAnd) || (f =? LogicalOr) then
        match args with
        | [a; b] => match validateExpression a r with Some r => validateExpression b r | None => None end
        | _ => None
        end
      else if f =? LogicalNot then match args with [a] => validateExpression a r | _ => None end
      else if mem_string f comparisons then
        match args with
        | [a; b] =>
            match fieldComparison a b with
            | None => None
            | Some (name, fieldOnLeft) =>
                if negb fieldOnLeft && negb (f =? Equals) && negb (f =? NotEquals) then None
                else Some ({[name]} ∪ r.1, r.2)
            end
        | _ => None
        end
      else None
  | _ => None
  end.

Fixpoint requiredStringEqualities (e : expr) (out : list FieldEquality) : list FieldEquality :=
  match e with
  | ECall None f [a; b] =>
      if f =? LogicalAnd then requiredStringEqualities b (requiredStringEqualities a out)
      else if f =? Equals then
        let '(field, const) := match fieldAccess a with Some _ => (a, b) | None => (b, a) end in
        match fieldAccess field, string_constant const with
        | Some name, Some v => out ++ [mkEquality name v]
        | _, _ => out
        end
      else out
  | _ => out
  end.

Definition Compile (expression : string) : result predicate_error Predicate :=
  if expression =? "" then Ok newPredicate
  else
    let expression := TrimSpace expression in
    if expression =? "" then Error Blank
    else match compile_fields expression with
    | None => Error CompileFailed
    | Some e =>
        match validateExpression e (∅, ∅) with
        | None => Error Unsupported
        | Some (referenced, operands) =>
            if program_fields e then Ok (mkPredicate referenced operands (requiredStringEqualities e []) [e]) else Error ProgramFailed
        end
    end.

Fixpoint conjunction (combined : Predicate) (expressions : list string) : result predicate_error Predicate :=
  match expressions with
  | [] => Ok combined
  | expression :: expressions =>
      match Compile expression with
      | Error e => Error e
      | Ok p =>
          conjunction (mkPredicate (referenced p ∪ referenced combined) (stringOperands p ∪ stringOperands combined)
                         (required combined ++ required p) (programs combined ++ programs p)) expressions
      end
  end.
Definition CompileConjunction (expressions : list string) : result predicate_error Predicate := conjunction newPredicate expressions.

Definition ReferencedFields (p : Predicate) : list string := sort_strings (elements (referenced p)).
Definition IsZero (p : Predicate) : bool := (length (programs p) =? 0)%nat.

Definition TitleField : string := "title".
Definition CompileTitlePredicate (expression : string) : result predicate_error Predicate :=
  match Compile expression with
  | Error e => Error e
  | Ok p =>
      match find (fun name => negb (name =? TitleField)) (ReferencedFields p) with
      | Some name => Error (TitleOnly name)
      | None => Ok p
      end
  end.

(** The check of one referenced field. *)
Definition check_field (p : Predicate) (fields : Fields) (name : string) : option predicate_error :=
  match fields !! name with
  | None | Some VNil => Some (Unavailable name)
  | Some v =>
      match scalarKind v with
      | None => Some (FieldKind name)
      | Some k => if bool_decide (name ∈ stringOperands p) && negb (bool_decide (k = KString)) then Some (FieldKind name) else None
      end
  end.
Fixpoint check_fields (p : Predicate) (fields : Fields) (names : list string) : option predicate_error :=
  match names with
  | [] => None
  | name :: names => match check_field p fields name with Some e => Some e | None => check_fields p fields names end
  end.
Fixpoint run_programs (programs : list expr) (fields : Fields) : result predicate_error bool :=
  match programs with
  | [] => Ok true
  | e :: programs =>
      match eval_fields e fields with
      | CelBool true => run_programs programs fields
      | CelBool false => Ok false
      | CelValue => Error NotBool
      | CelError => Error EvaluationFailed
      end
  end.
Definition Matches (p : Predicate) (fields : Fields) : result predicate_error bool :=
  match programs p with
  | [] => Ok true
  | _ =>
      match check_fields p fields (ReferencedFields p) with
      | Some e => Error e
      | None => run_programs (programs p) fields
      end
  end.
End field.
End Field.
