(* ===== verification/FieldOrder.v ===== *)
(** * The order of backlog items: [internal/fieldpredicate],
    [sortEligibleByFields] of [cmd/goobers/backlogquery.go] *)

From S2P Require Export FieldPredicate.
Local Open Scope string_scope.
Local Open Scope list_scope.

Section order.
Context {F : Floats} {L : LowerCase}.

(** ** Orders *)

Record orderTerm := mkTerm { ot_field : string; ot_descending : bool }.
Definition Order : Type := list orderTerm.
Definition Configured (o : Order) : bool := (0 <? length o)%nat.

Inductive order_error :=
| OrderBlank | TermInvalid (raw : string) | DirectionInvalid (field direction : string) | TermRepeated (field : string)
| OrderUnavailable (field : string) (item : nat) | OrderKind (field : string) (item : nat) | OrderMixed (field : string)
| CompareFailed.

Definition name_start (b : N) : bool := (between 65 90 b || between 97 122 b || between 48 57 b)%N.
Definition name_rest (b : N) : bool := name_start b || existsb (N.eqb b) [46; 95; 45]%N.
(** [fieldNamePattern]. *)
Definition field_name (s : string) : bool :=
  match bytes s with [] => false | b :: bs => name_start b && forallb name_rest bs end.

Definition parse_term (raw : string) : result order_error orderTerm :=
  match Split ":" (TrimSpace raw) with
  | [field] => if field_name field then Ok (mkTerm field false) else Error (TermInvalid raw)
  | [field; direction] =>
      if negb (field_name field) then Error (TermInvalid raw)
      else if ToLower direction =? "asc" then Ok (mkTerm field false)
      else if ToLower direction =? "desc" then Ok (mkTerm field true)
      else Error (DirectionInvalid field direction)
  | _ => Error (TermInvalid raw)
  end.
Fixpoint parse_terms (raws : list string) (seen : list string) : result order_error Order :=
  match raws with
  | [] => Ok []
  | raw :: raws =>
      match parse_term raw with
      | Error e => Error e
      | Ok term =>
          if mem_string (ot_field term) seen then Error (TermRepeated (ot_field term))
          else match parse_terms raws (ot_field term :: seen) with
          | Error e => Error e
          | Ok terms => Ok (term :: terms)
          end
      end
  end.
Definition ParseOrder (expression : string) : result order_error Order :=
  if expression =? "" then Ok []
  else
    let expression := TrimSpace expression in
    if expression =? "" then Error OrderBlank else parse_terms (Split "," expression) [].

(** The items of one term; [expected] is the kind of the first. *)
Fixpoint validate_term (field : string) (expected : option kind) (i : nat) (items : list Fields) : option order_error :=
  match items with
  | [] => None
  | fields :: items =>
      match fields !! field with
      | None | Some VNil => Some (OrderUnavailable field i)
      | Some v =>
          match scalarKind v with
          | None => Some (OrderKind field i)
          | Some k =>
              match expected with
              | None => validate_term field (Some k) (S i) items
              | Some k' => if bool_decide (k = k') then validate_term field expected (S i) items else Some (OrderMixed field)
              end
          end
      end
  end.
Fixpoint Validate (o : Order) (items : list Fields) : option order_error :=
  match o with
  | [] => None
  | term :: o => match validate_term (ot_field term) None 0 items with Some e => Some e | None => Validate o items end
  end.

Definition strings_Compare (a b : string) : Z := match String.compare a b with Lt => -1 | Eq => 0 | Gt => 1 end.
Definition compareScalar (left right : value) : option Z :=
  match scalarKind left, scalarKind right with
  | Some lk, Some rk =>
      if negb (bool_decide (lk = rk)) then None
      else match left, right with
      | VString a, VString b => Some (strings_Compare a b)
      | VBool a, VBool b => Some (if Bool.eqb a b then 0 else if negb a then -1 else 1)%Z
      | _, _ =>
          match number left, number right with
          | Some a, Some b => Some (if flt a b then -1 else if flt b a then 1 else 0)%Z
          | _, _ => None
          end
      end
  | _, _ => None
  end.
(** A missing field is [nil]. *)
Definition field_value (fields : Fields) (name : string) : value := default VNil (fields !! name).
Fixpoint Compare (o : Order) (left right : Fields) : option Z :=
  match o with
  | [] => Some 0%Z
  | term :: o =>
      match compareScalar (field_value left (ot_field term)) (field_value right (ot_field term)) with
      | None => None
      | Some c => if (c =? 0)%Z then Compare o left right else Some (if ot_descending term then - c else c)%Z
      end
  end.

(** ** Eligible items *)

Record WorkItem := mkWorkItem { wi_ID : string; wi_Labels : list string; wi_Fields : Fields }.

Fixpoint itemPriorityRank (item : WorkItem) (priorityLabels : list string) : nat :=
  match priorityLabels with
  | [] => 0
  | label :: labels => if mem_string label (wi_Labels item) then 0 else S (itemPriorityRank item labels)
  end.
(** [strconv.ParseInt(id, 10, 64)]. *)
Definition parseWorkItemID (id : string) : option Z := Atoi id.

Definition id_less (a b : string) : bool :=
  match parseWorkItemID a, parseWorkItemID b with
  | Some x, Some y => (x <? y)%Z
  | _, _ => String.ltb a b
  end.
(** The comparison of [sortEligibleByFields]; one that fails answers false. *)
Definition item_less (priorityLabels : list string) (o : Order) (a b : WorkItem) : bool :=
  let ra := itemPriorityRank a priorityLabels in
  let rb := itemPriorityRank b priorityLabels in
  if negb (ra =? rb)%nat then (ra <? rb)%nat
  else match Compare o (wi_Fields a) (wi_Fields b) with
  | None => false
  | Some c => if negb (c =? 0)%Z then (c <? 0)%Z else id_less (wi_ID a) (wi_ID b)
  end.
(** Whether the comparison fails for some pair. *)
Definition compare_fails (priorityLabels : list string) (o : Order) (items : list WorkItem) : bool :=
  existsb (fun a => existsb (fun b =>
    (itemPriorityRank a priorityLabels =? itemPriorityRank b priorityLabels)%nat
    && match Compare o (wi_Fields a) (wi_Fields b) with None => true | Some _ => false end) items) items.

(** [sort.SliceStable]: the insertion sort it is up to its block size, and what it
    computes at any length if [less] is a strict weak order.  Each item moves down
    past the items before it for as long as it is less. *)
Definition SliceStable {A} (less : A -> A -> bool) (items : list A) : list A :=
  rev (sort_by (fun a b => negb (less a b)) (rev items)).

Definition sortEligibleByFields (items : list WorkItem) (priorityLabels : list string) (o : Order) : result order_error (list WorkItem) :=
  match Validate o (map wi_Fields items) with
  | Some e => Error e
  | None =>
      if compare_fails priorityLabels o items then Error CompareFailed
      else Ok (SliceStable (item_less priorityLabels o) items)
  end.
End order.
