(* ===== verification/PredicateProps.v ===== *)
(** * What predicates match

    A label predicate is the Boolean formula its expression spells, and a field
    predicate reads only the fields it names and demands the equalities it reports. *)

From S2P Require Export FieldPredicate.
Local Open Scope string_scope.
Local Open Scope list_scope.

Section expr_ind.
Context {F : Floats} (P : expr -> Prop).
Hypothesis Hconst : forall c, P (EConst c).
Hypothesis Hident : forall n, P (EIdent n).
Hypothesis Hcall : forall t f args, Forall P args -> P (ECall t f args).
Hypothesis Hother : P EOther.
Fixpoint expr_ind (e : expr) : P e :=
  match e with
  | EConst c => Hconst c
  | EIdent n => Hident n
  | ECall t f args =>
      Hcall t f args ((fix all l : Forall P l :=
        match l with [] => Forall_nil_2 P | x :: l => Forall_cons_2 P x l (expr_ind x) (all l) end) args)
  | EOther => Hother
  end.
End expr_ind.

Lemma forallb_agree {A} (f g : A -> bool) l : (forall x, x ∈ l -> f x = g x) -> forallb f l = forallb g l.
Proof. induction l as [|x l IH]; intros H; [done|]. cbn. rewrite (H x), IH; [done| |by left]. intros y Hy. apply H. by right. Qed.
Lemma existsb_agree {A} (f g : A -> bool) l : (forall x, x ∈ l -> f x = g x) -> existsb f l = existsb g l.
Proof. induction l as [|x l IH]; intros H; [done|]. cbn. rewrite (H x), IH; [done| |by left]. intros y Hy. apply H. by right. Qed.

(** ** Labels *)

(** What is known of CEL on the operators of a label predicate. *)
Class LabelLaws `{LabelCEL} := {
  label_and a b labels : eval_labels (ECall None LogicalAnd [a; b]) labels = cel_and (eval_labels a labels) (eval_labels b labels);
  label_or a b labels : eval_labels (ECall None LogicalOr [a; b]) labels = cel_or (eval_labels a labels) (eval_labels b labels);
  label_not a labels : eval_labels (ECall None LogicalNot [a]) labels = cel_not (eval_labels a labels);
  label_in f s b labels : f = In_ \/ f = OldIn -> ident_name b = "labels" ->
    eval_labels (ECall None f [EConst (CString s); b]) labels = CelBool (bool_decide (s ∈ labels))
}.

Section labels.
Context {F : Floats} {C : LabelCEL}.

(** The formula an expression spells. *)
Fixpoint formula (e : expr) (labels : gset string) : bool :=
  match e with
  | ECall None f [a; b] =>
      if f =? LogicalAnd then formula a labels && formula b labels
      else if f =? LogicalOr then formula a labels || formula b labels
      else match string_constant a with Some s => bool_decide (s ∈ labels) | None => false end
  | ECall None _ [a] => negb (formula a labels)
  | _ => false
  end.

Lemma string_constant_Some (e : expr) s : string_constant e = Some s -> e = EConst (CString s).
Proof. destruct e as [[]| | |]; try done. by intros [= ->]. Qed.

Lemma validated_formula `{!LabelLaws} e : forall r r' labels,
  Label.validateExpression e r = Some r' ->
  eval_labels e labels = CelBool (formula e labels) /\ r ⊆ r' /\
  forall labels', (forall l, l ∈ r' -> l ∈ labels <-> l ∈ labels') -> formula e labels = formula e labels'.
Proof.
  induction e as [c|n|[t|] f args IH|] using expr_ind; intros r r' labels; cbn [Label.validateExpression]; try done.
  destruct ((f =? LogicalAnd) || (f =? LogicalOr)) eqn:Eao.
  - destruct args as [|a [|b [|]]]; try done. apply Forall_cons in IH as [IHa IHb]. apply Forall_cons in IHb as [IHb _].
    destruct (Label.validateExpression a r) as [r1|] eqn:Ea; [|done]. intros Eb. destruct (IHa r r1 labels Ea) as (Va & Sa & Wa). destruct (IHb r1 r' labels Eb) as (Vb & Sb & Wb).
    split; [|split; [by etrans|]].
    + cbn [formula]. destruct (String.eqb_spec f LogicalAnd) as [->|]; [by rewrite label_and, Va, Vb; destruct (formula a labels), (formula b labels)|].
      destruct (String.eqb_spec f LogicalOr) as [->|]; [|done]. rewrite label_or, Va, Vb. by destruct (formula a labels), (formula b labels).
    + intros labels' Hl. cbn [formula]. rewrite (Wa labels'), (Wb labels') by auto.
      destruct (f =? LogicalAnd); [done|]. by destruct (f =? LogicalOr).
  - apply orb_false_iff in Eao as [Ea Eo]. destruct (String.eqb_spec f LogicalNot) as [->|Hn].
    + destruct args as [|a [|]]; try done. apply Forall_cons in IH as [IHa _]. intros Hv. destruct (IHa r r' labels Hv) as (Va & Sa & Wa).
      split; [rewrite label_not, Va; done|]. split; [done|]. intros labels' Hl. cbn [formula]. by rewrite (Wa labels').
    + destruct ((f =? In_) || (f =? OldIn)) eqn:Ei; [|done]. destruct args as [|a [|b [|]]]; try done. destruct (String.eqb_spec (ident_name b) "labels") as [Eb|]; [|done]. cbn [negb].
      destruct (string_constant a) as [s|] eqn:Es; [|done]. intros [= <-]. pose proof (string_constant_Some _ _ Es) as ->. cbn [formula]. rewrite Ea, Eo. cbn [string_constant].
      split; [apply label_in; [|done]; apply orb_true_iff in Ei as [?%String.eqb_eq|?%String.eqb_eq]; auto|]. split; [set_solver|].
      intros labels' Hl. apply bool_decide_ext. apply Hl. set_solver.
Qed.

Definition spells (p : Label.Predicate) (labels : gset string) : bool := match Label.program p with None => true | Some e => formula e labels end.

Lemma Labels_elem (p : Label.Predicate) l : l ∈ Label.Labels p <-> l ∈ Label.referenced p \/ l ∈ Label.excluded p.
Proof. unfold Label.Labels, sort_strings. rewrite sort_by_elem, elem_of_elements, elem_of_union, elem_of_list_to_set. done. Qed.

(** A compiled label predicate never fails: it matches labels exactly if they
    include every required label and no excluded one and satisfy the Boolean formula
    its expression spells over membership.  Its answer depends on nothing but the
    labels it names, so that labels may be folded onto the names [Labels] lists. *)
Theorem label_predicate_is_exact `{!LabelLaws} expression required excluded p labels :
  Label.Compile expression required excluded = Ok p ->
  (exists b, Label.Matches p labels = Ok b /\
     (b = true <-> (forall l, l ∈ required -> l ∈ labels) /\ (forall l, l ∈ excluded -> l ∉ labels) /\ spells p (list_to_set labels) = true)) /\
  forall labels', (forall l, l ∈ Label.Labels p -> l ∈ labels <-> l ∈ labels') -> Label.Matches p labels' = Label.Matches p labels.
Proof.
  intros Hc.
  assert (Label.required p = required /\ Label.excluded p = excluded /\ list_to_set required ⊆ Label.referenced p /\
    forall labels, match Label.program p with
                   | None => True
                   | Some e => eval_labels e labels = CelBool (formula e labels) /\
                       forall labels', (forall l, l ∈ Label.referenced p -> l ∈ labels <-> l ∈ labels') -> formula e labels = formula e labels'
                   end) as (Hr & Hx & Hsub & Hev).
  { unfold Label.Compile in Hc. destruct (expression =? ""); [by injection Hc as <-|]. destruct (TrimSpace expression =? ""); [done|].
    destruct (compile_labels _) as [e|]; [|done]. destruct (Label.validateExpression e (list_to_set required)) as [r|] eqn:Ev; [|done]. destruct (program_labels e); [|done].
    injection Hc as <-. cbn. split_and!; [done|done|by apply (validated_formula e _ _ ∅ Ev)|]. intros ls. destruct (validated_formula e _ _ ls Ev) as (V & _ & W). done. }
  assert (forall ls, Label.Matches p ls = Ok (forallb (fun l => bool_decide (l ∈ (list_to_set ls : gset string))) required
    && negb (existsb (fun l => bool_decide (l ∈ (list_to_set ls : gset string))) excluded) && spells p (list_to_set ls))) as Hm.
  { intros ls. unfold Label.Matches. rewrite Hr, Hx. destruct (forallb _ required); [|done]. destruct (existsb _ excluded); [done|]. cbn [negb andb].
    unfold spells. specialize (Hev (list_to_set ls)). destruct (Label.program p) as [e|]; [|done]. by rewrite (proj1 Hev). }
  split.
  - eexists. split; [apply Hm|]. rewrite !andb_true_iff, negb_true_iff, forallb_forall. rewrite <- not_true_iff_false, existsb_exists.
    setoid_rewrite bool_decide_eq_true. setoid_rewrite elem_of_list_to_set. setoid_rewrite <- list_elem_of_In. naive_solver.
  - intros labels' Hl. rewrite !Hm. f_equal. assert (forall l, l ∈ Label.Labels p -> bool_decide (l ∈ (list_to_set labels' : gset string)) = bool_decide (l ∈ (list_to_set labels : gset string))) as Hbd.
    { intros l Hin. apply bool_decide_ext. rewrite !elem_of_list_to_set. symmetry. auto. }
    f_equal; [f_equal|].
    + apply forallb_agree. intros l Hin. apply Hbd, Labels_elem. left. apply Hsub. by apply elem_of_list_to_set.
    + f_equal. apply existsb_agree. intros l Hin. apply Hbd, Labels_elem. right. by rewrite Hx.
    + unfold spells. specialize (Hev (list_to_set labels')). destruct (Label.program p) as [e|]; [|done]. apply Hev. intros l Hin. rewrite !elem_of_list_to_set.
      symmetry. apply Hl, Labels_elem. by left.
Qed.
End labels.

(** ** Fields *)

(** What is known of CEL on the operators of a field predicate: a comparison or a
    string operation reads only its field, and a string equality that holds is one. *)
Class FieldLaws `{FieldCEL} := {
  field_and a b fields : eval_fields (ECall None LogicalAnd [a; b]) fields = cel_and (eval_fields a fields) (eval_fields b fields);
  field_or a b fields : eval_fields (ECall None LogicalOr [a; b]) fields = cel_or (eval_fields a fields) (eval_fields b fields);
  field_not a fields : eval_fields (ECall None LogicalNot [a]) fields = cel_not (eval_fields a fields);
  field_comparison f a b name side fields fields' :
    f ∈ Field.comparisons -> Field.fieldComparison a b = Some (name, side) -> fields !! name = fields' !! name ->
    eval_fields (ECall None f [a; b]) fields = eval_fields (ECall None f [a; b]) fields';
  field_string_operation target f a name fields fields' :
    f ∈ Field.stringOperations -> Field.fieldAccess target = Some name -> fields !! name = fields' !! name ->
    eval_fields (ECall (Some target) f [a]) fields = eval_fields (ECall (Some target) f [a]) fields';
  field_equality a b name v fields :
    Field.fieldAccess a = Some name /\ string_constant b = Some v \/ Field.fieldAccess b = Some name /\ string_constant a = Some v ->
    eval_fields (ECall None Equals [a; b]) fields = CelBool true -> fields !! name = Some (VString v)
}.

Section fields.
Context {F : Floats} {C : FieldCEL} {Laws : FieldLaws}.

Lemma cel_and_true a b : cel_and a b = CelBool true -> a = CelBool true /\ b = CelBool true.
Proof. destruct a as [[]| |], b as [[]| |]; done. Qed.

(** A validated expression reads only the fields it refers to. *)
Lemma validated_reads e : forall r r',
  Field.validateExpression e r = Some r' ->
  r.1 ⊆ r'.1 /\ r.2 ⊆ r'.2 /\
  forall fields fields', (forall name, name ∈ r'.1 -> fields !! name = fields' !! name) -> eval_fields e fields = eval_fields e fields'.
Proof.
  induction e as [c|n|[t|] f args IH|] using expr_ind; intros r r'; cbn [Field.validateExpression]; try done.
  - unfold Field.validateStringOperation. destruct (mem_string f Field.stringOperations) eqn:Ef; [|done]. cbn [negb]. destruct args as [|a [|]]; try done.
    destruct (Field.fieldAccess t) as [name|] eqn:En; [|done]. destruct (string_constant a); [|done]. intros [= <-]. cbn. split_and!; [set_solver|set_solver|].
    intros fields fields' Hr. eapply field_string_operation; [by apply mem_string_true|done|]. apply Hr. set_solver.
  - destruct ((f =? LogicalAnd) || (f =? LogicalOr)) eqn:Eao.
    + destruct args as [|a [|b [|]]]; try done. apply Forall_cons in IH as [IHa IHb]. apply Forall_cons in IHb as [IHb _].
      destruct (Field.validateExpression a r) as [r1|] eqn:Ea; [|done]. intros Eb. destruct (IHa _ _ Ea) as (A1 & A2 & A3). destruct (IHb _ _ Eb) as (B1 & B2 & B3).
      split_and!; [set_solver|set_solver|]. intros fields fields' Hr. assert (eval_fields a fields = eval_fields a fields') as Ha by (apply A3; set_solver). assert (eval_fields b fields = eval_fields b fields') as Hb by (by apply B3).
      apply orb_true_iff in Eao as [->%String.eqb_eq| ->%String.eqb_eq]; [by rewrite !field_and, Ha, Hb|by rewrite !field_or, Ha, Hb].
    + destruct (String.eqb_spec f LogicalNot) as [->|Hn].
      * destruct args as [|a [|]]; try done. apply Forall_cons in IH as [IHa _]. intros Hv. destruct (IHa _ _ Hv) as (A1 & A2 & A3). split_and!; [done|done|].
        intros fields fields' Hr. by rewrite !field_not, (A3 fields fields').
      * destruct (mem_string f Field.comparisons) eqn:Ef; [|done]. destruct args as [|a [|b [|]]]; try done. destruct (Field.fieldComparison a b) as [[name side]|] eqn:Ec; [|done].
        destruct (negb side && _ && _); [done|]. intros [= <-]. cbn. split_and!; [set_solver|set_solver|]. intros fields fields' Hr.
        eapply field_comparison; [by apply mem_string_true|done|]. apply Hr. set_solver.
Qed.

(** An expression that holds satisfies the equalities it requires. *)
Lemma required_hold e fields : forall out,
  eval_fields e fields = CelBool true ->
  forall q, q ∈ Field.requiredStringEqualities e out -> q ∈ out \/ fields !! Field.fe_Field q = Some (VString (Field.fe_Value q)).
Proof.
  induction e as [c|n|[t|] f args IH|] using expr_ind; intros out He q; cbn [Field.requiredStringEqualities]; auto.
  destruct args as [|a [|b [|]]]; auto. apply Forall_cons in IH as [IHa IHb]. apply Forall_cons in IHb as [IHb _].
  destruct (String.eqb_spec f LogicalAnd) as [->|].
  { rewrite field_and in He. apply cel_and_true in He as [Ha Hb]. intros Hq. destruct (IHb _ Hb _ Hq) as [Hq'|]; [|auto]. by apply IHa. }
  destruct (String.eqb_spec f Equals) as [->|]; [|auto]. destruct (Field.fieldAccess a) as [name|] eqn:Ea.
  - cbn. rewrite Ea. destruct (string_constant b) as [v|] eqn:Eb; [|auto]. intros [Hq| ->%list_elem_of_singleton]%elem_of_app; [auto|]. right. apply (field_equality a b name v); auto.
  - destruct (Field.fieldAccess b) as [name|] eqn:Eb; [|auto]. destruct (string_constant a) as [v|] eqn:Es; [|auto].
    intros [Hq| ->%list_elem_of_singleton]%elem_of_app; [auto|]. right. apply (field_equality a b name v); auto.
Qed.

(** ** Compiled predicates *)

(** What every compiled predicate, alone or in a conjunction, satisfies. *)
Record compiled (p : Field.Predicate) : Prop := {
  compiled_reads e : e ∈ Field.programs p -> forall fields fields',
    (forall name, name ∈ Field.referenced p -> fields !! name = fields' !! name) -> eval_fields e fields = eval_fields e fields';
  compiled_required q : q ∈ Field.required p -> exists e, e ∈ Field.programs p /\
    forall fields, eval_fields e fields = CelBool true -> fields !! Field.fe_Field q = Some (VString (Field.fe_Value q));
  compiled_zero : Field.programs p = [] -> Field.referenced p = ∅;
  compiled_operands : Field.stringOperands p ⊆ Field.referenced p
}.

Lemma Compile_compiled expression p : Field.Compile expression = Ok p -> compiled p.
Proof.
  unfold Field.Compile. destruct (expression =? ""); [intros [= <-]; split; cbn; try done; intros ? ?%not_elem_of_nil; done|]. destruct (TrimSpace expression =? ""); [done|].
  destruct (compile_fields _) as [e|]; [|done]. destruct (Field.validateExpression e (∅, ∅)) as [[r ops]|] eqn:Ev; [|done]. destruct (program_fields e); [|done]. intros [= <-].
  destruct (validated_reads e _ _ Ev) as (_ & _ & Hr). split; cbn; try done.
  - by intros e' ->%list_elem_of_singleton.
  - intros q Hq. exists e. split; [by left|]. intros fields He. destruct (required_hold e fields [] He q Hq) as [?%not_elem_of_nil|]; done.
  - assert (forall e r r', r.2 ⊆ r.1 -> Field.validateExpression e r = Some r' -> r'.2 ⊆ r'.1) as Hops; [|by apply (Hops e (∅, ∅) (r, ops))].
    clear. induction e as [c|n|[t|] f args IH|] using expr_ind; intros r r' Hsub; cbn [Field.validateExpression]; try done.
    + unfold Field.validateStringOperation. repeat case_match; try done. intros [= <-]. cbn. set_solver.
    + destruct (_ || _); [|destruct (f =? LogicalNot)].
      * destruct args as [|a [|b [|]]]; try done. apply Forall_cons in IH as [IHa IHb]. apply Forall_cons in IHb as [IHb _].
        destruct (Field.validateExpression a r) as [r1|] eqn:Ea; [|done]. intros Eb. eauto.
      * destruct args as [|a [|]]; try done. apply Forall_cons in IH as [IHa _]. eauto.
      * repeat case_match; try done. intros [= <-]. cbn. set_solver.
Qed.

(** The predicate of two levels. *)
Definition both (p c : Field.Predicate) : Field.Predicate :=
  Field.mkPredicate (Field.referenced p ∪ Field.referenced c) (Field.stringOperands p ∪ Field.stringOperands c)
    (Field.required c ++ Field.required p) (Field.programs c ++ Field.programs p).
Lemma both_compiled p c : compiled p -> compiled c -> compiled (both p c).
Proof.
  intros [P1 P2 P3 P4] [C1 C2 C3 C4]. split; cbn.
  - intros e [He|He]%elem_of_app fields fields' Hr; [apply C1|apply P1]; auto; set_solver.
  - intros q [Hq|Hq]%elem_of_app; [destruct (C2 q Hq) as (e & He & H)|destruct (P2 q Hq) as (e & He & H)]; exists e; (split; [apply elem_of_app; auto|done]).
  - intros [Hc Hp]%app_nil. rewrite P3, C3 by done. set_solver.
  - set_solver.
Qed.

(** Every field a predicate refers to is there and of a kind it can use, and every
    level of it holds. *)
Definition holds (p : Field.Predicate) (fields : Fields) : Prop :=
  (forall name, name ∈ Field.referenced p -> Field.check_field p fields name = None) /\
  forall e, e ∈ Field.programs p -> eval_fields e fields = CelBool true.

Lemma check_fields_None p fields names : Field.check_fields p fields names = None <-> forall name, name ∈ names -> Field.check_field p fields name = None.
Proof.
  induction names as [|n names IH]; cbn [Field.check_fields]; [split; [by intros _ ? ?%not_elem_of_nil|done]|].
  destruct (Field.check_field p fields n) eqn:E; [split; [done|]; intros H; rewrite H in E; [done|by left]|]. rewrite IH. setoid_rewrite elem_of_cons. naive_solver.
Qed.
Lemma run_programs_true ps fields : Field.run_programs ps fields = Ok true <-> forall e, e ∈ ps -> eval_fields e fields = CelBool true.
Proof.
  induction ps as [|e ps IH]; cbn [Field.run_programs]; [split; [by intros _ ? ?%not_elem_of_nil|done]|]. setoid_rewrite elem_of_cons.
  destruct (eval_fields e fields) as [[]| |] eqn:E; [rewrite IH; naive_solver| | |]; (split; [done|]; intros H; specialize (H e (or_introl eq_refl)); congruence).
Qed.
Lemma ReferencedFields_elem p name : name ∈ Field.ReferencedFields p <-> name ∈ Field.referenced p.
Proof. unfold Field.ReferencedFields, sort_strings. by rewrite sort_by_elem, elem_of_elements. Qed.
Lemma Matches_true p fields : compiled p -> Field.Matches p fields = Ok true <-> holds p fields.
Proof.
  intros Hc. unfold Field.Matches, holds. setoid_rewrite <- ReferencedFields_elem. rewrite <- check_fields_None, <- run_programs_true.
  destruct (Field.programs p) as [|e ps] eqn:Ep.
  - split; [intros _; split; [|done]|done]. apply check_fields_None. intros name Hn%ReferencedFields_elem. rewrite (compiled_zero p Hc Ep) in Hn. set_solver.
  - destruct (Field.check_fields p fields (Field.ReferencedFields p)); [naive_solver|tauto].
Qed.

Lemma check_field_None p fields name :
  Field.check_field p fields name = None <-> exists v k, fields !! name = Some v /\ scalarKind v = Some k /\ (name ∈ Field.stringOperands p -> k = KString).
Proof.
  unfold Field.check_field. destruct (fields !! name) as [v|]; [|naive_solver]. destruct (scalarKind v) as [k|] eqn:Ek.
  - assert (match v with VNil => Some (Unavailable name) | _ => if bool_decide (name ∈ Field.stringOperands p) && negb (bool_decide (k = KString)) then Some (FieldKind name) else None end
      = if bool_decide (name ∈ Field.stringOperands p) && negb (bool_decide (k = KString)) then Some (FieldKind name) else None) as -> by (by destruct v).
    repeat case_bool_decide; cbn; naive_solver.
  - assert (match v with VNil => Some (Unavailable name) | _ => Some (FieldKind name) end <> None) as H by (by destruct v). naive_solver.
Qed.
Lemma both_holds p c fields : compiled p -> compiled c -> holds (both p c) fields <-> holds p fields /\ holds c fields.
Proof.
  intros [_ _ _ P4] [_ _ _ C4]. unfold holds. setoid_rewrite check_field_None. cbn. split.
  - intros [H1 H2]. split; split; try (intros e He; apply H2, elem_of_app; auto).
    + intros name Hn. destruct (H1 name ltac:(set_solver)) as (v & k & ? & ? & Hk). exists v, k. split_and!; [done|done|]. intros. apply Hk. set_solver.
    + intros name Hn. destruct (H1 name ltac:(set_solver)) as (v & k & ? & ? & Hk). exists v, k. split_and!; [done|done|]. intros. apply Hk. set_solver.
  - intros [[Hp1 Hp2] [Hc1 Hc2]]. split; [|intros e [He|He]%elem_of_app; auto].
    intros name Hn. assert (exists v k, fields !! name = Some v /\ scalarKind v = Some k) as (v & k & Hv & Hk).
    { apply elem_of_union in Hn as [Hn|Hn]; [destruct (Hp1 name Hn) as (v & k & ? & ? & _)|destruct (Hc1 name Hn) as (v & k & ? & ? & _)]; eauto. }
    exists v, k. split_and!; [done|done|]. intros [Ho|Ho]%elem_of_union.
    + destruct (Hp1 name (P4 _ Ho)) as (v' & k' & Hv' & Hk' & H). simplify_eq. auto.
    + destruct (Hc1 name (C4 _ Ho)) as (v' & k' & Hv' & Hk' & H). simplify_eq. auto.
Qed.

Lemma conjunction_spec expressions : forall c p, compiled c -> Field.conjunction c expressions = Ok p ->
  compiled p /\ forall fields, holds p fields <-> holds c fields /\ forall x, x ∈ expressions -> exists q, Field.Compile x = Ok q /\ Field.Matches q fields = Ok true.
Proof.
  induction expressions as [|x xs IH]; intros c p Hc; cbn [Field.conjunction].
  - intros [= <-]. split; [done|]. intros fields. split; [|tauto]. intros H. split; [done|]. by intros y ?%not_elem_of_nil.
  - destruct (Field.Compile x) as [q|] eqn:Eq; [|done]. pose proof (Compile_compiled _ _ Eq) as Hq. intros H. apply (IH (both q c)) in H as [Hp H]; [|by apply both_compiled].
    split; [done|]. intros fields. rewrite H, both_holds by done. rewrite <- (Matches_true q) by done. setoid_rewrite elem_of_cons. split.
    + intros [[Hm Hh] Hx]. split; [done|]. intros y [->|Hy]; [by exists q|auto].
    + intros [Hh Hx]. split; [split; [|done]|auto]. destruct (Hx x (or_introl eq_refl)) as (q' & Eq' & Hm). rewrite Eq in Eq'. by injection Eq' as <-.
Qed.
Lemma new_compiled : compiled Field.newPredicate.
Proof. split; cbn; try done; intros ? ?%not_elem_of_nil; done. Qed.
Lemma new_holds fields : holds Field.newPredicate fields.
Proof. split; cbn; [set_solver|]. by intros e ?%not_elem_of_nil. Qed.

(** C34: The predicate of several levels matches exactly if each level compiles and
    matches.  A match satisfies every equality the predicate reports as required, so
    that a provider may narrow its query by them and lose nothing; and the answer,
    errors included, depends on nothing but the fields it reports as referenced. *)
Theorem field_predicate_narrows_soundly expressions p :
  Field.CompileConjunction expressions = Ok p ->
  (forall fields, Field.Matches p fields = Ok true <-> forall x, x ∈ expressions -> exists q, Field.Compile x = Ok q /\ Field.Matches q fields = Ok true) /\
  (forall fields, Field.Matches p fields = Ok true ->
     forall q, q ∈ Field.required p -> fields !! Field.fe_Field q = Some (VString (Field.fe_Value q))) /\
  forall fields fields', (forall name, name ∈ Field.ReferencedFields p -> fields !! name = fields' !! name) -> Field.Matches p fields = Field.Matches p fields'.
Proof.
  intros H. destruct (conjunction_spec _ _ _ new_compiled H) as [Hc Hh]. split; [|split].
  - intros fields. rewrite Matches_true, Hh by done. pose proof (new_holds fields). tauto.
  - intros fields [_ Hm]%Matches_true q Hq; [|done]. destruct (compiled_required p Hc q Hq) as (e & He & Hreq). by apply Hreq, Hm.
  - intros fields fields' Hr. unfold Field.Matches. setoid_rewrite ReferencedFields_elem in Hr. destruct (Field.programs p) as [|e0 ps0] eqn:Ep; [done|]. rewrite <- Ep.
    assert (Field.check_fields p fields (Field.ReferencedFields p) = Field.check_fields p fields' (Field.ReferencedFields p)) as ->.
    { assert (forall names, (forall name, name ∈ names -> name ∈ Field.referenced p) -> Field.check_fields p fields names = Field.check_fields p fields' names) as Hn.
      { induction names as [|n names IH]; intros Hin; [done|]. cbn. unfold Field.check_field. rewrite (Hr n) by (apply Hin; by left). fold (Field.check_field p fields' n). rewrite IH; [done|]. intros; apply Hin; by right. }
      apply Hn. intros name. by rewrite ReferencedFields_elem. }
    destruct (Field.check_fields p fields' (Field.ReferencedFields p)); [done|].
    assert (forall ps, (forall e, e ∈ ps -> e ∈ Field.programs p) -> Field.run_programs ps fields = Field.run_programs ps fields') as Hps; [|by apply Hps].
    induction ps as [|e ps IH]; intros Hin; [done|]. cbn. rewrite (compiled_reads p Hc e (Hin e ltac:(by left)) fields fields' Hr), IH; [done|]. intros; apply Hin; by right.
Qed.
End fields.
