(* ===== verification/FieldOrderProps.v ===== *)
(** * The order of eligible items

    Comparisons on a domain, their lexicographic composition, and the order that
    [sortEligibleByFields] gives the items it accepts. *)

From Stdlib Require Import Sorting.Permutation Sorting.Sorted.
From stdpp Require sorting.
From S2P Require Export PredicateProps FieldOrder.
Local Open Scope string_scope.
Local Open Scope list_scope.
Local Open Scope Z_scope.

(** ** Comparisons *)

(** [cmp] orders the elements that satisfy [P], some of them alike. *)
Record comparison_on {A} (P : A -> Prop) (cmp : A -> A -> Z) : Prop := {
  cmp_opp a b : P a -> P b -> cmp b a = - cmp a b;
  cmp_trans a b c : P a -> P b -> P c -> cmp a b <= 0 -> cmp b c <= 0 -> cmp a c <= 0
}.

Definition lex {A} (c1 c2 : A -> A -> Z) (a b : A) : Z := if c1 a b =? 0 then c2 a b else c1 a b.

Section comparisons.
Context {A : Type} (P : A -> Prop).

Lemma cmp_chain cmp a b c : comparison_on P cmp -> P a -> P b -> P c -> cmp a b <= 0 -> cmp b c <= 0 -> cmp a c = 0 -> cmp a b = 0 /\ cmp b c = 0.
Proof.
  intros C Ha Hb Hc H1 H2 H3. pose proof (cmp_opp _ _ C a c Ha Hc). pose proof (cmp_opp _ _ C a b Ha Hb). pose proof (cmp_opp _ _ C b c Hb Hc).
  pose proof (cmp_trans _ _ C b c a Hb Hc Ha H2 ltac:(lia)). pose proof (cmp_trans _ _ C c a b Hc Ha Hb ltac:(lia) H1). lia.
Qed.

Lemma lex_good c1 c2 : comparison_on P c1 -> comparison_on P c2 -> comparison_on P (lex c1 c2).
Proof.
  intros C1 C2. split.
  - intros a b Ha Hb. unfold lex. rewrite (cmp_opp _ _ C1 a b), (cmp_opp _ _ C2 a b) by done.
    destruct (Z.eqb_spec (c1 a b) 0), (Z.eqb_spec (- c1 a b) 0); lia.
  - intros a b c Ha Hb Hc. unfold lex. pose proof (cmp_trans _ _ C1 a b c Ha Hb Hc). pose proof (cmp_trans _ _ C2 a b c Ha Hb Hc). pose proof (cmp_chain c1 a b c C1 Ha Hb Hc).
    destruct (Z.eqb_spec (c1 a b) 0), (Z.eqb_spec (c1 b c) 0), (Z.eqb_spec (c1 a c) 0); lia.
Qed.
Lemma opp_good cmp : comparison_on P cmp -> comparison_on P (fun a b => - cmp a b).
Proof.
  intros C. split; [intros a b Ha Hb; by rewrite (cmp_opp _ _ C a b)|]. intros a b c Ha Hb Hc H1 H2.
  rewrite <- (cmp_opp _ _ C) in * by done. by apply (cmp_trans _ _ C c b a).
Qed.
Lemma map_good {B} (Q : B -> Prop) (f : A -> B) cmp : comparison_on Q cmp -> (forall a, P a -> Q (f a)) -> comparison_on P (fun a b => cmp (f a) (f b)).
Proof. intros C H. split; [intros; apply (cmp_opp _ _ C); auto|intros a b c; intros; apply (cmp_trans _ _ C _ (f b)); auto]. Qed.
Lemma agree_good c1 c2 : comparison_on P c1 -> (forall a b, P a -> P b -> c1 a b = c2 a b) -> comparison_on P c2.
Proof.
  intros C H. split; [intros a b Ha Hb; rewrite <- !H by done; by apply (cmp_opp _ _ C)|]. intros a b c Ha Hb Hc. rewrite <- !H by done. by apply (cmp_trans _ _ C).
Qed.

(** A strict weak order as a comparison. *)
Definition of_less (less : A -> A -> bool) (a b : A) : Z := if less a b then -1 else if less b a then 1 else 0.
Lemma less_good less :
  (forall a, P a -> less a a = false) -> (forall a b c, P a -> P b -> P c -> less a b = true -> less b c = true -> less a c = true) ->
  (forall a b c, P a -> P b -> P c -> less a c = true -> less a b = true \/ less b c = true) -> comparison_on P (of_less less).
Proof.
  intros Hi Ht Hn. assert (forall a b, P a -> P b -> less a b = true -> less b a = true -> False) as Has.
  { intros a b Ha Hb H1 H2. pose proof (Ht a b a Ha Hb Ha H1 H2) as H. by rewrite (Hi a Ha) in H. }
  split; unfold of_less.
  - intros a b Ha Hb. destruct (less a b) eqn:E1, (less b a) eqn:E2; try done. by destruct (Has a b).
  - intros a b c Ha Hb Hc. pose proof (Hn c b a Hc Hb Ha). pose proof (Has a b Ha Hb). pose proof (Has b c Hb Hc).
    destruct (less a b), (less b a), (less b c), (less c b), (less a c), (less c a); try done; naive_solver.
Qed.

(** Insertion sort on the domain of a comparison. *)
Lemma sort_by_strongly (le : A -> A -> bool) l :
  (forall a b, P a -> P b -> le a b = true \/ le b a = true) -> (forall a b c, P a -> P b -> P c -> le a b = true -> le b c = true -> le a c = true) ->
  Forall P l -> StronglySorted (fun a b => le a b = true) (sort_by le l).
Proof.
  intros Htot Htr. induction 1 as [|x l Hx Hl IH]; [constructor|]. change (sort_by le (x :: l)) with (insert_by le x (sort_by le l)). assert (Forall P (sort_by le l)) as Hs by (by rewrite <- (sort_by_perm le l)).
  clear Hl. revert IH Hs. generalize (sort_by le l) as s. induction s as [|y s IHs]; intros HS HP; cbn; [by repeat constructor|].
  apply Forall_cons in HP as [Hy HP]. inversion_clear HS as [|? ? HS' Hall]. destruct (le x y) eqn:E.
  - repeat constructor; try done. rewrite Forall_forall in Hall, HP |- *. intros z Hz. eauto.
  - constructor; [by apply IHs|]. rewrite <- insert_by_perm. constructor; [|done]. destruct (Htot x y Hx Hy); congruence.
Qed.
End comparisons.

Lemma StronglySorted_rev {A} (R : A -> A -> Prop) l : StronglySorted R l -> StronglySorted (fun a b => R b a) (rev l).
Proof.
  induction 1 as [|x l Hs IH Hx]; [constructor|]. cbn. apply sorting.StronglySorted_app. split_and!; [|done|by repeat constructor].
  intros y z Hy ->%list_elem_of_singleton. rewrite <- Permutation_rev in Hy. rewrite Forall_forall in Hx. auto.
Qed.

Lemma SliceStable_perm {A} (less : A -> A -> bool) l : Permutation l (SliceStable less l).
Proof. unfold SliceStable. rewrite <- Permutation_rev, <- sort_by_perm. apply Permutation_rev. Qed.

(** What a stable sort makes of the domain of a comparison. *)
Section sorted.
Context {A : Type} (P : A -> Prop) (cmp : A -> A -> Z) (less : A -> A -> bool).
Hypothesis C : comparison_on P cmp.
Hypothesis less_cmp : forall a b, P a -> P b -> less a b = (cmp a b <? 0).

Lemma SliceStable_sorted l : Forall P l -> StronglySorted (fun a b => cmp a b <= 0) (SliceStable less l).
Proof.
  intros Hl. assert (Forall P (SliceStable less l)) as Hs by (by rewrite <- SliceStable_perm).
  assert (StronglySorted (fun a b => negb (less b a) = true) (SliceStable less l)) as HS.
  { apply (StronglySorted_rev (fun a b => negb (less a b) = true)), (sort_by_strongly P); [| |by rewrite <- Permutation_rev].
    - intros a b Ha Hb. rewrite !less_cmp, (cmp_opp _ _ C a b) by done. destruct (Z.ltb_spec (cmp a b) 0); [right|by left]. apply negb_true_iff, Z.ltb_ge. lia.
    - intros a b c Ha Hb Hc. rewrite !less_cmp by done. rewrite !negb_true_iff, !Z.ltb_ge. pose proof (cmp_trans _ _ (opp_good _ _ C) a b c Ha Hb Hc). cbn in *. lia. }
  revert Hs. induction HS as [|x s HS IH Hx]; intros Hs; constructor; apply Forall_cons in Hs as [Px Ps]; [auto|]. rewrite Forall_forall in Hx, Ps |- *.
  intros y Hy. specialize (Hx y Hy). rewrite less_cmp in Hx by auto. apply negb_true_iff, Z.ltb_ge in Hx. rewrite (cmp_opp _ _ C x y) in Hx by auto. lia.
Qed.
Lemma SliceStable_unique l l' :
  Forall P l -> Permutation l l' -> (forall a b, a ∈ l -> b ∈ l -> cmp a b = 0 -> a = b) -> SliceStable less l = SliceStable less l'.
Proof.
  intros Hl Hp Ha. apply (sorting.StronglySorted_unique_strong (fun a b => cmp a b <= 0)).
  - intros a b Ha' Hb' H1 H2. rewrite <- SliceStable_perm in Ha', Hb'. rewrite <- Hp in Hb'. rewrite Forall_forall in Hl. apply Ha; auto. rewrite (cmp_opp _ _ C a b) in H2 by auto. lia.
  - by apply SliceStable_sorted.
  - apply SliceStable_sorted. by rewrite <- Hp.
  - by rewrite <- !SliceStable_perm.
Qed.
End sorted.

(** ** Scalars *)

(** Finite doubles are ordered. *)
Class FloatLaws `{Floats} := {
  flt_irrefl a : finite a = true -> flt a a = false;
  flt_trans a b c : finite a = true -> finite b = true -> finite c = true -> flt a b = true -> flt b c = true -> flt a c = true;
  flt_weak a b c : finite a = true -> finite b = true -> finite c = true -> flt a c = true -> flt a b = true \/ flt b c = true
}.

Lemma strings_good : comparison_on (fun _ => True) strings_Compare.
Proof.
  split; unfold strings_Compare.
  - intros a b _ _. rewrite String.compare_antisym. by destruct (String.compare a b).
  - intros a b c _ _ _. destruct (String.compare a b) eqn:E1; [by apply String.compare_eq_iff in E1 as ->| |lia].
    destruct (String.compare b c) eqn:E2; [apply String.compare_eq_iff in E2 as <-; by rewrite E1| |lia]. by rewrite (string_compare_trans _ _ _ E1 E2).
Qed.

Section scalars.
Context {F : Floats} {Laws : FloatLaws}.

Definition scmp (v w : value) : Z := default 0 (compareScalar v w).
Lemma number_kind v : scalarKind v = Some KNumber -> exists f, number v = Some f /\ finite f = true.
Proof. destruct v as [|b|z|f| |]; cbn; try done; [destruct (finite (of_Z z)) eqn:E|destruct (finite f) eqn:E]; try done; eauto. Qed.

Lemma compareScalar_kind k v w : scalarKind v = Some k -> scalarKind w = Some k -> compareScalar v w = Some (scmp v w).
Proof.
  intros Hv Hw. unfold scmp. assert (compareScalar v w <> None) as H; [|by destruct (compareScalar v w)]. unfold compareScalar. rewrite Hv, Hw, bool_decide_eq_true_2 by done. cbn.
  destruct k; [destruct v, w; cbn in *; repeat case_match; done|destruct v, w; cbn in *; repeat case_match; done|].
  destruct (number_kind v Hv) as (x & Ex & _), (number_kind w Hw) as (y & Ey & _). rewrite Ex, Ey. destruct v, w; done.
Qed.

Lemma scmp_good k : comparison_on (fun v => scalarKind v = Some k) scmp.
Proof.
  destruct k.
  - pose (text v := match v with VString s => s | _ => "" end).
    apply (agree_good _ (fun v w => strings_Compare (text v) (text w))); [by apply (map_good _ _ text _ strings_good)|].
    intros [] []; cbn; repeat case_match; done.
  - pose (bit v := match v with VBool b => Z.b2z b | _ => 0 end).
    apply (agree_good _ (fun v w => bit v - bit w)); [split; intros; lia|]. intros [|[]| | | |] [|[]| | | |]; cbn; repeat case_match; done.
  - pose (num v := default (of_Z 0) (number v)).
    apply (agree_good _ (fun v w => of_less flt (num v) (num w))).
    + apply (map_good _ (fun x => finite x = true)); [apply less_good; [apply flt_irrefl|apply flt_trans|apply flt_weak]|].
      intros v (f & Ef & Hf)%number_kind. subst num. cbn. by rewrite Ef.
    + intros v w Hv Hw. unfold scmp, compareScalar. rewrite Hv, Hw, bool_decide_eq_true_2 by done. cbn.
      destruct (number_kind v Hv) as (x & Ex & _), (number_kind w Hw) as (y & Ey & _). subst num. cbn. rewrite Ex, Ey. destruct v, w; done.
Qed.

(** ** Validated orders *)

(** The fields of an item have the kinds [ks] for the terms of an order. *)
Definition has_kinds (o : Order) (ks : list kind) (fields : Fields) : Prop :=
  Forall2 (fun t k => scalarKind (field_value fields (ot_field t)) = Some k) o ks.

Lemma validate_term_None field items : forall expected i, validate_term field expected i items = None <->
  exists k, (forall k', expected = Some k' -> k = k') /\ Forall (fun fields => scalarKind (field_value fields field) = Some k) items.
Proof.
  induction items as [|f items IH]; intros expected i; cbn [validate_term].
  - split; [|done]. intros _. exists (default KString expected). split; [by intros k' ->|constructor].
  - setoid_rewrite Forall_cons. unfold field_value at 1. destruct (f !! field) as [v|]; cbn [default]; [|naive_solver].
    destruct (scalarKind v) as [k|] eqn:Ek.
    + destruct v as [| | | | |]; try done; (destruct expected as [k'|]; [case_bool_decide as Hk; [subst; rewrite IH|]|rewrite IH]; naive_solver).
    + destruct v; naive_solver.
Qed.

Lemma Validate_None o items : Validate o items = None <-> exists ks, length ks = length o /\ Forall (has_kinds o ks) items.
Proof.
  induction o as [|t o IH]; cbn [Validate].
  - split; [|done]. intros _. exists []. split; [done|]. apply Forall_true. constructor.
  - destruct (validate_term (ot_field t) None 0 items) eqn:E.
    + split; [done|]. intros ([|k ks] & [=] & Hk). assert (validate_term (ot_field t) None 0 items = None); [|congruence]. apply validate_term_None. exists k. split; [done|].
      eapply Forall_impl; [exact Hk|]. by intros f [? _]%Forall2_cons.
    + rewrite IH. apply validate_term_None in E as (k & _ & Hk). split.
      * intros (ks & Hlen & Hks). exists (k :: ks). split; [cbn; lia|]. rewrite !Forall_forall in *. intros f Hf. constructor; [by apply Hk|by apply Hks].
      * intros ([|k' ks] & [=] & Hks). exists ks. split; [done|]. eapply Forall_impl; [exact Hks|]. by intros f [_ ?]%Forall2_cons.
Qed.

Definition field_cmp (o : Order) (a b : Fields) : Z := default 0 (Compare o a b).
Lemma Compare_kinds o : forall ks, length ks = length o ->
  comparison_on (has_kinds o ks) (field_cmp o) /\ forall a b, has_kinds o ks a -> has_kinds o ks b -> Compare o a b = Some (field_cmp o a b).
Proof.
  induction o as [|t o IH]; intros [|k ks] [=]; [split; [split; cbn; intros; lia|done]|]. destruct (IH ks) as [HC HS]; [done|].
  assert (forall a b, has_kinds (t :: o) (k :: ks) a -> has_kinds (t :: o) (k :: ks) b -> Compare (t :: o) a b =
    Some (lex (fun a b => if ot_descending t then - scmp (field_value a (ot_field t)) (field_value b (ot_field t)) else scmp (field_value a (ot_field t)) (field_value b (ot_field t))) (field_cmp o) a b)) as He.
  { intros a b [Ha Ha']%Forall2_cons [Hb Hb']%Forall2_cons. cbn [Compare]. rewrite (compareScalar_kind k) by done. rewrite HS by done. unfold lex.
    destruct (ot_descending t), (Z.eqb_spec (scmp (field_value a (ot_field t)) (field_value b (ot_field t))) 0) as [E|E]; rewrite ?E; try done. cbn. destruct (Z.eqb_spec (- scmp (field_value a (ot_field t)) (field_value b (ot_field t))) 0); [lia|done]. }
  split; [|intros a b Ha Hb; unfold field_cmp; by rewrite (He a b)].
  eapply agree_good; [|intros a b Ha Hb; unfold field_cmp; rewrite (He a b) by done; cbn; reflexivity]. apply lex_good.
  - assert (comparison_on (has_kinds (t :: o) (k :: ks)) (fun a b => scmp (field_value a (ot_field t)) (field_value b (ot_field t)))) as Hm.
    { apply (map_good _ _ (fun f => field_value f (ot_field t)) _ (scmp_good k)). by intros a [? _]%Forall2_cons. }
    destruct (ot_descending t); [|done]. by apply (opp_good _ _ Hm).
  - apply (map_good _ _ id _ HC). by intros a [_ ?]%Forall2_cons.
Qed.
End scalars.

(** ** Identifiers *)

Definition numeric (id : string) : bool := match parseWorkItemID id with Some _ => true | None => false end.
(** What tells two identifiers apart: the number, if it is one. *)
Definition id_key (id : string) : Z + string := match parseWorkItemID id with Some n => inl n | None => inr id end.

Lemma id_good b : comparison_on (fun id => numeric id = b) (of_less id_less).
Proof.
  destruct b.
  - pose (num id := default 0 (parseWorkItemID id)).
    apply (agree_good _ (fun x y => of_less Z.ltb (num x) (num y))).
    + apply (map_good _ (fun _ => True)); [|done]. apply less_good; intros *; rewrite ?Z.ltb_lt, ?Z.ltb_ge; lia.
    + intros x y. unfold numeric, of_less, id_less. subst num. cbn. by destruct (parseWorkItemID x), (parseWorkItemID y).
  - apply (agree_good _ strings_Compare); [by apply (map_good _ _ id _ strings_good)|].
    intros x y. unfold numeric, of_less, id_less, strings_Compare, String.ltb. destruct (parseWorkItemID x), (parseWorkItemID y); try done.
    rewrite (String.compare_antisym y x). by destruct (String.compare x y).
Qed.
Lemma id_cmp_key x y : numeric x = numeric y -> of_less id_less x y = 0 -> id_key x = id_key y.
Proof.
  unfold numeric, of_less, id_less, id_key. destruct (parseWorkItemID x) as [m|], (parseWorkItemID y) as [n|]; try done; intros _.
  - destruct (Z.ltb_spec m n), (Z.ltb_spec n m); try done. intros _. f_equal. lia.
  - destruct (String.ltb x y) eqn:E1, (String.ltb y x) eqn:E2; try done. intros _. by rewrite (string_ltb_trichotomy x y).
Qed.

(** ** Eligible items *)

Section eligible.
Context {F : Floats} {Laws : FloatLaws}.
Variables (priorityLabels : list string) (o : Order).

(** The order promised: labels first, then fields, then the identifier. *)
Definition precedes (a b : WorkItem) : Prop :=
  (itemPriorityRank a priorityLabels < itemPriorityRank b priorityLabels)%nat \/
  itemPriorityRank a priorityLabels = itemPriorityRank b priorityLabels /\
  exists c, Compare o (wi_Fields a) (wi_Fields b) = Some c /\ (c < 0 \/ c = 0 /\ id_less (wi_ID b) (wi_ID a) = false).

Definition item_cmp : WorkItem -> WorkItem -> Z :=
  lex (fun a b => Z.of_nat (itemPriorityRank a priorityLabels) - Z.of_nat (itemPriorityRank b priorityLabels))
    (lex (fun a b => field_cmp o (wi_Fields a) (wi_Fields b)) (fun a b => of_less id_less (wi_ID a) (wi_ID b))).
Definition comparable (ks : list kind) (b : bool) (item : WorkItem) : Prop := has_kinds o ks (wi_Fields item) /\ numeric (wi_ID item) = b.

Lemma item_good ks b : length ks = length o -> comparison_on (comparable ks b) item_cmp.
Proof.
  intros Hk. apply lex_good; [split; intros; lia|]. apply lex_good.
  - apply (map_good _ _ wi_Fields _ (proj1 (Compare_kinds o ks Hk))). by intros a [].
  - apply (map_good _ _ wi_ID _ (id_good b)). by intros a [].
Qed.
Lemma item_less_cmp ks b x y : length ks = length o -> comparable ks b x -> comparable ks b y -> item_less priorityLabels o x y = (item_cmp x y <? 0).
Proof.
  intros Hk [Hx _] [Hy _]. unfold item_less, item_cmp, lex. rewrite (proj2 (Compare_kinds o ks Hk)) by done.
  destruct (Nat.eqb_spec (itemPriorityRank x priorityLabels) (itemPriorityRank y priorityLabels)) as [->|Hr].
  - rewrite Z.sub_diag. cbn. destruct (Z.eqb_spec (field_cmp o (wi_Fields x) (wi_Fields y)) 0); cbn; [|done]. unfold of_less. by destruct (id_less (wi_ID x) (wi_ID y)), (id_less (wi_ID y) (wi_ID x)).
  - destruct (Z.eqb_spec (Z.of_nat (itemPriorityRank x priorityLabels) - Z.of_nat (itemPriorityRank y priorityLabels)) 0); [lia|]. cbn [negb].
    destruct (Nat.ltb_spec (itemPriorityRank x priorityLabels) (itemPriorityRank y priorityLabels)), (Z.ltb_spec (Z.of_nat (itemPriorityRank x priorityLabels) - Z.of_nat (itemPriorityRank y priorityLabels)) 0); done || lia.
Qed.
Lemma item_cmp_precedes ks b x y : length ks = length o -> comparable ks b x -> comparable ks b y -> item_cmp x y <= 0 -> precedes x y.
Proof.
  intros Hk [Hx _] [Hy _]. unfold item_cmp, lex, precedes. rewrite (proj2 (Compare_kinds o ks Hk)) by done.
  destruct (Z.eqb_spec (Z.of_nat (itemPriorityRank x priorityLabels) - Z.of_nat (itemPriorityRank y priorityLabels)) 0); [|left; lia].
  intros H. right. split; [lia|]. eexists; split; [done|]. destruct (Z.eqb_spec (field_cmp o (wi_Fields x) (wi_Fields y)) 0); [right|left; lia]. split; [done|].
  revert H. unfold of_less. destruct (id_less (wi_ID y) (wi_ID x)) eqn:E; [|done]. destruct (id_less (wi_ID x) (wi_ID y)) eqn:E'; [|lia]. exfalso.
  revert E E'. unfold id_less. destruct (parseWorkItemID (wi_ID x)), (parseWorkItemID (wi_ID y)); rewrite ?Z.ltb_lt; try lia;
    unfold String.ltb; rewrite (String.compare_antisym (wi_ID y)); by destruct (String.compare (wi_ID x) (wi_ID y)).
Qed.

Lemma compare_never_fails items ks : length ks = length o -> Forall (fun x => has_kinds o ks (wi_Fields x)) items -> compare_fails priorityLabels o items = false.
Proof.
  intros Hk HF. rewrite Forall_forall in HF. apply not_true_iff_false. unfold compare_fails. rewrite existsb_exists. intros (a & Ha & (b & Hb & H)%existsb_exists).
  apply list_elem_of_In in Ha, Hb. rewrite (proj2 (Compare_kinds o ks Hk)) in H by auto. by rewrite andb_false_r in H.
Qed.
Lemma sortEligible_Ok items : Validate o (map wi_Fields items) = None -> sortEligibleByFields items priorityLabels o = Ok (SliceStable (item_less priorityLabels o) items).
Proof.
  intros Hv. unfold sortEligibleByFields. rewrite Hv. apply Validate_None in Hv as (ks & Hk & HF). rewrite Forall_fmap in HF. by rewrite (compare_never_fails items ks).
Qed.

(** C25: Items that expose the ordered fields with one kind each, and whose identifiers
    are all numbers or all not, are put in the promised order: by the first priority
    label they carry, then by the terms of the field order, then oldest first.  No
    item is lost or repeated, no comparison fails, and where identifiers tell the
    items apart, the order the provider listed them in leaves no trace. *)
Theorem eligible_items_are_ordered items b :
  Validate o (map wi_Fields items) = None -> Forall (fun x => numeric (wi_ID x) = b) items ->
  exists sorted, sortEligibleByFields items priorityLabels o = Ok sorted /\ Permutation items sorted /\ StronglySorted precedes sorted /\
    (NoDup (map (fun x => id_key (wi_ID x)) items) -> forall items', Permutation items items' -> sortEligibleByFields items' priorityLabels o = Ok sorted).
Proof.
  intros Hv Hid. pose proof Hv as (ks & Hk & HF)%Validate_None. rewrite Forall_fmap in HF.
  assert (Forall (comparable ks b) items) as HP by (rewrite !Forall_forall in *; intros x Hx; split; [by apply HF|by apply Hid]).
  exists (SliceStable (item_less priorityLabels o) items). split_and!; [by apply sortEligible_Ok|apply SliceStable_perm| |].
  - assert (Forall (comparable ks b) (SliceStable (item_less priorityLabels o) items)) as HS by (by rewrite <- SliceStable_perm).
    pose proof (SliceStable_sorted _ _ _ (item_good ks b Hk) (fun x y => item_less_cmp ks b x y Hk) items HP) as Hs. revert HS.
    induction Hs as [|x l Hs IH Hx]; intros HS; constructor; apply Forall_cons in HS as [Px Pl]; [auto|]. rewrite Forall_forall in Hx, Pl |- *.
    intros y Hy. by apply (item_cmp_precedes ks b); auto.
  - intros Hnd items' Hp. rewrite sortEligible_Ok; [|apply Validate_None; exists ks; split; [done|]; apply Forall_fmap; by rewrite <- Hp].
    f_equal. symmetry. apply (SliceStable_unique _ _ _ (item_good ks b Hk) (fun x y => item_less_cmp ks b x y Hk)); [done|done|].
    intros x y Hx Hy Hc. rewrite Forall_forall in Hid. assert (id_key (wi_ID x) = id_key (wi_ID y)) as Hkey.
    { apply id_cmp_key; [by rewrite !Hid|]. revert Hc. unfold item_cmp, lex. repeat case_match; rewrite ?Z.eqb_eq, ?Z.eqb_neq in *; lia. }
    apply list_elem_of_lookup in Hx as [i Hi], Hy as [j Hj]. assert (i = j) as ->; [|congruence].
    apply (NoDup_lookup (map (fun x => id_key (wi_ID x)) items) i j (id_key (wi_ID x))); [done|by rewrite list_lookup_fmap, Hi|by rewrite list_lookup_fmap, Hj, Hkey].
Qed.
End eligible.

(** ** Mixed identifiers *)

Section mixed.
Context {F : Floats}.
Definition plain_item (id : string) : WorkItem := mkWorkItem id [] ∅.

(** When some identifiers are numbers and others are not, the comparison runs in
    a circle: 9 comes before 10, 10 before 5x and 5x before 9.  No arrangement of
    three such items satisfies it, and the sort leaves 10 in front of 9. *)
Theorem mixed_identifiers_have_no_order :
  (forall l, Permutation l (map plain_item ["10"; "5x"; "9"]) -> ~ StronglySorted (fun a b => item_less [] [] b a = false) l) /\
  sortEligibleByFields (map plain_item ["10"; "5x"; "9"]) [] [] = Ok (map plain_item ["10"; "5x"; "9"]) /\
  sortEligibleByFields (map plain_item ["10"; "9"]) [] [] = Ok (map plain_item ["9"; "10"]).
Proof.
  split; [|by split; vm_compute]. intros l Hp Hs.
  assert (forall x, x ∈ l -> exists y, y ∈ l /\ item_less [] [] y x = true) as Hc.
  { intros x. setoid_rewrite Hp. cbn [map]. rewrite !elem_of_cons. intros [->|[->|[->|?%not_elem_of_nil]]]; [exists (plain_item "9")|exists (plain_item "10")|exists (plain_item "5x")|done];
      (split; [set_solver|by vm_compute]). }
  destruct Hs as [|x l Hs Hx]; [by apply Permutation_nil in Hp|]. destruct (Hc x ltac:(by left)) as (y & [->|Hy]%elem_of_cons & Hl).
  - assert (forall x : WorkItem, item_less [] [] x x = false) as Hi; [|by rewrite Hi in Hl].
    intros z. unfold item_less. cbn. unfold id_less. destruct (parseWorkItemID (wi_ID z)); [apply Z.ltb_irrefl|]. unfold String.ltb. by rewrite string_compare_refl.
  - rewrite Forall_forall in Hx. specialize (Hx y Hy). congruence.
Qed.
End mixed.

(** ** Predicates and orders on concrete items

    Doubles as integers, an evaluator of the operators predicates use, and two
    expressions it parses; the theorems on predicates and orders applied to them. *)

Module PredicateExample.
Local Open Scope nat_scope.
Local Open Scope string_scope.
Local Open Scope list_scope.

#[local] Instance whole : Floats := {| Float := Z; of_Z z := z; finite _ := true; flt := Z.ltb |}.
#[local] Instance whole_laws : FloatLaws.
Proof. split; cbn; intros *; rewrite ?Z.ltb_lt, ?Z.ltb_ge; lia. Qed.

(** ** Labels *)

Definition bug : expr := ECall None In_ [EConst (CString "bug"); EIdent "labels"].
Definition wip : expr := ECall None In_ [EConst (CString "wip"); EIdent "labels"].
Definition ready : expr := ECall None LogicalAnd [bug; ECall None LogicalNot [wip]].

Fixpoint eval_label (e : expr) (labels : gset string) : cel_result :=
  match e with
  | ECall None f [a; b] =>
      if f =? LogicalAnd then cel_and (eval_label a labels) (eval_label b labels)
      else if f =? LogicalOr then cel_or (eval_label a labels) (eval_label b labels)
      else match string_constant a with
      | Some s => if ident_name b =? "labels" then CelBool (bool_decide (s ∈ labels)) else CelError
      | None => CelError
      end
  | ECall None f [a] => if f =? LogicalNot then cel_not (eval_label a labels) else CelError
  | _ => CelValue
  end.
#[local] Instance label_cel : LabelCEL :=
  {| compile_labels text := if text =? "ready" then Some ready else None; program_labels _ := true; eval_labels := eval_label |}.
#[local] Instance label_cel_laws : LabelLaws.
Proof. split; try done. intros f s b labels [-> | ->] Hb; cbn; by rewrite Hb. Qed.

Definition ready_predicate : Label.Predicate :=
  Label.mkPredicate ["agent"] ["hold"] ({["wip"]} ∪ ({["bug"]} ∪ list_to_set ["agent"])) (Some ready).

Lemma label_predicate_is_exact_witness :
  Label.Compile " ready " ["agent"] ["hold"] = Ok ready_predicate /\ Label.Matches ready_predicate ["triaged"; "agent"; "bug"] = Ok true.
Proof.
  split; [by vm_compute|]. rewrite (proj2 (label_predicate_is_exact " ready " ["agent"] ["hold"] ready_predicate ["agent"; "bug"] ltac:(by vm_compute)) ["triaged"; "agent"; "bug"]).
  - by vm_compute.
  - intros l Hl. assert ("triaged" ∉ Label.Labels ready_predicate) by (apply (bool_decide_unpack _); by vm_compute). split; [by right|]. by intros [->|Hb]%elem_of_cons.
Defined.

(** ** Fields *)

Definition const_value (e : expr) : value :=
  match e with
  | EConst (CString s) => VString s
  | EConst (CBool b) => VBool b
  | EConst (CInt z) | EConst (CUint z) => VInt z
  | EConst (CDouble f) => VFloat f
  | _ => VNil
  end.
(** How the field compares with the constant. *)
Definition compared (f : string) (v w : value) : cel_result :=
  match compareScalar v w with
  | None => if f =? Equals then CelBool false else if f =? NotEquals then CelBool true else CelError
  | Some c =>
      if f =? Equals then CelBool (c =? 0)%Z
      else if f =? NotEquals then CelBool (negb (c =? 0)%Z)
      else if f =? Less then CelBool (c <? 0)%Z
      else if f =? LessEquals then CelBool (c <=? 0)%Z
      else if f =? Greater then CelBool (0 <? c)%Z
      else CelBool (0 <=? c)%Z
  end.
Fixpoint eval_field (e : expr) (fields : Fields) : cel_result :=
  match e with
  | ECall None f [a; b] =>
      if f =? LogicalAnd then cel_and (eval_field a fields) (eval_field b fields)
      else if f =? LogicalOr then cel_or (eval_field a fields) (eval_field b fields)
      else match Field.fieldComparison a b with
      | None => CelError
      | Some (name, fieldOnLeft) =>
          match fields !! name with
          | None => CelError
          | Some v => compared f v (const_value (if fieldOnLeft then b else a))
          end
      end
  | ECall None f [a] => if f =? LogicalNot then cel_not (eval_field a fields) else CelError
  | ECall (Some target) f [a] =>
      match Field.fieldAccess target, string_constant a with
      | Some name, Some s =>
          match fields !! name with
          | Some (VString v) => if f =? "startsWith" then CelBool (String.prefix s v) else CelError
          | _ => CelError
          end
      | _, _ => CelError
      end
  | _ => CelValue
  end.

Definition field (name : string) : expr := ECall None Index [EIdent "fields"; EConst (CString name)].
Definition open_state : expr := ECall None Equals [field "state"; EConst (CString "open")].
Definition urgent : expr := ECall None LogicalAnd [open_state; ECall None LessEquals [field "severity"; EConst (CInt 2)]].
Definition titled : expr := ECall (Some (field "title")) "startsWith" [EConst (CString "fix")].

#[local] Instance field_cel : FieldCEL :=
  {| compile_fields text := if text =? "urgent" then Some urgent else if text =? "titled" then Some titled else None;
     program_fields _ := true; eval_fields := eval_field |}.

Lemma compared_string v s : compared Equals v (VString s) = CelBool true -> v = VString s.
Proof.
  unfold compared, compareScalar. destruct v as [t| | | | |]; cbn; try done. unfold strings_Compare. destruct (String.compare t s) eqn:E; try done.
  by apply String.compare_eq_iff in E as ->.
Qed.
#[local] Instance field_cel_laws : FieldLaws.
Proof.
  split; try done.
  - intros f a b name side fields fields' Hf Hc Hn. cbn. rewrite Hc, Hn. unfold Field.comparisons in Hf. set_unfold in Hf. by destruct_or?; subst.
  - intros target f a name fields fields' Hf Ht Hn. cbn. rewrite Ht, Hn. done.
  - intros a b name v fields H He. cbn in He. assert (exists side, Field.fieldComparison a b = Some (name, side) /\ const_value (if side then b else a) = VString v) as (side & Hc & Hv).
    { destruct H as [[Ha Hb%string_constant_Some]|[Hb Ha%string_constant_Some]]; subst; unfold Field.fieldComparison; cbn; [rewrite Ha; by exists true|rewrite Hb; by exists false]. }
    rewrite Hc, Hv in He. destruct (fields !! name) as [w|]; [|done]. by rewrite (compared_string w v).
Qed.

Definition both_levels : Field.Predicate :=
  Field.mkPredicate ({["title"]} ∪ ({["severity"]} ∪ {["state"]})) {["title"]} [Field.mkEquality "state" "open"] [urgent; titled].
Definition issue (title : string) : Fields := {["state" := VString "open"; "severity" := VInt 1; "title" := VString title; "assignee" := VNil]}.

Lemma field_predicate_narrows_soundly_witness :
  Field.CompileConjunction ["urgent"; ""; "titled"] = Ok both_levels /\ Field.Matches both_levels (issue "fix the log") = Ok true /\
  issue "fix the log" !! "state" = Some (VString "open") /\ Field.Matches both_levels (delete "assignee" (issue "fix the log")) = Ok true.
Proof.
  assert (Field.CompileConjunction ["urgent"; ""; "titled"] = Ok both_levels) as Hc by (by vm_compute). destruct (field_predicate_narrows_soundly _ _ Hc) as (_ & Hreq & Hdep).
  split; [done|]. split; [by vm_compute|]. split; [apply (Hreq (issue "fix the log") ltac:(by vm_compute) (Field.mkEquality "state" "open") ltac:(by left))|].
  rewrite <- (Hdep (issue "fix the log")); [by vm_compute|]. intros name Hn. assert ("assignee" ∉ Field.ReferencedFields both_levels) by (apply (bool_decide_unpack _); by vm_compute). symmetry. apply (lookup_delete_ne (M := gmap string)). by intros <-.
Defined.

(** ** Orders *)

Definition item (id : string) (labels : list string) (severity : Z) : WorkItem := mkWorkItem id labels {["severity" := VInt severity]}.
Definition backlog : list WorkItem := [item "40" [] 2; item "7" [] 2; item "12" ["security"] 1; item "9" [] 3].
Definition by_severity : Order := [mkTerm "severity" true].

Lemma eligible_items_are_ordered_witness :
  Validate by_severity (map wi_Fields backlog) = None /\
  exists sorted, sortEligibleByFields backlog ["security"] by_severity = Ok sorted /\ map wi_ID sorted = ["12"; "9"; "7"; "40"] /\
    StronglySorted (precedes ["security"] by_severity) sorted /\ sortEligibleByFields (rev backlog) ["security"] by_severity = Ok sorted.
Proof.
  split; [by vm_compute|]. destruct (eligible_items_are_ordered ["security"] by_severity backlog true) as (sorted & Hs & Hp & HS & Hu); [by vm_compute|by repeat constructor|].
  exists sorted. split; [done|]. split; [|split; [done|]].
  - vm_compute in Hs. by injection Hs as <-.
  - apply Hu; [|apply Permutation_rev]. apply (bool_decide_unpack _). by vm_compute.
Defined.
End PredicateExample.
